(* ===== verification/_CoqProject ===== *)
-Q . S2P
Prelude.v
GoError.v
Go.v
Limits.v
Budget.v
Rate.v
Chain.v
ErrGroup.v
BoundedMap.v
Classify.v
GoStrings.v
Float64.v
Policy.v
ResourcePlan.v
RunEnv.v
Digest.v
Json.v
JsonProofs.v
Fsutil.v
Cache.v
Report.v
Clone.v
Step.v
Observe.v
Runner.v
RunnerProofs.v
Pipeline.v
PipelineProofs.v
Calm.v
Flow.v
FlowProofs.v
RunExact.v
ObserveRun.v
Typed.v
Groups.v
CachedMap.v
CachedMapProofs.v
CachedStore.v
Bulk.v
BulkProofs.v
CalmRun.v
Override.v
MixedRun.v
BulkRun.v
Batch.v
BatchProofs.v
BatchRun.v
Rely.v
Mysql.v
MysqlProofs.v
MysqlRecovery.v
MysqlEntries.v
MysqlRun.v
MysqlMap.v
MysqlMapRun.v
Paths.v
