(* ===== verification/Prelude.v ===== *)
(** * Flowkit, a verification development

    Flowkit (Go) runs a step, or a pipeline of steps, over a list of items: with a
    bounded pool of workers per step, budgets and rates that bound what is spent, a
    content-addressed cache that makes finished items free, retries and quarantine
    for those that fail, and a report, snapshots and a ledger of what happened.  This
    library models the two packages that do so, execution and flow, with the internal
    packages they use, and proves what they promise.  Paths are relative to src/;
    definitions keep the names of the source where Rocq allows it.

    ** How the program is modelled

    Sequential code is a Rocq function; failing code returns [res] (GoError.v), whose
    errors are the error trees of the source.  Code that shares memory is a [prog]
    (Go.v), a tree of atomic actions on a world: one action is one critical section of
    a mutex, one atomic operation, one channel operation or one call of a
    collaborator, and lists all its possible results.  Goroutines that run side by
    side are interleaved action by action: by [pool_step] for a given list of them,
    and by the transition systems of BoundedMap.v ([fire], for Map) and Pipeline.v
    ([fire], for runStages), whose states hold the goroutines, the channels and what
    the workers work on.  Between any two actions the surroundings may act, by a
    relation [Env] on which a theorem puts exactly the conditions it states.  What a
    caller passes in (work functions, stores, hooks, ledgers, reporters, limiters of
    his own) is a parameter, a program on the same world.

    Three logics carry the proofs.  [owns] (Go.v): every goroutine owns an account, an
    invariant relates the world to the sum of the accounts; this is how counters and
    budgets are shown exact under every interleaving.  [guarantees] (Go.v): what every
    single action does.  [upholds] (Rely.v): rely and guarantee, for the constructors
    that share a database.  [always] (Go.v) and [surely] (Rely.v) are for code that
    runs alone: what holds at every moment (for crashes), and that it ends well.

    ** The files

    Foundations: Prelude.v (64-bit integers, generic lemmas), GoError.v, Go.v, Rely.v,
    GoStrings.v (UTF-8, strings), Float64.v (binary64), ErrGroup.v (errgroup as a
    class of what its documentation says).

    Package execution:
    - Limits.v, Budget.v, Rate.v, Chain.v: reservation.go, budget.go, rate.go and
      chain.go.  A pointer is an index into the list of objects of its kind.
      [reservation_settles_once], [Budget_Wait_branches], [TokenBucket_rate_bound],
      [Wait_exact]: under every interleaving a budget loses exactly the units of the
      calls that succeeded.
    - BoundedMap.v: map.go.  [Map_contract] (every item exactly once, in order, or an
      error of a job or of the context), [Map_spend], [Map_progress] and
      [Map_terminates], [Map_pure] (with a pure function Map is the list map).
    - ResourcePlan.v: resource_plan.go.
    - Digest.v, Json.v, JsonProofs.v: internal/digest and internal/jsonutil over an
      executable SHA-256 and an executable JSON printer and parser, which are proved
      inverse.  [DecodeStrictInto_strict]: the text of a tree is accepted exactly when
      its decoder accepts the tree and only blanks follow; unknown members and second
      values are refused.
    - Fsutil.v: AtomicWrite of internal/fsutil over a file system that can crash, with
      its directories: [MkdirAll] creates the missing parents, syncing a directory
      makes its own entries durable, and a crash loses what hangs in a directory whose
      entry was not ([anchored] directories are safe).  [AtomicWrite_crash_safe] says
      exactly when a published file survives.  Paths.v: its JoinWithin and DirectorySize ([JoinWithin_contained]: no input
      leads out of the root).
    - Cache.v: cache.go, and MemoryStore of flow/store.go.  [FileCache_Load_answers]
      spells out every answer of Load in terms of [is_entry], [FileCache_Store_atomic]
      is the crash safety of Store, [Key_Digest_collision] the distinctness of digests.
    - Groups.v, CachedMap.v, CachedMapProofs.v, CachedStore.v: cached_map.go and
      cached_batch_map.go: where every result comes from, that the report counts it,
      and that over a right store the map computes its function ([MapCached_memory]).
    - Mysql.v, MysqlProofs.v, MysqlRecovery.v, MysqlEntries.v, MysqlRun.v:
      mysql_cache.go.  [migrations_safe] is about any number of interleaved,
      failing, interrupted constructors, [NewMySQLCache_recovers] about the one that
      finds a working server after them; [check_row], the
      file's own copy of the validation of an envelope, is shown to answer what the
      file cache's [check_entry] does ([MySQLCache_Load_answers] runs both caches);
      MysqlRun.v is a server in memory with every property assumed.
    - MysqlMap.v, MysqlMapRun.v: MapCached over the MySQL cache ([MapCached_mysql]).

    Package flow:
    - Classify.v, Policy.v, Report.v, Step.v: classify.go; policy.go with the delay
      functions of run.go; report.go; step.go, store.go and the publications of
      observe.go.
    - Clone.v: Clone of report.go over a heap of maps ([Report_Clone_independent]).
    - Observe.v, ObserveRun.v: the periodic reporter of observe.go, its goroutine and
      the function that stops it as a transition system.  [reporter_joined] says what
      a run has to expect of it, and justifies [surroundings], the part of a run's
      environment that stands for the goroutine; [stop_returns] that stopping ends.
    - RunEnv.v: the admission environment of run.go ([ensure_transactional],
      [admit_exact]; [ensure_gated]: after any sequence of calls the estimate is that
      of all plans together, and within the gate).
    - Runner.v, RunnerProofs.v: typedRunner, the engine of one stage.
      [process_resolves] and [process_counts]: an item resolves to what its attempts
      give under the policy, and counters and budget are exact however the workers
      interleave and items share a key.  [DoQ], [LoadQ] and [PutQ] are what is known of
      the results of Do, of the values the store returns and of those it accepts; a
      result marked stored is one the store accepted under the item's key.
    - Pipeline.v, PipelineProofs.v: runStages, with stages of workers and stages that
      give all of their input to an engine.  [pipeline_contract]: nothing is lost or
      repeated on the way through the channels.  Calm.v: when a pipeline meets the
      condition that the contract puts on barrier stages; CalmRun.v: it does if the
      functions a caller passes in cancel only contexts they have made
      ([spared_calm], [spared_aligned]).
    - Flow.v, FlowProofs.v, RunExact.v, Typed.v: Run with its reporter, Pipe2 to Pipe4,
      steps with an engine of their own and overrideStageRunner, which puts such a step
      into a pipeline.  [results_aligned]: the k-th runner of a run is one the k-th stage
      builds, and result i is what these runners made of item i, one after the other.
      [step_exact]: all of the contract of a plain step, down to the counters, meters
      and spend of its report.  [pipeline_typed]: no type assertion fails at any moment
      of any run, failed runs included.  [engine_completion_refused].
    - Bulk.v, BulkProofs.v, Override.v, MixedRun.v, BulkRun.v: bulk.go; what the stage
      of a custom engine promises; MixedRun.v is a pipeline with such a stage.
    - Batch.v, BatchProofs.v, BatchRun.v: batch.go, which nests two runs.
    The files whose names end in Run, and the last part of most others, are concrete
    runs that satisfy the hypotheses of the theorems.

    ** Interfaces

    [Has C W] says that a world has a component, so that the code of one component runs
    inside the worlds of its clients ([zoom]); [Account] is the monoid of [owns];
    [Codec] and [Boxed] are what encoding/json and the type any are to a caller's
    type; [ErrGroup] is errgroup; [cache] (CachedMap.v) and [Store] (Step.v) are the
    interfaces Cache and Store; [cache_client] is what the cached maps ask of a cache
    and CachedStore.v discharges for MemoryStore; [Aligned] and [EngineAligned]
    (Override.v) are what a pipeline asks of an engine, discharged for plain steps,
    bulk steps and batched steps; [mysql_server] and [in_service] state what is
    relied on of a database.

    ** Bounds and fuel

    Integers are Z; every operation of the source that could leave 64 bits is written
    with [wrap64] ([+!], [-!], [*!]), and the bounds theorems say where it never does.
    [replenish n] is the replenisher up to its n-th tick and [process] bounds its
    retry loop by the attempts of the policy, which the source checks to be finite.
    Cutting a list into batches recurses on its length; the JSON parser on the length
    of the text and on the nesting depth encoding/json allows.  Termination of Map is
    a theorem about the transition system, without fuel.

    ** What modelling showed

    A file published in a directory that had to be created can vanish with it in a
    crash, for the parents are never synced (Fsutil.v); invalid UTF-8 in keys makes
    them share a digest (Cache.v); a live report shares a
    map that workers write (RunnerProofs.v); merging reports can overflow meters
    (Report.v); a run canceled while a barrier stage hands over ends without an error
    (PipelineProofs.v); huge batch sizes panic (CachedStore.v); inside a pipeline, the
    ledger events and hooks of a custom engine carry compact positions (Override.v);
    a batched step declares the resources of a composed repair step too late, and does
    not remap its hooks (BatchProofs.v); with a periodic reporter the last event of a
    custom engine is emitted in a context that has ended (FlowProofs.v); a nil value of an interface type fails a
    pipeline (Typed.v); the schema check of the MySQL cache accepts a composite key
    (MysqlProofs.v) and the name of its own version table (MysqlRun.v).

    ** What is not modelled

    - Except in Clone.v reports are values; the map a running stage writes is modelled
      where it is written.  The nil-target checks of Load: a target is given.
    - logProgress and the progress lines of bulk.go log only.
    - registerReport: the report an engine shows while it works, to the reporter of its
      own run or of the pipeline it is a stage of, may be any report.
    - What the engine of a stage does between its start and its end: its relation only
      says how it begins and ends, so the world may change in any way meanwhile, and
      theorems about such pipelines ([results_aligned]) are about the items, not about
      counters and budgets.
    - The meters of a report are those the runner has summed up; which order its workers
      added them in, and so how the sum was rounded, is not stated.
    - Permissions and kinds of files: a path of the file system is a file or a directory,
      and what a system call refuses is any error.
    - The callbacks Group and Split of batch.go are functions, not programs.
    - Timeouts of the terminal context: they only matter to a reporter that waits.
    - go-sql-driver and the MySQL server, errgroup: parameters with documented laws.
    - logcopter.go, cmd/, doc_embed.go, examples/, scripts/ and the test support:
      logging, glue over third-party packages and fixtures. *)

From stdpp Require Export base tactics list gmap strings option pretty.
From Stdlib Require Export ZArith Lia.

#[global] Open Scope Z_scope.

(** ** Go's 64-bit [int], [int64] and [time.Duration]

    A Go [int] is a [Z] in the signed 64-bit range.  Every operation of the
    source whose result could leave that range is written with the wrapping
    operators of [go_scope]; the bounds theorems show where wrapping never
    happens. *)

Definition min64 : Z := - 2 ^ 63.
Definition max64 : Z := 2 ^ 63 - 1.
Definition in64 (z : Z) : Prop := min64 ≤ z ≤ max64.
Definition wrap64 (z : Z) : Z := (z + 2 ^ 63) mod 2 ^ 64 - 2 ^ 63.

Declare Scope go_scope.
Delimit Scope go_scope with go.
Infix "+!" := (fun a b : Z => wrap64 (a + b)) (at level 50, left associativity) : go_scope.
Infix "-!" := (fun a b : Z => wrap64 (a - b)) (at level 50, left associativity) : go_scope.
Infix "*!" := (fun a b : Z => wrap64 (a * b)) (at level 40, left associativity) : go_scope.
#[global] Open Scope go_scope.

Lemma wrap64_id z : in64 z → wrap64 z = z.
Proof.
  unfold in64, wrap64, min64, max64. intros H.
  rewrite Z.mod_small; lia.
Qed.

Lemma wrap64_range z : in64 (wrap64 z).
Proof.
  unfold in64, wrap64, min64, max64.
  pose proof (Z.mod_pos_bound (z + 2 ^ 63) (2 ^ 64) ltac:(lia)). lia.
Qed.

(** Counting on from a wrapped counter. *)
Lemma wrap64_succ (z d : Z) : wrap64 z +! d = wrap64 (z + d).
Proof.
  unfold wrap64. f_equal.
  replace ((z + 2 ^ 63) mod 2 ^ 64 - 2 ^ 63 + d + 2 ^ 63) with ((z + 2 ^ 63) mod 2 ^ 64 + d) by lia.
  rewrite Zplus_mod_idemp_l. f_equal. lia.
Qed.

(** Closes a goal about machine integers once the ranges are in the context. *)
Ltac int64 :=
  unfold in64, min64, max64 in *;
  repeat rewrite wrap64_id in * by (unfold in64, min64, max64 in *; lia);
  lia.

(** ** Case analysis on the conditionals of a translated function *)

Ltac break :=
  match goal with
  | |- context [match ?x with _ => _ end] => destruct x eqn:?
  | H : context [match ?x with _ => _ end] |- _ => destruct x eqn:?
  end.

Ltac breaks := repeat (break; simplify_eq/=).

(** ** Lists *)

Section lists.
Context {A B : Type}.
Implicit Types l : list A.

(** The first element on which [f] is defined. *)
Fixpoint first_some (f : A → option B) l : option B :=
  match l with
  | [] => None
  | x :: l => match f x with Some y => Some y | None => first_some f l end
  end.

Lemma first_some_None f l : first_some f l = None ↔ ∀ x, x ∈ l → f x = None.
Proof.
  induction l as [|x l IHl]; simpl; [split; [intros _ ? []%elem_of_nil|done]|].
  destruct (f x) eqn:Efx; split.
  - done.
  - intros H. specialize (H x). rewrite Efx in H. set_solver.
  - intros H y [->|Hy]%elem_of_cons; [done|]. by apply IHl.
  - intros H. apply IHl. set_solver.
Qed.
End lists.

(** Sums of integers over a list. *)
Definition sum_by {A} (f : A → Z) (l : list A) : Z := foldr (λ x s, f x + s) 0 l.

Lemma sum_by_app {A} (f : A → Z) l1 l2 : sum_by f (l1 ++ l2) = sum_by f l1 + sum_by f l2.
Proof. induction l1; simpl; lia. Qed.

Lemma sum_by_insert {A} (f : A → Z) l i x y :
  l !! i = Some x → sum_by f (<[i:=y]> l) = sum_by f l - f x + f y.
Proof.
  revert i. induction l as [|z l IH]; intros [|i]; simpl; intros; simplify_eq; [lia|].
  rewrite (IH i) by done. lia.
Qed.

Lemma sum_by_nonneg {A} (f : A → Z) l : (∀ x, x ∈ l → 0 ≤ f x) → 0 ≤ sum_by f l.
Proof.
  induction l as [|x l IH]; simpl; intros H; [done|].
  pose proof (H x ltac:(left)).
  pose proof (IH ltac:(intros; apply H; by right)). lia.
Qed.

Lemma sum_by_elem {A} (f : A → Z) l i x :
  (∀ x, x ∈ l → 0 ≤ f x) → l !! i = Some x → f x ≤ sum_by f l.
Proof.
  revert i. induction l as [|y l IH]; intros [|i] H Hi; simplify_eq/=.
  - pose proof (sum_by_nonneg f l ltac:(intros; apply H; by right)). lia.
  - pose proof (H y ltac:(left)).
    pose proof (IH i ltac:(intros; apply H; by right) Hi). lia.
Qed.

Create Rewrite HintDb sums.
#[export] Hint Rewrite @sum_by_app : sums.

(** ** Termination of steps that decrease one element of a list *)

Section list_wf.
Context {A : Type} (R : A → A → Prop).

(** [l'] is [l] with one element replaced by a smaller one. *)
Inductive list_lt : list A → list A → Prop :=
| list_lt_here x' x l : R x' x → list_lt (x' :: l) (x :: l)
| list_lt_later x l' l : list_lt l' l → list_lt (x :: l') (x :: l).

Lemma list_lt_insert l i x x' :
  l !! i = Some x → R x' x → list_lt (<[i:=x']> l) l.
Proof.
  revert i. induction l as [|y l IH]; intros [|i] ? HR; simplify_eq/=.
  - by constructor.
  - constructor. by apply IH.
Qed.

Lemma list_lt_cons_Acc x : Acc R x → ∀ l, Acc list_lt l → Acc list_lt (x :: l).
Proof.
  induction 1 as [x Hx IHx]. intros l Hl.
  induction Hl as [l Hl IHl]. constructor. intros l' Hlt.
  inversion Hlt; subst.
  - apply IHx; [done|]. by constructor.
  - by apply IHl.
Qed.

Lemma list_lt_wf : well_founded R → well_founded list_lt.
Proof.
  intros Hwf l. induction l as [|x l IH].
  - constructor. intros l' Hlt. inversion Hlt.
  - by apply list_lt_cons_Acc.
Qed.
End list_wf.

(** ** Options *)

(** A value that was computed is the one [default] gives. *)
Lemma ended {A} (P : A → Prop) (o : option A) (d : A) :
  match o with Some s => P s | None => False end → o = Some (default d o) ∧ P (default d o).
Proof. by destruct o. Qed.
