(* ===== verification/GoError.v ===== *)
(** * Go error values

    The error values the repository builds and inspects: [fmt.Errorf] with its
    format string and arguments kept as data, the package's sentinels, the two
    error types of flow/classify.go, [errors.Join], and error types a caller
    defines.  [Is], [IsDataError] and [HTTPStatusOf] are the tree walks of
    [errors.Is] and [errors.As]; [Error] renders the text. *)

From S2P Require Import Prelude.
From Stdlib Require Import Ascii SpecFloat.

#[local] Set Warnings "-register-all".

(** [errors.New] values compared by identity. *)
Inductive sentinel :=
| ErrBudgetExceeded      (* execution/budget.go *)
| ErrCorruptCache        (* execution/cache.go *)
| Canceled               (* context.Canceled *)
| DeadlineExceeded       (* context.DeadlineExceeded *)
| EOF                    (* io.EOF *)
| ErrNotExist            (* os.ErrNotExist *)
| ErrNoRows.             (* database/sql.ErrNoRows *)

#[export] Instance sentinel_eq_dec : EqDecision sentinel.
Proof. solve_decision. Defined.

(** What the repository can observe of an error type it does not define: its
    text, the sentinels its own [Is] method accepts, and its [HTTPStatus]
    method when it has one. *)
Record foreign := Foreign {
  fe_text : string;
  fe_is : list sentinel;
  fe_status : option Z;
}.

Inductive error :=
| Errorf (format : string) (args : list errarg)
| Sentinel (s : sentinel)
| DataErr (e : error)                         (* flow.dataError *)
| StatusErr (code : Z) (e : option error)     (* flow.StatusError *)
| JoinErr (es : list error)                   (* errors.Join *)
| ForeignErr (f : foreign) (inner : option error)
with errarg :=
| ArgInt (z : Z)
| ArgStr (s : string)
| ArgFloat (f : spec_float)
| ArgErr (e : error)                          (* an error printed with %v *)
| ArgWrap (e : error).                        (* an error wrapped with %w *)

(** A Go [(T, error)] result of which exactly one part is used. *)
Inductive res (A : Type) :=
| Ok (a : A)
| Err (e : error).
Arguments Ok {_} _.
Arguments Err {_} _.

#[export] Instance res_ret : MRet res := λ A a, Ok a.
#[export] Instance res_bind : MBind res := λ A B f r,
  match r with Ok a => f a | Err e => Err e end.
#[export] Instance res_fmap : FMap res := λ A B f r,
  match r with Ok a => Ok (f a) | Err e => Err e end.

Definition is_ok {A} (r : res A) : bool := match r with Ok _ => true | Err _ => false end.

(** [if cond { return err }] *)
Definition check (bad : bool) (e : error) : res unit := if bad then Err e else Ok tt.

(** ** The tree of wrapped errors *)

(** The children [Unwrap] exposes, in order. *)
Definition wrapped (a : errarg) : option error :=
  match a with ArgWrap e => Some e | _ => None end.

Definition Unwrap (e : error) : list error :=
  match e with
  | Errorf _ args => omap wrapped args
  | Sentinel _ => []
  | DataErr e => [e]
  | StatusErr _ o => option_list o
  | JoinErr es => es
  | ForeignErr _ o => option_list o
  end.

(** Depth-first pre-order search, the traversal of [errors.Is] and [errors.As]:
    [here] inspects one node. *)
Section walk.
Context {A : Type} (here : error → option A).

Fixpoint walk (e : error) : option A :=
  match here e with
  | Some x => Some x
  | None =>
      match e with
      | Errorf _ args => first_some (λ a, match a with ArgWrap e => walk e | _ => None end) args
      | Sentinel _ => None
      | DataErr e => walk e
      | StatusErr _ o => match o with Some e => walk e | None => None end
      | JoinErr es => first_some walk es
      | ForeignErr _ o => match o with Some e => walk e | None => None end
      end
  end.

Lemma walk_unfold e :
  walk e = match here e with
           | Some x => Some x
           | None => first_some walk (Unwrap e)
           end.
Proof.
  destruct e as [f args|s|e|c [e|]|es|f [e|]]; simpl; destruct (here _); try done;
    try by destruct (walk e).
  induction args as [|a args IH]; [done|].
  destruct a; simpl; try done. by destruct (walk e).
Qed.
End walk.

(** [errors.Is(err, target)] for a sentinel target. *)
Definition is_here (target : sentinel) (e : error) : option unit :=
  match e with
  | Sentinel s => if decide (s = target) then Some tt else None
  | ForeignErr f _ => if decide (target ∈ fe_is f) then Some tt else None
  | _ => None
  end.
Definition Is (e : error) (target : sentinel) : bool :=
  if walk (is_here target) e is Some _ then true else false.

(** The node [errors.As] stops at for [*dataError]. *)
Definition data_here (e : error) : option unit :=
  match e with DataErr _ => Some tt | _ => None end.

(** [AsDataError] and [IsDataError] of flow/classify.go. *)
Definition AsDataError (err : option error) : option error := DataErr <$> err.

Definition IsDataError (e : error) : bool :=
  if walk data_here e is Some _ then true else false.

(** The node [errors.As] stops at for [interface{ HTTPStatus() int }], and the
    status it reports: [StatusError.HTTPStatus] or a caller's own method. *)
Definition HTTPStatus (e : error) : option Z :=
  match e with
  | StatusErr code _ => Some code
  | ForeignErr f _ => fe_status f
  | _ => None
  end.
Definition HTTPStatusOf (e : error) : option Z := walk HTTPStatus e.

(** ** Wrapping *)

Section wrapping.
Context {A : Type} (here : error → option A).

(** [fmt.Errorf] with a single [%w] is transparent to the search when its
    target is not a [fmt] error. *)
Lemma walk_errorf_one f args e :
  (∀ f args, here (Errorf f args) = None) →
  omap wrapped args = [e] →
  walk here (Errorf f args) = walk here e.
Proof.
  intros Hf Hargs. rewrite walk_unfold, Hf. simpl. rewrite Hargs. simpl.
  by destruct (walk here e).
Qed.

Lemma walk_join es :
  (∀ es, here (JoinErr es) = None) →
  walk here (JoinErr es) = first_some (walk here) es.
Proof. intros Hj. by rewrite walk_unfold, Hj. Qed.
End wrapping.

Lemma Is_errorf_one f args e s :
  omap wrapped args = [e] → Is (Errorf f args) s = Is e s.
Proof. intros H. unfold Is. by rewrite (walk_errorf_one _ f args e). Qed.

Lemma IsDataError_errorf_one f args e :
  omap wrapped args = [e] → IsDataError (Errorf f args) = IsDataError e.
Proof. intros H. unfold IsDataError. by rewrite (walk_errorf_one _ f args e). Qed.

Lemma HTTPStatusOf_errorf_one f args e :
  omap wrapped args = [e] → HTTPStatusOf (Errorf f args) = HTTPStatusOf e.
Proof. intros H. unfold HTTPStatusOf. by rewrite (walk_errorf_one _ f args e). Qed.

Lemma Is_join es s : Is (JoinErr es) s = existsb (λ e, Is e s) es.
Proof.
  unfold Is. rewrite walk_join by done.
  induction es as [|e es IH]; simpl; [done|].
  destruct (walk (is_here s) e); simpl; [done|]. apply IH.
Qed.

(** ** Text *)

(** [strconv.Quote] on printable ASCII, quotes, backslashes and control bytes;
    bytes from 128 up are kept, as Go keeps printable UTF-8. *)
Definition hex_digit (n : N) : Ascii.ascii :=
  Ascii.ascii_of_N (if (n <? 10)%N then 48 + n else 87 + n)%N.

Definition quote_char (c : Ascii.ascii) : string :=
  let n := Ascii.N_of_ascii c in
  if (n =? 34)%N then "\" +:+ String c "" else
  if (n =? 92)%N then "\\" else
  if (n =? 7)%N then "\a" else if (n =? 8)%N then "\b" else
  if (n =? 12)%N then "\f" else if (n =? 10)%N then "\n" else
  if (n =? 13)%N then "\r" else if (n =? 9)%N then "\t" else
  if (n =? 11)%N then "\v" else
  if ((n <? 32) || (n =? 127))%N
  then "\x" +:+ String (hex_digit (n / 16)) (String (hex_digit (n mod 16)) "")
  else String c "".

Fixpoint quote_body (s : string) : string :=
  match s with
  | "" => ""
  | String c s => quote_char c +:+ quote_body s
  end.
Definition dquote : string := String (Ascii.ascii_of_N 34) "".
Definition Quote (s : string) : string := dquote +:+ quote_body s +:+ dquote.

(** [%.6f] of a binary64: the exact value scaled by 10^6, rounded half to even. *)
Definition div_half_even (a b : Z) : Z :=
  let q := a / b in
  let r := a mod b in
  if 2 * r <? b then q else if b <? 2 * r then q + 1 else if Z.even q then q else q + 1.

Fixpoint zeros (n : nat) : string := match n with O => "" | S n => "0" +:+ zeros n end.

Definition fixed6 (f : spec_float) : string :=
  match f with
  | S754_zero s => (if s then "-" else "") +:+ "0.000000"
  | S754_infinity s => if s then "-Inf" else "+Inf"
  | S754_nan => "NaN"
  | S754_finite s m e =>
      let scaled := if 0 <=? e then Zpos m * 2 ^ e * 10 ^ 6
                    else div_half_even (Zpos m * 10 ^ 6) (2 ^ (- e)) in
      let frac := pretty (scaled mod 10 ^ 6) in
      (if s then "-" else "") +:+ pretty (scaled / 10 ^ 6) +:+ "." +:+
      zeros (6 - String.length frac) +:+ frac
  end.

(** [fmt.Sprintf] for the verbs the repository uses: [next verb rest] prints the
    argument list from the left, one argument per verb. *)
Definition print_arg (Error : error → string) (verb : Ascii.ascii) (a : errarg) : string :=
  match a with
  | ArgInt z => pretty z
  | ArgStr s => if decide (verb = "q"%char) then Quote s else s
  | ArgFloat f => fixed6 f
  | ArgErr e | ArgWrap e => Error e
  end.

(** Splits a format at its verbs: the literal text before each verb, the verb,
    and the text after the last. *)
Fixpoint split_verbs (fmt : string) (acc : string) : list (string * Ascii.ascii) * string :=
  match fmt with
  | "" => ([], acc)
  | String "%" (String "." (String "6" (String v fmt)))
  | String "%" (String v fmt) =>
      let '(vs, tail) := split_verbs fmt "" in ((acc, v) :: vs, tail)
  | String c fmt => split_verbs fmt (acc +:+ String c "")
  end.

Fixpoint Error (e : error) : string :=
  match e with
  | Errorf format args =>
      let '(verbs, tail) := split_verbs format "" in
      (fix go (verbs : list (string * Ascii.ascii)) (args : list errarg) {struct args} : string :=
         match args, verbs with
         | a :: args, (text, verb) :: verbs =>
             text +:+
             match a with
             | ArgErr e | ArgWrap e => Error e
             | _ => print_arg (λ _, "") verb a
             end +:+ go verbs args
         | _, _ => tail
         end) verbs args
  | Sentinel s =>
      match s with
      | ErrBudgetExceeded => "resource budget exceeded"
      | ErrCorruptCache => "execution cache entry is corrupt"
      | Canceled => "context canceled"
      | DeadlineExceeded => "context deadline exceeded"
      | EOF => "EOF"
      | ErrNotExist => "file does not exist"
      | ErrNoRows => "sql: no rows in result set"
      end
  | DataErr e => Error e
  | StatusErr code o =>
      "status=" +:+ pretty code +:+ ": " +:+ match o with Some e => Error e | None => "<nil>" end
  | JoinErr es =>
      (fix go (es : list error) : string :=
         match es with
         | [] => ""
         | [e] => Error e
         | e :: es => Error e +:+ String (Ascii.ascii_of_N 10) "" +:+ go es
         end) es
  | ForeignErr f _ => fe_text f
  end.

(** [errors.New(text)] used as an ordinary error. *)
Definition New (text : string) : error := Errorf text [].

(** [errors.Join(a, b)] of two possibly nil errors. *)
Definition Join (a b : option error) : option error :=
  match option_list a ++ option_list b with
  | [] => None
  | es => Some (JoinErr es)
  end.

Example Error_item :
  Error (Errorf "item %d: wait for resources: %w"
           [ArgInt 12; ArgWrap (Errorf "%w: requested %d" [ArgWrap (Sentinel ErrBudgetExceeded); ArgInt 3])])
  = "item 12: wait for resources: resource budget exceeded: requested 3".
Proof. vm_compute. reflexivity. Qed.

Example Error_cost :
  Error (Errorf "cost %.6f for %q" [ArgFloat (S754_finite false 7 (-2)); ArgStr "a"])
  = "cost 1.750000 for " +:+ Quote "a".
Proof. vm_compute. reflexivity. Qed.
