(* ===== verification/Go.v ===== *)
(** * Goroutine programs and an ownership logic for their interleavings

    Code that touches shared memory is a [prog]: a tree of atomic actions on
    the shared world [W].  One [Act] is one mutex-protected section, one atomic
    load, one channel operation or one call of a collaborator; an action lists
    its possible results, so a [select] with several ready cases has several,
    and an action with none blocks.  [outcomes] runs a program without
    interference; the transition systems of BoundedMap.v and Pipeline.v
    interleave the actions of many programs.

    [owns] is the logic for the interleaved case: every goroutine owns an
    account in a commutative monoid, and an invariant relates the world to the
    sum of all accounts. *)

From S2P Require Import Prelude GoError.

Inductive prog (W A : Type) : Type :=
| Ret (a : A)
| Act (X : Type) (act : W → list (W * X)) (k : X → prog W A).
Arguments Ret {_ _} _.
Arguments Act {_ _ _} _ _.

Section prog.
Context {W : Type}.

Fixpoint bind {A B} (f : A → prog W B) (p : prog W A) : prog W B :=
  match p with
  | Ret a => f a
  | Act act k => Act act (λ x, bind f (k x))
  end.

(** A call that may return early with an error: [if err != nil { return err }]. *)
Definition rbind {A B} (f : A → prog W (res B)) (p : prog W (res A)) : prog W (res B) :=
  bind (λ r, match r with Ok a => f a | Err e => Ret (Err e) end) p.

(** The atomic actions. *)
Definition await {X} (act : W → list (W * X)) : prog W X := Act act Ret.
Definition atomic {X} (f : W → W * X) : prog W X := await (λ w, [f w]).
Definition read {X} (f : W → X) : prog W X := atomic (λ w, (w, f w)).
Definition modify (f : W → W) : prog W unit := atomic (λ w, (f w, tt)).

(** Every result of a program that runs alone; [] when it blocks forever. *)
Fixpoint outcomes {A} (p : prog W A) (w : W) : list (W * A) :=
  match p with
  | Ret a => [(w, a)]
  | Act act k => act w ≫= λ '(w', x), outcomes (k x) w'
  end.

(** [p'] is what remains of [p] after its first action. *)
Definition residual {A} (p' p : prog W A) : Prop :=
  match p with Ret _ => False | Act act k => ∃ x, p' = k x end.

Lemma residual_wf {A} : well_founded (residual (A := A)).
Proof.
  intros p. induction p as [a|X act k IH]; constructor; simpl; [done|].
  intros p' [x ->]. apply IH.
Qed.
End prog.

#[export] Instance prog_ret W : MRet (prog W) := λ A a, Ret a.
#[export] Instance prog_bind W : MBind (prog W) := λ A B f p, bind f p.

Notation "x ←? p ; q" := (rbind (λ x, q) p)
  (at level 20, p at level 100, q at level 200, right associativity,
   format "x  ←?  p ;  '/' q") : stdpp_scope.

(** [for _, x := range xs], stopping at the first error. *)
Fixpoint for_each {W A} (xs : list A) (body : A → prog W (res unit)) : prog W (res unit) :=
  match xs with
  | [] => mret (Ok tt)
  | x :: xs => _ ←? body x; for_each xs body
  end.

(** ** Running alone *)

Section outcomes.
Context {W : Type}.

Lemma elem_outcomes_act {A X} (act : W → list (W * X)) (k : X → prog W A) w w' a :
  (w', a) ∈ outcomes (Act act k) w ↔
  ∃ w1 x, (w1, x) ∈ act w ∧ (w', a) ∈ outcomes (k x) w1.
Proof.
  simpl. rewrite list_elem_of_bind. split.
  - intros ([w1 x] & ? & ?). eauto.
  - intros (w1 & x & ? & ?). exists (w1, x). eauto.
Qed.

Lemma elem_outcomes_bind {A B} (f : A → prog W B) (p : prog W A) w w' b :
  (w', b) ∈ outcomes (p ≫= f) w ↔
  ∃ w1 a, (w1, a) ∈ outcomes p w ∧ (w', b) ∈ outcomes (f a) w1.
Proof.
  revert w. induction p as [a|X act k IH]; intros w.
  - simpl. split.
    + intros ?. exists w, a. split; [by left|done].
    + by intros (? & ? & [= -> ->]%list_elem_of_singleton & ?).
  - change (Act act k ≫= f) with (Act act (λ x, k x ≫= f)).
    rewrite elem_outcomes_act. setoid_rewrite IH. setoid_rewrite elem_outcomes_act. naive_solver.
Qed.

Lemma outcomes_bind {A B} (f : A → prog W B) (p : prog W A) w :
  outcomes (p ≫= f) w = outcomes p w ≫= λ '(w', a), outcomes (f a) w'.
Proof.
  revert w. induction p as [a|X act k IH]; intros w.
  - simpl. by rewrite app_nil_r.
  - change (Act act k ≫= f) with (Act act (λ x, k x ≫= f)). simpl.
    induction (act w) as [|[w1 x] l IHl]; [done|].
    rewrite !bind_cons, IHl, IH, bind_app. done.
Qed.

Lemma outcomes_prog_bind {A B} (f : A → prog W B) (p : prog W A) w :
  outcomes (prog_bind W A B f p) w = outcomes p w ≫= λ '(w', a), outcomes (f a) w'.
Proof. apply outcomes_bind. Qed.

Lemma outcomes_ret {A} (a : A) w : outcomes (mret (M := prog W) a) w = [(w, a)].
Proof. done. Qed.

Lemma outcomes_act {A X} (act : W → list (W * X)) (k : X → prog W A) w :
  outcomes (Act act k) w = act w ≫= λ '(w', x), outcomes (k x) w'.
Proof. done. Qed.

Lemma outcomes_await {X} (act : W → list (W * X)) w : outcomes (await act) w = act w.
Proof.
  unfold await. simpl. induction (act w) as [|[w1 x] l IHl]; [done|].
  rewrite bind_cons. simpl. by rewrite IHl.
Qed.

Lemma outcomes_read {X} (f : W → X) w : outcomes (read f) w = [(w, f w)].
Proof. exact (outcomes_await _ w). Qed.

Lemma outcomes_atomic {X} (f : W → W * X) w : outcomes (atomic f) w = [f w].
Proof. exact (outcomes_await _ w). Qed.

Lemma outcomes_rbind {A B} (f : A → prog W (res B)) (p : prog W (res A)) w :
  outcomes (rbind f p) w =
  outcomes p w ≫= λ '(w', r), match r with Ok a => outcomes (f a) w' | Err e => [(w', Err e)] end.
Proof.
  unfold rbind. change (bind ?g p) with (p ≫= g). rewrite outcomes_bind.
  apply list_bind_ext; [|done]. by intros [w' [a|e]].
Qed.

Lemma elem_outcomes_rbind {A B} (f : A → prog W (res B)) (p : prog W (res A)) w w' r :
  (w', r) ∈ outcomes (rbind f p) w →
  (∃ w1 a, (w1, Ok a) ∈ outcomes p w ∧ (w', r) ∈ outcomes (f a) w1) ∨
  (∃ e, (w', Err e) ∈ outcomes p w ∧ r = Err e).
Proof.
  rewrite outcomes_rbind, list_elem_of_bind. intros ([w1 [a|e]] & Hout & Hin); [left; eauto|right].
  apply list_elem_of_singleton in Hout as [= -> ->]. eauto.
Qed.

(** A sequential Hoare triple over every outcome. *)
Definition triple {A} (P : W → Prop) (p : prog W A) (Q : A → W → Prop) : Prop :=
  ∀ w, P w → ∀ w' a, (w', a) ∈ outcomes p w → Q a w'.

Lemma triple_ret {A} (P : W → Prop) (a : A) (Q : A → W → Prop) :
  (∀ w, P w → Q a w) → triple P (mret a) Q.
Proof. intros H w HP w' a' [= -> ->]%list_elem_of_singleton. auto. Qed.

Lemma triple_await {X} (P : W → Prop) act (Q : X → W → Prop) :
  (∀ w w' x, P w → (w', x) ∈ act w → Q x w') → triple P (await act) Q.
Proof.
  intros H w HP w' a (w1 & x & Hin & Hret)%elem_outcomes_act.
  apply list_elem_of_singleton in Hret as [= -> ->]. eauto.
Qed.

Lemma triple_atomic {X} (P : W → Prop) (f : W → W * X) (Q : X → W → Prop) :
  (∀ w, P w → Q (f w).2 (f w).1) → triple P (atomic f) Q.
Proof.
  intros H. apply triple_await. intros w w' x HP Hin%list_elem_of_singleton.
  specialize (H w HP). by rewrite <-Hin in H.
Qed.

Lemma triple_bind {A B} (P : W → Prop) (R : A → W → Prop) (p : prog W A)
    (f : A → prog W B) (Q : B → W → Prop) :
  triple P p R → (∀ a, triple (R a) (f a) Q) → triple P (p ≫= f) Q.
Proof.
  intros Hp Hf w HP w' b (w1 & a & H1 & H2)%elem_outcomes_bind.
  eapply Hf; [|done]. by eapply Hp.
Qed.

Lemma triple_rbind {A B} (P : W → Prop) (R : res A → W → Prop) (p : prog W (res A))
    (f : A → prog W (res B)) (Q : res B → W → Prop) :
  triple P p R → (∀ a, triple (R (Ok a)) (f a) Q) →
  (∀ e w, R (Err e) w → Q (Err e) w) → triple P (rbind f p) Q.
Proof.
  intros Hp Hf He. unfold rbind. apply triple_bind with R; [done|].
  intros [a|e]; [apply Hf|]. apply triple_ret. auto.
Qed.

Lemma triple_conseq {A} (P P' : W → Prop) (p : prog W A) (Q Q' : A → W → Prop) :
  triple P' p Q' → (∀ w, P w → P' w) → (∀ a w, Q' a w → Q a w) → triple P p Q.
Proof. intros Hp HP HQ w Hw w' a Hin. apply HQ. eapply Hp; [|done]. auto. Qed.
End outcomes.

(** ** Accounts *)

Class Account (M : Type) := {
  azero : M;
  aplus : M → M → M;
  aplus_comm x y : aplus x y = aplus y x;
  aplus_assoc x y z : aplus x (aplus y z) = aplus (aplus x y) z;
  aplus_zero x : aplus azero x = x;
}.
Infix "⊹" := aplus (at level 50, left associativity).

#[export] Program Instance unit_account : Account unit :=
  {| azero := tt; aplus _ _ := tt |}.
Solve All Obligations with by intros [].

#[export] Program Instance Z_account : Account Z := {| azero := 0; aplus := Z.add |}.
Next Obligation. intros; lia. Qed.
Next Obligation. intros; lia. Qed.
Next Obligation. intros; lia. Qed.

#[export] Program Instance prod_account {M1 M2 : Type} `{Account M1, Account M2} :
    Account (M1 * M2) :=
  {| azero := (azero, azero); aplus p q := (p.1 ⊹ q.1, p.2 ⊹ q.2) |}.
Next Obligation. intros; simpl. f_equal; apply aplus_comm. Qed.
Next Obligation. intros; simpl. f_equal; apply aplus_assoc. Qed.
Next Obligation. intros; simpl; rewrite !aplus_zero; symmetry; apply surjective_pairing. Qed.

Definition total `{Account M} (l : list M) : M := foldr aplus azero l.

Section accounts.
Context `{Account M}.
Implicit Types x y : M.

Lemma aplus_zero_r x : x ⊹ azero = x.
Proof. by rewrite aplus_comm, aplus_zero. Qed.

Lemma total_insert l i x y :
  l !! i = Some x → total (<[i:=y]> l) = y ⊹ total (delete i l).
Proof.
  revert i. induction l as [|z l IH]; intros [|i] Hi; simplify_eq/=; [done|].
  by rewrite (IH i Hi), !aplus_assoc, (aplus_comm z y).
Qed.

Lemma total_lookup l i x : l !! i = Some x → total l = x ⊹ total (delete i l).
Proof. intros Hi. by rewrite <-(total_insert l i x x Hi), list_insert_id. Qed.

Lemma total_replicate n : total (replicate n azero) = azero.
Proof. induction n; simpl; [done|]. by rewrite IHn, aplus_zero. Qed.

Lemma total_perm l l' : l ≡ₚ l' → total l = total l'.
Proof.
  induction 1 as [|x l l' _ IH|x y l|l l' l'' _ IH1 _ IH2]; simpl; [done|by rewrite IH| |congruence].
  by rewrite !aplus_assoc, (aplus_comm y x).
Qed.

Lemma total_app l l' : total (l ++ l') = total l ⊹ total l'.
Proof. induction l as [|x l IH]; simpl; [by rewrite aplus_zero|]. by rewrite IH, aplus_assoc. Qed.
End accounts.

(** ** Ownership *)

Section owns.
Context {W : Type} `{Account M} (Inv : W → M → Prop).

(** [owns Q p γ]: started with account [γ], whatever the other goroutines do
    that keeps the invariant, every action of [p] keeps it too, and [p] ends
    with a value and an account related by [Q]. *)
Fixpoint owns {A} (Q : A → M → Prop) (p : prog W A) (γ : M) : Prop :=
  match p with
  | Ret a => Q a γ
  | Act act k =>
      ∀ w o, Inv w (γ ⊹ o) → ∀ w' x, (w', x) ∈ act w →
      ∃ γ', Inv w' (γ' ⊹ o) ∧ owns Q (k x) γ'
  end.

Lemma owns_ret {A} (Q : A → M → Prop) a γ : Q a γ → owns Q (mret a) γ.
Proof. done. Qed.

Lemma owns_conseq {A} (Q Q' : A → M → Prop) (p : prog W A) γ :
  owns Q p γ → (∀ a γ, Q a γ → Q' a γ) → owns Q' p γ.
Proof.
  intros Hp HQ. revert γ Hp. induction p as [a|X act k IH]; simpl; intros γ Hp; [auto|].
  intros w o Hw w' x Hin. destruct (Hp w o Hw w' x Hin) as (γ' & ? & ?). eauto.
Qed.

Lemma owns_bind {A B} (Q : B → M → Prop) (p : prog W A) (f : A → prog W B) γ :
  owns (λ a γ, owns Q (f a) γ) p γ → owns Q (p ≫= f) γ.
Proof.
  revert γ. induction p as [a|X act k IH]; simpl; intros γ Hp; [done|].
  intros w o Hw w' x Hin. destruct (Hp w o Hw w' x Hin) as (γ' & ? & ?).
  exists γ'. split; [done|]. by apply IH.
Qed.

Lemma owns_bind' {A B} (R : A → M → Prop) (Q : B → M → Prop) (p : prog W A)
    (f : A → prog W B) γ :
  owns R p γ → (∀ a γ, R a γ → owns Q (f a) γ) → owns Q (p ≫= f) γ.
Proof. intros Hp Hf. apply owns_bind. by eapply owns_conseq. Qed.

Lemma owns_rbind {A B} (R : res A → M → Prop) (Q : res B → M → Prop)
    (p : prog W (res A)) (f : A → prog W (res B)) γ :
  owns R p γ → (∀ a γ, R (Ok a) γ → owns Q (f a) γ) →
  (∀ e γ, R (Err e) γ → Q (Err e) γ) → owns Q (rbind f p) γ.
Proof.
  intros Hp Hf He. unfold rbind. apply owns_bind' with R; [done|].
  intros [a|e] γ' HR; [by apply Hf|]. apply owns_ret. auto.
Qed.

Lemma owns_await {X} (Q : X → M → Prop) act γ :
  (∀ w o w' x, Inv w (γ ⊹ o) → (w', x) ∈ act w → ∃ γ', Inv w' (γ' ⊹ o) ∧ Q x γ') →
  owns Q (await act) γ.
Proof. intros Hact w o Hw w' x Hin. simpl. eauto. Qed.

Lemma owns_atomic {X} (Q : X → M → Prop) (f : W → W * X) γ :
  (∀ w o, Inv w (γ ⊹ o) → ∃ γ', Inv (f w).1 (γ' ⊹ o) ∧ Q (f w).2 γ') →
  owns Q (atomic f) γ.
Proof.
  intros Hf. apply owns_await. intros w o w' x Hw Hin%list_elem_of_singleton.
  specialize (Hf w o Hw). by rewrite <-Hin in Hf.
Qed.

(** An account nobody inspects can be set aside. *)
Lemma owns_frame {A} (Q : A → M → Prop) (p : prog W A) γ f :
  owns Q p γ → owns (λ a m, ∃ γ', m = γ' ⊹ f ∧ Q a γ') p (γ ⊹ f).
Proof.
  revert γ. induction p as [a|X act k IH]; simpl; intros γ Hp; [eauto|].
  intros w o Hw w' x Hin. rewrite <-aplus_assoc in Hw.
  destruct (Hp w (f ⊹ o) Hw w' x Hin) as (γ' & Hw' & Hk).
  exists (γ' ⊹ f). rewrite <-aplus_assoc. auto.
Qed.

(** Sequencing from the empty account: what the parts spend adds up. *)
Lemma owns_then {A B} (R : A → M → Prop) (Q : B → M → Prop) (p : prog W A) (f : A → prog W B) :
  owns R p azero → (∀ a m, R a m → owns (λ r m', Q r (m' ⊹ m)) (f a) azero) →
  owns Q (p ≫= f) azero.
Proof.
  intros Hp Hf. eapply owns_bind'; [exact Hp|]. intros a m HR.
  rewrite <-(aplus_zero m). eapply owns_conseq; [by apply owns_frame, Hf|].
  by intros r m' (m0 & -> & HQ).
Qed.

Lemma owns_rthen {A B} (R : res A → M → Prop) (Q : res B → M → Prop) (p : prog W (res A))
    (f : A → prog W (res B)) :
  owns R p azero →
  (∀ a m, R (Ok a) m → owns (λ r m', Q r (m' ⊹ m)) (f a) azero) →
  (∀ e m, R (Err e) m → Q (Err e) m) → owns Q (rbind f p) azero.
Proof.
  intros Hp Hf He. eapply owns_then; [exact Hp|]. intros [a|err] m HR; [by apply Hf|].
  apply owns_ret. rewrite aplus_zero. by apply He.
Qed.

(** A quiet call first. *)
Lemma owns_quiet {A B} (Q : B → M → Prop) (p : prog W A) (f : A → prog W B) :
  owns (λ _ m, m = azero) p azero → (∀ a, owns Q (f a) azero) → owns Q (p ≫= f) azero.
Proof.
  intros Hp Hf. eapply owns_then; [exact Hp|]. intros a m ->.
  eapply owns_conseq; [apply Hf|]. intros r m. by rewrite aplus_zero_r.
Qed.

Lemma owns_rquiet {A B} (Q : res B → M → Prop) (p : prog W (res A)) (f : A → prog W (res B)) :
  owns (λ _ m, m = azero) p azero → (∀ a, owns Q (f a) azero) → (∀ e, Q (Err e) azero) → owns Q (rbind f p) azero.
Proof.
  intros Hp Hf He. eapply owns_rthen; [exact Hp| |by intros err m ->].
  intros a m ->. eapply owns_conseq; [apply Hf|]. intros r m. by rewrite aplus_zero_r.
Qed.

(** Running alone is one of the interleavings. *)
Lemma owns_outcomes {A} (Q : A → M → Prop) (p : prog W A) γ o w w' a :
  owns Q p γ → Inv w (γ ⊹ o) → (w', a) ∈ outcomes p w →
  ∃ γ', Inv w' (γ' ⊹ o) ∧ Q a γ'.
Proof.
  revert γ w. induction p as [b|X act k IH]; intros γ w Hp Hw Hin.
  - apply list_elem_of_singleton in Hin as [= -> ->]. eauto.
  - apply elem_outcomes_act in Hin as (w1 & x & Hin & Hout).
    destruct (Hp w o Hw w1 x Hin) as (γ1 & Hw1 & Hk). eauto.
Qed.

Lemma owns_for_each {A} (Q : M → Prop) (E : error → M → Prop) (xs : list A) body γ :
  Q γ →
  (∀ x γ, x ∈ xs → Q γ →
     owns (λ r γ, match r with Ok _ => Q γ | Err e => E e γ end) (body x) γ) →
  owns (λ r γ, match r with Ok _ => Q γ | Err e => E e γ end) (for_each xs body) γ.
Proof.
  revert γ. induction xs as [|x xs IH]; intros γ HQ Hb; simpl; [done|].
  eapply owns_rbind.
  - apply Hb; [by left|done].
  - intros [] γ' HQ'. apply IH; [done|]. intros y γ2 Hy. apply Hb. by right.
  - done.
Qed.
End owns.

(** ** Guarantees *)

(** Every action of [p], whenever it runs, relates the worlds by [G]; every
    value [p] can return satisfies [Q]. *)
Section guarantees.
Context {W : Type} (G : W → W → Prop).

Fixpoint guarantees {A} (Q : A → Prop) (p : prog W A) : Prop :=
  match p with
  | Ret a => Q a
  | Act act k =>
      ∀ w w' x, (w', x) ∈ act w → G w w' ∧ guarantees Q (k x)
  end.

Lemma guarantees_ret {A} (Q : A → Prop) a : Q a → guarantees Q (mret a).
Proof. done. Qed.

Lemma guarantees_await {X} (Q : X → Prop) (act : W → list (W * X)) :
  (∀ w w' x, (w', x) ∈ act w → G w w' ∧ Q x) → guarantees Q (await act).
Proof. done. Qed.

Lemma guarantees_atomic {X} (Q : X → Prop) (f : W → W * X) :
  (∀ w, G w (f w).1 ∧ Q (f w).2) → guarantees Q (atomic f).
Proof.
  intros Hf. apply guarantees_await. intros w w' x Hin%list_elem_of_singleton.
  specialize (Hf w). by rewrite <-Hin in Hf.
Qed.

Lemma guarantees_conseq {A} (Q Q' : A → Prop) (p : prog W A) :
  guarantees Q p → (∀ a, Q a → Q' a) → guarantees Q' p.
Proof.
  intros Hp HQ. induction p as [a|X act k IH]; simpl in *; [auto|].
  intros w w' x Hin. destruct (Hp w w' x Hin). auto.
Qed.

Lemma guarantees_bind {A B} (R : A → Prop) (Q : B → Prop) (f : A → prog W B) (p : prog W A) :
  guarantees R p → (∀ a, R a → guarantees Q (f a)) → guarantees Q (p ≫= f).
Proof.
  intros Hp Hf. induction p as [a|X act k IH]; [by apply Hf|].
  intros w w' x Hin. destruct (Hp w w' x Hin). split; [done|]. by apply IH.
Qed.

Lemma guarantees_rbind {A B} (R : A → Prop) (Q : res B → Prop) (f : A → prog W (res B))
    (p : prog W (res A)) :
  guarantees (λ r, match r with Ok a => R a | Err e => Q (Err e) end) p →
  (∀ a, R a → guarantees Q (f a)) → guarantees Q (rbind f p).
Proof. intros Hp Hf. eapply guarantees_bind; [exact Hp|]. intros [a|e]; [apply Hf|done]. Qed.
End guarantees.

Lemma guarantees_any {W A} (Q : A → Prop) (p : prog W A) : (∀ a, Q a) → guarantees (λ _ _, True) Q p.
Proof. intros HQ. induction p as [a|X act k IH]; [apply HQ|]. intros w w' x _. split; [done|apply IH]. Qed.

#[global] Arguments guarantees : simpl never.

(** ** Properties of every moment of a run *)

(** [always I Q p w]: [I] holds at [w] and after every action of a run of [p]
    from [w]; a run that ends does so with [Q]. *)
Section always.
Context {W : Type} (I : W → Prop).

Fixpoint always {A} (Q : A → W → Prop) (p : prog W A) (w : W) : Prop :=
  I w ∧ match p with
        | Ret a => Q a w
        | Act act k => ∀ w' x, (w', x) ∈ act w → always Q (k x) w'
        end.

Lemma always_ret {A} (Q : A → W → Prop) (a : A) w : I w → Q a w → always Q (mret a) w.
Proof. by split. Qed.

Lemma always_now {A} (Q : A → W → Prop) (p : prog W A) w : always Q p w → I w.
Proof. by destruct p; intros []. Qed.

Lemma always_await {X} (Q : X → W → Prop) (act : W → list (W * X)) w :
  I w → (∀ w' x, (w', x) ∈ act w → I w' ∧ Q x w') → always Q (await act) w.
Proof. intros Hw Hact. split; [done|]. intros w' x Hin. by apply Hact. Qed.

Lemma always_bind {A B} (R : A → W → Prop) (Q : B → W → Prop) (f : A → prog W B) (p : prog W A) w :
  always R p w → (∀ a w', R a w' → I w' → always Q (f a) w') → always Q (p ≫= f) w.
Proof.
  intros Hp Hf. revert w Hp. induction p as [a|X act k IH]; intros w [Hw Hp]; [by apply Hf|].
  split; [done|]. intros w' x Hin. by apply IH, Hp.
Qed.

Lemma always_rbind {A B} (R : A → W → Prop) (Q : res B → W → Prop) (f : A → prog W (res B))
    (p : prog W (res A)) w :
  always (λ r w', match r with Ok a => R a w' | Err e => Q (Err e) w' end) p w →
  (∀ a w', R a w' → I w' → always Q (f a) w') → always Q (rbind f p) w.
Proof.
  intros Hp Hf. eapply always_bind; [exact Hp|]. intros [a|e] w' HR Hw'; [by apply Hf|].
  by apply always_ret.
Qed.

Lemma always_conseq {A} (Q Q' : A → W → Prop) (p : prog W A) w :
  always Q p w → (∀ a w', Q a w' → I w' → Q' a w') → always Q' p w.
Proof.
  intros Hp HQ. revert w Hp. induction p as [a|X act k IH]; intros w [Hw Hp]; split; auto.
Qed.

(** A run that ends is one of the outcomes. *)
Lemma always_outcomes {A} (Q : A → W → Prop) (p : prog W A) w w' a :
  always Q p w → (w', a) ∈ outcomes p w → Q a w' ∧ I w'.
Proof.
  revert w. induction p as [b|X act k IH]; intros w [Hw Hp] Hin.
  - by apply list_elem_of_singleton in Hin as [= -> ->].
  - apply elem_outcomes_act in Hin as (w1 & x & Hact & Hin). eauto.
Qed.
End always.

Lemma always_mono {W A} (I I' : W → Prop) (Q : A → W → Prop) (p : prog W A) w :
  (∀ w, I w → I' w) → always I Q p w → always I' Q p w.
Proof. intros HI Hp. revert w Hp. induction p as [a|X act k IH]; intros w [Hw Hp]; split; eauto. Qed.
#[global] Arguments always : simpl never.

(** ** Parts of the world *)

(** [Has C W]: the world [W] contains a component of type [C]. *)
Class Has (C W : Type) := {
  inside : W → C;
  replace : C → W → W;
  inside_replace s w : inside (replace s w) = s;
  replace_inside w : replace (inside w) w = w;
  replace_replace s s' w : replace s (replace s' w) = replace s w;
}.

#[export] Program Instance has_self W : Has W W :=
  {| inside w := w; replace s _ := s |}.
Solve All Obligations with done.

Section zoom.
Context {C W : Type} `{!Has C W}.

(** A program on the component, run on the whole world. *)
Fixpoint zoom {A} (p : prog C A) : prog W A :=
  match p with
  | Ret a => Ret a
  | Act act k =>
      Act (λ w, (λ '(s, x), (replace s w, x)) <$> act (inside w)) (λ x, zoom (k x))
  end.

Lemma outcomes_zoom {A} (p : prog C A) w :
  outcomes (zoom p) w = (λ '(s, a), (replace s w, a)) <$> outcomes p (inside w).
Proof.
  revert w. induction p as [a|X act k IH]; intros w; simpl.
  - by rewrite replace_inside.
  - induction (act (inside w)) as [|[s x] l IHl]; [done|].
    rewrite fmap_cons, !bind_cons, IHl, IH, fmap_app, inside_replace. f_equal.
    apply list_fmap_ext. intros ? [s' a] ?. by rewrite replace_replace.
Qed.

(** A component's invariant and accounts, seen from the whole world. *)
Lemma owns_zoom `{Account MS, Account M} {A} (InvS : C → MS → Prop) (InvW : W → M → Prop)
    (ι : MS → M) (Q : A → MS → Prop) (p : prog C A) γ :
  (∀ w γ o, InvW w (ι γ ⊹ o) →
     ∃ oS, InvS (inside w) (γ ⊹ oS) ∧
           ∀ s' γ', InvS s' (γ' ⊹ oS) → InvW (replace s' w) (ι γ' ⊹ o)) →
  owns InvS Q p γ → owns InvW (λ a m, ∃ γ, m = ι γ ∧ Q a γ) (zoom p) (ι γ).
Proof.
  intros Hz. revert γ. induction p as [a|X act k IH]; simpl; intros γ Hp; [eauto|].
  intros w o Hw w' x Hin. apply list_elem_of_fmap in Hin as ([s' x'] & [= -> ->] & Hin).
  destruct (Hz w γ o Hw) as (oS & Hs & Hback).
  destruct (Hp (inside w) oS Hs s' x' Hin) as (γ' & Hs' & Hk).
  exists (ι γ'). auto.
Qed.

Lemma guarantees_zoom {A} (G : C → C → Prop) (GW : W → W → Prop) (Q : A → Prop) (p : prog C A) :
  (∀ w s, G (inside w) s → GW w (replace s w)) →
  guarantees G Q p → guarantees GW Q (zoom p).
Proof.
  intros HG. induction p as [a|X act k IH]; [done|]. intros Hp.
  intros w w' x ([s y] & [= -> ->] & Hin)%list_elem_of_fmap.
  destruct (Hp _ _ _ Hin). split; [eauto|by apply IH].
Qed.
End zoom.

(** ** Contexts *)

(** A context is the list of its own cancellation scope and its ancestors',
    innermost first; [context.WithoutCancel] has none.  The table records the
    error of every scope that was canceled, and how many scopes exist. *)
Definition ctx := list nat.
Record ctxs := Ctxs { canceled : gmap nat error; scopes : nat }.

Definition ctx_err (c : ctx) (t : ctxs) : option error :=
  first_some (λ id, canceled t !! id) c.

Definition WithoutCancel (c : ctx) : ctx := [].

(** Cancels the innermost scope of [c], once. *)
Definition cancel (c : ctx) (e : error) (t : ctxs) : ctxs :=
  match c, ctx_err c t with
  | id :: _, None => Ctxs (<[id := e]> (canceled t)) (scopes t)
  | _, _ => t
  end.

(** A context derived from [c] with a scope of its own. *)
Definition WithCancel (c : ctx) (t : ctxs) : ctxs * ctx :=
  (Ctxs (canceled t) (S (scopes t)), scopes t :: c).

(** Scopes that do not exist are not canceled. *)
Definition ctxs_ok (t : ctxs) : Prop := ∀ id, (scopes t ≤ id)%nat → canceled t !! id = None.

Lemma ctx_err_WithCancel c t :
  ctxs_ok t → ctx_err (WithCancel c t).2 (WithCancel c t).1 = ctx_err c t.
Proof. intros Hok. unfold ctx_err. simpl. by rewrite Hok. Qed.

Lemma ctx_err_cancel c id e t :
  ctx_err (id :: c) (cancel (id :: c) e t) = Some (default e (ctx_err (id :: c) t)).
Proof.
  unfold cancel. destruct (ctx_err (id :: c) t) as [e'|] eqn:Hc; [done|].
  unfold ctx_err. simpl. by rewrite lookup_insert_eq.
Qed.

(** Cancellation is permanent. *)
Lemma ctx_err_cancel_mono c c' e t :
  is_Some (ctx_err c t) → is_Some (ctx_err c (cancel c' e t)).
Proof.
  intros Hc. unfold cancel. destruct c' as [|id c']; [done|].
  destruct (ctx_err (id :: c') t); [done|].
  unfold ctx_err in *. induction c as [|i c IH]; simpl in *; [done|].
  destruct (decide (i = id)) as [->|]; [by rewrite lookup_insert_eq|].
  rewrite lookup_insert_ne by done. destruct (canceled t !! i); auto.
Qed.

(** ** Pools of goroutines *)

Section pool.
Context {W : Type} {A : Type} (Env : W → W → Prop).

(** One goroutine performs its next action, or the environment moves. *)
Inductive pool_step : W * list (prog W A) → W * list (prog W A) → Prop :=
| pool_act w ts i X (act : W → list (W * X)) k w' x :
    ts !! i = Some (Act act k) → (w', x) ∈ act w →
    pool_step (w, ts) (w', <[i:=k x]> ts)
| pool_env w w' ts : Env w w' → pool_step (w, ts) (w', ts).

Context `{Account M} (Inv : W → M → Prop) (Q : nat → A → M → Prop).

(** Every goroutine still owns its program with the account listed for it. *)
Definition pool_ok (s : W * list (prog W A)) (γs : list M) : Prop :=
  Inv s.1 (total γs) ∧ length γs = length s.2 ∧
  ∀ i p γ, s.2 !! i = Some p → γs !! i = Some γ → owns Inv (Q i) p γ.

Hypothesis env_ok : ∀ w w' m, Inv w m → Env w w' → Inv w' m.

Lemma pool_step_ok s s' γs :
  pool_step s s' → pool_ok s γs → ∃ γs', pool_ok s' γs'.
Proof.
  destruct 1 as [w ts i X act k w' x Hi Hin|w w' ts Henv]; intros (Hw & Hlen & Hts).
  - assert (is_Some (γs !! i)) as [γ Hγ].
    { apply lookup_lt_is_Some. simpl in Hlen. rewrite Hlen. by eapply lookup_lt_Some. }
    pose proof (Hts i _ γ Hi Hγ) as Hown. simpl in Hown, Hw.
    rewrite (total_lookup _ _ _ Hγ) in Hw.
    destruct (Hown w _ Hw w' x Hin) as (γ' & Hw' & Hk).
    exists (<[i:=γ']> γs). split; [by erewrite total_insert|].
    split; [simpl in *; by rewrite !length_insert|].
    intros j p γ2 Hp Hγ2. simpl in Hp.
    destruct (decide (j = i)) as [->|Hne].
    + rewrite list_lookup_insert_eq in Hp by by eapply lookup_lt_Some.
      rewrite list_lookup_insert_eq in Hγ2 by by eapply lookup_lt_Some.
      by simplify_eq.
    + rewrite list_lookup_insert_ne in Hp by done; rewrite list_lookup_insert_ne in Hγ2 by done. by eapply Hts.
  - exists γs. split; [by eapply env_ok|]. done.
Qed.

Lemma pool_steps_ok s s' γs :
  rtc pool_step s s' → pool_ok s γs → ∃ γs', pool_ok s' γs'.
Proof.
  intros Hs. revert γs. induction Hs as [s|s s1 s' Hstep Hs IH]; intros γs Hok; [eauto|].
  destruct (pool_step_ok s s1 γs Hstep Hok) as [γs1 Hok1]. eauto.
Qed.

(** Once every goroutine has returned, the invariant holds of the sum of the
    accounts their postconditions describe. *)
Lemma pool_adequate w ts γs w' vs :
  pool_ok (w, ts) γs → rtc pool_step (w, ts) (w', Ret <$> vs) →
  ∃ γs', Inv w' (total γs') ∧ length γs' = length vs ∧
         ∀ i v γ, vs !! i = Some v → γs' !! i = Some γ → Q i v γ.
Proof.
  intros Hok Hs. destruct (pool_steps_ok _ _ _ Hs Hok) as (γs' & Hw & Hlen & Hts).
  exists γs'. split; [done|]. split; [by rewrite Hlen; simpl; rewrite length_fmap|].
  intros i v γ Hv Hγ. apply (Hts i (Ret v) γ); [|done]. simpl. by rewrite list_lookup_fmap, Hv.
Qed.
End pool.

(** [runs Env p w w' a]: a goroutine can run [p] from [w] to [w'] and get [a], with
    moves of the environment in between. *)
Definition runs {W A} (Env : W → W → Prop) (p : prog W A) (w w' : W) (a : A) : Prop :=
  rtc (pool_step Env) (w, [p]) (w', [Ret a]).

Lemma runs_owns {W A} `{Account M} (Env : W → W → Prop) (Inv : W → M → Prop) (Q : A → M → Prop)
    (p : prog W A) γ w w' a :
  (∀ w w' m, Inv w m → Env w w' → Inv w' m) → owns Inv Q p γ → Inv w γ → runs Env p w w' a →
  ∃ γ', Inv w' γ' ∧ Q a γ'.
Proof.
  intros Henv Hp Hw Hs.
  destruct (pool_adequate Env Inv (λ _, Q) Henv w [p] [γ] w' [a]) as (γs & Hw' & Hl & HQ); [|done|].
  - split; [simpl; by rewrite aplus_zero_r|]. split; [done|].
    intros [|i] q γ0 Hq Hγ; [|done]. by injection Hq as <-; injection Hγ as <-.
  - destruct γs as [|γ' [|]]; [done| |done]. exists γ'. split; [|by apply (HQ 0%nat a γ')].
    by rewrite <-(aplus_zero_r γ').
Qed.

(** Executing a schedule: each entry names a goroutine whose next action is
    performed with its first result. *)
Section replay_pool.
Context {W A : Type}.

Fixpoint replay_pool (turns : list nat) (s : W * list (prog W A)) : option (W * list (prog W A)) :=
  match turns with
  | [] => Some s
  | i :: turns =>
      match s.2 !! i with
      | Some (Act act k) =>
          match act s.1 with
          | (w, x) :: _ => replay_pool turns (w, <[i := k x]> s.2)
          | [] => None
          end
      | _ => None
      end
  end.

Lemma replay_pool_steps Env turns s s' :
  replay_pool turns s = Some s' → rtc (pool_step Env) s s'.
Proof.
  revert s. induction turns as [|i turns IH]; intros [w ts] Hr; simpl in Hr; [by simplify_eq|].
  destruct (ts !! i) as [[a|X act k]|] eqn:Hi; [done| |done].
  destruct (act w) as [|[w1 x] l] eqn:Hact; [done|].
  eapply rtc_l; [|by apply IH]. eapply pool_act; [exact Hi|]. rewrite Hact. by left.
Qed.
End replay_pool.

(** Executing one goroutine for [n] actions. *)
Section replay_one.
Context {W A : Type}.

Definition world_after (n : nat) (p : prog W A) (w : W) : W :=
  match replay_pool (replicate n 0%nat) (w, [p]) with Some (w', _) => w' | None => w end.

Lemma replay_runs Env n (p : prog W A) w a :
  match replay_pool (replicate n 0%nat) (w, [p]) with Some (_, [Ret b]) => b = a | _ => False end →
  runs Env p w (world_after n p w) a.
Proof.
  unfold world_after. destruct (replay_pool _ _) as [[w' [|[b|] [|]]]|] eqn:Hr; try done. intros ->.
  by apply (replay_pool_steps Env _ _ _ Hr).
Qed.
End replay_one.

(** Computes the outcomes of a program from those of its actions. *)
Create Rewrite HintDb outcomes.
#[export] Hint Rewrite @outcomes_bind @outcomes_prog_bind @outcomes_rbind @outcomes_ret @outcomes_await
  @outcomes_act @outcomes_read @outcomes_atomic : outcomes.
Ltac alone := repeat (autorewrite with outcomes; simpl; try rewrite app_nil_r).

#[global] Arguments owns : simpl never.
#[global] Arguments outcomes : simpl never.
#[global] Arguments bind : simpl never.
#[global] Arguments prog_bind : simpl never.
#[global] Arguments rbind : simpl never.
#[global] Arguments aplus : simpl never.
#[global] Arguments azero : simpl never.
