(* ===== verification/Limits.v ===== *)
(** * Admission state: the shared world of execution/*.go limiters

    The heap objects the limiters share: budgets (execution/budget.go), token
    buckets (execution/rate.go), the [finished] flags of reservations
    (execution/reservation.go), canceled contexts, and the state [U] of the
    limiters a caller implements.  A pointer is an index into the list of
    objects of its kind.  The file also models reservations themselves and sets
    up the account in which the admission theorems are stated. *)

From stdpp Require Export gmultiset.
From S2P Require Export Prelude GoError Go.

(** [Budget]: execution/budget.go. *)
Record budget := Budget { limit : Z; remaining : Z }.

(** [TokenBucket]: the buffered channel [tokens] holds [tokens] of at most
    [burst] units; [done] is closed after [closed] is set. *)
Record bucket := Bucket { tokens : nat; burst : nat; closed : bool; done_closed : bool }.

Record limits (U : Type) := Limits {
  lw_ctxs : ctxs;
  lw_budgets : list budget;
  lw_buckets : list bucket;
  lw_flags : list bool;
  lw_user : U;
}.
Arguments Limits {_} _ _ _ _ _.
Arguments lw_ctxs {_} _.
Arguments lw_budgets {_} _.
Arguments lw_buckets {_} _.
Arguments lw_flags {_} _.
Arguments lw_user {_} _.

Section setters.
Context {U : Type}.
Implicit Types w : limits U.

Definition set_ctxs (t : ctxs) w : limits U :=
  Limits t (lw_budgets w) (lw_buckets w) (lw_flags w) (lw_user w).
Definition set_budget (b : nat) (x : budget) w : limits U :=
  Limits (lw_ctxs w) (<[b:=x]> (lw_budgets w)) (lw_buckets w) (lw_flags w) (lw_user w).
Definition set_bucket (b : nat) (x : bucket) w : limits U :=
  Limits (lw_ctxs w) (lw_budgets w) (<[b:=x]> (lw_buckets w)) (lw_flags w) (lw_user w).
Definition set_flags (fs : list bool) w : limits U :=
  Limits (lw_ctxs w) (lw_budgets w) (lw_buckets w) fs (lw_user w).
Definition set_user (u : U) w : limits U :=
  Limits (lw_ctxs w) (lw_budgets w) (lw_buckets w) (lw_flags w) u.
End setters.

#[export] Program Instance limits_has_ctxs U : Has ctxs (limits U) :=
  {| inside := lw_ctxs; replace := set_ctxs |}.
Solve All Obligations with by intros; repeat match goal with w : limits _ |- _ => destruct w end.

(** ** Reservations: execution/reservation.go *)

Section reservation.
Context {U : Type}.

(** The struct [reservation]: [resv_flag] points to its [finished] field. *)
Record reservation := Reservation {
  resv_flag : nat;
  resv_commit : option (prog (limits U) unit);
  resv_rollback : option (prog (limits U) unit);
}.

Definition newReservationWithCommit (commit rollback : option (prog (limits U) unit))
    : prog (limits U) reservation :=
  flag ← atomic (λ w, (set_flags (lw_flags w ++ [false]) w, length (lw_flags w)));
  mret (Reservation flag commit rollback).

Definition newReservation (rollback : prog (limits U) unit) : prog (limits U) reservation :=
  newReservationWithCommit None (Some rollback).

(** The critical section both methods share: [true] when [finished] was unset. *)
Definition finish (flag : nat) : prog (limits U) bool :=
  atomic (λ w, match lw_flags w !! flag with
               | Some false => (set_flags (<[flag:=true]> (lw_flags w)) w, true)
               | _ => (w, false)
               end).

Definition run_fn (f : option (prog (limits U) unit)) : prog (limits U) unit :=
  match f with Some p => p | None => mret tt end.

Definition Commit (r : reservation) : prog (limits U) unit :=
  first ← finish (resv_flag r);
  if (first : bool) then run_fn (resv_commit r) else mret tt.

Definition Rollback (r : reservation) : prog (limits U) unit :=
  first ← finish (resv_flag r);
  if (first : bool) then run_fn (resv_rollback r) else mret tt.

(** [for _, x := range xs { f(x) }] *)
Fixpoint run_all {A} (f : A → prog (limits U) unit) (xs : list A) : prog (limits U) unit :=
  match xs with [] => Ret tt | x :: xs => f x ≫= λ _, run_all f xs end.

(** A finished reservation no longer does anything. *)
Lemma outcomes_finish (flag : nat) (v : bool) (w : limits U) :
  lw_flags w !! flag = Some v →
  outcomes (finish flag) w =
    [(if v then w else set_flags (<[flag:=true]> (lw_flags w)) w, negb v)].
Proof. intros Hv. unfold finish. rewrite outcomes_atomic, Hv. by destruct v. Qed.

Definition settle (r : reservation) (commit : bool) : prog (limits U) unit :=
  if commit then Commit r else Rollback r.

Lemma outcomes_settle_finished r commit (w : limits U) :
  lw_flags w !! resv_flag r = Some true → outcomes (settle r commit) w = [(w, tt)].
Proof.
  intros Hf. by destruct commit; cbn [settle]; unfold Commit, Rollback;
    rewrite outcomes_bind, (outcomes_finish _ _ _ Hf); alone.
Qed.

Lemma outcomes_settle_all_finished r ops (w : limits U) :
  lw_flags w !! resv_flag r = Some true → outcomes (run_all (settle r) ops) w = [(w, tt)].
Proof.
  intros Hf. induction ops as [|op ops IH]; [done|]. cbn [run_all].
  rewrite outcomes_bind, outcomes_settle_finished by done. alone. apply IH.
Qed.
End reservation.
Arguments reservation : clear implicits.

(** ** Accounts of one budget

    A goroutine's account for the budget [b]: the units it holds in
    reservations not yet finished, the units it has committed, and the
    reservation flags only it refers to, with their values. *)

#[export] Program Instance N_account : Account N := {| azero := 0%N; aplus := N.add |}.
Next Obligation. intros; lia. Qed.
Next Obligation. intros; lia. Qed.
Next Obligation. intros; lia. Qed.

#[export] Program Instance gmultiset_account `{Countable K} : Account (gmultiset K) :=
  {| azero := ∅; aplus := disj_union |}.
Next Obligation. intros. by rewrite (comm_L disj_union). Qed.
Next Obligation. intros. by rewrite (assoc_L disj_union). Qed.
Next Obligation. intros. by rewrite (left_id_L ∅ disj_union). Qed.

(** Computes the operations of these accounts. *)
Ltac accounts :=
  cbv beta iota delta [aplus azero prod_account N_account gmultiset_account] in *; simpl in *.

Notation flagset := (@gmultiset (nat * bool) prod_eq_dec prod_countable).
Notation share := (N * N * flagset)%type.

Definition flags_ok (fs : list bool) (fl : flagset) : Prop :=
  (∀ id v, (id, v) ∈ fl → fs !! id = Some v) ∧
  (∀ id, multiplicity (id, true) fl + multiplicity (id, false) fl ≤ 1)%nat.

(** The invariant of budget [b], which was [x0] when the accounts were opened:
    what remains, what is held and what was committed since add up to what was
    there, nothing is overdrawn, and the limit never changes. *)
Definition budget_inv {U} (b : nat) (x0 : budget) (w : limits U) (γ : share) : Prop :=
  flags_ok (lw_flags w) γ.2 ∧ remaining x0 ≤ max64 ∧
  ∃ x, lw_budgets w !! b = Some x ∧ limit x = limit x0 ∧ 0 ≤ remaining x ∧
       remaining x + Z.of_N γ.1.1 + Z.of_N γ.1.2 = remaining x0.
Arguments budget_inv : simpl never.

(** Counting arguments about flags: every multiplicity of a singleton is decided. *)
Ltac count_flags :=
  unfold elem_of, gmultiset_elem_of in *;
  repeat rewrite !multiplicity_disj_union in *;
  repeat rewrite !multiplicity_singleton in *;
  repeat case_decide; simplify_eq; try lia.

Lemma budget_inv_flags {U} b x0 (w : limits U) γ :
  budget_inv b x0 w γ → flags_ok (lw_flags w) γ.2.
Proof. by intros []. Qed.

Lemma budget_inv_set_flags {U} b x0 (w : limits U) fs γ γ' :
  budget_inv b x0 w γ → γ'.1 = γ.1 → flags_ok fs γ'.2 → budget_inv b x0 (set_flags fs w) γ'.
Proof. intros [_ ?] Hnum ?. unfold budget_inv. by rewrite Hnum. Qed.

Section flags.
Implicit Types fl : flagset.

Lemma flags_ok_alloc fs fl o :
  flags_ok fs (fl ⊹ o) →
  flags_ok (fs ++ [false]) ((fl ⊹ {[+ (length fs, false) +]}) ⊹ o).
Proof.
  accounts. intros [Hval Hone].
  assert (∀ v, multiplicity (length fs, v) (fl ⊎ o) = 0)%nat as Hfresh.
  { intros v. destruct (multiplicity (length fs, v) (fl ⊎ o)) eqn:Hm; [done|].
    assert (fs !! length fs = Some v) as Hin.
    { apply Hval. unfold elem_of, gmultiset_elem_of. lia. }
    apply lookup_lt_Some in Hin. lia. }
  split.
  - intros id v Hin. destruct (decide ((id, v) ∈ fl ⊎ o)) as [Hold|Hnew].
    + by apply lookup_app_l_Some, Hval.
    + assert ((id, v) = (length fs, false)) as [= -> ->] by (count_flags; done).
      rewrite lookup_app_r by lia. by rewrite Nat.sub_diag.
  - intros id. specialize (Hone id).
    pose proof (Hfresh true). pose proof (Hfresh false). count_flags.
Qed.

Lemma flags_ok_finish fs fl o id :
  flags_ok fs ((fl ⊹ {[+ (id, false) +]}) ⊹ o) →
  fs !! id = Some false ∧
  flags_ok (<[id:=true]> fs) ((fl ⊹ {[+ (id, true) +]}) ⊹ o).
Proof.
  accounts. intros [Hval Hone].
  assert (fs !! id = Some false) as Hid by (apply Hval; multiset_solver).
  split; [done|]. split.
  - intros j v Hin. specialize (Hone j). destruct (decide (j = id)) as [->|Hne].
    + rewrite list_lookup_insert_eq by by eapply lookup_lt_Some.
      destruct v; [done|]. exfalso. count_flags.
    + rewrite list_lookup_insert_ne by done. apply Hval. count_flags.
  - intros j. specialize (Hone j). count_flags.
Qed.
End flags.

(** ** The reservation protocol *)

Section protocol.
Context {U : Type} (b : nat) (x0 : budget).
Notation Inv := (budget_inv (U := U) b x0).

(** [r] holds [γ]; committing it spends [u] units of the budget for good,
    rolling it back spends none, and neither leaves anything held. *)
Definition resv_ok (r : reservation U) (u : N) (γ : share) : Prop :=
  owns Inv (λ _ γ', γ'.1 = (0, u)%N) (Commit r) γ ∧
  owns Inv (λ _ γ', γ'.1 = (0, 0)%N) (Rollback r) γ.

(** Accounts may be rewritten whenever the invariant cannot tell. *)
Definition shift (γ γ' : share) : Prop := ∀ w o, Inv w (γ ⊹ o) → Inv w (γ' ⊹ o).

Lemma shift_frame γ γ' f : shift γ γ' → shift (γ ⊹ f) (γ' ⊹ f).
Proof. intros Hs w o. rewrite <-!aplus_assoc. apply Hs. Qed.

Lemma shift_spend u fl : shift (u, 0%N, fl) (0%N, u, fl).
Proof.
  intros w o (Hfl & Hmax & x & Hx & Hlim & Hpos & Hsum). accounts.
  split; [done|]. split; [done|]. exists x. accounts. repeat split; try done. lia.
Qed.

Lemma owns_finish γ γ' flag :
  shift γ γ' →
  owns Inv (λ (first : bool) m, first = true ∧ m = γ' ⊹ (0%N, 0%N, {[+ (flag, true) +]}))
    (finish flag) (γ ⊹ (0%N, 0%N, {[+ (flag, false) +]})).
Proof.
  intros Hs. apply owns_atomic. intros w o Hw.
  pose proof (budget_inv_flags _ _ _ _ Hw) as Hfl. simpl in Hfl.
  apply flags_ok_finish in Hfl as [Hflag Hfl]. rewrite Hflag.
  exists (γ' ⊹ (0%N, 0%N, {[+ (flag, true) +]})). split; [cbn [fst]|done].
  eapply shift_frame; [exact Hs|]. by eapply budget_inv_set_flags.
Qed.

(** Specification of [newReservationWithCommit]. *)
Lemma owns_newReservation c rb u γ γc γr :
  shift γ γc → owns Inv (λ _ γ', γ'.1 = (0, u)%N) (run_fn c) γc →
  shift γ γr → owns Inv (λ _ γ', γ'.1 = (0, 0)%N) (run_fn rb) γr →
  owns Inv (λ r γ', resv_ok r u γ') (newReservationWithCommit c rb) γ.
Proof.
  intros Hsc Hc Hsr Hr. unfold newReservationWithCommit.
  apply owns_bind' with (λ flag γ', γ' = γ ⊹ (0%N, 0%N, {[+ (flag, false) +]})).
  - apply owns_atomic. intros w o Hw.
    eexists. split; [|reflexivity]. cbn [fst snd].
    pose proof (budget_inv_flags _ _ _ _ Hw) as Hfl. apply flags_ok_alloc in Hfl.
    eapply budget_inv_set_flags; [exact Hw|accounts; by rewrite !N.add_0_r|exact Hfl].
  - intros flag γ' ->. apply owns_ret.
    assert (∀ v f γ1, shift γ γ1 → owns Inv (λ _ γ', γ'.1 = (0, v)%N) (run_fn f) γ1 →
      owns Inv (λ _ γ', γ'.1 = (0, v)%N)
        (first ← finish flag; if (first : bool) then run_fn f else mret tt)
        (γ ⊹ (0%N, 0%N, {[+ (flag, false) +]}))) as Hend.
    { intros v f γ1 Hs Hf. eapply owns_bind'; [by apply owns_finish|].
      intros first m [-> ->]. eapply owns_conseq; [by apply owns_frame|].
      intros [] m ([[??]?] & -> & Hm). accounts. simplify_eq. by rewrite !N.add_0_r. }
    split; [exact (Hend u c γc Hsc Hc)|exact (Hend 0%N rb γr Hsr Hr)].
Qed.
End protocol.

(** ** Contexts are left alone *)

(** The actions of limiters and reservations read contexts but never cancel or
    create one. *)
Section calm.
Context {U : Type}.
Definition same_ctxs (w w' : limits U) : Prop := lw_ctxs w' = lw_ctxs w.
Notation calm := (guarantees same_ctxs).

Definition resv_calm (r : reservation U) : Prop :=
  calm (λ _, True) (run_fn (resv_commit r)) ∧ calm (λ _, True) (run_fn (resv_rollback r)).

Lemma calm_finish flag : calm (λ _, True) (finish (U := U) flag).
Proof. apply guarantees_atomic. intros w. by destruct (lw_flags w !! flag) as [[]|]. Qed.

Lemma calm_settle (r : reservation U) op : resv_calm r → calm (λ _, True) (settle r op).
Proof.
  intros [Hc Hr]. destruct op; cbn [settle].
  all: eapply guarantees_bind; [apply calm_finish|]; intros [] _; [done|by apply guarantees_ret].
Qed.

Lemma calm_newReservation c rb :
  calm (λ _, True) (run_fn c) → calm (λ _, True) (run_fn rb) →
  calm resv_calm (newReservationWithCommit (U := U) c rb).
Proof.
  intros Hc Hrb. eapply guarantees_bind; [by apply guarantees_atomic with (Q := λ _, True)|].
  intros flag _. by apply guarantees_ret.
Qed.

Lemma calm_run_all {A} (f : A → prog (limits U) unit) (xs : list A) :
  Forall (λ x, calm (λ _, True) (f x)) xs → calm (λ _, True) (run_all f xs).
Proof.
  induction 1 as [|x xs Hx _ IH]; [done|]. cbn [run_all].
  eapply guarantees_bind; [exact Hx|done].
Qed.
End calm.
