(* ===== verification/Budget.v ===== *)
(** * Finite budgets: execution/budget.go

    [Budget_Reserve] charges units in one critical section and returns a
    reservation whose rollback refunds them; [Budget_Wait] commits at once. *)

From S2P Require Import Prelude GoError Go Limits.

Section budget.
Context {U : Type}.
Implicit Types w : limits U.

(** [&Budget{limit: total, remaining: total}], a fresh pointer. *)
Definition NewBudget (total : Z) : prog (limits U) (res nat) :=
  if total <? 0 then mret (Err (New "budget total must not be negative"))
  else
    b ← atomic (λ w, (Limits (lw_ctxs w) (lw_budgets w ++ [Budget total total])
                        (lw_buckets w) (lw_flags w) (lw_user w),
                      length (lw_budgets w)));
    mret (Ok b).

(** One section under [budget.mu]; a pointer always refers to a budget. *)
Definition with_budget {X} (b : nat) (f : budget → budget * X) : prog (limits U) X :=
  await (λ w, match lw_budgets w !! b with
              | Some x => [(set_budget b (f x).1 w, (f x).2)]
              | None => []
              end).

Definition charge (units : Z) (x : budget) : budget * res unit :=
  if remaining x <? units then
    (x, Err (Errorf "%w: requested %d, remaining %d, limit %d"
               [ArgWrap (Sentinel ErrBudgetExceeded); ArgInt units;
                ArgInt (remaining x); ArgInt (limit x)]))
  else (Budget (limit x) (remaining x -! units), Ok tt).

Definition refund (units : Z) (x : budget) : budget * unit :=
  (Budget (limit x) (remaining x +! units), tt).

(** The receiver is a pointer that may be nil. *)
Definition Budget_Reserve (budget : option nat) (c : ctx) (units : Z)
    : prog (limits U) (res (reservation U)) :=
  match budget with
  | None => mret (Err (New "budget is nil"))
  | Some b =>
      done ← read (λ w, ctx_err c (lw_ctxs w));
      match done with
      | Some e => mret (Err e)
      | None =>
          if units <? 1 then mret (Err (New "resource units must be positive"))
          else
            _ ←? with_budget b (charge units);
            r ← newReservation (with_budget b (refund units));
            mret (Ok r)
      end
  end.

Definition Budget_Wait (budget : option nat) (c : ctx) (units : Z)
    : prog (limits U) (res unit) :=
  r ←? Budget_Reserve budget c units;
  _ ← Commit r;
  mret (Ok tt).

(** [Limit], [Remaining], [Spent] and [Snapshot]; a nil budget reads as zero. *)
Record snapshot := Snapshot { s_limit : Z; s_spent : Z; s_remaining : Z }.

Definition look {X} (zero : X) (budget : option nat) (f : Limits.budget → X)
    : prog (limits U) X :=
  match budget with
  | None => mret zero
  | Some b => with_budget b (λ x, (x, f x))
  end.

Definition Limit (budget : option nat) : prog (limits U) Z := look 0 budget limit.
Definition Remaining (budget : option nat) : prog (limits U) Z := look 0 budget remaining.
Definition Spent (budget : option nat) : prog (limits U) Z :=
  look 0 budget (λ x, limit x -! remaining x).
Definition snapshot_of (x : Limits.budget) : snapshot :=
  Snapshot (limit x) (limit x -! remaining x) (remaining x).
Definition Budget_Snapshot (budget : option nat) : prog (limits U) snapshot :=
  look (Snapshot 0 0 0) budget snapshot_of.
End budget.

(** ** Ownership specifications *)

Section admission.
Context {U : Type} (b : nat) (x0 : budget).
Notation Inv := (budget_inv (U := U) b x0).
Implicit Types (units : Z) (u : N) (b : nat) (γ : share) (c : ctx).

(** [p] charges [u] units of the budget when it succeeds and none when it
    fails: provisionally for [admits], for good for [waits]. *)
Definition admits (u : N) (p : prog (limits U) (res (reservation U))) : Prop :=
  owns Inv (λ r γ, match r with
                   | Ok rv => resv_ok b x0 rv u γ
                   | Err _ => γ.1 = (0, 0)%N
                   end) p azero.

Definition waits (u : N) (p : prog (limits U) (res unit)) : Prop :=
  owns Inv (λ r γ, γ.1 = (0%N, if is_ok r then u else 0%N)) p azero.

Lemma waits_of_admits u p :
  admits u p → waits u (r ←? p; _ ← Commit r; mret (Ok tt)).
Proof.
  intros Hp. eapply owns_rbind; [exact Hp| |done].
  intros r γ [Hc _]. eapply owns_bind'; [exact Hc|]. intros [] γ' Hγ. by apply owns_ret.
Qed.

(** A section on the budget [b] itself that trades [γ] for [γ']. *)
Lemma owns_with_budget {X} (f : budget → budget * X) (γ : share) (γ' : budget → share) (Q : X → share → Prop) :
  (∀ x h s, remaining x0 ≤ max64 → 0 ≤ remaining x →
     remaining x + Z.of_N (γ.1.1 + h) + Z.of_N (γ.1.2 + s) = remaining x0 →
     (limit (f x).1 = limit x ∧ 0 ≤ remaining (f x).1 ∧ (γ' x).2 = γ.2 ∧
      remaining (f x).1 + Z.of_N ((γ' x).1.1 + h) + Z.of_N ((γ' x).1.2 + s) = remaining x0) ∧
     Q (f x).2 (γ' x)) →
  owns Inv Q (with_budget b f) γ.
Proof.
  intros Hf. apply owns_await. intros w o w' y (Hfl & Hmax & x & Hx & Hlim0 & Hpos & Hsum) Hin.
  rewrite Hx in Hin. apply list_elem_of_singleton in Hin as [= -> ->].
  destruct (Hf x o.1.1 o.1.2) as [(Hlim & Hpos' & Hfl' & Hsum') HQ]; [done..|].
  exists (γ' x). split; [|done]. split; [accounts; by rewrite Hfl'|].
  split; [done|]. exists (f x).1. accounts. rewrite list_lookup_insert_eq by by eapply lookup_lt_Some.
  split_and!; [done|congruence|done|done].
Qed.

(** A section on any other budget. *)
Lemma owns_with_budget_other {X} (b' : nat) (f : budget → budget * X) (γ : share) (Q : X → share → Prop) :
  b' ≠ b → (∀ x, Q (f x).2 γ) → owns Inv Q (with_budget b' f) γ.
Proof.
  intros Hne HQ. apply owns_await. intros w o w' y (Hfl & Hmax & x & Hx & Hrest) Hin.
  destruct (lw_budgets w !! b') eqn:?; [|by apply elem_of_nil in Hin].
  apply list_elem_of_singleton in Hin as [= -> ->].
  exists γ. split; [|auto]. split; [done|]. split; [done|]. exists x. simpl.
  by rewrite list_lookup_insert_ne.
Qed.

(** An action that touches neither budgets nor reservations. *)
Lemma owns_untouched {X} (act : limits U → list (limits U * X)) (γ : share)
    (Q : X → share → Prop) :
  (∀ w w' x, (w', x) ∈ act w → lw_budgets w' = lw_budgets w ∧ lw_flags w' = lw_flags w) →
  (∀ x, Q x γ) → owns Inv Q (await act) γ.
Proof.
  intros Hact HQ. apply owns_await. intros w o w' x (Hfl & Hmax & y & Hy & Hrest) Hin.
  apply Hact in Hin as [Hb Hf]. exists γ. split; [|done].
  split; [by rewrite Hf|]. split; [done|]. exists y. by rewrite Hb.
Qed.

Lemma owns_read {X} (f : limits U → X) (γ : share) (Q : X → share → Prop) :
  (∀ x, Q x γ) → owns Inv Q (read f) γ.
Proof.
  intros HQ. apply owns_untouched; [|done]. by intros w w' x [= -> ->]%list_elem_of_singleton.
Qed.

(** The units of [b] a reservation on [budget] holds. *)
Definition charges_budget (budget : option nat) (units : Z) : N :=
  if decide (budget = Some b) then Z.to_N units else 0%N.

Lemma owns_refund units (γ : share) :
  1 ≤ units → γ.1 = (Z.to_N units, 0)%N →
  owns Inv (λ _ γ', γ'.1 = (0, 0)%N) (with_budget b (refund units)) γ.
Proof.
  intros Hu Hγ. apply owns_with_budget with (γ' := λ _, (0%N, 0%N, γ.2)).
  intros x h s Hmax Hpos. rewrite Hγ. accounts. intros Hsum.
  rewrite wrap64_id by (unfold in64, min64, max64 in *; lia).
  repeat split; lia.
Qed.

Lemma owns_charge units :
  1 ≤ units →
  owns Inv (λ r γ, γ = (if is_ok r then Z.to_N units else 0%N, 0%N, ∅))
    (with_budget b (charge units)) azero.
Proof.
  intros Hu. apply owns_with_budget with
    (γ' := λ x, (if remaining x <? units then 0%N else Z.to_N units, 0%N, ∅)).
  intros x h s Hmax Hpos. accounts. intros Hsum. unfold charge.
  destruct (Z.ltb_spec (remaining x) units); simpl; [repeat split; lia|].
  rewrite wrap64_id by (unfold in64, min64, max64 in *; lia). repeat split; lia.
Qed.

Lemma owns_newReservation_refund (b' : nat) units (γ : share) :
  1 ≤ units → γ.1 = (charges_budget (Some b') units, 0)%N →
  owns Inv (λ r γ', resv_ok b x0 r (charges_budget (Some b') units) γ')
    (newReservation (with_budget b' (refund units))) γ.
Proof.
  intros Hu Hγ. destruct γ as [num fl]. simpl in Hγ. subst num.
  eapply owns_newReservation with (γc := (0%N, charges_budget (Some b') units, fl));
    [apply shift_spend|by apply owns_ret|by intros ???|].
  unfold charges_budget. case_decide as Heq.
  - injection Heq as ->. by apply owns_refund.
  - apply owns_with_budget_other; [congruence|done].
Qed.

Lemma Budget_Reserve_admits budget c units :
  admits (charges_budget budget units) (Budget_Reserve budget c units).
Proof.
  unfold admits, Budget_Reserve. destruct budget as [b'|]; [|by apply owns_ret].
  apply owns_bind' with (λ _ γ, γ = azero); [by apply owns_read|]. intros done γ ->.
  destruct done; [by apply owns_ret|].
  destruct (Z.ltb_spec units 1) as [|Hu]; [by apply owns_ret|].
  apply owns_rbind with
    (λ r γ, γ = (if is_ok r then charges_budget (Some b') units else 0%N, 0%N, ∅)).
  - unfold charges_budget. case_decide as Heq.
    + injection Heq as ->. by apply owns_charge.
    + eapply owns_conseq; [apply (owns_with_budget_other _ _ _ (λ _ γ, γ = azero)); [congruence|done]|].
      intros [] γ ->; done.
  - intros [] γ ->. eapply owns_bind'; [by apply owns_newReservation_refund|].
    intros r γ' Hr. by apply owns_ret.
  - by intros e γ ->.
Qed.
End admission.

(** ** Running alone *)

Section alone.
Context {U : Type}.
Implicit Types (w : limits U) (b : nat) (x : budget) (units : Z) (c : ctx).

Lemma set_budget_id b x w : lw_budgets w !! b = Some x → set_budget b x w = w.
Proof. intros Hx. unfold set_budget. rewrite list_insert_id by done. by destruct w. Qed.

Lemma outcomes_with_budget {X} b (f : budget → budget * X) w x :
  lw_budgets w !! b = Some x →
  outcomes (with_budget b f) w = [(set_budget b (f x).1 w, (f x).2)].
Proof. intros Hx. unfold with_budget. by rewrite outcomes_await, Hx. Qed.

(** The error of a refused charge. *)
Definition refusal units x : error :=
  Errorf "%w: requested %d, remaining %d, limit %d"
    [ArgWrap (Sentinel ErrBudgetExceeded); ArgInt units; ArgInt (remaining x); ArgInt (limit x)].

(** The world after a successful [Wait]: the charge, and one finished
    reservation. *)
Definition after_wait b units x w : limits U :=
  set_flags (lw_flags w ++ [true]) (set_budget b (Budget (limit x) (remaining x - units)) w).

(** [Budget.Wait] on each of its branches: a done context's error, a
    non-positive request and a request above the remainder are refused and
    leave every object as it was, the last with [ErrBudgetExceeded]; any other
    request subtracts exactly its units, without overflow, and returns nil. *)
Theorem Budget_Wait_branches b c units w x :
  lw_budgets w !! b = Some x → 0 ≤ remaining x ≤ max64 →
  outcomes (Budget_Wait (Some b) c units) w =
  match ctx_err c (lw_ctxs w) with
  | Some e => [(w, Err e)]
  | None =>
      if units <? 1 then [(w, Err (New "resource units must be positive"))]
      else if remaining x <? units then [(w, Err (refusal units x))]
      else [(after_wait b units x w, Ok tt)]
  end.
Proof.
  intros Hx Hr. unfold Budget_Wait, Budget_Reserve. alone.
  destruct (ctx_err c (lw_ctxs w)) as [e|]; alone; [done|].
  destruct (units <? 1) eqn:Hu; alone; [done|].
  rewrite (outcomes_with_budget _ _ _ _ Hx). unfold charge.
  destruct (remaining x <? units) eqn:Hru; alone.
  - by rewrite (set_budget_id _ _ _ Hx).
  - unfold newReservation, newReservationWithCommit, Commit, finish. alone.
          rewrite lookup_app_r, Nat.sub_diag by lia. alone.
    rewrite insert_app_r_alt, Nat.sub_diag by lia. simpl.
    apply Z.ltb_ge in Hu, Hru.
    rewrite wrap64_id by (unfold in64, min64, max64 in *; lia). done.
Qed.

Lemma outcomes_Budget_Reserve b c units w x :
  lw_budgets w !! b = Some x →
  outcomes (Budget_Reserve (Some b) c units) w =
  match ctx_err c (lw_ctxs w) with
  | Some e => [(w, Err e)]
  | None =>
      if units <? 1 then [(w, Err (New "resource units must be positive"))]
      else if remaining x <? units then [(w, Err (refusal units x))]
      else [(set_flags (lw_flags w ++ [false])
               (set_budget b (Budget (limit x) (remaining x -! units)) w),
             Ok (Reservation (length (lw_flags w)) None (Some (with_budget b (refund units)))))]
  end.
Proof.
  intros Hx. unfold Budget_Reserve. alone.
  destruct (ctx_err c (lw_ctxs w)) as [e|]; alone; [done|].
  destruct (units <? 1); alone; [done|].
  rewrite (outcomes_with_budget _ _ _ _ Hx). unfold charge.
  destruct (remaining x <? units); alone.
  - by rewrite (set_budget_id _ _ _ Hx).
  - unfold newReservation, newReservationWithCommit. by alone.
Qed.

(** A reservation of a budget is settled once: whatever sequence of
    [Commit] and [Rollback] calls follows [Reserve], the first one decides, a
    rollback giving the units back exactly and every later call doing
    nothing; while it is pending the units are withheld. *)
Theorem reservation_settles_once b c units w x w1 r ops w2 :
  lw_budgets w !! b = Some x → 0 ≤ remaining x ≤ max64 →
  (w1, Ok r) ∈ outcomes (Budget_Reserve (Some b) c units) w →
  (w2, tt) ∈ outcomes (run_all (settle r) ops) w1 →
  lw_budgets w2 !! b =
    Some (Budget (limit x)
      (match ops with false :: _ => remaining x | _ => remaining x - units end)).
Proof.
  intros Hx Hr Hres Hops. rewrite (outcomes_Budget_Reserve _ _ _ _ _ Hx) in Hres.
  destruct (ctx_err c (lw_ctxs w)); [set_solver|].
  destruct (Z.ltb_spec units 1); [set_solver|].
  destruct (Z.ltb_spec (remaining x) units); [set_solver|].
  apply list_elem_of_singleton in Hres as [= -> ->].
  rewrite wrap64_id in Hops by (unfold in64, min64, max64 in *; lia).
  assert (b < length (lw_budgets w))%nat as Hb by by eapply lookup_lt_Some.
  destruct ops as [|op ops].
  - apply list_elem_of_singleton in Hops as [= ->]. simpl. by rewrite list_lookup_insert_eq.
  - cbn [run_all] in Hops. rewrite outcomes_bind in Hops.
    assert (∀ w', lw_flags w' !! length (lw_flags w) = Some true →
      outcomes (run_all (settle (Reservation (length (lw_flags w)) None
        (Some (with_budget b (refund units))))) ops) w' = [(w', tt)]) as Hrest
      by (intros; by apply outcomes_settle_all_finished).
    set (w1' := set_flags (lw_flags w ++ [false]) _) in Hops.
    assert (lw_flags w1' !! length (lw_flags w) = Some false) as Hflag.
    { simpl. by rewrite lookup_app_r, Nat.sub_diag by lia. }
    destruct op; cbn [settle] in Hops; unfold Commit, Rollback in Hops;
      rewrite outcomes_bind in Hops; cbn [resv_flag resv_commit resv_rollback] in Hops;
      rewrite (outcomes_finish _ _ _ Hflag) in Hops; simpl in Hops; rewrite app_nil_r in Hops.
    + rewrite Hrest in Hops by (simpl; apply list_lookup_insert_eq; rewrite length_app; simpl; lia).
      apply list_elem_of_singleton in Hops as [= ->]. simpl. by rewrite list_lookup_insert_eq.
    + erewrite outcomes_with_budget in Hops by (simpl; by apply list_lookup_insert_eq).
      simpl in Hops. rewrite app_nil_r in Hops.
      rewrite Hrest in Hops by (simpl; apply list_lookup_insert_eq; rewrite length_app; simpl; lia).
      apply list_elem_of_singleton in Hops as [= ->]. simpl.
      rewrite list_lookup_insert_eq by by rewrite length_insert.
      rewrite wrap64_id by (unfold in64, min64, max64 in *; lia).
      f_equal. f_equal. lia.
Qed.

(** The budget's accessors agree: a snapshot reports the limit, what
    remains and their difference, [Limit], [Remaining] and [Spent] report the
    same three numbers, and for a budget in range the spent and remaining
    parts are non-negative and add up to the limit. *)
Theorem Snapshot_consistent b x w :
  lw_budgets w !! b = Some x → 0 ≤ remaining x ≤ limit x → limit x ≤ max64 →
  ∃ s : snapshot,
    outcomes (Budget_Snapshot (Some b)) w = [(w, s)] ∧
    outcomes (Limit (Some b)) w = [(w, s_limit s)] ∧
    outcomes (Remaining (Some b)) w = [(w, s_remaining s)] ∧
    outcomes (Spent (Some b)) w = [(w, s_spent s)] ∧
    s_limit s = limit x ∧ 0 ≤ s_spent s ∧ 0 ≤ s_remaining s ∧
    s_spent s + s_remaining s = s_limit s.
Proof.
  intros Hx Hr Hmax. exists (snapshot_of x).
  unfold Budget_Snapshot, Limit, Remaining, Spent, look.
  rewrite !(outcomes_with_budget _ _ _ _ Hx). simpl. rewrite (set_budget_id _ _ _ Hx).
  rewrite wrap64_id by (unfold in64, min64, max64 in *; lia).
  split_and!; try done; lia.
Qed.
End alone.

Section budget_calm.
Context {U : Type}.

Lemma calm_with_budget {X} b (f : budget → budget * X) :
  guarantees (same_ctxs (U := U)) (λ _, True) (with_budget b f).
Proof.
  apply guarantees_await. intros w w' x Hin.
  destruct (lw_budgets w !! b); [|by apply elem_of_nil in Hin].
  by apply list_elem_of_singleton in Hin as [= -> ->].
Qed.

Lemma calm_Budget_Reserve p c units :
  guarantees (same_ctxs (U := U)) (λ r, match r with Ok rv => resv_calm rv | Err _ => True end)
    (Budget_Reserve p c units).
Proof.
  unfold Budget_Reserve. destruct p as [b|]; [|done].
  eapply guarantees_bind; [by apply guarantees_atomic with (Q := λ _, True)|].
  intros [e|] _; [done|]. destruct (units <? 1); [done|].
  eapply guarantees_rbind with (R := λ _, True).
  - eapply guarantees_conseq; [apply calm_with_budget|]. by intros [].
  - intros [] _. eapply guarantees_bind; [|by intros r Hr; apply guarantees_ret].
    apply calm_newReservation; [done|apply calm_with_budget].
Qed.
End budget_calm.

(** ** Concrete runs *)

(** One budget of ten units, nothing canceled. *)
Definition ten : limits unit := Limits (Ctxs ∅ 1) [Budget 10 10] [] [] tt.

Lemma Budget_Wait_branches_witness :
  lw_budgets ten !! 0%nat = Some (Budget 10 10) ∧ 0 ≤ 10 ≤ max64 ∧
  outcomes (Budget_Wait (Some 0%nat) [0%nat] 4) ten = [(after_wait 0 4 (Budget 10 10) ten, Ok tt)].
Proof.
  split; [reflexivity|]. split; [unfold max64; lia|].
  rewrite (Budget_Wait_branches 0 [0%nat] 4 ten (Budget 10 10)); [reflexivity|reflexivity|].
  simpl; unfold max64; lia.
Defined.

(** The reservation [Reserve] makes of four of the ten units. *)
Definition four_of_ten : reservation unit :=
  Reservation 0 None (Some (with_budget 0 (refund 4))).
Definition ten_held : limits unit := Limits (Ctxs ∅ 1) [Budget 10 6] [] [false] tt.
Definition ten_back : limits unit := Limits (Ctxs ∅ 1) [Budget 10 10] [] [true] tt.

Lemma reservation_settles_once_witness :
  (ten_held, Ok four_of_ten) ∈ outcomes (Budget_Reserve (Some 0%nat) [0%nat] 4) ten ∧
  (ten_back, tt) ∈ outcomes (run_all (settle four_of_ten) [false; true; false]) ten_held ∧
  lw_budgets ten_back !! 0%nat = Some (Budget 10 10).
Proof.
  assert ((ten_held, Ok four_of_ten) ∈ outcomes (Budget_Reserve (Some 0%nat) [0%nat] 4) ten) as H1
    by (left; reflexivity).
  assert ((ten_back, tt) ∈ outcomes (run_all (settle four_of_ten) [false; true; false]) ten_held) as H2
    by (vm_compute; left).
  split; [exact H1|]. split; [exact H2|].
  apply (reservation_settles_once 0 [0%nat] 4 ten (Budget 10 10) ten_held four_of_ten [false; true; false]);
    [reflexivity|simpl; unfold max64; lia|exact H1|exact H2].
Defined.
