(* ===== verification/Rate.v ===== *)
(** * Token buckets: execution/rate.go

    The buffered channel [tokens] is a counter between 0 and [burst]; a receive
    takes one token and blocks on none, a non-blocking send adds one unless the
    channel is full.  [replenish n] is the replenisher goroutine up to its first
    [n] ticks. *)

From S2P Require Import Prelude GoError Go Limits Budget.

Record Rate := MkRate { Units : Z; Per : Z; Burst : Z }.

Section rate.
Context {U : Type}.
Implicit Types w : limits U.

(** Validates the rate, makes a full bucket and yields its pointer and the
    replenisher's tick interval. *)
Definition NewTokenBucket (rate : Rate) : prog (limits U) (res (nat * Z)) :=
  if Units rate <? 1 then mret (Err (New "rate units must be positive")) else
  if Per rate <=? 0 then mret (Err (New "rate period must be positive")) else
  if Burst rate <? 1 then mret (Err (New "rate burst must be positive")) else
  let interval := Z.quot (Per rate) (Units rate) in
  if interval <=? 0 then mret (Err (New "rate interval is below timer resolution")) else
  k ← atomic (λ w,
    let n := Z.to_nat (Burst rate) in
    (Limits (lw_ctxs w) (lw_budgets w) (lw_buckets w ++ [Bucket n n false false])
       (lw_flags w) (lw_user w),
     length (lw_buckets w)));
  mret (Ok (k, interval)).

(** An action on one bucket, with the canceled contexts in view. *)
Definition on_bucket {X} (k : nat) (f : ctxs → bucket → list (bucket * X))
    : prog (limits U) X :=
  await (λ w, match lw_buckets w !! k with
              | Some x => (λ '(y, r), (set_bucket k y w, r)) <$> f (lw_ctxs w) x
              | None => []
              end).

(** [select { case tokens <- struct{}{}: default: }] *)
Definition offer (k : nat) : prog (limits U) bool :=
  on_bucket k (λ _ x,
    if decide (tokens x < burst x)%nat
    then [(Bucket (S (tokens x)) (burst x) (closed x) (done_closed x), true)]
    else [(x, false)]).

Fixpoint token_refund (k : nat) (units : nat) : prog (limits U) unit :=
  match units with
  | O => mret tt
  | S units =>
      sent ← offer k;
      if (sent : bool) then token_refund k units else mret tt
  end.

Definition is_closed (k : nat) : prog (limits U) bool :=
  on_bucket k (λ _ x, [(x, closed x)]).

(** The outcome of the [select] of [Reserve]. *)
Inductive selected := SelCtx (e : error) | SelDone | SelToken.

Definition select_token (k : nat) (c : ctx) : prog (limits U) selected :=
  on_bucket k (λ t x,
    match ctx_err c t with Some e => [(x, SelCtx e)] | None => [] end ++
    (if done_closed x then [(x, SelDone)] else []) ++
    match tokens x with
    | S n => [(Bucket n (burst x) (closed x) (done_closed x), SelToken)]
    | O => []
    end).

Definition err_closed : error := New "token bucket is closed".

(** The loop of [Reserve]: [missing] units still to acquire. *)
Fixpoint acquire (k : nat) (c : ctx) (acquired missing : nat) : prog (limits U) (res unit) :=
  match missing with
  | O => mret (Ok tt)
  | S missing =>
      stop ← is_closed k;
      if (stop : bool) then _ ← token_refund k acquired; mret (Err err_closed)
      else
        sel ← select_token k c;
        match sel with
        | SelCtx e => _ ← token_refund k acquired; mret (Err e)
        | SelDone => _ ← token_refund k acquired; mret (Err err_closed)
        | SelToken =>
            stop ← is_closed k;
            if (stop : bool) then _ ← token_refund k (S acquired); mret (Err err_closed)
            else acquire k c (S acquired) missing
        end
  end.

Definition TokenBucket_Reserve (limiter : option nat) (c : ctx) (units : Z)
    : prog (limits U) (res (reservation U)) :=
  match limiter with
  | None => mret (Err (New "token bucket is nil"))
  | Some k =>
      if units <? 1 then mret (Err (New "resource units must be positive")) else
      cap ← on_bucket k (λ _ x, [(x, Z.of_nat (burst x))]);
      if cap <? units
      then mret (Err (Errorf "resource units %d exceed burst %d" [ArgInt units; ArgInt cap]))
      else
        stop ← is_closed k;
        if (stop : bool) then mret (Err err_closed)
        else
          _ ←? acquire k c 0 (Z.to_nat units);
          r ← newReservation (token_refund k (Z.to_nat units));
          mret (Ok r)
  end.

Definition TokenBucket_Wait (limiter : option nat) (c : ctx) (units : Z)
    : prog (limits U) (res unit) :=
  r ←? TokenBucket_Reserve limiter c units;
  _ ← Commit r;
  mret (Ok tt).

(** One iteration per tick, until [done] is closed. *)
Fixpoint replenish (k : nat) (ticks : nat) : prog (limits U) unit :=
  match ticks with
  | O => mret tt
  | S ticks =>
      stop ← on_bucket k (λ _ x, (x, false) :: if done_closed x then [(x, true)] else []);
      if (stop : bool) then mret tt
      else _ ← offer k; replenish k ticks
  end.

Definition Close (limiter : option nat) : prog (limits U) unit :=
  match limiter with
  | None => mret tt
  | Some k =>
      once ← on_bucket k (λ _ x, [(Bucket (tokens x) (burst x) true (done_closed x), negb (closed x))]);
      if (once : bool)
      then on_bucket k (λ _ x, [(Bucket (tokens x) (burst x) (closed x) true, tt)])
      else mret tt
  end.
End rate.

(** ** Budgets do not see token buckets *)

Section other.
Context {U : Type} (b : nat) (x0 : budget).
Notation Inv := (budget_inv (U := U) b x0).
Implicit Types (units : Z) (γ : share) (k : nat) (c : ctx).

Lemma owns_on_bucket {X} k (f : ctxs → bucket → list (bucket * X)) γ (Q : X → share → Prop) :
  (∀ x, Q x γ) → owns Inv Q (on_bucket k f) γ.
Proof.
  intros HQ. apply owns_untouched; [|done]. intros w w' x Hin.
  destruct (lw_buckets w !! k); [|by apply elem_of_nil in Hin].
  by apply list_elem_of_fmap in Hin as ([y r] & [= -> ->] & _).
Qed.

Lemma owns_token_refund k n γ (Q : unit → share → Prop) :
  Q tt γ → owns Inv Q (token_refund k n) γ.
Proof.
  intros HQ. induction n as [|n IH]; [by apply owns_ret|]. cbn [token_refund].
  eapply owns_bind'; [by apply (owns_on_bucket _ _ _ (λ _ γ', γ' = γ))|].
  intros [] γ' ->; [done|by apply owns_ret].
Qed.

Lemma owns_refuse k n (e : error) γ :
  owns Inv (λ (r : res unit) γ', γ' = γ)
    (_ ← token_refund k n; mret (Err e)) γ.
Proof.
  eapply owns_bind'; [by apply (owns_token_refund _ _ _ (λ _ γ', γ' = γ))|].
  intros [] γ' ->. by apply owns_ret.
Qed.

Lemma owns_acquire k c n acquired γ :
  owns Inv (λ (r : res unit) γ', γ' = γ) (acquire k c acquired n) γ.
Proof.
  revert acquired. induction n as [|n IH]; intros acquired; [by apply owns_ret|].
  cbn [acquire].
  eapply owns_bind'; [by apply (owns_on_bucket _ _ _ (λ _ γ', γ' = γ))|].
  intros [] γ' ->; [apply owns_refuse|].
  eapply owns_bind'; [by apply (owns_on_bucket _ _ _ (λ _ γ', γ' = γ))|].
  intros [e| |] γ' ->; [apply owns_refuse..|].
  eapply owns_bind'; [by apply (owns_on_bucket _ _ _ (λ _ γ', γ' = γ))|].
  intros [] γ' ->; [apply owns_refuse|apply IH].
Qed.

Lemma TokenBucket_Reserve_admits limiter c units :
  admits b x0 0 (TokenBucket_Reserve (U := U) limiter c units).
Proof.
  unfold admits, TokenBucket_Reserve. destruct limiter as [k|]; [|by apply owns_ret].
  destruct (units <? 1); [by apply owns_ret|].
  eapply owns_bind'; [by apply (owns_on_bucket _ _ _ (λ _ γ', γ' = azero))|].
  intros cap γ ->. destruct (cap <? units); [by apply owns_ret|].
  eapply owns_bind'; [by apply (owns_on_bucket _ _ _ (λ _ γ', γ' = azero))|].
  intros [] γ ->; [by apply owns_ret|].
  eapply owns_rbind; [apply owns_acquire| |by intros e γ ->].
  intros [] γ ->. eapply owns_bind' with (λ r γ', resv_ok b x0 r 0 γ').
  - eapply owns_newReservation with (γc := azero) (γr := azero);
      [by intros ???|by apply owns_ret|by intros ???|by apply owns_token_refund].
  - intros r γ' Hr. by apply owns_ret.
Qed.
End other.

(** ** Supply of one bucket

    An account of bucket [k] counts tokens: those a goroutine has taken and not
    given back, and for the replenisher those it may still add. *)

Definition bucket_inv {U} (k : nat) (size : nat) (supply : Z) (w : limits U) (γ : N) : Prop :=
  ∃ x, lw_buckets w !! k = Some x ∧ burst x = size ∧ (tokens x ≤ burst x)%nat ∧
       Z.of_nat (tokens x) + Z.of_N γ ≤ supply.

Section supply.
Context {U : Type} (k : nat) (size : nat) (supply : Z).
Notation Inv := (bucket_inv (U := U) k size supply).
Implicit Types (γ h : N) (c : ctx) (units : Z).

Lemma owns_bucket_act {X} (f : ctxs → bucket → list (bucket * X)) γ (Q : X → N → Prop) :
  (∀ (t : ctxs) x y r, (tokens x ≤ burst x)%nat → (y, r) ∈ f t x →
     burst y = burst x ∧ (tokens y ≤ burst y)%nat ∧
     ∃ γ', Q r γ' ∧ Z.of_nat (tokens y) + Z.of_N γ' ≤ Z.of_nat (tokens x) + Z.of_N γ) →
  owns Inv Q (on_bucket k f) γ.
Proof.
  intros Hf. apply owns_await. intros w o w' r (x & Hx & Hb & Hle & Hsum) Hin.
  rewrite Hx in Hin. apply list_elem_of_fmap in Hin as ([y r'] & [= -> ->] & Hin).
  destruct (Hf _ _ _ _ Hle Hin) as (Hby & Hley & γ' & HQ & Hacc).
  exists γ'. split; [|done]. exists y. simpl.
  rewrite list_lookup_insert_eq by by eapply lookup_lt_Some.
  accounts. split_and!; [done|congruence|done|]. lia.
Qed.

(** Reading an attribute of the bucket. *)
Lemma owns_bucket_read {X} (f : ctxs → bucket → list (bucket * X)) γ (Q : X → N → Prop) :
  (∀ (t : ctxs) x y r, (y, r) ∈ f t x → y = x) → (∀ r, Q r γ) → owns Inv Q (on_bucket k f) γ.
Proof.
  intros Hf HQ. apply owns_bucket_act. intros t x y r Hle Hin.
  rewrite (Hf _ _ _ _ Hin). split_and!; [done..|]. exists γ. split; [done|lia].
Qed.

Lemma owns_bucket_untouched {X} (f : limits U → limits U * X) γ (Q : X → N → Prop) :
  (∀ w, lw_buckets (f w).1 = lw_buckets w) → (∀ x, Q x γ) → owns Inv Q (atomic f) γ.
Proof.
  intros Hf HQ. apply owns_atomic. intros w o (x & Hx & Hrest). exists γ.
  split; [|done]. exists x. by rewrite Hf.
Qed.

(** Sending a token, or finding the channel full, costs one. *)
Lemma owns_offer γ (γ' : bool → N) :
  (∀ sent, γ' sent + 1 ≤ γ)%N → owns Inv (λ sent m, m = γ' sent) (offer k) γ.
Proof.
  intros Hacc. apply owns_bucket_act. intros t x y r Hle Hin.
  case_decide; apply list_elem_of_singleton in Hin as [= -> ->]; simpl;
    (split_and!; [done|lia|]); (eexists; split; [done|]);
    [specialize (Hacc true)|specialize (Hacc false)]; lia.
Qed.

Lemma owns_refund_tokens (i : nat) h :
  owns Inv (λ _ m, m = h) (token_refund k i) (N.of_nat i + h)%N.
Proof.
  induction i as [|i IH]; [by apply owns_ret|]. cbn [token_refund].
  eapply owns_bind'.
  - apply (owns_offer _ (λ sent, if sent then N.of_nat i + h else h)%N). intros []; lia.
  - intros [] m ->; [done|by apply owns_ret].
Qed.

Lemma owns_give_up (i : nat) (e : error) :
  owns Inv (λ (r : res unit) m, is_ok r = false ∧ m = 0%N)
    (_ ← token_refund k i; mret (Err e)) (N.of_nat i).
Proof.
  eapply owns_bind'.
  - pose proof (owns_refund_tokens i 0) as H. by rewrite N.add_0_r in H.
  - intros [] m ->. by apply owns_ret.
Qed.

Lemma owns_is_closed γ : owns Inv (λ _ m, m = γ) (is_closed k) γ.
Proof. by apply owns_bucket_read; [intros ???? [= -> ->]%list_elem_of_singleton|]. Qed.

Lemma owns_select c h :
  owns Inv (λ sel m, m = match sel with SelToken => h + 1 | _ => h end)%N (select_token k c) h.
Proof.
  apply owns_bucket_act. intros t x y r Hle Hin.
  rewrite !elem_of_app in Hin. destruct Hin as [Hin|[Hin|Hin]].
  - destruct (ctx_err c t); [|by apply elem_of_nil in Hin].
    apply list_elem_of_singleton in Hin as [= -> ->].
    split_and!; [done|done|]. eexists. split; [done|simpl; lia].
  - destruct (done_closed x); [|by apply elem_of_nil in Hin].
    apply list_elem_of_singleton in Hin as [= -> ->].
    split_and!; [done|done|]. eexists. split; [done|simpl; lia].
  - destruct (tokens x) eqn:Ht; [by apply elem_of_nil in Hin|].
    apply list_elem_of_singleton in Hin as [= -> ->]. simpl.
    split_and!; [done|lia|]. eexists. split; [done|simpl; lia].
Qed.

Lemma owns_acquire_tokens c (missing acquired : nat) :
  owns Inv (λ r m, m = (if is_ok r then N.of_nat (acquired + missing) else 0)%N)
    (acquire k c acquired missing) (N.of_nat acquired).
Proof.
  revert acquired. induction missing as [|n IH]; intros acquired.
  { apply owns_ret. simpl. by rewrite Nat.add_0_r. }
  assert (∀ (i : nat) e, owns Inv
    (λ r m, m = (if is_ok r then N.of_nat (acquired + S n) else 0)%N)
    (_ ← token_refund k i; mret (Err e : res unit)) (N.of_nat i)) as Hfail.
  { intros i e. eapply owns_conseq; [apply owns_give_up|]. by intros [] m [? ->]. }
  cbn [acquire]. eapply owns_bind'; [apply owns_is_closed|].
  intros [] m ->; [apply Hfail|].
  eapply owns_bind'; [apply owns_select|].
  intros [e| |] m ->; [apply Hfail..|].
  replace (N.of_nat acquired + 1)%N with (N.of_nat (S acquired)) by lia.
  eapply owns_bind'; [apply owns_is_closed|].
  intros [] m ->; [apply Hfail|].
  replace (acquired + S n)%nat with (S acquired + n)%nat by lia. apply IH.
Qed.

Lemma owns_flag_only (flag : nat) γ : owns Inv (λ _ m, m = γ) (finish (U := U) flag) γ.
Proof.
  apply owns_bucket_untouched; [|done]. intros w.
  destruct (lw_flags w !! flag) as [[]|]; done.
Qed.

(** What a caller of [Wait] has taken for good. *)
Definition taken (units : Z) (r : res unit) : N := if is_ok r then Z.to_N units else 0%N.

Lemma owns_TokenBucket_Wait c units :
  owns Inv (λ r m, m = taken units r) (TokenBucket_Wait (Some k) c units) 0%N.
Proof.
  unfold TokenBucket_Wait, TokenBucket_Reserve.
  apply owns_rbind with (λ r m, m = (if is_ok r then Z.to_N units else 0)%N
                                ∧ match r with Ok rv => resv_commit rv = None | _ => True end).
  - destruct (Z.ltb_spec units 1); [by apply owns_ret|].
    eapply owns_bind'; [apply (owns_bucket_read _ _ (λ _ m, m = 0%N)); [|done];
      by intros ???? [= -> ->]%list_elem_of_singleton|].
    intros cap m ->. destruct (cap <? units); [by apply owns_ret|].
    eapply owns_bind'; [apply owns_is_closed|]. intros [] m ->; [by apply owns_ret|].
    eapply owns_rbind; [apply (owns_acquire_tokens _ _ 0)| |by intros e m ->].
    intros [] m ->. cbn [is_ok]. rewrite Nat.add_0_l, Z_nat_N.
    apply owns_bind' with (λ r m, resv_commit r = None ∧ m = Z.to_N units).
    + unfold newReservation, newReservationWithCommit.
      eapply owns_bind'; [by apply (owns_bucket_untouched _ _ (λ _ m, m = Z.to_N units))|].
      intros flag m ->. by apply owns_ret.
    + intros r m [Hr ->]. by apply owns_ret.
  - intros r m [-> Hr]. unfold Commit.
    apply owns_bind' with (λ _ m, m = Z.to_N units).
    + eapply owns_bind'; [apply owns_flag_only|]. intros [] m ->; rewrite ?Hr; by apply owns_ret.
    + intros [] m ->. by apply owns_ret.
  - intros e m [-> _]. done.
Qed.

Lemma owns_replenish (i : nat) : owns Inv (λ _ _, True) (replenish k i) (N.of_nat i).
Proof.
  induction i as [|i IH]; cbn [replenish]; [by apply owns_ret|].
  eapply owns_bind'.
  { apply (owns_bucket_read _ _ (λ _ m, m = N.of_nat (S i))); [|done].
    intros t' x y r [[= -> ->]|Hin]%elem_of_cons; [done|].
    destruct (done_closed x); set_solver. }
  intros [] m ->; [by apply owns_ret|].
  eapply owns_bind'.
  { apply (owns_offer _ (λ _, N.of_nat i)). intros _; lia. }
  by intros sent m ->.
Qed.
End supply.

(** ** The rate bound *)

Section bound.
Context {U : Type}.
Implicit Types (w : limits U) (k : nat) (x : bucket).

(** The calls of [Wait] and the replenisher share the bucket. *)
Definition calls k (qs : list (ctx * Z)) : list (prog (limits U) (res unit)) :=
  (λ q, TokenBucket_Wait (Some k) q.1 q.2) <$> qs.
Definition replenisher k (ticks : nat) : prog (limits U) (res unit) :=
  _ ← replenish k ticks; mret (Ok tt).

(** The units of the calls that have returned nil so far. *)
Definition units_of (q : ctx * Z) (p : prog (limits U) (res unit)) : Z :=
  match p with Ret (Ok _) => Z.max 0 q.2 | _ => 0 end.
Definition admitted (qs : list (ctx * Z)) (ps : list (prog (limits U) (res unit))) : Z :=
  sum_by id (zip_with units_of qs ps).

(** Contexts, budgets and the caller's limiters may change around the calls. *)
Definition around w w' : Prop := lw_buckets w' = lw_buckets w.

Lemma around_inv k size supply w w' (m : N) :
  bucket_inv k size supply w m → around w w' → bucket_inv k size supply w' m.
Proof. intros (x & Hx & Hrest) Ha. exists x. by rewrite Ha. Qed.

Lemma admitted_le qs ps (γs : list N) :
  length γs = length ps → (length qs ≤ length ps)%nat →
  (∀ i q p γ, qs !! i = Some q → ps !! i = Some p → γs !! i = Some γ →
     units_of q p ≤ Z.of_N γ) →
  admitted qs ps ≤ Z.of_N (total γs).
Proof.
  revert ps γs. induction qs as [|q qs IH]; intros ps γs Hl Hle H;
    [simpl; unfold admitted; simpl; lia|].
  destruct ps as [|p ps], γs as [|γ γs]; simpl in *; try lia.
  pose proof (IH ps γs ltac:(lia) ltac:(lia) ltac:(intros i; apply (H (S i)))).
  pose proof (H 0%nat q p γ eq_refl eq_refl eq_refl).
  unfold admitted, sum_by, id in *. simpl in *. accounts. lia.
Qed.

(** C21: A token bucket never admits more than its rate allows: whatever calls
    of [Wait] compete for it and however their steps, the replenisher's ticks
    and context cancellations interleave, at every moment the units of the
    calls that have succeeded are at most the tokens there were plus one per
    tick, and the bucket never holds more than its burst. *)
Theorem TokenBucket_rate_bound k x w qs ticks w' ps :
  lw_buckets w !! k = Some x → (tokens x ≤ burst x)%nat →
  rtc (pool_step around) (w, calls k qs ++ [replenisher k ticks]) (w', ps) →
  admitted qs ps ≤ Z.of_nat (tokens x) + Z.of_nat ticks ∧
  ∃ x', lw_buckets w' !! k = Some x' ∧ burst x' = burst x ∧ (tokens x' ≤ burst x')%nat.
Proof.
  intros Hx Hle Hsteps.
  set (supply := Z.of_nat (tokens x) + Z.of_nat ticks).
  assert (pool_ok (bucket_inv k (burst x) supply)
            (λ i r γ, ∀ q, qs !! i = Some q → γ = taken q.2 r)
            (w, calls k qs ++ [replenisher k ticks])
            (replicate (length qs) azero ++ [N.of_nat ticks])) as Hok.
  { split; [|split].
    - exists x. simpl. split_and!; [done..|].
      assert (total (replicate (length qs) azero ++ [N.of_nat ticks]) = N.of_nat ticks) as ->.
      { induction (length qs) as [|n IH]; simpl; [accounts; lia|]. rewrite IH. accounts. lia. }
      unfold supply. lia.
    - simpl. rewrite !length_app, length_replicate. unfold calls. by rewrite length_fmap.
    - simpl. intros i p γ Hp Hγ. apply lookup_app_Some in Hp as [Hp|[Hi Hp]].
      + apply list_lookup_fmap_Some in Hp as (q & -> & Hq).
        rewrite lookup_app_l in Hγ by (rewrite length_replicate; by eapply lookup_lt_Some).
        apply lookup_replicate in Hγ as [-> _].
        eapply owns_conseq; [apply owns_TokenBucket_Wait|]. simpl.
        intros r γ -> q' Hq'. by simplify_eq.
      + unfold calls in *. rewrite length_fmap in *.
        apply list_lookup_singleton_Some in Hp as [Hi0 <-].
        rewrite lookup_app_r, length_replicate, Hi0 in Hγ by (rewrite length_replicate; lia).
        simplify_eq/=. eapply owns_bind'; [apply owns_replenish|].
        intros [] m _. apply owns_ret. intros q Hq. apply lookup_lt_Some in Hq. lia. }
  destruct (pool_steps_ok _ _ _ (around_inv k (burst x) supply) _ _ _ Hsteps Hok)
    as (γs & (x' & Hx' & Hb & Hle' & Hsum) & Hlen & Hts).
  split; [|by exists x'].
  assert (length ps = S (length qs)) as Hps.
  { clear -Hsteps. remember (w, _) as s eqn:Hs. remember (w', ps) as s' eqn:Hs'.
    assert (length s'.2 = length s.2) as Hl; [|subst; simpl in Hl; rewrite Hl].
    - clear Hs Hs'. induction Hsteps as [|s s1 s2 Hstep _ IH]; [done|].
      rewrite IH. destruct Hstep; simpl; [by rewrite length_insert|done].
    - unfold calls. rewrite length_app, length_fmap. simpl. lia. }
  enough (admitted qs ps ≤ Z.of_N (total γs)) by (simpl in *; lia).
  apply admitted_le; [done|lia|]. intros i q p γ Hq Hp Hγ.
  specialize (Hts i p γ Hp Hγ). destruct p as [[[]|e]|]; simpl; [|lia..].
  simpl in Hts. rewrite (Hts q Hq). unfold taken. simpl. lia.
Qed.
End bound.

Section bucket_calm.
Context {U : Type}.
Notation calm := (guarantees (same_ctxs (U := U))).

Lemma calm_on_bucket {X} k (f : ctxs → bucket → list (bucket * X)) :
  calm (λ _, True) (on_bucket k f).
Proof.
  apply guarantees_await. intros w w' x Hin.
  destruct (lw_buckets w !! k); [|by apply elem_of_nil in Hin].
  by apply list_elem_of_fmap in Hin as ([y r] & [= -> ->] & _).
Qed.

Lemma calm_token_refund k n : calm (λ _, True) (token_refund k n).
Proof.
  induction n as [|n IH]; [done|]. cbn [token_refund].
  eapply guarantees_bind; [apply calm_on_bucket|]. by intros [] _.
Qed.

Lemma calm_give_up k n (e : error) :
  calm (λ _ : res unit, True) (_ ← token_refund k n; mret (Err e)).
Proof. eapply guarantees_bind; [apply calm_token_refund|done]. Qed.

Lemma calm_acquire k c acquired missing : calm (λ _, True) (acquire k c acquired missing).
Proof.
  revert acquired. induction missing as [|missing IH]; intros acquired; [done|]. cbn [acquire].
  eapply guarantees_bind; [apply calm_on_bucket|]. intros [] _; [apply calm_give_up|].
  eapply guarantees_bind; [apply calm_on_bucket|]. intros [e| |] _; try apply calm_give_up.
  eapply guarantees_bind; [apply calm_on_bucket|]. intros [] _; [apply calm_give_up|apply IH].
Qed.

Lemma calm_TokenBucket_Reserve p c units :
  calm (λ r, match r with Ok rv => resv_calm rv | Err _ => True end) (TokenBucket_Reserve p c units).
Proof.
  unfold TokenBucket_Reserve. destruct p as [k|]; [|done]. destruct (units <? 1); [done|].
  eapply guarantees_bind; [apply calm_on_bucket|]. intros cap _. destruct (cap <? units); [done|].
  eapply guarantees_bind; [apply calm_on_bucket|]. intros [] _; [done|].
  eapply guarantees_rbind with (R := λ _, True).
  - eapply guarantees_conseq; [apply calm_acquire|]. by intros [].
  - intros [] _. eapply guarantees_bind; [|by intros r Hr; apply guarantees_ret].
    apply calm_newReservation; [done|apply calm_token_refund].
Qed.
End bucket_calm.

(** ** A concrete run *)

(** A bucket holding one of two tokens. *)
Definition one_token : limits unit := Limits (Ctxs ∅ 1) [] [Bucket 1 2 false false] [] tt.

(** Two calls for one unit each and a replenisher with one tick: the first
    call takes the token, the tick restores it, the second call takes it. *)
Definition two_calls : list (ctx * Z) := [([0%nat], 1); ([0%nat], 1)].
Definition both_pass : list nat :=
  replicate 7 0%nat ++ replicate 2 2%nat ++ replicate 7 1%nat.

Lemma TokenBucket_rate_bound_witness :
  ∃ w' ps, rtc (pool_step around) (one_token, calls 0 two_calls ++ [replenisher 0 1]) (w', ps) ∧
    admitted two_calls ps = 2 ∧ admitted two_calls ps ≤ 1 + 1.
Proof.
  destruct (replay_pool both_pass (one_token, calls 0 two_calls ++ [replenisher 0 1]))
    as [[w' ps]|] eqn:Hr; [|vm_compute in Hr; discriminate Hr].
  pose proof (replay_pool_steps around _ _ _ Hr) as Hsteps.
  exists w', ps. split; [exact Hsteps|].
  assert (admitted two_calls ps = 2) as Htwo.
  { vm_compute in Hr. injection Hr as _ <-. reflexivity. }
  split; [exact Htwo|].
  exact (proj1 (TokenBucket_rate_bound 0 (Bucket 1 2 false false) one_token two_calls 1 w' ps
                  eq_refl (le_S _ _ (le_n _)) Hsteps)).
Defined.
