(* ===== verification/Chain.v ===== *)
(** * Composed limiters: execution/chain.go

    A [Limiter] value is one of the repository's three implementations or a
    caller's own type with only [Wait]; nil interface values are filtered by
    [Chain].  [acquire_limiter] is the loop body shared by
    [limiterChain.Reserve] and [runEnv.admit]: it reserves where the limiter
    can and waits otherwise. *)

From S2P Require Import Prelude GoError Go Limits Budget Rate.

Section chain.
Context {U : Type}.

Inductive Limiter :=
| LBudget (p : option nat)
| LBucket (p : option nat)
| LChain (ls : list Limiter)
| LCustom (wait : option error → Z → U → list (U * res unit)).

(** [Chain] drops the nil limiters. *)
Definition Chain (limiters : list (option Limiter)) : Limiter := LChain (omap id limiters).

Definition custom_Wait (wait : option error → Z → U → list (U * res unit))
    (c : ctx) (units : Z) : prog (limits U) (res unit) :=
  await (λ w, (λ '(u, r), (set_user u w, r)) <$>
              wait (ctx_err c (lw_ctxs w)) units (lw_user w)).

Definition commit_all (rs : list (reservation U)) : prog (limits U) unit := run_all Commit rs.
Definition rollback_all (rs : list (reservation U)) : prog (limits U) unit :=
  run_all Rollback (reverse rs).

Fixpoint acquire_limiter (l : Limiter) (c : ctx) (units : Z)
    : prog (limits U) (res (option (reservation U))) :=
  match l with
  | LBudget p => r ←? Budget_Reserve p c units; mret (Ok (Some r))
  | LBucket p => r ←? TokenBucket_Reserve p c units; mret (Ok (Some r))
  | LCustom wait => _ ←? custom_Wait wait c units; mret (Ok None)
  | LChain ls =>
      (fix reserve (index : Z) (ls : list Limiter) (rs : list (reservation U)) :=
         match ls with
         | [] =>
             r ← newReservationWithCommit (Some (commit_all rs)) (Some (rollback_all rs));
             mret (Ok (Some r))
         | l :: ls =>
             got ← acquire_limiter l c units;
             match got with
             | Err e =>
                 _ ← rollback_all rs;
                 mret (Err (Errorf "limiter %d: %w" [ArgInt index; ArgWrap e]))
             | Ok o => reserve (index + 1) ls (rs ++ option_list o)
             end
         end) 0 ls []
  end.

(** The inner loop of [limiterChain.Reserve], as a function of its own. *)
Definition chain_reserve (c : ctx) (units : Z) :=
  fix reserve (index : Z) (ls : list Limiter) (rs : list (reservation U))
      : prog (limits U) (res (option (reservation U))) :=
    match ls with
    | [] =>
        r ← newReservationWithCommit (Some (commit_all rs)) (Some (rollback_all rs));
        mret (Ok (Some r))
    | l :: ls =>
        got ← acquire_limiter l c units;
        match got with
        | Err e =>
            _ ← rollback_all rs;
            mret (Err (Errorf "limiter %d: %w" [ArgInt index; ArgWrap e]))
        | Ok o => reserve (index + 1) ls (rs ++ option_list o)
        end
    end.

Lemma acquire_chain ls c units :
  acquire_limiter (LChain ls) c units = chain_reserve c units 0 ls [].
Proof. done. Qed.

Definition Limiter_Wait (l : Limiter) (c : ctx) (units : Z) : prog (limits U) (res unit) :=
  match l with
  | LBudget p => Budget_Wait p c units
  | LBucket p => TokenBucket_Wait p c units
  | LCustom wait => custom_Wait wait c units
  | LChain ls =>
      got ←? acquire_limiter (LChain ls) c units;
      _ ← run_all Commit (option_list got);
      mret (Ok tt)
  end.
End chain.
Arguments Limiter : clear implicits.

(** Induction on limiters with the list of a chain opened up. *)
Lemma limiter_ind {U} (P : Limiter U → Prop) :
  (∀ p, P (LBudget p)) → (∀ p, P (LBucket p)) → (∀ f, P (LCustom f)) →
  (∀ ls, Forall P ls → P (LChain ls)) → ∀ l, P l.
Proof.
  intros Hb Hk Hc Hch. fix IH 1. intros [p|p|ls|f]; [apply Hb|apply Hk| |apply Hc].
  apply Hch. induction ls as [|l ls IHls]; constructor; [apply IH|apply IHls].
Qed.

(** ** What a limiter charges a budget *)

Section charges.
Context {U : Type} (b : nat) (x0 : budget).
Notation Inv := (budget_inv (U := U) b x0).
Implicit Types (l : Limiter U) (units : Z) (u : N) (γ : share).

(** One charge of [units] for every occurrence of the budget. *)
Fixpoint charges (l : Limiter U) (units : Z) : N :=
  match l with
  | LBudget p => charges_budget b p units
  | LBucket _ | LCustom _ => 0
  | LChain ls => foldr (λ l n, (charges l units + n)%N) 0%N ls
  end.

Lemma charges_chain ls units :
  charges (LChain ls) units = total ((λ l, charges l units) <$> ls).
Proof. induction ls as [|l ls IH]; [done|]. simpl in *. by rewrite IH. Qed.

(** The reservations [rs] together hold [γ] and [u] units. *)
Fixpoint all_ok (rs : list (reservation U)) u γ : Prop :=
  match rs with
  | [] => u = 0%N ∧ γ.1 = (0, 0)%N
  | r :: rs => ∃ u1 u2 γ1 γ2,
      u = (u1 + u2)%N ∧ γ = γ1 ⊹ γ2 ∧ resv_ok b x0 r u1 γ1 ∧ all_ok rs u2 γ2
  end.

Lemma all_ok_frame rs u γ f : all_ok rs u γ → f.1 = (0, 0)%N → all_ok rs u (γ ⊹ f).
Proof.
  revert u γ. induction rs as [|r rs IH]; simpl; intros u γ.
  - intros [-> Hγ] Hf. destruct γ as [[??]?], f as [[??]?]. accounts. by simplify_eq.
  - intros (u1 & u2 & γ1 & γ2 & -> & -> & Hr & Hrs) Hf.
    exists u1, u2, γ1, (γ2 ⊹ f). rewrite aplus_assoc. auto.
Qed.

Lemma all_ok_app rs1 rs2 u γ :
  all_ok (rs1 ++ rs2) u γ ↔
  ∃ u1 u2 γ1 γ2, u = (u1 + u2)%N ∧ γ = γ1 ⊹ γ2 ∧ all_ok rs1 u1 γ1 ∧ all_ok rs2 u2 γ2.
Proof.
  revert u γ. induction rs1 as [|r rs1 IH]; simpl; intros u γ.
  - split.
    + intros H. exists 0%N, u, azero, γ. by rewrite aplus_zero.
    + intros (u1 & u2 & γ1 & γ2 & -> & -> & [-> Hγ1] & H). simpl.
      rewrite aplus_comm. by apply all_ok_frame.
  - setoid_rewrite IH. split.
    + intros (u1 & ? & γ1 & ? & -> & -> & Hr & u2 & u3 & γ2 & γ3 & -> & -> & H1 & H2).
      exists (u1 + u2)%N, u3, (γ1 ⊹ γ2), γ3. rewrite aplus_assoc, N.add_assoc.
      split_and!; [done|done| |done]. by exists u1, u2, γ1, γ2.
    + intros (? & u3 & ? & γ3 & -> & -> & (u1 & u2 & γ1 & γ2 & -> & -> & Hr & H1) & H2).
      exists u1, (u2 + u3)%N, γ1, (γ2 ⊹ γ3). rewrite aplus_assoc, N.add_assoc.
      split_and!; [done|done|done|]. by exists u2, u3, γ2, γ3.
Qed.

Lemma all_ok_reverse rs u γ : all_ok rs u γ → all_ok (reverse rs) u γ.
Proof.
  revert u γ. induction rs as [|r rs IH]; [done|].
  intros u γ (u1 & u2 & γ1 & γ2 & -> & -> & Hr & Hrs). rewrite reverse_cons.
  apply all_ok_app. exists u2, u1, γ2, γ1. rewrite N.add_comm, aplus_comm.
  split_and!; [done|done|auto|]. exists u1, 0%N, γ1, azero.
  by rewrite N.add_0_r, aplus_zero_r.
Qed.

(** Finishing every reservation, each with its own frame. *)
Lemma owns_run_all (f : reservation U → prog (limits U) unit) (spent : N → N) rs u γ :
  spent 0%N = 0%N → (∀ x y, spent (x + y) = spent x + spent y)%N →
  (∀ r u γ, resv_ok b x0 r u γ → owns Inv (λ _ γ', γ'.1 = (0%N, spent u)) (f r) γ) →
  all_ok rs u γ → owns Inv (λ _ γ', γ'.1 = (0%N, spent u)) (run_all f rs) γ.
Proof.
  intros H0 Hadd Hf. revert u γ. induction rs as [|r rs IH]; intros u γ.
  - intros [-> Hγ]. apply owns_ret. by rewrite H0.
  - intros (u1 & u2 & γ1 & γ2 & -> & -> & Hr & Hrs). cbn [run_all].
    eapply owns_bind'; [apply owns_frame; by apply Hf|].
    intros [] γ' (γ3 & -> & H3). rewrite aplus_comm.
    eapply owns_conseq; [apply owns_frame; by apply IH|].
    intros [] γ' (γ4 & -> & H4). destruct γ3 as [[??]?], γ4 as [[??]?].
    accounts. simplify_eq. rewrite Hadd. f_equal; lia.
Qed.

Lemma owns_commit_all rs u γ :
  all_ok rs u γ → owns Inv (λ _ γ', γ'.1 = (0, u)%N) (commit_all rs) γ.
Proof. apply (owns_run_all Commit id); [done|done|]. by intros r v m []. Qed.

Lemma owns_rollback_all rs u γ :
  all_ok rs u γ → owns Inv (λ _ γ', γ'.1 = (0, 0)%N) (rollback_all rs) γ.
Proof.
  intros H%all_ok_reverse.
  apply (owns_run_all Rollback (λ _, 0%N)) with u; [done|done| |done]. by intros r v m [].
Qed.

(** What [acquire_limiter] leaves behind. *)
Definition acquired_ok (u : N) (got : res (option (reservation U))) γ : Prop :=
  match got with
  | Ok o => all_ok (option_list o) u γ
  | Err _ => γ.1 = (0, 0)%N
  end.

Lemma owns_admitted u (p : prog (limits U) (res (reservation U))) :
  admits b x0 u p →
  owns Inv (acquired_ok u) (r ←? p; mret (Ok (Some r))) azero.
Proof.
  intros Hp. eapply owns_rbind; [exact Hp| |done].
  intros r γ Hr. apply owns_ret. exists u, 0%N, γ, azero.
  by rewrite N.add_0_r, aplus_zero_r.
Qed.

Lemma owns_custom_Wait f c units γ :
  owns Inv (λ _ γ', γ' = γ) (custom_Wait f c units) γ.
Proof.
  apply owns_untouched; [|done]. intros w w' x Hin.
  by apply list_elem_of_fmap in Hin as ([u r] & [= -> ->] & _).
Qed.

Lemma owns_chain_reserve c units ls :
  Forall (λ l, owns Inv (acquired_ok (charges l units)) (acquire_limiter l c units) azero) ls →
  ∀ index rs u γ, all_ok rs u γ →
  owns Inv (acquired_ok (u + charges (LChain ls) units)) (chain_reserve c units index ls rs) γ.
Proof.
  induction 1 as [|l ls Hl Hls IH]; intros index rs u γ Hrs; cbn.
  - eapply owns_bind' with (λ r γ', resv_ok b x0 r u γ').
    + eapply owns_newReservation with (γc := γ) (γr := γ);
        [by intros ???|by apply owns_commit_all|by intros ???|by eapply owns_rollback_all].
    + intros r γ' Hr. apply owns_ret. exists u, 0%N, γ', azero.
      by rewrite aplus_zero_r.
  - rewrite <-(aplus_zero γ).
    eapply owns_bind'; [apply owns_frame, Hl|].
    intros got γ' (γ1 & -> & Hgot). destruct got as [o|e]; simpl in Hgot.
    + rewrite N.add_assoc.
      apply IH. apply all_ok_app. exists u, (charges l units), γ, γ1.
      by rewrite aplus_comm.
    + rewrite aplus_comm. eapply owns_bind'; [apply owns_frame; by eapply owns_rollback_all|].
      intros [] γ' (γ2 & -> & H2). apply owns_ret. simpl.
      destruct γ1 as [[??]?], γ2 as [[??]?]. accounts. by simplify_eq.
Qed.

(** Reserving through any limiter charges exactly [charges], provisionally,
    and refusing charges nothing. *)
Lemma acquire_limiter_ok c units l :
  owns Inv (acquired_ok (charges l units)) (acquire_limiter l c units) azero.
Proof.
  induction l as [p|p|f|ls IH] using limiter_ind.
  - apply owns_admitted, Budget_Reserve_admits.
  - apply owns_admitted, TokenBucket_Reserve_admits.
  - cbn [acquire_limiter]. eapply owns_rbind; [apply owns_custom_Wait| |by intros e γ ->].
    intros [] γ ->. by apply owns_ret.
  - rewrite acquire_chain. by apply (owns_chain_reserve _ _ _ IH 0 [] 0%N azero).
Qed.

Lemma Limiter_Wait_ok c units l : waits b x0 (charges l units) (Limiter_Wait l c units).
Proof.
  destruct l as [p|p|ls|f].
  - apply waits_of_admits, Budget_Reserve_admits.
  - apply waits_of_admits, TokenBucket_Reserve_admits.
  - unfold waits, Limiter_Wait. eapply owns_rbind; [apply acquire_limiter_ok| |done].
    intros o γ Ho. eapply owns_bind'; [by apply owns_commit_all|].
    intros [] γ' Hγ. by apply owns_ret.
  - eapply owns_conseq; [apply owns_custom_Wait|]. by intros [] γ ->.
Qed.
End charges.

(** ** Admission under every interleaving *)

Section interleaved.
Context {U : Type}.
Implicit Types (w : limits U) (b : nat) (x : budget).

(** A call of [Wait]: the limiter, the caller's context, the units. *)
Definition request : Type := Limiter U * ctx * Z.
Definition Wait_of (q : request) : prog (limits U) (res unit) :=
  Limiter_Wait q.1.1 q.1.2 q.2.

(** What happens around the calls: contexts are canceled, tickers fire,
    buckets close, budgets are created, the callers' own limiters change. *)
Definition ambient w w' : Prop :=
  lw_budgets w `prefix_of` lw_budgets w' ∧ lw_flags w' = lw_flags w.

Definition settled b (q : request) (r : res unit) : N :=
  if is_ok r then charges b q.1.1 q.2 else 0%N.
Definition settled_all b (qs : list request) (rs : list (res unit)) : Z :=
  Z.of_N (total (zip_with (settled b) qs rs)).

Lemma ambient_inv b x0 w w' (m : share) :
  budget_inv b x0 w m → ambient w w' → budget_inv b x0 w' m.
Proof.
  intros (Hfl & Hmax & x & Hx & Hrest) [Hb Hf].
  split; [by rewrite Hf|]. split; [done|]. exists x.
  split; [by eapply prefix_lookup_Some|done].
Qed.

Lemma budget_inv_open b x w :
  lw_budgets w !! b = Some x → 0 ≤ remaining x ≤ max64 → budget_inv b x w azero.
Proof.
  intros Hx Hr. split; [split|split; [lia|]].
  - intros id v Hin. accounts. multiset_solver.
  - intros id. accounts. rewrite !multiplicity_empty. lia.
  - exists x. accounts. split_and!; [done|done|lia|lia].
Qed.

Lemma total_settled {A B} (f : A → B → N) (qs : list A) (rs : list B) (γs : list share) :
  length γs = length rs → length qs = length rs →
  (∀ i q r γ, qs !! i = Some q → rs !! i = Some r → γs !! i = Some γ → γ.1 = (0%N, f q r)) →
  (total γs).1 = (0%N, total (zip_with f qs rs)).
Proof.
  revert rs γs. induction qs as [|q qs IH]; intros [|r rs] [|γ γs]; simpl; try done.
  intros Hl1 Hl2 H. simplify_eq.
  specialize (IH rs γs Hl1 Hl2 ltac:(intros i; apply (H (S i)))).
  specialize (H 0%nat q r γ eq_refl eq_refl eq_refl).
  destruct γ as [[??]?], (total γs) as [[??]?]. accounts. by simplify_eq.
Qed.

(** C11: Under every interleaving of any number of [Wait] calls on limiters
    composed in any way, with contexts canceled and buckets ticking at any
    moment, once all calls have returned a budget has lost exactly the units
    of the calls that succeeded, once per occurrence in their limiter: a
    refused or canceled call costs nothing, nothing is overdrawn, and the
    limit is unchanged. *)
Theorem Wait_exact b x w qs w' rs :
  lw_budgets w !! b = Some x → 0 ≤ remaining x ≤ max64 →
  length qs = length rs →
  rtc (pool_step ambient) (w, Wait_of <$> qs) (w', Ret <$> rs) →
  ∃ x', lw_budgets w' !! b = Some x' ∧ limit x' = limit x ∧ 0 ≤ remaining x' ∧
        remaining x' = remaining x - settled_all b qs rs.
Proof.
  intros Hx Hr Hlen Hsteps.
  assert (pool_ok (budget_inv b x) (λ i r γ, ∀ q, qs !! i = Some q →
            γ.1 = (0%N, settled b q r)) (w, Wait_of <$> qs) (replicate (length qs) azero)) as Hok.
  { split; [rewrite total_replicate; by apply budget_inv_open|].
    split; [simpl; by rewrite length_replicate, length_fmap|]. simpl.
    intros i p γ Hp Hγ. apply lookup_replicate in Hγ as [-> _].
    apply list_lookup_fmap_Some in Hp as (q & -> & Hq).
    eapply owns_conseq; [apply Limiter_Wait_ok|].
    intros r γ Hγ q' Hq'. by simplify_eq. }
  destruct (pool_adequate _ _ _ (ambient_inv b x) _ _ _ _ _ Hok Hsteps)
    as (γs & (_ & _ & x' & Hx' & Hlim & Hpos & Hsum) & Hlγ & HQ).
  exists x'. split_and!; [done..|]. unfold settled_all.
  rewrite (total_settled (settled b) qs rs γs) in Hsum by eauto. simpl in Hsum. lia.
Qed.

(** A [Wait] call that runs alone is transactional over every budget of its
    limiter: it either takes the units of each occurrence, or it fails and
    every budget has what it had before. *)
Theorem Wait_transactional l c units w w' r b x :
  (w', r) ∈ outcomes (Limiter_Wait l c units) w →
  lw_budgets w !! b = Some x → 0 ≤ remaining x ≤ max64 →
  lw_budgets w' !! b =
    Some (Budget (limit x) (remaining x - if is_ok r then Z.of_N (charges b l units) else 0)).
Proof.
  intros Hout Hx Hr.
  destruct (owns_outcomes _ _ _ azero azero w w' r (Limiter_Wait_ok b x c units l)
              ltac:(rewrite aplus_zero; by apply budget_inv_open) Hout)
    as (γ & (_ & _ & x' & Hx' & Hlim & Hpos & Hsum) & Hγ).
  rewrite Hx'. rewrite aplus_zero_r, Hγ in Hsum. destruct x' as [lim' rem']. simpl in *.
  f_equal. f_equal; [done|]. destruct (is_ok r); simpl in *; lia.
Qed.
End interleaved.

(** ** Limiters leave contexts alone *)

Section chain_calm.
Context {U : Type}.
Notation calm := (guarantees (same_ctxs (U := U))).

Lemma calm_custom_Wait f c units : calm (λ _, True) (custom_Wait f c units).
Proof.
  apply guarantees_await. intros w w' x Hin.
  by apply list_elem_of_fmap in Hin as ([u r] & [= -> ->] & _).
Qed.

Definition calm_got (r : res (option (reservation U))) : Prop :=
  match r with Ok o => Forall resv_calm (option_list o) | Err _ => True end.

Lemma calm_commit_all rs : Forall resv_calm rs → calm (λ _, True) (commit_all rs).
Proof.
  intros Hrs. apply calm_run_all. eapply Forall_impl; [exact Hrs|].
  intros r Hr. by apply (calm_settle r true).
Qed.

Lemma calm_rollback_all rs : Forall resv_calm rs → calm (λ _, True) (rollback_all rs).
Proof.
  intros Hrs. apply calm_run_all. eapply Forall_impl; [by apply Forall_reverse|].
  intros r Hr. by apply (calm_settle r false).
Qed.

Lemma calm_chain_reserve c units ls :
  Forall (λ l, calm calm_got (acquire_limiter l c units)) ls →
  ∀ index rs, Forall resv_calm rs → calm calm_got (chain_reserve c units index ls rs).
Proof.
  induction 1 as [|l ls Hl _ IH]; intros index rs Hrs; cbn [chain_reserve].
  - eapply guarantees_bind; [apply calm_newReservation;
      [by apply calm_commit_all|by apply calm_rollback_all]|].
    intros r Hr. apply guarantees_ret. by constructor.
  - eapply guarantees_bind; [exact Hl|]. intros [o|e] Hgot.
    + apply IH. by apply Forall_app.
    + eapply guarantees_bind; [by apply calm_rollback_all|done].
Qed.

Lemma calm_acquire_limiter c units l : calm calm_got (acquire_limiter l c units).
Proof.
  induction l as [p|p|f|ls IH] using limiter_ind.
  - eapply guarantees_rbind; [apply calm_Budget_Reserve|]. intros r Hr. by apply guarantees_ret, Forall_singleton.
  - eapply guarantees_rbind; [apply calm_TokenBucket_Reserve|]. intros r Hr. by apply guarantees_ret, Forall_singleton.
  - eapply guarantees_rbind with (R := λ _, True).
    + eapply guarantees_conseq; [apply calm_custom_Wait|]. by intros [].
    + intros [] _. apply guarantees_ret. by apply Forall_nil.
  - rewrite acquire_chain. by apply calm_chain_reserve.
Qed.

Lemma calm_Limiter_Wait l c units : calm (λ _, True) (Limiter_Wait l c units).
Proof.
  destruct l as [p|p|ls|f]; cbn [Limiter_Wait].
  - eapply guarantees_rbind; [apply calm_Budget_Reserve|]. intros r Hr.
    eapply guarantees_bind; [by apply (calm_settle r true)|done].
  - eapply guarantees_rbind; [apply calm_TokenBucket_Reserve|]. intros r Hr.
    eapply guarantees_bind; [by apply (calm_settle r true)|done].
  - eapply guarantees_rbind; [apply calm_acquire_limiter|]. intros o Ho.
    eapply guarantees_bind; [by apply calm_commit_all|done].
  - apply calm_custom_Wait.
Qed.
End chain_calm.

(** ** Concrete runs *)

(** A budget charged twice by one chain, behind a one-token bucket. *)
Definition twice_chain : Limiter unit :=
  Chain [Some (LBudget (Some 0%nat)); None; Some (LBucket (Some 0%nat)); Some (LBudget (Some 0%nat))].
Definition ten_and_bucket : limits unit :=
  Limits (Ctxs ∅ 1) [Budget 10 10] [Bucket 1 2 false false] [] tt.

(** Two calls: the first takes two units twice; the second, interleaved with
    it, asks for ten and is refused. *)
Definition two_requests : list request :=
  [(twice_chain, [0%nat], 1); (LBudget (Some 0%nat), [0%nat], 10)].
Definition interleaved_turns : list nat :=
  [0%nat; 0%nat; 1%nat; 1%nat] ++ replicate 15 0%nat.
Definition two_answers : list (res unit) := [Ok tt; Err (refusal 10 (Budget 10 9))].

Lemma Wait_exact_witness :
  ∃ w', rtc (pool_step ambient) (ten_and_bucket, Wait_of <$> two_requests) (w', Ret <$> two_answers) ∧
    lw_budgets w' !! 0%nat = Some (Budget 10 8) ∧ settled_all 0 two_requests two_answers = 2 ∧
    ∃ x', lw_budgets w' !! 0%nat = Some x' ∧ remaining x' = 10 - settled_all 0 two_requests two_answers.
Proof.
  destruct (replay_pool interleaved_turns (ten_and_bucket, Wait_of <$> two_requests))
    as [[w' ps]|] eqn:Hr; [|vm_compute in Hr; discriminate Hr].
  pose proof (replay_pool_steps ambient _ _ _ Hr) as Hsteps.
  assert (ps = Ret <$> two_answers) as -> by (vm_compute in Hr; injection Hr as _ <-; reflexivity).
  exists w'. split; [exact Hsteps|].
  split; [vm_compute in Hr; injection Hr as <-; reflexivity|]. split; [reflexivity|].
  destruct (Wait_exact 0 (Budget 10 10) ten_and_bucket two_requests w' two_answers)
    as (x' & Hx' & _ & _ & Hrem); [reflexivity|simpl; unfold max64; lia|reflexivity|exact Hsteps|].
  exists x'. split; [exact Hx'|exact Hrem].
Defined.

Lemma Wait_transactional_witness :
  ∃ w' r, (w', r) ∈ outcomes (Limiter_Wait twice_chain [0%nat] 3) ten_and_bucket ∧
    is_ok r = false ∧ lw_budgets w' !! 0%nat = Some (Budget 10 10).
Proof.
  destruct (outcomes (Limiter_Wait twice_chain [0%nat] 3) ten_and_bucket) as [|[w' r] l] eqn:Ho;
    [vm_compute in Ho; discriminate Ho|].
  assert ((w', r) ∈ outcomes (Limiter_Wait twice_chain [0%nat] 3) ten_and_bucket) as Hin
    by (rewrite Ho; left).
  assert (is_ok r = false) as Hr by (vm_compute in Ho; injection Ho as _ <- _; reflexivity).
  exists w', r. split; [rewrite <-Ho; exact Hin|]. split; [exact Hr|].
  rewrite (Wait_transactional twice_chain [0%nat] 3 ten_and_bucket w' r 0 (Budget 10 10) Hin);
    [rewrite Hr; reflexivity|reflexivity|simpl; unfold max64; lia].
Defined.
