(* ===== verification/ErrGroup.v ===== *)
(** * golang.org/x/sync/errgroup, as documented

    [Map] and the pipeline run their goroutines in an [errgroup.Group].  The
    package is not part of the repository, so a group is a parameter: a type
    with the operations the code uses and the documented laws.  "The first call
    to return a non-nil error cancels the group's context [...].  The error will
    be returned by Wait." *)

From S2P Require Import Prelude GoError Go Limits.

Class ErrGroup := {
  group : Type;
  (** [WithContext] *)
  new_group : group;
  (** A function passed to [Go] has returned this error, nil or not. *)
  report : option error → group → group;
  (** What [Wait] returns once every function has returned. *)
  group_err : group → option error;

  new_group_err : group_err new_group = None;
  report_nil g : group_err (report None g) = group_err g;
  report_first g e : group_err g = None → group_err (report (Some e) g) = Some e;
  report_later g e e' : group_err g = Some e' → group_err (report (Some e) g) = Some e';
}.

(** A group that keeps only the first error. *)
#[export] Program Instance first_error_group : ErrGroup | 10 := {|
  group := option error;
  new_group := None;
  report o g := match g with Some e => Some e | None => o end;
  group_err g := g;
|}.
Solve All Obligations with by intros; repeat match goal with g : option error |- _ => destruct g end; simplify_eq.

Section group_context.
Context {U W : Type} `{!Has (limits U) W} {EG : ErrGroup}.
Implicit Types w : W.

Definition ctxs_of w : ctxs := lw_ctxs (inside w).
Definition map_ctxs (f : ctxs → ctxs) w : W :=
  replace (set_ctxs (f (ctxs_of w)) (inside w)) w.

Lemma ctxs_of_map f w : ctxs_of (map_ctxs f w) = f (ctxs_of w).
Proof. unfold ctxs_of, map_ctxs. by rewrite inside_replace. Qed.

(** A function of the group with context [gctx] returns: the first error
    cancels the context. *)
Definition go_return (gctx : ctx) (o : option error) (w : W) (g : group) : W * group :=
  (match o, group_err g with
   | Some _, None => map_ctxs (cancel gctx (Sentinel Canceled)) w
   | _, _ => w
   end, report o g).

Lemma go_return_err gctx o w g :
  group_err (go_return gctx o w g).2 =
    match group_err g with Some e => Some e | None => o end.
Proof.
  simpl. destruct o as [e|]; [|rewrite report_nil; by destruct (group_err g)].
  destruct (group_err g) eqn:Hg; [by apply report_later|by apply report_first].
Qed.
End group_context.
