(* ===== verification/BoundedMap.v ===== *)
(** * Bounded parallel map: execution/map.go

    [Map] runs a feeder and a pool of workers joined by an unbuffered channel.
    The goroutines are the components of an [mstate]; [fire] performs one move
    of one of them, and a run is any sequence of moves, with moves of the
    surroundings in between.  What a worker does with one item is the program
    [job]: its cost check, the limiter and the caller's work function. *)

From S2P Require Import Prelude GoError Go Limits Budget Rate Chain ErrGroup.

Section definitions.
Context {U W : Type} `{!Has (limits U) W} {EG : ErrGroup} {T R : Type}.

(** [MapOptions]: nil functions and interfaces are [None]. *)
Record MapOptions := MkMapOptions {
  Workers : Z;
  opt_Limiter : option (Limiter U);
  Cost : option (T → Z);
}.

(** The result of a call with its error, if any, rewritten. *)
Definition annotate {A} (f : error → error) (p : prog W (res A)) : prog W (res A) :=
  r ← p; mret (match r with Ok a => Ok a | Err e => Err (f e) end).

Definition item_cost (options : MapOptions) (item : T) : Z :=
  match Cost options with Some f => f item | None => 1 end.

(** The body of the worker's loop, up to the store into [results]. *)
Definition job (options : MapOptions) (work : ctx → T → prog W (res R)) (gctx : ctx)
    (index : nat) (item : T) : prog W (res R) :=
  let cost := item_cost options item in
  if cost <? 1 then
    mret (Err (Errorf "item %d: resource cost must be positive" [ArgInt (Z.of_nat index)]))
  else
    _ ←? annotate (λ e, Errorf "item %d: wait for resources: %w" [ArgInt (Z.of_nat index); ArgWrap e])
           (match opt_Limiter options with
            | Some l => zoom (Limiter_Wait l gctx cost)
            | None => mret (Ok tt)
            end);
    annotate (λ e, Errorf "item %d: %w" [ArgInt (Z.of_nat index); ArgWrap e]) (work gctx item).

(** The feeder still holds the unsent items, or its function has returned, or
    the group has taken note of that. *)
Inductive feeder :=
| Feeding (q : list (nat * T))
| FeederEnd (o : option error)
| FeederGone.

Inductive worker :=
| Idle
| Busy (index : nat) (p : prog W (res R))
| WorkerEnd (o : option error)
| WorkerGone.

Record mstate := MState {
  m_world : W;
  m_group : group;
  m_feeder : feeder;
  m_workers : list worker;
  m_results : list R;
}.

(** The feeder closes [jobs] as it returns. *)
Definition jobs_closed (s : mstate) : bool :=
  match m_feeder s with Feeding _ => false | _ => true end.

Definition set_worker (i : nat) (k : worker) (s : mstate) : mstate :=
  MState (m_world s) (m_group s) (m_feeder s) (<[i:=k]> (m_workers s)) (m_results s).
Definition set_feeder (f : feeder) (s : mstate) : mstate :=
  MState (m_world s) (m_group s) f (m_workers s) (m_results s).
Definition set_world (w : W) (s : mstate) : mstate :=
  MState w (m_group s) (m_feeder s) (m_workers s) (m_results s).
Definition set_result (index : nat) (r : R) (s : mstate) : mstate :=
  MState (m_world s) (m_group s) (m_feeder s) (m_workers s) (<[index:=r]> (m_results s)).

Inductive choice :=
| Deliver (i : nat)       (* the feeder hands its next item to worker i *)
| StopFeeding             (* the feeder takes <-groupContext.Done() *)
| FeedAll                 (* the feeder's loop is over *)
| EndFeeder
| WorkerAct (i : nat)
| DrainWorker (i : nat)   (* worker i finds jobs closed *)
| EndWorker (i : nat).

Context (gctx : ctx) (body : nat → T → prog W (res R)).

(** The group takes note that a function returned. *)
Definition finish_go (o : option error) (s : mstate) : mstate :=
  let '(w, g) := go_return gctx o (m_world s) (m_group s) in
  MState w g (m_feeder s) (m_workers s) (m_results s).

(** The possible results of one move, [] when it is not enabled. *)
Definition fire (ch : choice) (s : mstate) : list mstate :=
  match ch with
  | Deliver i =>
      match m_feeder s, m_workers s !! i with
      | Feeding ((index, item) :: q), Some Idle =>
          [set_feeder (Feeding q) (set_worker i (Busy index (body index item)) s)]
      | _, _ => []
      end
  | StopFeeding =>
      match m_feeder s, ctx_err gctx (ctxs_of (m_world s)) with
      | Feeding (_ :: _), Some e => [set_feeder (FeederEnd (Some e)) s]
      | _, _ => []
      end
  | FeedAll =>
      match m_feeder s with Feeding [] => [set_feeder (FeederEnd None) s] | _ => [] end
  | EndFeeder =>
      match m_feeder s with FeederEnd o => [set_feeder FeederGone (finish_go o s)] | _ => [] end
  | WorkerAct i =>
      match m_workers s !! i with
      | Some (Busy index (Act act k)) =>
          (λ '(w, x), set_world w (set_worker i (Busy index (k x)) s)) <$> act (m_world s)
      | Some (Busy index (Ret (Ok r))) => [set_result index r (set_worker i Idle s)]
      | Some (Busy index (Ret (Err e))) => [set_worker i (WorkerEnd (Some e)) s]
      | _ => []
      end
  | DrainWorker i =>
      match m_workers s !! i with
      | Some Idle => if jobs_closed s then [set_worker i (WorkerEnd None) s] else []
      | _ => []
      end
  | EndWorker i =>
      match m_workers s !! i with
      | Some (WorkerEnd o) => [set_worker i WorkerGone (finish_go o s)]
      | _ => []
      end
  end.

Definition mmove (s s' : mstate) : Prop := ∃ ch, s' ∈ fire ch s.

(** A move of [Map] or of its surroundings. *)
Inductive mstep (Env : W → W → Prop) : mstate → mstate → Prop :=
| step_move s s' : mmove s s' → mstep Env s s'
| step_env s w : Env (m_world s) w → mstep Env s (set_world w s).

Definition mfinal (s : mstate) : Prop :=
  m_feeder s = FeederGone ∧ Forall (λ k, k = WorkerGone) (m_workers s).
End definitions.
Arguments MapOptions : clear implicits.
Arguments feeder : clear implicits.
Arguments worker : clear implicits.
Arguments mstate _ {_} _ _.
#[local] Arguments finish_go : simpl never.

Section Map.
Context {U W : Type} `{!Has (limits U) W} {EG : ErrGroup} {T R : Type} (zero : R).

(** One worker per item at most, one at least. *)
Definition worker_count (options : MapOptions U T) (items : list T) : nat :=
  let workers := if Workers options <? 1 then 1 else Workers options in
  Z.to_nat (if Z.of_nat (length items) <? workers then Z.of_nat (length items) else workers).

Definition indexed (items : list T) : list (nat * T) := imap pair items.

(** The state once all goroutines have been started. *)
Definition map_start (options : MapOptions U T) (items : list T) (w : W) : mstate W T R :=
  MState w new_group (Feeding (indexed items))
    (replicate (worker_count options items) Idle) (replicate (length items) zero).

Definition map_result (s : mstate W T R) : res (list R) :=
  match group_err (m_group s) with Some e => Err e | None => Ok (m_results s) end.

(** [Map_returns Env c items options work w w' r]: a call of [Map] in world
    [w] can return [r] in world [w']. *)
Inductive Map_returns (Env : W → W → Prop) (c : ctx) (items : list T)
    (options : MapOptions U T) (w : W) :
    option (ctx → T → prog W (res R)) → W → res (list R) → Prop :=
| Map_no_work : Map_returns Env c items options w None w (Err (New "work function is required"))
| Map_no_items work : items = [] → Map_returns Env c items options w (Some work) w (Ok [])
| Map_runs work t gctx s :
    items ≠ [] →
    WithCancel c (ctxs_of w) = (t, gctx) →
    rtc (mstep gctx (job options work gctx) Env)
      (map_start options items (map_ctxs (λ _, t) w)) s →
    mfinal s →
    Map_returns Env c items options w (Some work) (m_world s) (map_result s).
End Map.

(** ** Termination and progress *)

Section termination.
Context {U W : Type} `{!Has (limits U) W} {EG : ErrGroup} {T R : Type}.
Context (gctx : ctx) (body : nat → T → prog W (res R)).
Implicit Types s : mstate W T R.

Inductive worker_lt : worker W R → worker W R → Prop :=
| worker_lt_act index p p' : residual p' p → worker_lt (Busy index p') (Busy index p)
| worker_lt_idle index p : worker_lt Idle (Busy index p)
| worker_lt_fail index p o : worker_lt (WorkerEnd o) (Busy index p)
| worker_lt_drain o : worker_lt (WorkerEnd o) Idle
| worker_lt_end o : worker_lt WorkerGone (WorkerEnd o).

Lemma worker_lt_wf : well_founded worker_lt.
Proof.
  assert (Acc worker_lt WorkerGone) as Hgone by (constructor; intros ? H; inversion H).
  assert (∀ o, Acc worker_lt (WorkerEnd o)) as Hend by (constructor; intros ? H; by inversion H).
  assert (Acc worker_lt Idle) as Hidle by (constructor; intros ? H; inversion H; auto).
  intros [|index p|o|]; [done| |done|done].
  induction p as [p IH] using (well_founded_ind residual_wf).
  constructor. intros k H. inversion H; subst; auto.
Qed.

Definition feeder_rank (f : feeder T) : nat :=
  match f with Feeding q => 2 + length q | FeederEnd _ => 1 | FeederGone => 0 end.

Definition mstate_lt s' s : Prop :=
  (feeder_rank (m_feeder s') < feeder_rank (m_feeder s))%nat ∨
  feeder_rank (m_feeder s') = feeder_rank (m_feeder s) ∧
  list_lt worker_lt (m_workers s') (m_workers s).

Lemma mstate_lt_wf : well_founded mstate_lt.
Proof.
  assert (∀ n l s, feeder_rank (m_feeder s) = n → m_workers s = l → Acc mstate_lt s) as H;
    [|intros s; by eapply H].
  induction n as [n IHn] using lt_wf_ind. intros l.
  induction l as [l IHl] using (well_founded_ind (list_lt_wf _ worker_lt_wf)).
  intros s Hn Hl. constructor. intros s' [Hlt|[Heq Hlt]].
  - eapply IHn; [|done|done]. lia.
  - eapply IHl; [|by rewrite Heq|done]. by rewrite <-Hl.
Qed.

Lemma finish_go_fields o s :
  m_feeder (finish_go gctx o s) = m_feeder s ∧ m_workers (finish_go gctx o s) = m_workers s ∧
  m_results (finish_go gctx o s) = m_results s.
Proof. unfold finish_go. by destruct (go_return _ _ _ _). Qed.

Lemma fire_decreases ch s s' : s' ∈ fire gctx body ch s → mstate_lt s' s.
Proof.
  unfold mstate_lt. destruct ch as [i| | | |i|i|i]; simpl.
  - destruct (m_feeder s) as [[|[index item] q]| |]; try (by intros ?%elem_of_nil).
    destruct (m_workers s !! i) as [[]|]; try (by intros ?%elem_of_nil).
    intros ->%list_elem_of_singleton. simpl. lia.
  - destruct (m_feeder s) as [[|? q]| |]; try (by intros ?%elem_of_nil).
    destruct (ctx_err _ _); [|by intros ?%elem_of_nil]. intros ->%list_elem_of_singleton. simpl. lia.
  - destruct (m_feeder s) as [[|? q]| |]; try (by intros ?%elem_of_nil).
    intros ->%list_elem_of_singleton. simpl. lia.
  - destruct (m_feeder s) as [|o|]; try (by intros ?%elem_of_nil).
    intros ->%list_elem_of_singleton. simpl. lia.
  - destruct (m_workers s !! i) as [[|index [[r|e]|X act k]| |]|] eqn:Hi; try (by intros ?%elem_of_nil).
    + intros ->%list_elem_of_singleton. right. split; [done|].
      eapply list_lt_insert; [done|constructor].
    + intros ->%list_elem_of_singleton. right. split; [done|].
      eapply list_lt_insert; [done|constructor].
    + intros ([w x] & -> & _)%list_elem_of_fmap. right. split; [done|].
      eapply list_lt_insert; [done|constructor]. by exists x.
  - destruct (m_workers s !! i) as [[]|] eqn:Hi; try (by intros ?%elem_of_nil).
    destruct (jobs_closed s); [|by intros ?%elem_of_nil]. intros ->%list_elem_of_singleton. right.
    split; [done|]. eapply list_lt_insert; [done|constructor].
  - destruct (m_workers s !! i) as [[]|] eqn:Hi; try (by intros ?%elem_of_nil).
    intros ->%list_elem_of_singleton. right. unfold set_worker. cbn [m_feeder m_workers].
    destruct (finish_go_fields o s) as (-> & -> & _). split; [done|].
    eapply list_lt_insert; [done|constructor].
Qed.

(** C22: [Map]'s own moves always come to an end: there is no infinite sequence
    of moves of the feeder, the workers and the programs they run, for any
    work function whose every call is a finite program. *)
Theorem Map_terminates : well_founded (λ s' s, mmove gctx body s s').
Proof.
  intros s. induction (mstate_lt_wf s) as [s _ IH]. constructor.
  intros s' [ch Hin]. by eapply IH, fire_decreases.
Qed.
End termination.

(** ** The invariant of a run *)

Section invariant.
Context {U W : Type} `{!Has (limits U) W} {EG : ErrGroup} {T R : Type} `{Account M}.
Context (Env : W → W → Prop) (gid : nat) (c : ctx) (items : list T)
  (body : nat → T → prog W (res R)) (start : mstate W T R)
  (Inv : W → M → Prop) (Q : nat → T → res R → M → Prop).
Notation gctx := (gid :: c).
Notation step := (mstep gctx body Env).
Implicit Types (s : mstate W T R) (γ : M).

(** A busy worker whose next action is blocked. *)
Definition stuck (w : W) (k : worker W R) : Prop :=
  match k with Busy _ (Act act _) => act w = [] | _ => False end.

(** Nobody else cancels the group's own scope, and cancellation is permanent. *)
Definition private (w w' : W) : Prop :=
  canceled (ctxs_of w') !! gid = canceled (ctxs_of w) !! gid ∧
  ∀ id, is_Some (canceled (ctxs_of w) !! id) → is_Some (canceled (ctxs_of w') !! id).

(** A finished job: its index, result and final account. *)
Record done := Done { d_index : nat; d_res : res R; d_acct : M }.

(** The caller's context was done at some moment of the run. *)
Definition stopped (e : error) : Prop :=
  ∃ s, rtc step start s ∧ ctx_err c (ctxs_of (m_world s)) = Some e.

Definition failed (ds : list done) (e : error) : Prop := ∃ d, d ∈ ds ∧ d_res d = Err e.

Definition worker_ok (k : worker W R) γ : Prop :=
  match k with
  | Busy index p => ∃ item, items !! index = Some item ∧ owns Inv (Q index item) p γ ∧
                            guarantees private (λ _, True) p
  | _ => γ = azero
  end.

Definition done_ok (results : list R) (d : done) : Prop :=
  (∃ item, items !! d_index d = Some item ∧ Q (d_index d) item (d_res d) (d_acct d)) ∧
  ∀ r, d_res d = Ok r → results !! d_index d = Some r.

Definition queue_of (f : feeder T) : list (nat * T) := match f with Feeding q => q | _ => [] end.
Definition busy_index (k : worker W R) : list nat :=
  match k with Busy index _ => [index] | _ => [] end.
Definition busy (ks : list (worker W R)) : list nat := ks ≫= busy_index.

(** While the feeder has items to send, workers leave only after an error. *)
Definition worker_open (g : group) (k : worker W R) : Prop :=
  match k with
  | WorkerEnd None => False
  | WorkerGone => is_Some (group_err g)
  | _ => True
  end.

Record minv s (γs : list M) (ds : list done) (dropped : list nat) : Prop := {
  mi_reach : rtc step start s;
  mi_world : Inv (m_world s) (total γs ⊹ total (d_acct <$> ds));
  mi_len : length γs = length (m_workers s);
  mi_workers i k γ : m_workers s !! i = Some k → γs !! i = Some γ → worker_ok k γ;
  mi_done : Forall (done_ok (m_results s)) ds;
  mi_perm : (queue_of (m_feeder s)).*1 ++ dropped ++ busy (m_workers s) ++ (d_index <$> ds)
              ≡ₚ seq 0 (length items);
  mi_queue : Forall (λ p, items !! p.1 = Some p.2) (queue_of (m_feeder s));
  mi_results : length (m_results s) = length items;
  mi_scope : canceled (ctxs_of (m_world s)) !! gid = None ∨ is_Some (group_err (m_group s));
  mi_ctx : is_Some (group_err (m_group s)) → is_Some (ctx_err gctx (ctxs_of (m_world s)));
  mi_open : jobs_closed s = false → Forall (worker_open (m_group s)) (m_workers s);
  mi_failed : group_err (m_group s) = None →
    ∀ d e, d ∈ ds → d_res d = Err e → WorkerEnd (Some e) ∈ m_workers s;
  mi_dropped : group_err (m_group s) = None → dropped ≠ [] → ∃ e, m_feeder s = FeederEnd (Some e);
  mi_group_err e : group_err (m_group s) = Some e → failed ds e ∨ stopped e;
  mi_worker_err e : WorkerEnd (Some e) ∈ m_workers s → failed ds e;
  mi_feeder_err e : m_feeder s = FeederEnd (Some e) → is_Some (group_err (m_group s)) ∨ stopped e;
}.

Lemma busy_insert ks i k k' :
  ks !! i = Some k → busy (<[i:=k']> ks) ≡ₚ busy_index k' ++ busy (delete i ks).
Proof.
  revert i. induction ks as [|k0 ks IH]; intros [|i] Hi; [done|done|done|].
  change (busy (k0 :: <[i:=k']> ks) ≡ₚ busy_index k' ++ busy_index k0 ++ busy (delete i ks)).
  change (busy_index k0 ++ busy (<[i:=k']> ks) ≡ₚ busy_index k' ++ busy_index k0 ++ busy (delete i ks)).
  rewrite (IH i Hi), !app_assoc. by rewrite (Permutation_app_comm (busy_index k0)).
Qed.

Lemma busy_lookup ks i k : ks !! i = Some k → busy ks ≡ₚ busy_index k ++ busy (delete i ks).
Proof. intros Hi. by rewrite <-(busy_insert ks i k k Hi), list_insert_id. Qed.

Lemma workers_insert ks (γs : list M) i k γ k0 :
  ks !! i = Some k0 → length γs = length ks →
  (∀ j k γ, ks !! j = Some k → γs !! j = Some γ → worker_ok k γ) → worker_ok k γ →
  ∀ j k' γ', <[i:=k]> ks !! j = Some k' → <[i:=γ]> γs !! j = Some γ' → worker_ok k' γ'.
Proof.
  intros Hi Hlen Hok Hk j k' γ' Hk' Hγ'. pose proof (lookup_lt_Some _ _ _ Hi).
  destruct (decide (j = i)) as [->|Hne].
  - rewrite list_lookup_insert_eq in Hk' by done. rewrite list_lookup_insert_eq in Hγ' by lia.
    by simplify_eq.
  - rewrite list_lookup_insert_ne in Hk' by done. rewrite list_lookup_insert_ne in Hγ' by done.
    by eapply Hok.
Qed.

Lemma ctx_err_private w w' :
  private w w' → is_Some (ctx_err gctx (ctxs_of w)) → is_Some (ctx_err gctx (ctxs_of w')).
Proof.
  intros [_ Hmono]. unfold ctx_err. generalize gctx as l. induction l as [|id l IH]; [done|].
  simpl. intros Hs. destruct (canceled (ctxs_of w) !! id) eqn:Hid.
  - destruct (Hmono id ltac:(eauto)) as [e' He]. rewrite He. eauto.
  - destruct (canceled (ctxs_of w') !! id); eauto.
Qed.

Context (Hbody : ∀ index item, items !! index = Some item →
           owns Inv (Q index item) (body index item) azero ∧
           guarantees private (λ _, True) (body index item)).
Context (Henv : ∀ w w' m, Inv w m → Env w w' → Inv w' m ∧ private w w').
Context (Hcancel : ∀ w m, Inv w m → Inv (map_ctxs (cancel gctx (Sentinel Canceled)) w) m).

Lemma reach_move s ch s' : rtc step start s → s' ∈ fire gctx body ch s → rtc step start s'.
Proof. intros Hr Hin. eapply rtc_r; [done|]. constructor. by exists ch. Qed.

Lemma failed_mono ds ds' e : ds ⊆ ds' → failed ds e → failed ds' e.
Proof. intros Hsub (d & Hd & He). exists d. auto. Qed.

(** The group's view after a function returned. *)
Lemma finish_go_spec o s m :
  Inv (m_world s) m →
  (canceled (ctxs_of (m_world s)) !! gid = None ∨ is_Some (group_err (m_group s))) →
  (is_Some (group_err (m_group s)) → is_Some (ctx_err gctx (ctxs_of (m_world s)))) →
  let s' := finish_go gctx o s in
  Inv (m_world s') m ∧
  group_err (m_group s') = match group_err (m_group s) with Some e => Some e | None => o end ∧
  (canceled (ctxs_of (m_world s')) !! gid = None ∨ is_Some (group_err (m_group s'))) ∧
  (is_Some (group_err (m_group s')) → is_Some (ctx_err gctx (ctxs_of (m_world s')))).
Proof.
  intros Hinv Hscope Hctx. pose proof (go_return_err gctx o (m_world s) (m_group s)) as Hg.
  unfold finish_go. destruct (go_return gctx o (m_world s) (m_group s)) as [w' g'] eqn:Hret.
  simpl in *. rewrite Hg. unfold go_return in Hret. injection Hret as Hw _.
  destruct o as [e|], (group_err (m_group s)) as [e'|] eqn:Hgs; subst w'; split_and!; eauto.
  intros _. rewrite ctxs_of_map, ctx_err_cancel. eauto.
Qed.

Lemma elem_insert_ne (ks : list (worker W R)) i k0 k k' :
  ks !! i = Some k0 → k0 ≠ k → k ∈ ks → k ∈ <[i:=k']> ks.
Proof.
  intros Hi Hne [j Hj]%list_elem_of_lookup. apply list_elem_of_lookup. exists j.
  rewrite list_lookup_insert_ne; [done|congruence].
Qed.

Lemma elem_insert_inv (ks : list (worker W R)) i k k' : k ∈ <[i:=k']> ks → k = k' ∨ k ∈ ks.
Proof.
  intros [j Hj]%list_elem_of_lookup. apply list_lookup_insert_Some in Hj as [(_ & -> & _)|[_ Hj]].
  - by left.
  - right. by eapply list_elem_of_lookup_2.
Qed.

Lemma busy_idle ks i k k' :
  ks !! i = Some k → busy_index k = [] → busy_index k' = [] → busy (<[i:=k']> ks) ≡ₚ busy ks.
Proof. intros Hi Hk Hk'. by rewrite (busy_insert _ _ _ _ Hi), (busy_lookup _ _ _ Hi), Hk, Hk'. Qed.

Lemma account_of s γs ds dropped i k :
  minv s γs ds dropped → m_workers s !! i = Some k → ∃ γ, γs !! i = Some γ ∧ worker_ok k γ.
Proof.
  intros Hs Hi. assert (is_Some (γs !! i)) as [γ Hγ].
  { apply lookup_lt_is_Some. rewrite (mi_len _ _ _ _ Hs). by eapply lookup_lt_Some. }
  exists γ. split; [done|]. by eapply Hs.
Qed.

Lemma minv_deliver s γs ds dropped i index item q :
  minv s γs ds dropped → m_feeder s = Feeding ((index, item) :: q) → m_workers s !! i = Some Idle →
  minv (set_feeder (Feeding q) (set_worker i (Busy index (body index item)) s)) γs ds dropped.
Proof.
  intros Hs Hf Hi.
  pose proof (mi_len _ _ _ _ Hs) as Hlen.
  destruct (account_of _ _ _ _ _ _ Hs Hi) as (? & Hγ & ->).
  pose proof (mi_queue _ _ _ _ Hs) as Hq. rewrite Hf in Hq. simpl in Hq.
  apply Forall_cons in Hq as [Hitem Hq]. simpl in Hitem.
  assert (jobs_closed s = false) as Hop by (unfold jobs_closed; by rewrite Hf).
  split; simpl; try apply Hs.
  - eapply (reach_move _ (Deliver i)); [apply Hs|]. simpl. rewrite Hf, Hi. by left.
  - by rewrite length_insert.
  - rewrite <-(list_insert_id γs i azero) by done.
    eapply workers_insert; [done|done|apply Hs|]. destruct (Hbody index item Hitem). by exists item.
  - rewrite <-(mi_perm _ _ _ _ Hs), Hf. simpl. rewrite (busy_insert _ _ _ _ Hi), (busy_lookup _ _ _ Hi).
    simpl. solve_Permutation.
  - done.
  - intros _. apply Forall_insert; [by apply Hs|done].
  - intros Hg d e Hd He. eapply elem_insert_ne; [done|done|]. by eapply Hs.
  - intros Hg Hd. destruct (mi_dropped _ _ _ _ Hs Hg Hd) as [e He]. congruence.
  - intros e [?|Hin]%elem_insert_inv; [done|]. by eapply mi_worker_err.
  - done.
Qed.

(** Moves of the feeder other than sending. *)
Lemma minv_feeder s γs ds dropped q o :
  minv s γs ds dropped → m_feeder s = Feeding q → (o = None → q = []) →
  (∀ e, o = Some e → ctx_err gctx (ctxs_of (m_world s)) = Some e) →
  rtc step start (set_feeder (FeederEnd o) s) →
  minv (set_feeder (FeederEnd o) s) γs ds (q.*1 ++ dropped).
Proof.
  intros Hs Hf Ho Hctx Hreach. split; simpl; try apply Hs; try done.
  - rewrite <-(mi_perm _ _ _ _ Hs), Hf. simpl. by rewrite <-app_assoc.
  - intros Hg Hd. destruct o as [e|]; [by exists e|]. rewrite Ho in Hd by done.
    destruct (mi_dropped _ _ _ _ Hs Hg Hd) as [e He]. congruence.
  - intros e [= ->]. specialize (Hctx e eq_refl).
    destruct (mi_scope _ _ _ _ Hs) as [Hc|Hg]; [|by left]. right. exists s.
    split; [apply Hs|]. unfold ctx_err in *. simpl in Hctx. by rewrite Hc in Hctx.
Qed.

Lemma minv_end_feeder s γs ds dropped o :
  minv s γs ds dropped → m_feeder s = FeederEnd o →
  minv (set_feeder FeederGone (finish_go gctx o s)) γs ds dropped.
Proof.
  intros Hs Hf.
  destruct (finish_go_spec o s _ (mi_world _ _ _ _ Hs) (mi_scope _ _ _ _ Hs) (mi_ctx _ _ _ _ Hs))
    as (Hinv & Hg & Hscope & Hctx).
  destruct (finish_go_fields gctx o s) as (_ & Hks & Hres).
  split; cbn [set_feeder m_world m_group m_feeder m_workers m_results queue_of];
    rewrite ?Hks, ?Hres; try apply Hs; try done.
  - eapply (reach_move _ EndFeeder); [apply Hs|]. simpl. rewrite Hf. by left.
  - rewrite <-(mi_perm _ _ _ _ Hs), Hf. done.
  - rewrite Hg. destruct (group_err (m_group s)) eqn:Hgs; [done|]. intros _. by apply Hs.
  - rewrite Hg. destruct (group_err (m_group s)) eqn:Hgs; [done|]. intros -> Hd.
    destruct (mi_dropped _ _ _ _ Hs Hgs Hd) as [e He]. congruence.
  - intros e. rewrite Hg. destruct (group_err (m_group s)) eqn:Hgs.
    + intros [= ->]. by apply Hs.
    + intros ->. destruct (mi_feeder_err _ _ _ _ Hs e Hf) as [[? ?]|?]; [congruence|by right].
Qed.

Lemma minv_act s γs ds dropped i index X (act : W → list (W * X)) k w x :
  minv s γs ds dropped → m_workers s !! i = Some (Busy index (Act act k)) →
  (w, x) ∈ act (m_world s) →
  ∃ γs', minv (set_world w (set_worker i (Busy index (k x)) s)) γs' ds dropped.
Proof.
  intros Hs Hi Hin. pose proof (mi_len _ _ _ _ Hs) as Hlen.
  destruct (account_of _ _ _ _ _ _ Hs Hi) as (γ & Hγ & item & Hitem & Hown & Hguar).
  destruct (Hguar _ _ _ Hin) as [Hpriv Hguar'].
  pose proof (mi_world _ _ _ _ Hs) as Hw. rewrite (total_lookup _ _ _ Hγ), <-aplus_assoc in Hw.
  destruct (Hown _ _ Hw _ _ Hin) as (γ' & Hw' & Hown').
  exists (<[i:=γ']> γs). split; simpl; try apply Hs.
  - eapply (reach_move _ (WorkerAct i)); [apply Hs|]. simpl. rewrite Hi.
    apply list_elem_of_fmap. by exists (w, x).
  - by rewrite (total_insert _ _ _ _ Hγ), <-aplus_assoc.
  - by rewrite !length_insert.
  - eapply workers_insert; [done|done|apply Hs|]. by exists item.
  - rewrite <-(mi_perm _ _ _ _ Hs), (busy_insert _ _ _ _ Hi), (busy_lookup _ _ _ Hi). done.
  - destruct Hpriv as [-> _]. apply Hs.
  - intros Hg. eapply ctx_err_private; [done|]. by apply Hs.
  - intros Hop. apply Forall_insert; [by apply Hs|done].
  - intros Hg d e Hd He. eapply elem_insert_ne; [done|done|]. by eapply Hs.
  - intros e [?|Hin']%elem_insert_inv; [done|]. by eapply mi_worker_err.
Qed.

Lemma total_zero_insert (γs : list M) i γ :
  γs !! i = Some γ → total γs = total (<[i:=azero]> γs) ⊹ γ.
Proof.
  intros Hi. rewrite (total_lookup _ _ _ Hi), (total_insert _ _ _ _ Hi), aplus_zero.
  apply aplus_comm.
Qed.

(** A worker's job is over: its account moves to the finished jobs. *)
Lemma minv_finish s γs ds dropped i index r k :
  minv s γs ds dropped → m_workers s !! i = Some (Busy index (Ret r)) →
  (k = match r with Ok _ => Idle | Err e => WorkerEnd (Some e) end) →
  let results := match r with Ok v => <[index:=v]> (m_results s) | Err _ => m_results s end in
  let s' := MState (m_world s) (m_group s) (m_feeder s) (<[i:=k]> (m_workers s)) results in
  ∃ γs' γ, minv s' γs' (Done index r γ :: ds) dropped.
Proof.
  intros Hs Hi Hk results s'. pose proof (mi_len _ _ _ _ Hs) as Hlen.
  destruct (account_of _ _ _ _ _ _ Hs Hi) as (γ & Hγ & item & Hitem & Hown & _).
  change (Q index item r γ) in Hown.
  assert (busy_index k = [] ∧ worker_ok k azero) as [Hbk Hok] by (destruct r; subst k; done).
  assert (length results = length items) as Hlr.
  { rewrite <-(mi_results _ _ _ _ Hs). unfold results. destruct r; by rewrite ?length_insert. }
  assert (index ∉ d_index <$> ds) as Hfresh.
  { pose proof (NoDup_seq 0 (length items)) as Hnd.
    rewrite <-(mi_perm _ _ _ _ Hs), (busy_lookup _ _ _ Hi) in Hnd. simpl in Hnd.
    repeat (apply NoDup_app in Hnd as (_ & _ & Hnd)). apply NoDup_cons in Hnd as [Hnd _]. set_solver. }
  exists (<[i:=azero]> γs), γ. split; simpl; try apply Hs.
  - eapply (reach_move _ (WorkerAct i)); [apply Hs|]. simpl. rewrite Hi.
    unfold s', results. destruct r; subst k; by left.
  - pose proof (mi_world _ _ _ _ Hs) as Hw. rewrite (total_zero_insert _ _ _ Hγ) in Hw.
    by rewrite aplus_assoc.
  - by rewrite !length_insert.
  - by eapply workers_insert; [done|done|apply Hs|].
  - constructor.
    + split; [by exists item|]. simpl. intros v ->. unfold results. apply list_lookup_insert_eq.
      rewrite (mi_results _ _ _ _ Hs). by eapply lookup_lt_Some.
    + pose proof (mi_done _ _ _ _ Hs) as Hd. rewrite Forall_forall in *. intros d Hin.
      destruct (Hd d Hin) as [HQ Hres]. split; [done|]. intros v Hv. specialize (Hres v Hv).
      unfold results. destruct r; [|done]. rewrite list_lookup_insert_ne; [done|].
      intros ->. apply Hfresh, list_elem_of_fmap. by exists d.
  - rewrite <-(mi_perm _ _ _ _ Hs), (busy_insert _ _ _ _ Hi), (busy_lookup _ _ _ Hi), Hbk. simpl.
    solve_Permutation.
  - done.
  - intros Hop. apply Forall_insert; [by apply Hs|]. destruct r; by subst k.
  - intros Hg d e [->|Hd]%elem_of_cons; simpl; intros He.
    + subst r k. apply list_elem_of_lookup. exists i. apply list_lookup_insert_eq.
      by eapply lookup_lt_Some.
    + eapply elem_insert_ne; [done|done|]. by eapply Hs.
  - intros e He. destruct (mi_group_err _ _ _ _ Hs e He) as [?|?]; [left|by right].
    eapply failed_mono; [|done]. set_solver.
  - intros e [Heq|Hin]%elem_insert_inv.
    + exists (Done index r γ). split; [by left|]. destruct r; by simplify_eq.
    + eapply failed_mono; [|by eapply mi_worker_err]. set_solver.
Qed.

Lemma minv_drain s γs ds dropped i :
  minv s γs ds dropped → m_workers s !! i = Some Idle → jobs_closed s = true →
  minv (set_worker i (WorkerEnd None) s) γs ds dropped.
Proof.
  intros Hs Hi Hcl. pose proof (mi_len _ _ _ _ Hs) as Hlen.
  destruct (account_of _ _ _ _ _ _ Hs Hi) as (? & Hγ & ->).
  split; simpl; try apply Hs.
  - eapply (reach_move _ (DrainWorker i)); [apply Hs|]. simpl. rewrite Hi, Hcl. by left.
  - by rewrite length_insert.
  - rewrite <-(list_insert_id γs i azero) by done.
    by eapply workers_insert; [done|done|apply Hs|].
  - by rewrite (busy_idle _ _ Idle _ Hi), <-(mi_perm _ _ _ _ Hs).
  - intros Hop. unfold jobs_closed in *. simpl in Hop. congruence.
  - intros Hg d e Hd He. eapply elem_insert_ne; [done|done|]. by eapply Hs.
  - intros e [?|Hin]%elem_insert_inv; [done|]. by eapply mi_worker_err.
Qed.

Lemma minv_end_worker s γs ds dropped i o :
  minv s γs ds dropped → m_workers s !! i = Some (WorkerEnd o) →
  minv (set_worker i WorkerGone (finish_go gctx o s)) γs ds dropped.
Proof.
  intros Hs Hi. pose proof (mi_len _ _ _ _ Hs) as Hlen.
  destruct (account_of _ _ _ _ _ _ Hs Hi) as (? & Hγ & ->).
  destruct (finish_go_spec o s _ (mi_world _ _ _ _ Hs) (mi_scope _ _ _ _ Hs) (mi_ctx _ _ _ _ Hs))
    as (Hinv & Hg & Hscope & Hctx).
  destruct (finish_go_fields gctx o s) as (Hf & Hks & Hres).
  split; cbn [set_worker m_world m_group m_feeder m_workers m_results]; rewrite ?Hks, ?Hres, ?Hf;
    try apply Hs; try done.
  - eapply (reach_move _ (EndWorker i)); [apply Hs|]. simpl. rewrite Hi. by left.
  - by rewrite length_insert.
  - rewrite <-(list_insert_id γs i azero) by done.
    by eapply workers_insert; [done|done|apply Hs|].
  - by rewrite (busy_idle _ _ (WorkerEnd o) _ Hi), <-(mi_perm _ _ _ _ Hs).
  - intros Hop. assert (jobs_closed s = false) as Hop'.
    { unfold jobs_closed in *. cbn [set_worker m_feeder] in Hop. by rewrite Hf in Hop. }
    pose proof (mi_open _ _ _ _ Hs Hop') as Hall. apply Forall_insert.
    + eapply Forall_impl; [exact Hall|]. intros [|? ?|[]|]; cbn [worker_open]; try done.
      rewrite Hg. intros [e He]. rewrite He. eauto.
    + cbn [worker_open]. rewrite Hg. destruct (group_err (m_group s)); [eauto|].
      pose proof (Forall_lookup_1 _ _ _ _ Hall Hi) as Ho. destruct o; [eauto|done].
  - rewrite Hg. destruct (group_err (m_group s)) eqn:Hgs; [done|]. intros -> d e Hd He.
    eapply elem_insert_ne; [done| |by eapply Hs]. done.
  - rewrite Hg. destruct (group_err (m_group s)) eqn:Hgs; [done|]. intros -> Hd. by apply Hs.
  - intros e. rewrite Hg. destruct (group_err (m_group s)) eqn:Hgs.
    + intros [= ->]. by apply Hs.
    + intros ->. left. eapply (mi_worker_err _ _ _ _ Hs). by eapply list_elem_of_lookup_2.
  - intros e [?|Hin]%elem_insert_inv; [done|]. by eapply mi_worker_err.
  - intros e He. rewrite Hg. destruct (mi_feeder_err _ _ _ _ Hs e He) as [[e' ->]|?]; [eauto|by right].
Qed.

Lemma minv_env s γs ds dropped w :
  minv s γs ds dropped → Env (m_world s) w → minv (set_world w s) γs ds dropped.
Proof.
  intros Hs He. destruct (Henv _ _ _ (mi_world _ _ _ _ Hs) He) as [Hw Hpriv].
  split; simpl; try apply Hs; try done.
  - eapply rtc_r; [apply Hs|]. by apply step_env.
  - destruct Hpriv as [-> _]. apply Hs.
  - intros Hg. eapply ctx_err_private; [done|]. by apply Hs.
Qed.

Lemma minv_move s γs ds dropped ch s' :
  minv s γs ds dropped → s' ∈ fire gctx body ch s → ∃ γs' ds' dropped', minv s' γs' ds' dropped'.
Proof.
  intros Hs Hin. pose proof (reach_move _ _ _ (mi_reach _ _ _ _ Hs) Hin) as Hreach.
  destruct ch as [i| | | |i|i|i]; simpl in Hin.
  - destruct (m_feeder s) as [[|[index item] q]| |] eqn:Hf; try (by apply elem_of_nil in Hin).
    destruct (m_workers s !! i) as [[]|] eqn:Hi; try (by apply elem_of_nil in Hin).
    apply list_elem_of_singleton in Hin as ->. exists γs, ds, dropped. by apply minv_deliver.
  - destruct (m_feeder s) as [[|p q]| |] eqn:Hf; try (by apply elem_of_nil in Hin).
    destruct (ctx_err _ _) as [e|] eqn:He; [|by apply elem_of_nil in Hin].
    apply list_elem_of_singleton in Hin as ->. eexists γs, ds, _. eapply minv_feeder; try done.
    by intros ? [= <-].
  - destruct (m_feeder s) as [[|p q]| |] eqn:Hf; try (by apply elem_of_nil in Hin).
    apply list_elem_of_singleton in Hin as ->. eexists γs, ds, _. by eapply minv_feeder.
  - destruct (m_feeder s) as [|o|] eqn:Hf; try (by apply elem_of_nil in Hin).
    apply list_elem_of_singleton in Hin as ->. exists γs, ds, dropped. by apply minv_end_feeder.
  - destruct (m_workers s !! i) as [[|index [[r|e]|X act k]| |]|] eqn:Hi; try (by apply elem_of_nil in Hin).
    + apply list_elem_of_singleton in Hin as ->.
      destruct (minv_finish _ _ _ _ _ _ _ Idle Hs Hi eq_refl) as (γs' & γ & Hs'). eauto.
    + apply list_elem_of_singleton in Hin as ->.
      destruct (minv_finish _ _ _ _ _ _ _ (WorkerEnd (Some e)) Hs Hi eq_refl) as (γs' & γ & Hs'). eauto.
    + apply list_elem_of_fmap in Hin as ([w x] & -> & Hact).
      destruct (minv_act _ _ _ _ _ _ _ _ _ _ _ Hs Hi Hact) as [γs' Hs']. eauto.
  - destruct (m_workers s !! i) as [[]|] eqn:Hi; try (by apply elem_of_nil in Hin).
    destruct (jobs_closed s) eqn:Hcl; [|by apply elem_of_nil in Hin].
    apply list_elem_of_singleton in Hin as ->. exists γs, ds, dropped. by apply minv_drain.
  - destruct (m_workers s !! i) as [[]|] eqn:Hi; try (by apply elem_of_nil in Hin).
    apply list_elem_of_singleton in Hin as ->. exists γs, ds, dropped. by apply minv_end_worker.
Qed.

Lemma minv_steps s s' γs ds dropped :
  minv s γs ds dropped → rtc step s s' → ∃ γs' ds' dropped', minv s' γs' ds' dropped'.
Proof.
  intros Hs Hsteps. revert γs ds dropped Hs.
  induction Hsteps as [s|s s1 s' Hstep _ IH]; intros γs ds dropped Hs; [eauto|].
  destruct Hstep as [s s1 [ch Hin]|s w He].
  - destruct (minv_move _ _ _ _ _ _ Hs Hin) as (γs1 & ds1 & dropped1 & Hs1). eauto.
  - eapply IH. by apply minv_env.
Qed.

(** How a run starts. *)
Definition starts : Prop :=
  Inv (m_world start) azero ∧ group_err (m_group start) = None ∧
  m_feeder start = Feeding (indexed items) ∧ Forall (λ k, k = Idle) (m_workers start) ∧
  length (m_results start) = length items ∧ canceled (ctxs_of (m_world start)) !! gid = None.

Lemma busy_all_idle (ks : list (worker W R)) : Forall (λ k, busy_index k = []) ks → busy ks = [].
Proof.
  induction 1 as [|k ks Hk _ IH]; [done|].
  change (busy_index k ++ busy ks = []). by rewrite Hk, IH.
Qed.

Lemma indexed_fst : (indexed items).*1 = seq 0 (length items).
Proof.
  apply list_eq. intros i. unfold indexed. rewrite list_lookup_fmap, list_lookup_imap.
  destruct (items !! i) as [item|] eqn:Hi; simpl.
  - symmetry. apply lookup_seq. split; [done|]. by eapply lookup_lt_Some.
  - symmetry. apply lookup_seq_ge. by apply lookup_ge_None.
Qed.

Lemma minv_start : starts → minv start (replicate (length (m_workers start)) azero) [] [].
Proof.
  intros (Hw & Hg & Hf & Hks & Hres & Hscope).
  split; rewrite ?Hf, ?Hg; simpl; try done; eauto.
  - by rewrite total_replicate, aplus_zero.
  - apply length_replicate.
  - intros i k γ Hk Hγ. apply lookup_replicate in Hγ as [-> _].
    pose proof (Forall_lookup_1 _ _ _ _ Hks Hk) as Hidle. simpl in Hidle. by subst k.
  - rewrite busy_all_idle by (eapply Forall_impl; [exact Hks|by intros ? ->]).
    by rewrite app_nil_r, indexed_fst.
  - apply Forall_forall. intros [index item] Hin. apply elem_of_lookup_imap in Hin as (i & x & [= -> ->] & Hi).
    done.
  - intros _. eapply Forall_impl; [exact Hks|]. by intros ? ->.
  - intros _ d e Hd. by apply elem_of_nil in Hd.
  - intros e Hin. rewrite Forall_forall in Hks. by apply Hks in Hin.
Qed.

(** What a finished run has done. *)
Lemma run_result s :
  starts → rtc step start s → mfinal s →
  ∃ ds, Inv (m_world s) (total (d_acct <$> ds)) ∧
    NoDup (d_index <$> ds) ∧
    Forall (λ d, ∃ item, items !! d_index d = Some item ∧ Q (d_index d) item (d_res d) (d_acct d)) ds ∧
    match map_result s with
    | Ok rs => length rs = length items ∧ d_index <$> ds ≡ₚ seq 0 (length items) ∧
               Forall (λ d, ∃ r, d_res d = Ok r ∧ rs !! d_index d = Some r) ds
    | Err e => failed ds e ∨ stopped e
    end.
Proof.
  intros Hst Hsteps [Hf Hks].
  destruct (minv_steps _ _ _ _ _ (minv_start Hst) Hsteps) as (γs & ds & dropped & Hs).
  pose proof (mi_len _ _ _ _ Hs) as Hlen. pose proof (mi_perm _ _ _ _ Hs) as Hperm.
  rewrite Hf, busy_all_idle in Hperm by (eapply Forall_impl; [exact Hks|by intros ? ->]).
  simpl in Hperm. pose proof (NoDup_seq 0 (length items)) as Hnd. rewrite <-Hperm in Hnd.
  apply NoDup_app in Hnd as (_ & _ & Hnd). pose proof (mi_done _ _ _ _ Hs) as Hdone.
  rewrite Forall_forall in Hdone.
  assert (total γs = azero) as Hz.
  { rewrite <-(total_replicate (length γs)). f_equal. symmetry. apply replicate_as_Forall. split; [done|].
    apply Forall_lookup. intros i γ Hγ.
    assert (is_Some (m_workers s !! i)) as [k Hk].
    { apply lookup_lt_is_Some. rewrite <-Hlen. by eapply lookup_lt_Some. }
    pose proof (mi_workers _ _ _ _ Hs i k γ Hk Hγ) as Hok.
    pose proof (Forall_lookup_1 _ _ _ _ Hks Hk) as Hgone. simpl in Hgone. by subst k. }
  exists ds. split_and!; [|done| |].
  - pose proof (mi_world _ _ _ _ Hs) as Hw. by rewrite Hz, aplus_zero in Hw.
  - apply Forall_forall. intros d Hd. by apply Hdone.
  - unfold map_result. destruct (group_err (m_group s)) as [e|] eqn:Hg.
    + by apply Hs.
    + assert (dropped = []) as ->.
      { destruct dropped as [|x l]; [done|].
        destruct (mi_dropped _ _ _ _ Hs Hg ltac:(done)) as [e He]. congruence. }
      split_and!; [apply Hs|done|]. apply Forall_forall. intros d Hd.
      destruct (Hdone d Hd) as [_ Hres]. destruct (d_res d) as [r|e] eqn:Hr; [eauto|].
      pose proof (mi_failed _ _ _ _ Hs Hg d e Hd Hr) as Hin.
      rewrite Forall_forall in Hks. by apply Hks in Hin.
Qed.

Lemma fire_workers ch s s' :
  s' ∈ fire gctx body ch s → length (m_workers s') = length (m_workers s).
Proof.
  intros Hin. destruct ch as [i| | | |i|i|i]; simpl in Hin; repeat case_match;
    try (by apply elem_of_nil in Hin);
    try (apply list_elem_of_singleton in Hin as ->; cbn [set_worker set_feeder set_result m_workers];
         by rewrite ?length_insert, ?(proj1 (proj2 (finish_go_fields _ _ _)))).
  apply list_elem_of_fmap in Hin as ([w1 x1] & -> & _). simpl. apply length_insert.
Qed.

Lemma run_workers s : rtc step start s → length (m_workers s) = length (m_workers start).
Proof.
  revert s. apply rtc_ind_r; [done|]. intros s s' _ Hstep IH.
  destruct Hstep as [s s' [ch Hin]|s w _]; [by rewrite (fire_workers _ _ _ Hin)|done].
Qed.

Definition active (k : worker W R) : bool :=
  match k with Idle | WorkerGone => false | _ => true end.
Definition idle (k : worker W R) : bool := match k with Idle => true | _ => false end.

(** A run that is not over can move, unless a worker is blocked. *)
Lemma run_progress s :
  starts → m_workers start ≠ [] → rtc step start s → ¬ mfinal s →
  Forall (λ k, ¬ stuck (m_world s) k) (m_workers s) → ∃ s', mmove gctx body s s'.
Proof.
  intros Hst Hne Hsteps Hnf Hstuck.
  destruct (minv_steps _ _ _ _ _ (minv_start Hst) Hsteps) as (γs & ds & dropped & Hs).
  pose proof (run_workers s Hsteps) as Hlen. rewrite Forall_lookup in Hstuck.
  destruct (decide (Exists (λ k, active k = true) (m_workers s)))
    as [(k & Hk & Hact)%Exists_exists|Hno].
  { apply list_elem_of_lookup_1 in Hk as [i Hi]. specialize (Hstuck i k Hi).
    destruct k as [|index p|o|]; [done| | |done].
    - destruct p as [[r|e]|X act k]; simpl in Hstuck.
      + eexists. exists (WorkerAct i). simpl. rewrite Hi. by left.
      + eexists. exists (WorkerAct i). simpl. rewrite Hi. by left.
      + destruct (act (m_world s)) as [|[w x] l] eqn:Hacts; [done|].
        eexists. exists (WorkerAct i). simpl. rewrite Hi, Hacts. by left.
    - eexists. exists (EndWorker i). simpl. rewrite Hi. by left. }
  assert (∀ k, k ∈ m_workers s → k = Idle ∨ k = WorkerGone) as Hcases.
  { intros k Hk. destruct k; auto; exfalso; apply Hno, Exists_exists; eexists; by split. }
  destruct (decide (Exists (λ k, idle k = true) (m_workers s)))
    as [(k & Hk & Hidle)%Exists_exists|Hni].
  - destruct k; try done. apply list_elem_of_lookup_1 in Hk as [i Hi].
    destruct (m_feeder s) as [[|[index item] q]|o|] eqn:Hf.
    + eexists. exists FeedAll. simpl. rewrite Hf. by left.
    + eexists. exists (Deliver i). simpl. rewrite Hf, Hi. by left.
    + eexists. exists EndFeeder. simpl. rewrite Hf. by left.
    + eexists. exists (DrainWorker i). simpl. rewrite Hi. unfold jobs_closed. rewrite Hf. by left.
  - assert (Forall (λ k, k = WorkerGone) (m_workers s)) as Hgone.
    { apply Forall_forall. intros k Hk. destruct (Hcases k Hk) as [->|]; [|done].
      exfalso. apply Hni, Exists_exists. by exists Idle. }
    destruct (m_feeder s) as [[|[index item] q]|o|] eqn:Hf.
    + eexists. exists FeedAll. simpl. rewrite Hf. by left.
    + assert (is_Some (ctx_err gctx (ctxs_of (m_world s)))) as [e He].
      { apply (mi_ctx _ _ _ _ Hs).
        pose proof (mi_open _ _ _ _ Hs ltac:(unfold jobs_closed; by rewrite Hf)) as Hopen.
        destruct (m_workers s) as [|k ks]; [by destruct (m_workers start)|].
        apply Forall_cons in Hopen as [Hk _]. apply Forall_cons in Hgone as [-> _]. done. }
      eexists. exists StopFeeding. simpl. rewrite Hf. simpl in He. rewrite He. by left.
    + eexists. exists EndFeeder. simpl. rewrite Hf. by left.
    + exfalso. by apply Hnf.
Qed.
End invariant.

(** ** What [Map] promises *)

Section promises.
Context {U W : Type} `{!Has (limits U) W} {EG : ErrGroup} {T R : Type} (zero : R) `{Account M}.
Context (Env : W → W → Prop) (Inv : W → M → Prop) (Q : nat → T → res R → M → Prop).
Implicit Types (items : list T) (options : MapOptions U T) (c : ctx).

(** The client's part of the contract: each job keeps the invariant and ends
    in an account described by [Q]; the surroundings keep it too; contexts do
    not matter to it; and nobody else cancels the group's context [gid]. *)
Record map_client (gid : nat) (c : ctx) items options (work : ctx → T → prog W (res R)) : Prop := {
  client_job index item : items !! index = Some item →
    owns Inv (Q index item) (job options work (gid :: c) index item) azero ∧
    guarantees (private gid) (λ _, True) (job options work (gid :: c) index item);
  client_env w w' m : Inv w m → Env w w' → Inv w' m ∧ private gid w w';
  client_ctxs f w m : Inv w m → Inv (map_ctxs f w) m;
}.

Lemma map_start_starts options items c t gid w :
  WithCancel c (ctxs_of w) = (t, gid :: c) → ctxs_ok (ctxs_of w) →
  (∀ f w m, Inv w m → Inv (map_ctxs f w) m) → Inv w azero →
  starts gid items (map_start zero options items (map_ctxs (λ _, t) w)) Inv.
Proof.
  unfold WithCancel. intros [= <- <-] Hok Hctxs Hinv. split_and!; simpl; try done.
  - by apply Hctxs.
  - apply new_group_err.
  - apply Forall_replicate. done.
  - apply length_replicate.
  - rewrite ctxs_of_map. simpl. by apply Hok.
Qed.

Lemma map_start_workers options items (w : W) :
  items ≠ [] → m_workers (map_start zero options items w) ≠ [].
Proof.
  intros Hne. simpl. unfold worker_count.
  destruct (Z.to_nat _) eqn:Hn; [|done]. destruct items; [done|]. simpl length in Hn.
  repeat case_match; lia.
Qed.

(** Every return of [Map], accounted for. *)
Lemma Map_returns_spec c items options work w w' r :
  map_client (scopes (ctxs_of w)) c items options work →
  ctxs_ok (ctxs_of w) → Inv w azero →
  Map_returns zero Env c items options w (Some work) w' r →
  ∃ ds : list (done (R := R) (M := M)),
    Inv w' (total (d_acct <$> ds)) ∧ NoDup (d_index <$> ds) ∧
    Forall (λ d, ∃ item, items !! d_index d = Some item ∧
                         Q (d_index d) item (d_res d) (d_acct d)) ds ∧
    match r with
    | Ok rs => length rs = length items ∧ d_index <$> ds ≡ₚ seq 0 (length items) ∧
               Forall (λ d, ∃ v, d_res d = Ok v ∧ rs !! d_index d = Some v) ds
    | Err e => (∃ d, d ∈ ds ∧ d_res d = Err e) ∨
               ∃ s gctx, rtc (mstep gctx (job options work gctx) Env)
                      (map_start zero options items (map_ctxs (λ _, (WithCancel c (ctxs_of w)).1) w)) s ∧
                    ctx_err c (ctxs_of (m_world s)) = Some e
    end.
Proof.
  intros Hcl Hok Hinv Hret.
  inversion Hret as [|work' Hnil|work' t gctx s Hne Hwc Hsteps Hfin]; subst.
  - exists []. split_and!; simpl; try done; by constructor.
  - pose proof Hwc as Hwc'. unfold WithCancel in Hwc'. injection Hwc' as Ht Hgctx. subst gctx.
    destruct (run_result Env (scopes (ctxs_of w)) c items (job options work (scopes (ctxs_of w) :: c))
                (map_start zero options items (map_ctxs (λ _, t) w)) Inv Q) with (s := s)
      as (ds & Hw & Hnd & Hall & Hres); try done.
    + apply Hcl.
    + apply Hcl.
    + intros w0 m. apply Hcl.
    + eapply map_start_starts; try done. apply Hcl.
    + exists ds. split_and!; try done. destruct (map_result s); [done|].
      destruct Hres as [?|(s0 & Hs0 & He)]; [by left|right]. exists s0, (scopes (ctxs_of w) :: c).
      by rewrite Hwc.
Qed.

(** C1: [Map]'s contract, under every scheduling of the feeder and the workers
    and whatever the surroundings do in between.  If it returns results, there
    is one per item, in input order, each the outcome of exactly one job for
    that item, and the invariant holds of the sum of what all jobs left.  If it
    returns an error, that error came from one of the jobs that were run, or
    is the error of the caller's own context; no item was run twice. *)
Theorem Map_contract c items options work w w' r :
  map_client (scopes (ctxs_of w)) c items options work →
  ctxs_ok (ctxs_of w) → Inv w azero →
  Map_returns zero Env c items options w (Some work) w' r →
  ∃ ds : list (done (R := R) (M := M)),
    Inv w' (total (d_acct <$> ds)) ∧ NoDup (d_index <$> ds) ∧
    Forall (λ d, ∃ item, items !! d_index d = Some item ∧
                         Q (d_index d) item (d_res d) (d_acct d)) ds ∧
    match r with
    | Ok rs => length rs = length items ∧ d_index <$> ds ≡ₚ seq 0 (length items) ∧
               Forall (λ d, ∃ v, d_res d = Ok v ∧ rs !! d_index d = Some v) ds
    | Err e => (∃ d, d ∈ ds ∧ d_res d = Err e) ∨
               ∃ s gctx, rtc (mstep gctx (job options work gctx) Env)
                      (map_start zero options items (map_ctxs (λ _, (WithCancel c (ctxs_of w)).1) w)) s ∧
                    ctx_err c (ctxs_of (m_world s)) = Some e
    end.
Proof. apply Map_returns_spec. Qed.

(** C29: [Map] cannot deadlock by itself: at every moment of a run of a
    non-empty item list, unless the run is over or some worker is blocked
    inside the limiter or the caller's work function, some goroutine can move. *)
Theorem Map_progress c items options work w t s :
  map_client (scopes (ctxs_of w)) c items options work →
  ctxs_ok (ctxs_of w) → Inv w azero → items ≠ [] →
  let gctx := scopes (ctxs_of w) :: c in
  WithCancel c (ctxs_of w) = (t, gctx) →
  rtc (mstep gctx (job options work gctx) Env)
    (map_start zero options items (map_ctxs (λ _, t) w)) s →
  ¬ mfinal s → Forall (λ k, ¬ stuck (m_world s) k) (m_workers s) →
  ∃ s', mmove gctx (job options work gctx) s s'.
Proof.
  intros Hcl Hok Hinv Hne gctx Hwc Hsteps.
  eapply (run_progress Env (scopes (ctxs_of w)) c items (job options work gctx) _ Inv Q); try done.
  - apply Hcl.
  - apply Hcl.
  - intros w0 m. apply Hcl.
  - eapply map_start_starts; try done. apply Hcl.
  - by apply map_start_workers.
Qed.
End promises.

(** ** Jobs *)

Section jobs.
Context {U W : Type} `{!Has (limits U) W} {EG : ErrGroup} {T R : Type}.
Implicit Types (options : MapOptions U T) (work : ctx → T → prog W (res R)).

Definition cost_error (index : nat) : error :=
  Errorf "item %d: resource cost must be positive" [ArgInt (Z.of_nat index)].
Definition wait_error (index : nat) (e : error) : error :=
  Errorf "item %d: wait for resources: %w" [ArgInt (Z.of_nat index); ArgWrap e].
Definition item_error (index : nat) (e : error) : error :=
  Errorf "item %d: %w" [ArgInt (Z.of_nat index); ArgWrap e].

Lemma guarantees_annotate {A} (G : W → W → Prop) (f : error → error) (p : prog W (res A)) :
  guarantees G (λ _, True) p → guarantees G (λ _, True) (annotate f p).
Proof. intros Hp. eapply guarantees_bind; [exact Hp|]. intros a _. by apply guarantees_ret. Qed.

Lemma same_ctxs_private gid (w : W) (l : limits U) :
  same_ctxs (inside w) l → private gid w (replace l w).
Proof.
  intros Hl. unfold private, ctxs_of. rewrite inside_replace. by rewrite Hl.
Qed.

(** A job leaves the group's context alone when the work function does. *)
Lemma job_private gid options work gctx index item :
  guarantees (private gid) (λ _, True) (work gctx item) →
  guarantees (private gid) (λ _, True) (job options work gctx index item).
Proof.
  intros Hw. unfold job. destruct (_ <? 1); [done|].
  eapply guarantees_rbind with (R := λ _, True); [|intros _ _; by apply guarantees_annotate].
  eapply guarantees_conseq; [apply guarantees_annotate|by intros []].
  destruct (opt_Limiter options) as [l|]; [|done].
  eapply guarantees_zoom; [apply same_ctxs_private|apply calm_Limiter_Wait].
Qed.

(** Properties of the world that every move keeps, and the surroundings as well. *)
Section keeps.
Context (P : W → Prop) (gctx : ctx) (body : nat → T → prog W (res R)).
Notation keeping p := (guarantees (λ w w' : W, P w → P w') (λ _, True) p).
Context (Hctxs : ∀ f w, P w → P (map_ctxs f w)) (Hbody : ∀ index item, keeping (body index item)).

Definition keeps_world (s : mstate W T R) : Prop :=
  P (m_world s) ∧ ∀ i index p, m_workers s !! i = Some (Busy index p) → keeping p.

Lemma keeps_finish_go o s : keeps_world s → keeps_world (finish_go gctx o s).
Proof.
  intros [Hw Hk]. unfold finish_go, go_return. split; [|exact Hk]. simpl. destruct o, (group_err (m_group s)); auto.
Qed.

Lemma keeps_set_worker i k s :
  (∀ index p, k = Busy index p → keeping p) → keeps_world s → keeps_world (set_worker i k s).
Proof.
  intros Hk [Hw Hks]. split; [done|]. intros j index p [(-> & -> & _)|[_ Hj]]%list_lookup_insert_Some; [by eapply Hk|by eapply Hks].
Qed.

Lemma keeps_fire ch s s' : keeps_world s → s' ∈ fire gctx body ch s → keeps_world s'.
Proof.
  intros Hs Hin. destruct ch as [i| | | |i|i|i]; simpl in Hin.
  - destruct (m_feeder s) as [[|[index item] q]| |]; try by apply elem_of_nil in Hin.
    destruct (m_workers s !! i) as [[]|]; try by apply elem_of_nil in Hin. apply list_elem_of_singleton in Hin as ->.
    apply (keeps_set_worker i (Busy index (body index item)) s); [|done]. intros ? p [= _ <-]. apply Hbody.
  - repeat case_match; first [by apply elem_of_nil in Hin|by apply list_elem_of_singleton in Hin as ->].
  - repeat case_match; first [by apply elem_of_nil in Hin|by apply list_elem_of_singleton in Hin as ->].
  - repeat case_match; first [by apply elem_of_nil in Hin|apply list_elem_of_singleton in Hin as ->; by apply (keeps_finish_go _ s)].
  - destruct (m_workers s !! i) as [[|index [[r|e]|X act k]|o|]|] eqn:Hi; try by apply elem_of_nil in Hin.
    + apply list_elem_of_singleton in Hin as ->. by apply (keeps_set_worker i Idle s).
    + apply list_elem_of_singleton in Hin as ->. by apply keeps_set_worker.
    + apply list_elem_of_fmap in Hin as ([w x] & -> & Hin). destruct (proj2 Hs i index _ Hi _ _ _ Hin) as [HP Hk].
      split; [by apply HP, Hs|]. eapply (keeps_set_worker i (Busy index (k x)) s); [|done]. intros ? p [= _ <-]. exact Hk.
  - repeat case_match; first [by apply elem_of_nil in Hin|apply list_elem_of_singleton in Hin as ->; by apply keeps_set_worker].
  - repeat case_match; first [by apply elem_of_nil in Hin|apply list_elem_of_singleton in Hin as ->].
    by apply keeps_set_worker, (keeps_finish_go _ s).
Qed.

Lemma keeps_steps (Env : W → W → Prop) s s' :
  (∀ w w', Env w w' → P w → P w') → rtc (mstep gctx body Env) s s' → keeps_world s → keeps_world s'.
Proof.
  intros HEnv. induction 1 as [|s s1 s' Hstep _ IH]; [done|]. intros Hs. apply IH.
  destruct Hstep as [s s1 [ch Hch]|s w Hw]; [by eapply keeps_fire|]. destruct Hs as [HP Hk]. split; [by eapply HEnv|exact Hk].
Qed.
End keeps.

Lemma Map_keeps (zero : R) (P : W → Prop) (Env : W → W → Prop) (c : ctx) (items : list T) options work w w' r :
  (∀ w w', Env w w' → P w → P w') → (∀ f w, P w → P (map_ctxs f w)) →
  (∀ gctx index item, guarantees (λ w w', P w → P w') (λ _, True) (job options work gctx index item)) →
  P w → Map_returns zero Env c items options w (Some work) w' r → P w'.
Proof.
  intros HEnv Hctxs Hjob HP Hret. inversion Hret as [|work' Hnil|work' t gctx s Hne Hwc Hsteps Hfin]; subst; [done|].
  eapply (keeps_steps P gctx (job options work gctx) Hctxs (Hjob gctx) Env); [done|exact Hsteps|]. split; [by apply Hctxs|].
  simpl. intros i index p Hi. apply lookup_replicate in Hi as [[=] _].
Qed.

Context `{Account M} (Inv : W → M → Prop).

Lemma owns_annotate {A} (Q : res A → M → Prop) f (p : prog W (res A)) γ :
  owns Inv (λ r m, Q (match r with Ok a => Ok a | Err e => Err (f e) end) m) p γ →
  owns Inv Q (annotate f p) γ.
Proof. intros Hp. eapply owns_bind'; [exact Hp|]. intros r m HQ. by apply owns_ret. Qed.
End jobs.

(** ** Pure work *)

Section pure.
Context {U W : Type} `{!Has (limits U) W} {EG : ErrGroup} {T R : Type} (zero : R).
Context (Env : W → W → Prop) (f : T → res R).

(** A work function without effects. *)
Definition pure_work (gctx : ctx) (item : T) : prog W (res R) := mret (f item).

Definition plain (workers : Z) : MapOptions U T := MkMapOptions workers None None.

(** C30: With a work function that computes [f] and no limiter, [Map] is the
    list map in the error monad: whatever the number of workers and the
    scheduling, results are those of [f] in input order; an error is [f]'s
    error for some item, annotated with that item's index, or the error of the
    caller's context.  When [f] succeeds on every item and the caller's context
    is never done the results are returned. *)
Theorem Map_pure c items workers w w' r :
  ctxs_ok (ctxs_of w) → (∀ w1 w2, Env w1 w2 → private (scopes (ctxs_of w)) w1 w2) →
  Map_returns zero Env c items (plain workers) w (Some pure_work) w' r →
  match r with
  | Ok rs => Ok <$> rs = f <$> items
  | Err e =>
      (∃ index item e', items !! index = Some item ∧ f item = Err e' ∧ e = item_error index e') ∨
      ∃ s gctx, rtc (mstep gctx (job (plain workers) pure_work gctx) Env)
             (map_start zero (plain workers) items (map_ctxs (λ _, (WithCancel c (ctxs_of w)).1) w)) s ∧
           ctx_err c (ctxs_of (m_world s)) = Some e
  end.
Proof.
  intros Hok Henv Hret.
  pose (Q := λ (index : nat) (item : T) (r : res R) (m : unit),
    r = match f item with Ok v => Ok v | Err e => Err (item_error index e) end).
  destruct (Map_returns_spec zero Env (λ _ _, True) Q c items (plain workers) pure_work w w' r)
    as (ds & _ & _ & Hall & Hr); try done.
  - split; [|by auto|done]. intros index item _. split; [|by apply job_private].
    unfold job, plain, item_cost. simpl.
    eapply owns_rbind with (R := λ r _, r = Ok tt); [done| |done].
    intros [] m _. by apply owns_annotate.
  - rewrite Forall_forall in Hall. destruct r as [rs|e].
    + destruct Hr as (Hlen & Hperm & Hds). rewrite Forall_forall in Hds.
      apply list_eq. intros i. rewrite !list_lookup_fmap.
      destruct (items !! i) as [item|] eqn:Hi.
      2: { apply lookup_ge_None in Hi. rewrite lookup_ge_None_2; [done|]. rewrite Hlen. done. }
      assert (i ∈ d_index <$> ds) as (d & -> & Hd)%list_elem_of_fmap.
      { rewrite Hperm. apply elem_of_seq. apply lookup_lt_Some in Hi. lia. }
      destruct (Hall d Hd) as (item' & Hitem & HQ). destruct (Hds d Hd) as (v & Hv & Hrs).
      unfold Q in HQ. rewrite Hitem in Hi. injection Hi as ->. rewrite Hrs. simpl.
      rewrite Hv in HQ. destruct (f item); by simplify_eq.
    + destruct Hr as [(d & Hd & He)|Hstop]; [left|by right].
      destruct (Hall d Hd) as (item & Hitem & HQ). unfold Q in HQ. rewrite He in HQ.
      destruct (f item) as [v|e'] eqn:Hf; simplify_eq. by exists (d_index d), item, e'.
Qed.
End pure.

(** ** What [Map] spends *)

Lemma total_submseteq {A} (f : A → N) (l l' : list A) :
  l ⊆+ l' → (total (f <$> l) ≤ total (f <$> l'))%N.
Proof.
  intros [k Hk]%submseteq_Permutation. rewrite (total_perm (f <$> l') (f <$> (l ++ k))) by by rewrite Hk.
  rewrite fmap_app, total_app. unfold aplus, N_account. lia.
Qed.

Lemma owns_zoom_self {W A} `{Account M} (Inv : W → M → Prop) (Q : A → M → Prop) (p : prog W A) γ :
  owns Inv Q p γ → owns Inv Q (zoom p) γ.
Proof.
  intros Hp. eapply owns_conseq.
  - apply (owns_zoom Inv Inv id); [|exact Hp]. intros w m o Hw. by exists o.
  - by intros a m (m' & -> & HQ).
Qed.

Lemma total_fmap_le {A} (f g : A → N) (l : list A) :
  (∀ x, x ∈ l → (f x ≤ g x)%N) → (total (f <$> l) ≤ total (g <$> l))%N.
Proof.
  induction l as [|x l IH]; [done|]. intros Hle.
  pose proof (Hle x ltac:(by left)).
  pose proof (IH ltac:(intros; apply Hle; by right)).
  change (f x + total (f <$> l) ≤ g x + total (g <$> l))%N. lia.
Qed.

Section spend.
Context {U : Type} {EG : ErrGroup} {T R : Type} (zero : R).
Context (Env : limits U → limits U → Prop) (b : nat) (x : budget).
Notation Inv := (budget_inv (U := U) b x).
Implicit Types (options : MapOptions U T) (work : ctx → T → prog (limits U) (res R)).

(** What admitting one item charges the budget. *)
Definition item_charge options (item : T) : N :=
  match opt_Limiter options with
  | Some l => charges b l (item_cost options item)
  | None => 0%N
  end.

Definition list_charge options (items : list T) : N := total (item_charge options <$> items).

(** The limiter's charge is final once the work function starts. *)
Lemma job_spends options work gctx index item :
  owns Inv (λ _ γ, γ.1 = (0, 0)%N) (work gctx item) azero →
  owns Inv (λ r (γ : share), γ.1 = (0%N, item_charge options item) ∨ is_ok r = false ∧ γ.1 = (0, 0)%N)
    (job options work gctx index item) azero.
Proof.
  intros Hw. unfold job, item_charge. destruct (_ <? 1); [by right|].
  eapply owns_rbind with (R := λ r (γ : share), γ.1 = (0%N, if is_ok r then item_charge options item else 0%N)).
  - apply owns_annotate. unfold item_charge. destruct (opt_Limiter options) as [l|].
    + eapply owns_conseq; [apply owns_zoom_self, (Limiter_Wait_ok b x)|].
      intros [[]|e] γ Hγ; exact Hγ.
    + by apply owns_ret.
  - intros [] γ Hγ. simpl in Hγ. apply owns_annotate.
    rewrite <-(aplus_zero γ). eapply owns_conseq; [by apply owns_frame|].
    intros r m (γ' & -> & Hγ'). left. destruct γ as [[??]?], γ' as [[??]?].
    unfold item_charge in Hγ. accounts. by simplify_eq.
  - intros e γ Hγ. by right.
Qed.

Lemma budget_inv_map_ctxs (f : ctxs → ctxs) (w : limits U) (m : share) :
  Inv w m → Inv (map_ctxs f w) m.
Proof. done. Qed.

Lemma total_spent {D} (acct : D → share) (ds : list D) :
  (∀ d, d ∈ ds → (acct d).1.1 = 0%N) →
  (total (acct <$> ds)).1 = (0%N, total ((λ d, (acct d).1.2) <$> ds)).
Proof.
  induction ds as [|d ds IH]; [done|]. intros Hz.
  pose proof (Hz d ltac:(by left)). pose proof (IH ltac:(intros; apply Hz; by right)) as IHd.
  change (total (acct <$> d :: ds)) with (acct d ⊹ total (acct <$> ds)).
  change (total ((λ d, (acct d).1.2) <$> d :: ds))
    with ((acct d).1.2 + total ((λ d, (acct d).1.2) <$> ds))%N.
  destruct (acct d) as [[??]?], (total (acct <$> ds)) as [[??]?]. accounts. by simplify_eq.
Qed.

Definition index_charge options (items : list T) (index : nat) : N :=
  match items !! index with Some item => item_charge options item | None => 0%N end.

Lemma list_charge_seq options (items : list T) :
  total (index_charge options items <$> seq 0 (length items)) = list_charge options items.
Proof.
  unfold list_charge. f_equal. apply list_eq. intros i. rewrite !list_lookup_fmap.
  destruct (items !! i) as [item|] eqn:Hi; simpl.
  - assert (seq 0 (length items) !! i = Some i) as ->.
    { apply lookup_seq. split; [done|by eapply lookup_lt_Some]. }
    simpl. unfold index_charge. by rewrite Hi.
  - assert (seq 0 (length items) !! i = None) as ->; [|done].
    by apply lookup_seq_ge, lookup_ge_None.
Qed.

(** [Map] spends exactly what it must, under every scheduling: with a work
    function that leaves the budget alone, a run that returns results has
    charged the budget once for each item, at the item's cost, through every
    occurrence in the limiter; a run that fails has charged at most that, and
    no item twice.  Nothing is overdrawn and nothing stays reserved. *)
Theorem Map_spend c items options work w w' r :
  ctxs_ok (lw_ctxs w) →
  lw_budgets w !! b = Some x → 0 ≤ remaining x ≤ max64 →
  (∀ w1 w2, Env w1 w2 → ambient w1 w2 ∧ private (scopes (lw_ctxs w)) w1 w2) →
  (∀ gctx item, item ∈ items →
     owns Inv (λ _ γ, γ.1 = (0, 0)%N) (work gctx item) azero ∧
     guarantees (private (scopes (lw_ctxs w))) (λ _, True) (work gctx item)) →
  Map_returns zero Env c items options w (Some work) w' r →
  ∃ x', lw_budgets w' !! b = Some x' ∧ limit x' = limit x ∧ 0 ≤ remaining x' ∧
    let spent := remaining x - remaining x' in
    match r with
    | Ok _ => spent = Z.of_N (list_charge options items)
    | Err _ => 0 ≤ spent ≤ Z.of_N (list_charge options items)
    end.
Proof.
  intros Hok Hx Hr Henv Hwork Hret.
  pose (Q := λ (index : nat) (item : T) (r : res R) (γ : share),
    γ.1 = (0%N, item_charge options item) ∨ is_ok r = false ∧ γ.1 = (0, 0)%N).
  destruct (Map_returns_spec zero Env Inv Q c items options work w w' r)
    as (ds & (_ & _ & x' & Hx' & Hlim & Hpos & Hsum) & Hnd & Hall & Hres); try done.
  - split; [|intros w1 w2 m Hm He; destruct (Henv w1 w2 He); split; [by eapply ambient_inv|done]
           |intros; by apply budget_inv_map_ctxs].
    intros index item Hitem. destruct (Hwork (scopes (lw_ctxs w) :: c) item) as [Ho Hg];
      [by eapply list_elem_of_lookup_2|].
    split; [by apply job_spends|by apply job_private].
  - by apply budget_inv_open.
  - exists x'. split_and!; [done..|]. rewrite Forall_forall in Hall.
    assert (∀ d, d ∈ ds → (d_acct d).1.1 = 0%N ∧ ((d_acct d).1.2 ≤ index_charge options items (d_index d))%N ∧
              (is_ok (d_res d) = true → (d_acct d).1.2 = index_charge options items (d_index d))) as Hacct.
    { intros d Hd. destruct (Hall d Hd) as (item & Hitem & HQ). unfold index_charge. rewrite Hitem.
      destruct HQ as [->|[-> ->]]; simpl; split_and!; (done || lia). }
    rewrite total_spent in Hsum by (intros d Hd; by apply Hacct). simpl in Hsum.
    pose proof (total_fmap_le (λ d, (d_acct d).1.2) (λ d, index_charge options items (d_index d)) ds
                  ltac:(intros d Hd; by apply Hacct)) as Hle.
    assert ((λ d, index_charge options items (d_index (M := share) d)) <$> ds =
            index_charge options items <$> (d_index <$> ds)) as Heq by by rewrite <-list_fmap_compose.
    rewrite Heq in Hle. destruct r as [rs|e].
    + destruct Hres as (_ & Hperm & Hds). rewrite Forall_forall in Hds.
      rewrite <-list_charge_seq, <-(total_perm _ _ (fmap_Permutation _ _ _ Hperm)), <-Heq.
      assert ((λ d, (d_acct d).1.2) <$> ds = (λ d, index_charge options items (d_index d)) <$> ds) as Hex.
      { apply list_fmap_ext. intros i d Hd%list_elem_of_lookup_2. apply Hacct; [done|].
        destruct (Hds d Hd) as (v & -> & _). done. }
      rewrite Hex in Hsum. lia.
    + assert (d_index <$> ds ⊆+ seq 0 (length items)) as Hsub.
      { apply NoDup_submseteq; [done|]. intros i (d & -> & Hd)%list_elem_of_fmap.
        destruct (Hall d Hd) as (item & Hitem & _). apply elem_of_seq. apply lookup_lt_Some in Hitem. lia. }
      pose proof (total_submseteq (index_charge options items) _ _ Hsub) as Hle2.
      rewrite list_charge_seq in Hle2. lia.
Qed.
End spend.

(** ** Executing a schedule *)

Section replay.
Context {U W : Type} `{!Has (limits U) W} {EG : ErrGroup} {T R : Type}.
Context (gctx : ctx) (body : nat → T → prog W (res R)).

(** Makes the listed moves, taking the first result of each. *)
Fixpoint replay (chs : list choice) (s : mstate W T R) : option (mstate W T R) :=
  match chs with
  | [] => Some s
  | ch :: chs => match fire gctx body ch s with s' :: _ => replay chs s' | [] => None end
  end.

Lemma replay_steps Env chs s s' :
  replay chs s = Some s' → rtc (mstep gctx body Env) s s'.
Proof.
  revert s. induction chs as [|ch chs IH]; intros s Hr; simpl in Hr; [by simplify_eq|].
  destruct (fire gctx body ch s) as [|s1 l] eqn:Hf; [done|]. eapply rtc_l; [|by apply IH].
  constructor. exists ch. rewrite Hf. by left.
Qed.
End replay.

(** ** A concrete run *)

Section example.
Notation W := (limits unit).

(** Nothing happens around the call. *)
Definition alone_env : W → W → Prop := eq.

(** Two workers double two items, each item paying its value out of a budget
    of ten. *)
Definition two_workers : MapOptions unit Z := MkMapOptions 2 (Some (LBudget (Some 0%nat))) (Some id).
Definition double (z : Z) : res Z := Ok (2 * z).
Definition double_work : ctx → Z → prog W (res Z) := pure_work double.
Definition group_of_run : ctx := [1; 0]%nat.
Definition run_start : mstate W Z Z :=
  map_start 0 two_workers [3; 1] (map_ctxs (λ _, (WithCancel [0%nat] (lw_ctxs ten)).1) ten).
Definition in_parallel : list choice :=
  [Deliver 1; Deliver 0; FeedAll] ++ concat (replicate 5 [WorkerAct 0; WorkerAct 1]) ++
  [EndFeeder; DrainWorker 0; DrainWorker 1; EndWorker 1; EndWorker 0].
Definition three_paid : W := Limits (Ctxs ∅ 2) [Budget 10 6] [] [true; true] tt.

Lemma run_reaches :
  ∃ s, rtc (mstep group_of_run (job two_workers double_work group_of_run) alone_env) run_start s ∧
       mfinal s ∧ m_world s = three_paid ∧ map_result s = Ok [6; 2].
Proof.
  destruct (replay group_of_run (job two_workers double_work group_of_run) in_parallel run_start)
    as [s|] eqn:Hr; [|vm_compute in Hr; discriminate Hr].
  exists s. split; [by eapply replay_steps|]. vm_compute in Hr. injection Hr as <-.
  split; [|done]. split; [done|]. repeat constructor.
Qed.

Lemma run_returns :
  Map_returns 0 alone_env [0%nat] [3; 1] two_workers ten (Some double_work) three_paid (Ok [6; 2]).
Proof.
  destruct run_reaches as (s & Hs & Hf & <- & <-).
  eapply Map_runs with (gctx := group_of_run); [done|reflexivity|exact Hs|exact Hf].
Qed.

Lemma ten_ctxs_ok : ctxs_ok (lw_ctxs ten).
Proof. intros id _. apply lookup_empty. Qed.

Lemma alone_private (gid : nat) (w1 w2 : W) : alone_env w1 w2 → private gid w1 w2.
Proof. by intros <-. Qed.

Definition paid (index : nat) (item : Z) (r : res Z) (γ : share) : Prop :=
  γ.1 = (0%N, item_charge 0 two_workers item) ∨ is_ok r = false ∧ γ.1 = (0, 0)%N.

Lemma double_client :
  map_client alone_env (budget_inv 0 (Budget 10 10)) paid 1 [0%nat] [3; 1] two_workers double_work.
Proof.
  split.
  - intros index item _. split; [by apply job_spends|by apply job_private].
  - intros w w' m Hw <-. by split.
  - done.
Qed.

Lemma Map_contract_witness :
  Map_returns 0 alone_env [0%nat] [3; 1] two_workers ten (Some double_work) three_paid (Ok [6; 2]) ∧
  ∃ ds : list (done (R := Z) (M := share)), d_index <$> ds ≡ₚ [0; 1]%nat.
Proof.
  split; [exact run_returns|].
  destruct (Map_contract 0 alone_env (budget_inv 0 (Budget 10 10)) paid [0%nat] [3; 1] two_workers
              double_work ten three_paid (Ok [6; 2]) double_client ten_ctxs_ok
              ltac:(apply budget_inv_open; [reflexivity|simpl; unfold max64; lia]) run_returns)
    as (ds & _ & _ & _ & _ & Hperm & _).
  exists ds. exact Hperm.
Defined.

Lemma Map_spend_witness :
  ∃ x', lw_budgets three_paid !! 0%nat = Some x' ∧
        remaining (Budget 10 10) - remaining x' = Z.of_N (list_charge 0 two_workers [3; 1]) ∧
        list_charge 0 two_workers [3; 1] = 4%N.
Proof.
  destruct (Map_spend 0 alone_env 0 (Budget 10 10) [0%nat] [3; 1] two_workers double_work ten three_paid
              (Ok [6; 2]) ten_ctxs_ok eq_refl) as (x' & Hx' & _ & _ & Hs).
  - simpl; unfold max64; lia.
  - intros w1 w2 <-. by split; [split|].
  - intros gctx item _. by split.
  - exact run_returns.
  - exists x'. split; [exact Hx'|]. split; [exact Hs|reflexivity].
Defined.

Lemma Map_progress_witness :
  ∃ s', mmove group_of_run (job two_workers double_work group_of_run) run_start s'.
Proof.
  apply (Map_progress 0 alone_env (budget_inv 0 (Budget 10 10)) paid [0%nat] [3; 1] two_workers
           double_work ten (WithCancel [0%nat] (lw_ctxs ten)).1 run_start double_client ten_ctxs_ok).
  - apply budget_inv_open; [reflexivity|simpl; unfold max64; lia].
  - discriminate.
  - reflexivity.
  - apply rtc_refl.
  - intros [Hf _]. discriminate Hf.
  - repeat constructor; intros H; exact H.
Defined.

(** Without a limiter. *)
Definition plain_start : mstate W Z Z :=
  map_start 0 (plain (U := unit) 1) [3; 1] (map_ctxs (λ _, (WithCancel [0%nat] (lw_ctxs ten)).1) ten).
Definition one_by_one : list choice :=
  [Deliver 0; WorkerAct 0; Deliver 0; WorkerAct 0; FeedAll; EndFeeder; DrainWorker 0; EndWorker 0].

Lemma Map_pure_witness :
  ∃ rs, Map_returns 0 alone_env [0%nat] [3; 1] (plain (U := unit) 1) ten (Some double_work)
          (set_ctxs (Ctxs ∅ 2) ten) (Ok rs) ∧ Ok <$> rs = double <$> [3; 1].
Proof.
  exists [6; 2].
  assert (Map_returns 0 alone_env [0%nat] [3; 1] (plain (U := unit) 1) ten (Some double_work)
          (set_ctxs (Ctxs ∅ 2) ten) (Ok [6; 2])) as Hret.
  { destruct (replay group_of_run (job (plain (U := unit) 1) double_work group_of_run) one_by_one plain_start)
      as [s|] eqn:Hr; [|vm_compute in Hr; discriminate Hr].
    apply replay_steps with (Env := alone_env) in Hr as Hs. vm_compute in Hr. injection Hr as <-.
    eapply (Map_runs 0 alone_env [0%nat] [3; 1] (plain (U := unit) 1) ten double_work _ group_of_run _ ltac:(done) eq_refl Hs).
    split; [done|]. repeat constructor. }
  split; [exact Hret|].
  exact (Map_pure 0 alone_env double [0%nat] [3; 1] 1 ten _ (Ok [6; 2]) ten_ctxs_ok
           (alone_private 1) Hret).
Defined.
End example.
