(* ===== verification/Classify.v ===== *)
(** * Error classes: flow/classify.go

    [DefaultClassifier] is translated with its tests in the source's order over
    the error trees of GoError.v. *)

From S2P Require Import Prelude GoError.

(** The Go type is an [int]: [Unknown n] is any value outside the three
    constants, which a caller's classifier may return. *)
Inductive ErrorClass :=
| Transient
| DataError
| Fatal
| UnknownClass (n : Z).

#[export] Instance ErrorClass_eq_dec : EqDecision ErrorClass.
Proof. solve_decision. Defined.

Definition class_valid (class : ErrorClass) : bool :=
  match class with UnknownClass _ => false | _ => true end.

Definition class_String (class : ErrorClass) : string :=
  match class with
  | Transient => "transient"
  | DataError => "data"
  | Fatal => "fatal"
  | UnknownClass _ => "unknown"
  end.

Definition class_MarshalText (class : ErrorClass) : res string :=
  match class with
  | UnknownClass n => Err (Errorf "unknown error class %d" [ArgInt n])
  | _ => Ok (class_String class)
  end.

Definition class_UnmarshalText (text : string) : res ErrorClass :=
  if decide (text = "transient") then Ok Transient else
  if decide (text = "data") then Ok DataError else
  if decide (text = "fatal") then Ok Fatal else
  Err (Errorf "unknown error class %q" [ArgStr text]).

(** A [Classifier] is its [Classify] method. *)
Definition Classifier := error → ErrorClass.

(** [code == 429 || code == 408 || (code >= 500 && code < 600)] *)
Definition retryable_status (code : Z) : bool :=
  (code =? 429) || (code =? 408) || ((500 <=? code) && (code <? 600)).

(** [defaultClassifier.Classify] of a possibly nil error. *)
Definition DefaultClassify (err : option error) : ErrorClass :=
  match err with
  | None => Fatal
  | Some e =>
      if IsDataError e then DataError else
      if Is e Canceled || Is e DeadlineExceeded then Fatal else
      if Is e ErrBudgetExceeded then Fatal else
      match HTTPStatusOf e with
      | Some code => if retryable_status code then Transient else Fatal
      | None => Fatal
      end
  end.
Definition DefaultClassifier : Classifier := λ e, DefaultClassify (Some e).

(** ** Properties *)

Create HintDb classify.

Lemma class_valid_String class : class_valid class = true → class_String class ≠ "unknown".
Proof. by destruct class. Qed.

(** The stable class names round-trip: every class the package defines is
    marshaled to a name that unmarshals back to it, any other value is refused
    by [MarshalText], and [UnmarshalText] accepts no other text. *)
Theorem class_text_roundtrip class text :
  (class_MarshalText class = Ok text ↔ class_UnmarshalText text = Ok class ∧ class_valid class = true) ∧
  (class_valid class = false → is_ok (class_MarshalText class) = false).
Proof.
  unfold class_MarshalText, class_UnmarshalText.
  split; [|by destruct class].
  split.
  - destruct class; simpl; intros; by simplify_eq.
  - intros [Hun Hv]. repeat case_decide; by simplify_eq/=.
Qed.

(** The error's cause: its chain of single wraps by [fmt.Errorf]. *)
Inductive wraps : error → error → Prop :=
| wraps_refl e : wraps e e
| wraps_errorf f args e e' : omap wrapped args = [e'] → wraps e' e → wraps (Errorf f args) e.

(** Annotating an error never changes its destiny: however many
    [fmt.Errorf("...%w...")] layers a step, a limiter or a cache adds around an
    error, the default classifier gives the annotated error the class of its
    cause. *)
Theorem DefaultClassifier_wraps e cause :
  wraps e cause → DefaultClassifier e = DefaultClassifier cause.
Proof.
  induction 1 as [e|f args e e' Hargs _ IH]; [done|]. rewrite <-IH.
  unfold DefaultClassifier, DefaultClassify.
  by rewrite (IsDataError_errorf_one f args e'), !(Is_errorf_one f args e'),
    (HTTPStatusOf_errorf_one f args e').
Qed.

Lemma DefaultClassifier_wraps_witness :
  wraps (Errorf "step %q: %w" [ArgStr "judge"; ArgWrap (StatusErr 503 None)]) (StatusErr 503 None) ∧
  DefaultClassifier (Errorf "step %q: %w" [ArgStr "judge"; ArgWrap (StatusErr 503 None)]) = Transient.
Proof.
  assert (wraps (Errorf "step %q: %w" [ArgStr "judge"; ArgWrap (StatusErr 503 None)])
            (StatusErr 503 None)) as H by (eapply wraps_errorf; [reflexivity|apply wraps_refl]).
  split; [exact H|]. rewrite (DefaultClassifier_wraps _ _ H). reflexivity.
Defined.

(** The default classifier retries an error exactly when its tree carries a
    retryable HTTP status and nothing in it forbids a retry: a parser's data
    marker anywhere makes it data whatever else it carries, and a cancellation,
    a deadline or an exhausted budget makes it fatal even under a 5xx status. *)
Theorem DefaultClassifier_spec e :
  (DefaultClassifier e = DataError ↔ IsDataError e = true) ∧
  (DefaultClassifier e = Transient ↔
     IsDataError e = false ∧ Is e Canceled = false ∧ Is e DeadlineExceeded = false ∧
     Is e ErrBudgetExceeded = false ∧
     ∃ code, HTTPStatusOf e = Some code ∧ (code = 429 ∨ code = 408 ∨ 500 ≤ code < 600)) ∧
  (DefaultClassifier e = DataError ∨ DefaultClassifier e = Transient ∨ DefaultClassifier e = Fatal).
Proof.
  unfold DefaultClassifier, DefaultClassify.
  destruct (IsDataError e); [naive_solver|].
  destruct (Is e Canceled); [naive_solver|].
  destruct (Is e DeadlineExceeded); [naive_solver|]. simpl.
  destruct (Is e ErrBudgetExceeded); [naive_solver|].
  destruct (HTTPStatusOf e) as [code|]; [|naive_solver].
  assert (retryable_status code = true ↔ code = 429 ∨ code = 408 ∨ 500 ≤ code < 600) as Hr.
  { unfold retryable_status. rewrite !orb_true_iff, andb_true_iff, !Z.eqb_eq, Z.leb_le, Z.ltb_lt. lia. }
  destruct (retryable_status code); naive_solver.
Qed.
