(* ===== verification/GoStrings.v ===== *)
(** * Strings

    Go strings are byte sequences, here Rocq's [string].  [chunks] is the way
    every rune-wise operation reads them: valid UTF-8 sequences, and single
    bytes where there is none.  The functions of the [strings] and [utf8]
    packages the repository calls are built on it. *)

From S2P Require Import Prelude.
From Stdlib Require Import Ascii.

Definition byte_of (a : ascii) : Z := Z.of_N (N_of_ascii a).
Definition char_of (z : Z) : ascii := ascii_of_N (Z.to_N z).

(** A rune with the bytes that encode it, or a byte that is part of no rune. *)
Inductive chunk := Rune (cp : Z) (bytes : string) | Bad (a : ascii).

Definition within (lo hi : Z) (a : ascii) : bool := (lo <=? byte_of a) && (byte_of a <=? hi).
Definition continuation : ascii → bool := within 0x80 0xbf.
Definition tail_bits (a : ascii) : Z := Z.land (byte_of a) 0x3f.

(** The multi-byte sequences of [utf8.DecodeRune]. *)
Definition two_bytes (a b : ascii) : bool := within 0xc2 0xdf a && continuation b.
Definition three_bytes (a b c : ascii) : bool :=
  ((within 0xe0 0xe0 a && within 0xa0 0xbf b) || (within 0xe1 0xec a && continuation b) ||
   (within 0xed 0xed a && within 0x80 0x9f b) || (within 0xee 0xef a && continuation b))
  && continuation c.
Definition four_bytes (a b c d : ascii) : bool :=
  ((within 0xf0 0xf0 a && within 0x90 0xbf b) || (within 0xf1 0xf3 a && continuation b) ||
   (within 0xf4 0xf4 a && within 0x80 0x8f b))
  && continuation c && continuation d.

Definition rune2 (a b : ascii) : Z := Z.land (byte_of a) 0x1f * 64 + tail_bits b.
Definition rune3 (a b c : ascii) : Z :=
  (Z.land (byte_of a) 0x0f * 64 + tail_bits b) * 64 + tail_bits c.
Definition rune4 (a b c d : ascii) : Z :=
  ((Z.land (byte_of a) 0x07 * 64 + tail_bits b) * 64 + tail_bits c) * 64 + tail_bits d.

Fixpoint chunks (s : string) : list chunk :=
  match s with
  | "" => []
  | String a s1 =>
      if byte_of a <? 0x80 then Rune (byte_of a) (String a "") :: chunks s1 else
      match s1 with
      | "" => [Bad a]
      | String b s2 =>
          if two_bytes a b then Rune (rune2 a b) (String a (String b "")) :: chunks s2 else
          match s2 with
          | "" => Bad a :: chunks s1
          | String c s3 =>
              if three_bytes a b c
              then Rune (rune3 a b c) (String a (String b (String c ""))) :: chunks s3 else
              match s3 with
              | "" => Bad a :: chunks s1
              | String d s4 =>
                  if four_bytes a b c d
                  then Rune (rune4 a b c d) (String a (String b (String c (String d "")))) :: chunks s4
                  else Bad a :: chunks s1
              end
          end
      end
  end.

Definition chunk_bytes (k : chunk) : string :=
  match k with Rune _ bytes => bytes | Bad a => String a "" end.
Definition unchunk (ks : list chunk) : string := foldr (λ k s, chunk_bytes k +:+ s) "" ks.

(** [utf8.ValidString] *)
Definition is_rune (k : chunk) : bool := match k with Rune _ _ => true | Bad _ => false end.
Definition ValidString (s : string) : bool := forallb is_rune (chunks s).

(** [unicode.IsSpace] *)
Definition IsSpace (r : Z) : bool :=
  ((9 <=? r) && (r <=? 13)) || (r =? 0x20) || (r =? 0x85) || (r =? 0xa0) || (r =? 0x1680)
  || ((0x2000 <=? r) && (r <=? 0x200a)) || (r =? 0x2028) || (r =? 0x2029) || (r =? 0x202f)
  || (r =? 0x205f) || (r =? 0x3000).

Definition is_space (k : chunk) : bool :=
  match k with Rune cp _ => IsSpace cp | Bad _ => false end.

Fixpoint drop_spaces (ks : list chunk) : list chunk :=
  match ks with
  | k :: ks' => if is_space k then drop_spaces ks' else ks
  | [] => []
  end.

(** [strings.TrimSpace] *)
Definition TrimSpace (s : string) : string :=
  unchunk (reverse (drop_spaces (reverse (drop_spaces (chunks s))))).

(** [strings.Join(xs, sep)] *)
Fixpoint Join_strings (sep : string) (xs : list string) : string :=
  match xs with
  | [] => ""
  | [x] => x
  | x :: xs => x +:+ sep +:+ Join_strings sep xs
  end.

(** Induction over the pieces [chunks] consumes. *)
Lemma string_length_ind (P : string → Prop) :
  (∀ s, (∀ t, (String.length t < String.length s)%nat → P t) → P s) → ∀ s, P s.
Proof.
  intros Hstep s. remember (String.length s) as n eqn:Hn. revert s Hn.
  induction n as [n IH] using lt_wf_ind. intros s ->. apply Hstep. intros t Ht. by eapply IH.
Qed.

(** Reading a string loses nothing. *)
Lemma unchunk_chunks s : unchunk (chunks s) = s.
Proof.
  induction s as [s IH] using string_length_ind. destruct s as [|a s1]; [done|]. simpl.
  assert (unchunk (Bad a :: chunks s1) = String a s1) as Hbad by (simpl; rewrite IH; simpl; [done|lia]).
  destruct (byte_of a <? 0x80); [simpl; rewrite IH; simpl; [done|lia]|].
  destruct s1 as [|b s2]; [done|]. destruct (two_bytes a b); [simpl; rewrite IH; simpl; [done|lia]|].
  destruct s2 as [|c s3]; [done|]. destruct (three_bytes a b c); [simpl; rewrite IH; simpl; [done|lia]|].
  destruct s3 as [|d s4]; [done|]. destruct (four_bytes a b c d); [simpl; rewrite IH; simpl; [done|lia]|done].
Qed.

Example TrimSpace_unicode : TrimSpace (String "009" (String "194" (String "160" "x "))) = "x".
Proof. reflexivity. Qed.
