(* ===== verification/Float64.v ===== *)
(** * IEEE-754 binary64

    Go's [float64] is the Standard Library's executable [spec_float] at
    precision 53 and maximal exponent 1024.  Products and sums are rounded
    separately, as on amd64. *)

From S2P Require Import Prelude.
From Stdlib Require Export SpecFloat.

Definition f64 := spec_float.
Definition fadd (x y : f64) : f64 := SFadd 53 1024 x y.
Definition fmul (x y : f64) : f64 := SFmul 53 1024 x y.
Definition fltb (x y : f64) : bool := SFltb x y.
Definition feqb (x y : f64) : bool := SFeqb x y.
Definition fzero : f64 := S754_zero false.

(** The conversion [float64(i)]. *)
Definition of_int (i : Z) : f64 := binary_normalize 53 1024 i 0 false.

Definition IsNaN (x : f64) : bool := match x with S754_nan => true | _ => false end.
Definition IsInf (x : f64) : bool := match x with S754_infinity _ => true | _ => false end.
Definition is_finite (x : f64) : bool := negb (IsNaN x || IsInf x).

(** Neither NaN nor below zero; -0 counts as zero. *)
Definition nonneg (x : f64) : bool :=
  match x with
  | S754_nan => false
  | S754_zero _ => true
  | S754_infinity s | S754_finite s _ _ => negb s
  end.

(** [math.IsNaN(x) || math.IsInf(x, 0) || x < 0] *)
Definition bad_amount (x : f64) : bool := IsNaN x || IsInf x || fltb x fzero.

Lemma bad_amount_spec x : bad_amount x = false ↔ is_finite x = true ∧ nonneg x = true.
Proof.
  destruct x as [[]|[]| |[] m e]; vm_compute; naive_solver.
Qed.

(** Rounding never yields NaN and keeps the sign. *)
Section rounding.
Definition shr_ok (r : shr_record) : Prop := 0 ≤ shr_m r.

Lemma shr_1_ok r : shr_ok r → shr_ok (shr_1 r).
Proof. unfold shr_ok. destruct r as [[|[]|] ? ?]; simpl; lia. Qed.

Lemma iter_pos_ok p r : shr_ok r → shr_ok (iter_pos shr_1 p r).
Proof. revert r. induction p; simpl; eauto using shr_1_ok. Qed.

Lemma shr_fexp_ok m e l : 0 ≤ m → shr_ok (shr_fexp 53 1024 m e l).1.
Proof.
  intros Hm. unfold shr_fexp, shr.
  assert (shr_ok (shr_record_of_loc m l)) as Hr by (by destruct l as [|[]]).
  destruct (_ - _); simpl; auto using iter_pos_ok.
Qed.

Lemma binary_round_aux_nonneg m e l :
  0 ≤ m → nonneg (binary_round_aux 53 1024 false m e l) = true.
Proof.
  intros Hm. unfold binary_round_aux.
  pose proof (shr_fexp_ok m e l Hm) as H1.
  destruct (shr_fexp 53 1024 m e l) as [r1 e1]. simpl in H1.
  assert (0 ≤ round_nearest_even (shr_m r1) (loc_of_shr_record r1)) as H2.
  { unfold shr_ok in H1. unfold round_nearest_even.
    destruct (loc_of_shr_record r1) as [|[]]; try lia. destruct (Z.even _); lia. }
  pose proof (shr_fexp_ok _ e1 loc_Exact H2) as H3.
  destruct (shr_fexp 53 1024 _ e1 loc_Exact) as [r2 e2]. simpl in *. unfold shr_ok in H3.
  destruct (shr_m r2); [done| |lia]. by destruct (_ <=? _).
Qed.

Lemma binary_round_nonneg m e : nonneg (binary_round 53 1024 false m e) = true.
Proof.
  unfold binary_round. destruct (shl_align _ _ _) as [mz ez].
  by apply binary_round_aux_nonneg.
Qed.

Lemma of_int_nonneg i : 0 ≤ i → nonneg (of_int i) = true.
Proof. destruct i; intros Hi; [done|apply binary_round_nonneg|lia]. Qed.

Lemma fadd_nonneg x y : nonneg x = true → nonneg y = true → nonneg (fadd x y) = true.
Proof.
  destruct x as [[]|[]| |[] m e], y as [[]|[]| |[] m' e']; simpl; try done.
  intros _ _. apply binary_round_nonneg.
Qed.

Lemma fmul_nonneg x y :
  is_finite x = true → is_finite y = true → nonneg x = true → nonneg y = true →
  nonneg (fmul x y) = true.
Proof.
  destruct x as [[]|[]| |[] m e], y as [[]|[]| |[] m' e']; simpl; try done.
  intros _ _ _ _. apply (binary_round_aux_nonneg (Z.pos (m * m'))). lia.
Qed.
(** No integer of 63 bits overflows the exponent range. *)
Lemma digits2_lower p : 2 ^ (Z.pos (digits2_pos p) - 1) ≤ Z.pos p.
Proof.
  induction p as [p IH|p IH|]; simpl; [| |done].
  all: rewrite Pos2Z.inj_succ; replace (Z.succ _ - 1) with (Z.succ (Z.pos (digits2_pos p) - 1)) by lia.
  all: rewrite Z.pow_succ_r by lia; lia.
Qed.

Lemma Zdigits2_le m k : 0 ≤ m → 0 ≤ k → m < 2 ^ k → Zdigits2 m ≤ k.
Proof.
  intros Hm Hk Hlt. destruct m as [|p|p]; simpl; [lia| |lia].
  pose proof (digits2_lower p).
  assert (2 ^ (Z.pos (digits2_pos p) - 1) < 2 ^ k) as Hp by lia.
  apply Z.pow_lt_mono_r_iff in Hp; lia.
Qed.

Lemma shr_1_le r : shr_ok r → shr_m (shr_1 r) ≤ shr_m r.
Proof. unfold shr_ok. destruct r as [[|[]|] ? ?]; simpl; lia. Qed.

Lemma iter_pos_le p r : shr_ok r → shr_m (iter_pos shr_1 p r) ≤ shr_m r.
Proof.
  revert r. induction p as [p IH|p IH|]; intros r Hr; simpl.
  - pose proof (shr_1_ok _ Hr). pose proof (shr_1_le _ Hr).
    pose proof (IH _ H). pose proof (IH _ (iter_pos_ok p _ H)). lia.
  - pose proof (IH _ Hr). pose proof (IH _ (iter_pos_ok p _ Hr)). lia.
  - by apply shr_1_le.
Qed.

Lemma shr_fexp_le m e l k c :
  0 ≤ m < 2 ^ k → 0 ≤ k → e ≤ c → 0 ≤ c →
  shr_m (shr_fexp 53 1024 m e l).1 ≤ m ∧ (shr_fexp 53 1024 m e l).2 ≤ c + k.
Proof.
  intros Hm Hk He Hc. unfold shr_fexp, shr.
  pose proof (Zdigits2_le m k ltac:(lia) Hk ltac:(lia)) as Hd.
  assert (shr_m (shr_record_of_loc m l) = m) as Hs by (by destruct l as [|[]]).
  assert (shr_ok (shr_record_of_loc m l)) as Hr by (unfold shr_ok; lia).
  destruct (_ - _) eqn:Hn; simpl; [lia| |lia].
  pose proof (iter_pos_le p _ Hr). unfold fexp, emin in Hn. lia.
Qed.

Lemma binary_round_aux_finite m e l k :
  0 ≤ m < 2 ^ k → 0 ≤ k → e ≤ 0 → k ≤ 400 →
  is_finite (binary_round_aux 53 1024 false m e l) = true.
Proof.
  intros Hm Hk He Hb. unfold binary_round_aux.
  pose proof (shr_fexp_ok m e l ltac:(lia)) as H1.
  pose proof (shr_fexp_le m e l k 0 Hm Hk He ltac:(lia)) as L1.
  destruct (shr_fexp 53 1024 m e l) as [r1 e1]. simpl in H1, L1. unfold shr_ok in H1.
  set (m2 := round_nearest_even _ _).
  assert (0 ≤ m2 < 2 ^ (k + 1)) as H2.
  { rewrite Z.pow_add_r by lia. unfold m2, round_nearest_even.
    destruct (loc_of_shr_record r1) as [|[]]; try destruct (Z.even _); lia. }
  pose proof (shr_fexp_ok m2 e1 loc_Exact ltac:(lia)) as H3.
  pose proof (shr_fexp_le m2 e1 loc_Exact (k + 1) k H2 ltac:(lia) ltac:(lia) ltac:(lia)) as L2.
  destruct (shr_fexp 53 1024 m2 e1 loc_Exact) as [r2 e2]. simpl in *. unfold shr_ok in H3.
  destruct (shr_m r2); [done| |lia].
  destruct (Z.leb_spec e2 (1024 - 53)); [done|lia].
Qed.

Lemma iter_xO p d : Z.pos (Pos.iter xO p d) = Z.pos p * 2 ^ Z.pos d.
Proof.
  induction d as [|d IH] using Pos.peano_ind; [simpl; lia|].
  rewrite Pos.iter_succ, Pos2Z.inj_succ, Z.pow_succ_r, Pos2Z.inj_xO, IH by lia. lia.
Qed.

Lemma of_int_finite i : 0 ≤ i < 2 ^ 63 → is_finite (of_int i) = true.
Proof.
  intros Hi. destruct i as [|p|p]; [done| |lia].
  unfold of_int, binary_normalize, binary_round, shl_align.
  pose proof (Zdigits2_le (Z.pos p) 63 ltac:(lia) ltac:(lia) ltac:(lia)) as Hd. simpl in Hd.
  unfold fexp, emin. destruct (_ - 0) as [|d|d] eqn:Hn; cbn beta iota.
  1,2: by apply (binary_round_aux_finite _ _ _ 63).
  apply (binary_round_aux_finite _ _ _ 126); [|lia|lia|lia].
  rewrite iter_xO. assert (2 ^ Z.pos d ≤ 2 ^ 63) by (apply Z.pow_le_mono_r; lia). nia.
Qed.
End rounding.

(** A finite non-negative bound that is not exceeded bounds a finite value. *)
Lemma within_bound x m :
  nonneg x = true → is_finite m = true → fltb m x = false → is_finite x = true.
Proof. destruct x as [[]|[]| |[] ? ?], m as [[]|[]| |[] ? ?]; done. Qed.
