(* ===== verification/Policy.v ===== *)
(** * Step policies and retry delays: flow/policy.go and the delay functions and
    policy validation of flow/run.go

    Durations are [int64] nanoseconds; [wrap64] marks every operation that could
    leave that range.  The jitter is the value [rand.Int63n] returned. *)

From S2P Require Import Prelude GoError GoStrings Float64 Classify.

(** [Resource]: a unit price is a binary64, nil when unknown. *)
Record Resource := MkResource {
  r_Name : string;
  r_Ceiling : Z;
  r_Budget : Z;
  r_UnitUSD : option f64;
}.

(** [FailureMode] is an [int]; other values are refused by [validatePolicy]. *)
Inductive FailureMode := FailFast | Quarantine | Skip | OtherMode (n : Z).

#[export] Instance FailureMode_eq_dec : EqDecision FailureMode.
Proof. solve_decision. Defined.

Definition mode_String (mode : FailureMode) : string :=
  match mode with
  | FailFast => "fail-fast"
  | Quarantine => "quarantine"
  | Skip => "skip"
  | OtherMode _ => "unknown"
  end.

Definition mode_int (mode : FailureMode) : Z :=
  match mode with FailFast => 0 | Quarantine => 1 | Skip => 2 | OtherMode n => n end.

Record Backoff := MkBackoff { Base : Z; Cap : Z }.
Record RetrySpec := MkRetrySpec { Attempts : Z; retry_backoff : Backoff; Class : option Classifier }.
Record Policy := MkPolicy {
  Workers : Z;
  Admission : list Resource;
  Retry : RetrySpec;
  OnError : FailureMode;
}.

Definition Second : Z := 10 ^ 9.
Definition Minute : Z := 60 * Second.

Definition withDefaults (b : Backoff) : Backoff :=
  MkBackoff (if Base b <=? 0 then 2 * Second else Base b)
            (if Cap b <=? 0 then Minute else Cap b).

(** [retryDelay]: [jitter] stands for [rand.Int63n(int64(delay/2) + 1)]. *)
Definition clamp_delay (delay maximum : Z) : Z :=
  let delay := if delay <? 0 then 0 else delay in
  if maximum <? delay then maximum else delay.

Definition jitter_bound (delay maximum : Z) : Z :=
  Z.quot (clamp_delay delay maximum) 2 +! 1.

Definition retryDelay (jitter : Z) (delay maximum : Z) : Z :=
  if maximum <=? 0 then 0 else
  let delay := clamp_delay delay maximum in
  if (maximum -! jitter) <=? delay then maximum else delay +! jitter.

Definition nextRetryDelay (delay maximum : Z) : Z :=
  if maximum <=? 0 then 0 else
  if maximum <=? delay then maximum else
  if delay <=? 0 then 0 else
  if (maximum -! delay) <? delay then maximum else delay *! 2.

(** The normalizations of [newTypedRunner] and [runBulk]. *)
Definition effective_attempts (p : Policy) : Z :=
  if Attempts (Retry p) <? 1 then 1 else Attempts (Retry p).
Definition effective_workers (p : Policy) : Z := if Workers p <? 1 then 1 else Workers p.
Definition effective_classifier (p : Policy) : Classifier :=
  default DefaultClassifier (Class (Retry p)).

(** The duplicate scan of [validatePolicy], over trimmed names. *)
Fixpoint check_admission (step : string) (seen : gset string) (rs : list Resource) : res unit :=
  match rs with
  | [] => Ok tt
  | r :: rs =>
      let name := TrimSpace (r_Name r) in
      if decide (name ∈ seen)
      then Err (Errorf "step %q declares admission resource %q more than once"
                  [ArgStr step; ArgStr name])
      else check_admission step ({[name]} ∪ seen) rs
  end.

Definition validatePolicy (step : string) (policy : Policy) : res unit :=
  if Attempts (Retry policy) <? 0 then
    Err (Errorf "step %q retry attempts must not be negative" [ArgStr step]) else
  if (Base (retry_backoff (Retry policy)) <? 0) || (Cap (retry_backoff (Retry policy)) <? 0) then
    Err (Errorf "step %q retry backoff durations must not be negative" [ArgStr step]) else
  match OnError policy with
  | OtherMode n => Err (Errorf "step %q has unknown failure mode %d" [ArgStr step; ArgInt n])
  | _ => check_admission step ∅ (Admission policy)
  end.

(** ** Delays *)

Section delays.
Implicit Types delay maximum jitter : Z.

Lemma clamp_delay_range delay maximum :
  0 < maximum → 0 ≤ clamp_delay delay maximum ≤ maximum.
Proof. intros. unfold clamp_delay. repeat case_match; lia. Qed.

(** C40: The jittered delay never overflows and stays in bounds: for every pair
    of 64-bit durations with a positive cap the argument of [rand.Int63n] is
    positive, and for every jitter it can return the delay is at least the
    clamped base delay, at most half as much again, and never above the cap; a
    cap of zero or less means no delay. *)
Theorem retryDelay_bounds delay maximum :
  in64 delay → in64 maximum →
  (maximum ≤ 0 → ∀ jitter, retryDelay jitter delay maximum = 0) ∧
  (0 < maximum →
     0 < jitter_bound delay maximum ∧
     ∀ jitter, 0 ≤ jitter < jitter_bound delay maximum →
       clamp_delay delay maximum ≤ retryDelay jitter delay maximum ≤
       Z.min maximum (clamp_delay delay maximum + Z.quot (clamp_delay delay maximum) 2)).
Proof.
  intros Hd Hm. split.
  { intros Hmax jitter. unfold retryDelay. by replace (maximum <=? 0) with true by lia. }
  intros Hmax.
  pose proof (clamp_delay_range delay maximum Hmax) as Hc.
  unfold jitter_bound, retryDelay. replace (maximum <=? 0) with false by lia.
  set (d := clamp_delay delay maximum) in *.
  pose proof (Z.quot_div_nonneg d 2 ltac:(lia) ltac:(lia)) as ->.
  pose proof (Z.div_mod d 2 ltac:(lia)). pose proof (Z.mod_pos_bound d 2 ltac:(lia)).
  unfold in64, min64, max64 in *.
  rewrite (wrap64_id (d / 2 + 1)) by (unfold in64, min64, max64; lia).
  split; [lia|]. intros jitter Hj.
  rewrite (wrap64_id (maximum - jitter)) by (unfold in64, min64, max64; lia).
  destruct (Z.leb_spec (maximum - jitter) d); [lia|].
  rewrite wrap64_id by (unfold in64, min64, max64; lia). lia.
Qed.

Lemma retryDelay_bounds_witness :
  2000 ≤ retryDelay 700 2000 2500 ≤ Z.min 2500 3000.
Proof.
  apply (retryDelay_bounds 2000 2500); vm_compute; intuition discriminate.
Defined.

Lemma nextRetryDelay_spec delay maximum :
  in64 delay → in64 maximum → 0 < delay → 0 < maximum →
  nextRetryDelay delay maximum = Z.min maximum (2 * delay).
Proof.
  unfold in64, min64, max64. intros Hd Hm Hpos Hmax. unfold nextRetryDelay.
  replace (maximum <=? 0) with false by lia. replace (delay <=? 0) with false by lia.
  destruct (Z.leb_spec maximum delay); [lia|].
  rewrite !wrap64_id by (unfold in64, min64, max64; lia).
  destruct (Z.ltb_spec (maximum - delay) delay); [lia|].
  rewrite wrap64_id by (unfold in64, min64, max64; lia). lia.
Qed.

(** The base delay before the [n+1]-th retry, as the retry loop updates it. *)
Fixpoint delay_after (b : Backoff) (n : nat) : Z :=
  match n with
  | O => Base b
  | S n => nextRetryDelay (delay_after b n) (Cap b)
  end.

(** Exponential backoff with a cap, exactly: with the configured or default
    backoff the delay before retry number [n+1] is the base doubled [n] times,
    cut at the cap, for every [n] and all 64-bit settings, with no overflow
    along the way. *)
Theorem backoff_doubles (b : Backoff) n :
  in64 (Base b) → in64 (Cap b) →
  let d := withDefaults b in
  0 < Base d ∧ 0 < Cap d ∧
  clamp_delay (delay_after d n) (Cap d) = Z.min (Cap d) (Base d * 2 ^ Z.of_nat n).
Proof.
  intros Hb Hc d.
  assert (0 < Base d ≤ max64 ∧ 0 < Cap d ≤ max64) as [HB HC].
  { unfold in64, min64, max64 in *. unfold d, withDefaults, Minute, Second. simpl.
    destruct (Z.leb_spec (Base b) 0), (Z.leb_spec (Cap b) 0); lia. }
  split; [lia|]. split; [lia|]. clearbody d. clear Hb Hc.
  assert (0 < delay_after d n ≤ max64 ∧
          (delay_after d n = Base d * 2 ^ Z.of_nat n ∨
           Cap d = delay_after d n ∧ Cap d ≤ Base d * 2 ^ Z.of_nat n)) as [Hr Hd].
  { induction n as [|n [Hr IH]]; [simpl; lia|].
    cbn [delay_after]. rewrite nextRetryDelay_spec by (unfold in64, min64, max64 in *; lia).
    rewrite Nat2Z.inj_succ, Z.pow_succ_r by lia. lia. }
  unfold clamp_delay. replace (delay_after d n <? 0) with false by lia.
  destruct (Z.ltb_spec (Cap d) (delay_after d n)); lia.
Qed.

Lemma backoff_doubles_witness :
  clamp_delay (delay_after (withDefaults (MkBackoff 0 0)) 4) Minute = 32 * Second.
Proof.
  destruct (backoff_doubles (MkBackoff 0 0) 4) as (_ & _ & H);
    [split; vm_compute; discriminate|split; vm_compute; discriminate|].
  exact H.
Defined.
End delays.

(** ** Validation *)

Lemma check_admission_ok step seen rs :
  check_admission step seen rs = Ok tt ↔
  NoDup (TrimSpace ∘ r_Name <$> rs) ∧ ∀ r, r ∈ rs → TrimSpace (r_Name r) ∉ seen.
Proof.
  revert seen. induction rs as [|r rs IH]; intros seen; simpl.
  - split; [|done]. intros _. split; [constructor|]. set_solver.
  - case_decide as Hin; [split; [done|]; intros [_ H]; specialize (H r); set_solver|].
    rewrite IH, NoDup_cons, list_elem_of_fmap. split.
    + intros [Hnd H]. split_and!; [|done|].
      * intros (r' & Heq & Hr'). apply (H r' Hr'). set_solver.
      * intros r' [->|Hr']%elem_of_cons; [done|]. specialize (H r' Hr'). set_solver.
    + intros [[Hni Hnd] H]. split; [done|]. intros r' Hr'.
      apply not_elem_of_union. split; [|by apply H; right].
      rewrite elem_of_singleton. intros Heq. apply Hni. by exists r'.
Qed.

(** [validatePolicy] accepts exactly the well-formed policies: non-negative
    attempts and backoff durations, one of the three failure modes, and no two
    admission resources with the same name up to surrounding white space. *)
Theorem validatePolicy_ok step policy :
  validatePolicy step policy = Ok tt ↔
  0 ≤ Attempts (Retry policy) ∧ 0 ≤ Base (retry_backoff (Retry policy)) ∧
  0 ≤ Cap (retry_backoff (Retry policy)) ∧
  (OnError policy = FailFast ∨ OnError policy = Quarantine ∨ OnError policy = Skip) ∧
  NoDup (TrimSpace ∘ r_Name <$> Admission policy).
Proof.
  unfold validatePolicy.
  destruct (Z.ltb_spec (Attempts (Retry policy)) 0); [split; [done|lia]|].
  destruct (Z.ltb_spec (Base (retry_backoff (Retry policy))) 0); [split; [done|lia]|].
  destruct (Z.ltb_spec (Cap (retry_backoff (Retry policy))) 0); [split; [done|lia]|]. simpl.
  pose proof (check_admission_ok step ∅ (Admission policy)) as Hadm.
  assert ((∀ r, r ∈ Admission policy → TrimSpace (r_Name r) ∉ (∅ : gset string)) ↔ True)
    as Hnone by set_solver.
  rewrite Hnone in Hadm.
  destruct (OnError policy); rewrite ?Hadm; naive_solver lia.
Qed.
