(* ===== verification/ResourcePlan.v ===== *)
(** * Resource plans: execution/resource_plan.go

    [ValidateResourcePlans] walks the plans in order with the set of names seen
    so far and the preflight accumulated so far; [NewResourceBudgets] allocates
    one budget per plan and chains it with the resource's rate limiter. *)

From S2P Require Import Prelude GoError GoStrings Float64 Go Limits Budget Rate Chain.

Record ResourcePlan := MkPlan {
  Name : string;
  Ceiling : Z;
  plan_Budget : Z;
  UnitUSD : option f64;
}.

Record CostPreflight := MkPreflight { EstimatedUSD : f64; MissingPrices : list string }.

(** The per-plan checks shared by the loop, in order. *)
Definition check_plan (allowPartial : bool) (plan : ResourcePlan) : res unit :=
  if Ceiling plan <? 0 then
    Err (Errorf "resource %q ceiling must be non-negative" [ArgStr (Name plan)]) else
  if plan_Budget plan <? 0 then
    Err (Errorf "resource %q budget must be non-negative" [ArgStr (Name plan)]) else
  if negb allowPartial && (plan_Budget plan <? Ceiling plan) then
    Err (Errorf "resource %q budget %d cannot cover ceiling %d"
           [ArgStr (Name plan); ArgInt (plan_Budget plan); ArgInt (Ceiling plan)]) else
  match UnitUSD plan with
  | Some price =>
      if bad_amount price then
        Err (Errorf "resource %q unit price must be finite and non-negative" [ArgStr (Name plan)])
      else Ok tt
  | None => Ok tt
  end.

(** What one accepted plan adds to the preflight. *)
Definition add_cost (plan : ResourcePlan) (p : CostPreflight) : CostPreflight :=
  if Ceiling plan =? 0 then p else
  match UnitUSD plan with
  | None => MkPreflight (EstimatedUSD p) (MissingPrices p ++ [Name plan])
  | Some price =>
      MkPreflight (fadd (EstimatedUSD p) (fmul (of_int (Ceiling plan)) price)) (MissingPrices p)
  end.

Fixpoint validate_plans (allowPartial : bool) (index : Z) (seen : gset string)
    (p : CostPreflight) (plans : list ResourcePlan) : CostPreflight * res unit :=
  match plans with
  | [] => (p, Ok tt)
  | plan :: plans =>
      if decide (TrimSpace (Name plan) = "") then
        (p, Err (Errorf "resource plan %d: name is required" [ArgInt index])) else
      if decide (Name plan ∈ seen) then
        (p, Err (Errorf "resource plan %q is duplicated" [ArgStr (Name plan)])) else
      match check_plan allowPartial plan with
      | Err e => (p, Err e)
      | Ok _ =>
          validate_plans allowPartial (index + 1) ({[Name plan]} ∪ seen) (add_cost plan p) plans
      end
  end.

(** The preflight is returned with the error. *)
Definition ValidateResourcePlans (plans : list ResourcePlan) (maximumUSD : f64)
    (allowUnpriced allowPartial : bool) : CostPreflight * res unit :=
  let preflight := MkPreflight fzero [] in
  if bad_amount maximumUSD then
    (preflight, Err (New "maximum USD must be finite and non-negative")) else
  match validate_plans allowPartial 0 ∅ preflight plans with
  | (p, Err e) => (p, Err e)
  | (p, Ok _) =>
      if negb (bool_decide (MissingPrices p = [])) && negb allowUnpriced then
        (p, Err (Errorf "pricing unavailable for %s" [ArgStr (Join_strings ", " (MissingPrices p))]))
      else if fltb maximumUSD (EstimatedUSD p) then
        (p, Err (Errorf "estimated provider cost %.6f exceeds maximum USD %.6f"
                   [ArgFloat (EstimatedUSD p); ArgFloat maximumUSD]))
      else (p, Ok tt)
  end.

(** ** Specification *)

(** A well-formed plan. *)
Definition plan_ok (allowPartial : bool) (plan : ResourcePlan) : Prop :=
  TrimSpace (Name plan) ≠ "" ∧ 0 ≤ Ceiling plan ∧ 0 ≤ plan_Budget plan ∧
  (allowPartial = false → Ceiling plan ≤ plan_Budget plan) ∧
  ∀ price, UnitUSD plan = Some price → is_finite price = true ∧ nonneg price = true.

(** The resources that will be spent at an unknown price, in order. *)
Definition unpriced (plans : list ResourcePlan) : list string :=
  omap (λ plan, if Ceiling plan =? 0 then None else
                match UnitUSD plan with None => Some (Name plan) | Some _ => None end) plans.

(** The rounded sum of the priced ceilings, in order. *)
Definition estimate (x : f64) (plans : list ResourcePlan) : f64 :=
  foldl (λ x plan, if Ceiling plan =? 0 then x else
                   match UnitUSD plan with
                   | Some price => fadd x (fmul (of_int (Ceiling plan)) price)
                   | None => x
                   end) x plans.

Section validate.
Implicit Types (plan : ResourcePlan) (plans : list ResourcePlan).

Lemma check_plan_ok allowPartial plan :
  TrimSpace (Name plan) ≠ "" →
  check_plan allowPartial plan = Ok tt ↔ plan_ok allowPartial plan.
Proof.
  intros Hname. unfold check_plan, plan_ok.
  destruct (Z.ltb_spec (Ceiling plan) 0); [split; [done|lia]|].
  destruct (Z.ltb_spec (plan_Budget plan) 0); [split; [done|lia]|].
  destruct (Z.ltb_spec (plan_Budget plan) (Ceiling plan)), allowPartial; simpl;
    try (split; [done|]; intros (_ & _ & _ & Hcov & _); specialize (Hcov eq_refl); lia).
  all: destruct (UnitUSD plan) as [price|]; [|split; [intros _|done]; split_and!; (done || lia)].
  all: pose proof (bad_amount_spec price) as Hbad; destruct (bad_amount price);
    split; [done|intros (_ & _ & _ & _ & Hp); apply Hbad in Hp; done
           |intros _; split_and!; try done; try lia; intros ? [= <-]; by apply Hbad|done].
Qed.

Lemma validate_plans_spec allowPartial index seen p plans q :
  validate_plans allowPartial index seen p plans = (q, Ok tt) ↔
  Forall (plan_ok allowPartial) plans ∧ NoDup (Name <$> plans) ∧
  (∀ plan, plan ∈ plans → Name plan ∉ seen) ∧
  q = MkPreflight (estimate (EstimatedUSD p) plans) (MissingPrices p ++ unpriced plans).
Proof.
  revert index seen p. induction plans as [|plan plans IH]; intros index seen p; simpl.
  { rewrite app_nil_r. split.
    - intros [= <-]. destruct p. split_and!; [constructor|constructor|set_solver|done].
    - intros (_ & _ & _ & ->). by destruct p. }
  case_decide as Hname.
  { split; [done|]. intros ([[]]%Forall_cons & _). done. }
  case_decide as Hseen.
  { split; [done|]. intros (_ & _ & H & _). exfalso. apply (H plan); set_solver. }
  pose proof (check_plan_ok allowPartial plan Hname) as Hchk.
  destruct (check_plan allowPartial plan) as [[]|e].
  2: { split; [done|]. intros ([Hp _]%Forall_cons & _). by apply Hchk in Hp. }
  rewrite IH, Forall_cons, NoDup_cons, list_elem_of_fmap.
  assert (MkPreflight (estimate (EstimatedUSD (add_cost plan p)) plans)
            (MissingPrices (add_cost plan p) ++ unpriced plans) =
          MkPreflight (estimate (EstimatedUSD p) (plan :: plans))
            (MissingPrices p ++ unpriced (plan :: plans))) as Hq.
  { unfold add_cost, estimate, unpriced. simpl.
    destruct (Ceiling plan =? 0); [done|]. destruct (UnitUSD plan); simpl; [done|].
    by rewrite <-app_assoc. }
  simpl in Hq. rewrite Hq. split.
  - intros (Hall & Hnd & H & ->). split_and!; try done; [by apply Hchk| |].
    + intros (plan' & Heq & Hin). specialize (H plan' Hin). set_solver.
    + intros plan' [->|Hin]%elem_of_cons; [done|]. specialize (H plan' Hin). set_solver.
  - intros ([_ Hall] & [Hni Hnd] & H & ->). split_and!; try done.
    intros plan' Hin [Heq%elem_of_singleton|Hs]%elem_of_union; [apply Hni; by exists plan'|].
    apply (H plan'); [by right|done].
Qed.

Lemma estimate_nonneg allowPartial x plans :
  nonneg x = true → Forall (plan_ok allowPartial) plans →
  (∀ plan, plan ∈ plans → Ceiling plan < 2 ^ 63) →
  nonneg (estimate x plans) = true.
Proof.
  intros Hx Hall. revert x Hx. induction Hall as [|plan plans Hp _ IH]; intros x Hx Hmax; [done|].
  simpl. apply IH; [|set_solver]. destruct Hp as (_ & Hc & _ & _ & Hprice).
  destruct (Z.eqb_spec (Ceiling plan) 0); [done|].
  destruct (UnitUSD plan) as [price|]; [|done].
  destruct (Hprice price eq_refl).
  assert (Ceiling plan < 2 ^ 63) by (apply Hmax; by left).
  apply fadd_nonneg; [done|].
  apply fmul_nonneg; [by apply of_int_finite|done|by apply of_int_nonneg|done].
Qed.

(** When the whole validation succeeds. *)
Lemma validate_accepts plans maximumUSD allowUnpriced allowPartial p :
  ValidateResourcePlans plans maximumUSD allowUnpriced allowPartial = (p, Ok tt) ↔
  is_finite maximumUSD = true ∧ nonneg maximumUSD = true ∧
  Forall (plan_ok allowPartial) plans ∧ NoDup (Name <$> plans) ∧
  p = MkPreflight (estimate fzero plans) (unpriced plans) ∧
  (allowUnpriced = false → unpriced plans = []) ∧
  fltb maximumUSD (estimate fzero plans) = false.
Proof.
  unfold ValidateResourcePlans. pose proof (bad_amount_spec maximumUSD) as Hmax.
  destruct (bad_amount maximumUSD).
  { split; [done|]. intros (? & ? & _). by destruct Hmax as [_ Hmax]; discriminate Hmax. }
  destruct Hmax as [[Hfin Hnn] _]; [done|].
  pose proof (validate_plans_spec allowPartial 0 ∅ (MkPreflight fzero []) plans) as Hspec.
  destruct (validate_plans _ _ _ _ _) as [q [[]|e]].
  2: { split; [done|]. intros (_ & _ & Hall & Hnd & _).
       destruct (Hspec (MkPreflight (estimate fzero plans) (unpriced plans))) as [_ H].
       discriminate H. split_and!; [done|done|set_solver|done]. }
  destruct (Hspec q) as [[Hall [Hnd [_ ->]]] _]; [done|]. simpl.
  case_bool_decide as Hun; [|destruct allowUnpriced]; simpl;
    destruct (fltb maximumUSD _) eqn:Hle; naive_solver.
Qed.

(** C39: [ValidateResourcePlans] accepts exactly the well-formed plans: a finite
    non-negative maximum, every plan named, distinct, non-negative, covered
    unless partial runs are allowed and finitely priced, no unpriced ceiling
    unless allowed, and the estimate within the maximum.  What it reports is
    the estimate of the priced ceilings and the unpriced names, in order. *)
Theorem ValidateResourcePlans_spec plans maximumUSD allowUnpriced allowPartial p :
  ValidateResourcePlans plans maximumUSD allowUnpriced allowPartial = (p, Ok tt) ↔
  is_finite maximumUSD = true ∧ nonneg maximumUSD = true ∧
  Forall (plan_ok allowPartial) plans ∧ NoDup (Name <$> plans) ∧
  p = MkPreflight (estimate fzero plans) (unpriced plans) ∧
  (allowUnpriced = false → unpriced plans = []) ∧
  fltb maximumUSD (estimate fzero plans) = false.
Proof. apply validate_accepts. Qed.

(** An accepted plan has a finite, non-negative estimate: no sequence of
    additions and products overflowed or cancelled, and it does not exceed
    the maximum. *)
Theorem ValidateResourcePlans_bounded plans maximumUSD allowUnpriced allowPartial p :
  (∀ plan, plan ∈ plans → in64 (Ceiling plan)) →
  ValidateResourcePlans plans maximumUSD allowUnpriced allowPartial = (p, Ok tt) →
  is_finite (EstimatedUSD p) = true ∧ nonneg (EstimatedUSD p) = true ∧
  fltb maximumUSD (EstimatedUSD p) = false.
Proof.
  intros H64 (Hfin & Hnn & Hall & _ & -> & _ & Hle)%validate_accepts. simpl.
  assert (nonneg (estimate fzero plans) = true) as Hpos.
  { eapply estimate_nonneg; [done|done|]. intros plan Hin. specialize (H64 plan Hin).
    unfold in64, max64 in H64. lia. }
  split_and!; [|done|done]. by eapply within_bound.
Qed.
End validate.

(** ** NewResourceBudgets *)

Section budgets.
Context {U : Type}.
Implicit Types (w : limits U) (plans : list ResourcePlan).

(** A nil interface value is [None]. *)
Definition rate_map := gmap string (option (Limiter U)).
Definition resources : Type := gmap string nat * gmap string (Limiter U).

Fixpoint create_budgets (rates : rate_map) (index : Z) (plans : list ResourcePlan)
    (made : resources) : prog (limits U) (res resources) :=
  match plans with
  | [] => mret (Ok made)
  | plan :: plans =>
      if decide (TrimSpace (Name plan) = "") then
        mret (Err (Errorf "resource plan %d: name is required" [ArgInt index])) else
      if decide (is_Some (made.1 !! Name plan)) then
        mret (Err (Errorf "resource plan %q is duplicated" [ArgStr (Name plan)])) else
      got ← NewBudget (plan_Budget plan);
      match got with
      | Err err =>
          mret (Err (Errorf "create resource %q budget: %w" [ArgStr (Name plan); ArgWrap err]))
      | Ok budget =>
          create_budgets rates (index + 1) plans
            (<[Name plan := budget]> made.1,
             <[Name plan := Chain [Some (LBudget (Some budget)); mjoin (rates !! Name plan)]]> made.2)
      end
  end.

Definition unplanned (name : string) : error :=
  Errorf "rate limiter has no resource plan %q" [ArgStr name].

(** Go ranges over a map in any order, so any unplanned rate may be reported. *)
Definition NewResourceBudgets (plans : list ResourcePlan) (rates : rate_map)
    : prog (limits U) (res resources) :=
  made ←? create_budgets rates 0 plans (∅, ∅);
  await (λ w, match elements (dom rates ∖ dom made.1) with
              | [] => [(w, Ok made)]
              | names => (λ name, (w, Err (unplanned name))) <$> names
              end).

Definition budget_of (plan : ResourcePlan) : Limits.budget :=
  Budget (plan_Budget plan) (plan_Budget plan).
Definition limiter_of (rates : rate_map) (plan : ResourcePlan) (b : nat) : Limiter U :=
  Chain [Some (LBudget (Some b)); mjoin (rates !! Name plan)].

Definition fundable (plan : ResourcePlan) : Prop :=
  TrimSpace (Name plan) ≠ "" ∧ 0 ≤ plan_Budget plan.

(** The maps after creating [plans] with budgets numbered from [b]. *)
Fixpoint created (rates : rate_map) (b : nat) plans (made : resources) : resources :=
  match plans with
  | [] => made
  | plan :: plans =>
      created rates (S b) plans
        (<[Name plan := b]> made.1, <[Name plan := limiter_of rates plan b]> made.2)
  end.

Definition add_budgets (xs : list Limits.budget) w : limits U :=
  Limits (lw_ctxs w) (lw_budgets w ++ xs) (lw_buckets w) (lw_flags w) (lw_user w).

Lemma create_budgets_spec rates plans index made w w' r :
  (w', r) ∈ outcomes (create_budgets rates index plans made) w →
  match r with
  | Ok made' =>
      Forall fundable plans ∧ NoDup (Name <$> plans) ∧
      (∀ plan, plan ∈ plans → Name plan ∉ dom made.1) ∧
      w' = add_budgets (budget_of <$> plans) w ∧
      made' = created rates (length (lw_budgets w)) plans made
  | Err _ => ¬ (Forall fundable plans ∧ NoDup (Name <$> plans) ∧
                ∀ plan, plan ∈ plans → Name plan ∉ dom made.1)
  end.
Proof.
  revert index made w. induction plans as [|plan plans IH]; intros index made w; cbn [create_budgets].
  { intros [= -> ->]%list_elem_of_singleton. split_and!; [constructor|constructor|set_solver| |done].
    unfold add_budgets. simpl. rewrite app_nil_r. by destruct w. }
  case_decide as Hname.
  { intros [= -> ->]%list_elem_of_singleton. intros ([[]]%Forall_cons & _). done. }
  case_decide as Hdup.
  { intros [= -> ->]%list_elem_of_singleton. intros (_ & _ & H).
    apply (H plan); [by left|by apply elem_of_dom]. }
  unfold NewBudget. destruct (Z.ltb_spec (plan_Budget plan) 0); alone.
  { intros [= -> ->]%list_elem_of_singleton. intros ([[]]%Forall_cons & _). lia. }
  intros Hin%IH. apply not_elem_of_dom in Hdup || apply eq_None_not_Some in Hdup.
  simpl in Hin. rewrite length_app in Hin. simpl in Hin. rewrite Nat.add_1_r in Hin.
  rewrite dom_insert_L in Hin. destruct r as [made'|e].
  - destruct Hin as (Hall & Hnd & Hfresh & -> & ->). split_and!.
    + by constructor.
    + apply NoDup_cons. split; [|done]. intros (p & Heq & Hp)%list_elem_of_fmap.
      specialize (Hfresh p Hp). set_solver.
    + intros p [->|Hp]%elem_of_cons; [by apply not_elem_of_dom|]. specialize (Hfresh p Hp). set_solver.
    + unfold add_budgets. simpl. by rewrite <-app_assoc.
    + done.
  - intros ([_ Hall]%Forall_cons & [Hni Hnd]%NoDup_cons & Hfresh). apply Hin.
    split_and!; [done|done|]. intros p Hp. rewrite list_elem_of_fmap in Hni.
    assert (Name p ∉ dom made.1) by (apply Hfresh; by right).
    assert (Name p ≠ Name plan) by naive_solver. set_solver.
Qed.

Lemma created_keep rates b plans made name :
  name ∉ Name <$> plans →
  (created rates b plans made).1 !! name = made.1 !! name ∧
  (created rates b plans made).2 !! name = made.2 !! name.
Proof.
  revert b made. induction plans as [|plan plans IH]; intros b made Hni; [done|].
  cbn [created]. rewrite fmap_cons, not_elem_of_cons in Hni. destruct Hni as [Hne Hni].
  destruct (IH (S b) (<[Name plan := b]> made.1, <[Name plan := limiter_of rates plan b]> made.2) Hni)
    as [-> ->]. simpl. by rewrite !lookup_insert_ne.
Qed.

Lemma created_lookup rates b plans made i plan :
  NoDup (Name <$> plans) → plans !! i = Some plan →
  (created rates b plans made).1 !! Name plan = Some (b + i)%nat ∧
  (created rates b plans made).2 !! Name plan = Some (limiter_of rates plan (b + i)).
Proof.
  revert b made i. induction plans as [|p plans IH]; intros b made i Hnd Hi; [done|].
  rewrite fmap_cons, NoDup_cons in Hnd. destruct Hnd as [Hni Hnd]. cbn [created].
  destruct i as [|i]; simplify_eq/=.
  - destruct (created_keep rates (S b) plans
      (<[Name plan := b]> made.1, <[Name plan := limiter_of rates plan b]> made.2) _ Hni) as [-> ->].
    simpl. rewrite !lookup_insert_eq. by rewrite Nat.add_0_r.
  - rewrite Nat.add_succ_r. by apply (IH (S b)).
Qed.

Lemma created_dom rates b plans made :
  dom (created rates b plans made).1 = list_to_set (Name <$> plans) ∪ dom made.1 ∧
  dom (created rates b plans made).2 = list_to_set (Name <$> plans) ∪ dom made.2.
Proof.
  revert b made. induction plans as [|plan plans IH]; intros b made; [set_solver|].
  cbn [created]. destruct (IH (S b) (<[Name plan := b]> made.1, <[Name plan := limiter_of rates plan b]> made.2))
    as [-> ->]. simpl. rewrite !dom_insert_L. set_solver.
Qed.

(** [NewResourceBudgets] succeeds exactly when the plans are named, distinct
    and non-negative and every rate names a plan.  It then allocates one fresh
    budget per plan, holding the planned units, and maps every planned name,
    and no other, to that budget and to a limiter that charges it before the
    resource's rate limiter. *)
Theorem NewResourceBudgets_spec plans (rates : rate_map) w w' r :
  (w', r) ∈ outcomes (NewResourceBudgets plans rates) w →
  match r with
  | Ok (bs, ls) =>
      w' = add_budgets (budget_of <$> plans) w ∧
      dom bs = list_to_set (Name <$> plans) ∧ dom ls = dom bs ∧
      ∀ i plan, plans !! i = Some plan →
        ∃ b, lw_budgets w' !! b = Some (budget_of plan) ∧ b = (length (lw_budgets w) + i)%nat ∧
             bs !! Name plan = Some b ∧ ls !! Name plan = Some (limiter_of rates plan b)
  | Err _ => True
  end ∧
  (is_ok r = true ↔
   Forall fundable plans ∧ NoDup (Name <$> plans) ∧ dom rates ⊆ list_to_set (Name <$> plans)).
Proof.
  unfold NewResourceBudgets. alone.
  rewrite list_elem_of_bind. intros ([w1 got] & Hout & Hcr).
  apply create_budgets_spec in Hcr. destruct got as [made|e].
  2: { apply list_elem_of_singleton in Hout as [= -> ->]. split; [done|]. simpl.
       split; [done|]. intros (Hall & Hnd & _). exfalso. apply Hcr. set_solver. }
  destruct Hcr as (Hall & Hnd & _ & -> & ->). rewrite outcomes_await in Hout.
  destruct (created_dom rates (length (lw_budgets w)) plans (∅, ∅)) as [Hd1 Hd2].
  simpl in Hd1, Hd2. rewrite dom_empty_L, union_empty_r_L in Hd1. rewrite dom_empty_L, union_empty_r_L in Hd2.
  cbn [fst] in Hout. match type of Hout with context [elements ?X] => destruct (elements X) as [|name names] eqn:Hel end.
  - apply elements_empty_iff in Hel. apply list_elem_of_singleton in Hout as [= -> ->].
    rewrite Hd1 in Hel. destruct (created _ _ _ _) as [bs ls] eqn:Hcr. simpl in *. split.
    + split_and!; [done|done|congruence|]. intros i plan Hi.
      destruct (created_lookup rates (length (lw_budgets w)) plans (∅, ∅) i plan Hnd Hi) as [H1 H2].
      rewrite Hcr in H1; rewrite Hcr in H2. exists (length (lw_budgets w) + i)%nat. split_and!; [|done|done|done].
      rewrite lookup_app_r by lia. replace (_ - _)%nat with i by lia. by rewrite list_lookup_fmap, Hi.
    + split; [intros _; split_and!; try done; by apply empty_difference_subseteq|done].
  - change ((w', r) ∈ (λ n, (add_budgets (budget_of <$> plans) w, Err (A := resources) (unplanned n)))
                      <$> (name :: names)) in Hout.
    apply list_elem_of_fmap in Hout as (n & [= -> ->] & Hn). split; [done|]. simpl.
    split; [done|]. intros (_ & _ & Hsub).
    assert (n ∈ elements (dom rates ∖ dom (created rates (length (lw_budgets w)) plans (∅, ∅)).1))
      as Hn' by by rewrite Hel.
    rewrite Hd1 in Hn'. rewrite elem_of_elements, elem_of_difference in Hn'. set_solver.
Qed.
End budgets.

(** ** Concrete plans *)

(** A quarter of a dollar and two dollars. *)
Definition quarter : f64 := S754_finite false 4503599627370496 (-54).
Definition two_dollars : f64 := of_int 2.

Definition judge_plan : ResourcePlan := MkPlan "judge" 8 10 (Some quarter).
Definition embed_plan : ResourcePlan := MkPlan "embed" 0 5 None.

Lemma ValidateResourcePlans_bounded_witness :
  ValidateResourcePlans [judge_plan; embed_plan] two_dollars false false =
    (MkPreflight two_dollars [], Ok tt) ∧
  is_finite two_dollars = true.
Proof.
  assert (ValidateResourcePlans [judge_plan; embed_plan] two_dollars false false =
    (MkPreflight two_dollars [], Ok tt)) as H by (vm_compute; reflexivity).
  split; [exact H|].
  refine (proj1 (ValidateResourcePlans_bounded [judge_plan; embed_plan] two_dollars false false
                   (MkPreflight two_dollars []) _ H)).
  apply Forall_forall. repeat constructor; vm_compute; discriminate.
Defined.

Definition empty_limits : limits unit := Limits (Ctxs ∅ 1) [] [] [] tt.
Definition judge_rates : rate_map (U := unit) := {["judge" := Some (LBucket (Some 0%nat))]}.

Lemma NewResourceBudgets_spec_witness :
  ∃ w' bs ls, (w', Ok (bs, ls)) ∈ outcomes (NewResourceBudgets [judge_plan; embed_plan] judge_rates) empty_limits ∧
    lw_budgets w' = [Budget 10 10; Budget 5 5] ∧ dom ls = dom bs ∧ dom bs = {["judge"; "embed"]}.
Proof.
  destruct (outcomes (NewResourceBudgets [judge_plan; embed_plan] judge_rates) empty_limits)
    as [|[w' [[bs ls]|e]] l] eqn:Ho; [vm_compute in Ho; discriminate Ho| |vm_compute in Ho; discriminate Ho].
  assert ((w', Ok (bs, ls)) ∈ outcomes (NewResourceBudgets [judge_plan; embed_plan] judge_rates) empty_limits)
    as Hin by (rewrite Ho; left).
  exists w', bs, ls. split; [rewrite <-Ho; exact Hin|].
  destruct (NewResourceBudgets_spec [judge_plan; embed_plan] judge_rates empty_limits w' (Ok (bs, ls)) Hin)
    as [(Hw & Hd & Hdl & _) _].
  split; [rewrite Hw; reflexivity|]. split; [exact Hdl|].
  rewrite Hd. vm_compute. reflexivity.
Defined.
