(* ===== verification/RunEnv.v ===== *)
(** * Run-scoped admission: the [runEnv] of flow/run.go

    A run environment maps resource names to one plan, one budget and one
    composed limiter each.  [ensure] validates a batch of declarations against
    prospective copies and commits them only when all pass; [admit] reserves
    every named resource as one transaction.  Environments are heap objects
    shared by every run made with the same [Options], so the world holds a list
    of them and a program names one by its index. *)

From S2P Require Import Prelude GoError GoStrings Float64 Go Limits Budget Rate Chain Policy ResourcePlan.

(** [Preflight]: the monetary gate. *)
Record Preflight := MkGate {
  MaxEstimatedUSD : f64;
  AllowUnpriced : bool;
  AllowPartial : bool;
}.

Record stagePlan := StagePlan { step : string; resource : Resource }.

(** [Resource.plan] *)
Definition resource_plan (r : Resource) : ResourcePlan :=
  MkPlan (r_Name r) (r_Ceiling r) (r_Budget r) (r_UnitUSD r).

(** A zero-valued declaration refers to an earlier one. *)
Definition reference (r : Resource) : bool :=
  (r_Ceiling r =? 0) && (r_Budget r =? 0) && bool_decide (r_UnitUSD r = None).

Definition resourcePlansEqual (left right : ResourcePlan) : bool :=
  if negb (bool_decide (Name left = Name right)) || negb (Ceiling left =? Ceiling right)
     || negb (plan_Budget left =? plan_Budget right) then false else
  match UnitUSD left, UnitUSD right with
  | Some l, Some r => feqb l r
  | None, None => true
  | _, _ => false
  end.

Record runEnv (U : Type) := RunEnv {
  gate : option Preflight;
  plans : gmap string ResourcePlan;
  owners : gmap string string;
  budgets : gmap string nat;
  limiters : gmap string (Limiter U);
  rates : gmap string (option (Limiter U));
  estimatedUSD : f64;
  unpriced_names : list string;
}.
Arguments RunEnv {_} _ _ _ _ _ _ _ _.
Arguments gate {_} _.
Arguments plans {_} _.
Arguments owners {_} _.
Arguments budgets {_} _.
Arguments limiters {_} _.
Arguments rates {_} _.
Arguments estimatedUSD {_} _.
Arguments unpriced_names {_} _.

(** The limiters' world and the run environments. *)
Record envw (U : Type) := EnvW { ew_limits : limits U; ew_envs : list (runEnv U) }.
Arguments EnvW {_} _ _.
Arguments ew_limits {_} _.
Arguments ew_envs {_} _.

Definition set_limits {U} (l : limits U) (w : envw U) : envw U := EnvW l (ew_envs w).

#[export] Program Instance envw_has_limits U : Has (limits U) (envw U) :=
  {| inside := ew_limits; replace := set_limits |}.
Solve All Obligations with by intros; repeat match goal with w : envw _ |- _ => destruct w end.

(** ** ensure *)

Section ensure.
Context {U : Type}.
Implicit Types (env : runEnv U) (w : envw U) (ps : list stagePlan).

Definition newRunEnv (rates : gmap string (option (Limiter U))) (gate : option Preflight)
    : prog (envw U) nat :=
  atomic (λ w, (EnvW (ew_limits w) (ew_envs w ++ [RunEnv gate ∅ ∅ ∅ ∅ rates fzero []]),
                length (ew_envs w))).

Record pendingPlan := PendingPlan {
  stage : stagePlan;
  pending_budget : nat;
  pending_limiter : Limiter U;
}.

(** The locals of [ensure]; [heap] is the list of all budgets, which
    [NewBudget] extends. *)
Record draft := Draft {
  prospectivePlans : gmap string ResourcePlan;
  prospectiveOwners : gmap string string;
  prospectiveUSD : f64;
  prospectiveUnpriced : list string;
  pending : list pendingPlan;
  heap : list budget;
}.

Definition begin_draft env (h : list budget) : draft :=
  Draft (plans env) (owners env) (estimatedUSD env) (unpriced_names env) [] h.

(** The refusals of one new resource, in order. *)
Definition check_resource (gate : option Preflight) (step : string) (r : Resource) : res unit :=
  let name := r_Name r in
  if r_Ceiling r <? 0 then
    Err (Errorf "step %q: resource %q ceiling must be non-negative" [ArgStr step; ArgStr name]) else
  if r_Budget r <? 0 then
    Err (Errorf "step %q: resource %q budget must be non-negative" [ArgStr step; ArgStr name]) else
  if match r_UnitUSD r with Some price => bad_amount price | None => false end then
    Err (Errorf "step %q: resource %q unit price must be finite and non-negative"
           [ArgStr step; ArgStr name]) else
  if match gate with Some g => negb (AllowPartial g) && (r_Budget r <? r_Ceiling r) | None => false end then
    Err (Errorf "step %q: resource %q budget %d cannot cover the stated ceiling of %d calls; raise the budget to at least %d (cache hits are free)"
           [ArgStr step; ArgStr name; ArgInt (r_Budget r); ArgInt (r_Ceiling r); ArgInt (r_Ceiling r)])
  else Ok tt.

Definition price_resource (r : Resource) (usd : f64) (unpriced : list string) : f64 * list string :=
  if 0 <? r_Ceiling r then
    match r_UnitUSD r with
    | None => (usd, unpriced ++ [r_Name r])
    | Some price => (fadd usd (fmul (of_int (r_Ceiling r)) price), unpriced)
    end
  else (usd, unpriced).

(** One turn of the declaration loop. *)
Definition declare env (sp : stagePlan) (d : draft) : draft * res unit :=
  let r := resource sp in
  let name := r_Name r in
  if decide (TrimSpace name = "") then
    (d, Err (Errorf "step %q declares an admission resource without a name" [ArgStr (step sp)])) else
  match prospectivePlans d !! name with
  | Some existing =>
      if reference r || resourcePlansEqual existing (resource_plan r) then (d, Ok tt)
      else (d, Err (Errorf "resource %q is declared differently by steps %q and %q"
                      [ArgStr name; ArgStr (default "" (prospectiveOwners d !! name)); ArgStr (step sp)]))
  | None =>
      match check_resource (gate env) (step sp) r with
      | Err e => (d, Err e)
      | Ok _ =>
          let '(usd, unpriced) := price_resource r (prospectiveUSD d) (prospectiveUnpriced d) in
          if r_Budget r <? 0 then
            (d, Err (Errorf "step %q: create resource %q budget: %w"
                       [ArgStr (step sp); ArgStr name; ArgWrap (New "budget total must not be negative")])) else
          let b := length (heap d) in
          (Draft (<[name := resource_plan r]> (prospectivePlans d))
                 (<[name := step sp]> (prospectiveOwners d)) usd unpriced
                 (pending d ++ [PendingPlan sp b (Chain [Some (LBudget (Some b)); mjoin (rates env !! name)])])
                 (heap d ++ [Budget (r_Budget r) (r_Budget r)]), Ok tt)
      end
  end.

Fixpoint declare_all env ps (d : draft) : draft * res unit :=
  match ps with
  | [] => (d, Ok tt)
  | sp :: ps => match declare env sp d with
                | (d, Ok _) => declare_all env ps d
                | (d, Err e) => (d, Err e)
                end
  end.

Definition check_gate (gate : option Preflight) (d : draft) : res unit :=
  match gate with
  | None => Ok tt
  | Some g =>
      if negb (bool_decide (prospectiveUnpriced d = [])) && negb (AllowUnpriced g) then
        Err (Errorf "preflight refused the plans: pricing unavailable for %s"
               [ArgStr (Join_strings ", " (prospectiveUnpriced d))])
      else if fltb (MaxEstimatedUSD g) (prospectiveUSD d) then
        Err (Errorf "preflight refused the plans: estimated provider cost %.6f exceeds maximum USD %.6f"
               [ArgFloat (prospectiveUSD d); ArgFloat (MaxEstimatedUSD g)])
      else Ok tt
  end.

(** The commit loop. *)
Definition register env (a : pendingPlan) : runEnv U :=
  let sp := stage a in
  let name := r_Name (resource sp) in
  RunEnv (gate env) (<[name := resource_plan (resource sp)]> (plans env))
    (<[name := step sp]> (owners env)) (<[name := pending_budget a]> (budgets env))
    (<[name := pending_limiter a]> (limiters env)) (rates env)
    (estimatedUSD env) (unpriced_names env).

Definition commit_draft env (d : draft) : runEnv U :=
  let env := foldl register env (pending d) in
  RunEnv (gate env) (plans env) (owners env) (budgets env) (limiters env) (rates env)
    (prospectiveUSD d) (prospectiveUnpriced d).

(** [ensure] under [env.mutex]; [h] is the list of all budgets. *)
Definition ensure_env env ps (h : list budget) : runEnv U * list budget * res unit :=
  if match gate env with Some g => bad_amount (MaxEstimatedUSD g) | None => false end then
    (env, h, Err (New "preflight maximum USD must be finite and non-negative")) else
  match declare_all env ps (begin_draft env h) with
  | (d, Err e) => (env, heap d, Err e)
  | (d, Ok _) =>
      match check_gate (gate env) d with
      | Err e => (env, heap d, Err e)
      | Ok _ => (commit_draft env d, heap d, Ok tt)
      end
  end.

(** One critical section of [env.mutex]. *)
Definition with_env {X} (e : nat) (f : runEnv U → limits U → runEnv U * limits U * X)
    : prog (envw U) X :=
  await (λ w, match ew_envs w !! e with
              | Some env => [(EnvW (f env (ew_limits w)).1.2
                                   (<[e := (f env (ew_limits w)).1.1]> (ew_envs w)),
                              (f env (ew_limits w)).2)]
              | None => []
              end).

Definition set_heap (h : list budget) (l : limits U) : limits U :=
  Limits (lw_ctxs l) h (lw_buckets l) (lw_flags l) (lw_user l).

Definition ensure (e : nat) ps : prog (envw U) (res unit) :=
  with_env e (λ env l,
    match ensure_env env ps (lw_budgets l) with (env, h, r) => (env, set_heap h l, r) end).
End ensure.

(** ** What a run environment guarantees *)

Section wf.
Context {U : Type}.
Implicit Types (env : runEnv U) (ps : list stagePlan) (h : list budget).

Definition names_of ps : list string := (λ sp, r_Name (resource sp)) <$> ps.

(** An admitted plan. *)
Definition admitted_plan (g : option Preflight) (name : string) (plan : ResourcePlan) : Prop :=
  Name plan = name ∧
  plan_ok (match g with Some g => AllowPartial g | None => true end) plan.

(** Every registered name has one plan, one owner, one budget of its own with
    the planned limit, and the limiter that charges that budget first. *)
Record env_wf h env : Prop := {
  wf_plans name plan : plans env !! name = Some plan → admitted_plan (gate env) name plan;
  wf_owners : dom (owners env) = dom (plans env);
  wf_budgets : dom (budgets env) = dom (plans env);
  wf_limiters name :
    limiters env !! name =
    (λ b, Chain [Some (LBudget (Some b)); mjoin (rates env !! name)]) <$> budgets env !! name;
  wf_heap name b : budgets env !! name = Some b →
    ∃ plan x, plans env !! name = Some plan ∧ h !! b = Some x ∧ limit x = plan_Budget plan;
  wf_inj name1 name2 b : budgets env !! name1 = Some b → budgets env !! name2 = Some b → name1 = name2;
}.

(** The monetary gate holds of everything declared so far. *)
Definition gate_ok env : Prop :=
  ∀ g, gate env = Some g → plans env ≠ ∅ →
  is_finite (MaxEstimatedUSD g) = true ∧ nonneg (MaxEstimatedUSD g) = true ∧
  fltb (MaxEstimatedUSD g) (estimatedUSD env) = false ∧
  (AllowUnpriced g = false → unpriced_names env = []).

(** Nothing registered is lost or changed. *)
Definition env_le env env' : Prop :=
  gate env' = gate env ∧ rates env' = rates env ∧ plans env ⊆ plans env' ∧
  owners env ⊆ owners env' ∧ budgets env ⊆ budgets env' ∧ limiters env ⊆ limiters env'.

#[export] Instance env_le_po : PreOrder env_le.
Proof.
  split; [by repeat split|]. unfold env_le.
  intros e1 e2 e3 (? & ? & ? & ? & ? & ?) (? & ? & ? & ? & ? & ?).
  split_and!; try congruence; by etrans.
Qed.

Lemma check_resource_ok g step r :
  TrimSpace (r_Name r) ≠ "" →
  check_resource g step r = Ok tt ↔ admitted_plan g (r_Name r) (resource_plan r).
Proof.
  intros Hname. unfold check_resource, admitted_plan, plan_ok. simpl.
  destruct (Z.ltb_spec (r_Ceiling r) 0); [split; [done|lia]|].
  destruct (Z.ltb_spec (r_Budget r) 0); [split; [done|lia]|].
  destruct (r_UnitUSD r) as [price|].
  - pose proof (bad_amount_spec price) as Hbad. destruct (bad_amount price).
    { split; [done|]. intros (_ & _ & _ & _ & _ & Hp). by apply Hbad in Hp. }
    destruct Hbad as [Hbad _]. specialize (Hbad eq_refl).
    destruct g as [[m au []]|]; simpl; try (destruct (Z.ltb_spec (r_Budget r) (r_Ceiling r))); naive_solver lia.
  - destruct g as [[m au []]|]; simpl; try (destruct (Z.ltb_spec (r_Budget r) (r_Ceiling r))); naive_solver lia.
Qed.

Lemma env_wf_register h env sp x :
  env_wf h env → TrimSpace (r_Name (resource sp)) ≠ "" →
  check_resource (gate env) (step sp) (resource sp) = Ok tt →
  plans env !! r_Name (resource sp) = None → limit x = r_Budget (resource sp) →
  let a := PendingPlan sp (length h)
    (Chain [Some (LBudget (Some (length h))); mjoin (rates env !! r_Name (resource sp))]) in
  env_wf (h ++ [x]) (register env a) ∧ env_le env (register env a).
Proof.
  intros Hwf Hname Hchk Hnew Hx a. set (name := r_Name (resource sp)) in *.
  assert (budgets env !! name = None) as Hb.
  { apply not_elem_of_dom. rewrite (wf_budgets _ _ Hwf). by apply not_elem_of_dom. }
  assert (owners env !! name = None) as Ho.
  { apply not_elem_of_dom. rewrite (wf_owners _ _ Hwf). by apply not_elem_of_dom. }
  assert (limiters env !! name = None) as Hl by (by rewrite (wf_limiters _ _ Hwf), Hb).
  assert (∀ n b, budgets env !! n = Some b → (b < length h)%nat) as Hlt.
  { intros n b Hn. destruct (wf_heap _ _ Hwf n b Hn) as (? & ? & _ & Hh & _).
    by eapply lookup_lt_Some. }
  split.
  - split; simpl; fold name.
    + intros n plan [[<- <-]|[_ Hp]]%lookup_insert_Some; [by apply check_resource_ok in Hchk|].
      by apply (wf_plans _ _ Hwf).
    + by rewrite !dom_insert_L, (wf_owners _ _ Hwf).
    + by rewrite !dom_insert_L, (wf_budgets _ _ Hwf).
    + intros n. destruct (decide (n = name)) as [->|Hne]; [by rewrite !lookup_insert_eq|].
      rewrite !lookup_insert_ne by done. apply (wf_limiters _ _ Hwf).
    + intros n b [[<- <-]|[Hne Hp]]%lookup_insert_Some.
      * exists (resource_plan (resource sp)), x. rewrite lookup_insert_eq.
        split_and!; [done| |done]. by rewrite lookup_app_r, Nat.sub_diag by lia.
      * destruct (wf_heap _ _ Hwf n b Hp) as (plan & y & Hpl & Hh & Hy). exists plan, y.
        rewrite lookup_insert_ne by done. split_and!; [done| |done]. by apply lookup_app_l_Some.
    + intros n1 n2 b [[<- <-]|[? H1]]%lookup_insert_Some [[<- Heq]|[? H2]]%lookup_insert_Some.
      * done.
      * apply Hlt in H2. lia.
      * subst. apply Hlt in H1. lia.
      * by eapply (wf_inj _ _ Hwf).
  - unfold env_le. simpl. fold name. split_and!; try done; by apply insert_subseteq.
Qed.

Definition pending_plans (d : draft (U := U)) : list ResourcePlan :=
  (λ a, resource_plan (resource (stage a))) <$> pending d.

(** A budget created by this call, full. *)
Definition fresh_budget env h (env' : runEnv U) (h' : list budget) : Prop :=
  ∀ name b, budgets env' !! name = Some b → budgets env !! name = None →
  (length h ≤ b)%nat ∧ ∃ plan, plans env' !! name = Some plan ∧
    h' !! b = Some (Budget (plan_Budget plan) (plan_Budget plan)).

(** The draft's environment, were it committed now. *)
Record draft_ok env h (d : draft) : Prop := {
  draft_heap : h `prefix_of` heap d;
  draft_plans : prospectivePlans d = plans (foldl register env (pending d));
  draft_owners : prospectiveOwners d = owners (foldl register env (pending d));
  draft_wf : env_wf (heap d) (foldl register env (pending d));
  draft_le : env_le env (foldl register env (pending d));
  draft_fresh : fresh_budget env h (foldl register env (pending d)) (heap d);
  draft_usd : prospectiveUSD d = estimate (estimatedUSD env) (pending_plans d);
  draft_unpriced : prospectiveUnpriced d = unpriced_names env ++ unpriced (pending_plans d);
}.

(** A declaration the environment honours. *)
Definition declared (m : gmap string ResourcePlan) (sp : stagePlan) : Prop :=
  ∃ plan, m !! r_Name (resource sp) = Some plan ∧
    (reference (resource sp) = true ∨ resourcePlansEqual plan (resource_plan (resource sp)) = true).

Lemma declared_mono m m' sp : m ⊆ m' → declared m sp → declared m' sp.
Proof. intros Hsub (plan & Hl & Hd). exists plan. split; [|done]. by eapply lookup_weaken. Qed.

Lemma resourcePlansEqual_refl ap plan : plan_ok ap plan → resourcePlansEqual plan plan = true.
Proof.
  intros (_ & _ & _ & _ & Hp). unfold resourcePlansEqual.
  rewrite bool_decide_true, !Z.eqb_refl by done. simpl. destruct (UnitUSD plan) as [p|]; [|done].
  destruct (Hp p eq_refl) as [Hf _]. destruct p as [[]|[]| |[] m e]; try done.
  all: unfold feqb, SFeqb; simpl; by rewrite Z.compare_refl, Pos.compare_cont_refl.
Qed.

Lemma price_resource_spec r usd un :
  0 ≤ r_Ceiling r →
  price_resource r usd un = (estimate usd [resource_plan r], un ++ unpriced [resource_plan r]).
Proof.
  intros Hc. unfold price_resource, estimate, unpriced. simpl.
  destruct (Z.ltb_spec 0 (r_Ceiling r)), (Z.eqb_spec (r_Ceiling r) 0); try lia.
  - destruct (r_UnitUSD r); simpl; by rewrite ?app_nil_r.
  - by rewrite app_nil_r.
Qed.

Lemma declare_spec env h sp d d' r :
  draft_ok env h d → declare env sp d = (d', r) →
  match r with
  | Ok _ =>
      draft_ok env h d' ∧ declared (prospectivePlans d') sp ∧
      prospectivePlans d ⊆ prospectivePlans d' ∧
      dom (prospectivePlans d') = {[r_Name (resource sp)]} ∪ dom (prospectivePlans d) ∧
      (prospectivePlans d !! r_Name (resource sp) = None →
       pending_plans d' = pending_plans d ++ [resource_plan (resource sp)])
  | Err _ => d' = d
  end.
Proof.
  intros Hd. unfold declare. set (name := r_Name (resource sp)).
  case_decide as Hname; [by intros [= <- <-]|].
  destruct (prospectivePlans d !! name) as [plan|] eqn:Hp.
  { destruct (_ || _) eqn:Hsame; [|by intros [= <- <-]]. intros [= <- <-].
    apply orb_true_iff in Hsame. split_and!; [done|by exists plan|done| |done].
    symmetry. apply subseteq_union_1_L, singleton_subseteq_l, elem_of_dom. eauto. }
  pose proof (draft_le _ _ _ Hd) as (Hgate & Hrates & _).
  destruct (check_resource _ _ _) as [[]|e] eqn:Hchk; [|by intros [= <- <-]].
  pose proof (proj1 (check_resource_ok _ _ _ Hname) Hchk) as [_ (_ & Hc & Hb & _)]. simpl in Hc, Hb.
  rewrite price_resource_spec by done.
  destruct (Z.ltb_spec (r_Budget (resource sp)) 0); [lia|]. intros [= <- <-].
  pose proof Hp as Hnew. rewrite (draft_plans _ _ _ Hd) in Hnew.
  rewrite <-Hgate in Hchk.
  destruct (env_wf_register (heap d) _ sp (Budget (r_Budget (resource sp)) (r_Budget (resource sp)))
              (draft_wf _ _ _ Hd) Hname Hchk Hnew eq_refl) as [Hwf Hle].
  rewrite Hrates in Hwf, Hle. fold name in Hwf, Hle.
  split_and!.
  - split; simpl; try rewrite foldl_app; simpl foldl; try done.
    + etrans; [by apply Hd|by eexists].
    + simpl. by rewrite (draft_plans _ _ _ Hd).
    + simpl. by rewrite (draft_owners _ _ _ Hd).
    + etrans; [by apply Hd|done].
    + intros n b Hins Hn. simpl in Hins. fold name in Hins. apply lookup_insert_Some in Hins as [[<- <-]|[Hne Hb']].
      * pose proof (prefix_length _ _ (draft_heap _ _ _ Hd)). split; [done|].
        exists (resource_plan (resource sp)). simpl. fold name. rewrite lookup_insert_eq.
        split; [done|]. by rewrite lookup_app_r, Nat.sub_diag by lia.
      * destruct (draft_fresh _ _ _ Hd n b Hb' Hn) as (Hlen & plan & Hpl & Hh).
        split; [done|]. exists plan. simpl. fold name. rewrite lookup_insert_ne by done.
        split; [done|]. by apply lookup_app_l_Some.
    + rewrite (draft_usd _ _ _ Hd). unfold estimate, pending_plans. simpl.
      by rewrite fmap_app, foldl_app.
    + rewrite (draft_unpriced _ _ _ Hd). unfold unpriced, pending_plans. simpl.
      by rewrite fmap_app, omap_app, <-app_assoc.
  - exists (resource_plan (resource sp)). simpl. fold name. rewrite lookup_insert_eq. split; [done|].
    right. apply check_resource_ok in Hchk as [_ Hok]; [|done]. by eapply resourcePlansEqual_refl.
  - by apply insert_subseteq.
  - simpl. by rewrite dom_insert_L.
  - intros _. unfold pending_plans. simpl. by rewrite fmap_app.
Qed.

Lemma declare_all_spec env h ps d d' r :
  draft_ok env h d → declare_all env ps d = (d', r) →
  draft_ok env h d' ∧ prospectivePlans d ⊆ prospectivePlans d' ∧
  (r = Ok tt → Forall (declared (prospectivePlans d')) ps ∧
     dom (prospectivePlans d') = list_to_set (names_of ps) ∪ dom (prospectivePlans d)).
Proof.
  revert d. induction ps as [|sp ps IH]; intros d Hd; simpl.
  { intros [= <- <-]. split_and!; [done..|]. intros _. split; [constructor|set_solver]. }
  destruct (declare env sp d) as [d1 [[]|e]] eqn:Hdecl;
    pose proof (declare_spec _ _ _ _ _ _ Hd Hdecl) as Hspec; simpl in Hspec.
  2: { subst d1. by intros [= <- <-]. }
  destruct Hspec as (Hd1 & Hsp & Hsub & Hdom & _). intros Hall.
  destruct (IH d1 Hd1 Hall) as (Hd' & Hsub' & Hok). split_and!; [done|by etrans|].
  intros ->. destruct (Hok eq_refl) as [Hps Hdom']. split.
  - constructor; [by eapply declared_mono|done].
  - rewrite Hdom', Hdom. unfold names_of. simpl. set_solver.
Qed.

Lemma begin_draft_ok env h : env_wf h env → draft_ok env h (begin_draft env h).
Proof.
  intros Hwf. split; simpl; try done; [by intros ??? ?; simplify_eq|].
  unfold pending_plans, unpriced. simpl. by rewrite app_nil_r.
Qed.

Lemma foldl_register_gate env l : gate (foldl register env l) = gate env.
Proof. revert env. induction l as [|a l IH]; intros env; [done|]. apply (IH (register env a)). Qed.

(** Refusals and successes of [ensure_env]. *)
Lemma ensure_env_spec env ps h env' h' r :
  env_wf h env → ensure_env env ps h = (env', h', r) →
  h `prefix_of` h' ∧
  match r with
  | Err _ => env' = env
  | Ok _ =>
      env_wf h' env' ∧ env_le env env' ∧ fresh_budget env h env' h' ∧
      Forall (declared (plans env')) ps ∧
      dom (plans env') = list_to_set (names_of ps) ∪ dom (plans env)
  end.
Proof.
  intros Hwf. unfold ensure_env. destruct (match gate env with Some g => _ | None => _ end).
  { by intros [= <- <- <-]. }
  destruct (declare_all _ _ _) as [d rd] eqn:Hall.
  destruct (declare_all_spec _ _ _ _ _ _ (begin_draft_ok _ _ Hwf) Hall) as (Hd & Hsub & Hok).
  destruct rd as [[]|e]; [|intros [= <- <- <-]; split; [by apply Hd|done]].
  destruct (Hok eq_refl) as [Hps Hdom]. rewrite (draft_plans _ _ _ Hd) in Hps, Hdom.
  destruct (check_gate _ _); [|intros [= <- <- <-]; split; [by apply Hd|done]].
  intros [= <- <- <-]. split; [by apply Hd|].
  split_and!; [destruct (draft_wf _ _ _ Hd); by split|by apply Hd|by apply Hd|done|done].
Qed.

(** C20: [ensure] is one all-or-nothing transaction.  A refusal leaves the
    environment as it was and no existing budget changed.  Success registers
    every declared name, each honoured by an equal plan or by being a
    reference, and no other name; earlier plans, owners, budgets and limiters
    stay as they were; each new name gets a budget of its own, created full
    with the planned units, behind a limiter that charges it. *)
Theorem ensure_transactional env ps h env' h' r :
  env_wf h env → ensure_env env ps h = (env', h', r) →
  h `prefix_of` h' ∧
  match r with
  | Err _ => env' = env
  | Ok _ =>
      env_wf h' env' ∧ env_le env env' ∧ fresh_budget env h env' h' ∧
      Forall (declared (plans env')) ps ∧
      dom (plans env') = list_to_set (names_of ps) ∪ dom (plans env)
  end.
Proof. apply ensure_env_spec. Qed.

(** The gate after [ensure_env]. *)
Lemma ensure_env_gate env ps h env' h' r :
  gate_ok env → ensure_env env ps h = (env', h', r) → gate_ok env'.
Proof.
  intros Hgate. unfold ensure_env. destruct (gate env) as [g|] eqn:Hg.
  - destruct (bad_amount (MaxEstimatedUSD g)) eqn:Hbad; [by intros [= <- <- <-]|].
    destruct (declare_all _ _ _) as [d [[]|e]]; [|by intros [= <- <- <-]]. unfold check_gate.
    destruct (_ && _) eqn:Hun; [by intros [= <- <- <-]|].
    destruct (fltb _ _) eqn:Hle; [by intros [= <- <- <-]|]. intros [= <- <- <-].
    intros g' Hg' _. simpl in *. rewrite foldl_register_gate, Hg in Hg'. injection Hg' as <-.
    apply bad_amount_spec in Hbad as [??]. split_and!; try done. intros Hau. rewrite Hau in Hun.
    simpl in Hun. rewrite andb_true_r, negb_false_iff, bool_decide_eq_true in Hun. done.
  - destruct (declare_all _ _ _) as [d [[]|e]]; simpl; [|by intros [= <- <- <-]].
    intros [= <- <- <-] g Hg'. simpl in Hg'. by rewrite foldl_register_gate, Hg in Hg'.
Qed.

(** The environment of [newRunEnv]. *)
Definition fresh_env (g : option Preflight) (rates : gmap string (option (Limiter U))) : runEnv U :=
  RunEnv g ∅ ∅ ∅ ∅ rates fzero [].

Lemma fresh_env_ok h g rates : env_wf h (fresh_env g rates) ∧ gate_ok (fresh_env g rates).
Proof. split; [|done]. by split; simpl; intros; rewrite ?lookup_empty in *; set_solver. Qed.

(** [L] lists the plans of [m] once each, and [usd] and [un] are the estimate and the
    unpriced names of the whole of [L]. *)
Definition accounts (m : gmap string ResourcePlan) (usd : f64) (un : list string)
    (L : list ResourcePlan) : Prop :=
  map_to_list m ≡ₚ (λ p, (Name p, p)) <$> L ∧ usd = estimate fzero L ∧ un = unpriced L.

Lemma accounts_insert m usd un L r :
  0 ≤ r_Ceiling r → m !! r_Name r = None → accounts m usd un L →
  accounts (<[r_Name r := resource_plan r]> m) (price_resource r usd un).1 (price_resource r usd un).2
    (L ++ [resource_plan r]).
Proof.
  intros Hc Hnew (Hm & -> & ->). rewrite price_resource_spec by done. split_and!.
  - rewrite map_to_list_insert, fmap_app, Hm by done. simpl. by rewrite Permutation_cons_append.
  - simpl. unfold estimate. by rewrite foldl_app.
  - unfold unpriced. by rewrite omap_app.
Qed.

(** The draft of a call accounts for everything declared in it and before it. *)
Definition draft_accounts (d : draft (U := U)) : Prop :=
  ∃ L, accounts (prospectivePlans d) (prospectiveUSD d) (prospectiveUnpriced d) L.

Lemma declare_accounts env sp d :
  draft_accounts d → draft_accounts (declare env sp d).1.
Proof.
  intros [L HL]. unfold declare. case_decide as Hname; [by exists L|].
  destruct (prospectivePlans d !! _) as [plan|] eqn:Hp; [by destruct (_ || _); exists L|].
  destruct (check_resource _ _ _) as [[]|e] eqn:Hchk; [|by exists L].
  apply check_resource_ok in Hchk as (_ & _ & Hc & _); [|done].
  pose proof (accounts_insert _ _ _ _ _ Hc Hp HL) as Hins.
  destruct (price_resource _ _ _) as [usd un]. destruct (_ <? _); [by exists L|]. by eexists.
Qed.

Lemma declare_all_accounts env ps d : draft_accounts d → draft_accounts (declare_all env ps d).1.
Proof.
  revert d. induction ps as [|sp ps IH]; intros d Hd; [done|]. cbn [declare_all].
  pose proof (declare_accounts env sp d Hd) as Hd1. destruct (declare env sp d) as [d1 [[]|e]]; [by apply IH|done].
Qed.

(** The plans of a committed draft are its prospective plans. *)
Definition draft_registers env (d : draft) : Prop :=
  prospectivePlans d = plans (foldl register env (pending d)).

Lemma declare_all_registers env ps d : draft_registers env d → draft_registers env (declare_all env ps d).1.
Proof.
  revert d. induction ps as [|sp ps IH]; intros d Hd; [done|]. cbn [declare_all].
  assert (draft_registers env (declare env sp d).1) as Hd1.
  { unfold declare. case_decide; [done|]. destruct (prospectivePlans d !! _); [by destruct (_ || _)|].
    destruct (check_resource _ _ _); [|done]. destruct (price_resource _ _ _). destruct (_ <? _); [done|].
    unfold draft_registers in *. cbn [fst pending prospectivePlans]. by rewrite foldl_app, Hd. }
  destruct (declare env sp d) as [d1 [[]|e]]; [by apply IH|done].
Qed.

Lemma ensure_env_accounts env ps h :
  (∃ L, accounts (plans env) (estimatedUSD env) (unpriced_names env) L) →
  let env' := (ensure_env env ps h).1.1 in
  gate env' = gate env ∧ ∃ L, accounts (plans env') (estimatedUSD env') (unpriced_names env') L.
Proof.
  intros Hacc. unfold ensure_env. destruct (match gate env with Some g => _ | None => _ end); [done|].
  pose proof (declare_all_accounts env ps (begin_draft env h) Hacc) as Hd.
  pose proof (declare_all_registers env ps (begin_draft env h) eq_refl) as Hreg.
  destruct (declare_all _ _ _) as [d [[]|e]]; [|done]. destruct (check_gate _ _); [|done].
  cbn [fst] in *. split; [apply foldl_register_gate|]. destruct Hd as [L HL]. exists L.
  unfold draft_registers in Hreg. by rewrite Hreg in HL.
Qed.

(** The environment after a sequence of calls, each on the budgets [h] of its
    moment, refused or not. *)
Definition after_calls env (calls : list (list stagePlan * list budget)) : runEnv U :=
  foldl (λ env '(ps, h), (ensure_env env ps h).1.1) env calls.

(** C32: The monetary gate cannot be bypassed, in particular not by splitting
    declarations over several calls.  After any sequence of calls of [ensure] on a
    new environment, accepted or refused, over any budgets, there is one list of
    plans, each registered plan once and nothing else, such that the recorded
    estimate is the sum of ceiling times price over the whole list, from zero, and
    the recorded unpriced names are those of the whole list; and when the
    environment has a gate and a plan, the maximum is finite and not negative, that
    total does not exceed it, and no plan is unpriced unless the gate allows it. *)
Theorem ensure_gated g rates calls :
  let env := after_calls (fresh_env g rates) calls in
  ∃ L, map_to_list (plans env) ≡ₚ (λ p, (Name p, p)) <$> L ∧
    estimatedUSD env = estimate fzero L ∧ unpriced_names env = unpriced L ∧
    ∀ limits, g = Some limits → L ≠ [] →
      is_finite (MaxEstimatedUSD limits) = true ∧ nonneg (MaxEstimatedUSD limits) = true ∧
      fltb (MaxEstimatedUSD limits) (estimate fzero L) = false ∧
      (AllowUnpriced limits = false → unpriced L = []).
Proof.
  assert (∀ env, gate_ok env → gate env = g →
    (∃ L, accounts (plans env) (estimatedUSD env) (unpriced_names env) L) →
    let env' := after_calls env calls in
    gate_ok env' ∧ gate env' = g ∧ ∃ L, accounts (plans env') (estimatedUSD env') (unpriced_names env') L) as Hall.
  { induction calls as [|[ps h] calls IH]; intros env Hok Hg Hacc; [done|].
    apply (IH (ensure_env env ps h).1.1).
    - destruct (ensure_env env ps h) as [[env' h'] r] eqn:He. by eapply ensure_env_gate.
    - by rewrite (proj1 (ensure_env_accounts env ps h Hacc)).
    - by apply ensure_env_accounts. }
  intros env. destruct (Hall (fresh_env g rates)) as (Hok & Hg & L & Hm & Husd & Hun);
    [by apply fresh_env_ok; constructor|done|by exists []|].
  fold env in Hok, Hg, Hm, Husd, Hun. exists L. split_and!; [done..|]. intros limits Hl HL.
  rewrite <-Husd, <-Hun. apply Hok; [congruence|]. intros Hempty. rewrite Hempty, map_to_list_empty in Hm.
  symmetry in Hm. apply Permutation_nil_r, fmap_nil_inv in Hm. done.
Qed.

(** Declarations already honoured are accepted without effect. *)
Lemma declare_all_again env d ps :
  Forall (declared (prospectivePlans d)) ps →
  Forall (λ name, TrimSpace name ≠ "") (names_of ps) →
  declare_all env ps d = (d, Ok tt).
Proof.
  induction 1 as [|sp ps (plan & Hl & Hd) _ IH]; [done|]. intros [Hn Hns]%Forall_cons. simpl.
  unfold declare at 1. rewrite decide_False by done. rewrite Hl.
  assert (reference (resource sp) || resourcePlansEqual plan (resource_plan (resource sp)) = true)
    as -> by by apply orb_true_iff.
  auto.
Qed.

(** [ensure] is idempotent: declaring again what was accepted, in any order
    and any number of times, is accepted and changes nothing, neither the
    environment nor the budgets. *)
Theorem ensure_idempotent env ps h env' h' ps' :
  env_wf h env → gate_ok env → ensure_env env ps h = (env', h', Ok tt) →
  ps' ≠ [] → (∀ sp, sp ∈ ps' → sp ∈ ps) →
  ensure_env env' ps' h' = (env', h', Ok tt).
Proof.
  intros Hwf Hgate Hens Hne Hsub.
  pose proof (ensure_env_gate _ _ _ _ _ _ Hgate Hens) as Hgate'.
  destruct (ensure_env_spec _ _ _ _ _ _ Hwf Hens) as (_ & Hwf' & _ & _ & Hall & Hdom).
  assert (Forall (declared (plans env')) ps') as Hall'.
  { rewrite Forall_forall in *. auto. }
  assert (Forall (λ name, TrimSpace name ≠ "") (names_of ps')) as Hnames.
  { apply Forall_fmap. eapply Forall_impl; [exact Hall'|]. intros sp (plan & Hl & _). simpl.
    destruct (wf_plans _ _ Hwf' _ _ Hl) as (<- & Hn & _). done. }
  assert (plans env' ≠ ∅) as Hplans.
  { destruct ps' as [|sp ps']; [done|]. apply Forall_cons in Hall' as [(plan & Hl & _) _].
    intros Hemp. by rewrite Hemp in Hl. }
  unfold ensure_env. rewrite (declare_all_again env' (begin_draft env' h')) by done.
  destruct (gate env') as [g|] eqn:Hg.
  - destruct (Hgate' g Hg Hplans) as (Hf & Hn & Hle & Hun).
    assert (bad_amount (MaxEstimatedUSD g) = false) as -> by by apply bad_amount_spec.
    unfold check_gate. simpl. rewrite Hle.
    destruct (AllowUnpriced g); [rewrite andb_false_r|rewrite Hun by done]; simpl; by destruct env'.
  - simpl. by destruct env'.
Qed.

(** Declarations of names not seen before. *)
Definition partial env : bool := match gate env with Some g => AllowPartial g | None => true end.
Definition plans_of ps : list ResourcePlan := (λ sp, resource_plan (resource sp)) <$> ps.

Lemma declare_new env d sp :
  prospectivePlans d !! r_Name (resource sp) = None →
  (declare env sp d).2 = Ok tt ↔ plan_ok (partial env) (resource_plan (resource sp)).
Proof.
  intros Hnew. unfold declare. case_decide as Hname.
  { split; [done|]. by intros []. }
  rewrite Hnew. pose proof (check_resource_ok (gate env) (step sp) (resource sp) Hname) as Hchk.
  assert (admitted_plan (gate env) (r_Name (resource sp)) (resource_plan (resource sp)) ↔
          plan_ok (partial env) (resource_plan (resource sp))) as Hadm by (split; [by intros []|done]).
  rewrite <-Hadm, <-Hchk. destruct (check_resource _ _ _) as [[]|e]; [|done].
  destruct Hchk as [Hok _]. destruct (Hok eq_refl) as (_ & _ & _ & Hb & _). simpl in Hb.
  destruct (price_resource _ _ _). destruct (Z.ltb_spec (r_Budget (resource sp)) 0); [lia|done].
Qed.

Lemma declare_all_new env h ps d d' r :
  draft_ok env h d → NoDup (names_of ps) →
  (∀ name, name ∈ names_of ps → prospectivePlans d !! name = None) →
  declare_all env ps d = (d', r) →
  (r = Ok tt ↔ Forall (plan_ok (partial env)) (plans_of ps)) ∧
  (r = Ok tt → pending_plans d' = pending_plans d ++ plans_of ps).
Proof.
  revert d. induction ps as [|sp ps IH]; intros d Hd Hnd Hnew; simpl.
  { intros [= <- <-]. split; [split; [constructor|done]|]. by rewrite app_nil_r. }
  unfold names_of in Hnd. rewrite fmap_cons, NoDup_cons in Hnd. destruct Hnd as [Hni Hnd].
  assert (prospectivePlans d !! r_Name (resource sp) = None) as Hsp by (apply Hnew; by left).
  pose proof (declare_new env d sp Hsp) as Hok.
  destruct (declare env sp d) as [d1 [[]|e]] eqn:Hdecl; simpl in Hok.
  - pose proof (declare_spec _ _ _ _ _ _ Hd Hdecl) as (Hd1 & _ & _ & Hdom & Hpend).
    specialize (Hpend Hsp). intros Hall. destruct (IH d1 Hd1 Hnd) with (2 := Hall) as [IH1 IH2].
    { intros name Hin. apply not_elem_of_dom. rewrite Hdom.
      assert (prospectivePlans d !! name = None) by (apply Hnew; by right).
      assert (name ≠ r_Name (resource sp)) by (by intros ->).
      rewrite <-not_elem_of_dom in H. set_solver. }
    split; [rewrite Forall_cons, IH1; naive_solver|]. intros Hr. rewrite (IH2 Hr), Hpend.
    by rewrite <-app_assoc.
  - intros [= <- <-]. split; [|done]. split; [done|]. intros [Hp _]%Forall_cons. by apply Hok in Hp.
Qed.

Definition env_cost env : CostPreflight := MkPreflight (estimatedUSD env) (unpriced_names env).

(** C31: The two preflights of the repository agree: for declarations of distinct
    resources, [ensure] on a fresh gated environment accepts exactly when
    [ValidateResourcePlans] accepts the same plans under the same limits, and
    then reports the same estimate and the same unpriced resources. *)
Theorem ensure_agrees_with_ValidateResourcePlans g rates ps h :
  NoDup (names_of ps) →
  match ensure_env (fresh_env (Some g) rates) ps h,
        ValidateResourcePlans (plans_of ps) (MaxEstimatedUSD g) (AllowUnpriced g) (AllowPartial g) with
  | (env', _, Ok _), (p, Ok _) => env_cost env' = p
  | (_, _, Err _), (_, Err _) => True
  | _, _ => False
  end.
Proof.
  intros Hnd. destruct (fresh_env_ok h (Some g) rates) as [Hwf _].
  set (env := fresh_env (Some g) rates).
  assert (names_of ps = Name <$> plans_of ps) as Hnames.
  { unfold plans_of, names_of. by rewrite <-list_fmap_compose. }
  destruct (ValidateResourcePlans _ _ _ _) as [p rv] eqn:Hv.
  pose proof (validate_accepts (plans_of ps) (MaxEstimatedUSD g) (AllowUnpriced g)
                (AllowPartial g) (MkPreflight (estimate fzero (plans_of ps)) (unpriced (plans_of ps)))) as Hspec.
  unfold ensure_env. simpl gate. cbn match beta iota.
  pose proof (bad_amount_spec (MaxEstimatedUSD g)) as Hmax.
  destruct (bad_amount (MaxEstimatedUSD g)).
  { destruct rv as [[]|]; [|done]. apply validate_accepts in Hv as (? & ? & _). naive_solver. }
  destruct Hmax as [[Hf Hn] _]; [done|].
  destruct (declare_all env ps (begin_draft env h)) as [d r] eqn:Hall.
  destruct (declare_all_new env h ps _ d r (begin_draft_ok _ _ Hwf) Hnd ltac:(done) Hall) as [Hok Hpend].
  destruct (declare_all_spec _ _ _ _ _ _ (begin_draft_ok _ _ Hwf) Hall) as (Hd & _ & _).
  rewrite Hv in Hspec. destruct r as [[]|e].
  2: { destruct rv as [[]|]; [|done].
       apply validate_accepts in Hv as (_ & _ & Hps & _). by apply Hok in Hps. }
  specialize (Hpend eq_refl). change (pending_plans (begin_draft env h)) with (@nil ResourcePlan) in Hpend.
  simpl in Hpend. destruct Hok as [Hok _]. specialize (Hok eq_refl). change (partial env) with (AllowPartial g) in Hok.
  pose proof (draft_usd _ _ _ Hd) as Husd. pose proof (draft_unpriced _ _ _ Hd) as Hun.
  rewrite Hpend in Husd; rewrite Hpend in Hun. simpl in Husd, Hun.
  unfold check_gate. rewrite Husd, Hun. destruct rv as [[]|].
  - apply validate_accepts in Hv as (_ & _ & _ & _ & -> & Hau & Hle). rewrite Hle.
    destruct (AllowUnpriced g).
    + rewrite andb_false_r. unfold env_cost. simpl. by rewrite Husd, Hun.
    + rewrite (Hau eq_refl) in *. unfold env_cost. simpl. by rewrite Husd, Hun.
  - destruct (_ && _) eqn:Hg; [done|]. destruct (fltb _ _) eqn:Hle; [done|].
    destruct Hspec as [_ Hspec]. discriminate Hspec. split_and!; try done; [by rewrite <-Hnames|].
    intros Hau. rewrite Hau, andb_true_r, negb_false_iff, bool_decide_eq_true in Hg. done.
Qed.
End wf.

(** ** admit *)

Section admit_op.
Context {U : Type}.
Implicit Types (w : envw U) (e : nat) (c : ctx) (units : Z) (names : list string).

Definition env_limiter (e : nat) (name : string) : prog (envw U) (option (Limiter U)) :=
  with_env e (λ env l, (env, l, limiters env !! name)).

(** The loop of [admit]; [rs] is the slice [reservations]. *)
Fixpoint admit_names e c units names (rs : list (reservation U))
    : prog (envw U) (string * res unit) :=
  match names with
  | [] => _ ← zoom (commit_all rs); mret ("", Ok tt)
  | name :: names =>
      l ← env_limiter e name;
      match l with
      | None =>
          _ ← zoom (rollback_all rs); mret (name, Err (New "resource has no admitted limiter"))
      | Some l =>
          got ← zoom (acquire_limiter l c units);
          match got with
          | Err err => _ ← zoom (rollback_all rs); mret (name, Err err)
          | Ok o => admit_names e c units names (rs ++ option_list o)
          end
      end
  end.

Definition runEnv_admit e c names units : prog (envw U) (string * res unit) :=
  admit_names e c units names [].
End admit_op.

Section admission.
Context {U : Type} (e b : nat) (x0 : budget) (L : gmap string (Limiter U)) (B : gmap string nat).
Implicit Types (w : envw U) (c : ctx) (units : Z) (names : list string) (γ : share).

(** Budget [b]'s invariant, in an environment that has at least the limiters [L] and
    the budgets [B]: what is registered is never replaced. *)
Definition admit_inv w γ : Prop :=
  budget_inv b x0 (ew_limits w) γ ∧ ∃ env, ew_envs w !! e = Some env ∧ L ⊆ limiters env ∧ B ⊆ budgets env.

(** What one unit-count charges the budget through every named resource. *)
Definition charges_of (b : nat) units names : N :=
  total ((λ name, match L !! name with Some l => charges b l units | None => 0%N end) <$> names).

Lemma owns_limits {A} (Q : A → share → Prop) (p : prog (limits U) A) γ :
  owns (budget_inv b x0) Q p γ → owns admit_inv Q (zoom p) γ.
Proof.
  intros Hp. eapply owns_conseq.
  - apply (owns_zoom (budget_inv b x0) admit_inv id); [|exact Hp].
    intros w m o [Hb Henv]. exists o. split; [done|]. intros s' m' Hs'. by split.
  - by intros a m (m' & -> & HQ).
Qed.

Lemma owns_env_limiter name l γ :
  L !! name = Some l → owns admit_inv (λ o m, o = Some l ∧ m = γ) (env_limiter e name) γ.
Proof.
  intros Hl. apply owns_await. intros w o w' x [Hb (env & Henv & Hsub & HB)] Hin.
  rewrite Henv in Hin. apply list_elem_of_singleton in Hin as [= -> ->].
  exists γ. simpl. split; [|split; [by eapply lookup_weaken|done]].
  split; [done|]. exists env. simpl. by rewrite list_insert_id.
Qed.

Lemma owns_refused (rs : list (reservation U)) name err u γ f :
  all_ok b x0 rs u γ → f.1 = (0, 0)%N →
  owns admit_inv (λ (r : string * res unit) m, is_ok r.2 = false ∧ m.1 = (0, 0)%N)
    (_ ← zoom (rollback_all rs); mret (name, Err err)) (γ ⊹ f).
Proof.
  intros Hrs Hf. eapply owns_bind'; [apply owns_frame, owns_limits; by eapply owns_rollback_all|].
  intros [] m (m' & -> & Hm). apply owns_ret. split; [done|].
  destruct m' as [[??]?], f as [[??]?]. accounts. by simplify_eq.
Qed.

Lemma admit_names_ok c units names rs u γ :
  (∀ name, name ∈ names → is_Some (L !! name)) → all_ok b x0 rs u γ →
  owns admit_inv
    (λ r m, m.1 = (0%N, if is_ok r.2 then (u + charges_of b units names)%N else 0%N))
    (admit_names e c units names rs) γ.
Proof.
  revert rs u γ. induction names as [|name names IH]; intros rs u γ Hin Hrs; cbn [admit_names].
  - eapply owns_bind'; [apply owns_limits; by eapply owns_commit_all|].
    intros [] m Hm. apply owns_ret. simpl. by rewrite N.add_0_r.
  - destruct (Hin name ltac:(by left)) as [l Hl].
    eapply owns_bind'; [by apply owns_env_limiter|]. intros o m [-> ->].
    rewrite <-(aplus_zero γ).
    eapply owns_bind'; [apply owns_frame, owns_limits, (acquire_limiter_ok b x0 c units l)|].
    intros got m (γ1 & -> & Hgot). destruct got as [o|err]; simpl in Hgot.
    + eapply owns_conseq.
      * apply (IH (rs ++ option_list o) (u + charges b l units)%N); [set_solver|].
        apply all_ok_app. exists u, (charges b l units), γ, γ1. by rewrite aplus_comm.
      * intros r m Hm. rewrite Hm. unfold charges_of. simpl. rewrite Hl.
        destruct (is_ok r.2); [|done]. apply (f_equal (pair 0%N)). accounts. symmetry; apply N.add_assoc.
    + rewrite aplus_comm. eapply owns_conseq; [by eapply owns_refused|].
      by intros r m [-> Hm].
Qed.
End admission.

Section admission_theorems.
Context {U : Type}.
Implicit Types (w : envw U) (c : ctx) (units : Z) (names : list string).

(** A call of [admit]: the caller's context, the resource names, the units. *)
Definition admission : Type := ctx * list string * Z.
Definition admit_of (e : nat) (q : admission) : prog (envw U) (string * res unit) :=
  runEnv_admit e q.1.1 q.1.2 q.2.

(** Around the calls: everything the limiters allow, new declarations too. *)
Definition env_ambient w w' : Prop :=
  ambient (ew_limits w) (ew_limits w') ∧
  ∀ e env, ew_envs w !! e = Some env →
    ∃ env', ew_envs w' !! e = Some env' ∧ limiters env ⊆ limiters env'.

Definition admitted_units (L : gmap string (Limiter U)) b (q : admission)
    (r : string * res unit) : N :=
  if is_ok r.2 then charges_of L b q.2 q.1.2 else 0%N.

Lemma env_ambient_inv e b x0 L w w' (m : share) :
  admit_inv e b x0 L ∅ w m → env_ambient w w' → admit_inv e b x0 L ∅ w' m.
Proof.
  intros [Hb (env & Henv & Hsub & _)] [Ha Hmono]. split; [by eapply ambient_inv|].
  destruct (Hmono e env Henv) as (env' & Henv' & Hsub'). exists env'. split_and!; [done|by etrans|apply map_empty_subseteq].
Qed.

(** C12: Admission is exact under every interleaving: whatever number of workers
    call [admit] on a run environment, with declarations, cancellations and
    rate tickers in between, a budget loses exactly the units of the calls
    that succeeded, once per named resource that charges it.  A call refused
    by a later resource gives back what the earlier ones reserved, and no
    budget is ever overdrawn. *)
Theorem admit_exact e env b x w (qs : list admission) w' rs :
  ew_envs w !! e = Some env →
  lw_budgets (ew_limits w) !! b = Some x → 0 ≤ remaining x ≤ max64 →
  (∀ q name, q ∈ qs → name ∈ q.1.2 → is_Some (limiters env !! name)) →
  length qs = length rs →
  rtc (pool_step env_ambient) (w, admit_of e <$> qs) (w', Ret <$> rs) →
  ∃ x', lw_budgets (ew_limits w') !! b = Some x' ∧ limit x' = limit x ∧ 0 ≤ remaining x' ∧
        remaining x' = remaining x
          - Z.of_N (total (zip_with (admitted_units (limiters env) b) qs rs)).
Proof.
  intros Henv Hx Hr Hnames Hlen Hsteps.
  assert (pool_ok (admit_inv e b x (limiters env) ∅) (λ i r γ, ∀ q, qs !! i = Some q →
            γ.1 = (0%N, admitted_units (limiters env) b q r)) (w, admit_of e <$> qs)
            (replicate (length qs) azero)) as Hok.
  { split; [rewrite total_replicate; split; [by apply budget_inv_open|exists env; split_and!; [done..|apply map_empty_subseteq]]|].
    split; [simpl; by rewrite length_replicate, length_fmap|]. simpl.
    intros i p γ Hp Hγ. apply lookup_replicate in Hγ as [-> _].
    apply list_lookup_fmap_Some in Hp as (q & -> & Hq).
    eapply owns_conseq.
    - apply (admit_names_ok e b x (limiters env) ∅ q.1.1 q.2 q.1.2 [] 0%N azero); [|done].
      intros name Hn. eapply Hnames; [by eapply list_elem_of_lookup_2|done].
    - intros r γ Hγ q' Hq'. by simplify_eq. }
  destruct (pool_adequate _ _ _ (env_ambient_inv e b x (limiters env)) _ _ _ _ _ Hok Hsteps)
    as (γs & [(_ & _ & x' & Hx' & Hlim & Hpos & Hsum) _] & Hlγ & HQ).
  exists x'. split_and!; [done..|].
  rewrite (total_settled (admitted_units (limiters env) b) qs rs γs) in Hsum by eauto.
  simpl in Hsum. lia.
Qed.

(** An [admit] call that runs alone is all-or-nothing over every budget of
    the run environment: it takes the units through each named resource, or it
    fails and every budget has what it had before. *)
Theorem admit_transactional e env b x w c names units w' r :
  (w', r) ∈ outcomes (runEnv_admit e c names units) w →
  ew_envs w !! e = Some env →
  lw_budgets (ew_limits w) !! b = Some x → 0 ≤ remaining x ≤ max64 →
  (∀ name, name ∈ names → is_Some (limiters env !! name)) →
  lw_budgets (ew_limits w') !! b =
    Some (Budget (limit x) (remaining x -
      if is_ok r.2 then Z.of_N (charges_of (limiters env) b units names) else 0)).
Proof.
  intros Hout Henv Hx Hr Hnames.
  destruct (owns_outcomes _ _ _ (azero : share) azero w w' r
              (admit_names_ok e b x (limiters env) ∅ c units names [] 0%N azero Hnames ltac:(done))
              ltac:(rewrite aplus_zero; split; [by apply budget_inv_open|exists env; split_and!; [done..|apply map_empty_subseteq]]) Hout)
    as (γ & [(_ & _ & x' & Hx' & Hlim & Hpos & Hsum) _] & Hγ).
  rewrite Hx'. rewrite aplus_zero_r, Hγ in Hsum. destruct x' as [lim' rem']. simpl in *.
  f_equal. f_equal; [done|]. destruct (is_ok r.2); simpl in *; lia.
Qed.

(** Admitting through one resource of a well-formed environment charges its
    own budget the units, plus whatever its rate limiter charges. *)
Lemma charges_of_own h (env : runEnv U) name b units :
  env_wf h env → budgets env !! name = Some b → mjoin (rates env !! name) = None →
  charges_of (limiters env) b units [name] = Z.to_N units.
Proof.
  intros Hwf Hb Hrate. unfold charges_of. simpl.
  rewrite (wf_limiters _ _ Hwf), Hb. simpl. rewrite Hrate. simpl. unfold charges_budget.
  rewrite decide_True by done. accounts. lia.
Qed.
End admission_theorems.

(** ** Reading the environment *)

Section observe.
Context {U : Type}.
Implicit Types (w : envw U) (e : nat) (names : list string).

Definition env_plan e (name : string) : prog (envw U) (option ResourcePlan) :=
  with_env e (λ env l, (env, l, plans env !! name)).

Definition cost e : prog (envw U) CostPreflight :=
  with_env e (λ env l, (env, l, env_cost env)).

(** The loops of [allSnapshots] and [snapshot]: the map is read under
    [env.mutex], every budget under its own. *)
Fixpoint snapshot_each (bs : list (string * option nat)) (m : gmap string snapshot)
    : prog (envw U) (gmap string snapshot) :=
  match bs with
  | [] => mret m
  | (name, b) :: bs => s ← zoom (Budget_Snapshot b); snapshot_each bs (<[name := s]> m)
  end.

Definition allSnapshots e : prog (envw U) (gmap string snapshot) :=
  bs ← with_env e (λ env l, (env, l, budgets env));
  order ← await (λ w, pair w <$> permutations (map_to_list bs));
  snapshot_each (prod_map id Some <$> order) ∅.

Definition env_snapshot e names : prog (envw U) (gmap string snapshot) :=
  match names with
  | [] => mret ∅
  | _ =>
      bs ← with_env e (λ env l, (env, l, budgets env));
      snapshot_each ((λ name, (name, bs !! name)) <$> names) ∅
  end.

(** The admission part of [Options]: its methods work on the environment the
    options share, if any. *)
Record admission_options := AdmissionOptions {
  o_Rates : gmap string (option (Limiter U));
  o_Preflight : option Preflight;
  o_env : option nat;
}.

Definition Share (o : admission_options) : prog (envw U) admission_options :=
  match o_env o with
  | Some _ => mret o
  | None =>
      e ← newRunEnv (o_Rates o) (o_Preflight o);
      mret (AdmissionOptions (o_Rates o) (o_Preflight o) (Some e))
  end.

Definition Options_Declare (o : admission_options) (step : string) (resources : list Resource)
    : prog (envw U) (res unit) :=
  match o_env o with
  | None => mret (Err (New "Declare needs shared Options: call Share() first"))
  | Some e => ensure e (StagePlan step <$> resources)
  end.

Definition Options_Limiter (o : admission_options) (name : string)
    : prog (envw U) (option (Limiter U)) :=
  match o_env o with None => mret None | Some e => env_limiter e name end.

Definition Snapshots (o : admission_options) : prog (envw U) (gmap string snapshot) :=
  match o_env o with None => mret ∅ | Some e => allSnapshots e end.

Definition Cost (o : admission_options) : prog (envw U) CostPreflight :=
  match o_env o with None => mret (MkPreflight fzero []) | Some e => cost e end.

Lemma outcomes_with_env {X} e (f : runEnv U → limits U → runEnv U * limits U * X) w env :
  ew_envs w !! e = Some env →
  outcomes (with_env e f) w =
    [(EnvW (f env (ew_limits w)).1.2 (<[e := (f env (ew_limits w)).1.1]> (ew_envs w)),
      (f env (ew_limits w)).2)].
Proof. intros He. unfold with_env. by rewrite outcomes_await, He. Qed.

Lemma envw_id w e env : ew_envs w !! e = Some env → EnvW (ew_limits w) (<[e:=env]> (ew_envs w)) = w.
Proof. intros He. rewrite list_insert_id by done. by destruct w. Qed.

Lemma outcomes_snapshot_each w (bs : list (string * nat)) m :
  (∀ name b, (name, b) ∈ bs → is_Some (lw_budgets (ew_limits w) !! b)) →
  outcomes (snapshot_each (prod_map id Some <$> bs) m) w =
    [(w, foldl (λ m '(name, b), <[name := default (Snapshot 0 0 0)
                  (snapshot_of <$> lw_budgets (ew_limits w) !! b)]> m) m bs)].
Proof.
  revert m. induction bs as [|[name b] bs IH]; intros m Hin; [done|].
  destruct (Hin name b ltac:(by left)) as [x Hx]. cbn [fmap list_fmap prod_map snapshot_each id].
  rewrite outcomes_bind, outcomes_zoom. unfold Budget_Snapshot, look.
  rewrite (outcomes_with_budget _ _ _ _ Hx). simpl. rewrite (set_budget_id _ _ _ Hx), app_nil_r.
  assert (set_limits (ew_limits w) w = w) as -> by (by destruct w).
  rewrite IH by (intros n' b' ?; apply (Hin n'); by right). by rewrite Hx.
Qed.

Lemma lookup_insert_all {B V} (f : B → V) (l : list (string * B)) (m : gmap string V) name :
  (∀ b, (name, b) ∈ l → m !! name = Some (f b) ∨ m !! name = None) →
  (∀ b b', (name, b) ∈ l → (name, b') ∈ l → b = b') →
  foldl (λ m '(name, b), <[name := f b]> m) m l !! name =
    match (list_find (λ p, p.1 = name) l) with Some (_, p) => Some (f p.2) | None => m !! name end.
Proof.
  revert m. induction l as [|[n b] l IH]; intros m Hm Hfun; [done|].
  simpl. destruct (decide (n = name)) as [->|Hne].
  - rewrite IH; [|intros b' Hb'; left|intros b1 b2 ? ?; apply Hfun; by right].
    + rewrite lookup_insert_eq. destruct (list_find _ l) as [[i [n' b']]|] eqn:Hf; [|done].
      apply list_find_Some in Hf as (Hl & Heq & _). simpl in *. subst n'. f_equal. f_equal.
      apply Hfun; [right; by eapply list_elem_of_lookup_2|by left].
    + rewrite lookup_insert_eq. do 2 f_equal. apply Hfun; [by left|by right].
  - rewrite IH; [|intros b' Hb'; rewrite lookup_insert_ne by done; apply Hm; by right
                 |intros b1 b2 ? ?; apply Hfun; by right].
    rewrite lookup_insert_ne by done. destruct (list_find _ l) as [[i p]|]; done.
Qed.

(** [allSnapshots] of a well-formed environment, running alone, changes
    nothing and reports for every registered resource, in whatever order the
    map is ranged over, its own budget's limit, spent and remaining units,
    and nothing else. *)
Theorem allSnapshots_exact e env w w' m :
  ew_envs w !! e = Some env → env_wf (lw_budgets (ew_limits w)) env →
  (w', m) ∈ outcomes (allSnapshots e) w →
  w' = w ∧ ∀ name, m !! name = b ← budgets env !! name;
                               snapshot_of <$> lw_budgets (ew_limits w) !! b.
Proof.
  intros Henv Hwf. unfold allSnapshots.
  rewrite outcomes_bind, (outcomes_with_env _ _ _ _ Henv). rewrite bind_cons. cbn [fst snd mbind list_bind]. rewrite app_nil_r.
  rewrite (envw_id _ _ _ Henv), outcomes_bind, outcomes_await.
  rewrite list_elem_of_bind. intros ([w1 order] & Hout & Hperm).
  apply list_elem_of_fmap in Hperm as (order' & [= -> ->] & Hperm).
  apply permutations_Permutation in Hperm.
  assert (∀ name b, (name, b) ∈ order' ↔ budgets env !! name = Some b) as Hord.
  { intros. by rewrite <-Hperm, elem_of_map_to_list || rewrite Hperm, elem_of_map_to_list. }
  assert (∀ name b, (name, b) ∈ order' → is_Some (lw_budgets (ew_limits w) !! b)) as Hheap.
  { intros name b Hin%Hord. destruct (wf_heap _ _ Hwf _ _ Hin) as (? & x & _ & ? & _). eauto. }
  rewrite outcomes_snapshot_each in Hout by done.
  apply list_elem_of_singleton in Hout as [= -> ->]. split; [done|]. intros name.
  rewrite lookup_insert_all; [|by right|intros b b' Hb%Hord Hb'%Hord; congruence].
  destruct (list_find _ order') as [[i [n b]]|] eqn:Hf; simpl.
  - apply list_find_Some in Hf as (Hl & Heq & _). simpl in Heq. subst n.
    apply list_elem_of_lookup_2, Hord in Hl as Hb. rewrite Hb. simpl.
    destruct (Hheap name b) as [x Hx]; [by apply Hord|]. by rewrite Hx.
  - apply list_find_None in Hf. destruct (budgets env !! name) as [b|] eqn:Hb; [|done].
    apply Hord in Hb. rewrite Forall_forall in Hf. by destruct (Hf _ Hb).
Qed.
End observe.

(** ** A concrete environment *)

Section example.
Notation env := (runEnv unit).

(** Eight calls of a judge at a quarter of a dollar, and five unpriced
    embeddings, under a gate of two dollars that allows unpriced resources. *)
Definition judge : Resource := MkResource "judge" 8 10 (Some quarter).
Definition embed : Resource := MkResource "embed" 5 5 None.
Definition two_stages : list stagePlan := [StagePlan "rate" judge; StagePlan "index" embed].
Definition two_dollar_gate : Preflight := MkGate two_dollars true false.
Definition before : env := fresh_env (Some two_dollar_gate) ∅.
Definition ensured : env * list budget * res unit := ensure_env before two_stages [].
Definition after : env := ensured.1.1.
Definition two_budgets : list budget := [Budget 10 10; Budget 5 5].

Lemma ensured_eq : ensured = (after, two_budgets, Ok tt).
Proof. vm_compute. reflexivity. Qed.

Lemma after_wf : env_wf two_budgets after.
Proof.
  destruct (ensure_env_spec before two_stages [] _ _ _ (proj1 (fresh_env_ok _ _ _)) ensured_eq)
    as (_ & H & _). exact H.
Qed.

Lemma ensure_transactional_witness :
  ensure_env before two_stages [] = (after, two_budgets, Ok tt) ∧
  dom (plans after) = {["judge"; "embed"]} ∧ Forall (declared (plans after)) two_stages.
Proof.
  destruct (ensure_transactional before two_stages [] after two_budgets (Ok tt)
              (proj1 (fresh_env_ok _ _ _)) ensured_eq) as (_ & _ & _ & _ & Hd & Hdom).
  split; [exact ensured_eq|]. split; [rewrite Hdom; reflexivity|exact Hd].
Defined.

(** Eight dollars' worth of judging, split over two calls: the second is refused by
    the gate of two dollars, which the first has used up. *)
Definition more_judging : list stagePlan := [StagePlan "rate again" (MkResource "judge two" 8 10 (Some quarter))].

Lemma ensure_gated_witness :
  let env := after_calls before [(two_stages, []); (more_judging, two_budgets)] in
  env = after ∧ estimatedUSD env = two_dollars ∧ is_ok (ensure_env after more_judging two_budgets).2 = false ∧
  ∃ L, map_to_list (plans env) ≡ₚ (λ p, (Name p, p)) <$> L ∧ estimatedUSD env = estimate fzero L.
Proof.
  intros env. split; [vm_compute; reflexivity|]. split; [vm_compute; reflexivity|]. split; [vm_compute; reflexivity|].
  destruct (ensure_gated (U := unit) (Some two_dollar_gate) ∅ [(two_stages, []); (more_judging, two_budgets)])
    as (L & Hm & Husd & _). exists L. split; [exact Hm|exact Husd].
Defined.

(** Declared again in the other order, and twice. *)
Lemma ensure_idempotent_witness :
  ensure_env after (reverse two_stages ++ two_stages) two_budgets = (after, two_budgets, Ok tt).
Proof.
  apply (ensure_idempotent before two_stages [] after two_budgets (reverse two_stages ++ two_stages)).
  - exact (proj1 (fresh_env_ok [] _ _)).
  - exact (proj2 (fresh_env_ok [] _ _)).
  - exact ensured_eq.
  - discriminate.
  - intros sp. vm_compute reverse. set_solver.
Defined.

Lemma ensure_agrees_witness :
  NoDup (names_of two_stages) ∧
  env_cost after = (ValidateResourcePlans (plans_of two_stages) two_dollars true false).1 ∧
  ValidateResourcePlans (plans_of two_stages) two_dollars true false = (MkPreflight two_dollars ["embed"], Ok tt).
Proof.
  assert (NoDup (names_of two_stages)) as Hnd by (vm_compute; repeat constructor; set_solver).
  split; [exact Hnd|].
  pose proof (ensure_agrees_with_ValidateResourcePlans two_dollar_gate (U := unit) ∅ two_stages [] Hnd) as H.
  change (ensure_env (fresh_env (Some two_dollar_gate) ∅) two_stages []) with ensured in H.
  rewrite ensured_eq in H. cbn [MaxEstimatedUSD AllowUnpriced AllowPartial two_dollar_gate] in H.
  split; [|vm_compute; reflexivity].
  destruct (ValidateResourcePlans (plans_of two_stages) two_dollars true false) as [p [u|e]];
    [exact H|destruct H].
Defined.

(** The environment in a world with its two budgets. *)
Definition shared_world : envw unit := EnvW (Limits (Ctxs ∅ 1) two_budgets [] [] tt) [after].

(** Two workers admit four units of both resources at once: five embeddings
    are not enough for both, so one of the two gets its four judge calls back. *)
Definition two_admissions : list admission :=
  [([0%nat], ["judge"; "embed"], 4); ([0%nat], ["judge"; "embed"], 4)].
Definition alternating : list nat :=
  concat (replicate 8 [0; 1]%nat) ++ replicate 6 0%nat ++ replicate 3 1%nat.
Definition two_verdicts : list (string * res unit) :=
  [("", Ok tt); ("embed", Err (Errorf "limiter %d: %w" [ArgInt 0; ArgWrap (refusal 4 (Budget 5 1))]))].

Lemma named_limiters q name : q ∈ two_admissions → name ∈ q.1.2 → is_Some (limiters after !! name).
Proof.
  intros Hq Hn. assert (name ∈ ["judge"; "embed"]) as Hn'.
  { unfold two_admissions in Hq. rewrite !elem_of_cons, elem_of_nil in Hq. by destruct Hq as [->|[->|[]]]. }
  revert Hn'. rewrite !elem_of_cons, elem_of_nil. intros [->|[->|[]]]; vm_compute; eauto.
Qed.

Lemma admit_exact_witness :
  ∃ w', rtc (pool_step env_ambient) (shared_world, admit_of 0 <$> two_admissions) (w', Ret <$> two_verdicts) ∧
    ∃ x', lw_budgets (ew_limits w') !! 0%nat = Some x' ∧ remaining x' = 10 - 4.
Proof.
  destruct (replay_pool alternating (shared_world, admit_of 0 <$> two_admissions))
    as [[w' ps]|] eqn:Hr; [|vm_compute in Hr; discriminate Hr].
  pose proof (replay_pool_steps env_ambient _ _ _ Hr) as Hsteps.
  assert (ps = Ret <$> two_verdicts) as -> by (vm_compute in Hr; injection Hr as _ <-; reflexivity).
  exists w'. split; [exact Hsteps|].
  destruct (admit_exact 0 after 0 (Budget 10 10) shared_world two_admissions w' two_verdicts)
    as (x' & Hx' & _ & _ & Hrem);
    [reflexivity|reflexivity|simpl; unfold max64; lia|exact named_limiters|reflexivity|exact Hsteps|].
  exists x'. split; [exact Hx'|]. rewrite Hrem. vm_compute. reflexivity.
Defined.

Lemma admit_transactional_witness :
  ∃ w' r, (w', r) ∈ outcomes (runEnv_admit 0 [0%nat] ["judge"; "embed"] 6) shared_world ∧
    is_ok r.2 = false ∧ lw_budgets (ew_limits w') !! 0%nat = Some (Budget 10 10).
Proof.
  destruct (outcomes (runEnv_admit 0 [0%nat] ["judge"; "embed"] 6) shared_world)
    as [|[w' r] l] eqn:Ho; [vm_compute in Ho; discriminate Ho|].
  assert ((w', r) ∈ outcomes (runEnv_admit 0 [0%nat] ["judge"; "embed"] 6) shared_world) as Hin
    by (rewrite Ho; left).
  assert (is_ok r.2 = false) as Hr by (vm_compute in Ho; injection Ho as _ <- _; reflexivity).
  exists w', r. split; [rewrite <-Ho; exact Hin|]. split; [exact Hr|].
  rewrite (admit_transactional 0 after 0 (Budget 10 10) shared_world [0%nat] ["judge"; "embed"] 6 w' r Hin);
    [rewrite Hr; reflexivity|reflexivity|reflexivity|simpl; unfold max64; lia|].
  intros name. apply (named_limiters ([0%nat], ["judge"; "embed"], 4)). left.
Defined.

Lemma allSnapshots_exact_witness :
  ∃ m, (shared_world, m) ∈ outcomes (allSnapshots 0) shared_world ∧
    m !! "judge" = Some (Snapshot 10 0 10) ∧ m !! "rerank" = None.
Proof.
  destruct (outcomes (allSnapshots 0) shared_world) as [|[w' m] l] eqn:Ho;
    [vm_compute in Ho; discriminate Ho|].
  assert ((w', m) ∈ outcomes (allSnapshots 0) shared_world) as Hin by (rewrite Ho; left).
  destruct (allSnapshots_exact 0 after shared_world w' m) as [-> Hm];
    [reflexivity|exact after_wf|exact Hin|].
  exists m. split; [rewrite <-Ho; exact Hin|]. split; rewrite Hm; vm_compute; reflexivity.
Defined.
End example.
