(* ===== verification/Digest.v ===== *)
(** * SHA-256 and hexadecimal: internal/digest/digest.go

    [Bytes] is the lowercase hexadecimal SHA-256 digest.  The hash of FIPS 180-4
    is executable here, on 32-bit words kept in [Z], so cache paths and value
    digests are concrete strings. *)

From S2P Require Import Prelude GoStrings.
From Stdlib Require Import Ascii.
From Stdlib Require Strings.String.

(** Bytes of a Go string or []byte. *)
Fixpoint bytes_of (s : string) : list Z :=
  match s with EmptyString => [] | String a s => byte_of a :: bytes_of s end.

(** ** Words *)

Definition w32 (x : Z) : Z := Z.land x 0xffffffff.
Definition add32 (x y : Z) : Z := w32 (x + y).
Definition rotr (n x : Z) : Z := Z.lor (Z.shiftr x n) (w32 (Z.shiftl x (32 - n))).
Definition not32 (x : Z) : Z := Z.lxor x 0xffffffff.

Definition ch (x y z : Z) : Z := Z.lxor (Z.land x y) (Z.land (not32 x) z).
Definition maj (x y z : Z) : Z := Z.lxor (Z.lxor (Z.land x y) (Z.land x z)) (Z.land y z).
Definition big_sigma0 (x : Z) : Z := Z.lxor (Z.lxor (rotr 2 x) (rotr 13 x)) (rotr 22 x).
Definition big_sigma1 (x : Z) : Z := Z.lxor (Z.lxor (rotr 6 x) (rotr 11 x)) (rotr 25 x).
Definition small_sigma0 (x : Z) : Z := Z.lxor (Z.lxor (rotr 7 x) (rotr 18 x)) (Z.shiftr x 3).
Definition small_sigma1 (x : Z) : Z := Z.lxor (Z.lxor (rotr 17 x) (rotr 19 x)) (Z.shiftr x 10).

(** The constants are the first 32 bits of the fractional parts of the roots of
    the first primes: square roots for the initial state, cube roots for the
    rounds, both in fixed point. *)
Definition is_prime (n : Z) : bool :=
  forallb (λ d, negb (n mod d =? 0)) (filter (λ d, d * d <= n) (seqZ 2 17)).
Definition primes : list Z := filter (λ n, is_prime n = true) (seqZ 2 310).
Definition low32 (x : Z) : Z := Z.land x 0xffffffff.

(** The integer cube root of [n], bit by bit from [2 ^ k]. *)
Fixpoint cube_root (k : nat) (n r : Z) : Z :=
  let r' := r + 2 ^ Z.of_nat k in
  let r := if r' * r' * r' <=? n then r' else r in
  match k with O => r | S k => cube_root k n r end.

Definition round_constants : list Z :=
  Eval vm_compute in (λ p, low32 (cube_root 35 (p * 2 ^ 96) 0)) <$> primes.
Definition state_constants : list Z :=
  Eval vm_compute in (λ p, low32 (Z.sqrt (p * 2 ^ 64))) <$> take 8 primes.

Example constants_length : (length round_constants, length state_constants) = (64, 8)%nat.
Proof. reflexivity. Qed.

(** ** The hash *)

Record hash8 := Hash8 { ha : Z; hb : Z; hc : Z; hd : Z; he : Z; hf : Z; hg : Z; hh : Z }.

Definition initial : hash8 :=
  Eval vm_compute in
  match state_constants with
  | [a; b; c; d; e; f; g; h] => Hash8 a b c d e f g h
  | _ => Hash8 0 0 0 0 0 0 0 0
  end.

Definition round (h : hash8) (kw : Z * Z) : hash8 :=
  let t1 := add32 (add32 (add32 (add32 (hh h) (big_sigma1 (he h))) (ch (he h) (hf h) (hg h))) kw.1) kw.2 in
  let t2 := add32 (big_sigma0 (ha h)) (maj (ha h) (hb h) (hc h)) in
  Hash8 (add32 t1 t2) (ha h) (hb h) (hc h) (add32 (hd h) t1) (he h) (hf h) (hg h).

Definition nth_word (n : nat) (ws : list Z) : Z := nth n ws 0.

(** The message schedule, latest word first. *)
Fixpoint extend (n : nat) (ws : list Z) : list Z :=
  match n with
  | O => ws
  | S n =>
      extend n (add32 (add32 (small_sigma1 (nth_word 1 ws)) (nth_word 6 ws))
                      (add32 (small_sigma0 (nth_word 14 ws)) (nth_word 15 ws)) :: ws)
  end.

Definition compress (h : hash8) (block : list Z) : hash8 :=
  let ws := reverse (extend 48 (reverse block)) in
  let h' := foldl round h (zip round_constants ws) in
  Hash8 (add32 (ha h) (ha h')) (add32 (hb h) (hb h')) (add32 (hc h) (hc h')) (add32 (hd h) (hd h'))
        (add32 (he h) (he h')) (add32 (hf h) (hf h')) (add32 (hg h) (hg h')) (add32 (hh h) (hh h')).

(** Big-endian bytes of an [n]-byte number. *)
Fixpoint be_bytes (n : nat) (x : Z) : list Z :=
  match n with O => [] | S n => Z.land (Z.shiftr x (8 * Z.of_nat n)) 0xff :: be_bytes n x end.

Definition pad (m : list Z) : list Z :=
  let len := Z.of_nat (length m) in
  m ++ [0x80] ++ replicate (Z.to_nat ((55 - len) mod 64)) 0 ++ be_bytes 8 (8 * len).

Fixpoint words (m : list Z) : list Z :=
  match m with
  | a :: b :: c :: d :: m =>
      Z.lor (Z.lor (Z.shiftl a 24) (Z.shiftl b 16)) (Z.lor (Z.shiftl c 8) d) :: words m
  | _ => []
  end.

Fixpoint blocks (fuel : nat) (h : hash8) (ws : list Z) : hash8 :=
  match fuel, ws with
  | S fuel, _ :: _ => blocks fuel (compress h (take 16 ws)) (drop 16 ws)
  | _, _ => h
  end.

Definition digest_words (h : hash8) : list Z := [ha h; hb h; hc h; hd h; he h; hf h; hg h; hh h].

(** [sha256.Sum256] *)
Definition sha256 (m : list Z) : list Z :=
  let ws := words (pad m) in
  digest_words (blocks (S (length ws)) initial ws) ≫= be_bytes 4.

(** ** Hexadecimal *)

Definition hex_digit (z : Z) : ascii :=
  char_of (if z <? 10 then 48 + z else 87 + z).

Definition hex_byte (z : Z) : list ascii := [hex_digit (Z.shiftr z 4); hex_digit (Z.land z 15)].

(** [hex.EncodeToString] *)
Definition EncodeToString (m : list Z) : string := Stdlib.Strings.String.string_of_list_ascii (m ≫= hex_byte).

(** The value of a digit, in either case. *)
Definition hex_value (a : ascii) : option Z :=
  let z := byte_of a in
  if (48 <=? z) && (z <=? 57) then Some (z - 48)
  else if (97 <=? z) && (z <=? 102) then Some (z - 87)
  else if (65 <=? z) && (z <=? 70) then Some (z - 55)
  else None.

(** [hex.DecodeString]: the first offending byte, or an odd length, is an error. *)
Inductive hex_error := InvalidByte (a : ascii) | ErrLength.

Fixpoint DecodeString (s : string) : list Z * option hex_error :=
  match s with
  | EmptyString => ([], None)
  | String a EmptyString =>
      ([], Some (match hex_value a with None => InvalidByte a | Some _ => ErrLength end))
  | String a (String b s) =>
      match hex_value a, hex_value b with
      | None, _ => ([], Some (InvalidByte a))
      | _, None => ([], Some (InvalidByte b))
      | Some x, Some y => let '(m, e) := DecodeString s in (x * 16 + y :: m, e)
      end
  end.

(** [digest.Bytes] *)
Definition Bytes (data : string) : string := EncodeToString (sha256 (bytes_of data)).

(** The published test vectors, and the repository's own. *)
Example Bytes_empty :
  Bytes "" = "e3b0c44298fc1c149afbf4c8996fb92427ae41e4649b934ca495991b7852b855".
Proof. vm_compute. reflexivity. Qed.

Example Bytes_abc :
  Bytes "abc" = "ba7816bf8f01cfea414140de5dae2223b00361a396177a9cb410ff61f20015ad".
Proof. vm_compute. reflexivity. Qed.

Example Bytes_two_blocks :
  Bytes "abcdbcdecdefdefgefghfghighijhijkijkljklmklmnlmnomnopnopq" =
  "248d6a61d20638b8e5c026930c3e6039a33ce45964ff2167f6ecedd419db06c1".
Proof. vm_compute. reflexivity. Qed.

(** ** Shape of digests *)

Lemma hex_digit_value z : 0 ≤ z < 16 → hex_value (hex_digit z) = Some z.
Proof.
  intros Hz.
  assert (forallb (λ z, bool_decide (hex_value (hex_digit z) = Some z)) (seqZ 0 16) = true) as Hall
    by (vm_compute; reflexivity).
  rewrite forallb_forall in Hall. eapply bool_decide_eq_true_1, Hall.
  apply list_elem_of_In, elem_of_seqZ. lia.
Qed.

Lemma byte_split z : 0 ≤ z < 256 →
  0 ≤ Z.shiftr z 4 < 16 ∧ 0 ≤ Z.land z 15 < 16 ∧ Z.shiftr z 4 * 16 + Z.land z 15 = z.
Proof.
  intros Hz. rewrite Z.shiftr_div_pow2 by lia. change 15 with (Z.ones 4).
  rewrite Z.land_ones by lia. change (2 ^ 4) with 16.
  pose proof (Z.div_mod z 16 ltac:(lia)). pose proof (Z.mod_pos_bound z 16 ltac:(lia)).
  assert (0 ≤ z / 16) by (apply Z.div_pos; lia).
  assert (z / 16 < 16) by (apply Z.div_lt_upper_bound; lia). lia.
Qed.

(** Hexadecimal round-trips. *)
Lemma DecodeString_EncodeToString m :
  Forall (λ z, 0 ≤ z < 256) m → DecodeString (EncodeToString m) = (m, None).
Proof.
  unfold EncodeToString. induction 1 as [|z m Hz _ IH]; [done|].
  destruct (byte_split z Hz) as (Hh & Hl & Hzz). cbn -[Z.shiftr Z.land Z.mul Z.add].
  rewrite !hex_digit_value by done. change (list_bind _ _ hex_byte m) with (m ≫= hex_byte).
  rewrite IH. by rewrite Hzz.
Qed.

Lemma be_bytes_range n x : Forall (λ z, 0 ≤ z < 256) (be_bytes n x).
Proof.
  induction n as [|n IH]; simpl; constructor; [|done].
  change 255 with (Z.ones 8). rewrite Z.land_ones by lia. apply Z.mod_pos_bound. lia.
Qed.

Lemma be_bytes_length n x : length (be_bytes n x) = n.
Proof. induction n; simpl; congruence. Qed.

Lemma sha256_range m : Forall (λ z, 0 ≤ z < 256) (sha256 m).
Proof.
  unfold sha256. apply Forall_bind, Forall_forall. intros x _. apply be_bytes_range.
Qed.

Lemma sha256_length m : length (sha256 m) = 32%nat.
Proof. done. Qed.

Lemma Bytes_length data : String.length (Bytes data) = 64%nat.
Proof. done. Qed.

Lemma DecodeString_Bytes data : (DecodeString (Bytes data)).2 = None.
Proof. unfold Bytes. by rewrite DecodeString_EncodeToString by apply sha256_range. Qed.
