(* ===== verification/Json.v ===== *)
(** * JSON text: encoding/json as the repository uses it

    [json.Marshal] of a value is the compact text [render] of a tree, with Go's
    escaping of strings; decoding parses a tree back, and a struct's decoder
    keeps the raw text of each member, for [json.RawMessage].  Caller-defined
    types enter through [Codec]: what they encode to and how they decode is
    theirs. *)

From S2P Require Import Prelude GoError GoStrings Digest.
From Stdlib Require Import Ascii.

Inductive json :=
| JNull
| JBool (b : bool)
| JNum (literal : string)
| JStr (s : string)
| JArr (l : list json)
| JObj (l : list (string * json)).

(** ** Rendering *)

Definition quote_char : ascii := "034".
Definition backslash : ascii := "092".

(** [\u00xy] *)
Definition escape_u (cp : Z) : string :=
  String backslash (String "u" (Stdlib.Strings.String.string_of_list_ascii
    (hex_byte (Z.shiftr cp 8) ++ hex_byte (Z.land cp 0xff)))).

(** [appendString] with HTML escaping, as [json.Marshal] sets it. *)
Definition quote_chunk (k : chunk) : string :=
  match k with
  | Bad _ => String backslash "ufffd"
  | Rune cp bytes =>
      if (cp =? 34) || (cp =? 92) then String backslash bytes
      else if cp =? 8 then String backslash "b"
      else if cp =? 12 then String backslash "f"
      else if cp =? 10 then String backslash "n"
      else if cp =? 13 then String backslash "r"
      else if cp =? 9 then String backslash "t"
      else if (cp <? 32) || (cp =? 60) || (cp =? 62) || (cp =? 38) || (cp =? 0x2028) || (cp =? 0x2029)
      then escape_u cp
      else bytes
  end.

Definition quote_body (s : string) : string := foldr (λ k t, quote_chunk k +:+ t) "" (chunks s).
Definition quote (s : string) : string :=
  String quote_char (quote_body s +:+ String quote_char "").

Definition comma_sep (l : list string) : string := Join_strings "," l.

Fixpoint render (j : json) : string :=
  match j with
  | JNull => "null"
  | JBool true => "true"
  | JBool false => "false"
  | JNum literal => literal
  | JStr s => quote s
  | JArr l => "[" +:+ comma_sep (render <$> l) +:+ "]"
  | JObj l => "{" +:+ comma_sep ((λ '(n, v), quote n +:+ ":" +:+ render v) <$> l) +:+ "}"
  end.

(** ** Parsing *)

Definition is_ws (a : ascii) : bool :=
  let z := byte_of a in (z =? 32) || (z =? 9) || (z =? 10) || (z =? 13).

Fixpoint skip_ws (s : string) : string :=
  match s with String a s' => if is_ws a then skip_ws s' else s | "" => "" end.

(** [utf8.AppendRune] for the code points JSON escapes denote. *)
Definition encode_rune (cp : Z) : string :=
  Stdlib.Strings.String.string_of_list_ascii (char_of <$>
    (if cp <? 0x80 then [cp]
     else if cp <? 0x800 then [Z.lor 0xc0 (Z.shiftr cp 6); Z.lor 0x80 (Z.land cp 0x3f)]
     else if cp <? 0x10000 then
       [Z.lor 0xe0 (Z.shiftr cp 12); Z.lor 0x80 (Z.land (Z.shiftr cp 6) 0x3f);
        Z.lor 0x80 (Z.land cp 0x3f)]
     else
       [Z.lor 0xf0 (Z.shiftr cp 18); Z.lor 0x80 (Z.land (Z.shiftr cp 12) 0x3f);
        Z.lor 0x80 (Z.land (Z.shiftr cp 6) 0x3f); Z.lor 0x80 (Z.land cp 0x3f)])).

Definition replacement : string := encode_rune 0xfffd.

Definition hex4 (a b c d : ascii) : option Z :=
  a ← hex_value a; b ← hex_value b; c ← hex_value c; d ← hex_value d;
  Some (((a * 16 + b) * 16 + c) * 16 + d).

Definition is_surrogate (r : Z) : bool := (0xd800 <=? r) && (r <? 0xe000).

(** [utf16.DecodeRune] *)
Definition surrogate_pair (r1 r2 : Z) : option Z :=
  if (0xd800 <=? r1) && (r1 <? 0xdc00) && (0xdc00 <=? r2) && (r2 <? 0xe000)
  then Some ((r1 - 0xd800) * 0x400 + (r2 - 0xdc00) + 0x10000) else None.

Definition simple_escape (a : ascii) : option string :=
  let z := byte_of a in
  if (z =? 34) || (z =? 92) || (z =? 47) then Some (String a "")
  else if z =? 98 then Some (String "008" "")
  else if z =? 102 then Some (String "012" "")
  else if z =? 110 then Some (String "010" "")
  else if z =? 114 then Some (String "013" "")
  else if z =? 116 then Some (String "009" "")
  else None.

Definition prepend (t : string) (r : option (string * string)) : option (string * string) :=
  '(s, rest) ← r; Some (t +:+ s, rest).

(** The second escape of a surrogate pair, if the text goes on with one. *)
Definition low_surrogate (r : Z) (s : string) : option Z :=
  match s with
  | String e (String u (String a (String b (String c (String d _))))) =>
      if (byte_of e =? 92) && (byte_of u =? 117) then hex4 a b c d ≫= surrogate_pair r else None
  | _ => None
  end.

(** The text of a string after its opening quote: its value and what follows the
    closing quote.  Bytes that are not UTF-8 become U+FFFD. *)
Fixpoint unquote (s : string) : option (string * string) :=
  match s with
  | "" => None
  | String a s1 =>
      let z := byte_of a in
      if z =? 34 then Some ("", s1)
      else if z <? 32 then None
      else if z =? 92 then
        match s1 with
        | "" => None
        | String e s2 =>
            if byte_of e =? 117 then
              match s2 with
              | String a1 (String a2 (String a3 (String a4 s6))) =>
                  match hex4 a1 a2 a3 a4 with
                  | None => None
                  | Some r =>
                      if is_surrogate r then
                        match low_surrogate r s6, s6 with
                        | Some cp, String _ (String _ (String _ (String _ (String _ (String _ s12))))) =>
                            prepend (encode_rune cp) (unquote s12)
                        | _, _ => prepend replacement (unquote s6)
                        end
                      else prepend (encode_rune r) (unquote s6)
                  end
              | _ => None
              end
            else
              match simple_escape e with
              | Some t => prepend t (unquote s2)
              | None => None
              end
        end
      else if z <? 0x80 then prepend (String a "") (unquote s1)
      else
        match s1 with
        | "" => None
        | String b s2 =>
            if two_bytes a b then prepend (String a (String b "")) (unquote s2) else
            match s2 with
            | "" => prepend replacement (unquote s1)
            | String c s3 =>
                if three_bytes a b c
                then prepend (String a (String b (String c ""))) (unquote s3) else
                match s3 with
                | "" => prepend replacement (unquote s1)
                | String d s4 =>
                    if four_bytes a b c d
                    then prepend (String a (String b (String c (String d "")))) (unquote s4)
                    else prepend replacement (unquote s1)
                end
            end
        end
  end.

Definition is_digit (a : ascii) : bool := within 48 57 a.

(** The longest run of digits. *)
Fixpoint digits (s : string) : string * string :=
  match s with
  | String a s' => if is_digit a then let '(d, r) := digits s' in (String a d, r) else ("", s)
  | "" => ("", "")
  end.

Definition is_char (z : Z) (a : ascii) : bool := byte_of a =? z.

(** [-? (0 | [1-9][0-9]* )] *)
Definition parse_int (s : string) : option (string * string) :=
  let '(sign, s) := match s with
                    | String a s' => if is_char 45 a then (String a "", s') else ("", s)
                    | "" => ("", s)
                    end in
  match s with
  | String a s' =>
      if is_char 48 a then Some (sign +:+ String a "", s')
      else if is_digit a then let '(d, r) := digits s in Some (sign +:+ d, r)
      else None
  | "" => None
  end.

Definition parse_frac (s : string) : option (string * string) :=
  match s with
  | String a s' =>
      if is_char 46 a then
        match digits s' with ("", _) => None | (d, r) => Some (String a d, r) end
      else Some ("", s)
  | "" => Some ("", s)
  end.

Definition parse_exp (s : string) : option (string * string) :=
  match s with
  | String a s' =>
      if is_char 101 a || is_char 69 a then
        let '(sign, s'') := match s' with
                            | String b t => if is_char 43 b || is_char 45 b then (String b "", t) else ("", s')
                            | "" => ("", s')
                            end in
        match digits s'' with ("", _) => None | (d, r) => Some (String a (sign +:+ d), r) end
      else Some ("", s)
  | "" => Some ("", s)
  end.

Definition parse_number (s : string) : option (string * string) :=
  '(i, s) ← parse_int s; '(f, s) ← parse_frac s; '(e, s) ← parse_exp s; Some (i +:+ f +:+ e, s).

Fixpoint strip_prefix (p s : string) : option string :=
  match p, s with
  | "", _ => Some s
  | String a p, String b s => if decide (a = b) then strip_prefix p s else None
  | _, _ => None
  end.

(** The text consumed between [s] and its suffix [rest]. *)
Definition consumed (s rest : string) : string :=
  Stdlib.Strings.String.substring 0 (String.length s - String.length rest) s.

(** A member of an object: its name, its value, and the value's text. *)
Record member := Member { m_name : string; m_value : json; m_raw : string }.

(** [decoder]'s nesting limit. *)
Definition max_depth : Z := 10000.

Fixpoint parse_value (fuel : nat) (depth : Z) (s : string) : option (json * string) :=
  match fuel, s with
  | S fuel, String a s1 =>
      let z := byte_of a in
      if z =? 34 then '(v, rest) ← unquote s1; Some (JStr v, rest)
      else if z =? 110 then rest ← strip_prefix "null" s; Some (JNull, rest)
      else if z =? 116 then rest ← strip_prefix "true" s; Some (JBool true, rest)
      else if z =? 102 then rest ← strip_prefix "false" s; Some (JBool false, rest)
      else if z =? 91 then
        if depth <=? 0 then None else
        match skip_ws s1 with
        | String b rest =>
            if is_char 93 b then Some (JArr [], rest)
            else '(l, rest) ← parse_elements fuel (depth - 1) (skip_ws s1); Some (JArr l, rest)
        | "" => None
        end
      else if z =? 123 then
        if depth <=? 0 then None else
        '(l, rest) ← parse_object fuel (depth - 1) s1; Some (JObj ((λ m, (m_name m, m_value m)) <$> l), rest)
      else '(n, rest) ← parse_number s; Some (JNum n, rest)
  | _, _ => None
  end
with parse_elements (fuel : nat) (depth : Z) (s : string) : option (list json * string) :=
  match fuel with
  | S fuel =>
      '(v, rest) ← parse_value fuel depth s;
      match skip_ws rest with
      | String a rest =>
          if is_char 93 a then Some ([v], rest)
          else if is_char 44 a then
            '(l, rest) ← parse_elements fuel depth (skip_ws rest); Some (v :: l, rest)
          else None
      | "" => None
      end
  | O => None
  end
with parse_object (fuel : nat) (depth : Z) (s : string) : option (list member * string) :=
  match fuel with
  | S fuel =>
      match skip_ws s with
      | String a rest => if is_char 125 a then Some ([], rest) else parse_members fuel depth (skip_ws s)
      | "" => None
      end
  | O => None
  end
with parse_members (fuel : nat) (depth : Z) (s : string) : option (list member * string) :=
  match fuel, s with
  | S fuel, String q s1 =>
      if negb (is_char 34 q) then None else
      '(n, rest) ← unquote s1;
      match skip_ws rest with
      | String c rest =>
          if negb (is_char 58 c) then None else
          let text := skip_ws rest in
          '(v, rest) ← parse_value fuel depth text;
          let m := Member n v (consumed text rest) in
          match skip_ws rest with
          | String a rest =>
              if is_char 125 a then Some ([m], rest)
              else if is_char 44 a then
                '(l, rest) ← parse_members fuel depth (skip_ws rest); Some (m :: l, rest)
              else None
          | "" => None
          end
      | "" => None
      end
  | _, _ => None
  end.

(** ** Strict decoding: internal/jsonutil/jsonutil.go *)

Definition fuel_for (s : string) : nat := 4 * String.length s + 4.

(** The first value of a text: its tree, its own text, its members when it is an
    object, and what follows it. *)
Record top := Top { t_value : json; t_text : string; t_members : list member; t_rest : string }.

Definition parse_top (s : string) : option top :=
  let text := skip_ws s in
  '(v, rest) ← parse_value (fuel_for s) max_depth text;
  let members :=
    match text with
    | String a body =>
        if is_char 123 a then default [] (fst <$> parse_object (fuel_for s) (max_depth - 1) body) else []
    | "" => []
    end in
  Some (Top v (consumed text rest) members rest).

(** What [encoding/json] reports.  Its messages are not the repository's; a text
    that is not JSON has one here. *)
Definition json_error (text : string) : error := ForeignErr (Foreign text [] None) None.
Definition syntax_error : error := json_error "invalid JSON".
Definition unknown_field (n : string) : error := json_error ("json: unknown field " +:+ quote n).
Definition wrong_type : error := json_error "json: cannot unmarshal value".

Definition decode_error (e : error) : error := Errorf "decode JSON value: %w" [ArgWrap e].

(** [DecodeStrictInto]: [decode] is the decoder of the target's type. *)
Definition DecodeStrictInto {T} (decode : top → res T) (data : string) : res T :=
  match parse_top data with
  | None => Err (decode_error syntax_error)
  | Some t =>
      match decode t with
      | Err e => Err (decode_error e)
      | Ok v =>
          match skip_ws (t_rest t) with
          | "" => Ok v
          | rest =>
              match parse_value (fuel_for rest) max_depth rest with
              | Some _ => Err (New "JSON contains a trailing value")
              | None => Err (Errorf "decode trailing JSON content: %w" [ArgWrap syntax_error])
              end
          end
      end
  end.

(** Field names match exactly, or up to Unicode case folding. *)
Definition fold_rune (k : chunk) : Z :=
  match k with
  | Rune cp _ =>
      if (97 <=? cp) && (cp <=? 122) then cp - 32
      else if cp =? 0x212a then 75 else if cp =? 0x17f then 83 else cp
  | Bad a => byte_of a
  end.
Definition fold_name (s : string) : list Z := fold_rune <$> chunks s.

Definition find_field (fields : list string) (n : string) : option string :=
  if decide (n ∈ fields) then Some n
  else head (filter (λ f, fold_name f = fold_name n) fields).

(** Decoding into a struct: members in order, later ones over earlier ones; the
    first fault is reported after all members were visited. *)
Fixpoint decode_members {T} (fields : list string)
    (set : string → member → T → T * option error) (ms : list member) (x : T) (fault : option error)
    : T * option error :=
  match ms with
  | [] => (x, fault)
  | m :: ms =>
      let '(x, e) := match find_field fields (m_name m) with
                     | Some f => set f m x
                     | None => (x, Some (unknown_field (m_name m)))
                     end in
      decode_members fields set ms x (match fault with Some e => Some e | None => e end)
  end.

(** [null] leaves the target as it is; anything else but an object is a fault. *)
Definition decode_struct {T} (fields : list string) (set : string → member → T → T * option error)
    (v : json) (ms : list member) (x : T) : T * option error :=
  match v with
  | JObj _ => decode_members fields set ms x None
  | JNull => (x, None)
  | _ => (x, Some wrong_type)
  end.

Definition decode_string (v : json) (x : string) : string * option error :=
  match v with JStr s => (s, None) | JNull => (x, None) | _ => (x, Some wrong_type) end.

Definition as_res {T} (r : T * option error) : res T :=
  match r with (x, None) => Ok x | (_, Some e) => Err e end.

(** [StripCompleteFence] *)
Fixpoint split_first_newline (s : string) : option (string * string) :=
  match s with
  | "" => None
  | String a s =>
      if is_char 10 a then Some ("", s)
      else '(l, r) ← split_first_newline s; Some (String a l, r)
  end.

Fixpoint split_last_newline (s : string) : option (string * string) :=
  match s with
  | "" => None
  | String a s =>
      match split_last_newline s with
      | Some (l, r) => Some (String a l, r)
      | None => if is_char 10 a then Some ("", s) else None
      end
  end.

Fixpoint contains (sub s : string) : bool :=
  match strip_prefix sub s with
  | Some _ => true
  | None => match s with "" => false | String _ s => contains sub s end
  end.

Definition fence : string := "```".

Definition StripCompleteFence (value : string) : string :=
  let trimmed := TrimSpace value in
  match split_first_newline trimmed with
  | None => trimmed
  | Some (opener, body_and_close) =>
      let opener := TrimSpace opener in
      if negb (bool_decide (opener = fence) || bool_decide (opener = fence +:+ "json")) then trimmed else
      match split_last_newline body_and_close with
      | None => trimmed
      | Some (body, close) =>
          if negb (bool_decide (TrimSpace close = fence)) then trimmed
          else if contains fence body then trimmed
          else TrimSpace body
      end
  end.

Example strip_json_fence :
  StripCompleteFence ("```json" +:+ String "010" ("{}" +:+ String "010" "``` ")) = "{}".
Proof. vm_compute. reflexivity. Qed.

(** ** Caller-defined types *)

(** How a Go type is encoded, and decoded from the text of one JSON value, with or
    without [DisallowUnknownFields]. *)
Class Codec (V : Type) := {
  encode : V → res json;
  decode : bool → string → res V;
}.
