(* ===== verification/JsonProofs.v ===== *)
(** * JSON round trips

    Parsing undoes rendering: every well-formed tree is read back from its text,
    whatever follows the text, so what [json.Marshal] writes is what decoding
    finds; and strict decoding refuses everything else ([DecodeStrictInto_strict]). *)

From S2P Require Import Prelude GoError GoStrings Digest Json.
From Stdlib Require Import Ascii.

(** ** Bytes and runes *)

Lemma byte_range a : 0 ≤ byte_of a < 256.
Proof. unfold byte_of. pose proof (N_ascii_bounded a). lia. Qed.

Lemma char_of_byte a : char_of (byte_of a) = a.
Proof. unfold char_of, byte_of. rewrite N2Z.id. apply ascii_N_embedding. Qed.

Lemma byte_of_eq a z : byte_of a = z → a = char_of z.
Proof. intros <-. by rewrite char_of_byte. Qed.

Lemma within_spec lo hi a : within lo hi a = true ↔ lo ≤ byte_of a ≤ hi.
Proof. unfold within. rewrite andb_true_iff, !Z.leb_le. done. Qed.

Lemma land_low k m x : 0 ≤ k → m = Z.ones k → Z.land x m = x mod 2 ^ k.
Proof. intros Hk ->. by apply Z.land_ones. Qed.

Lemma tail_bits_spec a : continuation a = true → tail_bits a = byte_of a - 0x80.
Proof.
  unfold continuation, tail_bits. rewrite within_spec, (land_low 6) by (done || lia).
  intros H. change (2 ^ 6) with 64. Z.div_mod_to_equations. lia.
Qed.

Lemma rune2_spec a b : two_bytes a b = true →
  rune2 a b = (byte_of a - 0xc0) * 64 + (byte_of b - 0x80) ∧ 0x80 ≤ rune2 a b ≤ 0x7ff ∧ 0xc2 ≤ byte_of a ≤ 0xdf.
Proof.
  unfold two_bytes. rewrite andb_true_iff, within_spec. intros [Ha Hb].
  unfold rune2. rewrite (tail_bits_spec b Hb), (land_low 5) by (done || lia).
  apply within_spec in Hb. change (2 ^ 5) with 32. Z.div_mod_to_equations. lia.
Qed.

Lemma within_continuation lo hi a : within lo hi a = true → 0x80 ≤ lo → hi ≤ 0xbf → continuation a = true.
Proof. unfold continuation. rewrite !within_spec. lia. Qed.

Lemma rune3_spec a b c : three_bytes a b c = true →
  rune3 a b c = ((byte_of a - 0xe0) * 64 + (byte_of b - 0x80)) * 64 + (byte_of c - 0x80) ∧
  0x800 ≤ rune3 a b c ≤ 0xffff ∧ 0xe0 ≤ byte_of a ≤ 0xef ∧ 0x80 ≤ byte_of b ≤ 0xbf ∧ 0x80 ≤ byte_of c ≤ 0xbf.
Proof.
  unfold three_bytes. rewrite andb_true_iff, !orb_true_iff, !andb_true_iff. intros [Hab Hc].
  assert (continuation b = true) as Hb.
  { destruct Hab as [[[[_ H]|[_ H]]|[_ H]]|[_ H]]; try done; by eapply within_continuation. }
  unfold rune3. rewrite (tail_bits_spec b Hb), (tail_bits_spec c Hc), (land_low 4) by (done || lia).
  change (2 ^ 4) with 16. unfold continuation in *. rewrite !within_spec in *.
  Z.div_mod_to_equations. lia.
Qed.

Lemma rune4_spec a b c d : four_bytes a b c d = true →
  0x10000 ≤ rune4 a b c d ∧ 0xf0 ≤ byte_of a ≤ 0xf4.
Proof.
  unfold four_bytes. rewrite !andb_true_iff, !orb_true_iff, !andb_true_iff. intros [[Hab Hc] Hd].
  assert (continuation b = true) as Hb.
  { destruct Hab as [[[_ H]|[_ H]]|[_ H]]; try done; by eapply within_continuation. }
  unfold rune4. rewrite (tail_bits_spec b Hb), (tail_bits_spec c Hc), (tail_bits_spec d Hd), (land_low 3)
    by (done || lia).
  change (2 ^ 3) with 8. unfold continuation in *. rewrite !within_spec in *.
  Z.div_mod_to_equations. lia.
Qed.

(** ** Strings *)

Inductive well_chunk : chunk → Prop :=
| well1 a : byte_of a < 0x80 → well_chunk (Rune (byte_of a) (String a ""))
| well2 a b : two_bytes a b = true → well_chunk (Rune (rune2 a b) (String a (String b "")))
| well3 a b c : three_bytes a b c = true →
    well_chunk (Rune (rune3 a b c) (String a (String b (String c ""))))
| well4 a b c d : four_bytes a b c d = true →
    well_chunk (Rune (rune4 a b c d) (String a (String b (String c (String d ""))))).

Lemma chunks_well s : Forall (λ k, is_rune k = true → well_chunk k) (chunks s).
Proof.
  induction s as [s IH] using string_length_ind. destruct s as [|a s1]; [constructor|]. simpl.
  assert (Forall (λ k, is_rune k = true → well_chunk k) (Bad a :: chunks s1)) as Hbad
    by (constructor; [done|apply IH; simpl; lia]).
  destruct (Z.ltb_spec (byte_of a) 0x80).
  { constructor; [by constructor|apply IH; simpl; lia]. }
  destruct s1 as [|b s2]; [by repeat constructor|]. destruct (two_bytes a b) eqn:H2.
  { constructor; [by constructor|apply IH; simpl; lia]. }
  destruct s2 as [|c s3]; [done|]. destruct (three_bytes a b c) eqn:H3.
  { constructor; [by constructor|apply IH; simpl; lia]. }
  destruct s3 as [|d s4]; [done|]. destruct (four_bytes a b c d) eqn:H4; [|done].
  constructor; [by constructor|apply IH; simpl; lia].
Qed.

Lemma chunks_valid s : ValidString s = true → Forall well_chunk (chunks s).
Proof.
  unfold ValidString. rewrite forallb_forall. intros Hv. pose proof (chunks_well s) as Hw.
  rewrite Forall_forall in *. intros k Hk. apply Hw; [done|]. by apply Hv, list_elem_of_In.
Qed.

Ltac decide_bytes :=
  repeat match goal with
  | |- context [Z.eqb ?x ?y] => rewrite (proj2 (Z.eqb_neq x y)) by lia
  | |- context [Z.ltb ?x ?y] => rewrite (proj2 (Z.ltb_ge x y)) by lia
  end.

(** One rune, quoted, reads back as its bytes. *)
Lemma unquote_chunk k t :
  well_chunk k → unquote (quote_chunk k +:+ t) = prepend (chunk_bytes k) (unquote t).
Proof.
  destruct 1 as [a Ha|a b Hab|a b c Habc|a b c d Habcd].
  - destruct a as [[] [] [] [] [] [] [] []]; try (by vm_compute in Ha); reflexivity.
  - pose proof (rune2_spec a b Hab) as (_ & Hr & Ha).
    unfold quote_chunk. decide_bytes. simpl. decide_bytes. by rewrite Hab.
  - pose proof (rune3_spec a b c Habc) as (Heq & Hr & Ha & Hb & Hc).
    unfold quote_chunk.
    destruct (decide (rune3 a b c = 0x2028 ∨ rune3 a b c = 0x2029)) as [Hu|Hu].
    + assert (byte_of a = 0xe2) as ->%byte_of_eq by lia.
      assert (byte_of b = 0x80) as ->%byte_of_eq by lia.
      assert (byte_of c = 0xa8 ∨ byte_of c = 0xa9) as [->%byte_of_eq| ->%byte_of_eq] by lia; reflexivity.
    + decide_bytes. simpl. decide_bytes.
      assert (two_bytes a b = false) as ->.
      { unfold two_bytes. destruct (within 0xc2 0xdf a) eqn:Hw; [|done]. apply within_spec in Hw. lia. }
      by rewrite Habc.
  - pose proof (rune4_spec a b c d Habcd) as (Hr & Ha).
    unfold quote_chunk. decide_bytes. simpl. decide_bytes.
    assert (two_bytes a b = false) as ->.
    { unfold two_bytes. destruct (within 0xc2 0xdf a) eqn:Hw; [|done]. apply within_spec in Hw. lia. }
    assert (three_bytes a b c = false) as ->.
    { destruct (three_bytes a b c) eqn:H3; [|done]. apply rune3_spec in H3. lia. }
    by rewrite Habcd.
Qed.

Lemma app_assoc_string (s t u : string) : (s +:+ t) +:+ u = s +:+ (t +:+ u).
Proof. induction s as [|a s IH]; [done|]. exact (f_equal (String a) IH). Qed.

Lemma prepend_prepend s t r : prepend s (prepend t r) = prepend (s +:+ t) r.
Proof. destruct r as [[u rest]|]; simpl; [|done]. by rewrite app_assoc_string. Qed.

Lemma unquote_quote_body s rest :
  ValidString s = true →
  unquote (quote_body s +:+ String quote_char rest) = Some (s, rest).
Proof.
  intros Hv%chunks_valid. rewrite <-(unchunk_chunks s) at 2. unfold quote_body, unchunk.
  revert Hv. generalize (chunks s) as ks. intros ks Hv.
  induction Hv as [|k ks Hk _ IH]; [done|]. cbn [foldr].
  by rewrite app_assoc_string, unquote_chunk, IH.
Qed.

Lemma unquote_quote s rest :
  ValidString s = true → quote s +:+ rest = String quote_char (quote_body s +:+ String quote_char rest) ∧
  unquote (quote_body s +:+ String quote_char rest) = Some (s, rest).
Proof.
  intros Hv. split; [|by apply unquote_quote_body]. unfold quote.
  change (String quote_char (quote_body s +:+ String quote_char "") +:+ rest)
    with (String quote_char ((quote_body s +:+ String quote_char "") +:+ rest)).
  by rewrite app_assoc_string.
Qed.

(** ** Numbers *)

(** What may follow a value: the end of the text, or a character that is part of
    no number. *)
Definition stops (rest : string) : Prop :=
  match rest with
  | "" => True
  | String a _ => is_digit a = false ∧ is_char 46 a = false ∧ is_char 101 a = false ∧ is_char 69 a = false
  end.

Lemma digits_app s d r rest :
  digits s = (d, r) → stops rest → digits (s +:+ rest) = (d, r +:+ rest).
Proof.
  intros Hs Hrest. revert d r Hs. induction s as [|a s IH]; intros d r Hs.
  - injection Hs as <- <-. change ("" +:+ rest) with rest. destruct rest as [|b rest]; [done|].
    destruct Hrest as [Hd _]. simpl. by rewrite Hd.
  - simpl in Hs. change (String a s +:+ rest) with (String a (s +:+ rest)). simpl.
    destruct (is_digit a); [|by injection Hs as <- <-].
    destruct (digits s) as [d' r']. injection Hs as <- <-. by rewrite (IH d' r').
Qed.

Lemma app_cons a (s rest : string) : String a s +:+ rest = String a (s +:+ rest).
Proof. done. Qed.

Lemma parse_int_app s i r rest :
  parse_int s = Some (i, r) → stops rest → parse_int (s +:+ rest) = Some (i, r +:+ rest).
Proof.
  intros Hs Hrest. unfold parse_int in *. destruct s as [|a s]; [done|].
  rewrite app_cons. cbv beta iota in *. destruct (is_char 45 a); cbv beta iota in *.
  - destruct s as [|b s]; [done|]. rewrite app_cons. cbv beta iota in *.
    destruct (is_char 48 b); [by simplify_eq/=|]. destruct (is_digit b); [|done].
    destruct (digits (String b s)) as [d r'] eqn:Hd.
    rewrite <-app_cons, (digits_app _ _ _ rest Hd Hrest). by simplify_eq/=.
  - destruct (is_char 48 a); [by simplify_eq/=|]. destruct (is_digit a); [|done].
    destruct (digits (String a s)) as [d r'] eqn:Hd.
    rewrite <-app_cons, (digits_app _ _ _ rest Hd Hrest). by simplify_eq/=.
Qed.

Lemma parse_frac_app s f r rest :
  parse_frac s = Some (f, r) → stops rest → parse_frac (s +:+ rest) = Some (f, r +:+ rest).
Proof.
  intros Hs Hrest. destruct s as [|a s].
  - injection Hs as <- <-. change ("" +:+ rest) with rest. destruct rest as [|b rest]; [done|].
    destruct Hrest as (_ & Hd & _). simpl. by rewrite Hd.
  - change (String a s +:+ rest) with (String a (s +:+ rest)). simpl in *.
    destruct (is_char 46 a); [|by injection Hs as <- <-].
    destruct (digits s) as [d r'] eqn:Hd. rewrite (digits_app _ _ _ _ Hd Hrest).
    destruct d; [done|]. by injection Hs as <- <-.
Qed.

Lemma parse_exp_app s e r rest :
  parse_exp s = Some (e, r) → stops rest → parse_exp (s +:+ rest) = Some (e, r +:+ rest).
Proof.
  intros Hs Hrest. destruct s as [|a s].
  - injection Hs as <- <-. change ("" +:+ rest) with rest. destruct rest as [|b rest]; [done|].
    destruct Hrest as (_ & _ & Hd & HD). simpl. by rewrite Hd, HD.
  - change (String a s +:+ rest) with (String a (s +:+ rest)). simpl in *.
    destruct (is_char 101 a || is_char 69 a); [|by injection Hs as <- <-].
    destruct s as [|b s]; [done|]. rewrite app_cons. cbv beta iota in *.
    destruct (is_char 43 b || is_char 45 b); cbv beta iota in *.
    + destruct (digits s) as [d r'] eqn:Hd. rewrite (digits_app _ _ _ _ Hd Hrest).
      destruct d; [done|]. by injection Hs as <- <-.
    + destruct (digits (String b s)) as [d r'] eqn:Hd.
      rewrite <-app_cons, (digits_app _ _ _ rest Hd Hrest).
      destruct d; [done|]. by injection Hs as <- <-.
Qed.

(** A number literal: text that is one number. *)
Definition num_ok (literal : string) : Prop := parse_number literal = Some (literal, "").

Lemma parse_number_app literal rest :
  num_ok literal → stops rest → parse_number (literal +:+ rest) = Some (literal, rest).
Proof.
  unfold num_ok, parse_number. intros Hn Hrest.
  destruct (parse_int literal) as [[i r1]|] eqn:Hi; [|done]. simpl in Hn.
  destruct (parse_frac r1) as [[f r2]|] eqn:Hf; [|done]. simpl in Hn.
  destruct (parse_exp r2) as [[e r3]|] eqn:He; [|done]. injection Hn as Hlit ->.
  rewrite (parse_int_app _ _ _ _ Hi Hrest). simpl.
  rewrite (parse_frac_app _ _ _ _ Hf Hrest). simpl.
  rewrite (parse_exp_app _ _ _ _ He Hrest). simpl. by rewrite Hlit.
Qed.

(** ** Values *)

Lemma json_tree_ind (P : json → Prop) :
  P JNull → (∀ b, P (JBool b)) → (∀ l, P (JNum l)) → (∀ s, P (JStr s)) →
  (∀ l, Forall P l → P (JArr l)) → (∀ l, Forall (λ p, P p.2) l → P (JObj l)) → ∀ j, P j.
Proof.
  intros Hn Hb Hnum Hs Ha Ho. fix IH 1. intros [|b|l|s|l|l]; [done|apply Hb|apply Hnum|apply Hs| |].
  - apply Ha. induction l as [|j l IHl]; constructor; [apply IH|apply IHl].
  - apply Ho. induction l as [|[n j] l IHl]; constructor; [apply IH|apply IHl].
Qed.

(** Trees that are the encoding of something: strings are UTF-8, number literals
    are numbers, and nothing nests deeper than [d]. *)
Fixpoint json_ok (d : Z) (j : json) : Prop :=
  match j with
  | JNull | JBool _ => True
  | JNum literal => num_ok literal
  | JStr s => ValidString s = true
  | JArr l => 0 < d ∧ foldr (λ j P, json_ok (d - 1) j ∧ P) True l
  | JObj l => 0 < d ∧ foldr (λ p P, (ValidString p.1 = true ∧ json_ok (d - 1) p.2) ∧ P) True l
  end.

(** The characters a value can start with. *)
Definition starts_value (s : string) : Prop :=
  match s with
  | "" => False
  | String a _ => is_ws a = false ∧ is_char 93 a = false ∧ is_char 125 a = false
  end.

Lemma num_starts literal : num_ok literal → ∃ a s, literal = String a s ∧ (is_char 45 a = true ∨ is_digit a = true).
Proof.
  unfold num_ok, parse_number, parse_int. destruct literal as [|a s]; [done|]. intros Hn.
  exists a, s. split; [done|]. destruct (is_char 45 a); [by left|right].
  destruct (is_char 48 a) eqn:H0.
  - unfold is_char, is_digit in *. apply within_spec. lia.
  - by destruct (is_digit a).
Qed.

Lemma starts_char z a : 
  (is_char z a = true ∨ is_digit a = true) → z = 45 ∨ z = 34 ∨ z = 91 ∨ z = 123 ∨ z = 110 ∨ z = 116 ∨ z = 102 →
  is_ws a = false ∧ is_char 93 a = false ∧ is_char 125 a = false.
Proof.
  intros Ha Hz. assert (byte_of a = z ∨ 48 ≤ byte_of a ≤ 57) as Hr.
  { destruct Ha as [Ha|Ha]; [left; unfold is_char in Ha; lia|right; by apply within_spec]. }
  unfold is_ws, is_char. cbv zeta. lia.
Qed.

Lemma render_starts d j rest : json_ok d j → starts_value (render j +:+ rest).
Proof.
  destruct j as [|[]|l|s|l|l]; try done.
  intros (a & s & -> & Ha)%num_starts. change (starts_value (String a (s +:+ rest))). eapply starts_char; [done|by left].
Qed.

Lemma starts_skip s : starts_value s → skip_ws s = s.
Proof. destruct s as [|a s]; [done|]. intros [Hw _]. simpl. by rewrite Hw. Qed.

Lemma length_app_string (s t : string) : String.length (s +:+ t) = (String.length s + String.length t)%nat.
Proof.
  induction s as [|a s IH]; [done|]. rewrite app_cons. cbn [String.length]. rewrite IH. lia.
Qed.

Lemma substring_app (s t : string) : Stdlib.Strings.String.substring 0 (String.length s) (s +:+ t) = s.
Proof.
  induction s as [|a s IH]; [by destruct t|]. rewrite app_cons. simpl. by rewrite IH.
Qed.

Lemma consumed_app (s rest : string) : consumed (s +:+ rest) rest = s.
Proof.
  unfold consumed. rewrite length_app_string.
  replace (String.length s + String.length rest - String.length rest)%nat with (String.length s) by lia.
  apply substring_app.
Qed.

Lemma comma_sep_cons x y l : comma_sep (x :: y :: l) = x +:+ "," +:+ comma_sep (y :: l).
Proof. done. Qed.

Lemma comma_sep_head x l : ∃ t, comma_sep (x :: l) = x +:+ t.
Proof.
  destruct l as [|y l]; [|eexists; apply comma_sep_cons].
  exists "". induction x as [|a x IH]; [done|]. by rewrite app_cons, <-IH.
Qed.

Definition parses (j : json) : Prop :=
  ∀ d fuel rest, json_ok d j → stops rest → (String.length (render j) ≤ fuel)%nat →
  parse_value fuel d (render j +:+ rest) = Some (j, rest).

Definition render_member (p : string * json) : string := let '(n, v) := p in quote n +:+ ":" +:+ render v.
Definition raw_member (p : string * json) : member := Member p.1 p.2 (render p.2).

Lemma parse_elements_render j l d fuel rest :
  Forall parses (j :: l) → Forall (json_ok d) (j :: l) →
  (String.length (comma_sep (render <$> j :: l)) + 1 ≤ fuel)%nat →
  parse_elements fuel d (comma_sep (render <$> j :: l) +:+ "]" +:+ rest) = Some (j :: l, rest).
Proof.
  revert j fuel. induction l as [|j2 l IH]; intros j fuel [Hj Hl]%Forall_cons [Hok Hoks]%Forall_cons Hlen.
  - destruct fuel as [|fuel]; [lia|]. cbn [fmap list_fmap comma_sep Join_strings] in *.
    cbn [parse_elements]. rewrite (Hj d) by (done || lia). done.
  - rewrite !fmap_cons, comma_sep_cons in *. rewrite !length_app_string in Hlen.
    destruct fuel as [|fuel]; [lia|]. rewrite !app_assoc_string. cbn [parse_elements].
    rewrite (Hj d) by (done || lia). cbn [mbind option_bind].
    change ("," +:+ ?x) with (String "," x). cbn [skip_ws]. change (is_ws ",") with false. cbv iota.
    change (is_char 93 ",") with false. change (is_char 44 ",") with true. cbv iota.
    rewrite starts_skip.
    2: { apply Forall_cons in Hoks as [Hok2 _].
         destruct (comma_sep_head (render j2) (render <$> l)) as [t ->].
         rewrite app_assoc_string. by eapply render_starts. }
    rewrite <-fmap_cons. rewrite IH; [done|done|done|]. rewrite fmap_cons. cbn [String.length] in Hlen. lia.
Qed.

Lemma render_member_text n v rest :
  render_member (n, v) +:+ rest = quote n +:+ String ":" (render v +:+ rest).
Proof. unfold render_member. by rewrite !app_assoc_string. Qed.

Lemma length_render_member n v :
  (String.length (render v) + 3 ≤ String.length (render_member (n, v)))%nat.
Proof.
  unfold render_member, quote. rewrite !length_app_string. cbn [String.length].
  rewrite !length_app_string. cbn [String.length]. lia.
Qed.

(** One member, up to the character after its value. *)
Lemma parse_member n v d fuel rest :
  ValidString n = true → json_ok d v → parses v → stops rest →
  (String.length (render_member (n, v)) ≤ S fuel)%nat →
  parse_members (S fuel) d (render_member (n, v) +:+ rest) =
    match skip_ws rest with
    | String a rest =>
        if is_char 125 a then Some ([raw_member (n, v)], rest)
        else if is_char 44 a then
          '(l, rest) ← parse_members fuel d (skip_ws rest); Some (raw_member (n, v) :: l, rest)
        else None
    | "" => None
    end.
Proof.
  intros Hn Hv Hp Hstop Hlen. pose proof (length_render_member n v).
  rewrite render_member_text. destruct (unquote_quote n (String ":" (render v +:+ rest)) Hn) as [-> Hq].
  cbn [parse_members]. change (is_char 34 quote_char) with true. cbn [negb]. rewrite Hq.
  cbn [mbind option_bind skip_ws]. change (is_ws ":") with false. cbv iota.
  change (is_char 58 ":") with true. cbn [negb]. cbv zeta.
  rewrite starts_skip by by eapply render_starts.
  rewrite (Hp d) by (done || lia). cbn [mbind option_bind]. by rewrite consumed_app.
Qed.

Lemma parse_members_render p l d fuel rest :
  Forall (λ p, parses p.2) (p :: l) →
  Forall (λ p, ValidString p.1 = true ∧ json_ok d p.2) (p :: l) →
  (String.length (comma_sep (render_member <$> p :: l)) ≤ fuel)%nat →
  parse_members fuel d (comma_sep (render_member <$> p :: l) +:+ "}" +:+ rest) =
    Some (raw_member <$> p :: l, rest).
Proof.
  revert p fuel. induction l as [|p2 l IH]; intros [n v] fuel [Hp Hl]%Forall_cons [[Hn Hv] Hoks]%Forall_cons Hlen.
  - cbn [fmap list_fmap comma_sep Join_strings] in *. pose proof (length_render_member n v).
    destruct fuel as [|fuel]; [lia|]. by rewrite parse_member.
  - rewrite !(fmap_cons render_member), comma_sep_cons in *. rewrite !length_app_string in Hlen.
    pose proof (length_render_member n v). destruct fuel as [|fuel]; [lia|].
    rewrite !app_assoc_string, parse_member by (done || lia).
    change ("," +:+ ?x) with (String "," x). cbn [skip_ws]. change (is_ws ",") with false. cbv iota.
    change (is_char 125 ",") with false. change (is_char 44 ",") with true. cbv iota.
    assert (∀ t, skip_ws (comma_sep (render_member p2 :: (render_member <$> l)) +:+ t) =
                 comma_sep (render_member p2 :: (render_member <$> l)) +:+ t) as Hskip.
    { intros t. destruct (comma_sep_head (render_member p2) (render_member <$> l)) as [t' ->].
      by destruct p2. }
    rewrite Hskip, <-(fmap_cons render_member).
    rewrite IH; [done|done|done|]. rewrite fmap_cons. cbn [String.length] in Hlen. lia.
Qed.

Lemma foldr_Forall {A} (P : A → Prop) (l : list A) : foldr (λ x Q, P x ∧ Q) True l ↔ Forall P l.
Proof. induction l; simpl; [done|]. by rewrite Forall_cons, IHl. Qed.

Lemma render_obj l : render (JObj l) = "{" +:+ comma_sep (render_member <$> l) +:+ "}".
Proof. done. Qed.

Lemma parse_object_render l d fuel rest :
  Forall (λ p, parses p.2) l →
  Forall (λ p, ValidString p.1 = true ∧ json_ok d p.2) l →
  (String.length (comma_sep (render_member <$> l)) + 1 ≤ fuel)%nat →
  parse_object fuel d (comma_sep (render_member <$> l) +:+ "}" +:+ rest) = Some (raw_member <$> l, rest).
Proof.
  intros Hp Hok Hlen. destruct fuel as [|fuel]; [lia|]. cbn [parse_object].
  destruct l as [|[n v] l]; [done|].
  assert (skip_ws (comma_sep (render_member <$> (n, v) :: l) +:+ "}" +:+ rest) =
          comma_sep (render_member <$> (n, v) :: l) +:+ "}" +:+ rest) as ->.
  { rewrite fmap_cons. by destruct (comma_sep_head (render_member (n, v)) (render_member <$> l)) as [t ->]. }
  rewrite parse_members_render by (done || lia).
  rewrite fmap_cons. by destruct (comma_sep_head (render_member (n, v)) (render_member <$> l)) as [t ->].
Qed.

(** Parsing undoes rendering. *)
Lemma parse_value_render j : parses j.
Proof.
  induction j as [|[]|literal|s|l IH|l IH] using json_tree_ind; intros d fuel rest Hok Hstop Hlen.
  1-3: destruct fuel; [simpl in Hlen; lia|done].
  - cbn [render json_ok] in *. destruct (num_starts literal Hok) as (a & s & -> & Ha).
    destruct fuel as [|fuel]; [simpl in Hlen; lia|].
    pose proof (parse_number_app _ rest Hok Hstop) as Hnum. rewrite app_cons in *.
    assert (byte_of a = 45 ∨ 48 ≤ byte_of a ≤ 57) as Hr.
    { destruct Ha as [Ha|Ha]; [left; unfold is_char in Ha; lia|right; by apply within_spec]. }
    cbn [parse_value]. cbv zeta.
    repeat match goal with
    | |- context [Z.eqb (byte_of a) ?y] => rewrite (proj2 (Z.eqb_neq (byte_of a) y)) by lia
    end.
    by rewrite Hnum.
  - cbn [render json_ok] in *. destruct fuel as [|fuel]; [unfold quote in Hlen; simpl in Hlen; lia|].
    destruct (unquote_quote s rest Hok) as [-> Hq]. cbn [parse_value]. cbv zeta.
    change (byte_of quote_char =? 34) with true. cbv iota. by rewrite Hq.
  - cbn [json_ok] in Hok. destruct Hok as [Hd Hok%foldr_Forall].
    cbn [render] in *. rewrite !length_app_string in Hlen.
    change (String.length "[") with 1%nat in Hlen. change (String.length "]") with 1%nat in Hlen.
    destruct fuel as [|fuel]; [lia|]. rewrite !app_assoc_string.
    change ("[" +:+ ?x) with (String "[" x). cbn [parse_value]. cbv zeta.
    change (byte_of "[" =? 34) with false. change (byte_of "[" =? 110) with false.
    change (byte_of "[" =? 116) with false. change (byte_of "[" =? 102) with false.
    change (byte_of "[" =? 91) with true. cbv iota.
    rewrite (proj2 (Z.leb_gt d 0)) by lia.
    destruct l as [|j l]; [done|].
    apply Forall_cons in Hok as Hok'. destruct Hok' as [Hj _].
    assert (starts_value (comma_sep (render <$> j :: l) +:+ "]" +:+ rest)) as Hst.
    { rewrite fmap_cons. destruct (comma_sep_head (render j) (render <$> l)) as [t ->].
      rewrite app_assoc_string. by eapply render_starts. }
    pose proof (parse_elements_render j l (d - 1) fuel rest IH Hok ltac:(lia)) as Hel.
    rewrite (starts_skip _ Hst), Hel.
    destruct (comma_sep (render <$> j :: l) +:+ "]" +:+ rest) as [|a t]; [done|].
    destruct Hst as (_ & -> & _). done.
  - cbn [json_ok] in Hok. destruct Hok as [Hd Hok%foldr_Forall].
    rewrite render_obj in *. rewrite !length_app_string in Hlen.
    change (String.length "{") with 1%nat in Hlen. change (String.length "}") with 1%nat in Hlen.
    destruct fuel as [|fuel]; [lia|]. rewrite !app_assoc_string.
    change ("{" +:+ ?x) with (String "{" x). cbn [parse_value]. cbv zeta.
    change (byte_of "{" =? 34) with false. change (byte_of "{" =? 110) with false.
    change (byte_of "{" =? 116) with false. change (byte_of "{" =? 102) with false.
    change (byte_of "{" =? 91) with false. change (byte_of "{" =? 123) with true. cbv iota.
    rewrite (proj2 (Z.leb_gt d 0)) by lia.
    rewrite parse_object_render by (done || lia). cbn [mbind option_bind].
    rewrite <-list_fmap_compose. do 2 f_equal. f_equal. rewrite <-(list_fmap_id l) at 2.
    apply list_fmap_ext. by intros ? [] ?.
Qed.

(** Reading a rendered text as a whole: the tree, its text, its members. *)
Definition members_of (j : json) : list member :=
  match j with JObj l => raw_member <$> l | _ => [] end.

Lemma app_empty_string (t : string) : t +:+ "" = t.
Proof. induction t as [|a t IH]; [done|]. by rewrite app_cons, IH. Qed.

Lemma parse_top_app j rest :
  json_ok max_depth j → stops rest →
  parse_top (render j +:+ rest) = Some (Top j (render j) (members_of j) rest).
Proof.
  intros Hok Hstop. unfold parse_top.
  rewrite (starts_skip _ (render_starts max_depth j rest Hok)).
  rewrite parse_value_render; [|done|done|unfold fuel_for; rewrite length_app_string; lia].
  cbn [mbind option_bind]. rewrite consumed_app. do 2 f_equal.
  destruct j as [|[]|literal|s|l|l]; try done.
  - destruct (num_starts literal Hok) as (a & s & -> & Ha). cbn [render]. rewrite app_cons.
    unfold is_char at 1. assert (byte_of a = 45 ∨ 48 ≤ byte_of a ≤ 57) as Hr.
    { destruct Ha as [Ha|Ha]; [left; unfold is_char in Ha; lia|right; by apply within_spec]. }
    by rewrite (proj2 (Z.eqb_neq (byte_of a) 123)) by lia.
  - cbn [json_ok] in Hok. destruct Hok as [Hd Hok%foldr_Forall]. rewrite render_obj.
    rewrite !app_assoc_string. change ("{" +:+ ?x) with (String "{" x). cbv iota.
    change (is_char 123 "{") with true. cbv iota.
    rewrite parse_object_render; [done| |done|].
    + apply Forall_forall. intros p _. apply parse_value_render.
    + unfold fuel_for. cbn [String.length]. rewrite length_app_string. lia.
Qed.

Lemma parse_top_render j :
  json_ok max_depth j → parse_top (render j) = Some (Top j (render j) (members_of j) "").
Proof. intros Hok. rewrite <-(app_empty_string (render j)) at 1. by apply parse_top_app. Qed.

(** A fault stays the result of decoding the members that follow. *)
Lemma decode_members_fault {T} fields (set : string → member → T → T * option error) ms x e :
  ∃ x', decode_members fields set ms x (Some e) = (x', Some e).
Proof.
  revert x. induction ms as [|m ms IH]; intros x; cbn [decode_members]; [by exists x|].
  by destruct (match find_field _ _ with Some _ => _ | None => _ end) as [x1 e1].
Qed.

(** An object is decoded without fault only when every member names a field. *)
Lemma decode_members_known {T} fields (set : string → member → T → T * option error) ms x v :
  decode_members fields set ms x None = (v, None) → Forall (λ m, is_Some (find_field fields (m_name m))) ms.
Proof.
  revert x. induction ms as [|m ms IH]; intros x; cbn [decode_members]; [constructor|].
  destruct (find_field fields (m_name m)) as [f|] eqn:Hf.
  - destruct (set f m x) as [x1 [e|]].
    + intros Hd. by destruct (decode_members_fault fields set ms x1 e) as [x' E]; rewrite E in Hd.
    + intros Hd. constructor; [by rewrite Hf|by eapply IH].
  - intros Hd. by destruct (decode_members_fault fields set ms x (unknown_field (m_name m))) as [x' E];
      rewrite E in Hd.
Qed.

(** C38: Strict decoding.  The text of a well-formed tree followed by [rest] is
    decoded, by the decoder of any type, exactly when that decoder accepts the tree,
    with the exact text of each member, and [rest] is blank; a second value behind
    it is refused as such.  The decoder of a struct accepts nothing but [null],
    which leaves the target as it is, and an object each of whose members names a
    field: an unknown member is refused, whatever the others are. *)
Theorem DecodeStrictInto_strict j rest :
  json_ok max_depth j → stops rest →
  (∀ T (decode : top → res T) v,
     DecodeStrictInto decode (render j +:+ rest) = Ok v ↔
     decode (Top j (render j) (members_of j) rest) = Ok v ∧ skip_ws rest = "") ∧
  (∀ T (decode : top → res T) v j2,
     decode (Top j (render j) (members_of j) rest) = Ok v →
     json_ok max_depth j2 → skip_ws rest = render j2 →
     DecodeStrictInto decode (render j +:+ rest) = Err (New "JSON contains a trailing value")) ∧
  (∀ T fields (set : string → member → T → T * option error) x v,
     DecodeStrictInto (λ t, as_res (decode_struct fields set (t_value t) (t_members t) x))
       (render j +:+ rest) = Ok v →
     j = JNull ∧ v = x ∨
     ∃ l, j = JObj l ∧ Forall (λ m, is_Some (find_field fields m.1)) l).
Proof.
  intros Hok Hstop. unfold DecodeStrictInto. rewrite (parse_top_app j rest Hok Hstop). cbn [t_rest t_value t_members].
  split_and!; intros T.
  - intros decode v. destruct (decode _) as [x|e]; [|by split; [|intros [? _]]].
    destruct (skip_ws rest) as [|a s]; [naive_solver|]. destruct (parse_value _ _ _); split; naive_solver.
  - intros decode v j2 -> Hj2 ->. destruct (render j2) as [|a s] eqn:Hr.
    { pose proof (render_starts _ j2 "" Hj2) as Hst. by rewrite Hr in Hst. }
    rewrite <-Hr. assert (parse_value (fuel_for (render j2)) max_depth (render j2 +:+ "") = Some (j2, "")) as Hp.
    { apply parse_value_render; [done|done|unfold fuel_for; lia]. }
    by rewrite app_empty_string in Hp; rewrite Hp.
  - intros fields set x v Hd. destruct (as_res _) as [y|e] eqn:Hres; [|done].
    assert (y = v) as -> by (destruct (skip_ws rest); [by injection Hd|by destruct (parse_value _ _ _)]).
    clear Hd. destruct j as [| | | | |l]; try done; [left; by injection Hres|].
    right. exists l. split; [done|]. cbn [decode_struct members_of] in Hres.
    destruct (decode_members _ _ _ _ _) as [z [e|]] eqn:Hz; [done|].
    injection Hres as ->. apply decode_members_known in Hz. by rewrite Forall_fmap in Hz.
Qed.

(** The identifiers and flags of a small object, read back with a blank behind it;
    a struct without the field "ids" refuses it. *)
Lemma DecodeStrictInto_strict_witness :
  let j := JObj [("ids", JArr [JNum "-12.5e3"; JStr "<a>"]); ("ok", JBool true); ("none", JNull)] in
  let set (f : string) (m : member) (n : Z) := (n + 1, @None error) in
  json_ok max_depth j ∧
  DecodeStrictInto (λ t, Ok (t_value t, t_members t)) (render j +:+ " ") = Ok (j, members_of j) ∧
  DecodeStrictInto (λ t, Ok (t_value t)) (render j +:+ " " +:+ render j) = Err (New "JSON contains a trailing value") ∧
  ∀ v, DecodeStrictInto (λ t, as_res (decode_struct ["ok"; "none"] set (t_value t) (t_members t) 0))
         (render j +:+ " ") ≠ Ok v.
Proof.
  intros j set. assert (json_ok max_depth j) as Hj by (vm_compute; repeat split; reflexivity).
  assert (stops " ") as Hs by (repeat split).
  assert (stops (" " +:+ render j)) as Hs2 by (repeat split).
  split; [exact Hj|].
  destruct (DecodeStrictInto_strict j " " Hj Hs) as (Hok & _ & Hstruct).
  destruct (DecodeStrictInto_strict j (" " +:+ render j) Hj Hs2) as (_ & Htrail & _).
  split; [|split].
  - apply Hok. split; reflexivity.
  - apply (Htrail json _ j j); [reflexivity|exact Hj|reflexivity].
  - intros v Hv. destruct (Hstruct _ _ _ _ _ Hv) as [[Hn _]|(l & Hl & Hall)]; [discriminate Hn|].
    injection Hl as <-. apply Forall_inv in Hall as [f Hf]. vm_compute in Hf. discriminate Hf.
Defined.
