(* ===== verification/Fsutil.v ===== *)
(** * Atomic publication of files: internal/fsutil/fsutil.go

    The file system has a volatile state, which running programs see, and a
    durable state, which a crash leaves behind: the contents last synced of each
    file and the directory entries last synced, those of files ([dirents],
    [durable]) and those of directories ([dirs], [durable_dirs]).  Syncing a
    directory makes the entries in it durable, not its own entry in its parent.  A
    crash keeps, for every path independently, the durable or the volatile entry,
    loses everything below a directory whose entry it loses, and may leave anything
    in a file that was not synced.  Every system call either succeeds or fails with
    one of the errors the operating system may report, [oserrs]; the names
    [os.CreateTemp] may draw are [temp_names]. *)

From S2P Require Import Prelude GoError Go.
From Stdlib Require Import Ascii.

Record inode := Inode { i_data : string; i_synced : string }.

Record fs := Fs {
  inodes : list inode;
  dirents : gmap string nat;    (* path to file *)
  durable : gmap string nat;
  dirs : gset string;           (* the directories, "/" and "." apart *)
  durable_dirs : gset string;
}.

Record fsw := Fsw { fw_ctxs : ctxs; fw_fs : fs }.

(** What a program reads at [path]. *)
Definition content (f : fs) (path : string) : option string :=
  i ← dirents f !! path; i_data <$> inodes f !! i.

Definition set_dirents (d : gmap string nat) (f : fs) : fs :=
  Fs (inodes f) d (durable f) (dirs f) (durable_dirs f).
Definition set_dirs (ds : gset string) (f : fs) : fs :=
  Fs (inodes f) (dirents f) (durable f) ds (durable_dirs f).
Definition set_inode (i : nat) (x : inode) (f : fs) : fs :=
  Fs (<[i := x]> (inodes f)) (dirents f) (durable f) (dirs f) (durable_dirs f).

(** [filepath.Dir] of a clean path. *)
Definition slash : ascii := "/".
Fixpoint before_last_slash (s : string) : option string :=
  match s with
  | "" => None
  | String a s =>
      match before_last_slash s with
      | Some d => Some (String a d)
      | None => if decide (a = slash) then Some "" else None
      end
  end.
Definition Dir (path : string) : string :=
  match before_last_slash path with None => "." | Some "" => "/" | Some d => d end.

(** [d] and the directories above it, up to "/" or ".". *)
Fixpoint up (n : nat) (d : string) : list string :=
  if decide (Dir d = d) then [] else
  d :: match n with O => [] | S n => up n (Dir d) end.
Definition ancestors (d : string) : list string := up (String.length d) d.

Lemma before_last_slash_length s d :
  before_last_slash s = Some d → (String.length d < String.length s)%nat.
Proof.
  revert d. induction s as [|a s IH]; intros d; [done|]. cbn [before_last_slash].
  destruct (before_last_slash s) as [d'|]; [intros [= <-]; cbn; specialize (IH _ eq_refl); lia|].
  case_decide; [|done]. intros [= <-]. cbn. lia.
Qed.

(** Going up shortens a path, until it stops. *)
Lemma Dir_shorter d : Dir (Dir d) = Dir d ∨ (1 ≤ String.length (Dir d) < String.length d)%nat.
Proof.
  destruct (before_last_slash d) as [s|] eqn:Hd.
  - destruct s as [|a s]; (eassert (Dir d = _) as -> by (unfold Dir; by rewrite Hd)); [by left|].
    right. apply before_last_slash_length in Hd. cbn [String.length] in *. lia.
  - left. by eassert (Dir d = _) as -> by (unfold Dir; by rewrite Hd).
Qed.

Lemma up_stop n d : Dir d = d → up n d = [].
Proof. intros Hd. destruct n; cbn [up]; by rewrite decide_True. Qed.

Lemma up_S n d : (String.length d ≤ n)%nat → up (S n) d = up n d.
Proof.
  revert d. induction n as [|n IH]; intros d Hn; [destruct d; [vm_compute; reflexivity|exfalso; cbn in Hn; lia]|].
  change (up (S ?n) d) with (if decide (Dir d = d) then [] else d :: up n (Dir d)).
  case_decide; [done|]. f_equal.
  destruct (Dir_shorter d) as [Ht|Ht]; [rewrite !up_stop by done; done|]. apply IH. lia.
Qed.

(** The fuel of [ancestors] is enough. *)
Lemma ancestors_unfold d : ancestors d = if decide (Dir d = d) then [] else d :: ancestors (Dir d).
Proof.
  assert (∀ n d, (String.length d ≤ n)%nat → up n d = ancestors d) as Hup.
  { clear. intros n d. induction 1 as [|n Hn IH]; [done|]. by rewrite up_S. }
  rewrite <-(Hup (S (String.length d))) by lia. cbn [up]. case_decide; [done|]. f_equal.
  destruct (Dir_shorter d) as [Ht|Ht]; [|apply Hup; lia]. unfold ancestors. by rewrite !up_stop.
Qed.

Lemma elem_of_up n a d :
  a ∈ up n d → Dir a ≠ a ∧ Dir d ≠ d ∧ (a = d ∨ (String.length a < String.length d)%nat).
Proof.
  revert d. induction n as [|n IH]; intros d; cbn [up]; case_decide as Hd; try by intros ?%elem_of_nil.
  - intros ->%list_elem_of_singleton. auto.
  - intros [-> |Ha]%elem_of_cons; [auto|]. apply IH in Ha as (Ha & Ht & Hs).
    destruct (Dir_shorter d) as [?|Hl]; [done|]. split_and!; [done|done|]. right.
    destruct Hs as [-> |Hs]; lia.
Qed.

(** No directory on the way to [d] lies in [d]. *)
Lemma ancestor_not_child a d : a ∈ ancestors d → Dir a ≠ d.
Proof.
  intros (Ha & Hd & Hs)%elem_of_up <-. destruct (Dir_shorter a) as [?|Hl]; [done|].
  destruct Hs as [Hs|Hs]; [congruence|lia].
Qed.

Definition is_dir (f : fs) (d : string) : Prop := Dir d = d ∨ d ∈ dirs f.
#[export] Instance is_dir_dec f d : Decision (is_dir f d).
Proof. unfold is_dir. apply _. Defined.

Section syscalls.
Context (oserrs : list error) (temp_names : string → string → list string).

(** A call that does [f] or fails without effect. *)
Definition syscall {X} (f : fs → list (fs * X)) : prog fsw (res X) :=
  await (λ w, ((λ '(f', x), (Fsw (fw_ctxs w) f', Ok x)) <$> f (fw_fs w))
              ++ ((λ e, (w, Err e)) <$> oserrs)).

(** [os.MkdirAll]: every directory missing on the way, from the top; a file in the
    way is an error, and an error leaves the directories made before it. *)
Definition mkdir (d : string) : prog fsw (res unit) :=
  syscall (λ f, if decide (is_dir f d) then [(f, tt)] else
                match dirents f !! d with
                | Some _ => []
                | None => [(set_dirs ({[d]} ∪ dirs f) f, tt)]
                end).
Fixpoint mkdirs (ds : list string) : prog fsw (res unit) :=
  match ds with
  | [] => mret (Ok tt)
  | d :: ds => _ ←? mkdir d; mkdirs ds
  end.
Definition MkdirAll (directory : string) : prog fsw (res unit) := mkdirs (reverse (ancestors directory)).

(** A new empty file, in a directory that exists, under a name not in use. *)
Definition CreateTemp (directory pattern : string) : prog fsw (res (string * nat)) :=
  syscall (λ f, if decide (is_dir f directory) then
                  (λ name, (Fs (inodes f ++ [Inode "" ""])
                              (<[name := length (inodes f)]> (dirents f)) (durable f)
                              (dirs f) (durable_dirs f),
                            (name, length (inodes f))))
                  <$> filter (λ name, dirents f !! name = None ∧ ¬ is_dir f name)
                        (temp_names directory pattern)
                else []).

Definition Chmod (file : nat) : prog fsw (res unit) := syscall (λ f, [(f, tt)]).

(** [file.Write(data)]: a failed write leaves some part of [data]. *)
Definition append_data (i : nat) (d : string) (f : fs) : fs :=
  match inodes f !! i with
  | Some x => set_inode i (Inode (i_data x +:+ d) (i_synced x)) f
  | None => f
  end.
Definition prefixes (d : string) : list string :=
  (λ n, Stdlib.Strings.String.substring 0 n d) <$> seq 0 (S (String.length d)).
Definition Write (file : nat) (d : string) : prog fsw (res unit) :=
  await (λ w,
    (Fsw (fw_ctxs w) (append_data file d (fw_fs w)), Ok tt) ::
    (e ← oserrs; p ← prefixes d; [(Fsw (fw_ctxs w) (append_data file p (fw_fs w)), Err e)])).

Definition Sync (file : nat) : prog fsw (res unit) :=
  syscall (λ f, [(match inodes f !! file with
                  | Some x => set_inode file (Inode (i_data x) (i_data x)) f
                  | None => f
                  end, tt)]).

Definition Close (file : nat) : prog fsw (res unit) := syscall (λ f, [(f, tt)]).

(** [os.Rename] of a file: it replaces a file, and fails on a directory. *)
Definition Rename (old new : string) : prog fsw (res unit) :=
  syscall (λ f, if decide (is_dir f new) then [] else
                match dirents f !! old with
                | Some i => [(set_dirents (<[new := i]> (delete old (dirents f))) f, tt)]
                | None => []
                end).

Definition Remove (path : string) : prog fsw (res unit) :=
  syscall (λ f, [(set_dirents (delete path (dirents f)) f, tt)]).

(** The entries of one directory become durable: its files and its
    subdirectories. *)
Definition sync_entries (directory : string) (f : fs) : fs :=
  Fs (inodes f) (dirents f)
     (filter (λ p, Dir p.1 = directory) (dirents f) ∪ filter (λ p, Dir p.1 ≠ directory) (durable f))
     (dirs f) (durable_dirs f ∪ filter (λ d, Dir d = directory) (dirs f)).

(** [SyncDirectory]: open, sync, close. *)
Definition SyncDirectory (path : string) : prog fsw (res unit) :=
  _ ←? syscall (λ f, if decide (is_dir f path) then [(f, tt)] else []);
  synced ← syscall (λ f, [(sync_entries path f, tt)]);
  match synced with
  | Err e => _ ← syscall (λ f, [(f, tt)]); mret (Err e)
  | Ok _ => syscall (λ f, [(f, tt)])
  end.

Definition ctx_Err (c : ctx) : prog fsw (res unit) :=
  read (λ w, match ctx_err c (fw_ctxs w) with Some e => Err e | None => Ok tt end).

(** Wraps the error of a call. *)
Definition wrapping {W X} (format : string) (p : prog W (res X)) : prog W (res X) :=
  r ← p; mret (match r with Ok x => Ok x | Err e => Err (Errorf format [ArgWrap e]) end).

(** The part of [AtomicWrite] between the creation of the temporary file and the
    deferred cleanup. *)
Definition publish (c : ctx) (path data : string) (name : string) (file : nat) : prog fsw (res unit) :=
  _ ←? wrapping "set file permissions: %w" (Chmod file);
  _ ←? wrapping "write temporary file: %w" (Write file data);
  _ ←? wrapping "sync temporary file: %w" (Sync file);
  _ ←? ctx_Err c;
  _ ←? wrapping "close temporary file: %w" (Close file);
  _ ←? wrapping "publish file: %w" (Rename name path);
  wrapping "sync parent directory: %w" (SyncDirectory (Dir path)).

Definition AtomicWrite (c : ctx) (path data pattern : string) : prog fsw (res unit) :=
  _ ←? ctx_Err c;
  let pattern := if decide (pattern = "") then ".atomic-*" else pattern in
  let directory := Dir path in
  _ ←? wrapping "create parent directory: %w" (MkdirAll directory);
  temporary ←? wrapping "create temporary file: %w" (CreateTemp directory pattern);
  let '(name, file) := temporary in
  r ← publish c path data name file;
  _ ← Close file;
  _ ← Remove name;
  mret r.

(** ** Crash safety *)

(** The directories on the way to the entries of [d] survive any crash. *)
Definition anchored (f : fs) (d : string) : Prop := Forall (λ a, a ∈ durable_dirs f) (ancestors d).

(** [crash f read]: after a crash in [f], which keeps the directories [kept], a
    program may find [read] at each path. *)
Definition crash (f : fs) (read : string → option string) : Prop :=
  ∃ kept, durable_dirs f ⊆ kept ∧ kept ⊆ dirs f ∪ durable_dirs f ∧
  ∀ path, if decide (Forall (λ a, a ∈ kept) (ancestors (Dir path))) then
    ∃ i, (i = dirents f !! path ∨ i = durable f !! path) ∧
      match i with
      | None => read path = None
      | Some i => ∃ x text, inodes f !! i = Some x ∧ read path = Some text ∧
                  (i_synced x = i_data x → text = i_data x)
      end
  else read path = None.

(** The entry [i] denotes a file synced with text [t], or no file. *)
Definition holds (f : fs) (i : option nat) (t : option string) : Prop :=
  match i with
  | None => t = None
  | Some i => ∃ x, inodes f !! i = Some x ∧ i_synced x = i_data x ∧ t = Some (i_data x)
  end.

(** [path] holds [old], also after a crash. *)
Definition settled_at (f : fs) (path : string) (old : option string) : Prop :=
  durable f !! path = dirents f !! path ∧ holds f (dirents f !! path) old.

Definition either_at (f : fs) (path : string) (t1 t2 : option string) : Prop :=
  (holds f (dirents f !! path) t1 ∨ holds f (dirents f !! path) t2) ∧
  (holds f (durable f !! path) t1 ∨ holds f (durable f !! path) t2).

Lemma holds_content f path t : holds f (dirents f !! path) t → content f path = t.
Proof.
  unfold content. destruct (dirents f !! path) as [i|]; simpl; [|by intros ->].
  by intros (x & -> & _ & ->).
Qed.

Lemma either_at_crash f path t1 t2 read :
  either_at f path t1 t2 → crash f read →
  read path = t1 ∨ read path = t2 ∨ read path = None ∧ ¬ anchored f (Dir path).
Proof.
  intros [Hcur Hdur] (kept & Hkept & _ & Hcrash). specialize (Hcrash path). case_decide as Hk.
  2: { right; right. split; [done|]. intros Ha. apply Hk. eapply Forall_impl; [exact Ha|]. intros a; apply Hkept. }
  destruct Hcrash as (i & Hi & Hread).
  assert (holds f i t1 ∨ holds f i t2) as Hh by (destruct Hi as [->| ->]; assumption).
  destruct i as [i|]; simpl in Hh.
  - destruct Hread as (x & text & Hx & Hr & Htext).
    destruct Hh as [(y & Hy & Hs & ->)|(y & Hy & Hs & ->)]; simplify_eq;
      rewrite Hr, Htext by done; auto.
  - rewrite Hread. destruct Hh as [->| ->]; auto.
Qed.

Lemma settled_either f path t : settled_at f path t → either_at f path t t.
Proof. intros [Hd Hh]. split; left; by rewrite ?Hd. Qed.

(** Entries denote files. *)
Definition fs_ok (f : fs) : Prop := ∀ q i, dirents f !! q = Some i → (i < length (inodes f))%nat.

(** A crash may lose every directory that is not anchored. *)
Lemma crash_loses f :
  fs_ok f → ∃ read, crash f read ∧ ∀ path, ¬ anchored f (Dir path) → read path = None.
Proof.
  intros Hok. exists (λ path, if decide (anchored f (Dir path)) then content f path else None).
  split; [|by intros path Hn; rewrite decide_False].
  exists (durable_dirs f). split; [done|]. split; [apply union_subseteq_r|]. intros path.
  change (Forall _ (ancestors (Dir path))) with (anchored f (Dir path)).
  case_decide; [|done]. exists (dirents f !! path). split; [by left|]. unfold content.
  destruct (dirents f !! path) as [i|] eqn:Hi; [|done].
  destruct (lookup_lt_is_Some_2 _ _ (Hok _ _ Hi)) as [x Hx]. exists x, (i_data x).
  by simpl; rewrite Hx.
Qed.

Lemma always_syscall {X} (I : fsw → Prop) (Q : res X → fsw → Prop) (f : fs → list (fs * X)) w :
  I w → (∀ f' x, (f', x) ∈ f (fw_fs w) → I (Fsw (fw_ctxs w) f') ∧ Q (Ok x) (Fsw (fw_ctxs w) f')) →
  (∀ e, Q (Err e) w) → always I Q (syscall f) w.
Proof.
  intros Hw Hf He. apply always_await; [done|]. intros w' r [Hin|Hin]%elem_of_app.
  - apply list_elem_of_fmap in Hin as ([f' x] & [= -> ->] & Hin). by apply Hf.
  - apply list_elem_of_fmap in Hin as (e & [= -> ->] & _). auto.
Qed.

Lemma always_wrapping {X} (I : fsw → Prop) (Q : res X → fsw → Prop) format (p : prog fsw (res X)) w :
  always I (λ r w', Q (match r with Ok x => Ok x | Err e => Err (Errorf format [ArgWrap e]) end) w') p w →
  always I Q (wrapping format p) w.
Proof. intros Hp. eapply always_bind; [exact Hp|]. intros r w' HQ Hw'. by apply always_ret. Qed.

Lemma outcomes_wrapping {W X} format (p : prog W (res X)) w w' r :
  (w', r) ∈ outcomes (wrapping format p) w →
  ∃ r', (w', r') ∈ outcomes p w ∧ r = match r' with Ok x => Ok x | Err e => Err (Errorf format [ArgWrap e]) end.
Proof.
  unfold wrapping. rewrite outcomes_bind, list_elem_of_bind. intros ([w1 r'] & Hout & Hin).
  apply list_elem_of_singleton in Hout as [= -> ->]. eauto.
Qed.

Lemma always_ctx_Err (I : fsw → Prop) (Q : res unit → fsw → Prop) c w :
  I w → (∀ r, Q r w) → always I Q (ctx_Err c) w.
Proof. intros Hw HQ. apply always_await; [done|]. intros w' r [= -> ->]%list_elem_of_singleton. auto. Qed.

(** *** The states of one publication *)

Section publication.
Context (f0 : fs) (path data name : string) (old : option string).
Context (Hwf : fs_ok f0) (Hold : settled_at f0 path old).
Context (Hname : name ≠ path) (Hfresh : dirents f0 !! name = None).
Notation n := (length (inodes f0)).

(** The temporary file exists, holding [x]. *)
Definition temp_fs (x : inode) : fs :=
  Fs (inodes f0 ++ [x]) (<[name := n]> (dirents f0)) (durable f0) (dirs f0) (durable_dirs f0).
(** The temporary file is removed. *)
Definition gone_fs (x : inode) : fs :=
  Fs (inodes f0 ++ [x]) (dirents f0) (durable f0) (dirs f0) (durable_dirs f0).
(** The file is published, its directory [synced] or not. *)
Definition new_fs (synced : bool) : fs :=
  let f := Fs (inodes f0 ++ [Inode data data]) (<[path := n]> (dirents f0)) (durable f0)
              (dirs f0) (durable_dirs f0) in
  if synced then sync_entries (Dir path) f else f.

Lemma holds_app x i t : holds f0 i t → ∀ d1 d2 d3 d4, holds (Fs (inodes f0 ++ [x]) d1 d2 d3 d4) i t.
Proof.
  destruct i as [i|]; simpl; [|done]. intros (y & Hy & Hs & ->) d1 d2 d3 d4.
  exists y. split; [by apply lookup_app_l_Some|done].
Qed.

Lemma holds_new d1 d2 d3 d4 :
  holds (Fs (inodes f0 ++ [Inode data data]) d1 d2 d3 d4) (Some n) (Some data).
Proof. exists (Inode data data). simpl. by rewrite lookup_app_r, Nat.sub_diag. Qed.

(** At the path the old or the new content, and no directory less durable. *)
Definition safe_fs (f : fs) : Prop :=
  either_at f path old (Some data) ∧ durable_dirs f0 ⊆ durable_dirs f.

Lemma temp_safe x : safe_fs (temp_fs x).
Proof.
  destruct Hold as [Hd Hh]. split; [|done]. split; left; simpl.
  - rewrite lookup_insert_ne by done. by apply holds_app.
  - rewrite Hd. by apply holds_app.
Qed.

Lemma gone_safe x : safe_fs (gone_fs x).
Proof. destruct Hold as [Hd Hh]. split; [|done]. split; left; simpl; rewrite ?Hd; by apply holds_app. Qed.

Lemma new_settled : settled_at (new_fs true) path (Some data).
Proof.
  split; simpl; rewrite lookup_insert_eq; [|apply holds_new].
  apply lookup_union_Some_l, map_lookup_filter_Some. by rewrite lookup_insert_eq.
Qed.

Lemma new_safe synced : safe_fs (new_fs synced).
Proof.
  destruct synced.
  - destruct new_settled as [Hd Hh]. split; [split; right; by rewrite ?Hd|apply union_subseteq_l].
  - destruct Hold as [Hd Hh]. split; [|done]. split; simpl.
    + right. rewrite lookup_insert_eq. apply holds_new.
    + left. rewrite Hd. by apply holds_app.
Qed.

Lemma append_temp x d : append_data n d (temp_fs x) = temp_fs (Inode (i_data x +:+ d) (i_synced x)).
Proof.
  unfold append_data, temp_fs, set_inode. simpl. rewrite lookup_app_r, Nat.sub_diag by done. simpl.
  by rewrite insert_app_r_alt, Nat.sub_diag by done.
Qed.

Notation safe := (λ w, safe_fs (fw_fs w)).

(** How [publish] ends. *)
Definition publish_post (r : res unit) (w : fsw) : Prop :=
  is_ok r = false ∧ (∃ x, fw_fs w = temp_fs x) ∨
  (∃ synced, fw_fs w = new_fs synced ∧ (is_ok r = true → synced = true)).

Lemma sync_safe format w :
  fw_fs w = new_fs false →
  always safe (λ r w', publish_post (match r with Ok x => Ok x | Err e => Err (Errorf format [ArgWrap e]) end) w')
    (SyncDirectory (Dir path)) w.
Proof.
  intros Hw. assert (∀ synced w', fw_fs w' = new_fs synced → safe w') as Hsafe by (intros ? ? ->; apply new_safe).
  assert (∀ synced e w', fw_fs w' = new_fs synced → publish_post (Err e) w') as Hfail by (intros synced ???; right; by exists synced).
  unfold SyncDirectory.
  eapply always_rbind with (R := λ _ w', fw_fs w' = new_fs false).
  { apply always_syscall; [eauto| |intros; eauto].
    intros f' [] Hin. case_decide; [|by apply elem_of_nil in Hin].
    apply list_elem_of_singleton in Hin as [= ->]. simpl. eauto. }
  clear w Hw. intros _ w Hw _.
  eapply always_bind with (R := λ r w', fw_fs w' = new_fs (is_ok r)).
  { apply always_syscall; [eauto| |done].
    intros f' [] [= ->]%list_elem_of_singleton. simpl. rewrite Hw. split; [apply (new_safe true)|done]. }
  clear w Hw. intros [[]|e] w Hw _.
  - apply always_syscall; [eauto| |intros; eauto].
    intros f' [] [= ->]%list_elem_of_singleton. simpl. split; [eauto|]. right. by exists true.
  - eapply always_bind with (R := λ _ w', fw_fs w' = new_fs false).
    + apply always_syscall; [eauto| |done]. intros f' [] [= ->]%list_elem_of_singleton. simpl. eauto.
    + intros r w' Hw' _. apply always_ret; eauto.
Qed.

Lemma publish_safe c w :
  fw_fs w = temp_fs (Inode "" "") → always safe publish_post (publish c path data name n) w.
Proof.
  intros Hw. unfold publish.
  assert (∀ x e w', fw_fs w' = temp_fs x → publish_post (Err e) w') as Hfail by (left; eauto).
  assert (∀ x w', fw_fs w' = temp_fs x → safe w') as Hsafe by (intros ? ? ->; apply temp_safe).
  eapply always_rbind with (R := λ _ w', fw_fs w' = temp_fs (Inode "" "")).
  { apply always_wrapping, always_syscall; [eauto| |intros; eauto].
    intros f' [] [= ->]%list_elem_of_singleton. simpl. eauto. }
  clear w Hw. intros _ w Hw _.
  eapply always_rbind with (R := λ _ w', fw_fs w' = temp_fs (Inode data "")).
  { apply always_wrapping, always_await; [eauto|]. rewrite Hw.
    intros w' r [[= -> ->]|Hin]%elem_of_cons.
    - rewrite append_temp. split; [apply temp_safe|done].
    - apply list_elem_of_bind in Hin as (e & Hin & _). apply list_elem_of_bind in Hin as (p & Hin & _).
      apply list_elem_of_singleton in Hin as [= -> ->]. rewrite append_temp.
      split; [apply temp_safe|by eapply Hfail]. }
  clear w Hw. intros _ w Hw _.
  eapply always_rbind with (R := λ _ w', fw_fs w' = temp_fs (Inode data data)).
  { apply always_wrapping, always_syscall; [eauto| |intros; eauto].
    intros f' [] [= ->]%list_elem_of_singleton. rewrite Hw. simpl.
    rewrite lookup_app_r, Nat.sub_diag by done. unfold set_inode. simpl.
    rewrite insert_app_r_alt, Nat.sub_diag by done. simpl.
    split; [apply (temp_safe (Inode data data))|done]. }
  clear w Hw. intros _ w Hw _.
  eapply always_rbind with (R := λ _ w', fw_fs w' = temp_fs (Inode data data)).
  { apply always_ctx_Err; [eauto|]. intros [[]|e]; eauto. }
  clear w Hw. intros _ w Hw _.
  eapply always_rbind with (R := λ _ w', fw_fs w' = temp_fs (Inode data data)).
  { apply always_wrapping, always_syscall; [eauto| |intros; eauto].
    intros f' [] [= ->]%list_elem_of_singleton. simpl. eauto. }
  clear w Hw. intros _ w Hw _.
  eapply always_rbind with (R := λ _ w', fw_fs w' = new_fs false).
  { apply always_wrapping, always_syscall; [eauto| |intros; eauto].
    intros f' [] Hin. rewrite Hw in Hin. case_decide; [by apply elem_of_nil in Hin|].
    simpl in Hin. rewrite lookup_insert_eq in Hin.
    apply list_elem_of_singleton in Hin as [= ->]. simpl. unfold set_dirents. simpl.
    rewrite delete_insert_id by done. split; [apply (new_safe false)|done]. }
  clear w Hw. intros _ w Hw _. apply always_wrapping. by apply sync_safe.
Qed.

(** What the deferred cleanup leaves. *)
Definition end_post (r : res unit) (w : fsw) : Prop :=
  is_ok r = false ∧ (∃ x, fw_fs w = temp_fs x ∨ fw_fs w = gone_fs x) ∨
  (∃ synced, fw_fs w = new_fs synced ∧ (is_ok r = true → synced = true)).

Lemma cleanup_safe (r : res unit) w :
  publish_post r w → safe w → always safe end_post (_ ← Close n; _ ← Remove name; mret r) w.
Proof.
  intros Hp Hw. assert (end_post r w) as He by (destruct Hp as [[? [x ?]]|?]; [left; eauto|by right]).
  eapply always_bind with (R := λ _, publish_post r).
  { apply always_syscall; [done| |done]. by intros f' [] [= ->]%list_elem_of_singleton. }
  clear w Hp Hw He. intros _ w Hp Hw.
  eapply always_bind with (R := λ _, end_post r); [|intros _ w' He Hw'; by apply always_ret].
  apply always_syscall; [done| |intros; destruct Hp as [[? [x ?]]|?]; [left; eauto|by right]].
  intros f' [] [= ->]%list_elem_of_singleton. destruct Hp as [[Hr [x Hx]]|(synced & Hf & Hr)].
  - rewrite Hx. unfold set_dirents. simpl. rewrite delete_insert_id by done.
    split; [apply gone_safe|]. left. split; [done|]. exists x. by right.
  - assert (set_dirents (delete name (dirents (fw_fs w))) (fw_fs w) = new_fs synced) as ->.
    { rewrite Hf. unfold set_dirents. destruct synced; simpl;
        rewrite delete_insert_ne by done; by rewrite (delete_id _ name). }
    split; [by apply new_safe|]. right. by exists synced.
Qed.

Lemma new_ok : fs_ok (new_fs true).
Proof.
  intros q i. simpl. rewrite length_app. simpl. rewrite lookup_insert_Some.
  intros [[_ <-]|[_ Hi%Hwf]]; lia.
Qed.

(** Syncing the directory of the path does not make that directory durable. *)
Lemma new_anchored : anchored (new_fs true) (Dir path) → anchored f0 (Dir path).
Proof using Type.
  unfold anchored. rewrite !Forall_forall. simpl. intros Hall a Ha.
  apply Hall in Ha as Hin.
  apply ancestor_not_child in Ha. by apply elem_of_union in Hin as [?|[? _]%elem_of_filter].
Qed.

Lemma anchored_mono f1 f2 d : durable_dirs f1 ⊆ durable_dirs f2 → anchored f1 d → anchored f2 d.
Proof using Type. intros Hsub Ha. eapply Forall_impl; [exact Ha|]. intros a; apply Hsub. Qed.

Lemma safe_crash f read :
  safe_fs f → crash f read →
  read path = old ∨ read path = Some data ∨ read path = None ∧ ¬ anchored f0 (Dir path).
Proof using Type.
  intros [He Hd] Hread. destruct (either_at_crash _ _ _ _ _ He Hread) as [?|[?|[? Hn]]]; [auto..|].
  right; right. split; [done|]. intros Ha. by apply Hn, (anchored_mono f0).
Qed.

(** Other names keep their contents. *)
Lemma end_frame r w q :
  end_post r w → q ≠ path → q ≠ name → content (fw_fs w) q = content f0 q.
Proof.
  intros He Hq Hn. unfold content.
  assert (∀ x, ((i ← dirents f0 !! q; i_data <$> (inodes f0 ++ [x]) !! i) : option string) =
               (i ← dirents f0 !! q; i_data <$> inodes f0 !! i)) as Happ.
  { intros x. destruct (dirents f0 !! q) as [i|] eqn:Hi; [|done]. simpl.
    rewrite lookup_app_l; [done|by eapply Hwf]. }
  destruct He as [[_ [x [-> | ->]]]|(synced & -> & _)]; [..|destruct synced]; simpl; rewrite ?lookup_insert_ne by done; apply Happ.
Qed.
End publication.

(** [MkdirAll] only adds directories, none of them durable. *)
Lemma mkdirs_always (I : fsw → Prop) (Q : res unit → fsw → Prop) ds w :
  (∀ made, let w' := Fsw (fw_ctxs w) (set_dirs (made ∪ dirs (fw_fs w)) (fw_fs w)) in
     I w' ∧ ∀ r, Q r w') →
  always I Q (mkdirs ds) w.
Proof.
  revert w. induction ds as [|d ds IH]; intros w HIQ; cbn [mkdirs].
  all: assert (Fsw (fw_ctxs w) (set_dirs (∅ ∪ dirs (fw_fs w)) (fw_fs w)) = w) as Hsame
    by (destruct w as [cs [? ? ? ds' ?]]; unfold set_dirs; cbn; by rewrite (left_id_L ∅ _)).
  all: destruct (HIQ ∅) as [HI HQ]; rewrite Hsame in HI, HQ.
  - by apply always_ret.
  - eapply always_rbind with (R := λ _ w', ∃ made, w' = Fsw (fw_ctxs w) (set_dirs (made ∪ dirs (fw_fs w)) (fw_fs w))).
    + apply always_syscall; [done| |done]. intros f' [] Hin.
      case_decide; [apply list_elem_of_singleton in Hin as [= ->]|case_match; [by apply elem_of_nil in Hin|]].
      * destruct w; split; [done|]. by exists ∅.
      * apply list_elem_of_singleton in Hin as [= ->]. split; [apply HIQ|]. by exists {[d]}.
    + intros [] w' [made ->] _. apply IH. intros more. cbn [fw_ctxs fw_fs dirs set_dirs].
      destruct (HIQ (more ∪ made)) as [HI' HQ']. rewrite <-(assoc_L (∪)) in HI', HQ'. auto.
Qed.

Lemma AtomicWrite_always c path data pattern old w :
  fs_ok (fw_fs w) → settled_at (fw_fs w) path old →
  (∀ d p, path ∉ temp_names d p) →
  always (λ w', safe_fs (fw_fs w) path data old (fw_fs w'))
    (λ r w', (if is_ok r then settled_at (fw_fs w') path (Some data) ∧ fs_ok (fw_fs w') ∧
                (anchored (fw_fs w') (Dir path) → anchored (fw_fs w) (Dir path))
              else content (fw_fs w') path = old ∨ content (fw_fs w') path = Some data) ∧
             ∀ q, q ≠ path → is_Some (dirents (fw_fs w) !! q) ∨ (∀ d p, q ∉ temp_names d p) →
                  content (fw_fs w') q = content (fw_fs w) q)
    (AtomicWrite c path data pattern) w.
Proof.
  intros Hok Hold Htemp.
  assert (safe_fs (fw_fs w) path data old (fw_fs w)) as Hsafe.
  { destruct Hold as [Hd Hh]. split; [|done]. split; left; by rewrite ?Hd. }
  assert (content (fw_fs w) path = old) as Hc by (by apply holds_content, Hold).
  unfold AtomicWrite.
  eapply always_rbind with (R := λ _ w', w' = w).
  { apply always_ctx_Err; [done|]. intros [[]|e]; [done|]. by split; [left|]. }
  intros _ ? -> _.
  eapply always_rbind with (R := λ _ w', ∃ made, fw_fs w' = set_dirs made (fw_fs w)).
  { apply always_wrapping, mkdirs_always. intros made. split; [done|]. intros [[]|e]; cbn; eauto. }
  intros _ w0 [made Hw0] _. set (pat := if decide _ then _ else _).
  set (f0 := set_dirs made (fw_fs w)) in *.
  eapply always_rbind with (R := λ nf w', nf.1 ≠ path ∧ (∃ d p, nf.1 ∈ temp_names d p) ∧ dirents f0 !! nf.1 = None ∧
    nf.2 = length (inodes f0) ∧ fw_fs w' = temp_fs f0 nf.1 (Inode "" "")).
  { apply always_wrapping, always_syscall; [by rewrite Hw0| |rewrite Hw0; by split; [left|]].
    rewrite Hw0. intros f' [name file] Hin. case_decide; [|by apply elem_of_nil in Hin].
    apply list_elem_of_fmap in Hin as (name' & [= -> -> ->] & Hin).
    apply list_elem_of_filter in Hin as [[Hfresh _] Hin].
    assert (name' ≠ path) as Hne by (intros ->; by apply (Htemp _ _ Hin)).
    split; [by apply (temp_safe f0 path data name' old)|]. split_and!; eauto. }
  intros [name file] w1 (Hne & (d0 & p0 & Hin) & Hfresh & Hfile & Hw1) _.
  simpl fst in *; simpl snd in *. subst file.
  eapply always_bind; [by eapply (publish_safe f0 path data name old)|]. intros r w2 Hp Hs2.
  eapply always_conseq; [by eapply (cleanup_safe f0 path data name old)|]. intros r' w3 He Hs3. split.
  - destruct (is_ok r') eqn:Hr.
    + destruct He as [[? _]|(synced & Hf & Hsync)]; [congruence|]. rewrite (Hsync Hr) in Hf. rewrite Hf.
      split_and!; [apply new_settled|by apply (new_ok f0 path data)|apply (new_anchored f0)].
    + destruct Hs3 as [[[Hh|Hh] _] _]; apply holds_content in Hh; auto.
  - intros q Hq Hs. change (content (fw_fs w) q) with (content f0 q). eapply end_frame; [|done..|]; [done|]. intros ->.
    destruct Hs as [[i Hi]|Hnot]; [unfold f0 in *; cbn in *; congruence|by eapply Hnot].
Qed.

(** As below, for the callers. *)
Lemma AtomicWrite_safe c path data pattern old w :
  fs_ok (fw_fs w) → settled_at (fw_fs w) path old →
  (∀ d p, path ∉ temp_names d p) →
  let durable_directory := anchored (fw_fs w) (Dir path) in
  always (λ w', ∀ read, crash (fw_fs w') read →
            read path = old ∨ read path = Some data ∨ read path = None ∧ ¬ durable_directory)
    (λ r w', (if is_ok r then
                content (fw_fs w') path = Some data ∧
                (∀ read, crash (fw_fs w') read →
                   read path = Some data ∨ read path = None ∧ ¬ durable_directory) ∧
                (¬ durable_directory → ∃ read, crash (fw_fs w') read ∧ read path = None)
              else content (fw_fs w') path = old ∨ content (fw_fs w') path = Some data) ∧
             ∀ q, q ≠ path → is_Some (dirents (fw_fs w) !! q) ∨ (∀ d p, q ∉ temp_names d p) →
                  content (fw_fs w') q = content (fw_fs w) q)
    (AtomicWrite c path data pattern) w.
Proof.
  intros Hok Hold Htemp D. eapply always_mono, always_conseq; [|by apply AtomicWrite_always|].
  { intros w' Hs read Hread. by apply safe_crash with (1 := Hs) in Hread. }
  intros r w' [Hr Hframe] [_ Hdd]. split; [|done]. destruct (is_ok r); [|done].
  destruct Hr as (Hnew & Hok' & Hanch). split_and!; [by apply holds_content, Hnew| |].
  - intros read Hread. destruct (either_at_crash _ _ _ _ _ (settled_either _ _ _ Hnew) Hread)
      as [?|[?|[? Hn]]]; [auto..|]. right. split; [done|]. intros Ha. by apply Hn, (anchored_mono (fw_fs w)).
  - intros Hn. destruct (crash_loses _ Hok') as (read & Hread & Hlost). exists read.
    split; [done|]. apply Hlost. intros Ha. by apply Hn, Hanch.
Qed.
(** C33: [AtomicWrite] is atomic, and durable as far as its directory is.  At every
    moment of a call, whatever fails, a crash leaves at the path either what was
    there before or the whole new data, never a part of it; or nothing, only when
    the directory of the path was not itself durable at the start.  A call that
    returns nil leaves the new data there, and a later crash loses them exactly
    when some directory on the way was not durable at the start: in particular
    when [os.MkdirAll] had to create it, for the parents of the directories it
    creates are never synced.  A call that fails leaves the path readable with its
    old or its new content; and no other file's content changes. *)
Theorem AtomicWrite_crash_safe c path data pattern old w :
  fs_ok (fw_fs w) → settled_at (fw_fs w) path old →
  (∀ d p, path ∉ temp_names d p) →
  let durable_directory := anchored (fw_fs w) (Dir path) in
  always (λ w', ∀ read, crash (fw_fs w') read →
            read path = old ∨ read path = Some data ∨ read path = None ∧ ¬ durable_directory)
    (λ r w', (if is_ok r then
                content (fw_fs w') path = Some data ∧
                (∀ read, crash (fw_fs w') read →
                   read path = Some data ∨ read path = None ∧ ¬ durable_directory) ∧
                (¬ durable_directory → ∃ read, crash (fw_fs w') read ∧ read path = None)
              else content (fw_fs w') path = old ∨ content (fw_fs w') path = Some data) ∧
             ∀ q, q ≠ path → is_Some (dirents (fw_fs w) !! q) ∨ (∀ d p, q ∉ temp_names d p) →
                  content (fw_fs w') q = content (fw_fs w) q)
    (AtomicWrite c path data pattern) w.
Proof. apply AtomicWrite_safe. Qed.
End syscalls.

(** ** A concrete publication *)

(** One file with durable content in a durable directory. *)
Definition one_file : fsw :=
  Fsw (Ctxs ∅ 1) (Fs [Inode "old" "old"] {["d/f" := 0%nat]} {["d/f" := 0%nat]} {["d"]} {["d"]}).
Definition empty_disk : fsw := Fsw (Ctxs ∅ 1) (Fs [] ∅ ∅ ∅ ∅).
Definition written : fsw :=
  Fsw (Ctxs ∅ 1) (Fs [Inode "new" "new"] {["d/f" := 0%nat]} {["d/f" := 0%nat]} {["d"]} ∅).
Definition disk_full : list error := [New "no space left on device"].
Definition one_temp (directory pattern : string) : list string := [".tmp-1"].

Lemma not_one_temp q d p : q ≠ ".tmp-1" → q ∉ one_temp d p.
Proof. intros Hq ?%list_elem_of_singleton. done. Qed.

(** Rewriting a file of a durable directory, where every system call may fail; and
    writing a file in a directory that [AtomicWrite] has to make: the call returns
    nil, and a crash may lose the directory with the file. *)
Lemma AtomicWrite_crash_safe_witness :
  always (λ w', ∀ read, crash (fw_fs w') read → read "d/f" = Some "old" ∨ read "d/f" = Some "new")
    (λ r w', if is_ok r then ∀ read, crash (fw_fs w') read → read "d/f" = Some "new"
             else content (fw_fs w') "d/f" = Some "old" ∨ content (fw_fs w') "d/f" = Some "new")
    (AtomicWrite disk_full one_temp [0%nat] "d/f" "new" "") one_file ∧
  ∃ w', (w', Ok tt) ∈ outcomes (AtomicWrite disk_full one_temp [0%nat] "d/f" "new" "") empty_disk ∧
        content (fw_fs w') "d/f" = Some "new" ∧ ∃ read, crash (fw_fs w') read ∧ read "d/f" = None.
Proof.
  assert (∀ d p, "d/f" ∉ one_temp d p) as Htemp by (intros d p; apply not_one_temp; discriminate).
  split.
  - assert (anchored (fw_fs one_file) (Dir "d/f")) as Hanch.
    { change (Forall (λ a, a ∈ ({["d"]} : gset string)) ["d"]).
      apply Forall_singleton, elem_of_singleton. reflexivity. }
    eapply always_mono, always_conseq; [|apply (AtomicWrite_crash_safe disk_full one_temp [0%nat] "d/f" "new" ""
                                          (Some "old") one_file)|].
    + intros w' Hs read Hread. destruct (Hs read Hread) as [?|[?|[_ Hn]]]; [auto..|destruct (Hn Hanch)].
    + intros q i Hq. simpl in Hq. apply lookup_singleton_Some in Hq as [_ <-]. simpl; lia.
    + split; [reflexivity|]. exists (Inode "old" "old"). repeat split.
    + exact Htemp.
    + intros r w' [Hr _] _. destruct (is_ok r); [|exact Hr]. intros read Hread.
      destruct Hr as (_ & Hr & _). destruct (Hr read Hread) as [?|[_ Hn]]; [assumption|destruct (Hn Hanch)].
  - assert (always (λ _, True) (λ r w', is_ok r = true →
      content (fw_fs w') "d/f" = Some "new" ∧ ∃ read, crash (fw_fs w') read ∧ read "d/f" = None)
      (AtomicWrite disk_full one_temp [0%nat] "d/f" "new" "") empty_disk) as Hlost.
    { eapply always_mono, always_conseq; [|apply (AtomicWrite_crash_safe disk_full one_temp [0%nat] "d/f" "new" ""
                                            None empty_disk)|].
      - intros w' _. exact I.
      - intros q i Hq. simpl in Hq. discriminate Hq.
      - split; reflexivity.
      - exact Htemp.
      - intros r w' [Hr _] _ Hok. rewrite Hok in Hr. destruct Hr as (Hc & _ & Hr). split; [exact Hc|].
        apply Hr. intros Hanch. apply Forall_inv in Hanch. simpl in Hanch.
        apply not_elem_of_empty in Hanch. exact Hanch. }
    assert ((written, Ok tt) ∈ outcomes (AtomicWrite disk_full one_temp [0%nat] "d/f" "new" "") empty_disk) as Hin
      by (vm_compute; left).
    exists written. split; [exact Hin|]. by apply (always_outcomes _ _ _ _ _ _ Hlost Hin).
Defined.
