(* ===== verification/Cache.v ===== *)
(** * Content-addressed result caches: execution/cache.go and flow/store.go

    A [Key] names one deterministic result; its digest is the SHA-256 of its JSON
    text.  [FileCache] keeps one validated JSON envelope per digest on the file
    system of Fsutil.v, [MemoryStore] keeps marshaled values in a map.  Values are
    of a caller's type [V] with its [Codec]. *)

From S2P Require Import Prelude GoError GoStrings Digest Json JsonProofs Go Fsutil.

(** ** Keys *)

Record Key := MkKey { Step : string; Version : string; InputDigest : string }.

#[export] Instance Key_eq_dec : EqDecision Key.
Proof. solve_decision. Defined.

(** [NewKey]: [input] is what [json.Marshal] makes of the caller's input. *)
Definition NewKey (step version : string) (input : res json) : res Key :=
  if decide (step = "") then Err (New "cache step is required") else
  if decide (version = "") then Err (New "cache step version is required") else
  match input with
  | Err e => Err (Errorf "marshal cache input: %w" [ArgWrap e])
  | Ok j => Ok (MkKey step version (Bytes (render j)))
  end.

Definition hex_err (e : hex_error) : error :=
  match e with
  | ErrLength => json_error "encoding/hex: odd length hex string"
  | InvalidByte a => json_error "encoding/hex: invalid byte"
  end.

Definition validate (key : Key) : res unit :=
  if decide (Step key = "" ∨ Version key = "") then
    Err (New "cache key step and version are required") else
  if decide (String.length (InputDigest key) ≠ 64%nat) then
    Err (New "cache key input digest is invalid") else
  match (DecodeString (InputDigest key)).2 with
  | Some e => Err (Errorf "cache key input digest is invalid: %w" [ArgWrap (hex_err e)])
  | None => Ok tt
  end.

(** The encoding of the struct. *)
Definition key_json (key : Key) : json :=
  JObj [("step", JStr (Step key)); ("version", JStr (Version key));
        ("input_digest", JStr (InputDigest key))].

Definition Key_Digest (key : Key) : res string :=
  match validate key with
  | Err e => Err e
  | Ok _ => Ok (Bytes (render (key_json key)))
  end.

(** ** Envelopes *)

Definition cacheEntrySchema : string := "rag-ttc-execution-cache/v1".

Record cacheEnvelope := Envelope {
  SchemaVersion : string;
  env_Key : Key;
  ValueDigest : string;
  Value : string;          (* json.RawMessage *)
}.

Definition zero_key : Key := MkKey "" "" "".

Definition set_key_field (f : string) (m : member) (k : Key) : Key * option error :=
  if decide (f = "step") then
    let '(s, e) := decode_string (m_value m) (Step k) in (MkKey s (Version k) (InputDigest k), e)
  else if decide (f = "version") then
    let '(s, e) := decode_string (m_value m) (Version k) in (MkKey (Step k) s (InputDigest k), e)
  else
    let '(s, e) := decode_string (m_value m) (InputDigest k) in (MkKey (Step k) (Version k) s, e).

Definition key_fields : list string := ["step"; "version"; "input_digest"].

(** The members of a nested object, from its own text. *)
Definition text_members (text : string) : list member :=
  match parse_top text with Some t => t_members t | None => [] end.

Definition set_envelope_field (f : string) (m : member) (x : cacheEnvelope)
    : cacheEnvelope * option error :=
  if decide (f = "schema_version") then
    let '(s, e) := decode_string (m_value m) (SchemaVersion x) in
    (Envelope s (env_Key x) (ValueDigest x) (Value x), e)
  else if decide (f = "key") then
    let '(k, e) := decode_struct key_fields set_key_field (m_value m) (text_members (m_raw m)) (env_Key x) in
    (Envelope (SchemaVersion x) k (ValueDigest x) (Value x), e)
  else if decide (f = "value_digest") then
    let '(s, e) := decode_string (m_value m) (ValueDigest x) in
    (Envelope (SchemaVersion x) (env_Key x) s (Value x), e)
  else (Envelope (SchemaVersion x) (env_Key x) (ValueDigest x) (m_raw m), None).

Definition envelope_fields : list string := ["schema_version"; "key"; "value_digest"; "value"].

Definition decode_envelope (t : top) : res cacheEnvelope :=
  as_res (decode_struct envelope_fields set_envelope_field (t_value t) (t_members t)
            (Envelope "" zero_key "" "")).

Definition envelope_json (key : Key) (value : json) : json :=
  JObj [("schema_version", JStr cacheEntrySchema); ("key", key_json key);
        ("value_digest", JStr (Bytes (render value))); ("value", value)].

(** ** FileCache *)

Record FileCacheOptions := MkFileCacheOptions { Directory : string; MaxEntryBytes : Z }.
Record FileCache := MkFileCache { directory : string; maxEntryBytes : Z }.

(** [keyDigest[:2]] and [filepath.Join] of clean parts. *)
Definition entry_path (dir keyDigest : string) : string :=
  dir +:+ "/" +:+ Stdlib.Strings.String.substring 0 2 keyDigest +:+ "/" +:+ keyDigest +:+ ".json".

Definition path (cache : FileCache) (key : Key) : res string :=
  keyDigest ← Key_Digest key; Ok (entry_path (directory cache) keyDigest).

Definition corrupt (why : string) : error :=
  Errorf ("%w: " +:+ why) [ArgWrap (Sentinel ErrCorruptCache)].
Definition corrupt_because (what : string) (e : error) : error :=
  Errorf ("%w: " +:+ what +:+ ": %v") [ArgWrap (Sentinel ErrCorruptCache); ArgErr e].

Section file_cache.
Context {V : Type} `{!Codec V}.
Context (oserrs : list error) (temp_names : string → string → list string).

Definition NewFileCache (options : FileCacheOptions) : prog fsw (res FileCache) :=
  if decide (Directory options = "") then mret (Err (New "cache directory is required")) else
  let maxEntryBytes := if MaxEntryBytes options =? 0 then 16 * 2 ^ 20 else MaxEntryBytes options in
  if maxEntryBytes <? 1 then mret (Err (New "cache maximum entry bytes must be positive")) else
  _ ←? wrapping "create cache directory: %w" (MkdirAll oserrs (Directory options));
  mret (Ok (MkFileCache (Directory options) maxEntryBytes)).

(** [os.Stat]: the size, nothing when the file does not exist, or an error. *)
Definition Stat (p : string) : prog fsw (res (option Z)) :=
  syscall oserrs (λ f, [(f, option_map (λ d, Z.of_nat (String.length d)) (content f p))]).

Definition ReadFile (p : string) : prog fsw (res string) :=
  await (λ w, (w, match content (fw_fs w) p with
                  | Some d => Ok d
                  | None => Err (Sentinel ErrNotExist)
                  end) :: ((λ e, (w, Err e)) <$> oserrs)).

(** What [Load] makes of the bytes of an entry. *)
Definition check_entry (key : Key) (data : string) : res V :=
  match DecodeStrictInto decode_envelope data with
  | Err e => Err (corrupt_because "decode envelope" e)
  | Ok x =>
      if negb (bool_decide (SchemaVersion x = cacheEntrySchema)) || negb (bool_decide (env_Key x = key))
         || negb (bool_decide (ValueDigest x = Bytes (Value x)))
      then Err (corrupt "envelope validation failed")
      else
        match DecodeStrictInto (λ t, decode true (t_text t)) (Value x) with
        | Err e => Err (corrupt_because "decode value" e)
        | Ok v => Ok v
        end
  end.

(** [Load]: [Ok None] is [false, nil]; a value found is decoded into the target. *)
Definition FileCache_Load (cache : option FileCache) (c : ctx) (key : Key)
    : prog fsw (res (option V)) :=
  match cache with
  | None => mret (Err (New "file cache is nil"))
  | Some cache =>
      _ ←? ctx_Err c;
      match path cache key with
      | Err e => mret (Err e)
      | Ok p =>
          info ←? wrapping "stat cache entry: %w" (Stat p);
          match info with
          | None => mret (Ok None)
          | Some size =>
              if maxEntryBytes cache <? size then mret (Err (corrupt "entry exceeds maximum size")) else
              data ←? wrapping "read cache entry: %w" (ReadFile p);
              mret (Some <$> check_entry key data)
          end
      end
  end.

Definition FileCache_Store (cache : option FileCache) (c : ctx) (key : Key) (value : V)
    : prog fsw (res unit) :=
  match cache with
  | None => mret (Err (New "file cache is nil"))
  | Some cache =>
      _ ←? ctx_Err c;
      match path cache key with
      | Err e => mret (Err e)
      | Ok p =>
          match encode value with
          | Err e => mret (Err (Errorf "marshal cache value: %w" [ArgWrap e]))
          | Ok j =>
              let data := render (envelope_json key j) in
              let size := Z.of_nat (String.length data) in
              if maxEntryBytes cache <? size then
                mret (Err (Errorf "cache entry is %d bytes, maximum is %d"
                             [ArgInt size; ArgInt (maxEntryBytes cache)]))
              else wrapping "publish cache entry: %w"
                     (AtomicWrite oserrs temp_names c p data ".entry-*")
          end
      end
  end.
End file_cache.

(** ** MemoryStore: flow/store.go *)

Record memw := Memw { mw_ctxs : ctxs; entries : gmap string string }.

Section memory_store.
Context {V : Type} `{!Codec V}.

Definition mem_ctx_Err (c : ctx) : prog memw (res unit) :=
  read (λ w, match ctx_err c (mw_ctxs w) with Some e => Err e | None => Ok tt end).

Definition MemoryStore_Load (c : ctx) (key : Key) : prog memw (res (option V)) :=
  _ ←? mem_ctx_Err c;
  match Key_Digest key with
  | Err e => mret (Err e)
  | Ok digestValue =>
      data ← read (λ w, entries w !! digestValue);
      match data with
      | None => mret (Ok None)
      | Some data =>
          mret (match decode false data with
                | Ok v => Ok (Some v)
                | Err e => Err (Errorf "decode memory store entry: %w" [ArgWrap e])
                end)
      end
  end.

Definition MemoryStore_Store (c : ctx) (key : Key) (value : V) : prog memw (res unit) :=
  _ ←? mem_ctx_Err c;
  match Key_Digest key with
  | Err e => mret (Err e)
  | Ok digestValue =>
      match encode value with
      | Err e => mret (Err (Errorf "marshal memory store value: %w" [ArgWrap e]))
      | Ok j => _ ← modify (λ w, Memw (mw_ctxs w) (<[digestValue := render j]> (entries w))); mret (Ok tt)
      end
  end.

Definition Len : prog memw Z := read (λ w, Z.of_nat (size (entries w))).
End memory_store.

(** A codec for raw JSON values. *)
#[export] Instance json_codec : Codec json := {|
  encode j := Ok j;
  decode strict text := match parse_top text with Some t => Ok (t_value t) | None => Err syntax_error end;
|}.

(** The recorded entry of execution/testdata/pre-extraction-cache, byte for byte:
    its path and its content are what this model computes for its key. *)
Definition recorded_key : Key :=
  MkKey "compat-step" "v1" "020e9d2eba04c706a2ebafb1857816a617d47b33981954537aa53c46a16b7aa1".
Definition recorded_value : json := JObj [("answer", JStr "cached")].
Definition dq : string := String quote_char "".
Definition recorded_text : string :=
  "{" +:+ dq +:+ "schema_version" +:+ dq +:+ ":" +:+ dq +:+ "rag-ttc-execution-cache/v1" +:+ dq +:+ "," +:+
  dq +:+ "key" +:+ dq +:+ ":{" +:+ dq +:+ "step" +:+ dq +:+ ":" +:+ dq +:+ "compat-step" +:+ dq +:+ "," +:+
  dq +:+ "version" +:+ dq +:+ ":" +:+ dq +:+ "v1" +:+ dq +:+ "," +:+ dq +:+ "input_digest" +:+ dq +:+ ":" +:+
  dq +:+ "020e9d2eba04c706a2ebafb1857816a617d47b33981954537aa53c46a16b7aa1" +:+ dq +:+ "}," +:+
  dq +:+ "value_digest" +:+ dq +:+ ":" +:+
  dq +:+ "4e2de8b693fab59cf3ad290ee52287a36ea8f7c96ee03969fda4a2281df7eac1" +:+ dq +:+ "," +:+
  dq +:+ "value" +:+ dq +:+ ":{" +:+ dq +:+ "answer" +:+ dq +:+ ":" +:+ dq +:+ "cached" +:+ dq +:+ "}}".

Example recorded_digest :
  Key_Digest recorded_key = Ok "de7120bfe3cbfd54a6f5559293e5cf14fd4f8c55a87628c75a6be447ea59f17d".
Proof. vm_compute. reflexivity. Qed.

Example recorded_entry : render (envelope_json recorded_key recorded_value) = recorded_text.
Proof. vm_compute. reflexivity. Qed.

Example recorded_loads : check_entry recorded_key recorded_text = Ok recorded_value.
Proof. vm_compute. reflexivity. Qed.

(** ** Keys are sound *)

(** Hexadecimal text is UTF-8. *)
Lemma hex_value_ascii a : is_Some (hex_value a) → byte_of a <? 0x80 = true.
Proof. unfold hex_value. intros [x Hx]. repeat case_match; naive_solver lia. Qed.

Lemma DecodeString_utf8 s : (DecodeString s).2 = None → ValidString s = true.
Proof.
  induction s as [s IH] using string_length_ind. destruct s as [|a [|b s]]; [done|by simpl; case_match|].
  cbn [DecodeString]. destruct (hex_value a) eqn:Ha; [|done]. destruct (hex_value b) eqn:Hb; [|done].
  destruct (DecodeString s) as [m e] eqn:Hs. cbn [snd]. intros ->.
  assert (ValidString s = true) as Hv by (apply IH; [simpl; lia|by rewrite Hs]).
  unfold ValidString in *. cbn [chunks]. rewrite (hex_value_ascii a), (hex_value_ascii b) by eauto. done.
Qed.

(** Keys whose strings are UTF-8. *)
Definition key_utf8 (key : Key) : Prop :=
  ValidString (Step key) = true ∧ ValidString (Version key) = true ∧ ValidString (InputDigest key) = true.

Lemma validate_utf8 key :
  validate key = Ok tt → ValidString (Step key) = true → ValidString (Version key) = true → key_utf8 key.
Proof.
  unfold validate. intros Hv Hs Hver. split_and!; [done|done|]. apply DecodeString_utf8.
  repeat case_match; done.
Qed.

Lemma key_json_ok d key : 0 < d → key_utf8 key → json_ok d (key_json key).
Proof. intros Hd (? & ? & ?). by split_and!. Qed.

(** Every key [NewKey] makes is valid: it has a digest, of 64 lowercase
    hexadecimal characters, and [NewKey] fails exactly when the step or the version
    is empty or the input cannot be marshaled. *)
Theorem NewKey_valid step version input :
  match NewKey step version input with
  | Ok key =>
      step ≠ "" ∧ version ≠ "" ∧ (∃ j, input = Ok j ∧ InputDigest key = Bytes (render j)) ∧
      validate key = Ok tt ∧
      ∃ d, Key_Digest key = Ok d ∧ String.length d = 64%nat ∧ (DecodeString d).2 = None
  | Err _ => step = "" ∨ version = "" ∨ is_ok input = false
  end.
Proof.
  unfold NewKey. case_decide as Hs; [by left|]. case_decide as Hv; [by right; left|].
  destruct input as [j|e]; [|by right; right].
  assert (validate (MkKey step version (Bytes (render j))) = Ok tt) as Hval.
  { unfold validate. rewrite decide_False by (simpl; tauto).
    rewrite decide_False by (cbn [InputDigest]; rewrite Bytes_length; tauto). cbn [InputDigest]. by rewrite DecodeString_Bytes. }
  split_and!; [done|done|by exists j|done|]. unfold Key_Digest. rewrite Hval.
  eexists. split_and!; [done|apply Bytes_length|apply DecodeString_Bytes].
Qed.

#[export] Instance Ok_inj {X} : Inj (=) (=) (@Ok X).
Proof. by intros x y [=]. Qed.

(** The text of a key determines it. *)
Lemma key_text_inj k1 k2 :
  key_utf8 k1 → key_utf8 k2 → render (key_json k1) = render (key_json k2) → k1 = k2.
Proof.
  intros H1 H2 Heq.
  pose proof (parse_top_render (key_json k1) (key_json_ok max_depth k1 ltac:(done) H1)) as P1.
  pose proof (parse_top_render (key_json k2) (key_json_ok max_depth k2 ltac:(done) H2)) as P2.
  assert (key_json k1 = key_json k2) as E by congruence.
  destruct k1, k2. unfold key_json in E. cbn [Step Version InputDigest] in E. by injection E as -> -> ->.
Qed.

(** C37: Distinct keys share a cache entry only if SHA-256 collides on them: for
    keys in UTF-8, equal digests mean equal keys, equal in step, version and input
    digest, or else the JSON texts of these two keys are different and have the same
    hash. *)
Theorem Key_Digest_collision k1 k2 d :
  key_utf8 k1 → key_utf8 k2 → Key_Digest k1 = Ok d → Key_Digest k2 = Ok d →
  k1 = k2 ∨ render (key_json k1) ≠ render (key_json k2) ∧
            Bytes (render (key_json k1)) = Bytes (render (key_json k2)).
Proof.
  intros H1 H2. unfold Key_Digest. destruct (validate k1); [|done]. destruct (validate k2); [|done].
  intros D1 D2.
  destruct (decide (render (key_json k1) = render (key_json k2))) as [Heq|Hne].
  - left. by apply key_text_inj.
  - right. split; [done|]. apply Ok_inj. by rewrite D1, D2.
Qed.

(** Outside UTF-8 the digest does not separate keys: marshaling replaces every
    offending byte by U+FFFD. *)
Theorem Key_Digest_conflates_invalid_utf8 :
  ∃ k1 k2 : Key, k1 ≠ k2 ∧ is_ok (Key_Digest k1) = true ∧ Key_Digest k1 = Key_Digest k2.
Proof.
  exists (MkKey (String (char_of 255) "") "v1" (Bytes "")), (MkKey (String (char_of 254) "") "v1" (Bytes "")).
  split; [done|]. split; vm_compute; reflexivity.
Qed.

(** ** FileCache *)

Section file_cache_theorems.
Context {V : Type} `{!Codec V}.
Context (oserrs : list error) (temp_names : string → string → list string).
Implicit Types (cache : FileCache) (key : Key) (v : V) (w : fsw) (c : ctx).

(** The bytes [data] are an entry of [key] for [v], within the limit: one JSON object
    with the fields of the envelope only, of the schema of this package, for the
    whole key, with the digest of its value, which is the strict encoding of [v]. *)
Definition is_entry cache key (data : string) v : Prop :=
  Z.of_nat (String.length data) ≤ maxEntryBytes cache ∧
  ∃ x, DecodeStrictInto decode_envelope data = Ok x ∧
       SchemaVersion x = "rag-ttc-execution-cache/v1" ∧ env_Key x = key ∧
       ValueDigest x = Bytes (Value x) ∧ DecodeStrictInto (λ t, decode true (t_text t)) (Value x) = Ok v.

(** What [Load] makes of an entry, absent or not. *)
Definition entry_answer cache key (entry : option string) : res (option V) :=
  match entry with
  | None => Ok None
  | Some data =>
      if maxEntryBytes cache <? Z.of_nat (String.length data)
      then Err (corrupt "entry exceeds maximum size") else Some <$> check_entry key data
  end.

(** What [Load] answers when no system call fails. *)
Definition Load_answer cache c key w : res (option V) :=
  match ctx_err c (fw_ctxs w) with
  | Some e => Err e
  | None => p ← path cache key; entry_answer cache key (content (fw_fs w) p)
  end.

(** A failure of the operating system, as [Load] reports it. *)
Definition Load_fault (e : error) : Prop :=
  ∃ e', e' ∈ oserrs ∧ (e = Errorf "stat cache entry: %w" [ArgWrap e'] ∨
                       e = Errorf "read cache entry: %w" [ArgWrap e']).

Lemma outcomes_Stat p w w' r :
  (w', r) ∈ outcomes (Stat oserrs p) w →
  w' = w ∧ (r = Ok (option_map (λ d, Z.of_nat (String.length d)) (content (fw_fs w) p)) ∨
            ∃ e, e ∈ oserrs ∧ r = Err e).
Proof.
  unfold Stat, syscall. rewrite outcomes_await. intros [Hin|Hin]%elem_of_app.
  - apply list_elem_of_fmap in Hin as ([f x] & [= -> ->] & [= -> ->]%list_elem_of_singleton).
    destruct w. auto.
  - apply list_elem_of_fmap in Hin as (e & [= -> ->] & He). eauto.
Qed.

Lemma outcomes_ReadFile p d w w' r :
  content (fw_fs w) p = Some d → (w', r) ∈ outcomes (ReadFile oserrs p) w →
  w' = w ∧ (r = Ok d ∨ ∃ e, e ∈ oserrs ∧ r = Err e).
Proof.
  intros Hd. unfold ReadFile. rewrite outcomes_await, Hd. intros [[= -> ->]|Hin]%elem_of_cons; [auto|].
  apply list_elem_of_fmap in Hin as (e & [= -> ->] & He). eauto.
Qed.

Lemma Load_outcomes cache c key w w' r :
  (w', r) ∈ outcomes (FileCache_Load oserrs (Some cache) c key) w →
  w' = w ∧ (r = Load_answer cache c key w ∨
            ctx_err c (fw_ctxs w) = None ∧ is_ok (Key_Digest key) = true ∧ ∃ e, r = Err e ∧ Load_fault e).
Proof using Type.
  unfold FileCache_Load, Load_answer, entry_answer.
  intros [(w1 & [] & Hctx & Hin)|(e & Hctx & ->)]%elem_outcomes_rbind;
    unfold ctx_Err in Hctx; rewrite outcomes_read in Hctx; apply list_elem_of_singleton in Hctx;
    destruct (ctx_err c (fw_ctxs w)); simplify_eq; [|auto].
  unfold path in *. destruct (Key_Digest key) as [k|e]; cbn [mbind res_bind] in *;
    [|apply list_elem_of_singleton in Hin as [= -> ->]; auto].
  set (p := entry_path _ k) in *.
  apply elem_outcomes_rbind in Hin as [(w1 & info & Hstat & Hin)|(e & Hstat & ->)];
    apply outcomes_wrapping in Hstat as (rs & Hstat & Hr);
    apply outcomes_Stat in Hstat as [-> [-> |(e' & He' & ->)]]; simplify_eq.
  2: { split; [done|]. right. split_and!; [done..|]. eexists. split; [done|]. exists e'. auto. }
  destruct (content (fw_fs w) p) as [d|] eqn:Hd; simpl in Hin.
  2: { apply list_elem_of_singleton in Hin as [= -> ->]. auto. }
  destruct (_ <? _); [apply list_elem_of_singleton in Hin as [= -> ->]; auto|].
  apply elem_outcomes_rbind in Hin as [(w1 & data & Hread & Hin)|(e & Hread & ->)];
    apply outcomes_wrapping in Hread as (rr & Hread & Hr);
    apply (outcomes_ReadFile _ _ _ _ _ Hd) in Hread as [-> [-> |(e' & He' & ->)]]; simplify_eq.
  - apply list_elem_of_singleton in Hin as [= -> ->]. auto.
  - split; [done|]. right. split_and!; [done..|]. eexists. split; [done|]. exists e'. auto.
Qed.

Lemma outcomes_wrapped {W X} format (p : prog W (res X)) (w w' : W) (x : X) :
  outcomes p w = [(w', Ok x)] → outcomes (wrapping format p) w = [(w', Ok x)].
Proof. intros Hp. unfold wrapping. by rewrite outcomes_bind, Hp. Qed.

(** Alone on a disk that does not fail, [Load] has one outcome. *)
Lemma Load_alone cache c key w :
  outcomes (FileCache_Load [] (Some cache) c key) w = [(w, Load_answer cache c key w)].
Proof using Type.
  unfold FileCache_Load, Load_answer, entry_answer, ctx_Err. rewrite outcomes_rbind, outcomes_read.
  destruct (ctx_err c (fw_ctxs w)); [done|]. cbn [mbind list_bind app]. rewrite app_nil_r.
  destruct (path cache key) as [p|e]; [|done]. cbn [mbind res_bind].
  assert (outcomes (Stat [] p) w = [(w, Ok (option_map (λ d, Z.of_nat (String.length d)) (content (fw_fs w) p)))]) as Hstat.
  { unfold Stat, syscall. rewrite outcomes_await. by destruct w. }
  rewrite outcomes_rbind, (outcomes_wrapped _ _ _ _ _ Hstat). cbn [mbind list_bind app]. rewrite app_nil_r.
  destruct (content (fw_fs w) p) as [d|] eqn:Hd; [|done]. cbn [option_map].
  destruct (_ <? _); [done|].
  assert (outcomes (ReadFile [] p) w = [(w, Ok d)]) as Hread by (unfold ReadFile; by rewrite outcomes_await, Hd).
  by rewrite outcomes_rbind, (outcomes_wrapped _ _ _ _ _ Hread).
Qed.

Lemma entry_answer_spec cache key data :
  (∃ v, is_entry cache key data v ∧ entry_answer cache key (Some data) = Ok (Some v)) ∨
  (∀ v, ¬ is_entry cache key data v) ∧
  ∃ e, entry_answer cache key (Some data) = Err e ∧ Is e ErrCorruptCache = true.
Proof using Type.
  unfold is_entry, entry_answer, check_entry, cacheEntrySchema.
  destruct (Z.ltb_spec (maxEntryBytes cache) (Z.of_nat (String.length data))) as [Hlt|Hle].
  { right. split; [intros v [? _]; lia|by eexists]. }
  destruct (DecodeStrictInto decode_envelope data) as [x|e]; [|right; split; [intros v (_ & y & Hy & ? & ? & ? & _); (discriminate Hy || (injection Hy as <-; contradiction))|by eexists]].
  destruct (decide (SchemaVersion x = cacheEntrySchema)) as [Hs|Hs];
    [rewrite (bool_decide_eq_true_2 _ Hs)|rewrite (bool_decide_eq_false_2 _ Hs); right; split; [intros v (_ & y & Hy & ? & ? & ? & _); (discriminate Hy || (injection Hy as <-; contradiction))|by eexists]].
  destruct (decide (env_Key x = key)) as [Hk|Hk];
    [rewrite (bool_decide_eq_true_2 _ Hk)|rewrite (bool_decide_eq_false_2 _ Hk); right; split; [intros v (_ & y & Hy & ? & ? & ? & _); (discriminate Hy || (injection Hy as <-; contradiction))|by eexists]].
  destruct (decide (ValueDigest x = Bytes (Value x))) as [Hv|Hv];
    [rewrite (bool_decide_eq_true_2 _ Hv)|rewrite (bool_decide_eq_false_2 _ Hv); right; split; [intros v (_ & y & Hy & ? & ? & ? & _); (discriminate Hy || (injection Hy as <-; contradiction))|by eexists]].
  cbn [negb orb]. destruct (DecodeStrictInto _ (Value x)) as [v|e] eqn:Hd.
  - left. exists v. split; [|done]. split; [done|]. by exists x.
  - right. split; [|by eexists]. intros v (_ & y & [= <-] & _ & _ & _ & Hy). congruence.
Qed.

(** C36: [FileCache.Load] on every branch.  It changes nothing.  A done context and
    an invalid key are reported.  Otherwise, unless a system call fails, which is
    reported as such, the answer depends on the file of the key's digest: nothing
    exactly when there is none; a value exactly when its bytes fit the limit and are
    a strict envelope of the schema, for the whole key, with the digest of its
    value, which decodes strictly to the value returned; [ErrCorruptCache] for any
    other bytes. *)
Theorem FileCache_Load_answers cache c key w w' r :
  (w', r) ∈ outcomes (FileCache_Load oserrs (Some cache) c key) w →
  w' = w ∧
  match ctx_err c (fw_ctxs w), Key_Digest key with
  | Some e, _ | None, Err e => r = Err e
  | None, Ok keyDigest =>
      (∃ e, r = Err e ∧ Load_fault e) ∨
      match content (fw_fs w) (entry_path (directory cache) keyDigest) with
      | None => r = Ok None
      | Some data =>
          (∃ v, is_entry cache key data v ∧ r = Ok (Some v)) ∨
          (∀ v, ¬ is_entry cache key data v) ∧ ∃ e, r = Err e ∧ Is e ErrCorruptCache = true
      end
  end.
Proof.
  intros [-> Hr]%Load_outcomes. split; [done|]. unfold Load_answer, path in Hr.
  destruct (ctx_err c (fw_ctxs w)) as [e|]; [by destruct Hr as [?|[? _]]|].
  destruct (Key_Digest key) as [k|e]; [|by destruct Hr as [?|(_ & ? & _)]]. cbn [mbind res_bind] in Hr.
  destruct Hr as [-> |(_ & _ & Hfault)]; [|by left]. right.
  destruct (content _ _) as [data|]; [|done]. apply entry_answer_spec.
Qed.

(** Values whose JSON text is well formed, fits below the envelope, and is decoded
    to the value again. *)
Definition faithful v : Prop :=
  ∃ j, encode v = Ok j ∧ json_ok (max_depth - 1) j ∧ decode true (render j) = Ok v ∧
       decode false (render j) = Ok v.

Lemma json_ok_depth d d' j : d ≤ d' → json_ok d j → json_ok d' j.
Proof.
  revert d d'. induction j as [| | | |l IH|l IH] using json_tree_ind; try done; intros d d' Hd; cbn [json_ok].
  - intros [Hpos Hok%foldr_Forall]. split; [lia|]. apply foldr_Forall.
    rewrite Forall_forall in Hok, IH |- *. intros x Hx. eapply IH; [done| |by apply Hok]. lia.
  - intros [Hpos Hok%foldr_Forall]. split; [lia|]. apply foldr_Forall.
    rewrite Forall_forall in Hok, IH |- *. intros x Hx. destruct (Hok x Hx) as [? Hv].
    split; [done|]. eapply IH; [done| |exact Hv]. lia.
Qed.

Lemma envelope_json_ok key j :
  key_utf8 key → json_ok (max_depth - 1) j → json_ok max_depth (envelope_json key j).
Proof.
  intros Hkey Hj. split; [done|]. cbn [foldr fst snd].
  split_and!; try done; [by apply key_json_ok|].
  apply DecodeString_utf8, DecodeString_Bytes.
Qed.

Lemma decode_members_cons {T} fields (set : string → member → T → T * option error) m ms x f x' :
  find_field fields (m_name m) = Some f → set f m x = (x', None) →
  decode_members fields set (m :: ms) x None = decode_members fields set ms x' None.
Proof. intros Hf Hset. cbn [decode_members]. by rewrite Hf, Hset. Qed.

Lemma decode_envelope_render key j :
  key_utf8 key → json_ok (max_depth - 1) j →
  DecodeStrictInto decode_envelope (render (envelope_json key j)) =
    Ok (Envelope cacheEntrySchema key (Bytes (render j)) (render j)).
Proof.
  intros Hkey Hj. unfold DecodeStrictInto.
  rewrite parse_top_render by by apply envelope_json_ok.
  assert (text_members (render (key_json key)) = raw_member <$>
            [("step", JStr (Step key)); ("version", JStr (Version key));
             ("input_digest", JStr (InputDigest key))]) as Hmembers.
  { unfold text_members. by rewrite parse_top_render by by apply key_json_ok. }
  unfold decode_envelope. cbn [t_value t_members t_rest members_of envelope_json].
  cbn [decode_struct].
  change (decode_struct envelope_fields set_envelope_field (envelope_json key j) ?ms ?x)
    with (decode_members envelope_fields set_envelope_field ms x None).
  rewrite !fmap_cons, fmap_nil.
  erewrite decode_members_cons by reflexivity. erewrite decode_members_cons; [|reflexivity|].
  2: { unfold set_envelope_field. rewrite decide_False, decide_True by done. cbn [raw_member m_value m_raw fst snd].
       rewrite Hmembers. unfold decode_struct, key_json. rewrite !fmap_cons, fmap_nil.
       by do 3 erewrite decode_members_cons by reflexivity. }
  do 2 erewrite decode_members_cons by reflexivity. by destruct key.
Qed.

(** An entry [Store] writes is one [Load] accepts. *)
Lemma check_entry_render key v j :
  key_utf8 key → json_ok (max_depth - 1) j → decode true (render j) = Ok v →
  check_entry key (render (envelope_json key j)) = Ok v.
Proof.
  intros Hkey Hj Hdec. unfold check_entry. rewrite decode_envelope_render by done.
  cbn [SchemaVersion env_Key ValueDigest Value]. rewrite !bool_decide_eq_true_2 by done. cbn [negb orb].
  unfold DecodeStrictInto. rewrite parse_top_render by (eapply json_ok_depth; [|done]; done).
  cbn [t_text t_rest]. by rewrite Hdec.
Qed.

(** The published entry of [key] answers [v]. *)
Lemma entry_answer_stored cache key v j :
  key_utf8 key → json_ok (max_depth - 1) j → decode true (render j) = Ok v →
  (maxEntryBytes cache <? Z.of_nat (String.length (render (envelope_json key j)))) = false →
  entry_answer cache key (Some (render (envelope_json key j))) = Ok (Some v).
Proof. intros Hkey Hj Hdec Hsize. unfold entry_answer. by rewrite Hsize, (check_entry_render _ v). Qed.

(** C13: [FileCache.Store] is an atomic update of one entry, durable as far as the
    directory of the entry is.  Whatever system call fails and whenever the machine
    stops, the entry of the key answers what it answered before or the new value,
    never [ErrCorruptCache] where it was readable; or it is gone, only when its
    directory was not durable at the start.  A store that returns nil leaves an
    entry from which [Load] returns exactly the value that was stored, and that a
    crash loses exactly when some directory on the way was not durable at the start,
    as the shard directory of a first entry is; one that fails leaves the old or the
    new answer.  No entry of another digest changes its answer. *)
Theorem FileCache_Store_atomic cache c key v p old w :
  key_utf8 key → faithful v → path cache key = Ok p → fs_ok (fw_fs w) → settled_at (fw_fs w) p old →
  (∀ k q d pat, path cache k = Ok q → q ∉ temp_names d pat) →
  let answers entry := entry_answer cache key entry = entry_answer cache key old ∨
                       entry_answer cache key entry = Ok (Some v) in
  let durable_directory := anchored (fw_fs w) (Dir p) in
  always (λ w', ∀ read, crash (fw_fs w') read → answers (read p) ∨ read p = None ∧ ¬ durable_directory)
    (λ r w', (if is_ok r then
                entry_answer cache key (content (fw_fs w') p) = Ok (Some v) ∧
                (∀ read, crash (fw_fs w') read →
                   entry_answer cache key (read p) = Ok (Some v) ∨ read p = None ∧ ¬ durable_directory) ∧
                (¬ durable_directory → ∃ read, crash (fw_fs w') read ∧ read p = None)
              else answers (content (fw_fs w') p)) ∧
             ∀ k q, path cache k = Ok q → q ≠ p →
                    entry_answer cache k (content (fw_fs w') q) = entry_answer cache k (content (fw_fs w) q))
    (FileCache_Store oserrs temp_names (Some cache) c key v) w.
Proof.
  intros Hkey (j & Henc & Hj & Hdec & _) Hp Hok Hold Htemp answers D.
  assert (content (fw_fs w) p = old) as Hc by (by apply holds_content, Hold).
  assert (∀ read, crash (fw_fs w) read → answers (read p) ∨ read p = None ∧ ¬ D) as Hnow.
  { intros read Hcrash. destruct (either_at_crash _ _ _ _ _ (settled_either _ _ _ Hold) Hcrash)
      as [-> |[-> |?]]; [by left; left..|by right]. }
  unfold FileCache_Store.
  eapply always_rbind with (R := λ _ w', w' = w).
  { apply always_ctx_Err; [done|]. intros [[]|e]; [done|]. split; [|done]. left. by rewrite Hc. }
  intros _ ? -> _. rewrite Hp, Henc. destruct (_ <? _) eqn:Hsize.
  { apply always_ret; [done|]. split; [|done]. left. by rewrite Hc. }
  pose proof (entry_answer_stored cache key v j Hkey Hj Hdec Hsize) as Hstored.
  eapply always_wrapping, always_mono; [|eapply always_conseq;
    [eapply (AtomicWrite_safe oserrs temp_names c p _ ".entry-*" old); [done|done|eauto]|]].
  - intros w' Hw' read Hcrash. destruct (Hw' read Hcrash) as [-> |[-> |?]]; [by left; left|by left; right|by right].
  - intros r w' [Hpost Hframe] _. split.
    + destruct r as [[]|e]; cbn [is_ok] in *.
      * destruct Hpost as (Hnew & Hlater & Hlost). rewrite Hnew. split_and!; [done| |done].
        intros read Hread. destruct (Hlater read Hread) as [-> |?]; [by left|by right].
      * destruct Hpost as [-> | ->]; [by left|by right].
    + intros k q Hq Hne. rewrite Hframe; [done|done|]. right. intros d pat. by eapply Htemp.
Qed.
End file_cache_theorems.

(** ** MemoryStore *)

Section memory_store_theorems.
Context {V : Type} `{!Codec V}.
Implicit Types (key : Key) (v : V) (c : ctx) (w : memw).

(** [MemoryStore] is a map from digests to values: a store that succeeds
    changes the entry of its key only, and a load answers the value last stored
    under the digest, so that a value that survives its own JSON text is read back
    unchanged, by every key with that digest and by no other; a done context or an
    invalid key fails both without effect. *)
Theorem MemoryStore_round_trip c key v w d :
  faithful v → ctx_err c (mw_ctxs w) = None → Key_Digest key = Ok d →
  ∃ w', outcomes (MemoryStore_Store c key v) w = [(w', Ok tt)] ∧
    outcomes Len w' = [(w', Z.of_nat (S (size (delete d (entries w)))))] ∧
    ∀ k e, Key_Digest k = Ok e →
      outcomes (MemoryStore_Load (V := V) c k) w' =
        if decide (e = d) then [(w', Ok (Some v))]
        else (λ '(_, r), (w', r)) <$> outcomes (MemoryStore_Load c k) w.
Proof.
  intros (j & Henc & _ & _ & Hdec) Hctx Hd.
  exists (Memw (mw_ctxs w) (<[d := render j]> (entries w))). split_and!.
  - unfold MemoryStore_Store, mem_ctx_Err. rewrite outcomes_rbind, outcomes_read, Hctx. cbn [mbind list_bind].
    by rewrite Hd, Henc.
  - unfold Len. rewrite outcomes_read. cbn [entries]. rewrite <-insert_delete_eq, map_size_insert_None; [done|].
    by rewrite lookup_delete_eq.
  - intros k e Hk. unfold MemoryStore_Load, mem_ctx_Err.
    rewrite !outcomes_rbind, !outcomes_read. cbn [mw_ctxs]. rewrite Hctx. cbn [mbind list_bind app]. rewrite Hk.
    rewrite !outcomes_bind, !outcomes_read. cbn [mbind list_bind app entries]. case_decide as He.
    + subst e. by rewrite lookup_insert_eq, Hdec.
    + rewrite lookup_insert_ne by done. by destruct (entries w !! e).
Qed.
End memory_store_theorems.

(** ** Concrete keys and entries *)

Lemma recorded_utf8 : key_utf8 recorded_key.
Proof. split; [|split]; vm_compute; reflexivity. Qed.

Lemma recorded_faithful : faithful recorded_value.
Proof.
  exists recorded_value. split; [reflexivity|]. split; [vm_compute; repeat split; reflexivity|].
  split; vm_compute; reflexivity.
Qed.

Lemma Key_Digest_collision_witness :
  key_utf8 recorded_key ∧ is_ok (Key_Digest recorded_key) = true ∧
  (recorded_key = recorded_key ∨ render (key_json recorded_key) ≠ render (key_json recorded_key) ∧
     Bytes (render (key_json recorded_key)) = Bytes (render (key_json recorded_key))).
Proof.
  split; [exact recorded_utf8|]. split; [vm_compute; reflexivity|].
  exact (Key_Digest_collision recorded_key recorded_key _ recorded_utf8 recorded_utf8
           recorded_digest recorded_digest).
Defined.

Definition small_cache : FileCache := MkFileCache "cache" 4096.
Definition recorded_path : string :=
  entry_path "cache" "de7120bfe3cbfd54a6f5559293e5cf14fd4f8c55a87628c75a6be447ea59f17d".

Lemma recorded_path_eq : path small_cache recorded_key = Ok recorded_path.
Proof. unfold path. rewrite recorded_digest. reflexivity. Qed.

(** A cache directory with one entry, all durable; and one just made. *)
Definition disk (text : string) : fsw :=
  Fsw (Ctxs ∅ 1) (Fs [Inode text text] {[recorded_path := 0%nat]} {[recorded_path := 0%nat]}
                     {["cache"; Dir recorded_path]} {["cache"; Dir recorded_path]}).
Definition fresh_disk : fsw := Fsw (Ctxs ∅ 1) (Fs [] ∅ ∅ {["cache"]} {["cache"]}).

Lemma FileCache_Load_answers_witness :
  ∃ w' r, (w', r) ∈ outcomes (FileCache_Load (V := json) [] (Some small_cache) [0%nat] recorded_key)
                      (disk recorded_text) ∧
    w' = disk recorded_text ∧
    ((∃ e, r = Err e ∧ Load_fault [] e) ∨ 
     (∃ v, is_entry small_cache recorded_key recorded_text v ∧ r = Ok (Some v)) ∨
     (∀ v : json, ¬ is_entry small_cache recorded_key recorded_text v) ∧
     ∃ e, r = Err e ∧ Is e ErrCorruptCache = true).
Proof.
  destruct (outcomes (FileCache_Load (V := json) [] (Some small_cache) [0%nat] recorded_key) (disk recorded_text))
    as [|[w' r] l] eqn:Ho; [vm_compute in Ho; discriminate Ho|].
  assert ((w', r) ∈ outcomes (FileCache_Load (V := json) [] (Some small_cache) [0%nat] recorded_key)
                      (disk recorded_text)) as Hin by (rewrite Ho; left).
  exists w', r. split; [rewrite <-Ho; exact Hin|].
  destruct (FileCache_Load_answers [] small_cache [0%nat] recorded_key (disk recorded_text) w' r Hin)
    as [Hw Hr]. split; [exact Hw|].
  rewrite recorded_digest in Hr. exact Hr.
Defined.

Lemma entry_path_starts d directory pattern :
  entry_path "cache" d ∉ one_temp directory pattern.
Proof. intros Hin%list_elem_of_singleton. discriminate Hin. Qed.

Lemma path_not_temp k q directory pattern :
  path small_cache k = Ok q → q ∉ one_temp directory pattern.
Proof.
  unfold path. destruct (Key_Digest k) as [d|e]; intros Hq; apply Ok_inj in Hq || discriminate Hq.
  subst q. apply entry_path_starts.
Qed.

(** A truncated entry is corrupt; storing over it can only repair it.  The first
    entry of a shard is lost with its directory. *)
Lemma FileCache_Store_atomic_witness :
  let w := disk "{" in
  let answers entry := entry_answer small_cache recorded_key entry = Err (corrupt_because "decode envelope" (decode_error syntax_error)) ∨
                       entry_answer small_cache recorded_key entry = Ok (Some recorded_value) in
  always (λ w', ∀ read, crash (fw_fs w') read → answers (read recorded_path))
    (λ r w', if is_ok r then entry_answer small_cache recorded_key (content (fw_fs w') recorded_path) = Ok (Some recorded_value)
             else answers (content (fw_fs w') recorded_path))
    (FileCache_Store disk_full one_temp (Some small_cache) [0%nat] recorded_key recorded_value) w ∧
  always (λ _, True)
    (λ r w', is_ok r = true → ∃ read, crash (fw_fs w') read ∧ read recorded_path = None)
    (FileCache_Store disk_full one_temp (Some small_cache) [0%nat] recorded_key recorded_value) fresh_disk.
Proof.
  intros w answers.
  assert (anchored (fw_fs w) (Dir recorded_path)) as Hanch.
  { change (Forall (λ a, a ∈ ({["cache"; Dir recorded_path]} : gset string)) [Dir recorded_path; "cache"]).
    apply Forall_cons; split; [|apply Forall_singleton]; apply elem_of_union;
      [right|left]; apply elem_of_singleton; reflexivity. }
  split.
  - eapply always_mono, always_conseq; [|
      apply (FileCache_Store_atomic disk_full one_temp small_cache [0%nat] recorded_key recorded_value
             recorded_path (Some "{") w recorded_utf8 recorded_faithful recorded_path_eq)|].
    + intros w' Hs read Hread. destruct (Hs read Hread) as [?|[_ Hn]]; [assumption|destruct (Hn Hanch)].
    + intros q i Hq. simpl in Hq. apply lookup_singleton_Some in Hq as [_ <-]. simpl; lia.
    + split; [reflexivity|]. exists (Inode "{" "{"). repeat split.
    + intros k q d pat. apply path_not_temp.
    + intros r w' [Hr _] _. destruct (is_ok r); [exact (proj1 Hr)|exact Hr].
  - eapply always_mono, always_conseq; [|
      apply (FileCache_Store_atomic disk_full one_temp small_cache [0%nat] recorded_key recorded_value
             recorded_path None fresh_disk recorded_utf8 recorded_faithful recorded_path_eq)|].
    + intros w' _. exact I.
    + intros q i Hq. simpl in Hq. discriminate Hq.
    + split; reflexivity.
    + intros k q d pat. apply path_not_temp.
    + intros r w' [Hr _] _ Hok. rewrite Hok in Hr. destruct Hr as (_ & _ & Hlost). apply Hlost.
      intros Ha. apply Forall_inv in Ha. simpl in Ha. apply elem_of_singleton in Ha.
      vm_compute in Ha. discriminate Ha.
Defined.

Definition no_entries : memw := Memw (Ctxs ∅ 1) ∅.

Lemma MemoryStore_round_trip_witness :
  ∃ w', outcomes (MemoryStore_Store [0%nat] recorded_key recorded_value) no_entries = [(w', Ok tt)] ∧
        outcomes (MemoryStore_Load (V := json) [0%nat] recorded_key) w' = [(w', Ok (Some recorded_value))].
Proof.
  destruct (MemoryStore_round_trip [0%nat] recorded_key recorded_value no_entries _ recorded_faithful eq_refl
              recorded_digest) as (w' & Hst & _ & Hl).
  exists w'. split; [exact Hst|].
  rewrite (Hl recorded_key _ recorded_digest). rewrite decide_True by reflexivity. reflexivity.
Defined.
