(* ===== verification/Report.v ===== *)
(** * Execution reports, results and events: flow/report.go and flow/policy.go

    Go maps are [option (gmap string _)]: [None] is nil, which may be read but
    not written.  Reports are values here: a map reached through a report is
    never written after the report was built, which is what [Clone] is for; the
    one map a running stage does write is modelled in Runner.v. *)

From S2P Require Import Prelude GoError Float64 Classify Limits Budget.

(** ** Meters *)

Notation Meters := (gmap string f64).

(** [meters[name] += value] for every name of [other]. *)
Definition Meters_Add (meters other : Meters) : Meters :=
  merge (λ old new, match new with
                    | Some v => Some (fadd (default fzero old) v)
                    | None => old
                    end) meters other.

(** The test [AddChecked] makes for one name. *)
Definition meter_fault (meters : Meters) (name : string) (value : f64) : option error :=
  if IsNaN value || IsInf value then Some (Errorf "meter %q is not finite" [ArgStr name]) else
  let combined := fadd (default fzero (meters !! name)) value in
  if IsNaN combined || IsInf combined then Some (Errorf "meter %q total is not finite" [ArgStr name])
  else None.

(** The results [AddChecked] can have: a map is ranged over in any order. *)
Definition AddChecked (meters other : Meters) : list (Meters * res unit) :=
  match omap (λ p, meter_fault meters p.1 p.2) (map_to_list other) with
  | [] => [(Meters_Add meters other, Ok tt)]
  | faults => (λ e, (meters, Err e)) <$> faults
  end.

(** ** Outcomes and results *)

Inductive CacheState := CacheNone | CacheHit | CacheStored | CachePending.
#[export] Instance CacheState_eq_dec : EqDecision CacheState.
Proof. solve_decision. Defined.

Definition CacheState_string (s : CacheState) : string :=
  match s with
  | CacheNone => "" | CacheHit => "hit" | CacheStored => "stored" | CachePending => "pending"
  end.

Record CacheOutcome := MkOutcome { KeyDigest : string; State : CacheState }.
Definition no_outcome : CacheOutcome := MkOutcome "" CacheNone.

(** flow/policy.go *)
Record ItemError := MkItemError {
  ie_Step : string;
  ie_Index : nat;
  ie_Class : ErrorClass;
  ie_Attempts : Z;
  ie_Message : string;
}.

Definition set_Index (i : nat) (e : ItemError) : ItemError :=
  MkItemError (ie_Step e) i (ie_Class e) (ie_Attempts e) (ie_Message e).

Record Result (O : Type) := MkResult {
  r_Value : O;
  r_Cache : CacheOutcome;
  r_Quarantined : option ItemError;
  r_Skipped : bool;
}.
Arguments MkResult {_} _ _ _ _.
Arguments r_Value {_} _.
Arguments r_Cache {_} _.
Arguments r_Quarantined {_} _.
Arguments r_Skipped {_} _.

(** ** Reports *)

Record StepReport := MkStepReport {
  Items : Z;
  Hits : Z;
  Misses : Z;
  Stored : Z;
  WorkCalls : Z;
  StartedSequences : Z;
  Retries : Z;
  Quarantined : Z;
  Skipped : Z;
  RetriesByClass : option (gmap string Z);
  Spend : option (gmap string snapshot);
  sr_Meters : option Meters;
}.

Definition zero_report : StepReport := MkStepReport 0 0 0 0 0 0 0 0 0 None None None.

(** [if m == nil { m = map{} }; m[k] = ... for k, v := range other]: the target
    stays nil when [other] has no entry. *)
Definition fold_map {V} (f : option V → option V → option V) (m other : option (gmap string V))
    : option (gmap string V) :=
  match other with
  | None => m
  | Some other => if decide (other = ∅) then m else Some (merge f (default ∅ m) other)
  end.

Definition add_count (old new : option Z) : option Z :=
  match new with Some v => Some (default 0 old +! v) | None => old end.
Definition overwrite {V} (old new : option V) : option V :=
  match new with Some v => Some v | None => old end.
Definition add_meter (old new : option f64) : option f64 :=
  match new with Some v => Some (fadd (default fzero old) v) | None => old end.

Definition StepReport_merge (report other : StepReport) : StepReport :=
  MkStepReport (Items report +! Items other) (Hits report +! Hits other)
    (Misses report +! Misses other) (Stored report +! Stored other)
    (WorkCalls report +! WorkCalls other) (StartedSequences report +! StartedSequences other)
    (Retries report +! Retries other) (Quarantined report +! Quarantined other)
    (Skipped report +! Skipped other)
    (fold_map add_count (RetriesByClass report) (RetriesByClass other))
    (fold_map overwrite (Spend report) (Spend other))
    (fold_map add_meter (sr_Meters report) (sr_Meters other)).

(** A [Report] is its map [Steps]. *)
Definition Report := option (gmap string StepReport).

Definition merge_step (old new : option StepReport) : option StepReport :=
  match new with Some step => Some (StepReport_merge (default zero_report old) step) | None => old end.
Definition Report_merge (report other : Report) : Report := fold_map merge_step report other.

(** [Report.Step] *)
Definition Report_Step (report : Report) (name : string) : StepReport :=
  default zero_report (report ≫= λ m, m !! name).

(** ** Snapshots and events *)

Record Snapshot := MkSnapshot {
  Sequence : Z;
  StartedAt : Z;
  UpdatedAt : Z;
  sn_Total : Z;
  Terminal : bool;
  sn_Report : Report;
}.

Inductive EventType :=
| EventRunStarted | EventStepStarted | EventStepCompleted | EventRunCompleted | EventRunFailed
| EventHit | EventStored | EventDone | EventRetry | EventQuarantined | EventSkipped.
#[export] Instance EventType_eq_dec : EqDecision EventType.
Proof. solve_decision. Defined.

Record Event := MkEvent {
  At : option Z;          (* None: the zero time *)
  ev_Step : string;
  ev_Index : Z;
  ev_Type : EventType;
  ev_Class : string;
  ev_Attempt : Z;
  ev_Total : Z;
  ev_Error : string;
}.

(** [Event{Index: index, Type: t}] *)
Definition item_event (index : nat) (t : EventType) : Event := MkEvent None "" (Z.of_nat index) t "" 0 0 "".
(** [Event{Step: step, Index: -1, Type: t, Total: total, Error: text}] *)
Definition boundary_event (step : string) (t : EventType) (total : Z) (text : string) : Event :=
  MkEvent None step (-1) t "" 0 total text.

(** ** Merging *)

Lemma fold_map_lookup {V} (f : option V → option V → option V) m other name :
  (∀ x, f x None = x) →
  (fold_map f m other ≫= (.!! name)) = f (m ≫= (.!! name)) (other ≫= (.!! name)).
Proof.
  intros Hf. unfold fold_map. destruct other as [other|]; simpl; [|by rewrite Hf].
  case_decide as He; [subst other; by rewrite lookup_empty, Hf|]. simpl.
  rewrite lookup_merge. unfold diag_None.
  assert (default ∅ m !! name = m ≫= (.!! name)) as -> by by destruct m.
  destruct (m ≫= (.!! name)), (other !! name); done.
Qed.

(** Merging reports step by step. *)
Lemma Report_merge_Step report other name :
  Report_Step (Report_merge report other) name =
    match other ≫= (.!! name) with
    | Some step => StepReport_merge (Report_Step report name) step
    | None => Report_Step report name
    end.
Proof.
  unfold Report_Step, Report_merge.
  change (λ m : gmap string StepReport, m !! name) with ((.!! name) : gmap string StepReport → option StepReport).
  rewrite fold_map_lookup by done. unfold merge_step. by destruct (other ≫= _).
Qed.

(** ** Meters stay finite *)

Definition meters_finite (m : Meters) : Prop := ∀ name v, m !! name = Some v → is_finite v = true.

Lemma Meters_Add_lookup m o name :
  Meters_Add m o !! name = match o !! name with
                           | Some v => Some (fadd (default fzero (m !! name)) v)
                           | None => m !! name
                           end.
Proof. unfold Meters_Add. rewrite lookup_merge. by destruct (m !! name), (o !! name). Qed.

Lemma AddChecked_spec' meters other meters' r :
  (meters', r) ∈ AddChecked meters other →
  match r with
  | Ok _ => meters' = Meters_Add meters other ∧ meters_finite other ∧
            (meters_finite meters → meters_finite meters')
  | Err e => meters' = meters ∧
             ∃ name v, other !! name = Some v ∧ meter_fault meters name v = Some e
  end.
Proof.
  unfold AddChecked. destruct (omap _ _) as [|e0 faults] eqn:Hf.
  - intros [= -> ->]%list_elem_of_singleton.
    assert (∀ name v, other !! name = Some v → meter_fault meters name v = None) as Hnone.
    { intros name v Hv%elem_of_map_to_list. destruct (meter_fault meters name v) as [e|] eqn:He; [|done].
      assert (e ∈ omap (λ p, meter_fault meters p.1 p.2) (map_to_list other)) as Hin
        by (apply list_elem_of_omap; by exists (name, v)).
      rewrite Hf in Hin. by apply elem_of_nil in Hin. }
    split; [done|]. unfold meter_fault in Hnone. split.
    + intros name v Hv. specialize (Hnone name v Hv). unfold is_finite. by destruct (_ || _).
    + intros Hfin name v. rewrite Meters_Add_lookup. destruct (other !! name) as [u|] eqn:Hu; [|apply Hfin].
      intros [= <-]. specialize (Hnone name u Hu). destruct (IsNaN u || IsInf u); [done|].
      unfold is_finite. by destruct (_ || _).
  - intros Hin. rewrite <-Hf in Hin. apply list_elem_of_fmap in Hin as (e & [= -> ->] & Hin).
    split; [done|]. apply list_elem_of_omap in Hin as ([name v] & Hin & He).
    exists name, v. by apply elem_of_map_to_list in Hin.
Qed.

(** [AddChecked] keeps meters serializable: it adds [other] name by name when
    every value and every sum is finite, and otherwise changes nothing and names
    an offending meter; totals that were finite stay finite. *)
Theorem AddChecked_spec meters other meters' r :
  (meters', r) ∈ AddChecked meters other →
  match r with
  | Ok _ => meters' = Meters_Add meters other ∧ meters_finite other ∧
            (meters_finite meters → meters_finite meters')
  | Err e => meters' = meters ∧
             ∃ name v, other !! name = Some v ∧ meter_fault meters name v = Some e
  end.
Proof. apply AddChecked_spec'. Qed.

(** Merging reports does not check: two finite meters merge to infinity. *)
Definition big_meter : f64 := S754_finite false (2 ^ 53 - 1) 971.
Definition metered (v : f64) : StepReport :=
  MkStepReport 0 0 0 0 0 0 0 0 0 None None (Some {["usd" := v]}).

Theorem merge_overflows_meters :
  is_finite big_meter = true ∧
  sr_Meters (StepReport_merge (metered big_meter) (metered big_meter)) =
    Some {["usd" := S754_infinity false]}.
Proof. split; vm_compute; reflexivity. Qed.

Lemma AddChecked_spec_witness :
  AddChecked {["usd" := big_meter]} {["usd" := big_meter]} =
    [({["usd" := big_meter]}, Err (Errorf "meter %q total is not finite" [ArgStr "usd"]))] ∧
  ∃ name v, meter_fault {["usd" := big_meter]} name v = Some (Errorf "meter %q total is not finite" [ArgStr "usd"]).
Proof.
  assert (AddChecked {["usd" := big_meter]} {["usd" := big_meter]} =
    [({["usd" := big_meter]}, Err (Errorf "meter %q total is not finite" [ArgStr "usd"]))]) as H
    by (vm_compute; reflexivity).
  split; [exact H|].
  destruct (AddChecked_spec {["usd" := big_meter]} {["usd" := big_meter]} {["usd" := big_meter]}
              (Err (Errorf "meter %q total is not finite" [ArgStr "usd"])) ltac:(rewrite H; left))
    as (_ & name & v & _ & Hv).
  exists name, v. exact Hv.
Defined.
