(* ===== verification/Clone.v ===== *)
(** * Copies of reports: Clone of flow/report.go

    A Go map is a reference.  Here maps live in a heap and a report holds references to
    them, as the structs of the source do; Report.v has the values that are read through
    them.  [Report_Clone] allocates every map anew, so that neither the report nor its
    copy is touched by what is written through the other. *)

From S2P Require Import Prelude GoError Float64 Classify Limits Budget Report.

(** ** The heap *)

(** A reference is an index into the heap; nil is [None]. *)
Notation ref := (option nat).

(** [StepReport] as a struct. *)
Record step_struct := StepStruct {
  s_Items : Z; s_Hits : Z; s_Misses : Z; s_Stored : Z; s_WorkCalls : Z; s_StartedSequences : Z;
  s_Retries : Z; s_Quarantined : Z; s_Skipped : Z;
  s_RetriesByClass : ref;
  s_Spend : ref;
  s_Meters : ref;
}.

Inductive object :=
| Counts (m : gmap string Z)
| Spends (m : gmap string snapshot)
| MeterMap (m : Meters)
| Steps (m : gmap string step_struct).

Notation heap := (list object).

(** [make] and the loop that fills the new map. *)
Definition alloc (x : object) (h : heap) : heap * ref := (h ++ [x], Some (length h)).

(** [for k, v := range m { cloned[k] = v }] *)
Definition copy_entries {V} (m : gmap string V) : gmap string V :=
  foldl (λ copy entry, <[entry.1 := entry.2]> copy) ∅ (map_to_list m).

(** ** What is read through references *)

Definition counts_of (x : object) : option (gmap string Z) := match x with Counts m => Some m | _ => None end.
Definition spends_of (x : object) : option (gmap string snapshot) := match x with Spends m => Some m | _ => None end.
Definition meters_of (x : object) : option Meters := match x with MeterMap m => Some m | _ => None end.
Definition steps_of (x : object) : option (gmap string step_struct) := match x with Steps m => Some m | _ => None end.

(** The map [p] refers to; [kind] says which kind of map is meant. *)
Definition map_at {A} (kind : object → option A) (h : heap) (p : ref) : option A := l ← p; x ← h !! l; kind x.

Definition step_at (h : heap) (s : step_struct) : StepReport :=
  MkStepReport (s_Items s) (s_Hits s) (s_Misses s) (s_Stored s) (s_WorkCalls s) (s_StartedSequences s)
    (s_Retries s) (s_Quarantined s) (s_Skipped s)
    (map_at counts_of h (s_RetriesByClass s)) (map_at spends_of h (s_Spend s)) (map_at meters_of h (s_Meters s)).

(** The value of a report. *)
Definition report_at (h : heap) (report : ref) : Report :=
  match map_at steps_of h report with Some m => Some (step_at h <$> m) | None => None end.

(** ** Clone *)

(** [if m != nil { cloned = make(...); for ... }] for one of the maps of a step. *)
Definition clone_map {A} (kind : object → option A) (to : A → object) (copy : A → A) (p : ref) (h : heap) : heap * ref :=
  match map_at kind h p with
  | None => (h, None)
  | Some m => alloc (to (copy m)) h
  end.

Definition StepReport_Clone (s : step_struct) (h : heap) : heap * step_struct :=
  let '(h, classes) := clone_map counts_of Counts copy_entries (s_RetriesByClass s) h in
  let '(h, spend) := clone_map spends_of Spends copy_entries (s_Spend s) h in
  let '(h, metered) := clone_map meters_of MeterMap (Meters_Add ∅) (s_Meters s) h in
  (h, StepStruct (s_Items s) (s_Hits s) (s_Misses s) (s_Stored s) (s_WorkCalls s) (s_StartedSequences s)
        (s_Retries s) (s_Quarantined s) (s_Skipped s) classes spend metered).

(** The loop of [Report.Clone] over the steps, in the order the map is ranged over. *)
Fixpoint clone_steps (order : list (string * step_struct)) (h : heap) (cloned : gmap string step_struct)
    : heap * gmap string step_struct :=
  match order with
  | [] => (h, cloned)
  | (name, s) :: order => let '(h, s') := StepReport_Clone s h in clone_steps order h (<[name := s']> cloned)
  end.

(** [Report.Clone]; [order] is the order of the steps. *)
Definition Report_Clone (order : list (string * step_struct)) (report : ref) (h : heap) : heap * ref :=
  match report with
  | None => (h, None)
  | Some _ => let '(h, cloned) := clone_steps order h ∅ in alloc (Steps cloned) h
  end.

(** ** The value of a copy *)

(** Meters are added to zero: a negative zero becomes a positive one. *)
Definition step_copied (r : StepReport) : StepReport :=
  MkStepReport (Items r) (Hits r) (Misses r) (Stored r) (WorkCalls r) (StartedSequences r) (Retries r)
    (Quarantined r) (Skipped r) (RetriesByClass r) (Spend r) (Meters_Add ∅ <$> sr_Meters r).
Definition report_copied (r : Report) : Report := match r with Some m => Some (step_copied <$> m) | None => None end.

Lemma copy_entries_id {V} (m : gmap string V) : copy_entries m = m.
Proof.
  unfold copy_entries. assert (∀ (l : list (string * V)) (c : gmap string V), NoDup l.*1 →
    foldl (λ copy entry, <[entry.1 := entry.2]> copy) c l = list_to_map l ∪ c) as H.
  { induction l as [|[k v] l IH]; intros c Hl; simpl; [by rewrite (left_id_L ∅ (∪))|].
    apply NoDup_cons in Hl as [Hk Hl]. rewrite IH by done. apply map_eq. intros j.
    rewrite lookup_union. destruct (decide (j = k)) as [-> | Hj].
    - rewrite not_elem_of_list_to_map_1 by done. rewrite (left_id_L None (∪)), lookup_insert_eq.
      rewrite lookup_union, lookup_insert_eq. by destruct (c !! k).
    - rewrite lookup_insert_ne, lookup_union, lookup_insert_ne by done. done. }
  rewrite H by apply NoDup_fst_map_to_list. by rewrite list_to_map_to_list, (right_id_L ∅ (∪)).
Qed.

(** ** What a reference depends on *)

Definition ref_in (P : nat → Prop) (p : ref) : Prop := ∀ l, p = Some l → P l.
Definition step_in (P : nat → Prop) (s : step_struct) : Prop :=
  ref_in P (s_RetriesByClass s) ∧ ref_in P (s_Spend s) ∧ ref_in P (s_Meters s).

(** A report all of whose maps are at places in [P]. *)
Definition report_in (P : nat → Prop) (h : heap) (report : ref) : Prop :=
  ref_in P report ∧ ∀ m, map_at steps_of h report = Some m → ∀ name s, m !! name = Some s → step_in P s.

Lemma map_at_same {A} (kind : object → option A) (P : nat → Prop) h h' p :
  (∀ l, P l → h' !! l = h !! l) → ref_in P p → map_at kind h' p = map_at kind h p.
Proof. intros Hsame Hp. destruct p as [l|]; [|done]. unfold map_at. simpl. by rewrite Hsame by by apply Hp. Qed.

Lemma step_at_same (P : nat → Prop) h h' s :
  (∀ l, P l → h' !! l = h !! l) → step_in P s → step_at h' s = step_at h s.
Proof. intros Hsame (Hc & Hs & Hm). unfold step_at. f_equal; by apply (map_at_same _ P). Qed.

Lemma report_at_same (P : nat → Prop) h h' report :
  (∀ l, P l → h' !! l = h !! l) → report_in P h report → report_at h' report = report_at h report.
Proof.
  intros Hsame [Hr Hs]. unfold report_at. rewrite (map_at_same steps_of P h h' report Hsame Hr).
  destruct (map_at steps_of h report) as [m|]; [|done]. f_equal. apply map_eq. intros name. rewrite !lookup_fmap.
  destruct (m !! name) as [s|] eqn:Hm; [|done]. simpl. f_equal. apply (step_at_same P); [done|by eapply Hs].
Qed.

(** ** Fresh maps *)

Notation within n n' := (λ l, n ≤ l < n')%nat.

Lemma step_in_weaken (P Q : nat → Prop) s : (∀ l, P l → Q l) → step_in P s → step_in Q s.
Proof. intros HPQ (H1 & H2 & H3). split_and!; intros l Hl; auto. Qed.

(** What [clone] yields is in the part of the heap it has added. *)
Lemma clone_map_spec {A} (kind : object → option A) to copy p h :
  (∀ a, kind (to a) = Some a) →
  ∃ k, (clone_map kind to copy p h).1 = h ++ k ∧
    ref_in (within (length h) (length h + length k)) (clone_map kind to copy p h).2 ∧
    map_at kind (h ++ k) (clone_map kind to copy p h).2 = copy <$> map_at kind h p.
Proof.
  intros Hof. unfold clone_map. destruct (map_at kind h p) as [m|]; simpl.
  - exists [to (copy m)]. split; [done|]. split; [intros l [= <-]; simpl; lia|].
    unfold map_at. simpl. rewrite lookup_app_r, Nat.sub_diag by done. apply Hof.
  - exists []. by rewrite app_nil_r.
Qed.

Lemma StepReport_Clone_spec s h :
  step_in (λ l, l < length h)%nat s →
  ∃ k s', StepReport_Clone s h = (h ++ k, s') ∧ step_in (within (length h) (length h + length k)) s' ∧
    step_at (h ++ k) s' = step_copied (step_at h s).
Proof.
  intros (Hc & Hs & Hm). unfold StepReport_Clone.
  pose proof (clone_map_spec counts_of Counts copy_entries (s_RetriesByClass s) h ltac:(done)) as (k1 & E1 & R1 & V1).
  destruct (clone_map counts_of Counts copy_entries (s_RetriesByClass s) h) as [h1 p1]. simpl in *. subst h1.
  pose proof (clone_map_spec spends_of Spends copy_entries (s_Spend s) (h ++ k1) ltac:(done)) as (k2 & E2 & R2 & V2).
  destruct (clone_map spends_of Spends copy_entries (s_Spend s) (h ++ k1)) as [h2 p2]. simpl in *. subst h2.
  pose proof (clone_map_spec meters_of MeterMap (Meters_Add ∅) (s_Meters s) ((h ++ k1) ++ k2) ltac:(done)) as (k3 & E3 & R3 & V3).
  destruct (clone_map meters_of MeterMap (Meters_Add ∅) (s_Meters s) ((h ++ k1) ++ k2)) as [h3 p3]. simpl in *. subst h3.
  rewrite !length_app in *. exists (k1 ++ k2 ++ k3). eexists. split; [by rewrite !app_assoc|].
  assert (∀ l, (l < length h)%nat → ((h ++ k1) ++ k2) !! l = h !! l) as Hold.
  { intros l Hl. rewrite <-app_assoc. by apply lookup_app_l. }
  rewrite !length_app. split.
  - split_and!; intros l Hl; [specialize (R1 l Hl)|specialize (R2 l Hl)|specialize (R3 l Hl)]; simpl in *; lia.
  - unfold step_at, step_copied. simpl. rewrite !app_assoc. f_equal.
    + rewrite (map_at_same _ (within (length h) (length h + length k1)) (h ++ k1)); [rewrite V1|intros l Hl; rewrite <-app_assoc; apply lookup_app_l; rewrite length_app; lia|done].
      destruct (map_at counts_of h _); [|done]. simpl. by rewrite copy_entries_id.
    + rewrite (map_at_same _ (within (length h + length k1) (length h + length k1 + length k2)) ((h ++ k1) ++ k2));
        [rewrite V2|intros l Hl; apply lookup_app_l; rewrite !length_app; lia|done].
      rewrite (map_at_same _ (λ l, l < length h)%nat h); [|intros l Hl; by apply lookup_app_l|done].
      destruct (map_at spends_of h _); [|done]. simpl. by rewrite copy_entries_id.
    + rewrite V3. by rewrite (map_at_same _ (λ l, l < length h)%nat h).
Qed.

Lemma clone_steps_spec order h cloned :
  NoDup order.*1 → (∀ name s, (name, s) ∈ order → step_in (λ l, l < length h)%nat s) →
  ∃ k m, clone_steps order h cloned = (h ++ k, m) ∧
    (∀ name, name ∉ order.*1 → m !! name = cloned !! name) ∧
    ∀ name s, (name, s) ∈ order → ∃ s', m !! name = Some s' ∧
      step_in (within (length h) (length h + length k)) s' ∧ step_at (h ++ k) s' = step_copied (step_at h s).
Proof.
  revert h cloned. induction order as [|[name s] order IH]; intros h cloned Hnd Hin; cbn [clone_steps].
  { exists [], cloned. rewrite app_nil_r. split_and!; [done..|]. by intros name s ?%elem_of_nil. }
  apply NoDup_cons in Hnd as [Hname Hnd].
  destruct (StepReport_Clone_spec s h) as (k1 & s' & -> & Hs' & Hv); [apply (Hin name); by left|].
  destruct (IH (h ++ k1) (<[name := s']> cloned) Hnd) as (k2 & m & -> & Hrest & Hcopied).
  { intros name' s0 Hs0. eapply step_in_weaken; [|by apply (Hin name'); right]. simpl. intros l Hl. rewrite length_app. lia. }
  exists (k1 ++ k2), m. rewrite !length_app in *. split; [by rewrite app_assoc|]. split.
  { intros name' Hn. rewrite Hrest by (by intros H; apply Hn; right). apply lookup_insert_ne. intros ->. apply Hn. by left. }
  intros name' s0 [[= -> ->] | Hs0]%elem_of_cons.
  - exists s'. rewrite Hrest, lookup_insert_eq by done. split; [done|]. split.
    + eapply step_in_weaken; [|exact Hs']. simpl. lia.
    + rewrite <-Hv, app_assoc. apply (step_at_same (within (length h) (length h + length k1))); [|done].
      intros l Hl. apply lookup_app_l. rewrite length_app. lia.
  - destruct (Hcopied name' s0 Hs0) as (s1 & Hm & Hs1 & Hv1). exists s1. split; [done|]. split.
    + eapply step_in_weaken; [|exact Hs1]. simpl. lia.
    + rewrite app_assoc, Hv1. f_equal. apply (step_at_same (λ l, l < length h)%nat); [|by apply (Hin name'); right].
      intros l Hl. by apply lookup_app_l.
Qed.

(** A report that refers to maps of this heap only, and the order in which they are ranged over. *)
Definition cloneable (h : heap) (report : ref) (order : list (string * step_struct)) : Prop :=
  report_in (λ l, l < length h)%nat h report ∧ (report = None ∨ is_Some (map_at steps_of h report)) ∧
  order ≡ₚ map_to_list (default ∅ (map_at steps_of h report)).

(** C35: A clone is deep and independent, in whatever order its maps are ranged over: it reads as the
    report does, meters being added to zero; all its maps are new; what is written later
    anywhere but into its own maps does not change it, and what is written into them, or
    into any newer map, does not change the report. *)
Theorem Report_Clone_independent h report order h' report' :
  cloneable h report order → Report_Clone order report h = (h', report') →
  report_at h' report' = report_copied (report_at h report) ∧
  report_in (within (length h) (length h')) h' report' ∧
  (∀ g, (∀ l, (length h ≤ l < length h')%nat → g !! l = h' !! l) → report_at g report' = report_copied (report_at h report)) ∧
  (∀ g, (∀ l, (l < length h)%nat → g !! l = h' !! l) → report_at g report = report_at h report).
Proof.
  intros (Hin & Hok & Horder) Hclone.
  enough (report_at h' report' = report_copied (report_at h report) ∧
    report_in (within (length h) (length h')) h' report' ∧ ∃ k, h' = h ++ k) as (Hv & Hnew & k & Hk).
  { split; [done|]. split; [done|]. split; intros g Hg.
    - rewrite <-Hv. by apply (report_at_same (within (length h) (length h'))).
    - apply (report_at_same (λ l, l < length h)%nat); [|done]. intros l Hl. rewrite Hg, Hk by done. by apply lookup_app_l. }
  destruct report as [l|]; [|injection Hclone as <- <-; split; [done|]; split; [done|]; exists []; by rewrite app_nil_r].
  destruct Hok as [[=] | [m Hm]]. rewrite Hm in Horder. destruct Hin as [_ Hsteps]. specialize (Hsteps m Hm).
  assert (∀ name s, (name, s) ∈ order ↔ m !! name = Some s) as Hmem.
  { intros name s. rewrite Horder. apply elem_of_map_to_list. }
  destruct (clone_steps_spec order h ∅) as (k & m' & Hc & Hno & Hyes).
  { rewrite Horder. apply NoDup_fst_map_to_list. }
  { intros name s Hs. by eapply Hsteps, Hmem. }
  unfold Report_Clone in Hclone. rewrite Hc in Hclone. injection Hclone as <- <-.
  assert (map_at steps_of ((h ++ k) ++ [Steps m']) (Some (length (h ++ k))) = Some m') as Hnew.
  { unfold map_at. simpl. by rewrite lookup_app_r, Nat.sub_diag. }
  split_and!.
  - unfold report_at. rewrite Hnew, Hm. simpl. f_equal. apply map_eq. intros name. rewrite !lookup_fmap.
    destruct (m !! name) as [s|] eqn:Hname.
    + destruct (Hyes name s) as (s' & -> & Hs' & Hv); [by apply Hmem|]. simpl. f_equal. rewrite <-Hv.
      apply (step_at_same (within (length h) (length h + length k))); [|done]. intros j Hj. apply lookup_app_l. rewrite length_app. lia.
    + rewrite Hno; [by rewrite lookup_empty|]. intros ([name' s] & -> & Hs)%list_elem_of_fmap. apply Hmem in Hs. simpl in *. congruence.
  - split; [intros j [= <-]; rewrite !length_app; simpl; lia|]. intros m0 Hm0. rewrite Hnew in Hm0. injection Hm0 as <-.
    intros name s' Hs'. destruct (m !! name) as [s|] eqn:Hname.
    + destruct (Hyes name s) as (s1 & Hm1 & Hs1 & _); [by apply Hmem|]. rewrite Hs' in Hm1. injection Hm1 as <-.
      eapply step_in_weaken; [|exact Hs1]. simpl. rewrite !length_app. simpl. lia.
    + rewrite Hno in Hs'; [by rewrite lookup_empty in Hs'|]. intros ([name' s] & -> & Hs)%list_elem_of_fmap. apply Hmem in Hs. simpl in *. congruence.
  - exists (k ++ [Steps m']). by rewrite app_assoc.
Qed.

(** ** A concrete report *)

Definition judged : step_struct := StepStruct 3 0 3 2 2 2 1 0 0 (Some 0%nat) None (Some 1%nat).
Definition judged_heap : heap := [Counts {["transient" := 1]}; MeterMap ∅; Steps {["judge" := judged]}].
Definition judged_report : ref := Some 2%nat.
Definition cloned_heap : heap := (Report_Clone [("judge", judged)] judged_report judged_heap).1.
Definition cloned_report : ref := (Report_Clone [("judge", judged)] judged_report judged_heap).2.

Lemma judged_cloneable : cloneable judged_heap judged_report [("judge", judged)].
Proof.
  split; [|split; [right; by eexists|]].
  - split; [intros l [= <-]; simpl; lia|]. intros m [= <-] name s Hs.
    apply lookup_singleton_Some in Hs as [_ <-]. split_and!; intros l [= <-]; simpl; lia.
  - change (map_at steps_of judged_heap judged_report) with (Some ({["judge" := judged]} : gmap string step_struct)).
    simpl. by rewrite map_to_list_singleton.
Qed.

(** One more retry is counted in the map of the report. *)
Definition retried_heap : heap := <[0%nat := Counts {["transient" := 2]}]> cloned_heap.

Lemma Report_Clone_independent_witness :
  report_at retried_heap judged_report ≠ report_at judged_heap judged_report ∧
  report_at retried_heap cloned_report = report_copied (report_at judged_heap judged_report) ∧
  report_at cloned_heap judged_report = report_at judged_heap judged_report.
Proof.
  destruct (Report_Clone_independent judged_heap judged_report [("judge", judged)] cloned_heap cloned_report judged_cloneable
    (surjective_pairing _)) as (_ & _ & Hcopy & Horig).
  split; [intros Heq; apply (f_equal (λ r, Report_Step r "judge")) in Heq; apply (f_equal RetriesByClass) in Heq; vm_compute in Heq; discriminate Heq|].
  split; [|by apply Horig]. apply Hcopy. intros l Hl. unfold retried_heap. apply list_lookup_insert_ne. simpl in Hl. lia.
Defined.
