(* ===== verification/Step.v ===== *)
(** * Steps, run options and observation: flow/step.go, flow/store.go,
    flow/observe.go and the option and stage types of flow/run.go

    A run works in a [world]: the admission environments, the state of every
    stage runner created so far, the observation states, the clock, the number of
    random draws made, and the caller's own state [E], which the caller's
    functions (Do, hooks, store, ledger, reporter) may use as they like.  Values
    that travel between stages are of type [any]; [dyn] is the type of the values
    an interface can hold. *)

From S2P Require Import Prelude GoError GoStrings Float64 Classify Policy Digest Json.
From S2P Require Import Go Limits Budget Chain ResourcePlan RunEnv Cache Report.

Section types.
Context {dyn : Type}.

(** The type of an [any]: [None] is the nil interface. *)
Notation any := (option dyn).

(** How values of type [V] sit in an [any]: the type assertion [x.(V)] succeeds on
    what was stored, except that a nil interface satisfies no assertion. *)
Class Boxed (V : Type) := {
  box : V → any;
  unbox : any → option V;
  zero_value : V;
  type_name : string;
  unbox_nil : unbox None = None;
  unbox_box v d : box v = Some d → unbox (Some d) = Some v;
}.

(** An item between stages. *)
Record erasedItem := ErasedItem {
  ei_index : nat;
  ei_value : any;
  ei_outcome : CacheOutcome;
  ei_quarantined : option ItemError;
  ei_skipped : bool;
}.

Definition flagged (item : erasedItem) : bool :=
  match ei_quarantined item with Some _ => true | None => ei_skipped item end.

(** A call shared by duplicates; nil [done] fields are written before it closes. *)
Record inflightCall := InflightCall {
  ic_value : any;
  ic_state : CacheState;
  ic_quarantined : option ItemError;
  ic_skipped : bool;
  ic_err : option error;
}.

(** The mutable part of a [typedRunner]: under [mutex], except the fields of a
    call, which are published by closing its [done] channel ([None] until then). *)
Record rstate := RState {
  counts : StepReport;
  meters : Meters;
  inflight : gmap string nat;
  calls : list (option inflightCall);
}.
Definition new_rstate : rstate := RState zero_report ∅ ∅ [].

Record observationState := ObservationState { sequence : Z; startedAt : Z }.

Record world (U E : Type) := World {
  wd_env : envw U;
  wd_runners : list rstate;
  wd_observations : list observationState;
  wd_now : Z;
  wd_draws : nat;
  wd_user : E;
}.
End types.
Arguments erasedItem : clear implicits.
Arguments inflightCall : clear implicits.
Arguments rstate : clear implicits.
Arguments world : clear implicits.
Arguments Boxed : clear implicits.
Arguments World {_ _ _} _ _ _ _ _ _.
Arguments wd_env {_ _ _} _.
Arguments wd_runners {_ _ _} _.
Arguments wd_observations {_ _ _} _.
Arguments wd_now {_ _ _} _.
Arguments wd_draws {_ _ _} _.
Arguments wd_user {_ _ _} _.

Section setters.
Context {dyn U E : Type}.
Implicit Types w : world dyn U E.

Definition set_env (x : envw U) w : world dyn U E :=
  World x (wd_runners w) (wd_observations w) (wd_now w) (wd_draws w) (wd_user w).
Definition set_runners (rs : list (rstate dyn)) w : world dyn U E :=
  World (wd_env w) rs (wd_observations w) (wd_now w) (wd_draws w) (wd_user w).
Definition set_observations (os : list observationState) w : world dyn U E :=
  World (wd_env w) (wd_runners w) os (wd_now w) (wd_draws w) (wd_user w).
Definition set_clock (now : Z) (draws : nat) w : world dyn U E :=
  World (wd_env w) (wd_runners w) (wd_observations w) now draws (wd_user w).
Definition set_user_state (u : E) w : world dyn U E :=
  World (wd_env w) (wd_runners w) (wd_observations w) (wd_now w) (wd_draws w) u.

#[export] Program Instance world_has_env : Has (envw U) (world dyn U E) :=
  {| inside := wd_env; replace := set_env |}.
Solve All Obligations with by intros; repeat match goal with w : world _ _ _ |- _ => destruct w end.

#[export] Program Instance world_has_limits : Has (limits U) (world dyn U E) :=
  {| inside w := ew_limits (wd_env w); replace l w := set_env (set_limits l (wd_env w)) w |}.
Next Obligation. done. Qed.
Next Obligation. intros w. by destruct w as [[] ? ? ? ? ?]. Qed.
Next Obligation. intros l l' w. by destruct w as [[] ? ? ? ? ?]. Qed.

#[export] Program Instance world_has_user : Has E (world dyn U E) | 20 :=
  {| inside := wd_user; replace := set_user_state |}.
Solve All Obligations with by intros; repeat match goal with w : world _ _ _ |- _ => destruct w end.

(** [ctx.Err()] *)
Definition world_ctx_err (c : ctx) w : option error := ctx_err c (lw_ctxs (ew_limits (wd_env w))).
End setters.

(** ** The collaborators of a run *)

Section options.
Context {dyn U E : Type}.
Notation W := (world dyn U E).
Notation any := (option dyn).

(** [Store]: [Load] yields [None] when no entry exists.  The target's type is the
    type of the value, with its codec. *)
Record Store := MkStore {
  Load (V : Type) `{Codec V} : ctx → Key → prog W (res (option V));
  Put (V : Type) `{Codec V} : ctx → Key → V → prog W (res unit);
}.

Record Options := MkOptions {
  opt_Store : option Store;
  Ledger : option (ctx → Event → prog W (res unit));
  Reporter : option (ctx → Snapshot → prog W (res unit));
  ReportInterval : Z;
  Clock : option (prog W Z);
  opt_Preflight : option Preflight;
  Rates : gmap string (option (Limiter U));
  opt_env : option nat;
  observation : option nat;
}.

Definition set_opt_env (e : nat) (o : Options) : Options :=
  MkOptions (opt_Store o) (Ledger o) (Reporter o) (ReportInterval o) (Clock o) (opt_Preflight o)
    (Rates o) (Some e) (observation o).
Definition set_observation (s : nat) (o : Options) : Options :=
  MkOptions (opt_Store o) (Ledger o) (Reporter o) (ReportInterval o) (Clock o) (opt_Preflight o)
    (Rates o) (opt_env o) (Some s).
Definition without_reporter (o : Options) : Options :=
  MkOptions (opt_Store o) (Ledger o) None (ReportInterval o) (Clock o) (opt_Preflight o)
    (Rates o) (opt_env o) (observation o).

(** ** observe.go *)

Definition now (o : Options) : prog W Z :=
  match Clock o with Some clock => clock | None => read wd_now end.

Definition withObservation (o : Options) : prog W Options :=
  match observation o with
  | Some _ => mret o
  | None =>
      t ← now o;
      s ← atomic (λ w, (set_observations (wd_observations w ++ [ObservationState 0 t]) w,
                        length (wd_observations w)));
      mret (set_observation s o)
  end.

(** [snapshot]: without an observation a fresh one is used and forgotten.  The
    clock is read while the state's mutex is held. *)
Definition take_sequence (s : nat) : prog W (Z * Z) :=
  await (λ w, match wd_observations w !! s with
              | Some x =>
                  let n := (sequence x + 1) mod 2 ^ 64 in
                  [(set_observations (<[s := ObservationState n (startedAt x)]> (wd_observations w)) w,
                    (n, startedAt x))]
              | None => []
              end).

Definition take_snapshot (o : Options) (report : Report) (total : Z) (terminal : bool) : prog W Snapshot :=
  first ← match observation o with
          | Some s => take_sequence s
          | None => t ← now o; mret (1, t)
          end;
  t ← now o;
  mret (MkSnapshot first.1 first.2 t total terminal report).

Definition publish (o : Options) (c : ctx) (report : Report) (total : Z) (terminal : bool)
    : prog W (res unit) :=
  match Reporter o with
  | None => mret (Ok tt)
  | Some reporter =>
      snapshot ← take_snapshot o report total terminal;
      r ← reporter c snapshot;
      mret (match r with Ok _ => Ok tt | Err e => Err (Errorf "progress reporter: %w" [ArgWrap e]) end)
  end.

(** The terminal context is detached from the caller's; its timeout only matters
    to a reporter that waits, which is the caller's code. *)
Definition publishTerminal (o : Options) (c : ctx) (report : Report) (total : Z) : prog W (res unit) :=
  match Reporter o with
  | None => mret (Ok tt)
  | Some _ => publish o (WithoutCancel c) report total true
  end.

Definition set_At (t : Z) (ev : Event) : Event :=
  MkEvent (Some t) (ev_Step ev) (ev_Index ev) (ev_Type ev) (ev_Class ev) (ev_Attempt ev)
    (ev_Total ev) (ev_Error ev).
Definition set_Step (s : string) (ev : Event) : Event :=
  MkEvent (At ev) s (ev_Index ev) (ev_Type ev) (ev_Class ev) (ev_Attempt ev) (ev_Total ev) (ev_Error ev).

Definition emitLedger (c : ctx) (o : Options) (ev : Event) : prog W (res unit) :=
  match Ledger o with
  | None => mret (Ok tt)
  | Some ledger =>
      ev ← match At ev with
           | None => t ← now o; mret (set_At t ev)
           | Some _ => mret ev
           end;
      r ← ledger c ev;
      mret (match r with Ok _ => Ok tt | Err e => Err (Errorf "ledger event: %w" [ArgWrap e]) end)
  end.
End options.
Arguments Store : clear implicits.
Arguments Options : clear implicits.

(** ** step.go *)

Section step.
Context {dyn U E I O : Type}.
Notation W := (world dyn U E).

Record Identity := MkIdentity {
  Kind : string;
  id_Version : string;
  id_Key : option (I → res string);
}.

(** The configurable part of a [Step]; nil functions are [None]. *)
Record Step := MkStep {
  st_Name : string;
  st_Identity : Identity;
  st_Policy : Policy;
  Barrier : bool;
  Do : option (ctx → I → prog W (O * option error));
  Meter : option (O → Meters);
  AttemptMeter : option (O → option error → Meters);
  OnResult : option (ctx → nat → O → CacheOutcome → prog W (res unit));
}.

Definition Step_Key (s : Step) (item : I) : res Key :=
  if decide (Kind (st_Identity s) = "") then
    Err (Errorf "step %q has no cache identity" [ArgStr (st_Name s)]) else
  if decide (TrimSpace (id_Version (st_Identity s)) = "") then
    Err (Errorf "step %q identity version is required" [ArgStr (st_Name s)]) else
  match id_Key (st_Identity s) with
  | None => Err (Errorf "step %q identity key function is required" [ArgStr (st_Name s)])
  | Some key =>
      match key item with
      | Err e => Err (Errorf "step %q: build identity key: %w" [ArgStr (st_Name s); ArgWrap e])
      | Ok keyBytes =>
          Ok (MkKey (Kind (st_Identity s)) (id_Version (st_Identity s)) (Bytes keyBytes))
      end
  end.

(** The key of an item depends on the step's identity and on the item's key
    bytes only, never on how the step is executed; a key that is built is valid;
    and two items of one step share a key only if their key bytes are equal or
    collide under SHA-256. *)
Theorem Step_Key_identity (s : Step) (item item' : I) key :
  Step_Key s item = Ok key →
  validate key = Ok tt ∧
  (∀ s', st_Identity s' = st_Identity s → Step_Key s' item = Ok key) ∧
  (Step_Key s item' = Ok key →
     ∃ f b b', id_Key (st_Identity s) = Some f ∧ f item = Ok b ∧ f item' = Ok b' ∧ Bytes b = Bytes b').
Proof.
  unfold Step_Key. case_decide as Hk; [done|]. case_decide as Hv; [done|].
  destruct (id_Key (st_Identity s)) as [f|] eqn:Hf; [|done].
  destruct (f item) as [b|e] eqn:Hb; [|done]. intros [= <-]. split_and!.
  - unfold validate. rewrite decide_False; cycle 1.
    { cbn [Cache.Step Version]. intros [?|Hver]; [done|]. apply Hv. by rewrite Hver. }
    rewrite decide_False by (cbn [InputDigest]; rewrite Bytes_length; tauto).
    cbn [InputDigest]. by rewrite DecodeString_Bytes.
  - intros s' Hs'. rewrite Hs', decide_False, decide_False, Hf, Hb by done. done.
  - destruct (f item') as [b'|e'] eqn:Hb'; [|done]. intros Heq. apply Ok_inj in Heq.
    exists f, b, b'. split_and!; try done. by apply (f_equal InputDigest) in Heq.
Qed.
End step.
Arguments Identity : clear implicits.
Arguments Step : clear implicits.

(** The key of a concrete step. *)
Definition judge_step : Step unit unit unit string unit :=
  MkStep "judge" (MkIdentity "judge" "v3" (Some (λ item, Ok item))) (MkPolicy 4 [] (MkRetrySpec 1 (MkBackoff 0 0) None) FailFast)
    false None None None None.

Lemma Step_Key_identity_witness :
  Step_Key judge_step "question" = Ok (MkKey "judge" "v3" (Bytes "question")) ∧
  validate (MkKey "judge" "v3" (Bytes "question")) = Ok tt.
Proof.
  split; [reflexivity|].
  exact (proj1 (Step_Key_identity judge_step "question" "question" _ eq_refl)).
Defined.
