(* ===== verification/Observe.v ===== *)
(** * Periodic reports: startPeriodicReporter of flow/observe.go

    A goroutine publishes a snapshot at every tick until it is stopped, its context
    ends or the reporter fails; the function that stops it waits for it and hands its
    error on.  [rp_step] performs one move of the goroutine, of the caller of that
    function, or of anybody else.  What a run needs to know of it is [surroundings]:
    what the goroutine may do to the world while the run works, given the error the
    run gets in the end. *)

From Stdlib Require Import Wellfounded.
From S2P Require Import Prelude GoError GoStrings Float64 Classify Policy Digest Json.
From S2P Require Import Go Limits Budget Chain ErrGroup ResourcePlan RunEnv Cache Report Step.

(** ** The actions of a program *)

(** One of the actions of [p], whenever it is performed, takes [u] to [u']. *)
Fixpoint acts_of {W A} (p : prog W A) (u u' : W) : Prop :=
  match p with
  | Ret _ => False
  | Act act k => (∃ x, (u', x) ∈ act u) ∨ ∃ w w' x, (w', x) ∈ act w ∧ acts_of (k x) u u'
  end.

Lemma acts_of_guarantees {W A} (G : W → W → Prop) (Q : A → Prop) (p : prog W A) u u' :
  guarantees G Q p → acts_of p u u' → G u u'.
Proof.
  induction p as [a|X act k IH]; intros Hg; [done|].
  intros [[x Hin] | (w & w' & x & Hin & Hk)]; [by apply (Hg u u' x Hin)|].
  eapply IH; [|exact Hk]. by apply (Hg w w' x Hin).
Qed.

(** What is left of [p] after some of its actions. *)
Inductive rest_of {W A} (p : prog W A) : prog W A → Prop :=
| rest_all : rest_of p p
| rest_act X act (k : X → prog W A) w w' x : rest_of p (Act act k) → (w', x) ∈ act w → rest_of p (k x).

Lemma rest_of_acts {W A} (p q : prog W A) u u' : rest_of p q → acts_of q u u' → acts_of p u u'.
Proof.
  induction 1 as [|X act k w w' x _ IH Hin]; [done|]. intros Hk. apply IH. right. by exists w, w', x.
Qed.

Section reporter.
Context {dyn U E : Type} {EG : ErrGroup}.
Notation W := (world dyn U E).
Implicit Types (w u : W) (o : Options dyn U E) (c : ctx).

(** [if o.Reporter == nil || o.ReportInterval <= 0] does not hold. *)
Definition periodic o : bool := match Reporter o with Some _ => 0 <? ReportInterval o | None => false end.

(** The context of the run: the caller's, or one of its own. *)
Inductive startPeriodicReporter o c w : ctx → W → Prop :=
| not_periodic : periodic o = false → startPeriodicReporter o c w c w
| reporter_started runContext t :
    periodic o = true → WithCancel c (ctxs_of w) = (t, runContext) →
    startPeriodicReporter o c w runContext (map_ctxs (λ _, t) w).

Definition cancel_run runContext w : W := map_ctxs (cancel runContext (Sentinel Canceled)) w.

(** [o.publish(runContext, current(), total, false)] *)
Definition publication o runContext total (current : prog W Report) : prog W (res unit) :=
  r ← current; publish o runContext r total false.

(** A [reportSource]: where a custom engine leaves the function that reports. *)
Definition reportSource := option (prog W Report).
Definition source_set (current : prog W Report) (source : reportSource) : reportSource := Some current.
Definition source_report (source : reportSource) : prog W Report := match source with Some current => current | None => mret None end.

(** ** The goroutine and its caller *)

Inductive goroutine :=
| Waiting                               (* in the select *)
| Publishing (p : prog W (res unit))
| Reporting (e : option error)          (* about to send on [done] *)
| Canceling                             (* its error is sent, the context not canceled yet *)
| Over.

Inductive stopper :=
| NotCalled
| Joining                               (* [stop] is closed; receives from [done] *)
| Joined (e : option error)             (* about to cancel the context *)
| Stopped (e : option error).           (* has returned *)

Record rp := Rp {
  rp_world : W;
  rp_stop : bool;                       (* [stop] is closed *)
  rp_done : option (option error);      (* the buffer of [done] *)
  rp_goroutine : goroutine;
  rp_stopper : stopper;
}.

(** [pubs]: the publications [current] may lead to. *)
Context (Env : W → W → Prop) (runContext : ctx) (pubs : prog W (res unit) → Prop).

(** A move of the goroutine. *)
Inductive goroutine_step : rp → rp → Prop :=
| sees_stop w d s : goroutine_step (Rp w true d Waiting s) (Rp w true d (Reporting None) s)
| sees_done w b d s e :
    world_ctx_err runContext w = Some e → goroutine_step (Rp w b d Waiting s) (Rp w b d (Reporting None) s)
| acts w w' b d s X act (k : X → prog W (res unit)) x :
    (w', x) ∈ act w → goroutine_step (Rp w b d (Publishing (Act act k)) s) (Rp w' b d (Publishing (k x)) s)
| published w b d s : goroutine_step (Rp w b d (Publishing (Ret (Ok tt))) s) (Rp w b d Waiting s)
| publication_failed w b d s e :
    goroutine_step (Rp w b d (Publishing (Ret (Err e))) s) (Rp w b d (Reporting (Some e)) s)
| sends w b s e :
    goroutine_step (Rp w b None (Reporting e) s)
      (Rp w b (Some e) (match e with Some _ => Canceling | None => Over end) s)
| cancels w b d s : goroutine_step (Rp w b d Canceling s) (Rp (cancel_run runContext w) b d Over s).

(** A move of the function that stops the reporter. *)
Inductive stopper_step : rp → rp → Prop :=
| closes w b d g : stopper_step (Rp w b d g NotCalled) (Rp w true d g Joining)
| receives w b e g : stopper_step (Rp w b (Some e) g Joining) (Rp w b None g (Joined e))
| releases w b d g e : stopper_step (Rp w b d g (Joined e)) (Rp (cancel_run runContext w) b d g (Stopped e)).

Inductive rp_step : rp → rp → Prop :=
| ticks w b d s p : pubs p → rp_step (Rp w b d Waiting s) (Rp w b d (Publishing p) s)
| goroutine_moves x y : goroutine_step x y → rp_step x y
| stopper_moves x y : stopper_step x y → rp_step x y
| others_move w w' b d g s : Env w w' → rp_step (Rp w b d g s) (Rp w' b d g s).

Definition rp_start w : rp := Rp w false None Waiting NotCalled.

(** ** What the run sees *)

(** While the run works: the others, the actions of a publication and, when the
    reporter fails, the end of the context. *)
Definition surroundings (e : option error) u u' : Prop :=
  Env u u' ∨ (∃ p, pubs p ∧ acts_of p u u') ∨ (is_Some e ∧ u' = cancel_run runContext u).

(** After that: the others only, and the context ends. *)
Definition aftermath u u' : Prop := Env u u' ∨ u' = cancel_run runContext u.

(** The error of a publication that failed. *)
Definition failure (e : error) : Prop := ∃ p, pubs p ∧ rest_of p (Ret (Err e)).

(** The verdict the goroutine has sent. *)
Definition sent (x : rp) : option (option error) :=
  match rp_stopper x with Joined e | Stopped e => Some e | _ => rp_done x end.

(** Where the goroutine is, given what it has sent. *)
Definition goroutine_ok (g : goroutine) (verdict : option (option error)) : Prop :=
  match g with
  | Waiting => verdict = None
  | Publishing q => verdict = None ∧ ∃ p, pubs p ∧ rest_of p q
  | Reporting None => verdict = None
  | Reporting (Some e) => verdict = None ∧ failure e
  | Canceling => ∃ e, verdict = Some (Some e) ∧ failure e
  | Over => verdict = Some None ∨ ∃ e, verdict = Some (Some e) ∧ failure e
  end.

Definition history w (x : rp) : Prop :=
  match rp_stopper x with
  | Stopped e => ∃ w1, rtc (surroundings e) w w1 ∧ rtc aftermath w1 (rp_world x)
  | _ => rtc (surroundings (default None (sent x))) w (rp_world x)
  end.

Record rp_ok w (x : rp) : Prop := {
  ok_goroutine : goroutine_ok (rp_goroutine x) (sent x);
  ok_stopper : rp_stop x = true ↔ rp_stopper x ≠ NotCalled;
  ok_received : (∃ e, rp_stopper x = Joined e ∨ rp_stopper x = Stopped e) → rp_done x = None;
  ok_history : history w x;
}.

(** ** Its invariant *)

Lemma surroundings_later e u u' : surroundings None u u' → surroundings e u u'.
Proof. intros [?|[?|[[? [=]] _]]]; [by left|by right; left]. Qed.

Lemma rtc_surroundings_later e w w' : rtc (surroundings None) w w' → rtc (surroundings e) w w'.
Proof. apply rtc_subrel. intros u u'. apply surroundings_later. Qed.

Notation ok := (rp_ok).

(** The world moves, nothing else. *)
Lemma history_more w x w' b d g :
  history w x → d = rp_done x →
  (∀ e, surroundings e (rp_world x) w' ∨ w' = rp_world x) ∨
    ((∃ e, sent x = Some (Some e)) ∧ w' = cancel_run runContext (rp_world x)) →
  (∀ e, rp_stopper x = Stopped e → aftermath (rp_world x) w' ∨ w' = rp_world x) →
  history w (Rp w' b d g (rp_stopper x)).
Proof.
  intros Hh -> Hmove Hafter. unfold history in *. simpl.
  change (sent (Rp w' b (rp_done x) g (rp_stopper x))) with (sent x).
  assert (∀ e, sent x = Some e ∨ sent x = None ∧ e = None →
    rtc (surroundings e) w (rp_world x) → rtc (surroundings e) w w') as Hmore.
  { intros e He Hw. destruct Hmove as [Hm | [[e' Hsent] ->]].
    - destruct (Hm e) as [Hm' | ->]; [by eapply rtc_r|done].
    - destruct He as [He | [He _]]; [|congruence]. eapply rtc_r; [exact Hw|]. right. right. split; [|done]. rewrite He in Hsent. by injection Hsent as ->. }
  destruct (rp_stopper x) as [| | e|e] eqn:Hs.
  - apply Hmore; [|done]. destruct (sent x); [by left|by right].
  - apply Hmore; [|done]. destruct (sent x); [by left|by right].
  - apply Hmore; [|done]. destruct (sent x); [by left|by right].
  - destruct Hh as (w1 & H1 & H2). exists w1. split; [done|].
    destruct (Hafter e eq_refl) as [Ha | ->]; [by eapply rtc_r|done].
Qed.

Lemma goroutine_step_ok w x y : rp_ok w x → goroutine_step x y → rp_ok w y.
Proof.
  intros [Hg Hs Hr Hh] Hstep.
  destruct Hstep as [w1 d s|w1 b d s e He|w1 w2 b d s X act k r Hin|w1 b d s|w1 b d s e|w1 b s e|w1 b d s]; split; try done; simpl in *.
  - by destruct Hg as (Hg & p & Hp & Hq); split; [|exists p; split; [|eapply rest_act]].
  - destruct Hg as (Hg & p & Hp & Hq). apply (history_more w _ w2 b d (Publishing (k r)) Hh); [done| |].
    + left. intros e. left. right. left. exists p. split; [done|]. eapply rest_of_acts; [exact Hq|]. left. by exists r.
    + simpl. intros e ->. done.
  - by destruct Hg.
  - unfold sent in Hg |- *. simpl in *. destruct s; simpl in *.
    + destruct e as [e|]; [|by left]. exists e. by split; [|apply Hg].
    + destruct e as [e|]; [|by left]. exists e. by split; [|apply Hg].
    + destruct e; [by destruct Hg|done].
    + destruct e; [by destruct Hg|done].
  - intros (e' & Hs'). assert (sent (Rp w1 b None (Reporting e) s) = Some e') as Hsent by (unfold sent; simpl; by destruct Hs' as [-> | ->]).
    destruct e; simpl in Hg; [destruct Hg as [Hg _]|]; by rewrite Hsent in Hg.
  - unfold history in *. simpl in *. destruct s; [| |done..]; by eapply rtc_surroundings_later.
  - by right.
  - destruct Hg as (e & Hsent & He). apply (history_more w _ _ b d Over Hh); [done| |].
    + right. split; [by exists e|done].
    + intros e' _. left. by right.
Qed.

Lemma stopper_step_ok w x y : rp_ok w x → stopper_step x y → rp_ok w y.
Proof.
  intros [Hg Hs Hr Hh] Hstep. destruct Hstep as [w1 b d g|w1 b e g|w1 b d g e]; split; simpl in *; try done.
  - intros (e & [H|H]); done.
  - split; [done|]. intros _. by apply Hs.
  - split; [done|]. intros _. by apply Hs.
  - intros _. apply Hr. eauto.
  - exists w1. split; [done|]. apply rtc_once. by right.
Qed.

Lemma rp_step_ok w x y : rp_ok w x → rp_step x y → rp_ok w y.
Proof.
  intros Hx Hstep. destruct Hstep as [w1 b d s p Hp|x y Hstep|x y Hstep|w1 w2 b d g s Henv];
    [|by eapply goroutine_step_ok|by eapply stopper_step_ok|]; destruct Hx as [Hg Hs Hr Hh]; split; try done; simpl in *.
  - split; [done|]. exists p. split; [done|constructor].
  - apply (history_more w _ w2 b d g Hh); [done| |]; simpl.
    + left. intros e. left. by left.
    + intros e _. left. by left.
Qed.

Lemma rp_reachable_ok w x : rtc rp_step (rp_start w) x → rp_ok w x.
Proof.
  intros Hx. assert (rp_ok w (rp_start w)) as Hstart.
  { split; simpl; [done| |by intros (e & [H|H])|apply rtc_refl]. split; [done|]. intros H. by destruct H. }
  revert Hstart. generalize (rp_start w) Hx. induction 1; intros Hok; [done|]. eauto using rp_step_ok.
Qed.

Lemma rp_stays_stopped e x y :
  rtc rp_step x y → rp_stopper x = Stopped e → rp_stopper y = Stopped e.
Proof.
  induction 1 as [x|x y z Hstep _ IH]; [done|]. intros Hx. apply IH.
  destruct Hstep as [| ? ? Hstep | ? ? Hstep |]; [done| | |done]; by destruct Hstep.
Qed.

(** C25: A run that stops its reporter knows what it did: until the function that stops it has
    received its verdict, the goroutine only published, and canceled the run only if the
    verdict is an error; an error is that of a publication that failed; and once the
    function has returned, nothing is published any more. *)
Theorem reporter_joined w x e :
  rtc rp_step (rp_start w) x → rp_stopper x = Stopped e →
  (∃ w1, rtc (surroundings e) w w1 ∧ rtc aftermath w1 (rp_world x)) ∧
  (∀ cause, e = Some cause → failure cause) ∧
  ∀ y, rtc rp_step x y → rp_stopper y = Stopped e ∧ (rp_goroutine y = Over ∨ is_Some e ∧ rp_goroutine y = Canceling).
Proof.
  intros Hx Hs. assert (∀ y, rtc rp_step x y → goroutine_ok (rp_goroutine y) (Some e)) as Hg.
  { intros y Hy. pose proof (ok_goroutine _ _ (rp_reachable_ok w y ltac:(by etrans))) as Hg.
    unfold sent in Hg. by rewrite (rp_stays_stopped e x y Hy Hs) in Hg. }
  split_and!.
  - pose proof (ok_history _ _ (rp_reachable_ok w x Hx)) as Hh. unfold history in Hh. by rewrite Hs in Hh.
  - intros cause ->. specialize (Hg x (rtc_refl _ _)). destruct (rp_goroutine x) as [|q|[]| |]; simpl in Hg; try done; try naive_solver.
  - intros y Hy. split; [by eapply rp_stays_stopped|]. specialize (Hg y Hy).
    destruct (rp_goroutine y) as [|q|[]| |]; simpl in Hg; try done; try naive_solver.
Qed.

(** Running alone, a publication is performed as a program is. *)
Lemma performs p w b d s w' r :
  (w', r) ∈ outcomes p w → rtc rp_step (Rp w b d (Publishing p) s) (Rp w' b d (Publishing (Ret r)) s).
Proof.
  revert w. induction p as [a|X act k IH]; intros w Hin.
  - assert ((w', r) ∈ [(w, a)]) as [= -> ->]%list_elem_of_singleton by exact Hin. apply rtc_refl.
  - apply elem_outcomes_act in Hin as (w1 & x & Hact & Hin). eapply rtc_l; [|by apply (IH x)].
    by apply goroutine_moves, acts.
Qed.

(** ** It ends *)

(** The moves of the goroutine and of its caller, no tick being taken. *)
Definition own_step (x y : rp) : Prop := goroutine_step x y ∨ stopper_step x y.

Definition stopper_rank (s : stopper) : nat :=
  match s with NotCalled => 3 | Joining => 2 | Joined _ => 1 | Stopped _ => 0 end.

(** The goroutine comes closer to its end. *)
Definition closer (g' g : goroutine) : Prop :=
  match g, g' with
  | Publishing p, Publishing p' => residual p' p
  | Publishing _, (Waiting | Reporting _) | Waiting, Reporting _ | Reporting _, (Canceling | Over) | Canceling, Over => True
  | _, _ => False
  end.

Lemma closer_wf : well_founded closer.
Proof.
  assert (Acc closer Over) as H0 by (by constructor; intros []).
  assert (Acc closer Canceling) as H1 by (constructor; by intros []).
  assert (∀ e, Acc closer (Reporting e)) as H2 by (intros e; constructor; by intros []).
  assert (Acc closer Waiting) as H3 by (constructor; intros []; simpl; done || by intros).
  intros [| p | | |]; [done| |done..]. induction (residual_wf p) as [p _ IH]. constructor.
  intros [| p' | | |]; simpl; [done|by apply IH|done..].
Qed.

Lemma own_step_Acc x : Acc (flip own_step) x.
Proof.
  remember (stopper_rank (rp_stopper x)) as n eqn:Hn. revert x Hn.
  induction (lt_wf n) as [n _ IHn]. intros x. remember (rp_goroutine x) as g eqn:Hg. revert x Hg.
  induction (closer_wf g) as [g _ IHg]. intros x -> Hn. constructor. intros y [Hstep | Hstep].
  - apply (IHg (rp_goroutine y)); [|done|]; destruct Hstep; simpl in *; try done; [by eexists|by destruct e].
  - apply (IHn (stopper_rank (rp_stopper y))); [|done]. rewrite Hn. destruct Hstep; simpl; lia.
Qed.

(** A publication has to wait for something. *)
Definition blocked (x : rp) : Prop :=
  match rp_goroutine x with Publishing (Act act _) => act (rp_world x) = [] | _ => False end.

(** C26: The function that stops the reporter returns: the goroutine and that function cannot
    go on forever without a tick, and wherever they come to rest, unless a publication is
    blocked there, the goroutine is over and the function has returned.  No other move of
    the run is needed for it. *)
Theorem stop_returns w x :
  rtc rp_step (rp_start w) x →
  Acc (flip own_step) x ∧
  ∀ y, rtc own_step x y → (∀ z, ¬ own_step y z) → blocked y ∨ ∃ e, rp_stopper y = Stopped e ∧ rp_goroutine y = Over.
Proof.
  intros Hx. split; [apply own_step_Acc|]. intros y Hy Hend.
  assert (rp_ok w y) as [Hg Hs Hr _].
  { apply rp_reachable_ok. etrans; [exact Hx|]. eapply rtc_subrel; [|exact Hy].
    intros a b [H|H]; [by apply goroutine_moves|by apply stopper_moves]. }
  destruct y as [u b d g s]. simpl in *.
  assert (s ≠ NotCalled) as Hcalled by (intros ->; eapply Hend; right; constructor).
  assert (b = true) as -> by (by apply Hs).
  assert (g = Over ∨ blocked (Rp u true d g s)) as [-> | Hb]; [|right|by left].
  { destruct g as [|q|e| |]; [..|by left].
    - exfalso. eapply Hend. left. constructor.
    - right. destruct q as [[[]|e]|X act k]; [exfalso; eapply Hend; left; constructor..|].
      unfold blocked. simpl. destruct (act u) as [|[u' r] l] eqn:Hact; [done|exfalso].
      eapply Hend. left. apply (acts _ u'). rewrite Hact. by left.
    - exfalso. destruct d as [v|]; [|eapply Hend; left; constructor].
      assert (sent (Rp u true (Some v) (Reporting e) s) = None) as Hsent by (by destruct e; simpl in Hg; [destruct Hg|]).
      unfold sent in Hsent. simpl in Hsent. by destruct s.
    - exfalso. eapply Hend. left. constructor. }
  destruct s as [| | e|e]; [done| | |by exists e]; exfalso.
  - destruct d as [v|]; [eapply Hend; right; constructor|].
    unfold sent in Hg. simpl in Hg. by destruct Hg as [|(e & ? & _)].
  - eapply Hend. right. constructor.
Qed.
End reporter.

(** ** What a publication leaves alone *)

(** The caller's functions a publication calls. *)
Record reports_within {dyn U E} (G : world dyn U E → world dyn U E → Prop) (o : Options dyn U E) : Prop := {
  rw_reporter reporter c snapshot : Reporter o = Some reporter → guarantees G (λ _, True) (reporter c snapshot);
  rw_clock clock : Clock o = Some clock → guarantees G (λ _, True) clock;
}.

(** A publication fails with the reporter's error. *)
Lemma guarantees_rest {W A} (G : W → W → Prop) (Q : A → Prop) (p q : prog W A) :
  rest_of p q → guarantees G Q p → guarantees G Q q.
Proof. induction 1 as [|X act k w w' x _ IH Hin]; [done|]. intros Hp. by apply (IH Hp w w' x Hin). Qed.

Lemma publication_failure {dyn U E} (pubs : prog (world dyn U E) (res unit) → Prop) o runContext total e :
  (∀ p, pubs p → ∃ current, p = publication o runContext total current) → failure pubs e →
  ∃ cause, e = Errorf "progress reporter: %w" [ArgWrap cause].
Proof.
  intros Hpubs (p & Hp & Hrest). destruct (Hpubs p Hp) as [current ->].
  enough (guarantees (λ _ _ : world dyn U E, True) (λ r, ∀ e, r = Err e → ∃ cause, e = Errorf "progress reporter: %w" [ArgWrap cause])
    (publication o runContext total current)) as Hg by (by apply (guarantees_rest _ _ _ _ Hrest Hg)).
  apply guarantees_bind with (λ _, True); [by apply guarantees_any|]. intros report _. unfold publish.
  destruct (Reporter o); [|by intros e' [=]]. apply guarantees_bind with (λ _, True); [by apply guarantees_any|]. intros snapshot _.
  apply guarantees_bind with (λ _, True); [by apply guarantees_any|]. intros [[]|cause] _ e' [= <-]. by exists cause.
Qed.

Section within.
Context {dyn U E : Type}.
Notation W := (world dyn U E).
Context (G : W → W → Prop) `{!Reflexive G} (Hobs : ∀ os w, G w (set_observations os w)).
Context (o : Options dyn U E) (Ho : reports_within G o).

Lemma within_now : guarantees G (λ _, True) (now o).
Proof. unfold now. destruct (Clock o) eqn:Hc; [by eapply rw_clock|]. by apply guarantees_atomic. Qed.

Lemma within_take_snapshot report total terminal : guarantees G (λ _, True) (take_snapshot o report total terminal).
Proof.
  unfold take_snapshot. apply guarantees_bind with (λ _, True).
  - destruct (observation o) as [x|].
    + apply guarantees_await. intros w w' r Hin. destruct (wd_observations w !! x); [|by apply elem_of_nil in Hin].
      apply list_elem_of_singleton in Hin as [= -> _]. by split.
    + apply guarantees_bind with (λ _, True); [apply within_now|done].
  - intros first _. apply guarantees_bind with (λ _, True); [apply within_now|done].
Qed.

Lemma within_publication runContext total current :
  guarantees G (λ _, True) current → guarantees G (λ _, True) (publication o runContext total current).
Proof.
  intros Hc. apply guarantees_bind with (λ _, True); [done|]. intros report _. unfold publish.
  destruct (Reporter o) as [reporter|] eqn:Hr; [|done].
  apply guarantees_bind with (λ _, True); [apply within_take_snapshot|]. intros snapshot _.
  apply guarantees_bind with (λ _, True); [by eapply rw_reporter|done].
Qed.
End within.
