(* ===== verification/Runner.v ===== *)
(** * The engine of one stage: typedRunner of flow/run.go

    [process] resolves one item: cache lookup, one execution per key however many
    items share it, admission, the retry loop, metering, storage and the failure
    policy.  A critical section of [runner.mutex] is one action; waiting on a
    duplicate's [done] channel is an action that is enabled once the call was
    published or the context is done; [time.After] is a timer that fires no earlier
    than its delay.  [Int63n] is [rand.Int63n], applied to the number of the draw. *)

From S2P Require Import Prelude GoError GoStrings Float64 Classify Policy Digest Json.
From S2P Require Import Go Limits Budget Chain ResourcePlan RunEnv Cache Report Step.

Section runner.
Context {dyn U E I O : Type} `{!Boxed dyn I, !Boxed dyn O, !Codec O} (Int63n : nat → Z → Z).
Notation W := (world dyn U E).
Notation any := (option dyn).
Implicit Types (c : ctx) (index : nat) (item : I) (value : O) (w : W).

Record typedRunner := TypedRunner {
  step : Step dyn U E I O;
  options : Options dyn U E;
  classifier : Classifier;
  backoff : Backoff;
  attempts : Z;
  workers : Z;
  resources : list string;
  state : nat;                 (* its mutable part *)
}.

Definition newTypedRunner (s : Step dyn U E I O) (o : Options dyn U E) : prog W (res typedRunner) :=
  if decide (st_Name s = "") then mret (Err (New "every step needs a name")) else
  match Do s with
  | None => mret (Err (Errorf "step %q has no Do function" [ArgStr (st_Name s)]))
  | Some _ =>
      match Meter s, AttemptMeter s with
      | Some _, Some _ =>
          mret (Err (Errorf "step %q cannot set both Meter and AttemptMeter" [ArgStr (st_Name s)]))
      | _, _ =>
          ri ← atomic (λ w, (set_runners (wd_runners w ++ [new_rstate]) w, length (wd_runners w)));
          mret (Ok (TypedRunner s o (effective_classifier (st_Policy s))
                      (withDefaults (retry_backoff (Retry (st_Policy s))))
                      (effective_attempts (st_Policy s)) (effective_workers (st_Policy s))
                      (r_Name <$> Admission (st_Policy s)) ri))
      end
  end.

(** One section under [runner.mutex]. *)
Definition with_runner {X} (ri : nat) (f : rstate dyn → list (rstate dyn * X)) : prog W X :=
  await (λ w, match wd_runners w !! ri with
              | Some s => (λ '(s', x), (set_runners (<[ri := s']> (wd_runners w)) w, x)) <$> f s
              | None => []
              end).

Definition count (runner : typedRunner) (update : StepReport → StepReport) : prog W unit :=
  with_runner (state runner)
    (λ s, [(RState (update (counts s)) (meters s) (inflight s) (calls s), tt)]).

(** The updates of the counters. *)
Definition bump (items hits misses stored work started retries quarantined skipped : Z)
    (r : StepReport) : StepReport :=
  MkStepReport (Items r +! items) (Hits r +! hits) (Misses r +! misses) (Stored r +! stored)
    (WorkCalls r +! work) (StartedSequences r +! started) (Retries r +! retries)
    (Quarantined r +! quarantined) (Skipped r +! skipped)
    (RetriesByClass r) (Spend r) (sr_Meters r).
Definition one_item := bump 1 0 0 0 0 0 0 0 0.
Definition one_hit := bump 0 1 0 0 0 0 0 0 0.
Definition one_miss := bump 0 0 1 0 0 0 0 0 0.
Definition one_stored := bump 0 0 0 1 0 0 0 0 0.
Definition one_work_call := bump 0 0 0 0 1 0 0 0 0.
Definition one_started := bump 0 0 0 0 0 1 0 0 0.
Definition one_quarantined := bump 0 0 0 0 0 0 0 1 0.
Definition one_skipped := bump 0 0 0 0 0 0 0 0 1.
Definition one_retry (class : string) (r : StepReport) : StepReport :=
  let r' := bump 0 0 0 0 0 0 1 0 0 r in
  MkStepReport (Items r') (Hits r') (Misses r') (Stored r') (WorkCalls r') (StartedSequences r')
    (Retries r') (Quarantined r') (Skipped r')
    (Some (<[class := default 0 (default ∅ (RetriesByClass r) !! class) +! 1]>
             (default ∅ (RetriesByClass r))))
    (Spend r') (sr_Meters r').

Definition ctx_Err c : prog W (res unit) :=
  read (λ w, match world_ctx_err c w with Some e => Err e | None => Ok tt end).

Definition step_error (runner : typedRunner) (e : error) : error :=
  Errorf "step %q: %w" [ArgStr (st_Name (step runner)); ArgWrap e].
Definition item_fault (what : string) (runner : typedRunner) index (e : error) : error :=
  Errorf ("step %q item %d: " +:+ what +:+ "%w")
    [ArgStr (st_Name (step runner)); ArgInt (Z.of_nat index); ArgWrap e].

(** A call whose error is rewritten. *)
Definition faulty {A} (f : error → error) (p : prog W (res A)) : prog W (res A) :=
  r ← p; mret (match r with Ok a => Ok a | Err e => Err (f e) end).

Definition notify (runner : typedRunner) c index value (outcome : CacheOutcome) : prog W (res unit) :=
  match OnResult (step runner) with
  | None => mret (Ok tt)
  | Some hook => faulty (item_fault "result hook: " runner index) (hook c index value outcome)
  end.

Definition event (runner : typedRunner) c (ev : Event) : prog W (res unit) :=
  faulty (step_error runner) (emitLedger c (options runner) (set_Step (st_Name (step runner)) ev)).

(** [runner.meters.AddChecked] under the mutex. *)
Definition add_meters (runner : typedRunner) index (metered : Meters) : prog W (res unit) :=
  faulty (item_fault "" runner index)
    (with_runner (state runner) (λ s,
       (λ '(m, r), (RState (counts s) m (inflight s) (calls s), r)) <$> AddChecked (meters s) metered)).

Definition item_result index (value : any) (outcome : CacheOutcome) : erasedItem dyn :=
  ErasedItem index value outcome None false.

(** [env.admit]; a nil environment can only be asked for nothing, anything else is
    a nil dereference, an action without results. *)
Definition admit_units (o : Options dyn U E) (names : list string) c (units : Z) : prog W (string * res unit) :=
  match opt_env o, names with
  | Some e, names => zoom (runEnv_admit e c names units)
  | None, [] => mret ("", Ok tt)
  | None, _ => await (λ _, [])
  end.
Definition admit_resources (runner : typedRunner) c : prog W (string * res unit) :=
  admit_units (options runner) (resources runner) c 1.

Definition refused (runner : typedRunner) index (attempt : Z) (name : string) (e : error)
    (plan : option ResourcePlan) : error :=
  Errorf "step %q item %d attempt %d: resource %q admission refused: %w; stated ceiling %d, admitted budget %d — cache hits are free"
    [ArgStr (st_Name (step runner)); ArgInt (Z.of_nat index); ArgInt attempt; ArgStr name; ArgWrap e;
     ArgInt (match plan with Some p => Ceiling p | None => 0 end);
     ArgInt (match plan with Some p => plan_Budget p | None => 0 end)].

Definition plan_of (o : Options dyn U E) (name : string) : prog W (option ResourcePlan) :=
  match opt_env o with
  | Some e => zoom (env_plan e name)
  | None => await (λ _, [])
  end.
Definition read_plan (runner : typedRunner) (name : string) : prog W (option ResourcePlan) :=
  plan_of (options runner) name.

Definition admit_call (runner : typedRunner) c index (attempt : Z) : prog W (res unit) :=
  admitted ← admit_resources runner c;
  match admitted.2 with
  | Ok _ => mret (Ok tt)
  | Err e =>
      if Is e ErrBudgetExceeded then
        plan ← read_plan runner admitted.1;
        mret (Err (refused runner index attempt admitted.1 e plan))
      else mret (Err (Errorf "step %q item %d attempt %d: wait for resource %q: %w"
                        [ArgStr (st_Name (step runner)); ArgInt (Z.of_nat index); ArgInt attempt;
                         ArgStr admitted.1; ArgWrap e]))
  end.

(** [success] *)
Definition success (runner : typedRunner) c index value (key : option Key) (digestValue : string)
    : prog W (res (erasedItem dyn)) :=
  _ ←? match Meter (step runner) with
       | Some meter => add_meters runner index (meter value)
       | None => mret (Ok tt)
       end;
  stored ←? match key, opt_Store (options runner) with
            | Some key, Some store =>
                _ ←? faulty (item_fault "store cache entry: " runner index)
                       (Put store O (WithoutCancel c) key value);
                _ ← count runner one_stored;
                mret (Ok (MkOutcome digestValue CacheStored, EventStored))
            | None, _ => mret (Ok (no_outcome, EventDone))
            | Some _, None => await (λ _, [])
            end;
  let '(outcome, eventType) := stored in
  _ ←? event runner c (item_event index eventType);
  _ ←? notify runner c index value outcome;
  mret (Ok (item_result index (box value) outcome)).

Definition class_event index (t : EventType) (class : ErrorClass) (attempt : Z) (cause : error) : Event :=
  MkEvent None "" (Z.of_nat index) t (class_String class) attempt 0 (Error cause).

(** [fail] *)
Definition fail (runner : typedRunner) c index (cause : error) (class : ErrorClass) (attempts : Z)
    : prog W (res (erasedItem dyn)) :=
  let mode := OnError (st_Policy (step runner)) in
  if bool_decide (class = Fatal) || bool_decide (mode = FailFast) then
    mret (Err (Errorf "step %q item %d [%s]: %w"
                 [ArgStr (st_Name (step runner)); ArgInt (Z.of_nat index);
                  ArgStr (class_String class); ArgWrap cause]))
  else if bool_decide (mode = Skip) then
    _ ← count runner one_skipped;
    _ ←? event runner c (class_event index EventSkipped class 0 cause);
    mret (Ok (ErasedItem index None no_outcome None true))
  else
    let record := MkItemError (st_Name (step runner)) index class attempts (Error cause) in
    _ ← count runner one_quarantined;
    _ ←? event runner c (class_event index EventQuarantined class 0 cause);
    mret (Ok (ErasedItem index None no_outcome (Some record) false)).

(** [select { case <-ctx.Done(): case <-time.After(retryDelay(delay, cap)): }] *)
Definition pause c (delay maximum : Z) : prog W (res unit) :=
  wait ← atomic (λ w,
    let bound := jitter_bound delay maximum in
    if maximum <=? 0 then (w, (wd_now w, 0)) else
    (set_clock (wd_now w) (S (wd_draws w)) w,
     (wd_now w, retryDelay (Int63n (wd_draws w) bound) delay maximum)));
  await (λ w, match world_ctx_err c w with Some e => [(w, Err e)] | None => [] end ++
              [(set_clock (Z.max (wd_now w) (wait.1 + wait.2)) (wd_draws w) w, Ok tt)]).
Definition back_off (runner : typedRunner) c (delay : Z) : prog W (res unit) :=
  pause c delay (Cap (backoff runner)).

(** One attempt of the loop of [work], up to what Do returned. *)
Definition attempt_once (runner : typedRunner) (do : ctx → I → prog W (O * option error)) c index item
    (attempt : Z) : prog W (res (O * option error)) :=
  _ ←? admit_call runner c index attempt;
  _ ← (if attempt =? 1 then count runner one_started else mret tt);
  out ← do c item;
  _ ← count runner one_work_call;
  _ ←? match AttemptMeter (step runner) with
       | Some meter => add_meters runner index (meter out.1 out.2)
       | None => mret (Ok tt)
       end;
  mret (Ok out).

(** The loop of [work], with [more] attempts allowed after this one. *)
Fixpoint attempt_loop (runner : typedRunner) (do : ctx → I → prog W (O * option error)) c index item
    (key : option Key) (digestValue : string) (more : nat) (attempt delay : Z)
    : prog W (res (erasedItem dyn)) :=
  out ←? attempt_once runner do c index item attempt;
  match out.2 with
  | None => success runner c index out.1 key digestValue
  | Some e =>
      canceled ← read (world_ctx_err c);
      match canceled with
      | Some _ => mret (Err (item_fault "" runner index e))
      | None =>
          let class := classifier runner e in
          if negb (class_valid class) then
            mret (Err (Errorf "step %q item %d: classifier returned unknown error class %d"
                         [ArgStr (st_Name (step runner)); ArgInt (Z.of_nat index);
                          ArgInt (match class with UnknownClass n => n | _ => 0 end)]))
          else
            match class, more with
            | Transient, S more =>
                _ ← count runner (one_retry (class_String class));
                _ ←? event runner c (class_event index EventRetry class attempt e);
                _ ←? back_off runner c delay;
                attempt_loop runner do c index item key digestValue more (attempt + 1)
                  (nextRetryDelay delay (Cap (backoff runner)))
            | _, _ => fail runner c index e class attempt
            end
      end
  end.

Definition work (runner : typedRunner) c index item (key : option Key) (digestValue : string)
    : prog W (res (erasedItem dyn)) :=
  match Do (step runner) with
  | None => await (λ _, [])        (* excluded by newTypedRunner *)
  | Some do => attempt_loop runner do c index item key digestValue
                 (Z.to_nat (attempts runner - 1)) 1 (Base (backoff runner))
  end.

(** [lead] *)
Definition lead (runner : typedRunner) (store : Store dyn U E) c index item (key : Key)
    (digestValue : string) : prog W (res (erasedItem dyn)) :=
  loaded ←? faulty (item_fault "load cache entry: " runner index) (Load store O c key);
  match loaded with
  | Some value =>
      _ ← count runner one_hit;
      _ ←? event runner c (item_event index EventHit);
      _ ←? notify runner c index value (MkOutcome digestValue CacheHit);
      mret (Ok (item_result index (box value) (MkOutcome digestValue CacheHit)))
  | None =>
      _ ← count runner one_miss;
      work runner c index item (Some key) digestValue
  end.

(** [follow]: the counters and the event of a replicated outcome. *)
Definition replicate_outcome (call : inflightCall dyn) : (StepReport → StepReport) * EventType :=
  match ic_quarantined call with
  | Some _ => (λ r, one_quarantined (one_miss r), EventQuarantined)
  | None =>
      if ic_skipped call then (λ r, one_skipped (one_miss r), EventSkipped)
      else if bool_decide (ic_state call = CacheHit) then (one_hit, EventHit)
      else (one_miss, EventStored)
  end.

Definition follow (runner : typedRunner) c index (id : nat) (digestValue : string)
    : prog W (res (erasedItem dyn)) :=
  call ←? await (λ w,
    match world_ctx_err c w with Some e => [(w, Err e)] | None => [] end ++
    match wd_runners w !! state runner with
    | Some s => match calls s !! id with Some (Some call) => [(w, Ok call)] | _ => [] end
    | None => []
    end);
  match ic_err call with
  | Some e => mret (Err e)
  | None =>
      let outcome := if bool_decide (ic_state call = CacheNone) then no_outcome
                     else MkOutcome digestValue (ic_state call) in
      let result := ErasedItem index (ic_value call) outcome
                      (set_Index index <$> ic_quarantined call) (ic_skipped call) in
      let '(update, eventType) := replicate_outcome call in
      _ ← count runner update;
      _ ←? event runner c (item_event index eventType);
      if flagged result then mret (Ok result)
      else
        _ ←? notify runner c index (default zero_value (unbox (ic_value call))) outcome;
        mret (Ok result)
  end.

(** What [process] publishes for the duplicates of a call: the zero item goes with
    an error. *)
Definition call_of (r : res (erasedItem dyn)) : inflightCall dyn :=
  match r with
  | Ok result => InflightCall (ei_value result) (State (ei_outcome result))
                   (ei_quarantined result) (ei_skipped result) None
  | Err e => InflightCall None CacheNone None false (Some e)
  end.

(** The map of calls in flight: the call of a duplicate, or a new one. *)
Definition join_call (runner : typedRunner) (digestValue : string) : prog W (nat + nat) :=
  with_runner (state runner) (λ s,
    match inflight s !! digestValue with
    | Some id => [(s, inl id)]
    | None => [(RState (counts s) (meters s) (<[digestValue := length (calls s)]> (inflight s))
                  (calls s ++ [None]), inr (length (calls s)))]
    end).

Definition publish_call (runner : typedRunner) (id : nat) (r : res (erasedItem dyn)) : prog W unit :=
  with_runner (state runner) (λ s,
    [(RState (counts s) (meters s) (inflight s) (<[id := Some (call_of r)]> (calls s)), tt)]).

Definition process (runner : typedRunner) c index item : prog W (res (erasedItem dyn)) :=
  _ ← count runner one_item;
  match opt_Store (options runner) with
  | Some store =>
      if decide (Kind (st_Identity (step runner)) = "") then work runner c index item None "" else
      match Step_Key (step runner) item with
      | Err e => mret (Err e)
      | Ok key =>
          match Key_Digest key with
          | Err e => mret (Err (item_fault "" runner index e))
          | Ok digestValue =>
              call ← join_call runner digestValue;
              match call with
              | inl id => follow runner c index id digestValue
              | inr id =>
                  r ← lead runner store c index item key digestValue;
                  _ ← publish_call runner id r;
                  mret r
              end
          end
      end
  | None => work runner c index item None ""
  end.

(** [env.snapshot(resources)]: nil for no resources. *)
Definition read_spend (o : Options dyn U E) (names : list string) : prog W (option (gmap string snapshot)) :=
  match names, opt_env o with
  | [], _ => mret None
  | names, Some e => m ← zoom (env_snapshot e names); mret (Some m)
  | _, None => await (λ _, [])
  end.

(** [report]: the counters are copied under the mutex, but the map
    [RetriesByClass] is not: it is read, through the pointer that was copied, when
    the caller merges the report.  A nil map stays nil. *)
Definition report (runner : typedRunner) : prog W (string * StepReport) :=
  first ← with_runner (state runner) (λ s, [(s, (counts s, meters s))]);
  let '(copied, metered) := first in
  spend ← read_spend (options runner) (resources runner);
  classes ← match RetriesByClass copied with
            | None => mret None
            | Some _ => with_runner (state runner) (λ s, [(s, RetriesByClass (counts s))])
            end;
  mret (st_Name (step runner),
        MkStepReport (Items copied) (Hits copied) (Misses copied) (Stored copied) (WorkCalls copied)
          (StartedSequences copied) (Retries copied) (Quarantined copied) (Skipped copied)
          classes spend (if decide (metered = ∅) then None else Some (Meters_Add ∅ metered))).
End runner.
Arguments typedRunner : clear implicits.
