(* ===== verification/RunnerProofs.v ===== *)
(** * What one stage engine guarantees: proofs for Runner.v

    Every goroutine that processes an item owns an account: its share of the
    counters, the calls it has to publish, the keys it has executed, and what it
    took from one budget.  [runner_inv] relates the runner's shared state to the
    sum of all accounts, so that what is proved of one item adds up over all. *)

From S2P Require Import Prelude GoError GoStrings Float64 Classify Policy Digest Json Go.
From S2P Require Import Limits Budget Chain ResourcePlan RunEnv Cache Report Step Runner.

(** ** Tallies *)

Record tally := Tally {
  t_items : N; t_hits : N; t_misses : N; t_stored : N; t_work : N; t_started : N;
  t_retries : N; t_quarantined : N; t_skipped : N;
}.

#[export] Program Instance tally_account : Account tally := {|
  azero := Tally 0 0 0 0 0 0 0 0 0;
  aplus s t := Tally (t_items s + t_items t) (t_hits s + t_hits t) (t_misses s + t_misses t)
                 (t_stored s + t_stored t) (t_work s + t_work t) (t_started s + t_started t)
                 (t_retries s + t_retries t) (t_quarantined s + t_quarantined t)
                 (t_skipped s + t_skipped t);
|}%N.
Next Obligation. intros [] []; simpl; f_equal; lia. Qed.
Next Obligation. intros [] [] []; simpl; f_equal; lia. Qed.
Next Obligation. intros []; simpl; f_equal; lia. Qed.

(** The account of a goroutine: counters, calls to publish, keys executed, and
    calls it knows to belong to a key. *)
Notation bindings := (@gset (string * nat) prod_eq_dec prod_countable).
Notation racct := (tally * gmultiset nat * gmultiset string * bindings)%type.

#[export] Program Instance gset_account `{Countable K} : Account (gset K) :=
  {| azero := ∅; aplus := union |}.
Next Obligation. intros. by rewrite (comm_L union). Qed.
Next Obligation. intros. by rewrite (assoc_L union). Qed.
Next Obligation. intros. by rewrite (left_id_L ∅ union). Qed.

(** A 64-bit counter that counted [n]. *)
Definition shows (z : Z) (n : N) : Prop := z = wrap64 (Z.of_N n).

Lemma shows_add z n d : shows z n → shows (z +! Z.of_N d) (d + n).
Proof. unfold shows. intros ->. rewrite wrap64_succ. f_equal. lia. Qed.

(** The retries by class: only transient errors are retried. *)
Definition classes_show (m : option (gmap string Z)) (n : N) : Prop :=
  match m with
  | None => n = 0%N
  | Some m => n ≠ 0%N ∧ m = {["transient" := wrap64 (Z.of_N n)]}
  end.

Record counts_show (r : StepReport) (t : tally) : Prop := {
  cs_items : shows (Items r) (t_items t);
  cs_hits : shows (Hits r) (t_hits t);
  cs_misses : shows (Misses r) (t_misses t);
  cs_stored : shows (Stored r) (t_stored t);
  cs_work : shows (WorkCalls r) (t_work t);
  cs_started : shows (StartedSequences r) (t_started t);
  cs_retries : shows (Retries r) (t_retries t);
  cs_quarantined : shows (Quarantined r) (t_quarantined t);
  cs_skipped : shows (Skipped r) (t_skipped t);
  cs_classes : classes_show (RetriesByClass r) (t_retries t);
}.

Lemma counts_show_zero : counts_show zero_report azero.
Proof. by split. Qed.

Definition adds (u : StepReport → StepReport) (d : tally) : Prop :=
  ∀ r t, counts_show r t → counts_show (u r) (d ⊹ t).

Lemma adds_compose u u' d d' : adds u d → adds u' d' → adds (λ r, u' (u r)) (d' ⊹ d).
Proof. intros Hu Hu' r t Hr. rewrite <-aplus_assoc. by apply Hu', Hu. Qed.

Lemma adds_bump items hits misses stored work started quarantined skipped :
  adds (bump (Z.of_N items) (Z.of_N hits) (Z.of_N misses) (Z.of_N stored) (Z.of_N work)
          (Z.of_N started) 0 (Z.of_N quarantined) (Z.of_N skipped))
    (Tally items hits misses stored work started 0 quarantined skipped).
Proof.
  intros r t []. split; simpl; try by apply shows_add.
  - by apply (shows_add _ _ 0%N).
  - done.
Qed.

Lemma adds_retry : adds (one_retry "transient") (Tally 0 0 0 0 0 0 1 0 0).
Proof.
  intros r t []. split; simpl; try by apply (shows_add _ _ 0%N).
  - by apply (shows_add _ _ 1%N).
  - split; [lia|]. destruct (RetriesByClass r) as [m|]; simpl in *.
    + destruct cs_classes0 as [_ ->]. rewrite lookup_singleton_eq, insert_singleton_eq. simpl.
      rewrite wrap64_succ. do 2 f_equal. lia.
    + subst. rewrite cs_classes0. done.
Qed.

(** ** The invariant of a runner *)

Section accounting.
Context {dyn U E I O : Type} `{!Boxed dyn I, !Boxed dyn O, !Codec O} (Int63n : nat → Z → Z).
Notation W := (world dyn U E).
Notation any := (option dyn).
Notation M := (racct * share)%type.
Context (runner : typedRunner dyn U E I O) (e b : nat) (x0 : budget) (L : gmap string (Limiter U))
  (B : gmap string nat).
(** What the caller's functions return: [DoQ item out] for Do, [LoadQ key v] for
    a value found in the store, [PutQ key v] for a value the store accepted. *)
Context (DoQ : I → O * option error → Prop) (LoadQ PutQ : Key → O → Prop).
Implicit Types (c : ctx) (index : nat) (item : I) (w : W) (t : tally) (γ : racct).

Definition cached : bool :=
  match opt_Store (options runner) with
  | Some _ => negb (bool_decide (Kind (st_Identity (step runner)) = ""))
  | None => false
  end.

(** The digest of an item's key. *)
Definition item_digest item : option string :=
  match Step_Key (step runner) item with
  | Ok key => match Key_Digest key with Ok d => Some d | Err _ => None end
  | Err _ => None
  end.

(** The results [Do] gives to the attempts on one item, and what the policy makes
    of them: a success, or the first failure that is not retried.  A failure is
    retried while it is transient and attempts are left. *)
Definition retried (out : O * option error) : Prop :=
  ∃ err, out.2 = Some err ∧ classifier runner err = Transient.

Definition given_up (tries : nat) (err : error) (quar : option ItemError) (skip : bool) : Prop :=
  let class := classifier runner err in
  class_valid class = true ∧ class ≠ Fatal ∧
  (class = Transient → Z.of_nat tries = attempts runner) ∧
  match OnError (st_Policy (step runner)) with
  | FailFast => False
  | Skip => quar = None ∧ skip = true
  | _ => skip = false ∧ ∃ i, quar = Some (MkItemError (st_Name (step runner)) i class (Z.of_nat tries) (Error err))
  end.

Definition resolves (outs : list (O * option error)) (value : any) (st : CacheState)
    (quar : option ItemError) (skip : bool) : Prop :=
  ∃ before last, outs = before ++ [last] ∧ Forall retried before ∧
    match last with
    | (v, None) => value = box v ∧ st = (if cached then CacheStored else CacheNone) ∧
                   quar = None ∧ skip = false
    | (_, Some err) => value = None ∧ st = CacheNone ∧ given_up (length outs) err quar skip
    end.

(** A result that says it was stored: the store accepted its value under the key of
    its item. *)
Definition put_ok item (value : any) (st : CacheState) : Prop :=
  st = CacheStored → ∃ key v, Step_Key (step runner) item = Ok key ∧ value = box v ∧ PutQ key v.

(** The outcome of an item: a value found in the store, or what its attempts
    resolve to. *)
Definition settled item (value : any) (st : CacheState) (quar : option ItemError) (skip : bool) : Prop :=
  (∃ key v, Step_Key (step runner) item = Ok key ∧ LoadQ key v ∧ value = box v ∧ st = CacheHit ∧
            quar = None ∧ skip = false ∧ cached = true) ∨
  (∃ outs, Forall (DoQ item) outs ∧ Z.of_nat (length outs) ≤ Z.max 1 (attempts runner) ∧
           resolves outs value st quar skip ∧ put_ok item value st).

(** A published call without an error is the outcome of an item with its digest. *)
Definition call_ok (d : string) (call : inflightCall dyn) : Prop :=
  ic_err call = None →
  ∃ item, item_digest item = Some d ∧
    settled item (ic_value call) (ic_state call) (ic_quarantined call) (ic_skipped call).

Record calls_ok (s : rstate dyn) (pend : gmultiset nat) (led : gmultiset string)
    (known : bindings) : Prop := {
  co_pending id : calls s !! id = Some None ↔ id ∈ pend;
  co_once id : (multiplicity id pend ≤ 1)%nat;
  co_led d : multiplicity d led = if decide (d ∈ dom (inflight s)) then 1%nat else 0%nat;
  co_call d id : inflight s !! d = Some id →
    ∃ call, calls s !! id = Some call ∧ ∀ r, call = Some r → call_ok d r;
  co_known d id : (d, id) ∈ known → inflight s !! d = Some id;
  co_inj d d' id : inflight s !! d = Some id → inflight s !! d' = Some id → d = d';
}.

Definition runner_inv (w : W) (γ : racct) : Prop :=
  ∃ s, wd_runners w !! state runner = Some s ∧ counts_show (counts s) γ.1.1.1 ∧
       meters_finite (meters s) ∧ calls_ok s γ.1.1.2 γ.1.2 γ.2.

Definition Inv (w : W) (m : M) : Prop := runner_inv w m.1 ∧ admit_inv e b x0 L B (wd_env w) m.2.

Notation quiet p := (owns Inv (λ _ m, m = azero) p azero).

(** An action on the runner's state alone. *)
Lemma owns_with_runner {X} (f : rstate dyn → list (rstate dyn * X)) γ (m : share) (Q : X → M → Prop) :
  (∀ s o s' x, counts_show (counts s) (γ ⊹ o).1.1.1 → meters_finite (meters s) →
     calls_ok s (γ ⊹ o).1.1.2 (γ ⊹ o).1.2 (γ ⊹ o).2 → (s', x) ∈ f s →
     ∃ γ', counts_show (counts s') (γ' ⊹ o).1.1.1 ∧ meters_finite (meters s') ∧
           calls_ok s' (γ' ⊹ o).1.1.2 (γ' ⊹ o).1.2 (γ' ⊹ o).2 ∧ Q x (γ', m)) →
  owns Inv Q (with_runner (state runner) f) (γ, m).
Proof.
  intros Hf. apply owns_await. intros w [o1 o2] w' x [(s & Hs & Hc & Hm & Hk) He] Hin.
  rewrite Hs in Hin. apply list_elem_of_fmap in Hin as ([s' x'] & [= -> ->] & Hin).
  destruct (Hf s o1 s' x' Hc Hm Hk Hin) as (γ' & Hc' & Hm' & Hk' & HQ).
  exists (γ', m). split; [|done]. split; [|done]. exists s'. split; [|done]. simpl.
  apply list_lookup_insert_eq. by eapply lookup_lt_Some.
Qed.

Definition only (t : tally) : M := ((t, ∅, ∅, ∅), azero).

Lemma owns_count u d : adds u d → owns Inv (λ _ m, m = only d) (count runner u) azero.
Proof.
  intros Hu. apply owns_with_runner. intros s o s' [] Hc Hm Hk [= ->]%list_elem_of_singleton.
  exists (d, ∅, ∅, ∅). rewrite aplus_zero in Hc. split_and!; [by apply Hu|done|by destruct Hk|done].
Qed.

Lemma quiet_read {X} (f : W → X) : owns Inv (λ x m, m = azero) (read f) azero.
Proof. apply owns_atomic. intros w o Hw. by exists azero. Qed.

(** Clock and draws are not in the invariant. *)
Lemma Inv_set_clock now draws w m : Inv w m → Inv (set_clock now draws w) m.
Proof. done. Qed.

Lemma owns_faulty {A} (f : error → error) (p : prog W (res A)) (γ : M) (Q : res A → M → Prop) :
  owns Inv (λ r m, Q (match r with Ok a => Ok a | Err e => Err (f e) end) m) p γ →
  owns Inv Q (faulty f p) γ.
Proof. intros Hp. eapply owns_bind'; [exact Hp|]. intros r m HQ. by apply owns_ret. Qed.


(** ** The caller's functions *)

(** What the theorems ask of the functions a caller provides: they leave the
    runner and the tracked budget alone, and return what [DoQ], [LoadQ] and [PutQ] say. *)
Record well_behaved : Prop := {
  wb_do do c item : Do (step runner) = Some do →
    owns Inv (λ out m, m = azero ∧ DoQ item out) (do c item) azero;
  wb_load store c key : opt_Store (options runner) = Some store →
    owns Inv (λ r m, m = azero ∧ ∀ v, r = Ok (Some v) → LoadQ key v) (Load store O c key) azero;
  wb_put store c key item v :
    opt_Store (options runner) = Some store → Step_Key (step runner) item = Ok key →
    DoQ item (v, None) → owns Inv (λ r m, m = azero ∧ (r = Ok tt → PutQ key v)) (Put store O c key v) azero;
  wb_hook hook c index v outcome : OnResult (step runner) = Some hook → quiet (hook c index v outcome);
  wb_ledger l c ev : Ledger (options runner) = Some l → quiet (l c ev);
  wb_clock p : Clock (options runner) = Some p → quiet p;
}.
Context (Hwb : well_behaved).
Context (Henv : opt_env (options runner) = Some e).
Context (Hres : ∀ name, name ∈ resources runner → is_Some (L !! name)).

Definition charge : N := charges_of L b 1 (resources runner).

Lemma quiet_notify c index v outcome : quiet (notify runner c index v outcome).
Proof.
  unfold notify. destruct (OnResult (step runner)) as [hook|] eqn:Hh; [|by apply owns_ret].
  apply owns_faulty. by eapply wb_hook.
Qed.

Lemma quiet_emit c ev : quiet (emitLedger c (options runner) ev).
Proof.
  unfold emitLedger.
  destruct (Ledger (options runner)) as [l|] eqn:Hl; [|by apply owns_ret].
  apply owns_quiet.
  - destruct (At _); [by apply owns_ret|]. apply owns_quiet; [|by intros; apply owns_ret].
    unfold now. destruct (Clock (options runner)) eqn:Hclock; [by eapply wb_clock|apply quiet_read].
  - intros ev'. apply owns_quiet; [by eapply wb_ledger|]. by intros; apply owns_ret.
Qed.

Lemma quiet_event c ev : quiet (event runner c ev).
Proof. apply owns_faulty, quiet_emit. Qed.

Lemma quiet_add_meters index metered : quiet (add_meters runner index metered).
Proof.
  apply owns_faulty. apply owns_with_runner. intros s o s' r Hc Hm Hk Hin.
  apply list_elem_of_fmap in Hin as ([m r'] & [= -> ->] & Hin).
  exists azero. split_and!; [done| |by destruct Hk|done].
  apply AddChecked_spec' in Hin. destruct r'; [by apply Hin|]. by destruct Hin as [-> _].
Qed.

Lemma quiet_back_off c delay : quiet (back_off Int63n runner c delay).
Proof.
  apply owns_quiet.
  - apply owns_atomic. intros w o Hw. exists azero. by case_match.
  - intros wait. apply owns_await. intros w o w' x Hw Hin. exists azero. split; [|done].
    apply elem_of_app in Hin as [Hin|[= -> ->]%list_elem_of_singleton]; [|done].
    destruct (world_ctx_err c w); [by apply list_elem_of_singleton in Hin as [= -> ->]|].
    by apply elem_of_nil in Hin.
Qed.

(** A program on the environment alone. *)
Lemma owns_env {A} (Q : A → share → Prop) (p : prog (envw U) A) :
  owns (admit_inv e b x0 L B) Q p azero → owns Inv (λ a m, m.1 = azero ∧ Q a m.2) (zoom p) azero.
Proof.
  intros Hp. eapply owns_conseq.
  - apply (owns_zoom (admit_inv e b x0 L B) Inv (λ m, (azero, m))); [|exact Hp].
    intros w m [o1 o2] [Hr He]. exists o2. split; [done|]. intros s' m' Hs'. by split.
  - by intros a m (m' & -> & HQ).
Qed.

Lemma quiet_read_plan name : quiet (read_plan runner name).
Proof.
  unfold read_plan, plan_of. rewrite Henv. eapply owns_conseq; [apply (owns_env (λ _ m, m = azero))|].
  - apply owns_await. intros w o w' x [Hb (env & He & HL & HB)] Hin. rewrite He in Hin.
    apply list_elem_of_singleton in Hin as [= -> ->]. exists azero. split; [|done].
    split; [done|]. exists env. simpl. by rewrite list_insert_id.
  - intros a [m1 m2] [Hm1 Hm2]. simpl in *. by subst.
Qed.

(** Admission takes [charge] units, or fails and takes none. *)
Definition spent (γ : racct) (n : N) (m : M) : Prop := m.1 = γ ∧ m.2.1 = (0%N, n).

Lemma spent_zero : spent azero 0 azero.
Proof. done. Qed.

Lemma spent_add γ γ' n n' m m' : spent γ n m → spent γ' n' m' → spent (γ ⊹ γ') (n + n') (m ⊹ m').
Proof.
  destruct m as [m1 [[h1 s1] f1]], m' as [m1' [[h2 s2] f2]]. unfold spent. simpl.
  intros [-> [= -> ->]] [-> [= -> ->]]. done.
Qed.

Lemma owns_admit_call c index attempt :
  owns Inv (λ r m, spent azero (if is_ok r then charge else 0%N) m) (admit_call runner c index attempt) azero.
Proof.
  unfold admit_call, admit_resources, admit_units. rewrite Henv.
  eapply owns_then.
  - apply owns_env, (admit_names_ok e b x0 L B c 1 (resources runner) [] 0%N azero); [done|done].
  - intros [name [[]|err]] m Hm; cbn [fst snd is_ok] in *.
    + apply owns_ret. by rewrite aplus_zero.
    + assert (spent azero 0 m) as Hm' by done.
      destruct (Is err ErrBudgetExceeded); [|apply owns_ret; by rewrite aplus_zero].
      apply owns_quiet; [apply quiet_read_plan|]. intros plan. apply owns_ret. by rewrite aplus_zero.
Qed.

(** ** One item *)

Context (Hatt : 1 ≤ attempts runner).

(** The key [work] stores under: the item's own key in a cached stage, none
    otherwise. *)
Definition key_for item (key : option Key) (digestValue : string) : Prop :=
  match key with
  | Some k => cached = true ∧ Step_Key (step runner) item = Ok k ∧ Key_Digest k = Ok digestValue
  | None => cached = false
  end.

(** A position-independent view of a result. *)
Definition outcome_is index (it : erasedItem dyn) (value : any) (st : CacheState)
    (quar : option ItemError) (skip : bool) : Prop :=
  ei_index it = index ∧ ei_value it = value ∧ State (ei_outcome it) = st ∧
  ei_quarantined it = quar ∧ ei_skipped it = skip ∧
  (∀ q, quar = Some q → ie_Index q = index).

Definition flag (P : bool) : N := if P then 1%N else 0%N.

(** The part of the account that resolving [r] leaves in the failure and store
    counters. *)
Definition ends (r : res (erasedItem dyn)) t : Prop :=
  (t_stored t ≤ 1 ∧ t_quarantined t + t_skipped t ≤ 1)%N ∧
  match r with
  | Ok it => t_quarantined t = flag (bool_decide (is_Some (ei_quarantined it))) ∧
             t_skipped t = flag (ei_skipped it)
  | Err _ => True
  end.

Definition success_post index item (v : O) (st : CacheState) (r : res (erasedItem dyn)) (m : M) : Prop :=
  ∃ n, spent (Tally 0 0 0 n 0 0 0 0 0, ∅, ∅, ∅) 0 m ∧ (n ≤ 1)%N ∧
       ∀ it, r = Ok it → n = flag (bool_decide (st = CacheStored)) ∧ outcome_is index it (box v) st None false ∧ put_ok item (box v) st.

Lemma owns_success c index item v key digestValue :
  key_for item key digestValue → DoQ item (v, None) →
  owns Inv (success_post index item v (if cached then CacheStored else CacheNone))
    (success runner c index v key digestValue) azero.
Proof.
  intros Hkey Hv. unfold success.
  assert (∀ (err : error), success_post index item v (if cached then CacheStored else CacheNone) (Err err) azero) as Herr.
  { intros err. exists 0%N. split_and!; [done|lia|done]. }
  apply owns_rquiet; [destruct (Meter (step runner)); [apply quiet_add_meters|by apply owns_ret]| |done].
  intros _.
  eapply owns_rthen with (R := λ r m, ∃ n, spent (Tally 0 0 0 n 0 0 0 0 0, ∅, ∅, ∅) 0 m ∧ (n ≤ 1)%N ∧
    ∀ a, r = Ok a → State a.1 = (if cached then CacheStored else CacheNone) ∧ n = flag cached ∧ put_ok item (box v) (State a.1)).
  - destruct key as [key|]; simpl in Hkey.
    + destruct Hkey as (Hc & Hkey & Hd). rewrite Hc. destruct (opt_Store (options runner)) as [store|] eqn:Hst.
      2: { by unfold cached in Hc; rewrite Hst in Hc. }
      eapply owns_rthen with (R := λ r m, m = azero ∧ (r = Ok tt → PutQ key v)).
      * apply owns_faulty. eapply owns_conseq; [by eapply wb_put|]. intros [[]|err] m [-> Hput]; split; [done|done|done|by intros [=]].
      * intros [] m [-> Hput]. eapply owns_then; [apply owns_count, (adds_bump 0 0 0 1 0 0 0 0)|].
        intros [] m ->. apply owns_ret. rewrite aplus_zero, aplus_zero_r. exists 1%N. split_and!; [done|lia|].
        intros a [= <-]. split_and!; [done|done|]. intros _. exists key, v. by split_and!; [..|apply Hput].
      * intros err m [-> _]. exists 0%N. split_and!; [done|lia|done].
    + rewrite Hkey. apply owns_ret. exists 0%N. split_and!; [done|lia|]. by intros a [= <-].
  - intros [outcome eventType] m (n & Hm & Hn & Ha). destruct (Ha _ eq_refl) as (Hst & -> & Hput). cbn [fst] in Hst, Hput.
    assert (∀ err : error, success_post index item v (if cached then CacheStored else CacheNone) (Err err) (azero ⊹ m)) as Herr'.
    { intros err. rewrite aplus_zero. exists (flag cached). by split_and!. }
    apply owns_rquiet; [apply quiet_event| |done]. intros _.
    apply owns_rquiet; [apply quiet_notify| |done]. intros _. apply owns_ret.
    rewrite aplus_zero. exists (flag cached). split_and!; [done|done|]. intros it [= <-]. rewrite <-Hst. split_and!; [rewrite Hst; by destruct cached|done|done].
  - intros err m (n & Hm & Hn & _). exists n. by split_and!.
Qed.

Definition fail_post index (cause : error) (tries : nat) (r : res (erasedItem dyn)) (m : M) : Prop :=
  ∃ q s, spent (Tally 0 0 0 0 0 0 0 q s, ∅, ∅, ∅) 0 m ∧ (q + s ≤ 1)%N ∧
    ∀ it, r = Ok it →
      q = flag (bool_decide (is_Some (ei_quarantined it))) ∧ s = flag (ei_skipped it) ∧
      outcome_is index it None CacheNone (ei_quarantined it) (ei_skipped it) ∧
      given_up tries cause (ei_quarantined it) (ei_skipped it).

Lemma owns_fail c index cause (tries : nat) :
  class_valid (classifier runner cause) = true →
  (classifier runner cause = Transient → Z.of_nat tries = attempts runner) →
  owns Inv (fail_post index cause tries)
    (fail runner c index cause (classifier runner cause) (Z.of_nat tries)) azero.
Proof.
  intros Hval Htr. unfold fail.
  assert (∀ (err : error), fail_post index cause tries (Err err) azero) as Herr.
  { intros err. exists 0%N, 0%N. by split_and!. }
  destruct (bool_decide (classifier runner cause = Fatal)) eqn:Hfatal; [by apply owns_ret|].
  apply bool_decide_eq_false in Hfatal.
  destruct (bool_decide (OnError _ = FailFast)) eqn:Hff; [by apply owns_ret|]. apply bool_decide_eq_false in Hff.
  cbn [orb]. destruct (bool_decide (OnError _ = Skip)) eqn:Hskip.
  - apply bool_decide_eq_true in Hskip.
    eapply owns_then; [apply owns_count, (adds_bump 0 0 0 0 0 0 0 1)|]. intros [] m ->.
    apply owns_rquiet; [apply quiet_event| |].
    + intros _. apply owns_ret. rewrite aplus_zero. exists 0%N, 1%N. split_and!; [done|done|].
      intros it [= <-]. split_and!; try done. unfold given_up. rewrite Hskip. by split_and!.
    + intros err. rewrite aplus_zero. exists 0%N, 1%N. by split_and!.
  - apply bool_decide_eq_false in Hskip.
    eapply owns_then; [apply owns_count, (adds_bump 0 0 0 0 0 0 1 0)|]. intros [] m ->.
    apply owns_rquiet; [apply quiet_event| |].
    + intros _. apply owns_ret. rewrite aplus_zero. exists 1%N, 0%N. split_and!; [done|done|].
      intros it [= <-]. split_and!; try done; [unfold outcome_is; split_and!; try done; by intros q [= <-]|].
      unfold given_up. destruct (OnError _) eqn:Hmode; try done; by split_and!; eauto.
    + intros err. rewrite aplus_zero. exists 1%N, 0%N. by split_and!.
Qed.

(** Accounts of counters only. *)
Lemma spent_tally t t' n n' n'' (m m' : M) :
  spent (t', ∅, ∅, ∅) n' m' → spent (t, ∅, ∅, ∅) n m → n'' = (n' + n)%N →
  spent (t' ⊹ t, ∅, ∅, ∅) n'' (m' ⊹ m).
Proof.
  intros Hm' Hm ->. pose proof (spent_add _ _ _ _ _ _ Hm' Hm) as Hadd.
  assert (((t', ∅, ∅, ∅) : racct) ⊹ (t, ∅, ∅, ∅) = (t' ⊹ t, ∅, ∅, ∅)) as Heq.
  { change ((t' ⊹ t, (azero : gmultiset nat) ⊹ azero, (azero : gmultiset string) ⊹ azero,
              (azero : bindings) ⊹ azero) = (t' ⊹ t, ∅, ∅, ∅)).
    by rewrite !aplus_zero. }
  by rewrite Heq in Hadd.
Qed.

Lemma spent_eq t t' n n' (m : M) : spent (t, ∅, ∅, ∅) n m → t = t' → n = n' → spent (t', ∅, ∅, ∅) n' m.
Proof. by intros ? <- <-. Qed.

(** What a run of the retry loop leaves, after the attempts [before]. *)
Definition loop_post index item (before : list (O * option error)) (started : bool)
    (r : res (erasedItem dyn)) (m : M) : Prop :=
  ∃ t, spent (t, ∅, ∅, ∅) (charge * t_work t) m ∧
    (t_items t = 0 ∧ t_hits t = 0 ∧ t_misses t = 0 ∧ t_retries t ≤ t_work t ∧
     t_work t + N.of_nat (length before) ≤ Z.to_N (attempts runner) ∧
     t_started t = if started then 0 else flag (bool_decide (t_work t ≠ 0)))%N ∧ ends r t ∧
    match r with
    | Ok it =>
        (t_work t = t_retries t + 1)%N ∧ (t_stored t = flag (bool_decide (State (ei_outcome it) = CacheStored))) ∧
        ∃ value st quar skip outs, outcome_is index it value st quar skip ∧ st ≠ CacheHit ∧
          N.of_nat (length outs) = t_work t ∧ Forall (DoQ item) outs ∧
          resolves (before ++ outs) value st quar skip ∧ put_ok item value st
    | Err _ => True
    end.

(** Ending the loop after this attempt with a further account. *)
Lemma loop_post_end index item before (started : bool) (v : O) (err : option error) st
    (r : res (erasedItem dyn)) (n q s : N) (m m' : M) :
  spent ((Tally 0 0 0 0 1 (flag (negb started)) 0 0 0), ∅, ∅, ∅) charge m →
  spent (Tally 0 0 0 n 0 0 0 q s, ∅, ∅, ∅) 0 m' →
  (n ≤ 1)%N → (q + s ≤ 1)%N → (S (length before) ≤ Z.to_nat (attempts runner))%nat →
  DoQ item (v, err) →
  (∀ it, r = Ok it → ∃ value quar skip, outcome_is index it value st quar skip ∧ st ≠ CacheHit ∧
     n = flag (bool_decide (st = CacheStored)) ∧ q = flag (bool_decide (is_Some quar)) ∧ s = flag skip ∧
     resolves (before ++ [(v, err)]) value st quar skip ∧ put_ok item value st) →
  loop_post index item before started r (m' ⊹ m).
Proof.
  intros Hm Hm' Hn Hqs Hatt' HDo Hok.
  exists (Tally 0 0 0 n 0 0 0 q s ⊹ Tally 0 0 0 0 1 (flag (negb started)) 0 0 0). split; [|split; [|split]].
  - eapply spent_tally; [exact Hm'|exact Hm|]. simpl. lia.
  - simpl. split_and!; try lia. by destruct started.
  - split; [simpl; lia|]. destruct r as [it|]; [|done]. destruct (Hok it eq_refl) as (value & quar & skip & Hit & _ & _ & -> & -> & _ & _).
    destruct Hit as (_ & _ & _ & -> & -> & _). simpl. split; lia.
  - destruct r as [it|]; [|done]. destruct (Hok it eq_refl) as (value & quar & skip & Hit & Hst & -> & _ & _ & Hres' & Hput).
    simpl. split_and!; [done| |exists value, st, quar, skip, [(v, err)]; split_and!; try done; by apply Forall_singleton].
    destruct Hit as (_ & _ & -> & _). lia.
Qed.

(** Another attempt after a transient failure. *)
Lemma loop_post_retry index item before (started : bool) (v : O) (err : error) (r : res (erasedItem dyn)) (m m' : M) :
  spent ((Tally 0 0 0 0 1 (flag (negb started)) 1 0 0), ∅, ∅, ∅) charge m →
  DoQ item (v, Some err) →
  loop_post index item (before ++ [(v, Some err)]) true r m' →
  loop_post index item before started r (m' ⊹ m).
Proof.
  intros Hm HDo (t & Hm' & (Hi & Hh & Hmi & Hr & Hw & Hst) & Hends & Hok).
  exists (t ⊹ Tally 0 0 0 0 1 (flag (negb started)) 1 0 0). rewrite length_app in Hw. simpl in Hw.
  split; [|split; [|split]].
  - eapply spent_tally; [exact Hm'|exact Hm|]. simpl. lia.
  - simpl. split_and!; try lia. rewrite Hst. destruct started; [done|]. rewrite bool_decide_eq_true_2 by lia. done.
  - destruct Hends as [[? ?] Hends]. split; [simpl; lia|]. destruct r; [|done]. simpl. destruct Hends. split; lia.
  - destruct r as [it|]; [|done]. destruct Hok as (Hwr & Hsto & value & st & quar & skip & outs & Hit & Hne & Hlen & Hall & Hres' & Hput).
    simpl. split_and!; [lia|by rewrite N.add_0_r|].
    exists value, st, quar, skip, ((v, Some err) :: outs). split_and!; [done|done|simpl; lia|by constructor| |done].
    by rewrite <-app_assoc in Hres'.
Qed.

Lemma resolves_success before v : Forall retried before → resolves (before ++ [(v, None)]) (box v)
  (if cached then CacheStored else CacheNone) None false.
Proof. intros Hb. by exists before, (v, None). Qed.

Lemma resolves_fail before v err quar skip :
  Forall retried before → given_up (S (length before)) err quar skip →
  resolves (before ++ [(v, Some err)]) None CacheNone quar skip.
Proof.
  intros Hb Hg. exists before, (v, Some err). split_and!; try done.
  rewrite length_app. simpl. by rewrite Nat.add_1_r.
Qed.

Lemma loop_post_err index item before (started : bool) (err : error) (m : M) :
  spent azero 0 m → (length before ≤ Z.to_nat (attempts runner))%nat →
  loop_post index item before started (Err err) m.
Proof.
  intros Hm Hlen. exists azero. split; [by rewrite N.mul_0_r|]. split; [|split; [|done]].
  - simpl. split_and!; try lia. by destruct started.
  - split; [|done]. simpl. lia.
Qed.

Lemma first_attempt (before : list (O * option error)) :
  (Z.of_nat (S (length before)) =? 1) = bool_decide (before = []).
Proof.
  destruct before; [done|]. rewrite bool_decide_eq_false_2 by done. apply Z.eqb_neq. simpl length. lia.
Qed.

(** The account of an attempt up to its result. *)
Definition attempted (first : bool) (m : M) : Prop :=
  spent (Tally 0 0 0 0 1 (flag first) 0 0 0, ∅, ∅, ∅) charge m.

Lemma owns_attempt_once do c index item attempt :
  Do (step runner) = Some do →
  owns Inv (λ r m, match r with
                   | Ok out => attempted (attempt =? 1) m ∧ DoQ item out
                   | Err _ => attempted (attempt =? 1) m ∨ spent azero 0 m
                   end) (attempt_once runner do c index item attempt) azero.
Proof.
  intros HDo. eapply owns_rthen; [apply owns_admit_call| |intros err m Hm; by right].
  intros [] m0 Hm0. cbn [is_ok] in Hm0.
  eapply owns_then with (R := λ _ m, spent (Tally 0 0 0 0 0 (flag (attempt =? 1)) 0 0 0, ∅, ∅, ∅) 0 m).
  { destruct (attempt =? 1); [|by apply owns_ret].
    eapply owns_conseq; [apply owns_count, (adds_bump 0 0 0 0 0 1 0 0)|by intros [] m ->]. }
  intros [] m1 Hm1. eapply owns_then; [by eapply wb_do|]. intros out m2 [-> Hout].
  eapply owns_then; [apply owns_count, (adds_bump 0 0 0 0 1 0 0 0)|]. intros [] m3 ->.
  eapply owns_conseq with (Q := λ r m, m = azero ∧ ∀ o, r = Ok o → o = out).
  - apply owns_rquiet; [|intros _; apply owns_ret; split; [done|by intros o [= <-]]|done].
    destruct (AttemptMeter (step runner)); [apply quiet_add_meters|by apply owns_ret].
  - intros r m [-> Hr].
    assert (attempted (attempt =? 1) (azero ⊹ only (Tally 0 0 0 0 1 0 0 0 0) ⊹ azero ⊹ m1 ⊹ m0)) as Hm.
    { rewrite aplus_zero, aplus_zero_r. unfold attempted.
      replace (Tally 0 0 0 0 1 (flag (attempt =? 1)) 0 0 0)
        with (Tally 0 0 0 0 1 0 0 0 0 ⊹ Tally 0 0 0 0 0 (flag (attempt =? 1)) 0 0 0 ⊹ azero)
        by (by destruct (attempt =? 1)).
      eapply (spent_tally _ _ _ 0); [|exact Hm0|done]. by eapply (spent_tally _ _ _ 0); [|exact Hm1|]. }
    destruct r as [o|err]; [|by left]. split; [exact Hm|]. by rewrite (Hr o eq_refl).
Qed.

(** The end of an attempt that is not repeated. *)
Lemma owns_attempt_end c index item key digestValue before (started : bool) v (err : option error)
    (p : prog W (res (erasedItem dyn))) (m0 : M) :
  attempted (negb started) m0 → DoQ item (v, err) → (S (length before) ≤ Z.to_nat (attempts runner))%nat →
  Forall retried before → key_for item key digestValue →
  match err with
  | None => p = success runner c index v key digestValue
  | Some e => (∃ e', p = mret (Err e')) ∨
      (p = fail runner c index e (classifier runner e) (Z.of_nat (S (length before))) ∧
       class_valid (classifier runner e) = true ∧
       (classifier runner e = Transient → Z.of_nat (S (length before)) = attempts runner))
  end →
  owns Inv (λ r m, loop_post index item before started r (m ⊹ m0)) p azero.
Proof.
  intros Hm0 Hout Hlen Hb Hkey Hp. destruct err as [err|].
  - destruct Hp as [[e' ->]|(-> & Hval & Htr)].
    + apply owns_ret. by eapply (loop_post_end _ _ _ _ v (Some err) CacheNone _ 0 0 0).
    + eapply owns_conseq; [by apply owns_fail|]. intros r m (q & s & Hm & Hqs & Hok).
      eapply (loop_post_end _ _ _ _ v (Some err) CacheNone _ 0 q s); try done.
      intros it Hr. destruct (Hok it Hr) as (-> & -> & Hit & Hg).
      exists None, (ei_quarantined it), (ei_skipped it). split_and!; try done. by apply resolves_fail.
  - subst p. eapply owns_conseq; [by eapply owns_success|]. intros r m (n & Hm & Hn & Hok).
    eapply (loop_post_end _ _ _ _ v None _ _ n 0 0); try done.
    intros it Hr. destruct (Hok it Hr) as (-> & Hit & Hput).
    exists (box v), None, false. split_and!; try done; [by destruct cached|by apply resolves_success].
Qed.

Lemma loop_post_faulty_attempt index item before (started : bool) (err : error) (m : M) :
  attempted (negb started) m → (S (length before) ≤ Z.to_nat (attempts runner))%nat →
  loop_post index item before started (Err err) m.
Proof.
  intros Hm Hlen. eexists. split; [eapply spent_eq; [exact Hm|done|simpl; lia]|]. split; [|split; [|done]].
  - simpl. split_and!; try lia. by destruct started.
  - split; [|done]. simpl. lia.
Qed.

Lemma loop_post_faulty_retry index item before (started : bool) (err : error) (m : M) :
  spent (Tally 0 0 0 0 1 (flag (negb started)) 1 0 0, ∅, ∅, ∅) charge m →
  (S (length before) ≤ Z.to_nat (attempts runner))%nat →
  loop_post index item before started (Err err) m.
Proof.
  intros Hm Hlen. eexists. split; [eapply spent_eq; [exact Hm|done|simpl; lia]|]. split; [|split; [|done]].
  - simpl. split_and!; try lia. by destruct started.
  - split; [|done]. simpl. lia.
Qed.

Lemma owns_attempt_loop do c index item key digestValue more before delay :
  Do (step runner) = Some do → key_for item key digestValue → Forall retried before →
  (S (length before) + more = Z.to_nat (attempts runner))%nat →
  owns Inv (loop_post index item before (negb (bool_decide (before = []))))
    (attempt_loop Int63n runner do c index item key digestValue more (Z.of_nat (S (length before))) delay) azero.
Proof.
  intros HDo Hkey. revert before delay. induction more as [|more IH]; intros before delay Hb Hlen.
  all: cbn [attempt_loop]; set (started := negb (bool_decide (before = []))).
  all: assert ((Z.of_nat (S (length before)) =? 1) = negb started) as Hfirst
    by (unfold started; by rewrite first_attempt, negb_involutive).
  all: eapply owns_rthen; [by eapply owns_attempt_once| |]; rewrite Hfirst.
  all: try (intros err m [Hm|Hm]; [apply loop_post_faulty_attempt; [done|lia]|apply loop_post_err; [done|lia]]).
  all: intros [v [err|]] m0 [Hm0 Hout]; cbn [fst snd].
  2, 4: by apply (owns_attempt_end c index item key digestValue before started v None); (done || lia).
  all: apply owns_quiet; [apply quiet_read|]; intros [stop|];
    [by apply (owns_attempt_end c index item key digestValue before started v (Some err)); [..|left; eexists]; (done || lia)|].
  all: destruct (class_valid (classifier runner err)) eqn:Hval; cbn [negb];
    [|by apply (owns_attempt_end c index item key digestValue before started v (Some err)); [..|left; eexists]; (done || lia)].
  - replace (match classifier runner err with Transient => _ | _ => _ end) with
      (fail runner c index err (classifier runner err) (Z.of_nat (S (length before))))
      by (by destruct (classifier runner err)).
    apply (owns_attempt_end c index item key digestValue before started v (Some err)); try (done || lia). right. split_and!; [done|done|lia].
  - destruct (classifier runner err) eqn:Hclass.
    2-4: rewrite <-Hclass; apply (owns_attempt_end c index item key digestValue before started v (Some err)); try (done || lia); right;
         split_and!; rewrite ?Hclass; done.
    assert (retried (v, Some err)) as Hretried by (by exists err).
    eapply owns_then; [apply owns_count, adds_retry|]. intros [] m1 ->.
    assert (spent (Tally 0 0 0 0 1 (flag (negb started)) 1 0 0, ∅, ∅, ∅) charge (only (Tally 0 0 0 0 0 0 1 0 0) ⊹ m0)) as Hm1.
    { eapply spent_eq; [by eapply (spent_tally _ _ _ 0); [|exact Hm0|]|by destruct started|done]. }
    assert (∀ e', loop_post index item before started (Err e') (azero ⊹ only (Tally 0 0 0 0 0 0 1 0 0) ⊹ m0)) as Herr.
    { intros e'. rewrite aplus_zero. apply (loop_post_faulty_retry _ _ _ _ _ _ Hm1). lia. }
    apply owns_rquiet; [apply quiet_event| |apply Herr]. intros [].
    apply owns_rquiet; [apply quiet_back_off| |apply Herr]. intros [].
    eapply owns_conseq.
    + replace (Z.of_nat (S (length before)) + 1) with (Z.of_nat (S (length (before ++ [(v, Some err)]))))
        by (rewrite length_app; simpl; lia).
      apply IH; [by apply Forall_app; split; [|apply Forall_singleton]|].
      rewrite length_app. simpl. lia.
    + intros r m Hm. rewrite <-aplus_assoc. eapply loop_post_retry; [exact Hm1|exact Hout|].
      rewrite bool_decide_eq_false_2 in Hm; [exact Hm|]. by destruct before.
Qed.

(** ** Calls in flight *)

Definition leader (d : string) (id : nat) : racct := (azero, {[+ id +]}, {[+ d +]}, {[(d, id)]}).
Definition follower (d : string) (id : nat) : racct := (azero, ∅, ∅, {[(d, id)]}).

Lemma tally_unchanged (γ o : racct) : γ.1.1.1 = azero → (γ ⊹ o).1.1.1 = o.1.1.1.
Proof. intros Hγ. change ((γ ⊹ o).1.1.1) with (γ.1.1.1 ⊹ o.1.1.1). by rewrite Hγ, aplus_zero. Qed.

Lemma calls_ok_pending_lt s pend led known id :
  calls_ok s pend led known → id ∈ pend → (id < length (calls s))%nat.
Proof. intros Hk Hid. apply (co_pending _ _ _ _ Hk), lookup_lt_Some in Hid. done. Qed.

Lemma owns_join_call d :
  owns Inv (λ r m, m = (match r with inl id => follower d id | inr id => leader d id end, azero))
    (join_call runner d) azero.
Proof.
  apply owns_with_runner. intros s o s' r Hc Hm Hk Hin. rewrite aplus_zero in Hc, Hk.
  destruct (inflight s !! d) as [id|] eqn:Hid; apply list_elem_of_singleton in Hin as [= -> ->].
  - exists (follower d id). split_and!; [by rewrite tally_unchanged|done| |done]. destruct Hk as [Hp H1 Hl Hca Hkn Hinj].
    destruct o as [[[to po] lo] ko]. simpl in *.
    change (calls_ok s (∅ ⊎ po) (∅ ⊎ lo) ({[(d, id)]} ∪ ko)). rewrite !(left_id_L ∅ disj_union).
    split; try done. intros d' id' [[= -> ->]%elem_of_singleton|?]%elem_of_union; [done|by apply Hkn].
  - exists (leader d (length (calls s))). split_and!; [by rewrite tally_unchanged|done| |done].
    destruct Hk as [Hp H1 Hl Hca Hkn Hinj]. destruct o as [[[to po] lo] ko]. simpl in *.
    change (calls_ok (RState (counts s) (meters s) (<[d := length (calls s)]> (inflight s)) (calls s ++ [None]))
      ({[+ length (calls s) +]} ⊎ po) ({[+ d +]} ⊎ lo) ({[(d, length (calls s))]} ∪ ko)).
    assert (length (calls s) ∉ po) as Hnew.
    { intros Hid'%Hp%lookup_lt_Some. lia. }
    split; simpl.
    + intros id. destruct (decide (id = length (calls s))) as [->|Hne].
      * rewrite lookup_app_r, Nat.sub_diag by done. simpl. split; [multiset_solver|done].
      * split.
        -- intros Hcall. apply lookup_snoc_Some in Hcall as [[Hlt Hcall]|[? _]]; [|done].
           apply Hp in Hcall. multiset_solver.
        -- intros Hin. assert (id ∈ po) as Hin' by multiset_solver. apply Hp in Hin'.
           by apply lookup_app_l_Some.
    + intros id. specialize (H1 id). rewrite multiplicity_disj_union, multiplicity_singleton.
      case_decide as He; [|lia]. subst id. assert (multiplicity (length (calls s)) po = 0%nat); [|lia].
      destruct (multiplicity _ po) eqn:Hmu; [done|]. exfalso. apply Hnew. unfold elem_of, gmultiset_elem_of. lia.
    + intros d'. rewrite multiplicity_disj_union, multiplicity_singleton, Hl, dom_insert_L.
      destruct (decide (d' = d)) as [->|Hne].
      * rewrite (decide_False (P := d ∈ dom _)) by (by rewrite elem_of_dom, Hid; intros []).
        rewrite decide_True by set_solver. done.
      * destruct (decide (d' ∈ dom (inflight s))); [rewrite decide_True by set_solver; done|].
        rewrite decide_False by set_solver. done.
    + intros d' id' Hl'. destruct (decide (d' = d)) as [->|Hne].
      * rewrite lookup_insert_eq in Hl'. injection Hl' as <-. exists None. split; [|done].
        by rewrite lookup_app_r, Nat.sub_diag.
      * rewrite lookup_insert_ne in Hl' by done. destruct (Hca _ _ Hl') as (call & Hcall & Hok).
        exists call. split; [by apply lookup_app_l_Some|done].
    + intros d' id' [[= -> ->]%elem_of_singleton|Hin]%elem_of_union; [by rewrite lookup_insert_eq|].
      apply Hkn in Hin. rewrite lookup_insert_ne; [done|]. intros ->. congruence.
    + assert (∀ d' id', inflight s !! d' = Some id' → id' ≠ length (calls s)) as Hlt.
      { intros d' id' (call & Hcall%lookup_lt_Some & _)%Hca. lia. }
      intros d1 d2 id' H1' H2'. apply lookup_insert_Some in H1' as [[-> <-]|[? H1']];
        apply lookup_insert_Some in H2' as [[-> ?]|[? H2']]; try done.
      * by apply Hlt in H2'.
      * subst. by apply Hlt in H1'.
      * by eapply Hinj.
Qed.

Definition has_led (d : string) : racct := (azero, ∅, {[+ d +]}, ∅).

Lemma owns_publish_call d id r :
  call_ok d (call_of r) →
  owns Inv (λ _ m, m = (has_led d, azero)) (publish_call runner id r) (leader d id, azero).
Proof.
  intros Hr. apply owns_with_runner. intros s o s' [] Hc Hm Hk [= ->]%list_elem_of_singleton.
  exists (has_led d). destruct o as [[[to po] lo] ko].
  change (calls_ok s ({[+ id +]} ⊎ po) ({[+ d +]} ⊎ lo) ({[(d, id)]} ∪ ko)) in Hk.
  destruct Hk as [Hp H1 Hl Hca Hkn Hinj].
  assert (inflight s !! d = Some id) as Hid by (apply Hkn; set_solver).
  assert (id ∉ po) as Hnot.
  { intros Hin. specialize (H1 id). rewrite multiplicity_disj_union, multiplicity_singleton_eq in H1.
    unfold elem_of, gmultiset_elem_of in Hin. lia. }
  assert (id < length (calls s))%nat as Hlt.
  { assert (id ∈ {[+ id +]} ⊎ po) as Hin by multiset_solver. by apply Hp, lookup_lt_Some in Hin. }
  split_and!; [done|done| |done].
  change (calls_ok (RState (counts s) (meters s) (inflight s) (<[id := Some (call_of r)]> (calls s)))
            (∅ ⊎ po) ({[+ d +]} ⊎ lo) (∅ ∪ ko)).
  rewrite !(left_id_L ∅ disj_union), !(left_id_L ∅ union). split; simpl; try done.
  - intros id'. destruct (decide (id' = id)) as [->|Hne].
    + rewrite list_lookup_insert_eq by done. split; [done|]. by intros.
    + rewrite list_lookup_insert_ne by done. rewrite Hp. multiset_solver.
  - intros id'. specialize (H1 id'). rewrite multiplicity_disj_union in H1. lia.
  - intros d' id' Hd'. destruct (decide (id' = id)) as [->|Hne].
    + rewrite list_lookup_insert_eq by done. eexists. split; [done|]. intros x [= <-].
      by rewrite (Hinj d' d id).
    + rewrite list_lookup_insert_ne by done. by apply Hca.
  - intros d' id' Hin. apply Hkn. set_solver.
Qed.

(** ** The whole of [process] *)

(** How the counters of one item fit its outcome; [own] when its work, if any,
    was its own. *)
Definition fits (items : N) (own : bool) (r : res (erasedItem dyn)) t : Prop :=
  (t_items t = items ∧ t_work t ≤ Z.to_N (attempts runner) ∧ t_retries t ≤ t_work t ∧
   t_started t = flag (bool_decide (t_work t ≠ 0)) ∧ t_hits t + t_misses t ≤ flag cached)%N ∧
  ends r t ∧
  match r with
  | Ok it =>
      (t_hits t + t_misses t = flag cached ∧ (t_work t ≠ 0 → t_work t = t_retries t + 1) ∧
       t_hits t = flag (bool_decide (State (ei_outcome it) = CacheHit)) ∧
       (own = true → t_stored t = flag (bool_decide (State (ei_outcome it) = CacheStored))))%N
  | Err _ => True
  end.

(** [r] is the outcome of [item], at [index]. *)
Definition outcome_of index item (r : res (erasedItem dyn)) : Prop :=
  match r with
  | Ok it => ∃ value st quar skip, outcome_is index it value st quar skip ∧ settled item value st quar skip
  | Err _ => True
  end.

(** What resolving an item leaves: its counters, one charge of the budget per call
    of Do, and its key among the executed ones if it did not wait for a duplicate;
    the outcome is its own or that of an item with the same digest. *)
Definition resolved (items : N) index item (r : res (erasedItem dyn)) (m : M) : Prop :=
  ∃ t (led : gmultiset string) (known : bindings),
    m.1 = (t, ∅, led, known) ∧ m.2.1 = (0%N, (charge * t_work t)%N) ∧
    (led = ∅ ∨ ∃ d, item_digest item = Some d ∧ led = {[+ d +]}) ∧
    (t_work t ≠ 0%N → cached = true → led ≠ ∅) ∧
    fits items (negb cached || negb (bool_decide (led = ∅))) r t ∧
    (outcome_of index item r ∨
     led = ∅ ∧ ∃ item' d, item_digest item = Some d ∧ item_digest item' = Some d ∧ outcome_of index item' r).

Definition led_post index item (r : res (erasedItem dyn)) (m : M) : Prop :=
  ∃ t, spent (t, ∅, ∅, ∅) (charge * t_work t) m ∧ fits 0 true r t ∧ outcome_of index item r.

Lemma loop_led index item r (misses : N) (m : M) :
  misses = flag cached →
  loop_post index item [] false r m →
  led_post index item r (m ⊹ only (Tally 0 0 misses 0 0 0 0 0 0)).
Proof.
  intros Hmi (t & Hm & (Hi & Hh & Hmi' & Hr & Hw & Hst) & Hends & Hok).
  exists (t ⊹ Tally 0 0 misses 0 0 0 0 0 0). split; [|split; [split; [|split]|]].
  - eapply (spent_tally _ _ 0); [exact Hm|done|]. simpl. lia.
  - simpl in *. rewrite !N.add_0_r. split_and!; lia.
  - destruct Hends as [Hends Hr']. split; [simpl; lia|]. destruct r; [|done]. simpl. rewrite !N.add_0_r. done.
  - destruct r as [it|]; [|done]. destruct Hok as (Hwr & Hsto & value & st & quar & skip & outs & Hit & Hne & _).
    simpl. rewrite !N.add_0_r. split_and!; [rewrite Hh, Hmi'; lia|done| |done].
    destruct Hit as (_ & _ & -> & _). rewrite bool_decide_eq_false_2 by done. done.
  - destruct r as [it|]; [|done]. destruct Hok as (Hwr & Hsto & value & st & quar & skip & outs & Hit & Hne & Hlen & Hall & Hres' & Hput).
    exists value, st, quar, skip. split; [done|]. right. exists outs. split_and!; [done| |done|done]. simpl in Hw. lia.
Qed.

Lemma owns_work c index item key digestValue :
  is_Some (Do (step runner)) → key_for item key digestValue →
  owns Inv (loop_post index item [] false) (work Int63n runner c index item key digestValue) azero.
Proof.
  intros [do HDo] Hkey. unfold work. rewrite HDo.
  apply (owns_attempt_loop do c index item key digestValue _ [] (Base (backoff runner))); try done.
  simpl. lia.
Qed.

Lemma led_post_err index item (err : error) (m : M) (h mi : N) :
  spent (Tally 0 h mi 0 0 0 0 0 0, ∅, ∅, ∅) 0 m → (h + mi ≤ flag cached)%N → led_post index item (Err err) m.
Proof.
  intros Hm Hh. exists (Tally 0 h mi 0 0 0 0 0 0). split; [by eapply spent_eq; [exact Hm| |simpl; lia]|].
  split; [|done]. split; [simpl; split_and!; try lia; done|]. split; [|done]. split; [simpl; lia|done].
Qed.

Lemma owns_lead store c index item key digestValue :
  is_Some (Do (step runner)) → opt_Store (options runner) = Some store →
  key_for item (Some key) digestValue →
  owns Inv (led_post index item) (lead Int63n runner store c index item key digestValue) azero.
Proof.
  intros HDo Hstore (Hc & Hkey & Hd). assert (flag cached = 1%N) as Hone by by rewrite Hc.
  eapply owns_rthen with (R := λ r m, m = azero ∧ ∀ v, r = Ok (Some v) → LoadQ key v).
  { apply owns_faulty. eapply owns_conseq; [by apply (wb_load Hwb store)|].
    intros [] m [-> Hv]; split; [done|by intros ? [= ->]; apply Hv|done|done]. }
  2: { intros err m [-> _]. apply (led_post_err _ _ _ _ 0 0); [done|lia]. }
  intros [v|] m [-> Hv].
  - eapply owns_then; [apply owns_count, (adds_bump 0 1 0 0 0 0 0 0)|]. intros [] m ->.
    assert (∀ e', led_post index item (Err e') (azero ⊹ only (Tally 0 1 0 0 0 0 0 0 0) ⊹ azero)) as Herr.
    { intros e'. rewrite aplus_zero, aplus_zero_r. apply (led_post_err _ _ _ _ 1 0); [done|lia]. }
    apply owns_rquiet; [apply quiet_event| |apply Herr]. intros [].
    apply owns_rquiet; [apply quiet_notify| |apply Herr]. intros []. apply owns_ret.
    rewrite aplus_zero, aplus_zero_r. exists (Tally 0 1 0 0 0 0 0 0 0).
    split; [by apply (spent_eq (Tally 0 1 0 0 0 0 0 0 0) _ 0); [|done|rewrite N.mul_0_r]|]. split.
    + split; [simpl; split_and!; try lia; done|]. split; [split; [simpl; lia|done]|].
      simpl. split_and!; try lia; done.
    + exists (box v), CacheHit, None, false. split; [done|]. left. exists key, v. split_and!; try done. by apply Hv.
  - eapply owns_then; [apply owns_count, (adds_bump 0 0 1 0 0 0 0 0)|]. intros [] m ->.
    eapply owns_conseq; [by apply owns_work|]. intros r m Hm. rewrite aplus_zero_r. by apply loop_led.
Qed.

(** Waiting for a duplicate: the published call belongs to the same digest. *)
Lemma settled_reindex i item value st quar skip :
  settled item value st quar skip → settled item value st (set_Index i <$> quar) skip.
Proof.
  intros [(key & v & Hk & Hl & Hv & Hst & -> & Hsk & Hc)|(outs & Hall & Hlen & (before & [v [err|]] & Ho & Hb & Hl) & Hput)].
  - left. exists key, v. done.
  - right. exists outs. split_and!; try done. exists before, (v, Some err). split; [done|]. split; [done|].
    destruct Hl as (? & ? & Hval & Hf & Htr & Hmode). split_and!; try done. unfold given_up. split_and!; try done.
    destruct (OnError _); try done; [destruct Hmode as (-> & j & ->)|destruct Hmode as [-> ?]|destruct Hmode as (-> & j & ->)];
      (split; [done|by eauto]) || done.
  - right. exists outs. split_and!; try done. exists before, (v, None).
    destruct Hl as (? & ? & -> & ?). by split_and!.
Qed.

Lemma settled_flags item value st quar skip :
  settled item value st quar skip →
  (flag (bool_decide (is_Some quar)) + flag skip ≤ 1)%N ∧ (is_Some quar ∨ skip = true → st = CacheNone).
Proof.
  intros [(key & v & ? & ? & ? & -> & -> & -> & ?)|(outs & Hall & Hlen & (before & [v [err|]] & Ho & Hb & Hl) & Hput)].
  - split; [done|]. by intros [[]|].
  - destruct Hl as (? & -> & Hval & Hf & Htr & Hmode). split; [|done].
    destruct (OnError _); try done; [destruct Hmode as (-> & j & ->)|destruct Hmode as [-> ->]|destruct Hmode as (-> & j & ->)]; done.
  - destruct Hl as (? & -> & -> & ->). split; [done|]. by intros [[]|].
Qed.

Lemma owns_await_call c id d :
  owns Inv (λ r m, m = (follower d id, azero) ∧ ∀ call, r = Ok call → call_ok d call)
    (await (λ w,
      match world_ctx_err c w with Some e => [(w, Err e)] | None => [] end ++
      match wd_runners w !! state runner with
      | Some s => match calls s !! id with Some (Some call) => [(w, Ok call)] | _ => [] end
      | None => []
      end)) (follower d id, azero).
Proof.
  apply owns_await. intros w o w' r Hw Hin. pose proof Hw as [(s & Hs & Hc & Hm & Hk) _].
  rewrite Hs in Hin. exists (follower d id, azero).
  assert (inflight s !! d = Some id) as Hid.
  { apply (co_known _ _ _ _ Hk). destruct o as [[[[to po] lo] ko] o2].
    change ((d, id) ∈ {[(d, id)]} ∪ ko). set_solver. }
  apply elem_of_app in Hin as [Hin|Hin].
  - destruct (world_ctx_err c w); [|by apply elem_of_nil in Hin].
    by apply list_elem_of_singleton in Hin as [= -> ->].
  - destruct (calls s !! id) as [[call|]|] eqn:Hcall; try by apply elem_of_nil in Hin.
    apply list_elem_of_singleton in Hin as [= -> ->]. split_and!; [done|done|]. intros x [= <-].
    destruct (co_call _ _ _ _ Hk d id Hid) as (y & Hy & Hok). rewrite Hcall in Hy. injection Hy as <-. by apply Hok.
Qed.

(** The counters of a replicated outcome. *)
Definition follow_tally (call : inflightCall dyn) : tally :=
  match ic_quarantined call with
  | Some _ => Tally 0 0 1 0 0 0 0 1 0
  | None =>
      if ic_skipped call then Tally 0 0 1 0 0 0 0 0 1
      else if bool_decide (ic_state call = CacheHit) then Tally 0 1 0 0 0 0 0 0 0
      else Tally 0 0 1 0 0 0 0 0 0
  end.

Lemma adds_follow call : adds (replicate_outcome call).1 (follow_tally call).
Proof.
  unfold replicate_outcome, follow_tally. destruct (ic_quarantined call).
  { apply (adds_compose _ _ _ _ (adds_bump 0 0 1 0 0 0 0 0) (adds_bump 0 0 0 0 0 0 1 0)). }
  destruct (ic_skipped call).
  { apply (adds_compose _ _ _ _ (adds_bump 0 0 1 0 0 0 0 0) (adds_bump 0 0 0 0 0 0 0 1)). }
  case_bool_decide; [apply (adds_bump 0 1 0 0 0 0 0 0)|apply (adds_bump 0 0 1 0 0 0 0 0)].
Qed.

Lemma follow_fits call index item r :
  cached = true →
  settled item (ic_value call) (ic_state call) (ic_quarantined call) (ic_skipped call) →
  (∀ it, r = Ok it → ei_quarantined it = set_Index index <$> ic_quarantined call ∧
     ei_skipped it = ic_skipped call ∧ State (ei_outcome it) = ic_state call) →
  fits 0 false r (follow_tally call).
Proof.
  intros Hc Hset Hr. destruct (settled_flags _ _ _ _ _ Hset) as [Hfl Hnone].
  assert (∃ h mi q s, follow_tally call = Tally 0 h mi 0 0 0 0 q s ∧ (h + mi = 1)%N ∧ (q + s ≤ 1)%N ∧
    h = flag (bool_decide (ic_state call = CacheHit)) ∧
    q = flag (bool_decide (is_Some (ic_quarantined call))) ∧ s = flag (ic_skipped call))
    as (h & mi & q & s & -> & Hhm & Hqs & -> & -> & ->).
  { unfold follow_tally. destruct (ic_quarantined call) as [q|].
    { rewrite (Hnone ltac:(eauto)). exists 0%N, 1%N, 1%N, 0%N.
      destruct (ic_skipped call); simpl in *; [lia|]. split_and!; (done || lia). }
    destruct (ic_skipped call).
    { rewrite (Hnone ltac:(eauto)). exists 0%N, 1%N, 0%N, 1%N. split_and!; (done || lia). }
    destruct (bool_decide (ic_state call = CacheHit));
      [exists 1%N, 0%N, 0%N, 0%N|exists 0%N, 1%N, 0%N, 0%N]; split_and!; (done || lia). }
  unfold fits, ends. rewrite Hc. simpl. split_and!; try lia; try done.
  - destruct r as [it|]; [|done]. destruct (Hr it eq_refl) as (-> & -> & _). split; [|done].
    f_equal. apply bool_decide_ext. rewrite fmap_is_Some. done.
  - destruct r as [it|]; [|done]. destruct (Hr it eq_refl) as (_ & _ & ->). split_and!; done.
Qed.

Lemma owns_follow c index item id d :
  cached = true → item_digest item = Some d →
  owns Inv (resolved 0 index item) (follow runner c index id d) (follower d id, azero).
Proof.
  intros Hc Hd. unfold follow.
  assert (∀ (err : error) (m : M), m = (follower d id, azero) → resolved 0 index item (Err err) m) as Hstop.
  { intros err m ->. exists azero, ∅, {[(d, id)]}.
    split_and!; [done|by rewrite N.mul_0_r|by left|done| |by left].
    unfold fits, ends. simpl. split_and!; try lia; done. }
  eapply owns_rbind; [apply owns_await_call| |by intros err m [-> _]; apply Hstop].
  intros call m [-> Hcall]. specialize (Hcall call eq_refl).
  destruct (ic_err call) as [err|] eqn:Herr; [by apply owns_ret, Hstop|].
  destruct (Hcall Herr) as (item' & Hd' & Hset).
  pose proof (adds_follow call) as Hadds. destruct (replicate_outcome call) as [update eventType].
  set (it := ErasedItem index (ic_value call) _ _ _).
  rewrite <-(aplus_zero (follower d id, azero)).
  eapply owns_conseq; [apply owns_frame with (Q := λ r m, m = only (follow_tally call) ∧ ∀ x, r = Ok x → x = it)|].
  - eapply owns_then; [apply owns_count, Hadds|]. intros [] m ->.
    apply owns_rquiet; [apply quiet_event| |intros; rewrite aplus_zero; by split].
    intros []. destruct (flagged it); [apply owns_ret; rewrite aplus_zero; split; [done|by intros x [=]]|].
    apply owns_rquiet; [apply quiet_notify| |intros; rewrite aplus_zero; by split].
    intros []. apply owns_ret. rewrite aplus_zero. split; [done|by intros x [=]].
  - intros r m (m' & -> & -> & Hr).
    exists (follow_tally call ⊹ azero), ∅, {[(d, id)]}. split_and!.
    + change ((follow_tally call ⊹ azero, (∅ : gmultiset nat) ⊎ ∅, (∅ : gmultiset string) ⊎ ∅,
               (∅ : bindings) ∪ {[(d, id)]}) = (follow_tally call ⊹ azero, ∅, ∅, {[(d, id)]})).
      by rewrite !(left_id_L ∅ disj_union), !(left_id_L ∅ union).
    + rewrite aplus_zero_r. unfold follow_tally. repeat case_match; by rewrite N.mul_0_r.
    + by left.
    + rewrite aplus_zero_r. unfold follow_tally. by repeat case_match.
    + rewrite aplus_zero_r, Hc. apply (follow_fits call index item'); [done|done|].
      intros x Hx. rewrite (Hr x Hx). split_and!; [done|done|]. simpl. by case_bool_decide.
    + right. split; [done|]. exists item', d. split_and!; [done|done|]. destruct r as [x|]; [|done].
      rewrite (Hr x eq_refl). eexists _, _, _, _. split; [|by apply (settled_reindex index)].
      split_and!; try done; [simpl; by case_bool_decide|].
      intros q Hq. destruct (ic_quarantined call); [|done]. by injection Hq as <-.
Qed.

Lemma resolved_led index item r d (m : M) :
  item_digest item = Some d → cached = true → led_post index item r m →
  resolved 0 index item r (m ⊹ (has_led d, azero)).
Proof.
  intros Hd Hc (t & Hm & Hfit & Hout). exists t, {[+ d +]}, ∅.
  assert (spent (has_led d) 0 (has_led d, azero)) as Hled by done.
  destruct (spent_add _ _ _ _ _ _ Hm Hled) as [Hm1 Hm2]. split_and!.
  - rewrite Hm1.
    change ((t ⊹ azero, (∅ : gmultiset nat) ⊎ ∅, (∅ : gmultiset string) ⊎ {[+ d +]}, (∅ : bindings) ∪ ∅)
            = (t, ∅, {[+ d +]}, ∅)).
    by rewrite aplus_zero_r, !(left_id_L ∅ disj_union), !(left_id_L ∅ union).
  - by rewrite Hm2, N.add_0_r.
  - right. by exists d.
  - intros _ _. multiset_solver.
  - rewrite Hc. rewrite bool_decide_eq_false_2; [done|]. multiset_solver.
  - by left.
Qed.

Lemma resolved_item index item r (m : M) :
  resolved 0 index item r m → resolved 1 index item r (m ⊹ only (Tally 1 0 0 0 0 0 0 0 0)).
Proof.
  intros (t & led & known & Hm & Hn & Hled & Hwork & Hfit & Hout).
  exists (t ⊹ Tally 1 0 0 0 0 0 0 0 0), led, known.
  assert (spent (t, ∅, led, known) (charge * t_work t) m) as Hspent by done.
  assert (spent (Tally 1 0 0 0 0 0 0 0 0, ∅, ∅, ∅) 0 (only (Tally 1 0 0 0 0 0 0 0 0))) as Hone by done.
  destruct (spent_add _ _ _ _ _ _ Hspent Hone) as [Hm1 Hm2].
  assert (∀ x, (x + 0)%N = x) as Hzero by lia.
  split_and!; try done.
  - rewrite Hm1.
    change ((t ⊹ Tally 1 0 0 0 0 0 0 0 0, (∅ : gmultiset nat) ⊎ ∅, led ⊎ ∅, known ∪ ∅)
            = (t ⊹ Tally 1 0 0 0 0 0 0 0 0, ∅, led, known)).
    by rewrite !(right_id_L ∅ disj_union), (right_id_L ∅ union).
  - rewrite Hm2. simpl. by rewrite !Hzero.
  - simpl. by rewrite Hzero.
  - destruct Hfit as ((Hi & Hw & Hr & Hs & Hh) & [[Hst Hq] Hends] & Hok). unfold fits, ends. simpl.
    rewrite !Hzero. split_and!; try lia; by destruct r.
Qed.

Lemma resolved_error items index item (err : error) :
  (items ≤ 0)%N → resolved items index item (Err err) azero.
Proof.
  intros Hi. exists azero, ∅, ∅. split_and!; [done|by rewrite N.mul_0_r|by left|done| |by left].
  unfold fits, ends. simpl. split_and!; try lia; done.
Qed.

Lemma resolved_work index item r (m : M) :
  cached = false → loop_post index item [] false r m → resolved 0 index item r m.
Proof.
  intros Hc Hm. destruct (loop_led index item r 0 m ltac:(by rewrite Hc) Hm) as (t & Hm' & Hfit & Hout).
  change (only (Tally 0 0 0 0 0 0 0 0 0)) with (azero : M) in Hm'. rewrite aplus_zero_r in Hm'. exists t, ∅, ∅. destruct Hm' as [-> Hn]. split_and!; try done.
  - by left.
  - by rewrite Hc.
  - by rewrite Hc.
  - by left.
Qed.

(** One call of [process], among any others. *)
Lemma owns_process c index item :
  is_Some (Do (step runner)) →
  owns Inv (resolved 1 index item) (process Int63n runner c index item) azero.
Proof.
  intros HDo. unfold process. eapply owns_then; [apply owns_count, (adds_bump 1 0 0 0 0 0 0 0)|].
  intros [] m ->. eapply owns_conseq with (Q := resolved 0 index item); [|intros r m; apply resolved_item].
  assert (cached = false → owns Inv (resolved 0 index item) (work Int63n runner c index item None "") azero) as Hwork.
  { intros Hc. eapply owns_conseq; [by apply owns_work|]. intros r m. by apply resolved_work. }
  destruct (opt_Store (options runner)) as [store|] eqn:Hstore; [|apply Hwork; unfold cached; by rewrite Hstore].
  case_decide as Hkind; [apply Hwork; unfold cached; by rewrite Hstore, Hkind|].
  assert (cached = true) as Hc by (unfold cached; rewrite Hstore, bool_decide_eq_false_2; done).
  destruct (Step_Key (step runner) item) as [key|err] eqn:Hkey; [|apply owns_ret, resolved_error; done].
  destruct (Key_Digest key) as [d|err] eqn:Hd; [|apply owns_ret, resolved_error; done].
  assert (item_digest item = Some d) as Hdig by (unfold item_digest; by rewrite Hkey, Hd).
  eapply owns_bind'; [apply owns_join_call|]. intros [id|id] m ->; [by apply owns_follow|].
  rewrite <-(aplus_zero (leader d id, azero)).
  eapply owns_bind'; [apply owns_frame, (owns_lead store c index item key d HDo Hstore); done|].
  intros r m (m' & -> & Hled).
  rewrite aplus_comm. eapply owns_bind'; [apply owns_frame, owns_publish_call|].
  - intros Herr. destruct r as [it|]; [|done]. destruct Hled as (t & _ & _ & (value & st & quar & skip & Hit & Hset)).
    exists item. split; [done|]. simpl. destruct Hit as (_ & -> & -> & -> & -> & _). done.
  - intros [] m (m'' & -> & ->). apply owns_ret. rewrite aplus_comm. by apply resolved_led.
Qed.

(** ** Many items at once *)

Context (Env : W → W → Prop) (Henv_ok : ∀ w w' m, Inv w m → Env w w' → Inv w' m).
Context (HDo : is_Some (Do (step runner))).

(** A request: the context, the position and the item. *)
Notation request := (ctx * nat * I)%type.
Definition process_of (q : request) : prog W (res (erasedItem dyn)) := process Int63n runner q.1.1 q.1.2 q.2.

Definition racct_tally (m : M) : tally := m.1.1.1.1.
Definition racct_led (m : M) : gmultiset string := m.1.1.2.

Lemma total_proj {N'} `{Account N'} (f : M → N') (γs : list M) :
  f azero = azero → (∀ x y, f (x ⊹ y) = f x ⊹ f y) → f (total γs) = total (f <$> γs).
Proof. intros H0 Hplus. induction γs as [|γ γs IH]; simpl; [done|]. by rewrite Hplus, IH. Qed.

Lemma process_pool w (qs : list request) w' rs :
  Inv w azero → length qs = length rs →
  rtc (pool_step Env) (w, process_of <$> qs) (w', Ret <$> rs) →
  ∃ γs : list M, Inv w' (total γs) ∧ length γs = length qs ∧
    ∀ i q r (m : M), qs !! i = Some q → rs !! i = Some r → γs !! i = Some m → resolved 1 q.1.2 q.2 r m.
Proof.
  intros Hw Hlen Hsteps.
  destruct (pool_adequate Env Inv (λ i r (m : M), ∀ q, qs !! i = Some q → resolved 1 q.1.2 q.2 r m) Henv_ok
              w (process_of <$> qs) (replicate (length qs) azero) w' rs) as (γs & Hw' & Hl & HQ); [|done|].
  - split; [by rewrite total_replicate|]. split; [simpl; by rewrite length_replicate, length_fmap|].
    intros i p γ Hp Hγ. apply lookup_replicate in Hγ as [-> _]. simpl in Hp.
    apply list_lookup_fmap_Some in Hp as (q & -> & Hq).
    eapply owns_conseq; [by apply owns_process|]. intros r m Hr q' Hq'. rewrite Hq in Hq'. by injection Hq' as <-.
  - exists γs. split_and!; [done|by rewrite Hl|]. intros i q r m Hq Hr Hm. by eapply HQ.
Qed.

(** Accounts of resolved items: nothing left to publish, one charge per call. *)
Definition paid (m : M) : Prop :=
  m.1.1.1.2 = ∅ ∧ m.2.1 = (0%N, (charge * t_work (racct_tally m))%N).

Lemma paid_total (γs : list M) : Forall paid γs → paid (total γs).
Proof.
  induction 1 as [|m γs [Hp Hn] _ [IHp IHn]]; [split; [done|by rewrite N.mul_0_r]|].
  destruct m as [[[[t p] l] k] [[h s] f]]. unfold paid, racct_tally in *. simpl in *. subst p.
  destruct (total γs) as [[[[t' p'] l'] k'] [[h' s'] f']]. simpl in *. subst p'. simplify_eq. split.
  - change ((∅ : gmultiset nat) ⊎ ∅ = ∅). by rewrite (left_id_L ∅ disj_union).
  - change ((0 + 0, charge * t_work t + charge * t_work t') = (0, charge * (t_work t + t_work t')))%N.
    f_equal. lia.
Qed.

Lemma led_disjoint w (γs : list M) i j (γi γj : M) d :
  Inv w (total γs) → γs !! i = Some γi → γs !! j = Some γj → i ≠ j →
  d ∈ racct_led γi → d ∈ racct_led γj → False.
Proof.
  intros [(s & _ & _ & _ & Hk) _] Hi Hj Hne Hdi Hdj.
  pose proof (co_led _ _ _ _ Hk d) as Hled.
  rewrite (total_lookup _ _ _ Hi) in Hled.
  assert (∃ j', delete i γs !! j' = Some γj) as [j' Hj'].
  { destruct (decide (j < i)%nat); [exists j; by rewrite list_lookup_delete_lt|].
    exists (j - 1)%nat. rewrite list_lookup_delete_ge by lia. rewrite <-Hj. f_equal. lia. }
  rewrite (total_lookup _ _ _ Hj') in Hled.
  change ((γi ⊹ (γj ⊹ total (delete j' (delete i γs)))).1.1.2)
    with (racct_led γi ⊎ (racct_led γj ⊎ racct_led (total (delete j' (delete i γs))))) in Hled.
  rewrite !multiplicity_disj_union in Hled. unfold elem_of, gmultiset_elem_of in Hdi, Hdj.
  case_decide; lia.
Qed.

(** A run of the stage begins: a fresh runner, and a budget that is not overdrawn. *)
Definition begins w : Prop :=
  wd_runners w !! state runner = Some new_rstate ∧
  (∃ env, ew_envs (wd_env w) !! e = Some env ∧ L ⊆ limiters env ∧ B ⊆ budgets env) ∧
  lw_budgets (ew_limits (wd_env w)) !! b = Some x0 ∧ 0 ≤ remaining x0 ≤ max64.

Lemma Inv_begins w : begins w → Inv w azero.
Proof.
  intros (Hs & Henvs & Hb & Hr). split; [|split; [by apply budget_inv_open|done]].
  exists new_rstate. split_and!; [done|apply counts_show_zero|done|]. split; simpl.
  - intros id. change (@gmultiset nat _ _) with (gmultiset nat). split; [done|].
    intros Hin. change (id ∈ (∅ : gmultiset nat)) in Hin. multiset_solver.
  - intros id. change (multiplicity id (∅ : gmultiset nat) ≤ 1)%nat. rewrite multiplicity_empty. lia.
  - intros d. change (multiplicity d (∅ : gmultiset string) = if decide (d ∈ dom (∅ : gmap string nat)) then 1%nat else 0%nat).
    by rewrite multiplicity_empty, decide_False by set_solver.
  - done.
  - intros d id Hin. change ((d, id) ∈ (∅ : bindings)) in Hin. set_solver.
  - done.
Qed.

(** The counters of one processed item. *)
Definition item_tally (r : res (erasedItem dyn)) t : Prop := fits 1 (bool_decide (t_work t ≠ 0%N)) r t.

Lemma resolved_tally index item r (m : M) :
  resolved 1 index item r m → item_tally r (racct_tally m).
Proof.
  intros (t & led & known & Hm & _ & _ & Hwork & (Hn & He & Hok) & _). unfold racct_tally. rewrite Hm. simpl.
  split; [done|]. split; [done|]. destruct r as [it|]; [|done].
  destruct Hok as (? & ? & ? & Hst). split_and!; [done|done|done|].
  intros Hw%bool_decide_eq_true. apply Hst. destruct cached; [|done]. simpl.
  rewrite bool_decide_eq_false_2; [done|]. by apply Hwork.
Qed.

(** What an item resolved to. *)
Definition item_outcome index item (it : erasedItem dyn) : Prop :=
  ∃ item' value st quar skip,
    outcome_is index it value st quar skip ∧ settled item' value st quar skip ∧
    (item' = item ∨ ∃ d, item_digest item = Some d ∧ item_digest item' = Some d).

Lemma resolved_item_outcome index item it (m : M) :
  resolved 1 index item (Ok it) m → item_outcome index item it.
Proof.
  intros (t & led & known & _ & _ & _ & _ & _ & Hout).
  destruct Hout as [(value & st & quar & skip & Hit & Hset)|(_ & item' & d & Hd & Hd' & (value & st & quar & skip & Hit & Hset))].
  - exists item, value, st, quar, skip. auto.
  - exists item', value, st, quar, skip. split_and!; eauto.
Qed.

(** The report of a stage that has resolved its items. *)
Definition stage_counted (w' : W) (qs : list request) (rs : list (res (erasedItem dyn))) : Prop :=
  ∃ s x (ts : list tally),
    wd_runners w' !! state runner = Some s ∧ lw_budgets (ew_limits (wd_env w')) !! b = Some x ∧
    length ts = length qs ∧ counts_show (counts s) (total ts) ∧
    0 ≤ remaining x ∧ remaining x = remaining x0 - Z.of_N (charge * t_work (total ts)) ∧
    (∀ i r t, rs !! i = Some r → ts !! i = Some t → item_tally r t) ∧
    (∀ i j qi qj ti tj d, i ≠ j → cached = true →
       qs !! i = Some qi → qs !! j = Some qj → ts !! i = Some ti → ts !! j = Some tj →
       item_digest qi.2 = Some d → item_digest qj.2 = Some d → t_work ti = 0%N ∨ t_work tj = 0%N) ∧
    (∀ id, calls s !! id ≠ Some None).

Lemma resolved_counts w' (qs : list request) rs (γs : list M) :
  Inv w' (total γs) → length γs = length qs → length qs = length rs →
  (∀ i q r (m : M), qs !! i = Some q → rs !! i = Some r → γs !! i = Some m → resolved 1 q.1.2 q.2 r m) →
  stage_counted w' qs rs.
Proof.
  intros Hinv Hl Hlen HQ.
  assert (∀ i (γ : M), γs !! i = Some γ → ∃ q r, qs !! i = Some q ∧ rs !! i = Some r ∧ resolved 1 q.1.2 q.2 r γ) as Hall.
  { intros i γ Hγ. pose proof (lookup_lt_Some _ _ _ Hγ) as Hlt.
    destruct (lookup_lt_is_Some_2 qs i ltac:(lia)) as [q Hq]. destruct (lookup_lt_is_Some_2 rs i ltac:(lia)) as [r Hr].
    exists q, r. split_and!; [done|done|by eapply HQ]. }
  pose proof Hinv as [(s & Hs & Hc & _ & Hk) [(_ & _ & x & Hx & _ & Hpos & Hsum) _]].
  assert (racct_tally (total γs) = total (racct_tally <$> γs)) as Htotal by (by apply total_proj).
  assert (paid (total γs)) as [Hpend Hpaid].
  { apply paid_total, Forall_lookup. intros i γ Hγ. destruct (Hall i γ Hγ) as (q & r & _ & _ & Hres').
    destruct Hres' as (t & led & known & Hm & Hn & _). unfold paid, racct_tally. by rewrite Hm. }
  exists s, x, (racct_tally <$> γs). split_and!; [done|done|by rewrite length_fmap| |done| | | |].
  - rewrite <-Htotal. exact Hc.
  - rewrite <-Htotal. rewrite Hpaid in Hsum. simpl in Hsum. lia.
  - intros i r t Hr Ht. apply list_lookup_fmap_Some in Ht as (γ & -> & Hγ).
    destruct (Hall i γ Hγ) as (q & r' & Hq & Hr' & Hres'). simplify_eq. by eapply resolved_tally.
  - intros i j qi qj ti tj d Hne Hcached Hqi Hqj Hti Htj Hdi Hdj.
    apply list_lookup_fmap_Some in Hti as (γi & -> & Hγi). apply list_lookup_fmap_Some in Htj as (γj & -> & Hγj).
    destruct (decide (t_work (racct_tally γi) = 0%N)) as [|Hi]; [by left|].
    destruct (decide (t_work (racct_tally γj) = 0%N)) as [|Hj]; [by right|]. exfalso.
    assert (∀ k qk (γk : M), qs !! k = Some qk → γs !! k = Some γk → item_digest qk.2 = Some d →
              t_work (racct_tally γk) ≠ 0%N → d ∈ racct_led γk) as Hin.
    { intros k qk γk Hqk Hγk Hdk Hne0. destruct (Hall k γk Hγk) as (q & r & Hq & _ & Hres'). simplify_eq.
      destruct Hres' as (t & led & known & Hm & _ & Hled & Hwork & _). unfold racct_tally, racct_led in *.
      rewrite Hm in *. simpl in *. destruct Hled as [->|(d' & Hd' & ->)]; [by destruct (Hwork Hne0 Hcached)|].
      assert (d' = d) as -> by congruence. multiset_solver. }
    by eapply (led_disjoint w' γs i j γi γj d); eauto.
  - intros id Hid. apply (co_pending _ _ _ _ Hk) in Hid. rewrite Hpend in Hid. multiset_solver.
Qed.

(** C5: What a stage makes of its items, however many workers process them and
    whatever runs in between: a result is at the position of its item, and it is
    either a value the store had for the item's key, or what the item's attempts
    resolve to under the step's policy (the first success; or the first failure
    that is not transient, or the last allowed one, quarantined or skipped as the
    policy says, never for a fatal class or under fail-fast), with every retry
    following a transient failure and no more attempts than allowed.  An item that
    shares its digest with another may have that item's outcome instead. *)
Theorem process_resolves w (qs : list request) w' rs i c index item it :
  begins w → length qs = length rs →
  rtc (pool_step Env) (w, process_of <$> qs) (w', Ret <$> rs) →
  qs !! i = Some (c, index, item) → rs !! i = Some (Ok it) → item_outcome index item it.
Proof.
  intros Hw Hlen Hsteps Hq Hr.
  destruct (process_pool w qs w' rs (Inv_begins w Hw) Hlen Hsteps) as (γs & _ & Hl & HQ).
  destruct (lookup_lt_is_Some_2 γs i) as [γ Hγ]; [rewrite Hl; by eapply lookup_lt_Some|].
  eapply resolved_item_outcome, (HQ i _ _ γ Hq Hr Hγ).
Qed.

(** C4: The report of a stage is exact.  Once every item has been processed, each
    counter is the sum of the items' own tallies: an item counts once; it is a hit
    or a miss in a cached stage and neither otherwise; a hit exactly if its result
    says so; quarantined or skipped exactly if its result is; a sequence was
    started if there was a call of Do, and each further call is a retry; and every
    call of Do took exactly one charge of each admission resource from the budget,
    which is never overdrawn, refused admissions and cache hits taking nothing.  Of
    the items with one digest at most one is worked on, and no call is left
    unpublished for its duplicates. *)
Theorem process_counts w (qs : list request) w' rs :
  begins w → length qs = length rs →
  rtc (pool_step Env) (w, process_of <$> qs) (w', Ret <$> rs) →
  stage_counted w' qs rs.
Proof.
  intros Hw Hlen Hsteps.
  destruct (process_pool w qs w' rs (Inv_begins w Hw) Hlen Hsteps) as (γs & Hinv & Hl & HQ).
  by eapply resolved_counts.
Qed.
End accounting.

(** ** A report read while the stage runs *)

Section torn.
#[local] Program Instance unit_boxed : Boxed unit unit :=
  {| box _ := Some tt; unbox o := o; zero_value := tt; type_name := "struct {}" |}.
Solve All Obligations with by repeat intros [].
#[local] Instance unit_codec : Codec unit := {| Json.encode _ := Ok (JObj []); Json.decode _ _ := Ok tt |}.

Definition torn_runner : typedRunner unit unit unit unit unit :=
  TypedRunner (MkStep "judge" (MkIdentity "" "" None)
                 (MkPolicy 2 [] (MkRetrySpec 3 (MkBackoff 1 1) None) FailFast) false None None None None)
    (MkOptions None None None 0 None None ∅ None None) (λ _, Transient) (MkBackoff 1 1) 3 2 [] 0.

(** The runner after one retry. *)
Definition torn_world (n : nat) : world unit unit unit :=
  World (EnvW (Limits (Ctxs ∅ 0) [] [] [] tt) [])
    [RState (Nat.iter n (one_retry "transient") zero_report) ∅ ∅ []] [] 0 0 tt.

(** A report is not a snapshot: the map of retries by class is read after the
    mutex was released, so that a report taken while another worker retries counts
    one retry and lists two. *)
Theorem report_torn :
  ∃ r, rtc (pool_step (λ w w', (w', tt) ∈ outcomes (count torn_runner (one_retry "transient")) w))
         (torn_world 1, [report torn_runner]) (torn_world 2, [Ret ("judge", r)]) ∧
       Retries r = 1 ∧ RetriesByClass r = Some {["transient" := 2]}.
Proof.
  eexists. split; [|shelve].
  eapply rtc_l. { eapply (pool_act _ _ _ 0); [reflexivity|]. by left. }
  eapply rtc_l. { apply (pool_env _ _ (torn_world 2)). vm_compute. by left. }
  eapply rtc_l. { eapply (pool_act _ _ _ 0); [reflexivity|]. by left. }
  apply rtc_refl.
  Unshelve. by split.
Qed.
End torn.
(** ** A concrete stage *)

Section example.

(** A cached step over strings that upper-cases nothing: it answers its item, one
    "judge" admission per call, with the in-memory store. *)
#[local] Program Instance string_boxed : Boxed string string :=
  {| box s := Some s; unbox o := o; zero_value := ""; type_name := "string" |}.
Solve All Obligations with by intros; simplify_eq.
#[local] Instance string_codec : Codec string := {|
  Json.encode s := Ok (JStr s);
  Json.decode _ text := match parse_top text with
                        | Some t => match t_value t with JStr s => Ok s | _ => Err syntax_error end
                        | None => Err syntax_error
                        end |}.
Notation W := (world string unit memw).

Definition memory_store : Store string unit memw :=
  MkStore (λ V codec c key, zoom (MemoryStore_Load c key)) (λ V codec c key v, zoom (MemoryStore_Store c key v)).
Definition answer (c : ctx) (item : string) : prog W (string * option error) := mret (item, None).
Definition answer_step : Step string unit memw string string :=
  MkStep "judge" (MkIdentity "judge" "v1" (Some (λ item, Ok item)))
    (MkPolicy 2 [judge] (MkRetrySpec 3 (MkBackoff 1 1) None) FailFast) false (Some answer) None None None.
Definition answer_options : Options string unit memw :=
  MkOptions (Some memory_store) None None 0 None None ∅ (Some 0%nat) None.
Definition answer_runner : typedRunner string unit memw string string :=
  TypedRunner answer_step answer_options (λ _, Fatal) (MkBackoff 1 1) 3 2 ["judge"] 0.
Definition answer_world : W :=
  World shared_world [new_rstate] [] 0 0 no_entries.

(** What the in-memory store accepts: a value that can be encoded under a key that
    has a digest. *)
Definition accepted (key : Key) (v : string) : Prop :=
  ∃ d j, Key_Digest key = Ok d ∧ Json.encode v = Ok j.

(** Any function of the caller's own state leaves the runner and the budget alone. *)
Lemma quiet_user_post (runner : typedRunner string unit memw string string) {A} (Q : A → Prop) (p : prog memw A) :
  owns (λ _ (_ : unit), True) (λ a _, Q a) p tt →
  owns (Inv runner 0 0 (Budget 10 10) (limiters after) (budgets after) (λ item out, out = (item, None)) (λ _ _, True) accepted)
    (λ a m, m = azero ∧ Q a) (zoom p) azero.
Proof.
  intros Hp. eapply owns_conseq.
  - apply (owns_zoom (λ _ (_ : unit), True) _ (λ _ : unit, azero) (λ a _, Q a) p tt); [|exact Hp].
    intros w m o Hw. by exists tt.
  - intros a m ([] & -> & HQ). by split.
Qed.

Lemma owns_anything {W A} (p : prog W A) : owns (λ _ (_ : unit), True) (λ _ _, True) p tt.
Proof. induction p as [a|X act k IH]; [done|]. intros w o _ w' x _. exists tt. split; [done|apply IH]. Qed.

Lemma quiet_user (runner : typedRunner string unit memw string string) {A} (p : prog memw A) :
  owns (Inv runner 0 0 (Budget 10 10) (limiters after) (budgets after) (λ item out, out = (item, None)) (λ _ _, True) accepted)
    (λ _ m, m = azero) (zoom p) azero.
Proof. eapply owns_conseq; [apply quiet_user_post, owns_anything|]. by intros a m [-> _]. Qed.

Lemma quiet_put (runner : typedRunner string unit memw string string) c key v :
  owns (Inv runner 0 0 (Budget 10 10) (limiters after) (budgets after) (λ item out, out = (item, None)) (λ _ _, True) accepted)
    (λ r m, m = azero ∧ (r = Ok tt → accepted key v)) (Put memory_store string c key v) azero.
Proof.
  apply (quiet_user_post runner (λ r, r = Ok tt → accepted key v)). unfold MemoryStore_Store.
  eapply owns_rbind with (R := λ _ _, True); [apply owns_anything| |done]. intros [] [] _.
  destruct (Key_Digest key) as [d|err] eqn:Hd; [|by apply owns_ret].
  destruct (Json.encode v) as [j|err] eqn:Hj; [|by apply owns_ret].
  eapply owns_bind' with (λ _ _, True); [apply owns_anything|]. intros [] [] _. apply owns_ret. intros _. by exists d, j.
Qed.

Lemma answer_well_behaved (runner : typedRunner string unit memw string string) :
  step runner = answer_step → options runner = answer_options →
  well_behaved runner 0 0 (Budget 10 10) (limiters after) (budgets after) (λ item out, out = (item, None)) (λ _ _, True) accepted.
Proof.
  intros Hs Ho. split; rewrite ?Hs, ?Ho; try done.
  - intros do c item [= <-]. by apply owns_ret.
  - intros store c key [= <-]. eapply owns_conseq; [apply quiet_user|]. done.
  - intros store c key item v [= <-] _ _. by apply quiet_put.
Qed.

Definition three_items : list (ctx * nat * string) :=
  [([0%nat], 0%nat, "why"); ([0%nat], 1%nat, "why"); ([0%nat], 2%nat, "how")].

Notation of_request := (process_of (λ _ _, 0) answer_runner).

(** The second item joins the call of the first while that is running. *)
Definition joined : list nat :=
  [0; 0; 0; 0; 1; 1]%nat ++ replicate 14 0%nat ++ replicate 2 1%nat ++ replicate 18 2%nat.
Definition nobody_else : W → W → Prop := λ _ _, False.

Definition digest_of (item : string) : string :=
  match Key_Digest (MkKey "judge" "v1" (Bytes item)) with Ok d => d | Err _ => "" end.
Definition stored_item (index : nat) (item : string) : res (erasedItem string) :=
  Ok (ErasedItem index (Some item) (MkOutcome (digest_of item) CacheStored) None false).
Definition three_results : list (res (erasedItem string)) :=
  [stored_item 0 "why"; stored_item 1 "why"; stored_item 2 "how"].

Lemma three_run :
  ∃ w', rtc (pool_step nobody_else) (answer_world, of_request <$> three_items) (w', Ret <$> three_results).
Proof.
  destruct (replay_pool joined (answer_world, of_request <$> three_items))
    as [[w' ps]|] eqn:Hr; [|vm_compute in Hr; discriminate Hr].
  pose proof (replay_pool_steps nobody_else _ _ _ Hr) as Hsteps.
  assert (ps = Ret <$> three_results) as -> by (vm_compute in Hr; injection Hr as _ <-; vm_compute; reflexivity).
  by exists w'.
Qed.

Lemma answer_begins : begins answer_runner 0 0 (Budget 10 10) (limiters after) (budgets after) answer_world.
Proof.
  split; [reflexivity|]. split; [exists after; split_and!; [reflexivity|done|done]|].
  split; [reflexivity|]. unfold max64; simpl; lia.
Qed.

Lemma answer_resources name :
  name ∈ Runner.resources answer_runner → is_Some (limiters after !! name).
Proof. intros ->%list_elem_of_singleton. vm_compute. eauto. Qed.

Lemma process_resolves_witness :
  ∃ w' item' value st quar skip,
    rtc (pool_step nobody_else) (answer_world, of_request <$> three_items) (w', Ret <$> three_results) ∧
    settled answer_runner (λ item out, out = (item, None)) (λ _ _, True) accepted item' value st quar skip ∧
    value = Some "why".
Proof.
  destruct three_run as [w' Hsteps].
  destruct (process_resolves (λ _ _, 0) answer_runner 0 0 (Budget 10 10) (limiters after) (budgets after)
              (λ item out, out = (item, None)) (λ _ _, True) accepted (answer_well_behaved answer_runner eq_refl eq_refl) eq_refl
              answer_resources ltac:(simpl; lia) nobody_else ltac:(done) ltac:(eauto)
              answer_world three_items w' three_results 1 [0%nat] 1 "why"
              (ErasedItem 1 (Some "why") (MkOutcome (digest_of "why") CacheStored) None false)
              answer_begins eq_refl Hsteps eq_refl eq_refl)
    as (item' & value & st & quar & skip & Hit & Hset & _).
  exists w', item', value, st, quar, skip. split; [exact Hsteps|]. split; [exact Hset|].
  destruct Hit as (_ & Hv & _). by rewrite <-Hv.
Defined.

Lemma process_counts_witness :
  ∃ w' x (ts : list tally),
    rtc (pool_step nobody_else) (answer_world, of_request <$> three_items) (w', Ret <$> three_results) ∧
    lw_budgets (ew_limits (wd_env w')) !! 0%nat = Some x ∧ length ts = 3%nat ∧
    remaining x = 10 - Z.of_N (t_work (total ts)).
Proof.
  destruct three_run as [w' Hsteps].
  destruct (process_counts (λ _ _, 0) answer_runner 0 0 (Budget 10 10) (limiters after) (budgets after)
              (λ item out, out = (item, None)) (λ _ _, True) accepted (answer_well_behaved answer_runner eq_refl eq_refl) eq_refl
              answer_resources ltac:(simpl; lia) nobody_else ltac:(done) ltac:(eauto)
              answer_world three_items w' three_results answer_begins eq_refl Hsteps)
    as (s & x & ts & _ & Hx & Hl & _ & _ & Hrem & _).
  exists w', x, ts. split; [exact Hsteps|]. split; [exact Hx|]. split; [exact Hl|].
  rewrite Hrem. assert (charge answer_runner 0 (limiters after) = 1%N) as -> by (vm_compute; reflexivity).
  simpl remaining. lia.
Defined.
End example.
