(* ===== verification/Pipeline.v ===== *)
(** * The pipeline driver: runStages and typedRunner.run of flow/run.go

    A pipeline is a feeder, one stage goroutine per stage with its worker pool, and
    an order-restoring collector, joined by channels: the feeder's is unbuffered, a
    stage's output holds 16 items, and a barrier stage first drains its input and
    then hands the items to its workers over an unbuffered channel of its own.  All
    of them are the components of a [pstate]; [fire] performs one move of one of
    them, and a run is any sequence of moves with moves of the surroundings in
    between.  A stage is given by its worker count, what a worker does with one
    item, and its ledger events at the start and at the end.  Instead of workers a
    stage may have an engine, which gets all of its input at once. *)

From S2P Require Import Prelude GoError Go Limits Budget Rate Chain ErrGroup.

Section definitions.
Context {U W : Type} `{!Has (limits U) W} {EG : ErrGroup} {T : Type} (index_of : T → nat).

Record stage := MkStage {
  sg_workers : nat;
  sg_barrier : bool;
  sg_start : ctx → prog W (res unit);
  sg_body : ctx → T → prog W (res T);
  sg_finish : ctx → prog W (res unit);
  sg_error : error → error;        (* [fmt.Errorf("stage %q: %w", name, err)] *)
  (** [run c arrived w w' r]: started in world [w] over what has arrived, the engine can
      return in world [w'].  What it does in between is a matter of the surroundings. *)
  sg_engine : option (ctx → list T → W → W → res (list T) → Prop);
}.

Definition out_capacity : nat := 16.

Inductive worker :=
| Idle
| Busy (item : T) (p : prog W (res T))
| Sending (item : T)               (* in the select that sends to [out] *)
| WorkerEnd (o : option error)
| WorkerGone.

(** Where the workers of a running stage receive: the stage's input, or the barrier
    channel with the items still to be handed over, open or closed. *)
Inductive source := FromInput | FromBarrier (q : list T) (open : bool).

Inductive phase :=
| Starting (p : prog W (res unit))
| Buffering (items : list T)
| Running (src : source) (gctx : ctx) (g : group) (ws : list worker)
| Working (items : list T) (w : W) (* the engine runs; it was started in world [w] *)
| Emitting (q : list T)            (* in the selects that send [q] to [out] *)
| Finishing (p : prog W (res unit))
| Returned (o : option error)      (* [out] is closed *)
| Gone.

Record sstate := SState { ph : phase; buf : list T }.

Inductive feeder := Feeding (q : list T) | FeederEnd (o : option error) | FeederGone.

Record pstate := PState {
  p_world : W;
  p_group : group;
  p_feeder : feeder;
  p_stages : list sstate;
  p_collected : bool;              (* the collector has returned *)
  p_results : list T;
}.

Definition set_world (w : W) (s : pstate) : pstate :=
  PState w (p_group s) (p_feeder s) (p_stages s) (p_collected s) (p_results s).
Definition set_feeder (f : feeder) (s : pstate) : pstate :=
  PState (p_world s) (p_group s) f (p_stages s) (p_collected s) (p_results s).
Definition set_stage (k : nat) (x : sstate) (s : pstate) : pstate :=
  PState (p_world s) (p_group s) (p_feeder s) (<[k := x]> (p_stages s)) (p_collected s) (p_results s).
Definition set_phase (k : nat) (x : phase) (s : pstate) : pstate :=
  match p_stages s !! k with Some st => set_stage k (SState x (buf st)) s | None => s end.

Definition out_closed (st : sstate) : bool :=
  match ph st with Returned _ | Gone => true | _ => false end.

(** Receiving from the input of stage [k]; the collector's is that of the stage
    after the last. *)
Definition input_pop (k : nat) (s : pstate) : option (T * pstate) :=
  match k with
  | O => match p_feeder s with Feeding (x :: q) => Some (x, set_feeder (Feeding q) s) | _ => None end
  | S j => match p_stages s !! j with
           | Some (SState p (x :: b)) => Some (x, set_stage j (SState p b) s)
           | _ => None
           end
  end.

(** The input of stage [k] is closed and empty. *)
Definition input_closed (k : nat) (s : pstate) : bool :=
  match k with
  | O => match p_feeder s with Feeding _ => false | _ => true end
  | S j => match p_stages s !! j with
           | Some st => out_closed st && match buf st with [] => true | _ => false end
           | None => false
           end
  end.

Inductive smove :=
| StageStep                (* an action of the start or finish event *)
| Buffer                   (* a barrier stage takes an item in *)
| Unbuffer                 (* its input is closed *)
| BarrierStop              (* the barrier goroutine takes <-ctx.Done() *)
| BarrierEnd               (* it has handed over every item *)
| Receive (i : nat)
| Work (i : nat)
| Send (i : nat)
| StopSend (i : nat)       (* worker i takes <-groupContext.Done() *)
| Drain (i : nat)          (* worker i finds its source closed *)
| EndWorker (i : nat)
| Wait                     (* [group.Wait()] of the stage *)
| Emit                     (* an engine's stage sends an item *)
| StopEmit                 (* it takes <-ctx.Done() *)
| EmitEnd
| EndStage.

Inductive choice :=
| StopFeeding | FeedAll | EndFeeder
| At (k : nat) (m : smove)
| Collect | EndCollect.

Context (stages : list stage) (gctx : ctx).

(** A function of the pipeline's group returns. *)
Definition finish_go (o : option error) (s : pstate) : pstate :=
  let '(w, g) := go_return gctx o (p_world s) (p_group s) in
  PState w g (p_feeder s) (p_stages s) (p_collected s) (p_results s).

(** The workers start, in a group of their own. *)
Definition start_workers (k : nat) (sg : stage) (src : source) (s : pstate) : pstate :=
  let '(t, inner) := WithCancel gctx (ctxs_of (p_world s)) in
  set_phase k (Running src inner new_group (replicate (sg_workers sg) Idle))
    (set_world (map_ctxs (λ _, t) (p_world s)) s).

(** One move of worker [i] of stage [k]. *)
Definition fire_worker (k : nat) (sg : stage) (st : sstate) (src : source) (inner : ctx) (g : group)
    (ws : list worker) (i : nat) (m : smove) (s : pstate) : list pstate :=
  let put w := set_phase k (Running src inner g (<[i := w]> ws)) in
  match m, ws !! i with
  | Receive _, Some Idle =>
      match src with
      | FromInput =>
          match input_pop k s with
          | Some (x, s) => [put (Busy x (sg_body sg inner x)) s]
          | None => []
          end
      | FromBarrier (x :: q) true =>
          [set_phase k (Running (FromBarrier q true) inner g (<[i := Busy x (sg_body sg inner x)]> ws)) s]
      | _ => []
      end
  | Work _, Some (Busy item (Act act cont)) =>
      (λ '(w, x), set_world w (put (Busy item (cont x)) s)) <$> act (p_world s)
  | Work _, Some (Busy item (Ret (Ok out))) => [put (Sending out) s]
  | Work _, Some (Busy item (Ret (Err e))) => [put (WorkerEnd (Some e)) s]
  | Send _, Some (Sending item) =>
      if (length (buf st) <? out_capacity)%nat
      then [set_stage k (SState (Running src inner g (<[i := Idle]> ws)) (buf st ++ [item])) s]
      else []
  | StopSend _, Some (Sending item) =>
      match ctx_err inner (ctxs_of (p_world s)) with
      | Some e => [put (WorkerEnd (Some e)) s]
      | None => []
      end
  | Drain _, Some Idle =>
      match src with
      | FromInput => if input_closed k s then [put (WorkerEnd None) s] else []
      | FromBarrier _ open => if open then [] else [put (WorkerEnd None) s]
      end
  | EndWorker _, Some (WorkerEnd o) =>
      let '(w, g') := go_return inner o (p_world s) g in
      [set_phase k (Running src inner g' (<[i := WorkerGone]> ws)) (set_world w s)]
  | _, _ => []
  end.

Definition all_gone (ws : list worker) : bool :=
  forallb (λ w, match w with WorkerGone => true | _ => false end) ws.

Definition fire_stage (k : nat) (sg : stage) (st : sstate) (m : smove) (s : pstate) : list pstate :=
  match m, ph st with
  | StageStep, Starting (Act act cont) =>
      (λ '(w, x), set_world w (set_phase k (Starting (cont x)) s)) <$> act (p_world s)
  | StageStep, Starting (Ret (Ok _)) =>
      [if sg_barrier sg then set_phase k (Buffering []) s else start_workers k sg FromInput s]
  | StageStep, Starting (Ret (Err e)) => [set_phase k (Returned (Some (sg_error sg e))) s]
  | Buffer, Buffering items =>
      match input_pop k s with
      | Some (x, s) => [set_phase k (Buffering (items ++ [x])) s]
      | None => []
      end
  | Unbuffer, Buffering items =>
      if input_closed k s then
        match ctx_err gctx (ctxs_of (p_world s)) with
        | Some e => [set_phase k (Returned (Some (sg_error sg e))) s]
        | None =>
            [match sg_engine sg with
             | Some _ => set_phase k (Working items (p_world s)) s
             | None => start_workers k sg (FromBarrier items true) s
             end]
        end
      else []
  | BarrierStop, Running (FromBarrier (x :: q) true) inner g ws =>
      match ctx_err gctx (ctxs_of (p_world s)) with
      | Some _ => [set_phase k (Running (FromBarrier (x :: q) false) inner g ws) s]
      | None => []
      end
  | BarrierEnd, Running (FromBarrier [] true) inner g ws =>
      [set_phase k (Running (FromBarrier [] false) inner g ws) s]
  | (Receive i | Work i | Send i | StopSend i | Drain i | EndWorker i) as m, Running src inner g ws =>
      fire_worker k sg st src inner g ws i m s
  | Wait, Running src inner g ws =>
      if all_gone ws then
        [set_phase k (match group_err g with
                      | Some e => Returned (Some (sg_error sg e))
                      | None => Finishing (sg_finish sg gctx)
                      end) s]
      else []
  | Emit, Emitting (x :: q) =>
      if (length (buf st) <? out_capacity)%nat
      then [set_stage k (SState (Emitting q) (buf st ++ [x])) s]
      else []
  | StopEmit, Emitting (_ :: _) =>
      match ctx_err gctx (ctxs_of (p_world s)) with
      | Some e => [set_phase k (Returned (Some (sg_error sg e))) s]
      | None => []
      end
  | EmitEnd, Emitting [] => [set_phase k (Finishing (sg_finish sg gctx)) s]
  | StageStep, Finishing (Act act cont) =>
      (λ '(w, x), set_world w (set_phase k (Finishing (cont x)) s)) <$> act (p_world s)
  | StageStep, Finishing (Ret (Ok _)) => [set_phase k (Returned None) s]
  | StageStep, Finishing (Ret (Err e)) => [set_phase k (Returned (Some (sg_error sg e))) s]
  | EndStage, Returned o => [finish_go o (set_phase k Gone s)]
  | _, _ => []
  end.

(** The possible results of one move, [] when it is not enabled. *)
Definition fire (ch : choice) (s : pstate) : list pstate :=
  match ch with
  | StopFeeding =>
      match p_feeder s, ctx_err gctx (ctxs_of (p_world s)) with
      | Feeding (_ :: _), Some e => [set_feeder (FeederEnd (Some e)) s]
      | _, _ => []
      end
  | FeedAll => match p_feeder s with Feeding [] => [set_feeder (FeederEnd None) s] | _ => [] end
  | EndFeeder =>
      match p_feeder s with FeederEnd o => [finish_go o (set_feeder FeederGone s)] | _ => [] end
  | At k m =>
      match stages !! k, p_stages s !! k with
      | Some sg, Some st => fire_stage k sg st m s
      | _, _ => []
      end
  | Collect =>
      if p_collected s then [] else
      match input_pop (length stages) s with
      | Some (x, s) => [PState (p_world s) (p_group s) (p_feeder s) (p_stages s) false
                          (<[index_of x := x]> (p_results s))]
      | None => []
      end
  | EndCollect =>
      if negb (p_collected s) && input_closed (length stages) s
      then [finish_go None (PState (p_world s) (p_group s) (p_feeder s) (p_stages s) true (p_results s))]
      else []
  end.

Definition pmove (s s' : pstate) : Prop := ∃ ch, s' ∈ fire ch s.

(** The engine of stage [k] returns. *)
Definition engine_end (k : nat) (sg : stage) (r : res (list T)) (s : pstate) : pstate :=
  set_phase k (match r with Ok out => Emitting out | Err e => Returned (Some (sg_error sg e)) end) s.

(** A move of the pipeline or of its surroundings. *)
Inductive pstep (Env : W → W → Prop) : pstate → pstate → Prop :=
| pipe_move s s' : pmove s s' → pstep Env s s'
| pipe_engine s k sg run items w b r :
    stages !! k = Some sg → sg_engine sg = Some run → p_stages s !! k = Some (SState (Working items w) b) →
    run gctx items w (p_world s) r →
    pstep Env s (engine_end k sg r s)
| pipe_env s w : Env (p_world s) w → pstep Env s (set_world w s).

Definition pfinal (s : pstate) : Prop :=
  p_feeder s = FeederGone ∧ Forall (λ st, ph st = Gone) (p_stages s) ∧ p_collected s = true.

(** The state once all goroutines have been started. *)
Definition pipe_start (zero : T) (inputs : list T) (w : W) : pstate :=
  PState w new_group (Feeding inputs) ((λ sg, SState (Starting (sg_start sg gctx)) []) <$> stages) false
    (replicate (length inputs) zero).

Definition pipe_result (s : pstate) : res (list T) :=
  match group_err (p_group s) with Some e => Err e | None => Ok (p_results s) end.
End definitions.
Arguments stage _ _ : clear implicits.
Arguments worker _ _ : clear implicits.
Arguments source _ : clear implicits.
Arguments phase _ {_} _.
Arguments sstate _ {_} _.
Arguments feeder _ : clear implicits.
Arguments pstate _ {_} _.

(** [pipeline_returns ... r]: a pipeline started in world [w] can return [r]. *)
Inductive pipeline_returns {U W : Type} `{!Has (limits U) W} {EG : ErrGroup} {T : Type}
    (index_of : T → nat) (zero : T) (Env : W → W → Prop) (stages : list (stage W T)) (c : ctx)
    (inputs : list T) (w : W) : W → res (list T) → Prop :=
| pipe_runs t gctx s :
    WithCancel c (ctxs_of w) = (t, gctx) →
    rtc (pstep index_of stages gctx Env) (pipe_start stages gctx zero inputs (map_ctxs (λ _, t) w)) s →
    pfinal s →
    pipeline_returns index_of zero Env stages c inputs w (p_world s) (pipe_result s).
