(* ===== verification/PipelineProofs.v ===== *)
(** * The pipeline loses and repeats nothing: proofs for Pipeline.v

    [flow] follows the items over every channel: what entered a link is still
    waiting on it, was lost to an early stop, or arrived.  [tidy] says that nothing
    was lost and no stage stopped early unless something went wrong.  Together, a
    run that returns results took every item through every stage once. *)

From S2P Require Import Prelude GoError Go Limits Budget Rate Chain ErrGroup Pipeline.

Section flow.
Context {U W : Type} `{!Has (limits U) W} {EG : ErrGroup} {T : Type} `{Account M}.

(** A finished job of a stage: its input, its result and its final account. *)
Record done := Done { d_in : T; d_res : res T; d_acct : M }.

(** Per stage: the accounts of its running programs, its finished jobs, and the
    items it dropped before processing them and before sending them on. *)
Record ghost := Ghost {
  g_accts : list M;
  g_done : list done;
  g_dropped : list T;
  g_unsent : list T;
}.
Notation comp := (sstate W T * ghost)%type.

Definition ok_of (d : done) : option T := match d_res d with Ok x => Some x | Err _ => None end.
Definition emits (c : comp) : list T := omap ok_of (g_done c.2).

Definition sending_of (w : worker W T) : list T := match w with Sending x => [x] | _ => [] end.
Definition busy_of (w : worker W T) : list T := match w with Busy x _ => [x] | _ => [] end.

Definition sending (p : phase W T) : list T :=
  match p with Running _ _ _ ws => ws ≫= sending_of | Emitting q => q | _ => [] end.
Definition held (p : phase W T) : list T :=
  match p with
  | Buffering items | Working items _ => items
  | Running (FromBarrier q _) _ _ ws => q ++ (ws ≫= busy_of)
  | Running FromInput _ _ ws => ws ≫= busy_of
  | _ => []
  end.

Definition waits (c : comp) : list T := sending (ph c.1) ++ buf c.1 ++ g_unsent c.2.
Definition arrived (c : comp) : list T := held (ph c.1) ++ g_dropped c.2 ++ (d_in <$> g_done c.2).

(** Every link accounts for what was emitted onto it. *)
Fixpoint flow (emitted waiting : list T) (cs : list comp) (collected : list T) : Prop :=
  match cs with
  | [] => emitted ≡ₚ waiting ++ collected
  | c :: cs => emitted ≡ₚ waiting ++ arrived c ∧ flow (emits c) (waits c) cs collected
  end.

Lemma flow_weaken em wait em' wait' cs col :
  (∀ X, em ≡ₚ wait ++ X → em' ≡ₚ wait' ++ X) → flow em wait cs col → flow em' wait' cs col.
Proof. intros Hw. destruct cs as [|c cs]; simpl; [apply Hw|]. intros [? ?]. split; [by apply Hw|done]. Qed.

(** A stage changes on its own. *)
Lemma flow_insert em wait cs col k c c' :
  cs !! k = Some c → arrived c' ≡ₚ arrived c →
  (∀ X, emits c ≡ₚ waits c ++ X → emits c' ≡ₚ waits c' ++ X) →
  flow em wait cs col → flow em wait (<[k := c']> cs) col.
Proof.
  revert em wait k. induction cs as [|c0 cs IH]; intros em wait [|k] Hk Harr Hem; simplify_eq/=.
  - intros [Hl Hf]. split; [by rewrite Harr|]. by eapply flow_weaken.
  - intros [Hl Hf]. split; [done|]. by eapply IH.
Qed.

(** Stage [S k] receives what stage [k] had ready. *)
Lemma flow_receive em wait cs col k c d c' d' x :
  cs !! k = Some c → cs !! S k = Some d →
  emits c' = emits c → waits c ≡ₚ x :: waits c' → arrived c' = arrived c →
  arrived d' ≡ₚ x :: arrived d → emits d' = emits d → waits d' = waits d →
  flow em wait cs col → flow em wait (<[S k := d']> (<[k := c']> cs)) col.
Proof.
  revert em wait k. induction cs as [|c0 cs IH]; intros em wait [|k] Hc Hd He Hw Ha Had Hed Hwd; simplify_eq/=.
  - destruct cs as [|d0 cs]; simplify_eq/=. intros (Hl & Hl' & Hf). rewrite Ha, He, Hed, Hwd.
    split; [done|]. split; [|done]. rewrite Hl', Hw, Had. simpl.
    rewrite <-Permutation_middle. done.
  - intros [Hl Hf]. split; [done|]. by eapply IH.
Qed.

(** The first stage receives from the feeder. *)
Lemma flow_receive_first em wait wait' cs col d d' x :
  cs !! 0%nat = Some d → wait ≡ₚ x :: wait' →
  arrived d' ≡ₚ x :: arrived d → emits d' = emits d → waits d' = waits d →
  flow em wait cs col → flow em wait' (<[0%nat := d']> cs) col.
Proof.
  destruct cs as [|d0 cs]; intros Hd Hw Had Hed Hwd; simplify_eq/=. intros [Hl Hf]. rewrite Hed, Hwd.
  split; [|done]. rewrite Hl, Hw, Had. simpl. by rewrite <-Permutation_middle.
Qed.

(** The collector receives from the last stage, or from the feeder. *)
Lemma flow_collect em wait cs col k c c' x :
  cs !! k = Some c → S k = length cs → emits c' = emits c → waits c ≡ₚ x :: waits c' →
  arrived c' = arrived c → flow em wait cs col → flow em wait (<[k := c']> cs) (x :: col).
Proof.
  revert em wait k. induction cs as [|c0 cs IH]; intros em wait [|k] Hc Hk He Hw Ha; simplify_eq/=.
  - destruct cs; [|done]. intros [Hl Hf]. simpl in *. rewrite Ha, He. split; [done|].
    rewrite Hf, Hw. simpl. by rewrite <-Permutation_middle.
  - intros [Hl Hf]. split; [done|]. by eapply IH.
Qed.

Lemma flow_collect_first em wait wait' col x :
  wait ≡ₚ x :: wait' → flow em wait [] col → flow em wait' [] (x :: col).
Proof. simpl. intros Hw ->. rewrite Hw. simpl. by rewrite <-Permutation_middle. Qed.

(** Workers as a bag of items. *)
Lemma bind_insert {A B} (f : A → list B) (l : list A) i x y :
  l !! i = Some x → <[i := y]> l ≫= f ≡ₚ f y ++ (delete i l ≫= f).
Proof.
  revert i. induction l as [|z l IH]; intros [|i] Hi; simplify_eq/=; [done|].
  rewrite (IH i Hi). rewrite !app_assoc. by rewrite (Permutation_app_comm (f z)).
Qed.

Lemma bind_delete {A B} (f : A → list B) (l : list A) i x :
  l !! i = Some x → l ≫= f ≡ₚ f x ++ (delete i l ≫= f).
Proof. intros Hi. by rewrite <-(bind_insert f l i x x Hi), list_insert_id. Qed.

Lemma bind_insert_same {A B} (f : A → list B) (l : list A) i x y :
  l !! i = Some x → f y = f x → <[i := y]> l ≫= f = l ≫= f.
Proof.
  intros Hi Hf. revert i Hi. induction l as [|z l IH]; intros [|i] Hi; simplify_eq/=; [by rewrite Hf|].
  f_equal. by apply IH.
Qed.
End flow.
Arguments done _ _ : clear implicits.
Arguments ghost _ _ : clear implicits.

(** ** The invariant of a run *)

Section invariant.
Context {U W : Type} `{!Has (limits U) W} {EG : ErrGroup} {T : Type} `{Account M}.
Context (index_of : T → nat) (Env : W → W → Prop) (stages : list (stage W T)) (gctx : ctx)
  (inputs : list T) (start : pstate W T) (Inv : W → M → Prop)
  (Item : nat → T → Prop) (Q : nat → T → res T → M → Prop).
Notation comp := (sstate W T * ghost T M)%type.
Notation step := (pstep index_of stages gctx Env).
Implicit Types (s : pstate W T) (cs : list comp) (col : list T) (γs : list M) (p : phase W T).

Definition queue_of (f : feeder T) : list T := match f with Feeding q => q | _ => [] end.

Definition acct_of (c : comp) : M := total (g_accts c.2) ⊹ total (d_acct <$> g_done c.2).

Definition worker_ok (k : nat) (w : worker W T) (γ : M) : Prop :=
  match w with
  | Busy x p => Item k x ∧ owns Inv (Q k x) p γ
  | _ => γ = azero
  end.

Definition phase_ok (k : nat) p γs : Prop :=
  match p with
  | Starting q | Finishing q => ∃ γ, γs = [γ] ∧ owns Inv (λ _ m, m = azero) q γ
  | Buffering _ => γs = [] ∧ ∃ sg, stages !! k = Some sg ∧ sg_barrier sg = true
  | Running src _ _ ws =>
      (∃ sg, stages !! k = Some sg ∧ (length ws = sg_workers sg ∧ sg_engine sg = None) ∧
             match src with FromInput => True | FromBarrier _ _ => sg_barrier sg = true end) ∧
      length γs = length ws ∧ ∀ i w γ, ws !! i = Some w → γs !! i = Some γ → worker_ok k w γ
  | _ => γs = []
  end.

Definition done_ok (k : nat) (d : done T M) : Prop := Item k (d_in d) ∧ Q k (d_in d) (d_res d) (d_acct d).

Record pinv s cs (dropped : list T) col : Prop := {
  pi_stages : p_stages s = cs.*1;
  pi_length : length cs = length stages;
  pi_world : Inv (p_world s) (total (acct_of <$> cs));
  pi_phase k c : cs !! k = Some c → phase_ok k (ph c.1) (g_accts c.2);
  pi_done k c : cs !! k = Some c → Forall (done_ok k) (g_done c.2);
  pi_flow : flow inputs (queue_of (p_feeder s) ++ dropped) cs col;
  pi_results : length (p_results s) = length inputs ∧ (∀ x, x ∈ col → p_results s !! index_of x = Some x) ∧
    ∀ x, x ∈ p_results s → x ∈ p_results start ∨ x ∈ col;
  pi_collected : p_collected s = true → input_closed (length stages) s = true;
}.

Context (Hinputs : ∀ x, x ∈ inputs → Item 0 x ∧ (index_of x < length inputs)%nat).
Context (Hnodup : NoDup (index_of <$> inputs)).
Context (Hnext : ∀ k x y m, Item k x → Q k x (Ok y) m → Item (S k) y ∧ index_of y = index_of x).
Context (Hbody : ∀ k sg inner x, stages !! k = Some sg → sg_engine sg = None → Item k x →
           owns Inv (Q k x) (sg_body sg inner x) azero).
Context (Hstart : ∀ k sg, stages !! k = Some sg →
           owns Inv (λ _ m, m = azero) (sg_start sg gctx) azero ∧
           owns Inv (λ _ m, m = azero) (sg_finish sg gctx) azero).
Context (Henv : ∀ w w' m, Inv w m → Env w w' → Inv w' m).
Context (Hctxs : ∀ f w m, Inv w m → Inv (map_ctxs f w) m).
Context (Hworkers : ∀ sg, sg ∈ stages → (1 ≤ sg_workers sg)%nat).
Context (Hdrains : ∀ k sg, stages !! k = Some sg → is_Some (sg_engine sg) → sg_barrier sg = true).
Context (Hengine : ∀ k (sg : stage W T) run inner items (w w' : W) out, stages !! k = Some sg → sg_engine sg = Some run →
           Forall (Item k) items → NoDup (index_of <$> items) → run inner items w w' (Ok out) →
           ∃ l : list (T * T), items ≡ₚ l.*1 ∧ out ≡ₚ l.*2 ∧ Forall (λ '(x, y), Q k x (Ok y) azero) l).

Lemma world_at cs k c : cs !! k = Some c →
  total (acct_of <$> cs) = acct_of c ⊹ total (delete k (acct_of <$> cs)).
Proof. intros Hk. apply total_lookup. by rewrite list_lookup_fmap, Hk. Qed.

Lemma world_insert cs k c c' : cs !! k = Some c →
  total (acct_of <$> <[k := c']> cs) = acct_of c' ⊹ total (delete k (acct_of <$> cs)).
Proof.
  intros Hk. rewrite list_fmap_insert. eapply total_insert. by rewrite list_lookup_fmap, Hk.
Qed.

(** Every item on a link is one the next stage expects. *)
Lemma emits_items k (c : comp) x : Forall (done_ok k) (g_done c.2) → x ∈ emits c → Item (S k) x.
Proof.
  intros Hd (d & Hin & Hok)%list_elem_of_omap. rewrite Forall_forall in Hd.
  destruct (Hd d Hin) as [Hi HQ]. unfold ok_of in Hok. destruct (d_res d) eqn:Hr; simplify_eq. by eapply Hnext.
Qed.

Lemma flow_items k em wait cs col j c :
  flow em wait cs col → (∀ i c, cs !! i = Some c → Forall (done_ok (k + i)) (g_done c.2)) →
  (∀ x, x ∈ em → Item k x) → cs !! j = Some c →
  (∀ x, x ∈ arrived c → Item (k + j) x) ∧ (∀ x, x ∈ waits c → Item (S (k + j)) x) ∧
  (∀ x, x ∈ col → Item (k + length cs) x).
Proof.
  revert k em wait j c. induction cs as [|c0 cs IH]; intros k em wait j c; [done|]. simpl. intros [Hl Hf] Hd Hem Hj.
  assert (∀ x, x ∈ emits c0 → Item (S k) x) as Hem'.
  { intros x. apply emits_items. specialize (Hd 0%nat c0 eq_refl). by rewrite Nat.add_0_r in Hd. }
  assert (∀ i c, cs !! i = Some c → Forall (done_ok (S k + i)) (g_done c.2)) as Hd'.
  { intros i c' Hc'. replace (S k + i)%nat with (k + S i)%nat by lia. by apply (Hd (S i)). }
  destruct j as [|j]; simplify_eq/=.
  - rewrite Nat.add_0_r. split_and!.
    + intros x Hx. apply Hem. rewrite Hl. set_solver.
    + intros x Hx. apply Hem'. destruct cs as [|c1 cs]; simpl in Hf; [rewrite Hf|destruct Hf as [-> _]]; set_solver.
    + intros x Hx. destruct cs as [|c1 cs]; simpl in Hf.
      * rewrite Nat.add_1_r. apply Hem'. rewrite Hf. set_solver.
      * replace (k + _)%nat with (S k + length (c1 :: cs))%nat by (simpl; lia).
        by eapply (IH (S k) _ _ 0%nat c1 Hf Hd' Hem' eq_refl).
  - replace (k + S j)%nat with (S k + j)%nat by lia.
    replace (k + S (length cs))%nat with (S k + length cs)%nat by lia. by eapply IH.
Qed.

Lemma emits_indexes k (c : comp) :
  Forall (done_ok k) (g_done c.2) → index_of <$> emits c ⊆+ index_of <$> (d_in <$> g_done c.2).
Proof.
  unfold emits. induction 1 as [|d ds [Hi HQ] _ IHd]; [done|]. simpl. unfold ok_of at 1.
  destruct (d_res d) as [y|e] eqn:Hr; simpl; [|by apply submseteq_cons].
  destruct (Hnext _ _ _ _ Hi HQ) as [_ ->]. by apply submseteq_skip.
Qed.

(** The collected items come from different inputs. *)
Lemma flow_indexes k em wait cs col :
  flow em wait cs col → (∀ i c, cs !! i = Some c → Forall (done_ok (k + i)) (g_done c.2)) →
  index_of <$> col ⊆+ index_of <$> em.
Proof.
  revert k em wait. induction cs as [|c cs IH]; intros k em wait; simpl.
  - intros -> _. rewrite fmap_app. by apply submseteq_inserts_l.
  - intros [-> Hf] Hd. rewrite fmap_app. apply submseteq_inserts_l.
    etrans; [apply (IH (S k) _ _ Hf)|].
    { intros i c' Hc'. replace (S k + i)%nat with (k + S i)%nat by lia. by apply (Hd (S i)). }
    unfold arrived. rewrite !fmap_app. do 2 apply submseteq_inserts_l.
    specialize (Hd 0%nat c eq_refl). rewrite Nat.add_0_r in Hd. by apply (emits_indexes k).
Qed.

(** So do the items that have arrived at one stage. *)
Lemma flow_arrived k em wait cs col j c :
  flow em wait cs col → (∀ i c, cs !! i = Some c → Forall (done_ok (k + i)) (g_done c.2)) →
  cs !! j = Some c → index_of <$> arrived c ⊆+ index_of <$> em.
Proof.
  revert k em wait j. induction cs as [|c0 cs IH]; intros k em wait j; [done|]. simpl. intros [-> Hf] Hd Hj.
  rewrite fmap_app. apply submseteq_inserts_l. destruct j as [|j]; simplify_eq/=; [done|].
  etrans; [apply (IH (S k) _ _ j Hf)|]; [|done|].
  { intros i c' Hc'. replace (S k + i)%nat with (k + S i)%nat by lia. by apply (Hd (S i)). }
  unfold arrived. rewrite !fmap_app. do 2 apply submseteq_inserts_l.
  specialize (Hd 0%nat c0 eq_refl). rewrite Nat.add_0_r in Hd. by apply (emits_indexes k).
Qed.

(** ** Nothing is lost unless something goes wrong *)

Definition has_ended (w : worker W T) : bool :=
  match w with WorkerEnd None | WorkerGone => true | _ => false end.

(** An error is under way to the pipeline's group. *)
Definition troubled_stage p : Prop :=
  match p with
  | Running _ _ g ws => is_Some (group_err g) ∨ ∃ e, WorkerEnd (Some e) ∈ ws
  | Returned (Some _) => True
  | _ => False
  end.

Definition troubled s : Prop :=
  is_Some (group_err (p_group s)) ∨ (∃ e, p_feeder s = FeederEnd (Some e)) ∨
  ∃ k st, p_stages s !! k = Some st ∧ troubled_stage (ph st).

(** A pipeline with a barrier stage found its context done although none of its
    goroutines had failed: its caller canceled the run. *)
Definition barrier_stopped : Prop :=
  ∃ s k sg, rtc step start s ∧ stages !! k = Some sg ∧ sg_barrier sg = true ∧ sg_engine sg = None ∧
            group_err (p_group s) = None ∧ is_Some (ctx_err gctx (ctxs_of (p_world s))).

Definition some_ended (ws : list (worker W T)) : Prop := ∃ i w, ws !! i = Some w ∧ has_ended w = true.

Definition tidy_phase (closed : bool) p : Prop :=
  match p with
  | Running FromInput _ _ ws => some_ended ws → closed = true
  | Running (FromBarrier q open) _ _ ws =>
      closed = true ∧ (open = false → q = []) ∧ (some_ended ws → open = false)
  | Working _ _ | Emitting _ | Finishing _ | Returned _ | Gone => closed = true
  | _ => True
  end.

Definition tidy_stage (closed : bool) (c : comp) : Prop :=
  g_dropped c.2 = [] ∧ g_unsent c.2 = [] ∧ Forall (λ d, is_ok (d_res d) = true) (g_done c.2) ∧
  tidy_phase closed (ph c.1).

Definition tidy s cs (dropped : list T) : Prop :=
  dropped = [] ∧ ∀ k c, cs !! k = Some c → tidy_stage (input_closed k s) c.

Definition bad s : Prop := troubled s ∨ barrier_stopped.

Definition good s : Prop :=
  ∃ cs dropped col, pinv s cs dropped col ∧ (bad s ∨ tidy s cs dropped).

(** A move of stage [k] that takes nothing from its input. *)
Record local_ok (o : M) (k : nat) s (c c' : comp) (w' : W) (g' : group) : Prop := {
  lo_world : Inv w' (acct_of c' ⊹ o);
  lo_phase : phase_ok k (ph c'.1) (g_accts c'.2);
  lo_done : Forall (done_ok k) (g_done c'.2);
  lo_arrived : arrived c' ≡ₚ arrived c;
  lo_emits X : emits c ≡ₚ waits c ++ X → emits c' ≡ₚ waits c' ++ X;
  lo_closed : out_closed c.1 = true → out_closed c'.1 = true ∧ buf c'.1 = buf c.1;
  lo_group : is_Some (group_err (p_group s)) → is_Some (group_err g');
  lo_troubled : troubled_stage (ph c.1) → troubled_stage (ph c'.1) ∨ is_Some (group_err g');
  lo_tidy : tidy_stage (input_closed k s) c →
    tidy_stage (input_closed k s) c' ∨ troubled_stage (ph c'.1) ∨ is_Some (group_err g') ∨ barrier_stopped;
}.

Definition with_stage (k : nat) (st : sstate W T) (w : W) (g : group) s : pstate W T :=
  PState w g (p_feeder s) (<[k := st]> (p_stages s)) (p_collected s) (p_results s).

Lemma input_closed_with_stage k c st w g s j :
  p_stages s !! k = Some c → (out_closed c = true → out_closed st = true ∧ buf st = buf c) →
  input_closed j s = true → input_closed j (with_stage k st w g s) = true.
Proof.
  intros Hk Hc. destruct j as [|j]; [done|]. simpl. destruct (decide (j = k)) as [->|Hne].
  - rewrite list_lookup_insert_eq by by eapply lookup_lt_Some. rewrite Hk.
    intros [Ho Hb]%andb_prop. destruct (Hc Ho) as [-> ->]. done.
  - by rewrite list_lookup_insert_ne.
Qed.

Lemma input_closed_same k st w g s :
  input_closed k (with_stage k st w g s) = input_closed k s.
Proof. destruct k as [|k]; [done|]. simpl. by rewrite list_lookup_insert_ne by lia. Qed.

Lemma tidy_phase_mono closed p : tidy_phase closed p → tidy_phase true p.
Proof. destruct p as [| |[|] | | | | |]; simpl; naive_solver. Qed.

Lemma tidy_stage_mono closed closed' c :
  (closed = true → closed' = true) → tidy_stage closed c → tidy_stage closed' c.
Proof.
  intros Hc (? & ? & ? & Hp). split_and!; try done. destruct closed; [|destruct closed'; [by eapply tidy_phase_mono|done]].
  by rewrite Hc.
Qed.

Lemma good_local s cs dropped col k c c' w' g' :
  pinv s cs dropped col → bad s ∨ tidy s cs dropped → cs !! k = Some c →
  local_ok (total (delete k (acct_of <$> cs))) k s c c' w' g' → good (with_stage k c'.1 w' g' s).
Proof.
  intros Hp Hbt Hk Hlo. exists (<[k := c']> cs), dropped, col.
  assert (p_stages s !! k = Some c.1) as Hst by (by rewrite (pi_stages _ _ _ _ Hp), list_lookup_fmap, Hk).
  assert (k < length cs)%nat as Hlt by by eapply lookup_lt_Some. split.
  - destruct Hp as [Hs Hl Hw Hph Hd Hf Hr Hco]. split; simpl.
    + by rewrite list_fmap_insert, Hs.
    + by rewrite length_insert.
    + rewrite (world_insert _ _ _ _ Hk). apply Hlo.
    + intros j d Hj. destruct (decide (j = k)) as [->|Hne].
      * rewrite list_lookup_insert_eq in Hj by done. injection Hj as <-. apply Hlo.
      * rewrite list_lookup_insert_ne in Hj by done. by apply Hph.
    + intros j d Hj. destruct (decide (j = k)) as [->|Hne].
      * rewrite list_lookup_insert_eq in Hj by done. injection Hj as <-. apply Hlo.
      * rewrite list_lookup_insert_ne in Hj by done. by apply Hd.
    + eapply flow_insert; [done|apply Hlo|apply Hlo|done].
    + done.
    + intros Hc. eapply input_closed_with_stage; [done|apply Hlo|auto].
  - assert (∀ j st, p_stages s !! j = Some st → troubled_stage (ph st) →
              troubled (with_stage k c'.1 w' g' s)) as Htr.
    { intros j st Hj Ht. destruct (decide (j = k)) as [->|Hne].
      - rewrite Hst in Hj. injection Hj as <-. destruct (lo_troubled _ _ _ _ _ _ _ Hlo Ht) as [Ht'|Hg]; [|by left].
        right; right. exists k, c'.1. simpl. rewrite list_lookup_insert_eq; [done|]. by eapply lookup_lt_Some.
      - right; right. exists j, st. simpl. by rewrite list_lookup_insert_ne. }
    destruct Hbt as [[[Hg|[He|(j & st & Hj & Ht)]]|Hb]|[Hdr Ht]].
    + left; left; left. by apply (lo_group _ _ _ _ _ _ _ Hlo).
    + left; left; right; left. exact He.
    + left; left. exact (Htr j st Hj Ht).
    + left; by right.
    + destruct (lo_tidy _ _ _ _ _ _ _ Hlo (Ht k c Hk)) as [Ht'|[Ht'|[Hg|Hb]]].
      * right. split; [done|]. intros j d Hj. destruct (decide (j = k)) as [->|Hne].
        -- rewrite list_lookup_insert_eq in Hj by done. injection Hj as <-. by rewrite input_closed_same.
        -- rewrite list_lookup_insert_ne in Hj by done. eapply tidy_stage_mono; [|by apply Ht].
           eapply input_closed_with_stage; [done|apply Hlo].
      * left; left; right; right. exists k, c'.1. simpl. rewrite list_lookup_insert_eq; [done|]. by eapply lookup_lt_Some.
      * left; left; by left.
      * left; by right.
Qed.

(** One worker of a running stage moves. *)
Definition src_closed (k : nat) s (src : source T) : Prop :=
  match src with FromInput => input_closed k s = true | FromBarrier _ open => open = false end.

Lemma some_ended_insert ws i w0 w1 :
  ws !! i = Some w0 → some_ended (<[i := w1]> ws) → has_ended w1 = true ∨ some_ended ws.
Proof.
  intros Hi (j & w & Hj & Hw). destruct (decide (j = i)) as [->|Hne].
  - rewrite list_lookup_insert_eq in Hj by by eapply lookup_lt_Some. injection Hj as <-. by left.
  - rewrite list_lookup_insert_ne in Hj by done. right. by exists j, w.
Qed.

Lemma swap_accounts (x y z o : M) : x ⊹ y ⊹ z ⊹ o = x ⊹ z ⊹ (y ⊹ o).
Proof. rewrite <-!aplus_assoc. f_equal. by rewrite !aplus_assoc, (aplus_comm y). Qed.

Lemma local_worker o k s src inner g ws b γs ds dr un i w0 w1 γ0 γ1 ds' b' un' g' w' :
  phase_ok k (Running src inner g ws) γs → ws !! i = Some w0 → γs !! i = Some γ0 →
  Inv w' (γ1 ⊹ total (d_acct <$> ds') ⊹ (total (delete i γs) ⊹ o)) →
  worker_ok k w1 γ1 → Forall (done_ok k) ds' →
  busy_of w1 ++ (d_in <$> ds') ≡ₚ busy_of w0 ++ (d_in <$> ds) →
  (∀ X, omap ok_of ds ≡ₚ sending_of w0 ++ b ++ un ++ X → omap ok_of ds' ≡ₚ sending_of w1 ++ b' ++ un' ++ X) →
  (is_Some (group_err g) → is_Some (group_err g')) →
  ((∃ e, w0 = WorkerEnd (Some e)) → is_Some (group_err g')) →
  ((∃ e, w1 = WorkerEnd (Some e)) ∨ is_Some (group_err g') ∨
    (un' = un ∧ (Forall (λ d, is_ok (d_res d) = true) ds → Forall (λ d, is_ok (d_res d) = true) ds') ∧
     (has_ended w1 = true → has_ended w0 = true ∨ src_closed k s src))) →
  local_ok o k s (SState (Running src inner g ws) b, Ghost γs ds dr un)
    (SState (Running src inner g' (<[i := w1]> ws)) b', Ghost (<[i := γ1]> γs) ds' dr un') w' (p_group s).
Proof.
  intros (Hsg & Hlen & Hws) Hi Hγ Hworld Hok1 Hd' Hbusy Hsend Hg He Htidy. split; simpl; try done.
  - unfold acct_of. simpl. by rewrite (total_insert _ _ _ _ Hγ), swap_accounts.
  - split; [by rewrite length_insert|]. split; [by rewrite !length_insert|]. intros j w γ Hj Hγj.
    destruct (decide (j = i)) as [->|Hne].
    + rewrite list_lookup_insert_eq in Hj by by eapply lookup_lt_Some.
      rewrite list_lookup_insert_eq in Hγj by by eapply lookup_lt_Some. by simplify_eq.
    + rewrite list_lookup_insert_ne in Hj by done. rewrite list_lookup_insert_ne in Hγj by done. by eapply Hws.
  - unfold arrived. simpl.
    assert (∀ q, (q ++ (<[i:=w1]> ws ≫= busy_of)) ++ dr ++ (d_in <$> ds') ≡ₚ (q ++ (ws ≫= busy_of)) ++ dr ++ (d_in <$> ds)) as Hq.
    { intros q. rewrite (bind_insert busy_of ws i w0 w1 Hi), (bind_delete busy_of ws i w0 Hi).
      set (R := delete i ws ≫= busy_of). transitivity (q ++ R ++ dr ++ busy_of w1 ++ (d_in <$> ds')); [solve_Permutation|].
      rewrite Hbusy. solve_Permutation. }
    destruct src as [|q open]; [apply (Hq [])|apply Hq].
  - intros X. unfold emits, waits. simpl.
    rewrite (bind_insert sending_of ws i w0 w1 Hi), (bind_delete sending_of ws i w0 Hi).
    set (R := delete i ws ≫= sending_of). intros HX.
    assert (omap ok_of ds ≡ₚ sending_of w0 ++ b ++ un ++ R ++ X) as HX' by (rewrite HX; solve_Permutation).
    rewrite (Hsend _ HX'). solve_Permutation.
  - intros [Hgs|(e & Hin)]; [left; by left; apply Hg|]. apply list_elem_of_lookup in Hin as (j & Hj).
    destruct (decide (j = i)) as [->|Hne].
    + left; left. apply He. simplify_eq. by exists e.
    + left; right. exists e. apply list_elem_of_lookup. exists j. by rewrite list_lookup_insert_ne.
  - intros (Hdr & Hun & Hall & Hph). simpl in *.
    destruct Htidy as [[e ->]|[Hgs|(-> & Hall' & Hend)]].
    + right; left; right. exists e. apply list_elem_of_lookup. exists i.
      apply list_lookup_insert_eq. by eapply lookup_lt_Some.
    + right; left; by left.
    + left. split_and!; simpl; [done|done|by apply Hall'|].
      assert (some_ended (<[i:=w1]> ws) → some_ended ws ∨ src_closed k s src) as Hse.
      { intros [Hw|Hw]%(some_ended_insert _ _ w0); [|by left|done]. destruct (Hend Hw) as [Hw0|?]; [|by right].
        left. by exists i, w0. }
      destruct src as [|q open]; simpl in *.
      * intros [Hw|Hw]%Hse; auto.
      * destruct Hph as (Hc & Hq & Ho). split_and!; [done|done|]. intros [Hw|Hw]%Hse; auto.
Qed.

Lemma set_phase_with k x st s :
  p_stages s !! k = Some st → set_phase k x s = with_stage k (SState x (buf st)) (p_world s) (p_group s) s.
Proof. intros Hk. unfold set_phase. by rewrite Hk. Qed.

Lemma running_account o k src inner g ws b γs ds dr un i w0 (w : W) :
  phase_ok k (Running src inner g ws) γs → ws !! i = Some w0 →
  Inv w (acct_of (SState (Running src inner g ws) b, Ghost γs ds dr un) ⊹ o) →
  ∃ γ0, γs !! i = Some γ0 ∧ worker_ok k w0 γ0 ∧
        Inv w (γ0 ⊹ total (d_acct <$> ds) ⊹ (total (delete i γs) ⊹ o)).
Proof.
  intros (_ & Hlen & Hws) Hi Hw. destruct (lookup_lt_is_Some_2 γs i) as [γ0 Hγ].
  { rewrite Hlen. by eapply lookup_lt_Some. }
  exists γ0. split_and!; [done|by eapply Hws|]. unfold acct_of in Hw. simpl in Hw.
  by rewrite (total_lookup _ _ _ Hγ), swap_accounts in Hw.
Qed.

(** Every move of a worker other than a receive. *)
Lemma local_fire_worker o k s sg src inner g ws b γs ds dr un i m s' :
  let c : comp := (SState (Running src inner g ws) b, Ghost γs ds dr un) in
  p_stages s !! k = Some c.1 → phase_ok k (ph c.1) γs → Forall (done_ok k) ds →
  Inv (p_world s) (acct_of c ⊹ o) → (∀ j, m ≠ Receive j) →
  s' ∈ fire_worker k sg c.1 src inner g ws i m s →
  ∃ c' w', s' = with_stage k c'.1 w' (p_group s) s ∧ local_ok o k s c c' w' (p_group s).
Proof.
  intros c Hst Hph Hd Hw Hm Hin. simpl in Hph. unfold fire_worker in Hin.
  destruct (ws !! i) as [w0|] eqn:Hi; [|destruct m; by apply elem_of_nil in Hin].
  destruct (running_account _ _ _ _ _ _ _ _ _ _ _ _ _ _ Hph Hi Hw) as (γ0 & Hγ & Hw0 & Hinv).
  destruct m as [| | | | |j|j|j|j|j|j| | | | |], w0 as [|x [r|X act cont]|x|e'|]; try by apply elem_of_nil in Hin.
  all: try by destruct (Hm j).
  - (* a job is over *)
    destruct Hw0 as [Hitem Hown]. simpl in Hown. destruct r as [y|e].
    + apply list_elem_of_singleton in Hin as ->. rewrite (set_phase_with _ _ _ _ Hst).
      eexists (SState (Running src inner g (<[i := Sending y]> ws)) b, Ghost (<[i := azero]> γs) (Done x (Ok y) γ0 :: ds) dr un), (p_world s).
      split; [done|]. eapply local_worker with (w0 := Busy x (Ret (Ok y))) (γ0 := γ0); try done.
      * simpl. by rewrite aplus_zero.
      * by constructor.
      * intros X HX. simpl. by rewrite HX.
      * by intros [e [=]].
      * right; right. split_and!; [done| |done]. intros Hall. by constructor.
    + apply list_elem_of_singleton in Hin as ->. rewrite (set_phase_with _ _ _ _ Hst).
      eexists (SState (Running src inner g (<[i := WorkerEnd (Some e)]> ws)) b, Ghost (<[i := azero]> γs) (Done x (Err e) γ0 :: ds) dr un), (p_world s).
      split; [done|]. eapply local_worker with (w0 := Busy x (Ret (Err e))) (γ0 := γ0); try done.
      * simpl. by rewrite aplus_zero.
      * by constructor.
      * by intros [e0 [=]].
      * left. by exists e.
  - destruct Hw0 as [Hitem Hown]. apply list_elem_of_fmap in Hin as ([w' y] & -> & Hin).
    rewrite <-!aplus_assoc in Hinv. destruct (Hown _ _ Hinv _ _ Hin) as (γ1 & Hinv1 & Hown1).
    rewrite (set_phase_with _ _ _ _ Hst).
    eexists (SState (Running src inner g (<[i := Busy x (cont y)]> ws)) b, Ghost (<[i := γ1]> γs) ds dr un), w'.
    split; [done|]. eapply local_worker with (w0 := Busy x (Act act cont)) (γ0 := γ0); try done.
    + by rewrite <-!aplus_assoc.
    + by intros [e [=]].
    + by right; right.
  - case_match; [|by apply elem_of_nil in Hin]. apply list_elem_of_singleton in Hin as ->. simpl in Hw0. subst γ0.
    eexists (SState (Running src inner g (<[i := Idle]> ws)) (b ++ [x]), Ghost (<[i := azero]> γs) ds dr un), (p_world s).
    split; [done|]. eapply local_worker with (w0 := Sending x) (γ0 := azero); try done.
    + simpl. intros X HX. rewrite HX. simpl. solve_Permutation.
    + by intros [e [=]].
    + by right; right.
  - case_match eqn:He; [|by apply elem_of_nil in Hin]. apply list_elem_of_singleton in Hin as ->.
    rewrite (set_phase_with _ _ _ _ Hst). simpl in Hw0. subst γ0.
    eexists (SState (Running src inner g (<[i := WorkerEnd (Some e)]> ws)) b, Ghost (<[i := azero]> γs) ds dr (x :: un)), (p_world s).
    split; [done|]. eapply local_worker with (w0 := Sending x) (γ0 := azero); try done.
    + simpl. intros X HX. rewrite HX. simpl. solve_Permutation.
    + by intros [e0 [=]].
    + left. by exists e.
  - assert (src_closed k s src ∧ s' = set_phase k (Running src inner g (<[i := WorkerEnd None]> ws)) s) as [Hc ->].
    { destruct src as [|q []]; simpl in *; [destruct (input_closed k s)|..];
        (by apply elem_of_nil in Hin) || (apply list_elem_of_singleton in Hin; by split). }
    rewrite (set_phase_with _ _ _ _ Hst). simpl in Hw0. subst γ0.
    eexists (SState (Running src inner g (<[i := WorkerEnd None]> ws)) b, Ghost (<[i := azero]> γs) ds dr un), (p_world s).
    split; [done|]. eapply local_worker with (w0 := Idle) (γ0 := azero); try done.
    + by intros [e [=]].
    + right; right. split_and!; [done|done|by right].
  - simpl in Hw0. subst γ0. destruct (go_return inner e' (p_world s) g) as [w' g'] eqn:Hgo.
    apply list_elem_of_singleton in Hin as ->.
    pose proof (go_return_err inner e' (p_world s) g) as Hg. rewrite Hgo in Hg. simpl in Hg.
    assert (∀ m, Inv (p_world s) m → Inv w' m) as Hw'.
    { intros m0 Hm0. unfold go_return in Hgo. injection Hgo as <- _. destruct e', (group_err g); auto. }
    rewrite (set_phase_with _ _ (SState (Running src inner g ws) b)) by done.
    eexists (SState (Running src inner g' (<[i := WorkerGone]> ws)) b, Ghost (<[i := azero]> γs) ds dr un), w'.
    split; [done|]. eapply local_worker with (w0 := WorkerEnd e') (γ0 := azero); try done.
    + by apply Hw'.
    + intros [e0 He0]. rewrite Hg, He0. eauto.
    + intros [e0 [= ->]]. rewrite Hg. destruct (group_err g); eauto.
    + destruct e' as [e'|].
      * right; left. rewrite Hg. destruct (group_err g); eauto.
      * right; right. split_and!; [done|done|]. intros _. by left.
Qed.

(** A stage changes its phase and nothing else. *)
Lemma local_phase o k s p p' b γs γs' ds dr dr' un g' w' :
  Inv w' (total γs' ⊹ total (d_acct <$> ds) ⊹ o) → phase_ok k p' γs' → Forall (done_ok k) ds →
  held p' ++ dr' ≡ₚ held p ++ dr → sending p' = sending p →
  (out_closed (SState p b) = true → out_closed (SState p' b) = true) →
  (is_Some (group_err (p_group s)) → is_Some (group_err g')) →
  (troubled_stage p → troubled_stage p' ∨ is_Some (group_err g')) →
  (dr = [] → tidy_phase (input_closed k s) p →
     (dr' = [] ∧ tidy_phase (input_closed k s) p') ∨ troubled_stage p' ∨ is_Some (group_err g') ∨ barrier_stopped) →
  local_ok o k s (SState p b, Ghost γs ds dr un) (SState p' b, Ghost γs' ds dr' un) w' g'.
Proof.
  intros Hw Hph Hd Hheld Hsend Hcl Hg Htr Htidy. split; simpl; try done.
  - unfold arrived. simpl. rewrite !app_assoc. by rewrite Hheld.
  - unfold emits, waits. simpl. by rewrite Hsend.
  - intros Hc. split; [by apply Hcl|done].
  - intros (Hdr & Hun & Hall & Ht). simpl in *. destruct (Htidy Hdr Ht) as [[-> Ht']|Ht']; [left|by right].
    by split_and!.
Qed.

Lemma all_gone_spec (ws : list (worker W T)) : all_gone ws = true → Forall (λ w, w = WorkerGone) ws.
Proof.
  unfold all_gone. rewrite forallb_forall. intros Hws. apply Forall_forall. intros w Hin.
  apply list_elem_of_In, Hws in Hin. by destruct w.
Qed.

Lemma gone_nothing (ws : list (worker W T)) (γs : list M) k :
  Forall (λ w, w = WorkerGone) ws → length γs = length ws →
  (∀ i w γ, ws !! i = Some w → γs !! i = Some γ → worker_ok k w γ) →
  ws ≫= sending_of = [] ∧ ws ≫= busy_of = [] ∧ total γs = azero.
Proof.
  intros Hws. revert γs. induction Hws as [|w ws -> _ IH]; intros [|γ γs] Hlen Hok; try done.
  simpl in Hlen. rewrite !bind_cons. cbn [sending_of busy_of app total foldr].
  destruct (IH γs ltac:(lia) ltac:(intros i; apply (Hok (S i)))) as (-> & -> & Ht). fold (total γs). rewrite Ht.
  pose proof (Hok 0%nat WorkerGone γ eq_refl eq_refl) as ->. by rewrite aplus_zero.
Qed.

(** The workers start. *)
Lemma start_workers_with k sg src st s :
  p_stages s !! k = Some st →
  ∃ inner w, start_workers gctx k sg src s =
      with_stage k (SState (Running src inner new_group (replicate (sg_workers sg) Idle)) (buf st)) w (p_group s) s ∧
    ∀ m, Inv (p_world s) m → Inv w m.
Proof.
  intros Hk. unfold start_workers. destruct (WithCancel gctx _) as [t inner]. eexists inner, _.
  split; [|intros m Hm; by apply (Hctxs (λ _, t))]. unfold set_phase. simpl. by rewrite Hk.
Qed.

Lemma idle_phase_ok k sg src inner :
  stages !! k = Some sg → sg_engine sg = None →
  match src with FromInput => True | FromBarrier _ _ => sg_barrier sg = true end →
  phase_ok k (Running src inner new_group (replicate (sg_workers sg) Idle)) (replicate (sg_workers sg) azero).
Proof.
  intros Hsg Hno Hsrc. split; [|split].
  - exists sg. by rewrite length_replicate.
  - by rewrite !length_replicate.
  - intros i w γ [-> _]%lookup_replicate [-> _]%lookup_replicate. done.
Qed.

Lemma no_one_ended n : ¬ some_ended (replicate n (Idle : worker W T)).
Proof. intros (i & w & [-> _]%lookup_replicate & Hw). done. Qed.

(** An idle worker takes an item. *)
Lemma receive_facts (ws : list (worker W T)) i x body :
  ws !! i = Some Idle →
  (<[i := Busy x body]> ws ≫= sending_of) = (ws ≫= sending_of) ∧
  (<[i := Busy x body]> ws ≫= busy_of) ≡ₚ x :: (ws ≫= busy_of) ∧
  (some_ended (<[i := Busy x body]> ws) → some_ended ws) ∧
  (∀ e, WorkerEnd (Some e) ∈ ws → WorkerEnd (Some e) ∈ <[i := Busy x body]> ws).
Proof.
  intros Hi. split_and!.
  - by apply (bind_insert_same sending_of ws i Idle).
  - by rewrite (bind_insert busy_of ws i Idle _ Hi), (bind_delete busy_of ws i Idle Hi).
  - by intros [?|?]%(some_ended_insert _ _ Idle).
  - intros e (j & Hj)%list_elem_of_lookup. apply list_elem_of_lookup. exists j.
    rewrite list_lookup_insert_ne; [done|]. intros ->. congruence.
Qed.

Lemma receive_phase_ok k sg src src' inner g ws γs i x :
  stages !! k = Some sg → phase_ok k (Running src inner g ws) γs → ws !! i = Some Idle → Item k x →
  match src, src' with FromBarrier _ _, FromBarrier _ _ | FromInput, FromInput => True | _, _ => False end →
  phase_ok k (Running src' inner g (<[i := Busy x (sg_body sg inner x)]> ws)) γs.
Proof.
  intros Hk ((sg' & Hsg & [Hlen Hno] & Hbar) & Hlγ & Hws) Hi Hx Hsrc. split; [|split].
  - exists sg'. rewrite length_insert. split_and!; [done..|]. by destruct src, src'.
  - by rewrite length_insert.
  - intros j w γ Hj Hγ. destruct (decide (j = i)) as [->|Hne].
    + rewrite list_lookup_insert_eq in Hj by by eapply lookup_lt_Some. injection Hj as <-.
      rewrite (Hws i Idle γ Hi Hγ). split; [done|]. apply Hbody; [done| |done]. congruence.
    + rewrite list_lookup_insert_ne in Hj by done. by eapply Hws.
Qed.

Lemma total_one (γ : M) : total [γ] = γ.
Proof. apply aplus_zero_r. Qed.

(** A step of the program of a stage's start or finish event. *)
Lemma owns_event_act (X : Type) (act : W → list (W * X)) cont γ ds o w w' x :
  owns Inv (λ (_ : res unit) (m : M), m = azero) (Act act cont) γ →
  Inv w (total [γ] ⊹ total (d_acct <$> ds) ⊹ o) → (w', x) ∈ act w →
  ∃ γ', Inv w' (total [γ'] ⊹ total (d_acct (T := T) <$> ds) ⊹ o) ∧
        owns Inv (λ (_ : res unit) m, m = azero) (cont x) γ'.
Proof.
  intros Hown Hw Hin. rewrite total_one, <-aplus_assoc in Hw.
  destruct (Hown w _ Hw w' x Hin) as (γ' & Hw' & Hc). exists γ'. by rewrite total_one, <-aplus_assoc.
Qed.

(** Moves that take nothing from the stage's input. *)
Definition pulls (m : smove) p : Prop :=
  match m, p with Buffer, _ => True | Receive _, Running FromInput _ _ _ => True | _, _ => False end.

Section stage_moves.
Context (o : M) (k : nat) (s : pstate W T) (sg : stage W T) (b : list T) (γs : list M)
  (ds : list (done T M)) (dr un : list T) (s' : pstate W T).
Context (Hsg : stages !! k = Some sg) (Hd : Forall (done_ok k) ds) (Hreach : rtc step start s).
Notation outcome p := (∃ c' w' g', s' = with_stage k c'.1 w' g' s ∧
  local_ok o k s (SState p b, Ghost γs ds dr un) c' w' g').

(** Before the workers start. *)
Lemma local_starting q :
  p_stages s !! k = Some (SState (Starting q) b) → phase_ok k (Starting q) γs →
  Inv (p_world s) (acct_of (SState (Starting q) b, Ghost γs ds dr un) ⊹ o) →
  s' ∈ fire_stage gctx k sg (SState (Starting q) b) StageStep s → outcome (Starting q).
Proof.
  intros Hst (γ & -> & Hown) Hw Hin.
  change (Inv (p_world s) (total [γ] ⊹ total (d_acct <$> ds) ⊹ o)) in Hw. simpl in Hin.
  destruct q as [[[]|e]|X act cont]; simpl in Hin.
  - apply list_elem_of_singleton in Hin as ->. change (γ = azero) in Hown. subst γ. destruct (sg_barrier sg) eqn:Hb.
    + rewrite (set_phase_with _ _ _ _ Hst).
      eexists (SState (Buffering []) b, Ghost [] ds dr un), _, _. split; [done|].
      apply local_phase; [by rewrite total_one in Hw|by split; [|exists sg]|..]; simpl; (done || naive_solver).
    + destruct (start_workers_with k sg FromInput _ s Hst) as (inner & w & -> & Hinv).
      eexists (SState _ b, Ghost (replicate (sg_workers sg) azero) ds dr un), w, _. split; [done|].
      apply local_phase; try done.
      * rewrite total_replicate. rewrite total_one in Hw. by apply Hinv.
      * apply idle_phase_ok; [done| |done]. destruct (sg_engine sg) eqn:He; [|done].
        by rewrite (Hdrains k sg Hsg) in Hb by (rewrite He; eauto).
      * simpl. by induction (sg_workers sg).
      * simpl. by induction (sg_workers sg).
      * intros -> _. left. split; [done|]. simpl. by intros ?%no_one_ended.
  - apply list_elem_of_singleton in Hin as ->. change (γ = azero) in Hown. subst γ. rewrite (set_phase_with _ _ _ _ Hst).
    eexists (SState (Returned (Some (sg_error sg e))) b, Ghost [] ds dr un), _, _. split; [done|].
    apply local_phase; [by rewrite total_one in Hw|..]; simpl; (done || naive_solver).
  - apply list_elem_of_fmap in Hin as ([w' x] & -> & Hin). rewrite (set_phase_with _ _ _ _ Hst).
    destruct (owns_event_act _ _ _ _ _ _ _ _ _ Hown Hw Hin) as (γ' & Hw' & Hc).
    eexists (SState (Starting (cont x)) b, Ghost [γ'] ds dr un), w', _. split; [done|].
    apply local_phase; [done|by exists γ'|..]; simpl; (done || naive_solver).
Qed.

(** After the workers have has_ended. *)
Lemma local_finishing q :
  p_stages s !! k = Some (SState (Finishing q) b) → phase_ok k (Finishing q) γs →
  Inv (p_world s) (acct_of (SState (Finishing q) b, Ghost γs ds dr un) ⊹ o) →
  s' ∈ fire_stage gctx k sg (SState (Finishing q) b) StageStep s → outcome (Finishing q).
Proof.
  intros Hst (γ & -> & Hown) Hw Hin.
  change (Inv (p_world s) (total [γ] ⊹ total (d_acct <$> ds) ⊹ o)) in Hw. simpl in Hin.
  destruct q as [[[]|e]|X act cont]; simpl in Hin.
  1,2: apply list_elem_of_singleton in Hin as ->; change (γ = azero) in Hown; subst γ; rewrite (set_phase_with _ _ _ _ Hst);
    eexists (SState (Returned _) b, Ghost [] ds dr un), _, _; split; [done|];
    apply local_phase; [by rewrite total_one in Hw|..]; simpl; (done || naive_solver).
  apply list_elem_of_fmap in Hin as ([w' x] & -> & Hin). rewrite (set_phase_with _ _ _ _ Hst).
  destruct (owns_event_act _ _ _ _ _ _ _ _ _ Hown Hw Hin) as (γ' & Hw' & Hc).
  eexists (SState (Finishing (cont x)) b, Ghost [γ'] ds dr un), w', _. split; [done|].
  apply local_phase; [done|by exists γ'|..]; simpl; (done || naive_solver).
Qed.

(** The input of a barrier stage is closed. *)
Lemma local_unbuffer items :
  p_stages s !! k = Some (SState (Buffering items) b) → phase_ok k (Buffering items) γs →
  Inv (p_world s) (acct_of (SState (Buffering items) b, Ghost γs ds dr un) ⊹ o) →
  s' ∈ fire_stage gctx k sg (SState (Buffering items) b) Unbuffer s → outcome (Buffering items).
Proof.
  intros Hst (-> & sg' & Hsg' & Hbar) Hw Hin. rewrite Hsg in Hsg'. injection Hsg' as <-.
  change (Inv (p_world s) (azero ⊹ total (d_acct <$> ds) ⊹ o)) in Hw. simpl in Hin.
  destruct (input_closed k s) eqn:Hcl; [|by apply elem_of_nil in Hin].
  destruct (ctx_err _ _) as [e|]; apply list_elem_of_singleton in Hin as ->.
  - rewrite (set_phase_with _ _ _ _ Hst).
    eexists (SState (Returned _) b, Ghost [] ds (items ++ dr) un), _, _. split; [done|].
    apply local_phase; simpl; (done || naive_solver).
  - destruct (sg_engine sg) as [run|] eqn:Heng.
    { rewrite (set_phase_with _ _ _ _ Hst).
      eexists (SState (Working items (p_world s)) b, Ghost [] ds dr un), _, _. split; [done|].
      apply local_phase; simpl; try done. intros -> _. by left. }
    destruct (start_workers_with k sg (FromBarrier items true) _ s Hst) as (inner & w & -> & Hinv).
    eexists (SState _ b, Ghost (replicate (sg_workers sg) azero) ds dr un), w, _. split; [done|].
    apply local_phase; try done.
    + rewrite total_replicate. by apply Hinv.
    + by apply idle_phase_ok.
    + simpl. assert (replicate (sg_workers sg) (Idle : worker W T) ≫= busy_of = []) as -> by by induction (sg_workers sg).
      by rewrite app_nil_r.
    + simpl. by induction (sg_workers sg).
    + intros -> _. left. split; [done|]. simpl. rewrite Hcl. split_and!; [done|done|]. by intros ?%no_one_ended.
Qed.

(** The goroutine that hands over the items of a barrier stage stops. *)
Lemma local_barrier q open' inner g ws m :
  let p := Running (FromBarrier q open') inner g ws in
  m = BarrierStop ∨ m = BarrierEnd →
  p_stages s !! k = Some (SState p b) → phase_ok k p γs →
  Inv (p_world s) (acct_of (SState p b, Ghost γs ds dr un) ⊹ o) →
  s' ∈ fire_stage gctx k sg (SState p b) m s → outcome p.
Proof.
  intros p Hm Hst Hph Hw Hin.
  assert (open' = true ∧ s' = set_phase k (Running (FromBarrier q false) inner g ws) s ∧
          (q = [] ∨ is_Some (ctx_err gctx (ctxs_of (p_world s))))) as (-> & -> & Hq).
  { destruct Hm as [-> | ->]; simpl in Hin; destruct q as [|x q], open'; try by apply elem_of_nil in Hin.
    - destruct (ctx_err _ _); [|by apply elem_of_nil in Hin]. apply list_elem_of_singleton in Hin. eauto.
    - apply list_elem_of_singleton in Hin. eauto. }
  rewrite (set_phase_with _ _ _ _ Hst). destruct Hph as ((sg' & Hsg' & Hlen & Hbar) & Hrest).
  eexists (SState (Running (FromBarrier q false) inner g ws) b, Ghost γs ds dr un), _, _. split; [done|].
  apply local_phase; try done; [split; [by exists sg'|done]|simpl; auto|].
  intros Hdr (Hc & _ & _). destruct Hq as [-> | Herr].
  - left. split; [done|]. simpl. done.
  - right; right. destruct (group_err (p_group s)) eqn:Hg; [left; eauto|]. right. exists s, k, sg'. by destruct Hlen.
Qed.

(** All workers have has_ended. *)
Lemma local_wait src inner g ws :
  let p := Running src inner g ws in
  p_stages s !! k = Some (SState p b) → phase_ok k p γs →
  Inv (p_world s) (acct_of (SState p b, Ghost γs ds dr un) ⊹ o) →
  s' ∈ fire_stage gctx k sg (SState p b) Wait s → outcome p.
Proof.
  intros p Hst ((sg' & Hsg' & [Hlen _] & Hbar) & Hlγ & Hws) Hw Hin. simpl in Hin.
  rewrite Hsg in Hsg'. injection Hsg' as <-.
  destruct (all_gone ws) eqn:Hgone; [|by apply elem_of_nil in Hin]. apply all_gone_spec in Hgone.
  destruct (gone_nothing ws γs k Hgone Hlγ Hws) as (Hsend & Hbusy & Hγ).
  change (Inv (p_world s) (total γs ⊹ total (d_acct <$> ds) ⊹ o)) in Hw. rewrite Hγ in Hw.
  apply list_elem_of_singleton in Hin as ->. rewrite (set_phase_with _ _ _ _ Hst).
  set (q := match src with FromInput => [] | FromBarrier q _ => q end).
  assert (held p = q) as Hheld.
  { destruct src; simpl; by rewrite Hbusy, ?app_nil_r. }
  assert (is_Some (group_err g) ∨ ¬ troubled_stage p) as Htr.
  { destruct (group_err g) as [e|] eqn:Hg; [left; eauto|right]. intros [Hs|(e & He)].
    - rewrite Hg in Hs. by destruct Hs.
    - rewrite Forall_forall in Hgone. by specialize (Hgone _ He). }
  assert (∃ i, ws !! i = Some WorkerGone) as [i Hi].
  { destruct ws as [|w ws]; [|exists 0%nat; apply Forall_cons in Hgone as [-> _]; done].
    pose proof (Hworkers sg ltac:(by eapply list_elem_of_lookup_2)). simpl in Hlen. lia. }
  destruct (group_err g) as [e|] eqn:Hg.
  - eexists (SState (Returned (Some (sg_error sg e))) b, Ghost [] ds (q ++ dr) un), _, _. split; [done|].
    apply local_phase; try done.
    + by rewrite Hheld.
    + by left.
    + by right; left.
  - eexists (SState (Finishing (sg_finish sg gctx)) b, Ghost [azero] ds (q ++ dr) un), _, _. split; [done|].
    apply local_phase; try done.
    + by rewrite total_one.
    + exists azero. split; [done|]. by apply (Hstart k).
    + by rewrite Hheld.
    + intros Ht. destruct Htr as [Hs|Hn]; [by destruct Hs|by destruct Hn].
    + intros -> Ht. left. assert (some_ended ws) as Hend by by exists i, WorkerGone.
      unfold q. destruct src as [|q0 open']; simpl in Ht |- *; [auto|].
      destruct Ht as (Hc & Hq & Ho). rewrite Hq by auto. done.
Qed.

(** The engine's stage hands over what the engine has returned. *)
Lemma local_emit q m :
  m = Emit ∨ m = StopEmit ∨ m = EmitEnd →
  p_stages s !! k = Some (SState (Emitting q) b) → phase_ok k (Emitting q) γs →
  Inv (p_world s) (acct_of (SState (Emitting q) b, Ghost γs ds dr un) ⊹ o) →
  s' ∈ fire_stage gctx k sg (SState (Emitting q) b) m s → outcome (Emitting q).
Proof.
  intros Hm Hst Hph Hw Hin. simpl in Hph. subst γs.
  change (Inv (p_world s) (azero ⊹ total (d_acct <$> ds) ⊹ o)) in Hw.
  destruct Hm as [-> | [-> | ->]]; simpl in Hin; destruct q as [|x q]; try by apply elem_of_nil in Hin.
  - case_match; [|by apply elem_of_nil in Hin]. apply list_elem_of_singleton in Hin as ->.
    eexists (SState (Emitting q) (b ++ [x]), Ghost [] ds dr un), (p_world s), _. split; [done|]. split; simpl; try done.
    + intros X. unfold emits, waits. simpl. intros HX. rewrite HX. simpl. solve_Permutation.
    + intros Ht. by left.
  - destruct (ctx_err _ _) as [e|]; [|by apply elem_of_nil in Hin]. apply list_elem_of_singleton in Hin as ->.
    rewrite (set_phase_with _ _ _ _ Hst).
    eexists (SState (Returned (Some (sg_error sg e))) b, Ghost [] ds dr ((x :: q) ++ un)), (p_world s), _. split; [done|]. split; simpl; try done.
    + intros X. unfold emits, waits. simpl. intros HX. rewrite HX. simpl. solve_Permutation.
    + intros _. by right; left.
  - apply list_elem_of_singleton in Hin as ->. rewrite (set_phase_with _ _ _ _ Hst).
    eexists (SState (Finishing (sg_finish sg gctx)) b, Ghost [azero] ds dr un), _, _. split; [done|].
    apply local_phase; try done.
    + by rewrite total_one.
    + exists azero. split; [done|]. by apply (Hstart k).
    + intros -> Ht. by left.
Qed.

(** The engine returns. *)
Lemma local_engine run items w r :
  sg_engine sg = Some run → p_stages s !! k = Some (SState (Working items w) b) → phase_ok k (Working items w) γs →
  (∀ x, x ∈ items → Item k x) → NoDup (index_of <$> items) → run gctx items w (p_world s) r →
  Inv (p_world s) (acct_of (SState (Working items w) b, Ghost γs ds dr un) ⊹ o) →
  s' = engine_end k sg r s → outcome (Working items w).
Proof.
  intros Heng Hst Hph Hitem Hnd Hrun Hw ->. simpl in Hph. subst γs.
  change (Inv (p_world s) (azero ⊹ total (d_acct <$> ds) ⊹ o)) in Hw.
  unfold engine_end. rewrite (set_phase_with _ _ _ _ Hst). destruct r as [out|e].
  - destruct (Hengine k sg run gctx items w (p_world s) out Hsg Heng) as (l & Hl & Hout & HQ); [by apply Forall_forall|done|done|].
    set (js := (λ xy : T * T, Done xy.1 (Ok xy.2) azero) <$> l : list (done T M)).
    assert (d_in <$> js = l.*1) as Hdin by (unfold js; by rewrite <-list_fmap_compose).
    assert (omap ok_of js = l.*2) as Hok by (unfold js; clear; induction l as [|xy l IH]; [done|]; simpl; by f_equal).
    assert (total (d_acct <$> js ++ ds) = total (d_acct <$> ds)) as Hacct.
    { unfold js. clear. induction l as [|xy l IH]; [done|]. simpl in *. by rewrite aplus_zero. }
    eexists (SState (Emitting out) b, Ghost [] (js ++ ds) dr un), (p_world s), _. split; [done|]. split; simpl; try done.
    + unfold acct_of. simpl. by rewrite Hacct.
    + apply Forall_app. split; [|done]. apply Forall_fmap, Forall_forall. intros [x y] Hxy. split; simpl.
      * apply Hitem. rewrite Hl. by apply (list_elem_of_fmap_2 fst l (x, y)).
      * rewrite Forall_forall in HQ. by apply (HQ (x, y)).
    + unfold arrived. simpl. rewrite fmap_app, Hdin, <-Hl. solve_Permutation.
    + intros X. unfold emits, waits. simpl. rewrite omap_app, Hok, <-Hout. intros HX. rewrite HX. solve_Permutation.
    + intros (Hdr & Hun & Hall & Ht). left. split_and!; try done. apply Forall_app. split; [|done].
      apply Forall_fmap, Forall_true. done.
  - eexists (SState (Returned (Some (sg_error sg e))) b, Ghost [] ds (items ++ dr) un), _, _. split; [done|].
    apply local_phase; simpl; (done || naive_solver).
Qed.

(** The stage's function returns to the pipeline's group. *)
Lemma local_end e :
  p_stages s !! k = Some (SState (Returned e) b) → phase_ok k (Returned e) γs →
  Inv (p_world s) (acct_of (SState (Returned e) b, Ghost γs ds dr un) ⊹ o) →
  s' ∈ fire_stage gctx k sg (SState (Returned e) b) EndStage s → outcome (Returned e).
Proof.
  intros Hst Hph Hw Hin. simpl in Hph. apply list_elem_of_singleton in Hin as ->.
  rewrite (set_phase_with _ _ _ _ Hst). unfold finish_go. simpl.
  pose proof (go_return_err gctx e (p_world s) (p_group s)) as Hg. simpl in Hg.
  eexists (SState Gone b, Ghost γs ds dr un), _, _. split; [done|].
  apply local_phase; try done.
  - destruct e, (group_err (p_group s)); auto.
  - intros [e0 He0]. rewrite Hg, He0. eauto.
  - intros Ht. right. rewrite Hg. destruct e; [|done]. destruct (group_err (p_group s)); eauto.
  - intros -> Ht. by left.
Qed.

(** A worker receives from the barrier. *)
Lemma local_receive q open' inner g ws i :
  let p := Running (FromBarrier q open') inner g ws in
  (∀ x, x ∈ held p → Item k x) →
  p_stages s !! k = Some (SState p b) → phase_ok k p γs →
  Inv (p_world s) (acct_of (SState p b, Ghost γs ds dr un) ⊹ o) →
  s' ∈ fire_stage gctx k sg (SState p b) (Receive i) s → outcome p.
Proof.
  intros p Hitem Hst Hph Hw Hin. simpl in Hin.
  destruct (ws !! i) as [[]|] eqn:Hi; try by apply elem_of_nil in Hin.
  destruct q as [|x q], open'; try by apply elem_of_nil in Hin.
  apply list_elem_of_singleton in Hin as ->. rewrite (set_phase_with _ _ _ _ Hst).
  assert (Item k x) as Hx by (apply Hitem; by left).
  pose proof (receive_phase_ok k sg _ (FromBarrier q true) inner g ws γs i x Hsg Hph Hi Hx I) as Hph'.
  destruct (receive_facts ws i x (sg_body sg inner x) Hi) as (Hsend & Hbusy & Hend & Herr).
  eexists (SState (Running (FromBarrier q true) inner g _) b, Ghost γs ds dr un), _, _. split; [done|].
  apply local_phase; try done.
  - simpl. rewrite Hbusy. solve_Permutation.
  - intros [Ht|(e & He)]; [by left; left|]. left; right. exists e. by apply Herr.
  - intros -> (Hc & _ & Ho). left. split; [done|]. simpl. split_and!; [done|done|auto].
Qed.

(** Every move that takes nothing from the stage's input. *)
Lemma local_fire_stage p m :
  (∀ x, x ∈ held p → Item k x) → ¬ pulls m p →
  p_stages s !! k = Some (SState p b) → phase_ok k p γs →
  Inv (p_world s) (acct_of (SState p b, Ghost γs ds dr un) ⊹ o) →
  s' ∈ fire_stage gctx k sg (SState p b) m s → outcome p.
Proof.
  intros Hitem Hm Hst Hph Hw Hin.
  destruct m, p; try (by apply elem_of_nil in Hin); try (by destruct Hm).
  - by eapply local_starting.
  - by eapply local_finishing.
  - by eapply local_unbuffer.
  - destruct src as [|q open']; [by apply elem_of_nil in Hin|]. by eapply local_barrier; [left|..].
  - destruct src as [|q open']; [by apply elem_of_nil in Hin|]. by eapply local_barrier; [right|..].
  - destruct src as [|q open']; [by destruct Hm|]. by eapply local_receive.
  - destruct (local_fire_worker o k s sg src gctx0 g ws b γs ds dr un i (Work i) s') as (c' & w' & ? & ?); eauto.
  - destruct (local_fire_worker o k s sg src gctx0 g ws b γs ds dr un i (Send i) s') as (c' & w' & ? & ?); eauto.
  - destruct (local_fire_worker o k s sg src gctx0 g ws b γs ds dr un i (StopSend i) s') as (c' & w' & ? & ?); eauto.
  - destruct (local_fire_worker o k s sg src gctx0 g ws b γs ds dr un i (Drain i) s') as (c' & w' & ? & ?); eauto.
  - destruct (local_fire_worker o k s sg src gctx0 g ws b γs ds dr un i (EndWorker i) s') as (c' & w' & ? & ?); eauto.
  - by eapply local_wait.
  - by eapply local_emit; [left|..].
  - by eapply local_emit; [right; left|..].
  - by eapply local_emit; [right; right|..].
  - by eapply local_end.
Qed.
End stage_moves.

(** ** Receiving over a channel *)

(** What is left once stage [k], or the collector, has received [x]. *)
Record popped s cs (dropped : list T) col (k : nat) (x : T) s1 (cs1 : list comp) : Prop := {
  po_stages : p_stages s1 = cs1.*1;
  po_same : p_world s1 = p_world s ∧ p_group s1 = p_group s ∧ p_results s1 = p_results s;
  po_collector : p_collected s1 = p_collected s;
  po_feeder e : p_feeder s = FeederEnd e → p_feeder s1 = FeederEnd e;
  po_length : length cs1 = length cs;
  po_world : acct_of <$> cs1 = acct_of <$> cs;
  po_stage i c1 : cs1 !! i = Some c1 → ∃ c, cs !! i = Some c ∧ ph c1.1 = ph c.1 ∧ c1.2 = c.2;
  po_back i c : cs !! i = Some c → ∃ c1, cs1 !! i = Some c1 ∧ ph c1.1 = ph c.1;
  po_item : Item k x;
  po_here c : cs !! k = Some c → cs1 !! k = Some c;
  po_closed i : input_closed i s = true → input_closed i s1 = true;
  po_receive d d' : cs !! k = Some d → arrived d' ≡ₚ x :: arrived d → emits d' = emits d → waits d' = waits d →
    flow inputs (queue_of (p_feeder s1) ++ dropped) (<[k := d']> cs1) col;
  po_collect : k = length cs → flow inputs (queue_of (p_feeder s1) ++ dropped) cs1 (x :: col);
}.

Lemma pop_spec s cs dropped col k x s1 :
  pinv s cs dropped col → input_pop k s = Some (x, s1) → ∃ cs1, popped s cs dropped col k x s1 cs1.
Proof.
  intros [Hs Hl Hw Hph Hd Hf Hr Hco] Hpop. destruct k as [|j]; simpl in Hpop.
  - destruct (p_feeder s) as [[|y q]| |] eqn:Hfd; try done. injection Hpop as -> <-. exists cs. simpl in Hf.
    split; simpl; try done.
    + intros e He. congruence.
    + intros i c Hc. by exists c.
    + intros i c Hc. by exists c.
    + apply Hinputs. destruct cs as [|c cs]; simpl in Hf; [rewrite Hf|destruct Hf as [-> _]]; left.
    + intros [|i]; [simpl; by rewrite Hfd|done].
    + intros d d' Hd0 Ha He Hwt. by eapply flow_receive_first.
    + intros Hk. destruct cs; [|done]. by eapply flow_collect_first.
  - destruct (p_stages s !! j) as [[p [|y b]]|] eqn:Hj; try done. injection Hpop as -> <-.
    rewrite Hs in Hj. apply list_lookup_fmap_Some in Hj as ([st gh] & Hst & Hj). simpl in Hst. subst st.
    exists (<[j := (SState p b, gh)]> cs). pose proof (lookup_lt_Some _ _ _ Hj) as Hlt. split; simpl; try done.
    + by rewrite list_fmap_insert, Hs.
    + by rewrite length_insert.
    + rewrite list_fmap_insert. apply list_insert_id. by rewrite list_lookup_fmap, Hj.
    + intros i c1 Hc1. destruct (decide (i = j)) as [->|Hne].
      * rewrite list_lookup_insert_eq in Hc1 by done. injection Hc1 as <-. by eexists.
      * rewrite list_lookup_insert_ne in Hc1 by done. by exists c1.
    + intros i c Hc. destruct (decide (i = j)) as [->|Hne].
      * rewrite list_lookup_insert_eq by done. eexists. split; [done|]. simpl. by rewrite Hj in Hc; injection Hc as <-.
      * rewrite list_lookup_insert_ne by done. by exists c.
    + destruct (flow_items 0 _ _ _ _ j _ Hf Hd ltac:(intros; by apply Hinputs) Hj) as (_ & Hit & _).
      apply Hit. unfold waits. simpl. set_solver.
    + intros c Hc. by rewrite list_lookup_insert_ne by lia.
    + intros [|i]; [done|]. destruct (decide (i = j)) as [->|Hne].
      * simpl. rewrite Hs, list_lookup_fmap, Hj. simpl. by rewrite andb_false_r.
      * simpl. by rewrite list_lookup_insert_ne.
    + intros d d' Hd0 Ha He Hwt. eapply flow_receive; try done. unfold waits. simpl. solve_Permutation.
    + intros Hk. eapply flow_collect; try done. unfold waits. simpl. solve_Permutation.
Qed.

Lemma popped_troubled s cs dropped col k x s1 cs1 :
  p_stages s = cs.*1 → popped s cs dropped col k x s1 cs1 → troubled s → troubled s1.
Proof.
  intros Hs Hp [Hg|[[e He]|(i & st & Hi & Ht)]].
  - left. by destruct (po_same _ _ _ _ _ _ _ _ Hp) as (_ & -> & _).
  - right; left. exists e. by apply (po_feeder _ _ _ _ _ _ _ _ Hp).
  - right; right. rewrite Hs in Hi. apply list_lookup_fmap_Some in Hi as (c & -> & Hc).
    destruct (po_back _ _ _ _ _ _ _ _ Hp i c Hc) as (c1 & Hc1 & Hph). exists i, c1.1.
    rewrite (po_stages _ _ _ _ _ _ _ _ Hp), list_lookup_fmap, Hc1, Hph. done.
Qed.

Lemma popped_tidy s cs dropped col k x s1 cs1 i c1 :
  popped s cs dropped col k x s1 cs1 → tidy s cs dropped → cs1 !! i = Some c1 →
  tidy_stage (input_closed i s1) c1.
Proof.
  intros Hp [_ Ht] Hi. destruct (po_stage _ _ _ _ _ _ _ _ Hp i c1 Hi) as (c & Hc & Hph & Hgh).
  destruct (Ht i c Hc) as (Hdr & Hun & Hall & Htp).
  assert (tidy_stage (input_closed i s) c1) as H1 by (unfold tidy_stage; rewrite Hph, Hgh; done).
  eapply tidy_stage_mono; [|done]. apply (po_closed _ _ _ _ _ _ _ _ Hp).
Qed.

(** Stage [k] takes [x] from its input. *)
Lemma good_pull s cs dropped col k p b γs ds dr un p' γs' x s1 :
  pinv s cs dropped col → bad s ∨ tidy s cs dropped →
  cs !! k = Some (SState p b, Ghost γs ds dr un) → input_pop k s = Some (x, s1) →
  out_closed (SState p b) = false → total γs' = total γs → (Item k x → phase_ok k p' γs') →
  held p' ≡ₚ x :: held p → sending p' = sending p → (troubled_stage p → troubled_stage p') →
  (∀ closed, tidy_phase closed p → tidy_phase closed p') →
  good (set_phase k p' s1).
Proof.
  intros Hp Hbt Hk Hpop Hcl Hγ Hph Hheld Hsend Htr Htidy.
  destruct (pop_spec _ _ _ _ _ _ _ Hp Hpop) as (cs1 & Hpo).
  pose proof (po_here _ _ _ _ _ _ _ _ Hpo _ Hk) as Hk1.
  assert (k < length cs1)%nat as Hlt by by eapply lookup_lt_Some.
  set (c' := (SState p' b, Ghost γs' ds dr un) : comp).
  assert (p_stages s1 !! k = Some (SState p b)) as Hst
    by (by rewrite (po_stages _ _ _ _ _ _ _ _ Hpo), list_lookup_fmap, Hk1).
  destruct (po_same _ _ _ _ _ _ _ _ Hpo) as (Hw & Hg & Hres).
  rewrite (set_phase_with _ _ _ _ Hst). exists (<[k := c']> cs1), dropped, col.
  destruct Hp as [Hs Hl Hinv Hphs Hds Hf Hr Hco]. split; [split; simpl|].
  - by rewrite (po_stages _ _ _ _ _ _ _ _ Hpo), list_fmap_insert.
  - by rewrite length_insert, (po_length _ _ _ _ _ _ _ _ Hpo).
  - rewrite Hw, (world_insert _ _ _ _ Hk1).
    assert (acct_of c' = acct_of (SState p b, Ghost γs ds dr un)) as -> by (unfold acct_of; simpl; by rewrite Hγ).
    by rewrite <-(world_insert _ _ _ _ Hk1), list_insert_id, (po_world _ _ _ _ _ _ _ _ Hpo) by done.
  - intros j c Hj. destruct (decide (j = k)) as [->|Hne].
    + rewrite list_lookup_insert_eq in Hj by done. injection Hj as <-. apply Hph, (po_item _ _ _ _ _ _ _ _ Hpo).
    + rewrite list_lookup_insert_ne in Hj by done.
      destruct (po_stage _ _ _ _ _ _ _ _ Hpo j c Hj) as (c0 & Hc0 & -> & ->). by apply Hphs.
  - intros j c Hj. destruct (decide (j = k)) as [->|Hne].
    + rewrite list_lookup_insert_eq in Hj by done. injection Hj as <-. by apply (Hds k _ Hk).
    + rewrite list_lookup_insert_ne in Hj by done.
      destruct (po_stage _ _ _ _ _ _ _ _ Hpo j c Hj) as (c0 & Hc0 & _ & ->). by apply Hds.
  - eapply (po_receive _ _ _ _ _ _ _ _ Hpo); [exact Hk| |done|unfold waits; simpl; by rewrite Hsend].
    unfold arrived. simpl. by rewrite Hheld.
  - by rewrite Hres.
  - rewrite (po_collector _ _ _ _ _ _ _ _ Hpo). intros Hc.
    eapply input_closed_with_stage; [exact Hst|by rewrite Hcl|]. apply (po_closed _ _ _ _ _ _ _ _ Hpo), Hco, Hc.
  - destruct Hbt as [[Ht|Hb]|Ht].
    + left; left. apply (popped_troubled _ _ _ _ _ _ _ _ Hs Hpo) in Ht as [Hgr|[He|(j & st & Hj & Ht)]].
      * by left.
      * by right; left.
      * right; right. destruct (decide (j = k)) as [->|Hne].
        -- exists k, (SState p' b). simpl. rewrite list_lookup_insert_eq by by eapply lookup_lt_Some.
           rewrite Hst in Hj. injection Hj as <-. auto.
        -- exists j, st. simpl. by rewrite list_lookup_insert_ne.
    + left; by right.
    + right. split; [apply Ht|]. intros j c Hj. eapply tidy_stage_mono with (input_closed j s1).
      { eapply input_closed_with_stage; [done|]. simpl. by rewrite Hcl. }
      destruct (decide (j = k)) as [->|Hne].
      * rewrite list_lookup_insert_eq in Hj by done. injection Hj as <-.
        destruct (popped_tidy _ _ _ _ _ _ _ _ k _ Hpo Ht Hk1) as (Hdr & Hun & Hall & Htp).
        split_and!; try done. by apply Htidy.
      * rewrite list_lookup_insert_ne in Hj by done. by eapply popped_tidy.
Qed.

(** Any move of a stage. *)
Lemma good_stage s cs dropped col k sg st m s' :
  pinv s cs dropped col → bad s ∨ tidy s cs dropped → rtc step start s →
  stages !! k = Some sg → p_stages s !! k = Some st → s' ∈ fire_stage gctx k sg st m s → good s'.
Proof.
  intros Hp Hbt Hreach Hsg Hst Hin. pose proof Hst as Hst'.
  rewrite (pi_stages _ _ _ _ Hp) in Hst'. apply list_lookup_fmap_Some in Hst' as ([[p b] [γs ds dr un]] & -> & Hk).
  pose proof (pi_phase _ _ _ _ Hp k _ Hk) as Hph. simpl in Hph.
  pose proof (pi_done _ _ _ _ Hp k _ Hk) as Hd. simpl in Hd.
  destruct (flow_items 0 _ _ _ _ k _ (pi_flow _ _ _ _ Hp) (pi_done _ _ _ _ Hp)
              ltac:(intros; by apply Hinputs) Hk) as (Harr & _ & _).
  assert (∀ x, x ∈ held p → Item k x) as Hitem by (intros x Hx; apply Harr; unfold arrived; set_solver).
  assert (pulls m p ∨ ¬ pulls m p) as [Hpull|Hpull].
  { destruct m, p; simpl; try (by right; intros []); try (by left). destruct src; [by left|by right; intros []]. }
  2: { destruct (local_fire_stage (total (delete k (acct_of <$> cs))) k s sg b γs ds dr un s' Hsg Hd Hreach p m)
         as (c' & w' & g' & -> & Hlo); try done.
       - rewrite <-(world_at _ _ _ Hk). by apply Hp.
       - by eapply good_local. }
  destruct m, p; try by destruct Hpull; try by apply elem_of_nil in Hin.
  - simpl in Hin. destruct (input_pop k s) as [[x s1]|] eqn:Hpop; [|by apply elem_of_nil in Hin].
    apply list_elem_of_singleton in Hin as ->.
    eapply (good_pull s cs dropped col k (Buffering items) b γs ds dr un _ γs); try done.
    simpl. by rewrite Permutation_app_comm.
  - destruct src as [|q open']; [|by destruct Hpull]. simpl in Hin.
    destruct (ws !! i) as [[]|] eqn:Hi; try by apply elem_of_nil in Hin.
    destruct (input_pop k s) as [[x s1]|] eqn:Hpop; [|by apply elem_of_nil in Hin].
    apply list_elem_of_singleton in Hin as ->.
    eapply (good_pull s cs dropped col k (Running FromInput gctx0 g ws) b γs ds dr un _ γs); try done.
    + intros Hx. by apply (receive_phase_ok k sg FromInput).
    + by apply receive_facts.
    + by apply receive_facts.
    + intros [Ht|(e & He)]; [by left|]. right. exists e. by apply receive_facts.
    + intros closed Ht Hend. apply Ht. by eapply receive_facts.
Qed.

(** An engine returns. *)
Lemma good_engine s k sg run items w b r :
  good s → rtc step start s → stages !! k = Some sg → sg_engine sg = Some run →
  p_stages s !! k = Some (SState (Working items w) b) → run gctx items w (p_world s) r → good (engine_end k sg r s).
Proof.
  intros (cs & dropped & col & Hp & Hbt) Hreach Hsg Heng Hst Hrun. pose proof Hst as Hst'.
  rewrite (pi_stages _ _ _ _ Hp) in Hst'. apply list_lookup_fmap_Some in Hst' as ([st [γs ds dr un]] & Heq & Hk).
  simpl in Heq. subst st.
  pose proof (pi_phase _ _ _ _ Hp k _ Hk) as Hph. pose proof (pi_done _ _ _ _ Hp k _ Hk) as Hd.
  destruct (flow_items 0 _ _ _ _ k _ (pi_flow _ _ _ _ Hp) (pi_done _ _ _ _ Hp)
              ltac:(intros; by apply Hinputs) Hk) as (Harr & _ & _).
  destruct (local_engine (total (delete k (acct_of <$> cs))) k s sg b γs ds dr un (engine_end k sg r s) Hsg Hd run items w r)
    as (c' & w' & g' & -> & Hlo); try done.
  - intros x Hx. apply Harr. unfold arrived. simpl. set_solver.
  - pose proof (flow_arrived 0 _ _ _ _ k _ (pi_flow _ _ _ _ Hp) (pi_done _ _ _ _ Hp) Hk) as Hsub.
    apply submseteq_Permutation in Hsub as [rest Hrest]. pose proof Hnodup as Hnd. rewrite Hrest in Hnd.
    unfold arrived in Hnd. simpl in Hnd. rewrite fmap_app, <-app_assoc in Hnd. by apply NoDup_app in Hnd as [? _].
  - rewrite <-(world_at _ _ _ Hk). by apply Hp.
  - by eapply good_local.
Qed.

(** The feeder moves. *)
Lemma good_feeder s cs dropped col f d w' g' :
  pinv s cs dropped col → bad s ∨ tidy s cs dropped →
  queue_of (p_feeder s) = queue_of f ++ d → (∀ m, Inv (p_world s) m → Inv w' m) →
  (is_Some (group_err (p_group s)) → is_Some (group_err g')) →
  ((∃ e, p_feeder s = FeederEnd (Some e)) → is_Some (group_err g')) →
  (d = [] ∨ (∃ e, f = FeederEnd (Some e)) ∨ is_Some (group_err g')) →
  (match p_feeder s with Feeding _ => true | _ => match f with Feeding _ => false | _ => true end end = true) →
  good (PState w' g' f (p_stages s) (p_collected s) (p_results s)).
Proof.
  intros [Hs Hl Hinv Hphs Hds Hf Hr Hco] Hbt Hq Hw Hg He Hd Hcl. exists cs, (d ++ dropped), col.
  set (s' := PState _ _ _ _ _ _). assert (∀ j, input_closed j s = true → input_closed j s' = true) as Hin.
  { intros [|j]; [|done]. simpl. destruct (p_feeder s); [done|destruct f; done..]. }
  split; [split; simpl; auto|].
  - eapply flow_weaken; [|exact Hf]. intros X ->. rewrite Hq. by rewrite !app_assoc.
  - destruct Hbt as [[[Ht|[Ht|Ht]]|Hb]|[Hdr Ht]].
    + left; left; left. auto.
    + left; left; left. auto.
    + left; left; right; by right.
    + left; by right.
    + destruct Hd as [->|[Hd|Hd]]; [right|left; left; right; by left|left; left; by left].
      split; [done|]. intros k c Hc. eapply tidy_stage_mono; [|by apply Ht]. apply Hin.
Qed.

(** The collector stores an item at its index. *)
Lemma good_collect s cs dropped col x s1 :
  pinv s cs dropped col → bad s ∨ tidy s cs dropped → input_pop (length stages) s = Some (x, s1) →
  good (PState (p_world s1) (p_group s1) (p_feeder s1) (p_stages s1) false (<[index_of x := x]> (p_results s1))).
Proof.
  intros Hp Hbt Hpop. destruct (pop_spec _ _ _ _ _ _ _ Hp Hpop) as (cs1 & Hpo).
  destruct (po_same _ _ _ _ _ _ _ _ Hpo) as (Hw & Hg & Hres). pose proof Hp as [Hs Hl Hinv Hphs Hds Hf Hr Hco].
  exists cs1, dropped, (x :: col).
  assert (flow inputs (queue_of (p_feeder s1) ++ dropped) cs1 (x :: col)) as Hf1
    by (apply (po_collect _ _ _ _ _ _ _ _ Hpo); lia).
  assert (∀ i c, cs1 !! i = Some c → Forall (done_ok (0 + i)) (g_done c.2)) as Hds1.
  { intros i c Hc. destruct (po_stage _ _ _ _ _ _ _ _ Hpo i c Hc) as (c0 & Hc0 & _ & ->). by apply Hds. }
  pose proof (flow_indexes 0 _ _ _ _ Hf1 Hds1) as Hsub.
  assert (NoDup (index_of <$> x :: col)) as Hnd by (apply submseteq_Permutation in Hsub as [rest Hrest]; rewrite Hrest in Hnodup; by apply NoDup_app in Hnodup as [? _]).
  split; [split; simpl|].
  - apply (po_stages _ _ _ _ _ _ _ _ Hpo).
  - by rewrite (po_length _ _ _ _ _ _ _ _ Hpo).
  - by rewrite Hw, (po_world _ _ _ _ _ _ _ _ Hpo).
  - intros i c Hc. destruct (po_stage _ _ _ _ _ _ _ _ Hpo i c Hc) as (c0 & Hc0 & -> & ->). by apply Hphs.
  - done.
  - done.
  - rewrite Hres. destruct Hr as (Hlen & Hr & Hfrom). rewrite length_insert. split; [done|].
    split; [|intros y (i & Hi)%list_elem_of_lookup; apply list_lookup_insert_Some in Hi as [(_ & -> & _)|[_ Hi]];
             [right; by left|]; apply list_elem_of_lookup_2, Hfrom in Hi as [?|?]; [by left|right; by right]].
    assert (∀ y, y ∈ x :: col → (index_of y < length inputs)%nat) as Hlt.
    { intros y Hy. assert (index_of y ∈ index_of <$> inputs) as (z & -> & Hz)%list_elem_of_fmap.
      { eapply elem_of_submseteq; [|exact Hsub]. by apply list_elem_of_fmap_2. }
      by apply Hinputs. }
    intros y [->|Hy]%elem_of_cons.
    + apply list_lookup_insert_eq. rewrite Hlen. apply Hlt. by left.
    + rewrite list_lookup_insert_ne; [by apply Hr|]. intros Heq. rewrite fmap_cons in Hnd.
      apply NoDup_cons in Hnd as [Hni _]. apply Hni. rewrite Heq. by apply list_elem_of_fmap_2.
  - done.
  - destruct Hbt as [[Ht|Hb]|Ht].
    + left; left. apply (popped_troubled _ _ _ _ _ _ _ _ Hs Hpo) in Ht as [Hgr|[He|Ht]];
        [left; exact Hgr|right; left; exact He|right; right; exact Ht].
    + left; by right.
    + right. split; [apply Ht|]. intros i c Hc.
      pose proof (popped_tidy _ _ _ _ _ _ _ _ i c Hpo Ht Hc) as Hti. by destruct i.
Qed.

(** The last channel is closed and empty: the collector returns. *)
Lemma good_done s cs dropped col :
  pinv s cs dropped col → bad s ∨ tidy s cs dropped → input_closed (length stages) s = true →
  good (finish_go gctx None (PState (p_world s) (p_group s) (p_feeder s) (p_stages s) true (p_results s))).
Proof.
  intros [Hs Hl Hw Hph Hd Hf Hr Hco] Hbt Hc. exists cs, dropped, col. split; [by split|].
  destruct Hbt as [[Ht|Hb]|Ht]; [left; left|left; by right|by right].
  destruct Ht as [Ht|Ht]; [|by right]. left. change (is_Some (group_err (report None (p_group s)))). by rewrite report_nil.
Qed.

Lemma good_move s s' : rtc step start s → good s → pmove index_of stages gctx s s' → good s'.
Proof.
  intros Hreach (cs & dropped & col & Hp & Hbt) [ch Hin].
  pose proof (λ o, go_return_err gctx o (p_world s) (p_group s)) as Hgo.
  assert (∀ o m, Inv (p_world s) m → Inv (go_return gctx o (p_world s) (p_group s)).1 m) as Hinv.
  { intros o m Hm. unfold go_return. destruct o, (group_err _); simpl; auto. }
  assert (∀ o, is_Some (group_err (p_group s)) → is_Some (group_err (go_return gctx o (p_world s) (p_group s)).2)) as Hkeep.
  { intros o [e He]. rewrite Hgo, He. eauto. }
  destruct ch as [| | |k m| |]; simpl in Hin.
  - destruct (p_feeder s) as [[|x q]| |] eqn:Hfd; try by apply elem_of_nil in Hin.
    destruct (ctx_err _ _) as [e|]; [|by apply elem_of_nil in Hin]. apply list_elem_of_singleton in Hin as ->.
    apply (good_feeder s cs dropped col _ (x :: q)); try done; rewrite ?Hfd; simpl; try done;
      [by intros [e0 [=]]|right; left; by exists e].
  - destruct (p_feeder s) as [[|x q]| |] eqn:Hfd; try by apply elem_of_nil in Hin.
    apply list_elem_of_singleton in Hin as ->.
    apply (good_feeder s cs dropped col _ []); try done; rewrite ?Hfd; simpl; try done; [by intros [e0 [=]]|by left].
  - destruct (p_feeder s) as [|o|] eqn:Hfd; try by apply elem_of_nil in Hin.
    apply list_elem_of_singleton in Hin as ->. unfold finish_go. simpl.
    apply (good_feeder s cs dropped col FeederGone []); try done; rewrite ?Hfd; simpl; try done.
    + apply Hinv.
    + apply Hkeep.
    + intros [e [= ->]]. specialize (Hgo (Some e)). simpl in Hgo. rewrite Hgo. destruct (group_err (p_group s)); eauto.
    + by left.
  - destruct (stages !! k) as [sg|] eqn:Hsg; [|by apply elem_of_nil in Hin].
    destruct (p_stages s !! k) as [st|] eqn:Hst; [|by apply elem_of_nil in Hin]. by eapply good_stage.
  - destruct (p_collected s); [by apply elem_of_nil in Hin|].
    destruct (input_pop (length stages) s) as [[x s1]|] eqn:Hpop; [|by apply elem_of_nil in Hin].
    apply list_elem_of_singleton in Hin as ->. by eapply good_collect.
  - destruct (_ && _) eqn:Hc; [|by apply elem_of_nil in Hin]. apply andb_prop in Hc as [_ Hc].
    apply list_elem_of_singleton in Hin as ->. by apply (good_done s cs dropped col).
Qed.

Lemma good_env s w : good s → Env (p_world s) w → good (set_world w s).
Proof.
  intros (cs & dropped & col & [Hs Hl Hw Hph Hd Hf Hr Hco] & Hbt) He. exists cs, dropped, col.
  split; [split; try done; by eapply Henv|]. destruct Hbt as [[Ht|Hb]|Ht]; [left; by left|left; by right|by right].
Qed.

Lemma good_reach s : good start → rtc step start s → good s.
Proof.
  intros Hg. revert s. apply (rtc_ind_r (R := step)); [done|]. intros s1 s2 Hs Hstep IH.
  destruct Hstep; [by eapply good_move|by eapply good_engine|by apply good_env].
Qed.

(** ** The end of a run *)

(** [x] went through stages [k], ..., [k + n - 1] and became [y]; its jobs has_ended with
    accounts that add up to [m]. *)
Fixpoint through (k n : nat) (x : T) (m : M) (y : T) : Prop :=
  match n with
  | O => y = x ∧ m = azero
  | S n => ∃ z m1 m2, Q k x (Ok z) m1 ∧ through (S k) n z m2 y ∧ m = m1 ⊹ m2
  end.

Notation trip := (T * M * T)%type.
Definition trip_in (t : trip) : T := t.1.1.
Definition trip_acct (t : trip) : M := t.1.2.
Definition trip_out (t : trip) : T := t.2.
Definition trip_ok (k n : nat) (t : trip) : Prop :=
  through k n (trip_in t) (trip_acct t) (trip_out t).

Lemma trips_extend k n (ds : list (done T M)) (l : list trip) :
  Forall (done_ok k) ds → Forall (λ d, is_ok (d_res d) = true) ds →
  omap ok_of ds = trip_in <$> l → Forall (trip_ok (S k) n) l →
  ∃ l', d_in <$> ds = trip_in <$> l' ∧ trip_out <$> l' = trip_out <$> l ∧ Forall (trip_ok k (S n)) l' ∧
        total (trip_acct <$> l') = total (d_acct <$> ds) ⊹ total (trip_acct <$> l).
Proof.
  intros Hd Hok. revert l. induction Hd as [|[x r m] ds [Hi HQ] _ IH]; intros l Hl Ht.
  - simpl in Hl. symmetry in Hl. apply fmap_nil_inv in Hl as ->. exists []. simpl. by rewrite aplus_zero.
  - apply Forall_cons in Hok as [Hr Hok]. simpl in Hr, HQ. destruct r as [z|e]; [|done].
    destruct l as [|[[z' m2] y] l]; [done|]. simpl in Hl. injection Hl as Hz Hl.
    change (z = z') in Hz. subst z'. apply Forall_cons in Ht as [Ht1 Ht]. destruct (IH Hok l Hl Ht) as (l' & Hin & Hout & Htr & Hm).
    exists ((x, m ⊹ m2, y) :: l'). rewrite !fmap_cons. split_and!.
    + simpl. by rewrite Hin.
    + simpl. by rewrite Hout.
    + constructor; [|done]. exists z, m, m2. done.
    + simpl. fold (total (trip_acct <$> l')). fold (total (d_acct <$> ds)). fold (total (trip_acct <$> l)).
      rewrite Hm, (aplus_assoc (trip_acct _)). apply swap_accounts.
Qed.

(** A stage that has has_ended without losing an item. *)
Definition over (c : comp) : Prop :=
  ph c.1 = Gone ∧ buf c.1 = [] ∧ g_accts c.2 = [] ∧ g_dropped c.2 = [] ∧ g_unsent c.2 = [] ∧
  Forall (λ d, is_ok (d_res d) = true) (g_done c.2).

Lemma flow_trips k em cs col :
  flow em [] cs col → (∀ i c, cs !! i = Some c → Forall (done_ok (k + i)) (g_done c.2) ∧ over c) →
  ∃ l : list trip, em ≡ₚ trip_in <$> l ∧ col ≡ₚ trip_out <$> l ∧ Forall (trip_ok k (length cs)) l ∧
    total (trip_acct <$> l) = total (acct_of <$> cs).
Proof.
  revert k em. induction cs as [|c cs IH]; intros k em Hf Hcs.
  - simpl in Hf. exists ((λ x, (x, azero, x)) <$> em). rewrite <-!list_fmap_compose. unfold compose, trip_in, trip_out, trip_acct.
    simpl. split_and!.
    + by rewrite list_fmap_id.
    + by rewrite list_fmap_id, Hf.
    + apply Forall_fmap, Forall_true. by split.
    + clear Hf. induction em as [|x em IHem]; [done|]. simpl. rewrite aplus_zero. exact IHem.
  - destruct Hf as [Hl Hf]. destruct (Hcs 0%nat c eq_refl) as [Hd (Hg & Hb & Ha & Hdr & Hun & Hok)].
    rewrite Nat.add_0_r in Hd.
    assert (waits c = []) as Hwt by (unfold waits; by rewrite Hg, Hb, Hun). rewrite Hwt in Hf.
    destruct (IH (S k) (emits c) Hf) as (l & Hin & Hout & Htr & Hm).
    { intros i c' Hc'. replace (S k + i)%nat with (k + S i)%nat by lia. by apply (Hcs (S i)). }
    apply Permutation_map_inv in Hin as (l2 & Hin & Hl2).
    destruct (trips_extend k (length cs) (g_done c.2) l2 Hd Hok Hin) as (l3 & Hin3 & Hout3 & Htr3 & Hm3).
    { by rewrite <-Hl2. }
    exists l3. split_and!; [|by rewrite Hout3, <-Hl2|done|].
    + rewrite Hl. unfold arrived. rewrite Hg, Hdr. simpl. by rewrite Hin3.
    + change (total (acct_of <$> c :: cs)) with (acct_of c ⊹ total (acct_of <$> cs)).
      rewrite Hm3, <-Hm, (total_perm _ _ (fmap_Permutation trip_acct _ _ Hl2)). unfold acct_of. rewrite Ha. simpl. by rewrite aplus_zero.
Qed.

Lemma through_index k n x m y : Item k x → through k n x m y → index_of y = index_of x.
Proof.
  revert k x m. induction n as [|n IH]; intros k x m Hx; simpl; [by intros [-> _]|].
  intros (z & m1 & m2 & HQ & Ht & _). destruct (Hnext _ _ _ _ Hx HQ) as [Hz <-]. by eapply IH.
Qed.

(** The run returned without an error. *)
Lemma good_final s :
  good s → pfinal s → group_err (p_group s) = None → ¬ barrier_stopped →
  length (p_results s) = length inputs ∧
  ∃ ms, Inv (p_world s) (total ms) ∧ length ms = length inputs ∧
    ∀ i x, inputs !! i = Some x → ∃ m y, ms !! i = Some m ∧ p_results s !! index_of x = Some y ∧
                                         through 0 (length stages) x m y.
Proof.
  intros (cs & dropped & col & [Hs Hl Hw Hph Hd Hf Hr Hco] & Hbt) (Hfd & Hgone & Hcol) Hg Hb.
  split; [apply Hr|]. destruct Hr as (_ & Hr & _). rewrite Hs, Forall_fmap, Forall_lookup in Hgone.
  destruct Hbt as [[[[e He]|[[e He]|(k & st & Hk & Ht)]]|Ht]|[-> Ht]]; [congruence|congruence| |done|].
  { rewrite Hs in Hk. apply list_lookup_fmap_Some in Hk as (c & -> & Hk).
    specialize (Hgone k c Hk). simpl in Hgone. by rewrite Hgone in Ht. }
  assert (∀ k, input_closed (S k) s = true → ∀ c, cs !! k = Some c → buf c.1 = []) as Hbuf.
  { intros k Hc c Hk. simpl in Hc. rewrite Hs, list_lookup_fmap, Hk in Hc. simpl in Hc.
    apply andb_prop in Hc as [_ Hc]. by destruct (buf c.1). }
  assert (∀ i c, cs !! i = Some c → over c) as Hover.
  { intros i c Hi. destruct (Ht i c Hi) as (Hdr & Hun & Hall & _). pose proof (Hgone i c Hi) as Hgi. simpl in Hgi.
    specialize (Hph i c Hi). rewrite Hgi in Hph. split_and!; try done.
    destruct (decide (S i = length cs)) as [Heq|Hne].
    - apply (Hbuf i); [|done]. rewrite Heq, Hl. by apply Hco.
    - destruct (lookup_lt_is_Some_2 cs (S i)) as [d Hd']; [pose proof (lookup_lt_Some _ _ _ Hi); lia|].
      apply (Hbuf i); [|done]. destruct (Ht _ _ Hd') as (_ & _ & _ & Htp). specialize (Hgone _ _ Hd'). simpl in Hgone.
      by rewrite Hgone in Htp. }
  rewrite Hfd in Hf. simpl in Hf.
  destruct (flow_trips 0 _ _ _ Hf) as (l & Hin & Hout & Htr & Hm); [intros i c Hi; split; [by apply Hd|by eapply Hover]|].
  apply Permutation_map_inv in Hin as (l2 & Hin & Hl2).
  assert (total (trip_acct <$> l2) = total (acct_of <$> cs)) as Hm2.
  { rewrite <-Hm. symmetry. by apply total_perm, fmap_Permutation. }
  exists (trip_acct <$> l2). rewrite Hm2, length_fmap. split; [done|]. split; [rewrite Hin; unfold trip_in; by rewrite length_map|].
  intros i x Hi. rewrite Hin in Hi. apply list_lookup_fmap_Some in Hi as (t & -> & Ht2).
  assert (trip_ok 0 (length stages) t) as Htrip.
  { rewrite <-Hl. rewrite Hl2, Forall_forall in Htr. apply Htr. by eapply list_elem_of_lookup_2. }
  exists (trip_acct t), (trip_out t). split; [by rewrite list_lookup_fmap, Ht2|]. split; [|done].
  assert (trip_in t ∈ inputs) as Hti by (rewrite Hin; apply list_elem_of_fmap_2; by eapply list_elem_of_lookup_2).
  rewrite <-(through_index 0 (length stages) _ _ _ (proj1 (Hinputs _ Hti)) Htrip). apply Hr. rewrite Hout, Hl2.
  apply list_elem_of_fmap_2. by eapply list_elem_of_lookup_2.
Qed.
End invariant.

(** ** What a run of the pipeline returns *)

Section contract.
Context {U W : Type} `{!Has (limits U) W} {EG : ErrGroup} {T : Type} `{Account M}.
Context (index_of : T → nat) (zero : T) (Env : W → W → Prop) (stages : list (stage W T)) (c : ctx)
  (inputs : list T) (w : W) (Inv : W → M → Prop)
  (Item : nat → T → Prop) (Q : nat → T → res T → M → Prop).

Definition stages_reach (gctx : ctx) (s : pstate W T) : Prop :=
  ∃ t, WithCancel c (ctxs_of w) = (t, gctx) ∧
       rtc (pstep index_of stages gctx Env) (pipe_start stages gctx zero inputs (map_ctxs (λ _, t) w)) s.

(** The caller cancels no run of a pipeline with a barrier stage. *)
Definition undisturbed : Prop :=
  ∀ gctx s k sg, stages_reach gctx s → stages !! k = Some sg → sg_barrier sg = true → sg_engine sg = None →
    group_err (p_group s) = None → ctx_err gctx (ctxs_of (p_world s)) = None.

(** What the contract asks of the stages: what a stage's job does to an item it can
    receive, and that the ledger events leave no account open. *)
Record stages_ok : Prop := {
  so_inputs x : x ∈ inputs → Item 0 x ∧ (index_of x < length inputs)%nat;
  so_nodup : NoDup (index_of <$> inputs);
  so_next k x y m : Item k x → Q k x (Ok y) m → Item (S k) y ∧ index_of y = index_of x;
  so_body k sg inner x : stages !! k = Some sg → sg_engine sg = None → Item k x → owns Inv (Q k x) (sg_body sg inner x) azero;
  so_events k sg gctx : stages !! k = Some sg →
    owns Inv (λ _ m, m = azero) (sg_start sg gctx) azero ∧ owns Inv (λ _ m, m = azero) (sg_finish sg gctx) azero;
  so_env u u' m : Inv u m → Env u u' → Inv u' m;
  so_ctxs f u m : Inv u m → Inv (map_ctxs f u) m;
  so_workers sg : sg ∈ stages → (1 ≤ sg_workers sg)%nat;
  so_drains k sg : stages !! k = Some sg → is_Some (sg_engine sg) → sg_barrier sg = true;
  so_engine k sg run inner items u u' out : stages !! k = Some sg → sg_engine sg = Some run →
    Forall (Item k) items → NoDup (index_of <$> items) → run inner items u u' (Ok out) →
    ∃ l : list (T * T), items ≡ₚ l.*1 ∧ out ≡ₚ l.*2 ∧ Forall (λ '(x, y), Q k x (Ok y) azero) l;
}.

(** Every item went through every stage once, and its accounts are known. *)
Definition exact_results (rs : list T) (w' : W) : Prop :=
  length rs = length inputs ∧
  ∃ ms, Inv w' (total ms) ∧ length ms = length inputs ∧
    ∀ i x, inputs !! i = Some x →
      ∃ m y, ms !! i = Some m ∧ rs !! index_of x = Some y ∧ through Q 0 (length stages) x m y.

Definition fresh (gctx : ctx) (sg : stage W T) : sstate W T * ghost T M :=
  (SState (Starting (sg_start sg gctx)) [], Ghost [azero] [] [] []).

Lemma fresh_acct gctx sg : acct_of (fresh gctx sg) = azero.
Proof. unfold acct_of. simpl. by rewrite !aplus_zero. Qed.

Lemma fresh_total gctx l : total (acct_of <$> (fresh gctx <$> l)) = azero.
Proof.
  induction l as [|sg l IH]; [done|].
  change (acct_of (fresh gctx sg) ⊹ total (acct_of <$> (fresh gctx <$> l)) = azero).
  by rewrite fresh_acct, IH, aplus_zero.
Qed.

Lemma fresh_flow gctx l : flow [] [] (fresh gctx <$> l) [].
Proof. induction l as [|sg l IH]; [constructor|]. split; [constructor|exact IH]. Qed.

Lemma good_start gctx t :
  let start := pipe_start stages gctx zero inputs (map_ctxs (λ _, t) w) in
  stages_ok → Inv w azero → good index_of Env stages gctx inputs start Inv Item Q start.
Proof.
  intros start Hok Hw.
  assert (∀ k c0, (fresh gctx <$> stages) !! k = Some c0 → ∃ sg, stages !! k = Some sg ∧ c0 = fresh gctx sg) as Hlook.
  { intros k c0 (sg & -> & Hsg)%list_lookup_fmap_Some. eauto. }
  exists (fresh gctx <$> stages), [], []. split; [split|].
  - simpl. by rewrite <-list_fmap_compose.
  - by rewrite length_fmap.
  - rewrite fresh_total. by apply (so_ctxs Hok).
  - intros k c0 (sg & Hsg & ->)%Hlook. exists azero. split; [done|]. by eapply (so_events Hok).
  - intros k c0 (sg & Hsg & ->)%Hlook. simpl. constructor.
  - change (flow inputs (inputs ++ []) (fresh gctx <$> stages) []). rewrite app_nil_r.
    destruct (fresh gctx <$> stages) as [|c0 l] eqn:Hl; [simpl; by rewrite app_nil_r|].
    destruct stages as [|sg l']; [done|]. injection Hl as <- <-. simpl. unfold arrived, emits, waits. simpl.
    rewrite !app_nil_r. split; [done|apply fresh_flow].
  - simpl. rewrite length_replicate. split; [done|]. split; [|by left]. intros x Hx. by apply elem_of_nil in Hx.
  - done.
  - right. split; [done|]. intros k c0 (sg & Hsg & ->)%Hlook. repeat split. constructor.
Qed.

Lemma pipeline_good gctx s :
  stages_ok → Inv w azero → stages_reach gctx s →
  ∃ start, rtc (pstep index_of stages gctx Env) start s ∧ stages_reach gctx start ∧
           (∀ s, rtc (pstep index_of stages gctx Env) start s → stages_reach gctx s) ∧
           good index_of Env stages gctx inputs start Inv Item Q s.
Proof.
  intros Hok Hw (t & Ht & Hs). exists (pipe_start stages gctx zero inputs (map_ctxs (λ _, t) w)).
  split; [done|]. split; [by exists t|]. split; [intros s' Hs'; by exists t|].
  apply good_reach; try apply Hok; try done; [|by apply good_start].
  intros k sg. apply (so_events Hok).
Qed.

(** At every moment of a run, whether it will fail or not: an item at work in a stage is
    one the stage expects, and so is every result for what comes after the last. *)
Lemma pipeline_states gctx s :
  stages_ok → Inv w azero → stages_reach gctx s →
  (∀ k src inner g ws b i x p, p_stages s !! k = Some (SState (Running src inner g ws) b) →
     ws !! i = Some (Busy x p) → Item k x) ∧
  (∀ x, x ∈ p_results s → x = zero ∨ Item (length stages) x).
Proof.
  intros Hok Hw Hreach. destruct Hreach as (t & Ht & Hs).
  set (start := pipe_start stages gctx zero inputs (map_ctxs (λ _, t) w)) in *.
  assert (good index_of Env stages gctx inputs start Inv Item Q s) as (cs & dropped & col & Hp & _).
  { apply good_reach; try apply Hok; try done; [|by apply good_start]. intros k sg. apply (so_events Hok). }
  split.
  - intros k src inner g ws b i x p Hk Hi. rewrite (pi_stages _ _ _ _ _ _ _ _ _ _ _ Hp) in Hk.
    apply list_lookup_fmap_Some in Hk as ([st gh] & Heq & Hk). simpl in Heq. subst st.
    destruct (pi_phase _ _ _ _ _ _ _ _ _ _ _ Hp k _ Hk) as (_ & Hlen & Hws). simpl in Hlen, Hws.
    destruct (lookup_lt_is_Some_2 (g_accts gh) i) as [γ Hγ]; [rewrite Hlen; by eapply lookup_lt_Some|].
    by destruct (Hws i _ γ Hi Hγ).
  - intros x Hx. destruct (pi_results _ _ _ _ _ _ _ _ _ _ _ Hp) as (_ & _ & Hfrom).
    destruct (Hfrom x Hx) as [Hz|Hcol]; [left; simpl in Hz; by apply elem_of_replicate in Hz as [-> _]|right].
    pose proof (pi_flow _ _ _ _ _ _ _ _ _ _ _ Hp) as Hf. rewrite <-(pi_length _ _ _ _ _ _ _ _ _ _ _ Hp).
    destruct cs as [|c0 cs].
    + apply Hok. simpl in Hf. rewrite Hf. set_solver.
    + assert (Forall (Item (0 + length (c0 :: cs))) col) as Hcols; [|by rewrite Forall_forall in Hcols; apply Hcols].
      apply Forall_forall. eapply flow_items with (gctx := gctx) (j := 0%nat); try apply Hok; try exact Hf; try done;
        [intros k sg; apply (so_events Hok)|by eapply pi_done].
Qed.

Lemma pipeline_results w' rs :
  stages_ok → Inv w azero → undisturbed →
  pipeline_returns index_of zero Env stages c inputs w w' (Ok rs) → exact_results rs w'.
Proof.
  intros Hok Hw Hcalm Hret. remember (Ok rs) as r eqn:Hr. destruct Hret as [t gctx s Ht Hs Hfin].
  unfold pipe_result in Hr. destruct (group_err (p_group s)) eqn:Hg; [done|]. injection Hr as <-.
  destruct (pipeline_good gctx s Hok Hw) as (start & Hrs & _ & Hall & Hgood); [by exists t|].
  eapply good_final; [..|exact Hgood|done|done|]; try apply Hok.
  intros (s0 & k & sg & Hs0 & Hsg & Hbar & Hno & Hg0 & Hctx). rewrite (Hcalm gctx s0 k sg) in Hctx; [by destruct Hctx|by apply Hall|done..].
Qed.

Lemma pipeline_world w' r :
  stages_ok → Inv w azero → pipeline_returns index_of zero Env stages c inputs w w' r → ∃ m, Inv w' m.
Proof.
  intros Hok Hw [t gctx s Ht Hs Hfin].
  destruct (pipeline_good gctx s Hok Hw) as (? & _ & _ & _ & cs & dropped & col & Hp & _); [by exists t|].
  eexists. apply Hp.
Qed.

(** C6: A pipeline either returns an error, or every input went through every stage
    exactly once, in the order of the stages, and its result is stored at its index;
    either way the invariant of the world holds afterwards.  The caller may cancel a
    run without a barrier stage at any moment. *)
Theorem pipeline_contract w' r :
  stages_ok → Inv w azero → undisturbed →
  pipeline_returns index_of zero Env stages c inputs w w' r →
  match r with Ok rs => exact_results rs w' | Err _ => ∃ m, Inv w' m end.
Proof.
  intros Hok Hw Hcalm Hret. destruct r as [rs|e]; [by eapply pipeline_results|by eapply pipeline_world].
Qed.
End contract.

(** ** Executing a schedule *)

Section play.
Context {U W : Type} `{!Has (limits U) W} {EG : ErrGroup} {T : Type} (index_of : T → nat)
  (stages : list (stage W T)) (gctx : ctx).

(** The first of [chs] that is enabled, with its first result; [fuel] such moves. *)
Fixpoint first_enabled (chs : list choice) (s : pstate W T) : option (pstate W T) :=
  match chs with
  | [] => None
  | ch :: chs => match fire index_of stages gctx ch s with s' :: _ => Some s' | [] => first_enabled chs s end
  end.

Fixpoint play (fuel : nat) (chs : list choice) (s : pstate W T) : pstate W T :=
  match fuel with
  | O => s
  | S fuel => match first_enabled chs s with Some s' => play fuel chs s' | None => s end
  end.

Lemma first_enabled_move chs s s' : first_enabled chs s = Some s' → pmove index_of stages gctx s s'.
Proof.
  induction chs as [|ch chs IH]; simpl; [done|]. destruct (fire index_of stages gctx ch s) as [|s1 l] eqn:Hf; [done|].
  intros [= <-]. exists ch. rewrite Hf. by left.
Qed.

Lemma play_steps Env fuel chs s : rtc (pstep index_of stages gctx Env) s (play fuel chs s).
Proof.
  revert s. induction fuel as [|fuel IH]; intros s; simpl; [done|].
  destruct (first_enabled chs s) as [s'|] eqn:Hs; [|done]. eapply rtc_l; [|apply IH].
  constructor. by eapply first_enabled_move.
Qed.
End play.

Section example.
Notation W := (limits unit).
Notation item := (nat * Z)%type.

Definition quiet_world : W := Limits (Ctxs ∅ 1) [] [] [] tt.
Definition compute (f : Z → Z) (workers : nat) (barrier : bool) : stage W item :=
  MkStage workers barrier (λ _, Ret (Ok tt)) (λ _ x, Ret (Ok (x.1, f x.2))) (λ _, Ret (Ok tt)) id None.

(** Two workers double the items, then one adds one. *)
Definition double_stage := compute (Z.mul 2) 2 false.
Definition succ_stage := compute Z.succ 1 false.
Definition two_stages : list (stage W item) := [double_stage; succ_stage].
Definition two_items : list item := [(1%nat, 5); (0%nat, 7)].
Definition stage_moves (k : nat) : list choice :=
  At k <$> [StageStep; Buffer; Unbuffer; Receive 0; Receive 1; Work 1; Work 0; Send 1; Send 0; BarrierEnd;
            Drain 0; Drain 1; EndWorker 0; EndWorker 1; Wait; EndStage].
Definition all_moves : list choice := Collect :: stage_moves 0 ++ stage_moves 1 ++ [FeedAll; EndFeeder; EndCollect].
Definition run_ctx : ctx := [1; 0]%nat.

Definition two_start : pstate W item :=
  pipe_start two_stages run_ctx (0%nat, 0) two_items (map_ctxs (λ _, (WithCancel [0%nat] (ctxs_of quiet_world)).1) quiet_world).
Definition two_end : pstate W item := play fst two_stages run_ctx 60 all_moves two_start.

Lemma two_run Env :
  pipeline_returns fst (0%nat, 0) Env two_stages [0%nat] two_items quiet_world (p_world two_end) (Ok [(0%nat, 15); (1%nat, 11)]).
Proof.
  assert (pipe_result two_end = Ok [(0%nat, 15); (1%nat, 11)]) as <- by (vm_compute; reflexivity).
  eapply (pipe_runs _ _ _ _ _ _ _ _ run_ctx two_end); [reflexivity|apply play_steps|].
  vm_compute. split; [done|]. split; [|done]. repeat constructor.
Qed.

Definition two_jobs (k : nat) (x : item) (r : res item) (m : Z) : Prop :=
  r = Ok (x.1, (if decide (k = 0)%nat then 2 * x.2 else Z.succ x.2)) ∧ m = 0.

Lemma two_stages_ok :
  stages_ok fst eq two_stages two_items (λ _ (m : Z), m = 0) (λ _ x, (x.1 < 2)%nat) two_jobs.
Proof.
  split.
  - intros x Hx. unfold two_items in Hx. rewrite !elem_of_cons in Hx. destruct Hx as [->|[->|Hx]]; [simpl; lia..|].
    by apply elem_of_nil in Hx.
  - apply (bool_decide_unpack _). vm_compute. exact I.
  - intros k x y m Hx [[= ->] _]. done.
  - intros [|[|k]] sg inner x Hsg _ Hx; [injection Hsg as <-..|done]; by split.
  - intros [|[|k]] sg gctx Hsg; [injection Hsg as <-..|done]; by split.
  - by intros u u' m ? <-.
  - done.
  - intros sg Hsg. unfold two_stages in Hsg. rewrite !elem_of_cons in Hsg. destruct Hsg as [->|[->|Hsg]]; [simpl; lia..|].
    by apply elem_of_nil in Hsg.
  - intros [|[|k]] sg Hsg [run Hrun]; [injection Hsg as <-..|]; done.
  - intros [|[|k]] sg run inner xs u u' out Hsg Hrun; [injection Hsg as <-..|]; done.
Qed.

Lemma pipeline_contract_witness :
  ∃ ms, total ms = 0 ∧ through (M := Z) two_jobs 0 2 (1%nat, 5) (default 0 (ms !! 0%nat)) (1%nat, 11).
Proof.
  destruct (pipeline_contract fst (0%nat, 0) eq two_stages [0%nat] two_items quiet_world (λ _ (m : Z), m = 0)
              (λ _ x, (x.1 < 2)%nat) two_jobs (p_world two_end) (Ok [(0%nat, 15); (1%nat, 11)])
              two_stages_ok eq_refl)
    as [_ (ms & Hw & _ & Hall)].
  - intros gctx s [|[|k]] sg _ Hsg Hbar; [injection Hsg as <-..|]; done.
  - apply two_run.
  - exists ms. split; [exact Hw|]. destruct (Hall 0%nat (1%nat, 5) eq_refl) as (m & y & -> & Hy & Ht).
    injection Hy as <-. exact Ht.
Defined.

(** ** A canceled barrier

    The goroutine that hands the items of a barrier stage to its workers stops when
    the context is done, and closes the channel all the same; the workers then end
    as if they had seen every item, and the stage returns no error.  So a run that
    is canceled at that moment can succeed, with zero values for the items that
    were never processed. *)
Definition canceling : W → W → Prop := λ w w', w' = map_ctxs (cancel [0%nat] (Sentinel Canceled)) w.
Definition barrier_stages : list (stage W item) := [compute Z.succ 1 true].
Definition filled : pstate W item :=
  play fst barrier_stages run_ctx 40 ([At 0 StageStep; At 0 Buffer; FeedAll; EndFeeder; At 0 Unbuffer])
    (pipe_start barrier_stages run_ctx (0%nat, 0) two_items
       (map_ctxs (λ _, (WithCancel [0%nat] (ctxs_of quiet_world)).1) quiet_world)).
Definition canceled_end : pstate W item :=
  play fst barrier_stages run_ctx 40
    ((At 0 <$> [BarrierStop; Drain 0; EndWorker 0; Wait; StageStep; EndStage]) ++ [EndCollect])
    (set_world (map_ctxs (cancel [0%nat] (Sentinel Canceled)) (p_world filled)) filled).

Lemma canceled_barrier_succeeds :
  pipeline_returns fst (0%nat, 0) canceling barrier_stages [0%nat] two_items quiet_world
    (p_world canceled_end) (Ok [(0%nat, 0); (0%nat, 0)]).
Proof.
  assert (pipe_result canceled_end = Ok [(0%nat, 0); (0%nat, 0)]) as <- by (vm_compute; reflexivity).
  eapply (pipe_runs _ _ _ _ _ _ _ _ run_ctx canceled_end); [reflexivity| |].
  - etrans; [apply play_steps|]. eapply rtc_l; [|apply play_steps]. apply pipe_env. reflexivity.
  - vm_compute. split; [done|]. split; [|done]. repeat constructor.
Qed.
End example.
