(* ===== verification/Calm.v ===== *)
(** * Pipelines that nobody cancels

    The contract of a pipeline with a barrier stage asks that its context does not end
    while its group has no error (PipelineProofs.v).  This is so if the caller's context
    is alive and all code around and inside cancels only contexts it has made itself. *)

From S2P Require Import Prelude GoError Go Limits Budget Rate Chain ErrGroup Pipeline PipelineProofs.

(** No scope that exists is canceled. *)
Definition spares (t t' : ctxs) : Prop :=
  (scopes t ≤ scopes t')%nat ∧ (ctxs_ok t → ctxs_ok t') ∧
  ∀ id, (id < scopes t)%nat → canceled t !! id = None → canceled t' !! id = None.

#[export] Instance spares_preorder : PreOrder spares.
Proof.
  split; [by split|]. intros t1 t2 t3 (H1 & Ho1 & H2) (H3 & Ho2 & H4). split; [lia|]. split; [auto|].
  intros id Hid Hc. apply H4; [lia|]. by apply H2.
Qed.

(** A context of scopes that exist and are not canceled. *)
Definition alive (c : ctx) (t : ctxs) : Prop := Forall (λ id, (id < scopes t)%nat) c ∧ ctx_err c t = None.

Lemma ctx_err_alive c t : ctx_err c t = None ↔ ∀ id, id ∈ c → canceled t !! id = None.
Proof. apply first_some_None. Qed.

Lemma spares_alive c t t' : spares t t' → alive c t → alive c t'.
Proof.
  intros (Hs & _ & Hc) [Hlt He]. split; [eapply Forall_impl; [exact Hlt|]; simpl; lia|].
  rewrite ctx_err_alive in *. rewrite Forall_forall in Hlt. auto.
Qed.

Lemma spares_WithCancel c t : spares t (WithCancel c t).1.
Proof. split; [simpl; lia|]. split; [|done]. intros Hok id Hid. apply Hok. simpl in Hid. lia. Qed.

Section calm.
Context {U W : Type} `{!Has (limits U) W} {EG : ErrGroup} {T : Type} (index_of : T → nat).
Context (stages : list (stage W T)) (Env : W → W → Prop).
Implicit Types (s : pstate W T).

Definition sparing (u u' : W) : Prop := spares (ctxs_of u) (ctxs_of u').
Notation spared p := (guarantees sparing (λ _, True) p).

Context (Henv : ∀ u u', Env u u' → sparing u u').
Context (Hbody : ∀ k sg c x, stages !! k = Some sg → spared (sg_body sg c x)).
Context (Hfinish : ∀ k sg c, stages !! k = Some sg → spared (sg_finish sg c)).
Context (gctx : ctx).

Definition worker_calm (x : worker W T) : Prop := match x with Busy _ p => spared p | _ => True end.

Definition stage_calm (st : sstate W T) : Prop :=
  match ph st with
  | Starting p | Finishing p => spared p
  | Running _ inner _ ws => (∃ id, inner = id :: gctx ∧ id ∉ gctx) ∧ Forall worker_calm ws
  | _ => True
  end.

Definition calm_state (s : pstate W T) : Prop :=
  Forall stage_calm (p_stages s) ∧ Forall (λ id, (id < scopes (ctxs_of (p_world s)))%nat) gctx ∧
  (group_err (p_group s) = None → ctx_err gctx (ctxs_of (p_world s)) = None).

Lemma calm_world w s : sparing (p_world s) w → calm_state s → calm_state (set_world w s).
Proof.
  intros Hw (Hst & Hlt & He). split; [done|]. split; simpl.
  - eapply Forall_impl; [exact Hlt|]. destruct Hw. simpl. lia.
  - intros Hg. by eapply (spares_alive gctx); [exact Hw|split; [done|apply He]].
Qed.

Lemma calm_set_stage k x s : stage_calm x → calm_state s → calm_state (set_stage k x s).
Proof. intros Hx (Hst & Hrest). split; [by apply Forall_insert|done]. Qed.

Lemma calm_set_phase k x s : stage_calm (SState x []) → calm_state s → calm_state (set_phase k x s).
Proof. intros Hx Hs. unfold set_phase. destruct (p_stages s !! k) as [st|]; [by apply calm_set_stage|done]. Qed.

Lemma calm_finish_go o s : calm_state s → calm_state (finish_go gctx o s).
Proof.
  intros (Hst & Hlt & He). unfold finish_go.
  pose proof (go_return_err gctx o (p_world s) (p_group s)) as Hg.
  destruct (go_return gctx o (p_world s) (p_group s)) as [w g] eqn:Hr. unfold go_return in Hr. injection Hr as <- <-.
  split; [done|]. simpl in *. destruct o as [e|], (group_err (p_group s)) as [e'|] eqn:Hp; try (split; [done|]; by rewrite Hg).
  split; [|by rewrite Hg]. rewrite ctxs_of_map. unfold cancel. destruct gctx as [|id l], (ctx_err _ _); done.
Qed.

(** The context of a stage's own group is another one. *)
Lemma calm_inner id e s w :
  calm_state s → id ∉ gctx → w = map_ctxs (cancel (id :: gctx) e) (p_world s) → calm_state (set_world w s).
Proof.
  intros (Hst & Hlt & He) Hid ->. split; [done|]. simpl. rewrite ctxs_of_map.
  unfold cancel. destruct (ctx_err (id :: gctx) (ctxs_of (p_world s))); [done|]. split; [done|].
  intros Hg. specialize (He Hg). rewrite ctx_err_alive in *. intros j Hj. simpl. rewrite lookup_insert_ne; [by apply He|]. by intros ->.
Qed.

Lemma calm_input_pop k s x s' : calm_state s → input_pop k s = Some (x, s') → calm_state s' ∧ p_world s' = p_world s.
Proof.
  intros Hs. unfold input_pop. destruct k as [|k].
  - destruct (p_feeder s) as [[|y q]| |]; try done. by intros [= <- <-].
  - destruct (p_stages s !! k) as [[p [|y b]]|] eqn:Hk; try done. intros [= <- <-]. split; [|done].
    apply calm_set_stage; [|done]. destruct Hs as [Hst _]. rewrite Forall_lookup in Hst. by apply Hst in Hk.
Qed.

Lemma calm_start_workers k sg src s : calm_state s → calm_state (start_workers gctx k sg src s).
Proof.
  intros Hs. unfold start_workers. simpl. apply calm_set_phase.
  - split; [|by apply Forall_replicate]. exists (scopes (ctxs_of (p_world s))). split; [done|].
    destruct Hs as (_ & Hlt & _). rewrite Forall_forall in Hlt. intros Hin%Hlt. lia.
  - apply calm_world; [|done]. unfold sparing. rewrite ctxs_of_map. apply (spares_WithCancel gctx).
Qed.

Lemma calm_put k src inner g ws i x s :
  (∃ id, inner = id :: gctx ∧ id ∉ gctx) → Forall worker_calm ws → worker_calm x → calm_state s →
  calm_state (set_phase k (Running src inner g (<[i := x]> ws)) s).
Proof. intros Hinner Hws Hx. apply calm_set_phase. split; [done|]. by apply Forall_insert. Qed.

Lemma calm_fire_worker k sg st src inner g ws i m s s' :
  stages !! k = Some sg → p_stages s !! k = Some st → ph st = Running src inner g ws →
  calm_state s → s' ∈ fire_worker k sg st src inner g ws i m s → calm_state s'.
Proof.
  intros Hsg Hst Hph Hs Hin.
  assert (stage_calm st) as Hcalm by (destruct Hs as [Hall _]; rewrite Forall_lookup in Hall; by eapply Hall).
  unfold stage_calm in Hcalm. rewrite Hph in Hcalm. destruct Hcalm as [Hinner Hws].
  pose proof (λ x c, calm_put k src inner g ws i x c Hinner Hws) as Hput.
  assert (∀ item p, ws !! i = Some (Busy item p) → guarantees sparing (λ _, True) p) as Hbusy.
  { intros item p Hi. rewrite Forall_lookup in Hws. by apply (Hws i (Busy item p)). }
  unfold fire_worker in Hin. destruct m; try by apply elem_of_nil in Hin.
  all: destruct (ws !! i) as [[|item [[out|e]|X act cont]|item|oe|]|] eqn:Hi; try by apply elem_of_nil in Hin.
  all: try (apply list_elem_of_singleton in Hin as ->; by apply Hput).
  - destruct src as [|[|x q] [|]]; try by apply elem_of_nil in Hin.
    + destruct (input_pop k s) as [[x s1]|] eqn:Hpop; [|by apply elem_of_nil in Hin].
      apply list_elem_of_singleton in Hin as ->. apply Hput; [by eapply Hbody|]. by eapply calm_input_pop.
    + apply list_elem_of_singleton in Hin as ->. apply (calm_put _ _ _ _ _ _ _ _ Hinner Hws); [by eapply Hbody|done].
  - apply list_elem_of_fmap in Hin as ([w x] & -> & Hact).
    destruct (Hbusy item (Act act cont) eq_refl (p_world s) w x Hact) as [Hw Hk].
    assert (p_world (set_phase k (Running src inner g (<[i := Busy item (cont x)]> ws)) s) = p_world s) as Heq.
    { unfold set_phase. by rewrite Hst. }
    apply calm_world; [by rewrite Heq|]. by apply Hput.
  - destruct (_ <? _)%nat; [|by apply elem_of_nil in Hin]. apply list_elem_of_singleton in Hin as ->.
    apply calm_set_stage; [|done]. split; [done|]. by apply Forall_insert.
  - destruct (ctx_err inner _); [|by apply elem_of_nil in Hin]. apply list_elem_of_singleton in Hin as ->. by apply Hput.
  - destruct src as [|q [|]]; [destruct (input_closed k s)|..]; try by apply elem_of_nil in Hin.
    all: apply list_elem_of_singleton in Hin as ->; by apply Hput.
  - unfold go_return in Hin. apply list_elem_of_singleton in Hin as ->. destruct Hinner as (id & -> & Hid).
    apply calm_set_phase; [split; [by exists id|by apply Forall_insert]|].
    destruct oe as [e|], (group_err g); try (by apply (calm_world (p_world s)); [apply spares_preorder|]).
    by eapply calm_inner.
Qed.

(** An action of the start or the finish event. *)
Lemma calm_act {X} k (f : prog W (res unit) → phase W T) act (cont : X → prog W (res unit)) s s' :
  (∀ p, guarantees sparing (λ _, True) p → stage_calm (SState (f p) [])) →
  guarantees sparing (λ _, True) (Act act cont) → calm_state s →
  s' ∈ ((λ '(w, x), set_world w (set_phase k (f (cont x)) s)) <$> act (p_world s)) → calm_state s'.
Proof.
  intros Hf Hp Hs Hin. apply list_elem_of_fmap in Hin as ([w x] & -> & Hact). destruct (Hp (p_world s) w x Hact) as [Hw Hk].
  assert (p_world (set_phase k (f (cont x)) s) = p_world s) as Heq by (unfold set_phase; by destruct (p_stages s !! k)).
  apply calm_world; [by rewrite Heq|]. apply calm_set_phase; [by apply Hf|done].
Qed.

Lemma calm_fire_stage k sg st m s s' :
  stages !! k = Some sg → p_stages s !! k = Some st → calm_state s → s' ∈ fire_stage gctx k sg st m s → calm_state s'.
Proof.
  intros Hsg Hst Hs Hin.
  assert (stage_calm st) as Hcalm by (destruct Hs as [Hall _]; rewrite Forall_lookup in Hall; by eapply Hall).
  unfold fire_stage in Hin. unfold stage_calm in Hcalm.
  destruct (ph st) as [p|items|src inner g ws|items w0|[|x q]|p|oe|] eqn:Hph.
  - destruct m; try by apply elem_of_nil in Hin. destruct p as [[[]|e]|X act cont].
    + apply list_elem_of_singleton in Hin as ->. destruct (sg_barrier sg); [by apply calm_set_phase|by apply calm_start_workers].
    + apply list_elem_of_singleton in Hin as ->. by apply calm_set_phase.
    + by eapply (calm_act k Starting).
  - destruct m; try by apply elem_of_nil in Hin.
    + destruct (input_pop k s) as [[x s1]|] eqn:Hpop; [|by apply elem_of_nil in Hin].
      apply list_elem_of_singleton in Hin as ->. apply calm_set_phase; [done|]. by eapply calm_input_pop.
    + destruct (input_closed k s); [|by apply elem_of_nil in Hin].
      destruct (ctx_err gctx _); apply list_elem_of_singleton in Hin as ->; [by apply calm_set_phase|].
      destruct (sg_engine sg); [by apply calm_set_phase|by apply calm_start_workers].
  - destruct m; try (by apply elem_of_nil in Hin); try (by eapply calm_fire_worker).
    + destruct src as [|[|x q] [|]]; try by apply elem_of_nil in Hin.
      destruct (ctx_err gctx _); [|by apply elem_of_nil in Hin]. apply list_elem_of_singleton in Hin as ->. by apply calm_set_phase.
    + destruct src as [|[|x q] [|]]; try by apply elem_of_nil in Hin.
      apply list_elem_of_singleton in Hin as ->. by apply calm_set_phase.
    + destruct (all_gone ws); [|by apply elem_of_nil in Hin]. apply list_elem_of_singleton in Hin as ->.
      apply calm_set_phase; [|done]. destruct (group_err g); [done|]. by eapply Hfinish.
  - by destruct m; apply elem_of_nil in Hin.
  - destruct m; try by apply elem_of_nil in Hin. apply list_elem_of_singleton in Hin as ->.
    apply calm_set_phase; [by eapply Hfinish|done].
  - destruct m; try by apply elem_of_nil in Hin.
    + destruct (_ <? _)%nat; [|by apply elem_of_nil in Hin]. apply list_elem_of_singleton in Hin as ->. by apply calm_set_stage.
    + destruct (ctx_err gctx _); [|by apply elem_of_nil in Hin]. apply list_elem_of_singleton in Hin as ->. by apply calm_set_phase.
  - destruct m; try by apply elem_of_nil in Hin. destruct p as [[[]|e]|X act cont].
    + apply list_elem_of_singleton in Hin as ->. by apply calm_set_phase.
    + apply list_elem_of_singleton in Hin as ->. by apply calm_set_phase.
    + by eapply (calm_act k Finishing).
  - destruct m; try by apply elem_of_nil in Hin. apply list_elem_of_singleton in Hin as ->.
    by apply calm_finish_go, calm_set_phase.
  - by destruct m; apply elem_of_nil in Hin.
Qed.

Lemma calm_pstep s s' : calm_state s → pstep index_of stages gctx Env s s' → calm_state s'.
Proof.
  intros Hs Hstep. destruct Hstep as [s s' [ch Hin]|s k sg run items w b r _ _ _ _|s w Hw]; [|apply calm_set_phase; [by destruct r|done]|by apply calm_world; [apply Henv|]].
  destruct ch as [| | |k m| |]; simpl in Hin.
  - destruct (p_feeder s) as [[|x q]| |]; try by apply elem_of_nil in Hin.
    destruct (ctx_err gctx _); [|by apply elem_of_nil in Hin]. by apply list_elem_of_singleton in Hin as ->.
  - destruct (p_feeder s) as [[|x q]| |]; try by apply elem_of_nil in Hin. by apply list_elem_of_singleton in Hin as ->.
  - destruct (p_feeder s); try by apply elem_of_nil in Hin. apply list_elem_of_singleton in Hin as ->. by apply calm_finish_go.
  - destruct (stages !! k) as [sg|] eqn:Hsg; [|by apply elem_of_nil in Hin].
    destruct (p_stages s !! k) as [st|] eqn:Hst; [|by apply elem_of_nil in Hin]. by eapply calm_fire_stage.
  - destruct (p_collected s); [by apply elem_of_nil in Hin|].
    destruct (input_pop (length stages) s) as [[x s1]|] eqn:Hpop; [|by apply elem_of_nil in Hin].
    apply list_elem_of_singleton in Hin as ->. by destruct (calm_input_pop _ _ _ _ Hs Hpop).
  - destruct (negb _ && _); [|by apply elem_of_nil in Hin]. apply list_elem_of_singleton in Hin as ->. by apply calm_finish_go.
Qed.
End calm.

#[export] Instance sparing_preorder {U W : Type} `{!Has (limits U) W} : PreOrder (sparing (U := U) (W := W)).
Proof. split; [by intros u|]. intros u1 u2 u3. unfold sparing. apply transitivity. Qed.

(** A stage whose code cancels only contexts of its own. *)
Record stage_spares {U W : Type} `{!Has (limits U) W} {T : Type} (sg : stage W T) : Prop := {
  sp_start c : guarantees sparing (λ _, True) (sg_start sg c);
  sp_body c x : guarantees sparing (λ _, True) (sg_body sg c x);
  sp_finish c : guarantees sparing (λ _, True) (sg_finish sg c);
}.

(** Nobody disturbs such a pipeline whose caller's context is alive. *)
Lemma spared_undisturbed {U W : Type} `{!Has (limits U) W} {EG : ErrGroup} {T : Type} (index_of : T → nat) (zero : T)
    (Env : W → W → Prop) (stages : list (stage W T)) c inputs w :
  (∀ u u', Env u u' → sparing u u') → Forall stage_spares stages → ctxs_ok (ctxs_of w) → alive c (ctxs_of w) →
  undisturbed index_of zero Env stages c inputs w.
Proof.
  intros Henv Hst Hok [Hlt He] gctx s k sg (t & Ht & Hs) _ _ _ Hg. rewrite Forall_lookup in Hst.
  assert (calm_state gctx (pipe_start stages gctx zero inputs (map_ctxs (λ _, t) w))) as Hstart.
  { injection Ht as <- <-. split; [|split].
    - apply Forall_fmap, Forall_lookup. intros j sg' Hj. apply sp_start. by eapply Hst.
    - simpl. rewrite ctxs_of_map. constructor; [simpl; lia|]. eapply Forall_impl; [exact Hlt|]. simpl. lia.
    - intros _. simpl. rewrite ctxs_of_map. pose proof (ctx_err_WithCancel c (ctxs_of w) Hok) as Hw. by rewrite <-He. }
  enough (calm_state gctx s) as (_ & _ & Hdone) by (by apply Hdone).
  clear Hg. induction Hs as [s|s s1 s2 Hstep _ IH]; [done|]. apply IH.
  eapply (calm_pstep index_of stages Env Henv); [| |exact Hstart|exact Hstep].
  - intros j sg' c' x Hj. apply sp_body. by eapply Hst.
  - intros j sg' c' Hj. apply sp_finish. by eapply Hst.
Qed.
