(* ===== verification/Flow.v ===== *)
(** * Runs: stages, pipelines and Run of flow/run.go and flow/pipe.go

    A plain step becomes one stage, [Pipe] concatenates stages, and [Run] validates
    them, opens and declares the admission environment, probes every stage, opens
    the observation, drives the pipeline and closes the observation, all this with a
    periodic reporter at work if one is set (Observe.v).  A step may
    have an engine of its own (Bulk.v, Batch.v); as a stage of a pipeline it gets its
    whole input at once, and while it works the world may change in any way, since
    what a nested run does in between is not in its relation.  The sequential parts of
    [Run] are programs; as goroutines of other runs may interleave with them, a run is
    described by a relation. *)

From Stdlib Require Import Sorted.
From S2P Require Import Prelude GoError GoStrings Float64 Classify Policy Digest Json.
From S2P Require Import Go Limits Budget Chain ErrGroup ResourcePlan RunEnv Cache Report Step Observe Runner Pipeline.

Section flow.
Context {dyn U E : Type} {EG : ErrGroup} (Int63n : nat → Z → Z).
(** [dynamic_type x]: the type [%T] prints for the value in an [any]. *)
Context (dynamic_type : option dyn → string).
Notation W := (world dyn U E).
Implicit Types (c : ctx) (o : Options dyn U E) (item : erasedItem dyn).

(** ** Stages *)

(** [stageRunner]: a [typedRunner] is given by the parts of its [run] that the
    pipeline drives, and its [report]; an [overrideStageRunner] by its [report] and by
    what its [run] makes of all it has received. *)
Record itemRunner := ItemRunner {
  run_workers : nat;
  run_barrier : bool;
  run_body : ctx → erasedItem dyn → prog W (res (erasedItem dyn));
  run_report : prog W Report;
}.
Inductive stageRunner :=
| PerItem (runner : itemRunner)
| Whole (report : prog W Report) (run : ctx → list (erasedItem dyn) → W → W → res (list (erasedItem dyn)) → Prop).
Definition runner_report (runner : stageRunner) : prog W Report :=
  match runner with PerItem runner => run_report runner | Whole report _ => report end.

Record policySpec := PolicySpec { ps_step : string; ps_policy : Policy }.

Record stageSpec := StageSpec {
  ss_name : string;
  ss_barrier : bool;
  ss_policy : Policy;
  ss_extraPolicies : list policySpec;
  ss_plans : list stagePlan;
  ss_validate : option (res unit);
  ss_build : Options dyn U E → prog W (res stageRunner);
}.

(** What a worker of [typedRunner.run] does with one item. *)
Definition typed_body {I O} `{!Boxed dyn I, !Boxed dyn O, !Codec O} (runner : typedRunner dyn U E I O)
    c item : prog W (res (erasedItem dyn)) :=
  if flagged item then mret (Ok item) else
  match unbox (ei_value item) with
  | None => mret (Err (Errorf "item %d has type %T, step %q expects %T"
                         [ArgInt (Z.of_nat (ei_index item)); ArgStr (dynamic_type (ei_value item));
                          ArgStr (st_Name (Runner.step runner)); ArgStr (type_name (V := I))]))
  | Some typed => process Int63n runner c (ei_index item) typed
  end.

Definition typed_stage {I O} `{!Boxed dyn I, !Boxed dyn O, !Codec O} (runner : typedRunner dyn U E I O)
    : itemRunner :=
  ItemRunner (Z.to_nat (workers runner)) (Barrier (Runner.step runner)) (typed_body runner)
    (r ← report runner; mret (Some {[ r.1 := r.2 ]})).

Definition policyPlans (s : string) (policy : Policy) : list stagePlan :=
  StagePlan s <$> Admission policy.

Definition collectPlans (stages : list stageSpec) : list stagePlan := stages ≫= ss_plans.

(** [stageOfStep] for a step without an engine of its own. *)
Definition stageOfStep {I O} `{!Boxed dyn I, !Boxed dyn O, !Codec O} (s : Step dyn U E I O) : stageSpec :=
  StageSpec (st_Name s) (Barrier s) (st_Policy s) [] (policyPlans (st_Name s) (st_Policy s)) None
    (λ o, runner ←? newTypedRunner s o; mret (Ok (PerItem (typed_stage runner)))).

(** The engine of a step that has one of its own: [extraPlans], [extraPolicies],
    [validateOverride] and [override].  What the engine can return is a relation
    between the worlds before and after; what happens around it comes first. *)
Record engine (I O : Type) := MkEngine {
  extraPlans : list stagePlan;
  extraPolicies : list policySpec;
  validateOverride : option (Step dyn U E I O → res unit);
  override : (W → W → Prop) → ctx → Step dyn U E I O → list I → Options dyn U E → W →
             W → res (list (Result O)) * Report → Prop;
}.
Arguments extraPlans {_ _} _.
Arguments extraPolicies {_ _} _.
Arguments validateOverride {_ _} _.
Arguments override {_ _} _ _ _ _ _ _ _ _ _.

(** A [Step]: plain, composed by [Pipe], or with an engine of its own. *)
Inductive flow (I O : Type) :=
| Plain (s : Step dyn U E I O)
| Piped (name : string) (stages : list stageSpec)
| Custom (s : Step dyn U E I O) (own : engine I O).
Arguments Plain {_ _} _.
Arguments Piped {_ _} _ _.
Arguments Custom {_ _} _ _.

Definition flow_Name {I O} (s : flow I O) : string :=
  match s with Plain s | Custom s _ => st_Name s | Piped name _ => name end.

(** [stageOfStep] for a step with an engine: a barrier stage; building its runner does
    nothing. *)
Definition engine_stage {I O} (s : Step dyn U E I O) (own : engine I O) (build : Options dyn U E → stageRunner) : stageSpec :=
  StageSpec (st_Name s) true (st_Policy s) (extraPolicies own) (policyPlans (st_Name s) (st_Policy s) ++ extraPlans own)
    ((λ validate, validate s) <$> validateOverride own)
    (λ o, mret (Ok (build o))).

(** ** The beginning of Run *)

Fixpoint validate_nested (ps : list policySpec) : res unit :=
  match ps with
  | [] => Ok tt
  | p :: ps => match validatePolicy (ps_step p) (ps_policy p) with Err e => Err e | Ok _ => validate_nested ps end
  end.

Fixpoint validate_stages (stages : list stageSpec) : res unit :=
  match stages with
  | [] => Ok tt
  | s :: stages =>
      match validatePolicy (ss_name s) (ss_policy s) with
      | Err e => Err e
      | Ok _ => match validate_nested (ss_extraPolicies s) with Err e => Err e | Ok _ => validate_stages stages end
      end
  end.

Definition stage_error (name : string) (e : error) : error :=
  Errorf "stage %q: %w" [ArgStr name; ArgWrap e].

(** [if o.env == nil { o.env = newRunEnv(o.Rates, o.Preflight) }] *)
Definition open_env o : prog W (nat * Options dyn U E) :=
  match opt_env o with
  | Some e => mret (e, o)
  | None => e ← zoom (newRunEnv (Rates o) (opt_Preflight o)); mret (e, set_opt_env e o)
  end.

(** Validates a stage and builds a runner that is not used. *)
Definition probe o (s : stageSpec) : prog W (res unit) :=
  match ss_validate s with
  | Some (Err e) => mret (Err (stage_error (ss_name s) e))
  | _ => _ ←? faulty (stage_error (ss_name s)) (ss_build s o); mret (Ok tt)
  end.

Definition is_root o : bool :=
  match observation o with
  | Some _ => false
  | None => match Reporter o, Ledger o with None, None => false | _, _ => true end
  end.

Definition begin_observation c o (total : Z) : prog W (res (Options dyn U E)) :=
  o ← withObservation o;
  _ ←? emitLedger c o (boundary_event "" EventRunStarted total "");
  r ← publish o c None total false;
  match r with
  | Ok _ => mret (Ok o)
  | Err e =>
      _ ← emitLedger (WithoutCancel c) o (boundary_event "" EventRunFailed total (Error e));
      mret (Err e)
  end.

(** [Run] up to [runCore]: the options of the run, and whether it is the root of
    the observation. *)
Definition Run_begin c (stages : list stageSpec) (total : Z) o : prog W (res (Options dyn U E * bool)) :=
  match validate_stages stages with
  | Err e => mret (Err e)
  | Ok _ =>
      opened ← open_env o;
      let '(e, o) := opened in
      _ ←? zoom (ensure e (collectPlans stages));
      _ ←? for_each stages (probe o);
      if is_root o then
        o ←? begin_observation c o total;
        mret (Ok (o, true))
      else mret (Ok (o, false))
  end.

(** ** runStages *)

Fixpoint build_runners o (stages : list stageSpec) : prog W (res (list stageRunner)) :=
  match stages with
  | [] => mret (Ok [])
  | s :: stages =>
      runner ←? faulty (stage_error (ss_name s)) (ss_build s o);
      runners ←? build_runners o stages;
      mret (Ok (runner :: runners))
  end.

(** [currentReport] *)
Fixpoint merge_reports (acc : Report) (runners : list stageRunner) : prog W Report :=
  match runners with
  | [] => mret acc
  | runner :: runners => r ← runner_report runner; merge_reports (Report_merge acc r) runners
  end.
Definition currentReport (runners : list stageRunner) : prog W Report := merge_reports None runners.

Definition pipeline_stage o (total : Z) (s : stageSpec * itemRunner) : stage W (erasedItem dyn) :=
  MkStage (run_workers s.2) (run_barrier s.2)
    (λ c, emitLedger c o (boundary_event (ss_name s.1) EventStepStarted total ""))
    (run_body s.2)
    (λ c, emitLedger c o (boundary_event (ss_name s.1) EventStepCompleted total ""))
    (stage_error (ss_name s.1)) None.

(** A stage of [runStages]; one with an engine has no workers of its own. *)
Definition run_stage o (total : Z) (s : stageSpec * stageRunner) : stage W (erasedItem dyn) :=
  match s.2 with
  | PerItem runner => pipeline_stage o total (s.1, runner)
  | Whole _ run =>
      MkStage 1 true
        (λ c, emitLedger c o (boundary_event (ss_name s.1) EventStepStarted total ""))
        (λ _ item, mret (Ok item))
        (λ c, emitLedger c o (boundary_event (ss_name s.1) EventStepCompleted total ""))
        (stage_error (ss_name s.1)) (Some run)
  end.

Definition zero_item : erasedItem dyn := ErasedItem 0 None no_outcome None false.

(** ** While a run works: startPeriodicReporter and the function that stops it

    [pubs] are the publications the reporter's goroutine may perform, see Observe.v. *)
Definition run_env (Env : W → W → Prop) o runContext (pubs : prog W (res unit) → Prop) (e : option error) : W → W → Prop :=
  if periodic o then surroundings Env runContext pubs e else Env.

Inductive stopReporter (Env : W → W → Prop) o runContext (pubs : prog W (res unit) → Prop) (w : W) : option error → W → Prop :=
| nothing_to_stop : periodic o = false → stopReporter Env o runContext pubs w None w
| reporter_stopped e w1 :
    periodic o = true → rtc (surroundings Env runContext pubs e) w w1 →
    (∀ cause, e = Some cause → failure pubs cause) →
    stopReporter Env o runContext pubs w e (cancel_run runContext w1).

(** A custom engine's stage reports what its nested run reports at the moment, which
    reads the engine's own state: it may be any report. *)
Definition reporting (live : nat → Report) (runners : list stageRunner) : list stageRunner :=
  imap (λ k runner, match runner with PerItem _ => runner | Whole _ run => Whole (mret (live k)) run end) runners.

(** A run publishes its own report. *)
Definition stage_pubs o runContext (total : Z) (runners : list stageRunner) (p : prog W (res unit)) : Prop :=
  ∃ live, p = publication o runContext total (currentReport (reporting live runners)).

(** A custom engine registers the function that reports, which reads the engine's own
    state: the report may be any. *)
Definition engine_pubs o runContext (total : Z) (p : prog W (res unit)) : Prop :=
  ∃ source : reportSource, (source = None ∨ ∃ report, source = source_set (mret report) None) ∧
    p = publication o runContext total (source_report source).

(** ** runCore and the end of Run *)

Definition input_items {I} `{!Boxed dyn I} (items : list I) : list (erasedItem dyn) :=
  imap (λ index x, ErasedItem index (box x) no_outcome None false) items.

(** The result of one item; [None] is the panic of a failed type assertion. *)
Definition result_of {O} `{!Boxed dyn O} item : option (Result O) :=
  match ei_quarantined item, ei_skipped item, ei_value item with
  | None, false, Some d =>
      match unbox (Some d) with
      | Some value => Some (MkResult value (ei_outcome item) None false)
      | None => None
      end
  | quarantined, skipped, _ => Some (MkResult zero_value (ei_outcome item) quarantined skipped)
  end.

Definition Run_end {R} c o (total : Z) (root : bool) (r : res R) (report : Report) : prog W (res R * Report) :=
  if negb root then mret (r, report) else
  published ← publishTerminal o c report total;
  let runErr := match r with Ok _ => None | Err e => Some e end in
  let runErr := match published with Ok _ => runErr | Err e => Join runErr (Some e) end in
  let ev := match runErr with
            | None => boundary_event "" EventRunCompleted total ""
            | Some e => boundary_event "" EventRunFailed total (Error e)
            end in
  emitted ← emitLedger (WithoutCancel c) o ev;
  let runErr := match emitted with Ok _ => runErr | Err e => Join runErr (Some e) end in
  mret (match runErr with Some e => Err e | None => r end, report).

(** [runCore] for a step with an engine. *)
Definition core_event (s : string) (t : EventType) (total : Z) : Event := boundary_event s t total "".

(** The error of the engine joined with that of the reporter. *)
Definition joined_err {A} (r : res A) (reporterErr : option error) : option error :=
  let err := match r with Ok _ => None | Err e => Some e end in
  match reporterErr with Some _ => Join err reporterErr | None => err end.

Inductive override_returns {I O} (Env : W → W → Prop) c (s : Step dyn U E I O) (own : engine I O) (items : list I) o (w : W)
    : W → res (list (Result O)) * Report → Prop :=
| override_unstarted runContext w1 w2 w' reporterErr e :
    let pubs := engine_pubs o runContext (Z.of_nat (length items)) in
    startPeriodicReporter o c w runContext w1 →
    runs (run_env Env o runContext pubs reporterErr)
      (emitLedger runContext o (core_event (st_Name s) EventStepStarted (Z.of_nat (length items)))) w1 w2 (Err e) →
    stopReporter Env o runContext pubs w2 reporterErr w' →
    override_returns Env c s own items o w w' (Err e, None)
| override_failed runContext w1 w2 w3 w' reporterErr r report e :
    let pubs := engine_pubs o runContext (Z.of_nat (length items)) in
    startPeriodicReporter o c w runContext w1 →
    runs (run_env Env o runContext pubs reporterErr)
      (emitLedger runContext o (core_event (st_Name s) EventStepStarted (Z.of_nat (length items)))) w1 w2 (Ok tt) →
    override own (run_env Env o runContext pubs reporterErr) runContext s items o w2 w3 (r, report) →
    stopReporter Env o runContext pubs w3 reporterErr w' →
    joined_err r reporterErr = Some e →
    override_returns Env c s own items o w w' (Err e, report)
| override_ended runContext w1 w2 w3 w4 w' results report r :
    let pubs := engine_pubs o runContext (Z.of_nat (length items)) in
    startPeriodicReporter o c w runContext w1 →
    runs (run_env Env o runContext pubs None)
      (emitLedger runContext o (core_event (st_Name s) EventStepStarted (Z.of_nat (length items)))) w1 w2 (Ok tt) →
    override own (run_env Env o runContext pubs None) runContext s items o w2 w3 (Ok results, report) →
    stopReporter Env o runContext pubs w3 None w4 →
    runs Env (emitLedger runContext o (core_event (st_Name s) EventStepCompleted (Z.of_nat (length items)))) w4 w' r →
    override_returns Env c s own items o w w' ((λ _, results) <$> r, report).

(** ** The stage of a custom engine *)

Definition set_Reporter (r : option (ctx → Snapshot → prog W (res unit))) o : Options dyn U E :=
  MkOptions (opt_Store o) (Ledger o) r (ReportInterval o) (Clock o) (opt_Preflight o) (Rates o) (opt_env o) (observation o).

(** [sort.Slice] by index: some ordering of the items in which indexes do not fall. *)
Definition sorted_items (l l' : list (erasedItem dyn)) : Prop :=
  l' ≡ₚ l ∧ StronglySorted (λ x y, ei_index x ≤ ei_index y)%nat l'.

Fixpoint typed_items {I} `{!Boxed dyn I} (clean : list (erasedItem dyn)) : res (list I) :=
  match clean with
  | [] => Ok []
  | x :: clean =>
      match unbox (ei_value x) with
      | None => Err (Errorf "item %d has type %T, stage expects %T"
                       [ArgInt (Z.of_nat (ei_index x)); ArgStr (dynamic_type (ei_value x)); ArgStr (type_name (V := I))])
      | Some typed => match typed_items clean with Ok items => Ok (typed :: items) | Err e => Err e end
      end
  end.

(** The item that carries on what came of [x]. *)
Definition resumed {O} `{!Boxed dyn O} (x : erasedItem dyn) (r : Result O) : erasedItem dyn :=
  ErasedItem (ei_index x) (match r_Quarantined r, r_Skipped r with None, false => box (r_Value r) | _, _ => None end)
    (r_Cache r) (set_Index (ei_index x) <$> r_Quarantined r) (r_Skipped r).

Definition all_emitted {O} `{!Boxed dyn O} (arrived clean : list (erasedItem dyn)) (results : list (Result O)) : list (erasedItem dyn) :=
  zip_with resumed clean results ++ filter (λ x, flagged x = true) arrived.

(** What [overrideStageRunner.run] makes of the items that have [arrived]: an error, or
    the items it goes on to emit, and what it adds to its report.  [nested] is the run
    of the step. *)
Inductive override_engine {I O} `{!Boxed dyn I, !Boxed dyn O}
    (nested : list I → Options dyn U E → W → W → res (list (Result O)) * Report → Prop) o (arrived : list (erasedItem dyn)) (w : W)
    : W → res (list (erasedItem dyn)) → Report → Prop :=
| engine_mistyped clean e :
    sorted_items (filter (λ x, flagged x = false) arrived) clean → typed_items clean = Err e →
    override_engine nested o arrived w w (Err e) None
| engine_failed w' clean items e report :
    sorted_items (filter (λ x, flagged x = false) arrived) clean → typed_items clean = Ok items →
    nested items (set_Reporter None o) w w' (Err e, report) →
    override_engine nested o arrived w w' (Err e) (Report_merge None report)
| engine_ended w' clean items results report :
    sorted_items (filter (λ x, flagged x = false) arrived) clean → typed_items clean = Ok items →
    nested items (set_Reporter None o) w w' (Ok results, report) →
    override_engine nested o arrived w w' (Ok (all_emitted arrived clean results)) (Report_merge None report).

(** The stage as [Run] sees it before it runs anything: the runner it builds is not used. *)
Definition probed_engine {I O} (s : Step dyn U E I O) (own : engine I O) : stageSpec :=
  engine_stage s own (λ _, Whole (mret None) (λ _ _ _ _ _, False)).

(** [Run] of a step with an engine. *)
Inductive custom_returns {I O} (Env : W → W → Prop) c (s : Step dyn U E I O) (own : engine I O) (items : list I) o (w : W)
    : W → res (list (Result O)) * Report → Prop :=
| custom_refused w' e :
    runs Env (Run_begin c [probed_engine s own] (Z.of_nat (length items)) o) w w' (Err e) →
    custom_returns Env c s own items o w w' (Err e, None)
| custom_ran w1 w2 w' o' root r report out :
    runs Env (Run_begin c [probed_engine s own] (Z.of_nat (length items)) o) w w1 (Ok (o', root)) →
    override_returns Env c s own items o' w1 w2 (r, report) →
    runs Env (Run_end c o' (Z.of_nat (length items)) root r report) w2 w' out →
    custom_returns Env c s own items o w w' out.

(** While the engine works, the world may change in any way. *)
Definition override_stage {I O} `{!Boxed dyn I, !Boxed dyn O} (s : Step dyn U E I O) (own : engine I O) o : stageRunner :=
  Whole (mret None) (λ c arrived w w' r, ∃ report,
    override_engine (custom_returns (λ _ _, True) c s own) o arrived w w' r report).

Definition stageOfEngine {I O} `{!Boxed dyn I, !Boxed dyn O} (s : Step dyn U E I O) (own : engine I O) : stageSpec :=
  engine_stage s own (override_stage s own).

Definition stagesOf {I O} `{!Boxed dyn I, !Boxed dyn O, !Codec O} (s : flow I O) : list stageSpec :=
  match s with Plain s => [stageOfStep s] | Piped _ stages => stages | Custom s own => [stageOfEngine s own] end.

(** ** pipe.go *)

Definition combineStages (groups : list (list stageSpec)) : list stageSpec := concat groups.

Fixpoint join_names (joined : string) (index : nat) (names : list string) : string :=
  match names with
  | [] => joined
  | name :: names =>
      join_names ((if (0 <? index)%nat then joined +:+ "|" else joined) +:+ name) (S index) names
  end.
Definition pipeName (names : list string) : string := join_names "" 0 names.

Section pipes.
Context {A B C D F : Type} `{!Boxed dyn A, !Boxed dyn B, !Boxed dyn C, !Boxed dyn D, !Boxed dyn F}
  `{!Codec B, !Codec C, !Codec D, !Codec F}.

Definition Pipe2 (s1 : flow A B) (s2 : flow B C) : flow A C :=
  Piped (pipeName [flow_Name s1; flow_Name s2]) (combineStages [stagesOf s1; stagesOf s2]).
Definition Pipe3 (s1 : flow A B) (s2 : flow B C) (s3 : flow C D) : flow A D :=
  Piped (pipeName [flow_Name s1; flow_Name s2; flow_Name s3])
    (combineStages [stagesOf s1; stagesOf s2; stagesOf s3]).
Definition Pipe4 (s1 : flow A B) (s2 : flow B C) (s3 : flow C D) (s4 : flow D F) : flow A F :=
  Piped (pipeName [flow_Name s1; flow_Name s2; flow_Name s3; flow_Name s4])
    (combineStages [stagesOf s1; stagesOf s2; stagesOf s3; stagesOf s4]).
End pipes.

(** ** The stages of a run together *)

(** A nested run changes the world in ways its relation does not say. *)
Definition around_engines (runners : list stageRunner) (Env : W → W → Prop) : W → W → Prop :=
  if existsb (λ runner, match runner with Whole _ _ => true | PerItem _ => false end) runners then λ _ _, True else Env.

(** What [runStages] can return, with the report. *)
Inductive runStages_returns (Env : W → W → Prop) c (stages : list stageSpec) (inputs : list (erasedItem dyn))
    o (w : W) : W → res (list (erasedItem dyn)) * Report → Prop :=
| stage_refused w' e :
    runs Env (build_runners o stages) w w' (Err e) →
    runStages_returns Env c stages inputs o w w' (Err e, None)
| stages_ran runContext w1 w2 w3 w4 w' runners live r reporterErr report :
    let pubs := stage_pubs o runContext (Z.of_nat (length inputs)) runners in
    runs Env (build_runners o stages) w w1 (Ok runners) →
    startPeriodicReporter o c w1 runContext w2 →
    pipeline_returns ei_index zero_item (around_engines runners (run_env Env o runContext pubs reporterErr))
      (run_stage o (Z.of_nat (length inputs)) <$> zip stages runners) runContext inputs w2 w3 r →
    stopReporter Env o runContext pubs w3 reporterErr w4 →
    runs Env (currentReport (reporting live runners)) w4 w' report →
    runStages_returns Env c stages inputs o w w' (match reporterErr with Some e => Err e | None => r end, report).

Definition has_engine {I O} (s : flow I O) : bool := match s with Custom _ _ => true | _ => false end.

(** What [Run] can return. *)
Inductive Run_returns {I O} `{!Boxed dyn I, !Boxed dyn O, !Codec O} (Env : W → W → Prop) c (s : flow I O)
    (items : list I) o (w : W) : W → res (list (Result O)) * Report → Prop :=
| run_refused w' e :
    runs Env (Run_begin c (stagesOf s) (Z.of_nat (length items)) o) w w' (Err e) →
    Run_returns Env c s items o w w' (Err e, None)
| run_overridden st own w1 w2 w' o' root r report out :
    s = Custom st own →
    runs Env (Run_begin c (stagesOf s) (Z.of_nat (length items)) o) w w1 (Ok (o', root)) →
    override_returns Env c st own items o' w1 w2 (r, report) →
    runs Env (Run_end c o' (Z.of_nat (length items)) root r report) w2 w' out →
    Run_returns Env c s items o w w' out
| run_ended w1 w2 w' o' root outputs report r out :
    has_engine s = false →
    runs Env (Run_begin c (stagesOf s) (Z.of_nat (length items)) o) w w1 (Ok (o', root)) →
    runStages_returns Env c (stagesOf s) (input_items items) o' w1 w2 (outputs, report) →
    match outputs with Ok its => Ok <$> mapM result_of its = Some r | Err e => r = Err e end →
    runs Env (Run_end c o' (Z.of_nat (length items)) root r report) w2 w' out →
    Run_returns Env c s items o w w' out.

(** Runners without an engine among them. *)
Lemma reporting_items live (runners : list itemRunner) : reporting live (PerItem <$> runners) = PerItem <$> runners.
Proof.
  unfold reporting. revert live. induction runners as [|runner runners IH]; intros live; [done|].
  rewrite fmap_cons, imap_cons. f_equal. apply (IH (λ k, live (S k))).
Qed.

Lemma around_items Env (runners : list itemRunner) : around_engines (PerItem <$> runners) Env = Env.
Proof. unfold around_engines. by induction runners. Qed.

Lemma run_stages_items o total (stages : list stageSpec) (runners : list itemRunner) :
  run_stage o total <$> zip stages (PerItem <$> runners) = pipeline_stage o total <$> zip stages runners.
Proof. revert stages. induction runners as [|runner runners IH]; intros [|s stages]; [done..|]. simpl. f_equal. apply IH. Qed.

Lemma stage_pubs_items o runContext total (runners : list itemRunner) p :
  stage_pubs o runContext total (PerItem <$> runners) p → p = publication o runContext total (currentReport (PerItem <$> runners)).
Proof. intros [live ->]. by rewrite reporting_items. Qed.

Lemma items_stage_pubs o runContext total (runners : list itemRunner) :
  stage_pubs o runContext total (PerItem <$> runners) (publication o runContext total (currentReport (PerItem <$> runners))).
Proof. exists (λ _, None). by rewrite reporting_items. Qed.

(** What [runStages] can return when no stage has an engine. *)
Lemma items_ran Env c stages inputs o w runContext w1 w2 w3 w4 w' (runners : list itemRunner) r reporterErr report :
  let pubs := stage_pubs o runContext (Z.of_nat (length inputs)) (PerItem <$> runners) in
  runs Env (build_runners o stages) w w1 (Ok (PerItem <$> runners)) →
  startPeriodicReporter o c w1 runContext w2 →
  pipeline_returns ei_index zero_item (run_env Env o runContext pubs reporterErr)
    (pipeline_stage o (Z.of_nat (length inputs)) <$> zip stages runners) runContext inputs w2 w3 r →
  stopReporter Env o runContext pubs w3 reporterErr w4 →
  runs Env (currentReport (PerItem <$> runners)) w4 w' report →
  runStages_returns Env c stages inputs o w w' (match reporterErr with Some e => Err e | None => r end, report).
Proof.
  intros pubs Hb Hs Hp Hstop Hr.
  apply (stages_ran _ _ _ _ _ _ runContext w1 w2 w3 w4 w' (PerItem <$> runners) (λ _, None) r reporterErr report); try done.
  all: by rewrite ?around_items, ?run_stages_items, ?reporting_items.
Qed.

(** ** Runs without periodic reports *)

Lemma quiet_env Env o runContext pubs e : periodic o = false → run_env Env o runContext pubs e = Env.
Proof. unfold run_env. by intros ->. Qed.

Lemma stages_ran_quietly Env c stages inputs o w w1 w2 w' runners r report :
  periodic o = false →
  runs Env (build_runners o stages) w w1 (Ok (PerItem <$> runners)) →
  pipeline_returns ei_index zero_item Env (pipeline_stage o (Z.of_nat (length inputs)) <$> zip stages runners) c inputs w1 w2 r →
  runs Env (currentReport (PerItem <$> runners)) w2 w' report →
  runStages_returns Env c stages inputs o w w' (r, report).
Proof.
  intros Hq Hb Hp Hr. apply (items_ran _ _ _ _ _ _ c w1 w1 w2 w2 w' runners r None report); [done|by constructor| |by constructor|done].
  by rewrite quiet_env.
Qed.

(** What surrounds a run that gets no error from its reporter. *)
Lemma run_env_within (G : W → W → Prop) Env o runContext pubs u u' :
  (∀ u u', Env u u' → G u u') → (periodic o = true → ∀ p, pubs p → guarantees G (λ _, True) p) →
  run_env Env o runContext pubs None u u' → G u u'.
Proof.
  intros HE Hp. unfold run_env. destruct (periodic o); [|apply HE].
  intros [He | [(p & Hpub & Hact) | [[? [=]] _]]]; [by apply HE|]. eapply acts_of_guarantees; [|exact Hact]. by apply Hp.
Qed.

Lemma start_keeps (P : W → Prop) o c w runContext w' :
  (∀ f u, P u → P (map_ctxs f u)) → P w → startPeriodicReporter o c w runContext w' → P w'.
Proof. intros Hf Hw [|runContext' t _ _]; [done|by apply Hf]. Qed.

Lemma stop_keeps (P : W → Prop) Env o runContext pubs w w' :
  (∀ u u', run_env Env o runContext pubs None u u' → P u → P u') → (∀ f u, P u → P (map_ctxs f u)) →
  P w → stopReporter Env o runContext pubs w None w' → P w'.
Proof.
  intros HE Hf Hw Hs. inversion Hs as [|e w1 Hp Hrtc]; simplify_eq; [done|]. apply Hf. clear Hs.
  induction Hrtc as [|u u1 u2 Hu _ IH]; [done|]. apply IH. eapply HE; [|exact Hw]. unfold run_env. by rewrite Hp.
Qed.

Lemma override_ended_quietly {I O} Env c (s : Step dyn U E I O) own items o w w1 w2 w' results report r :
  periodic o = false →
  runs Env (emitLedger c o (core_event (st_Name s) EventStepStarted (Z.of_nat (length items)))) w w1 (Ok tt) →
  override own Env c s items o w1 w2 (Ok results, report) →
  runs Env (emitLedger c o (core_event (st_Name s) EventStepCompleted (Z.of_nat (length items)))) w2 w' r →
  override_returns Env c s own items o w w' ((λ _, results) <$> r, report).
Proof.
  intros Hq Hs Ho Hr. eapply (override_ended _ _ _ _ _ _ _ c w w1 w2 w2 w' results report r); [by constructor| | |by constructor|done];
    by rewrite quiet_env.
Qed.
End flow.
Arguments extraPlans {dyn U E I O} _.
Arguments extraPolicies {dyn U E I O} _.
Arguments validateOverride {dyn U E I O} _.
Arguments override {dyn U E I O} _ _ _ _ _ _ _ _ _.
Arguments MkEngine {dyn U E I O} _ _ _ _.
