(* ===== verification/FlowProofs.v ===== *)
(** * What a run returns: proofs for Flow.v

    [results_aligned] holds for every step, plain or composed: result [i] is what the
    stages made of item [i], each stage once and in order, a flagged item being
    handed on untouched.  [step_exact] is about a plain step and adds what the stage
    engine guarantees: the outcomes, the report and the budget. *)

From S2P Require Import Prelude GoError GoStrings Float64 Classify Policy Digest Json.
From S2P Require Import Go Limits Budget Chain ErrGroup ResourcePlan RunEnv Cache Report Step Observe Runner RunnerProofs.
From S2P Require Import Pipeline PipelineProofs Flow.

(** ** Values a program can return *)

(** In some worlds, whatever runs in between. *)
Fixpoint can_return {W A} (p : prog W A) (a : A) : Prop :=
  match p with
  | Ret b => b = a
  | Act act k => ∃ w w' x, (w', x) ∈ act w ∧ can_return (k x) a
  end.

Section returns.
Context {W : Type}.

Lemma can_return_bind {A B} (p : prog W A) (f : A → prog W B) b :
  can_return (p ≫= f) b ↔ ∃ a, can_return p a ∧ can_return (f a) b.
Proof.
  change (p ≫= f) with (bind f p). induction p as [a|X act k IH]; simpl.
  - split; [by exists a|by intros (a' & <- & Hf)].
  - setoid_rewrite IH. naive_solver.
Qed.

Lemma can_return_rbind {A B} (p : prog W (res A)) (f : A → prog W (res B)) r :
  can_return (rbind f p) r →
  (∃ a, can_return p (Ok a) ∧ can_return (f a) r) ∨ ∃ e, can_return p (Err e) ∧ r = Err e.
Proof.
  unfold rbind. change (bind ?g p) with (p ≫= g). rewrite can_return_bind.
  intros ([a|e] & Hp & Hf); [left; eauto|]. right. exists e. by split.
Qed.

Lemma can_return_guarantees {A} G (Q : A → Prop) (p : prog W A) a :
  guarantees G Q p → can_return p a → Q a.
Proof.
  induction p as [b|X act k IH]; simpl; intros Hg; [by intros <-|].
  intros (w & w' & x & Hin & Hr). destruct (Hg w w' x Hin) as [_ Hk]. by eapply IH.
Qed.

(** What a goroutine returns is one of these values. *)
Lemma owns_can_return {A} (p : prog W A) : owns (λ _ (_ : unit), True) (λ a _, can_return p a) p tt.
Proof.
  assert (∀ (Q : A → Prop) (q : prog W A), (∀ a, can_return q a → Q a) → owns (λ _ (_ : unit), True) (λ a _, Q a) q tt) as H.
  { intros Q q. induction q as [b|X act k IH]; simpl; intros HQ; [by apply HQ|].
    intros w o _ w' x Hin. exists tt. split; [done|]. apply IH. intros a Ha. apply HQ. by exists w, w', x. }
  by apply H.
Qed.

Lemma runs_can_return Env {A} (p : prog W A) w w' a : runs Env p w w' a → can_return p a.
Proof.
  intros Hs. by destruct (runs_owns Env (λ _ (_ : unit), True) (λ a _, can_return p a) p tt w w' a
    ltac:(done) (owns_can_return p) I Hs) as ([] & _ & Ha).
Qed.
End returns.

(** ** The position of a result *)

Section positions.
Context {dyn U E : Type} (Int63n : nat → Z → Z) (dynamic_type : option dyn → string).
Notation W := (world dyn U E).

Definition at_index (index : nat) (r : res (erasedItem dyn)) : Prop :=
  match r with
  | Ok it => ei_index it = index ∧ ∀ q, ei_quarantined it = Some q → ie_Index q = index
  | Err _ => True
  end.

Notation any_move := (λ _ _, True).

Lemma then_at_index {A} index (f : A → prog W (res (erasedItem dyn))) (p : prog W A) :
  (∀ a, guarantees any_move (at_index index) (f a)) → guarantees any_move (at_index index) (p ≫= f).
Proof. intros Hf. apply guarantees_bind with (λ _, True); [by apply guarantees_any|auto]. Qed.

Lemma rthen_at_index {A} index (f : A → prog W (res (erasedItem dyn))) (p : prog W (res A)) :
  (∀ a, guarantees any_move (at_index index) (f a)) → guarantees any_move (at_index index) (rbind f p).
Proof.
  intros Hf. apply guarantees_rbind with (λ _, True); [|auto]. apply guarantees_any. by intros [].
Qed.

Lemma ret_at_index index (r : res (erasedItem dyn)) :
  at_index index r → guarantees any_move (at_index index) (mret (M := prog W) r).
Proof. done. Qed.

Context {I O : Type} `{!Boxed dyn I, !Boxed dyn O, !Codec O} (runner : typedRunner dyn U E I O).

Lemma success_at_index c index (value : O) key d :
  guarantees any_move (at_index index) (success runner c index value key d).
Proof.
  unfold success. apply rthen_at_index. intros _. apply rthen_at_index. intros [outcome t].
  apply rthen_at_index. intros _. apply rthen_at_index. intros _. by apply ret_at_index.
Qed.

Lemma fail_at_index c index cause class n :
  guarantees any_move (at_index index) (fail runner c index cause class n).
Proof.
  unfold fail. case_match; [by apply ret_at_index|]. case_match.
  - apply then_at_index. intros _. apply rthen_at_index. intros _. by apply ret_at_index.
  - apply then_at_index. intros _. apply rthen_at_index. intros _. apply ret_at_index. split; [done|].
    by intros q [= <-].
Qed.

Lemma loop_at_index do c index item key d more attempt delay :
  guarantees any_move (at_index index) (attempt_loop Int63n runner do c index item key d more attempt delay).
Proof.
  revert attempt delay. induction more as [|more IH]; intros attempt delay; simpl.
  all: apply rthen_at_index; intros [value [e|]]; [|apply success_at_index].
  all: apply then_at_index; intros [e'|]; [by apply ret_at_index|].
  all: case_match; [by apply ret_at_index|]; case_match; try apply fail_at_index.
  apply then_at_index. intros _. apply rthen_at_index. intros _. apply rthen_at_index. intros _. apply IH.
Qed.

Lemma work_at_index c index item key d :
  guarantees any_move (at_index index) (work Int63n runner c index item key d).
Proof. unfold work. case_match; [apply loop_at_index|]. by intros w w' x Hin%elem_of_nil. Qed.

Lemma follow_at_index c index id d :
  guarantees any_move (at_index index) (follow runner c index id d).
Proof.
  unfold follow. apply rthen_at_index. intros call. destruct (ic_err call); [by apply ret_at_index|].
  destruct (replicate_outcome call) as [update t]. apply then_at_index. intros _. apply rthen_at_index. intros _.
  assert (∀ value outcome, at_index index (Ok (ErasedItem index value outcome (set_Index index <$> ic_quarantined call) (ic_skipped call)))) as Hat.
  { intros value outcome. split; [done|]. simpl. intros q (q' & _ & ->)%fmap_Some. done. }
  case_match; [by apply ret_at_index|]. apply rthen_at_index. intros _. by apply ret_at_index.
Qed.

Lemma process_at_index c index item :
  guarantees any_move (at_index index) (process Int63n runner c index item).
Proof.
  unfold process. apply then_at_index. intros _. destruct (opt_Store (options runner)) as [store|]; [|apply work_at_index].
  case_decide; [apply work_at_index|]. destruct (Step_Key _ _) as [key|]; [|by apply ret_at_index].
  destruct (Key_Digest key) as [d|]; [|by apply ret_at_index]. apply then_at_index. intros [id|id]; [apply follow_at_index|].
  apply guarantees_bind with (at_index index).
  - unfold lead. apply rthen_at_index. intros [value|].
    + apply then_at_index. intros _. apply rthen_at_index. intros _. apply rthen_at_index. intros _. by apply ret_at_index.
    + apply then_at_index. intros _. apply work_at_index.
  - intros r Hr. apply then_at_index. intros _. by apply ret_at_index.
Qed.

(** What a stage makes of an item. *)
Definition positioned (item : erasedItem dyn) : Prop :=
  ∀ q, ei_quarantined item = Some q → ie_Index q = ei_index item.

Record body_ok (body : ctx → erasedItem dyn → prog W (res (erasedItem dyn))) : Prop := {
  bo_flagged c item r : flagged item = true → can_return (body c item) r → r = Ok item;
  bo_index c item it : positioned item → can_return (body c item) (Ok it) → at_index (ei_index item) (Ok it);
}.

Lemma typed_body_ok : body_ok (typed_body Int63n dynamic_type runner).
Proof.
  split; unfold typed_body; intros c item.
  - intros r Hf. rewrite Hf. by intros <-.
  - intros it Hp. destruct (flagged item); [by intros [= ->]|].
    destruct (unbox (ei_value item)); [|by intros [=]].
    apply can_return_guarantees with any_move. apply process_at_index.
Qed.
End positions.

(** ** Every run: results are aligned with their items *)

Section aligned.
Context {dyn U E : Type} {EG : ErrGroup} (Int63n : nat → Z → Z) (dynamic_type : option dyn → string).
Notation W := (world dyn U E).
Notation stageRunner := (stageRunner (dyn := dyn) (U := U) (E := E)).
Notation stageSpec := (stageSpec (dyn := dyn) (U := U) (E := E)).
Implicit Types (stages : list stageSpec) (runner : stageRunner) (runners : list stageRunner) (x y : erasedItem dyn).

(** [y] resumes [x]: it is at its position, and the same if [x] was flagged. *)
Definition resumes x y : Prop := at_index (ei_index x) (Ok y) ∧ (flagged x = true → y = x).

(** An engine that emits every item that has arrived once. *)
Definition engine_ok (run : ctx → list (erasedItem dyn) → W → W → res (list (erasedItem dyn)) → Prop) : Prop :=
  ∀ c arrived w w' outs, Forall positioned arrived → run c arrived w w' (Ok outs) →
    ∃ l : list (erasedItem dyn * erasedItem dyn), arrived ≡ₚ l.*1 ∧ outs ≡ₚ l.*2 ∧ Forall (λ '(x, y), resumes x y) l.

(** A runner that has at least one worker and keeps items at their position. *)
Definition runner_ok runner : Prop :=
  match runner with
  | PerItem runner => body_ok (run_body runner) ∧ (1 ≤ run_workers runner)%nat
  | Whole _ run => engine_ok run
  end.

(** A stage whose runners are so. *)
Definition stage_ok (s : stageSpec) : Prop := ∀ o runner, can_return (ss_build s o) (Ok runner) → runner_ok runner.

(** A stage without an engine. *)
Definition per_item (s : stageSpec) : Prop := ∀ o runner, can_return (ss_build s o) (Ok runner) → ∃ items, runner = PerItem items.

Lemma stageOfStep_built {I O} `{!Boxed dyn I, !Boxed dyn O, !Codec O} (s : Step dyn U E I O) o runner :
  can_return (ss_build (stageOfStep Int63n dynamic_type s) o) (Ok runner) →
  ∃ tr, runner = PerItem (typed_stage Int63n dynamic_type tr) ∧ Runner.step tr = s ∧ options tr = o ∧ 1 ≤ workers tr.
Proof.
  intros Hr. apply can_return_rbind in Hr as [(tr & Hnew & [= <-])|(e & _ & [=])]. exists tr. split; [done|].
  unfold newTypedRunner in Hnew. case_decide; [done|]. destruct (Do s); [|done].
  assert (∀ ri, 1 ≤ workers (TypedRunner s o (effective_classifier (st_Policy s)) (withDefaults (retry_backoff (Retry (st_Policy s))))
     (effective_attempts (st_Policy s)) (effective_workers (st_Policy s)) (r_Name <$> Admission (st_Policy s)) ri)) as Heff.
  { intros ri. simpl. unfold effective_workers. destruct (Z.ltb_spec (Workers (st_Policy s)) 1); lia. }
  destruct (Meter s), (AttemptMeter s); try done;
    apply can_return_bind in Hnew as (ri & _ & [= <-]); (split; [done|split; [done|apply Heff]]).
Qed.

Lemma stageOfStep_ok {I O} `{!Boxed dyn I, !Boxed dyn O, !Codec O} (s : Step dyn U E I O) :
  stage_ok (stageOfStep Int63n dynamic_type s).
Proof. intros o runner (tr & -> & _ & _ & Hw)%stageOfStep_built. split; [apply typed_body_ok|simpl; lia]. Qed.

Lemma stageOfStep_per_item {I O} `{!Boxed dyn I, !Boxed dyn O, !Codec O} (s : Step dyn U E I O) :
  per_item (stageOfStep Int63n dynamic_type s).
Proof. intros o runner (tr & -> & _)%stageOfStep_built. by eexists. Qed.

Lemma build_each o stages (built : list stageRunner) :
  can_return (build_runners o stages) (Ok built) →
  Forall2 (λ s runner, can_return (ss_build s o) (Ok runner)) stages built.
Proof.
  revert built. induction stages as [|s stages IH]; intros built Hr; [by injection Hr as <-|].
  apply can_return_rbind in Hr as [(runner & Hb & Hr)|(e & _ & [=])].
  apply can_return_rbind in Hr as [(rest & Hrest & [= <-])|(e & _ & [=])].
  apply can_return_bind in Hb as ([r|e] & Hb & [= ->]). constructor; [done|by apply IH].
Qed.

Lemma build_items o stages built :
  Forall per_item stages → can_return (build_runners o stages) (Ok built) → ∃ items, built = PerItem <$> items.
Proof.
  intros Hst Hb%build_each. revert Hst. induction Hb as [|s runner stages built Hs _ IH]; intros Hst; [by exists []|].
  apply Forall_cons in Hst as [Hper Hst]. destruct (Hper _ _ Hs) as [item ->]. destruct (IH Hst) as [items ->]. by exists (item :: items).
Qed.

Lemma Run_end_ok {R} c o total root (r : res R) report (x : R) rep :
  can_return (Run_end (dyn := dyn) (U := U) (E := E) c o total root r report) (Ok x, rep) → r = Ok x ∧ rep = report.
Proof.
  unfold Run_end. destruct root; simpl; [|by intros [= -> ->]].
  intros (published & _ & (emitted & _ & Hret)%can_return_bind)%can_return_bind.
  destruct r as [y|e], published, emitted; simpl in Hret; by simplify_eq.
Qed.

(** [runner] makes [y] of [x]: a worker does, or its engine, given [x] among items at
    different positions, returns [y] as its one item for the position of [x]. *)
Definition stage_makes runner x y : Prop :=
  match runner with
  | PerItem runner => ∃ c, can_return (run_body runner c x) (Ok y)
  | Whole _ run => ∃ c arrived w w' outs, run c arrived w w' (Ok outs) ∧ NoDup (ei_index <$> arrived) ∧
                   x ∈ arrived ∧ y ∈ outs ∧ resumes x y
  end.

(** The stages take [x] to [y], one after the other. *)
Fixpoint journey runners x y : Prop :=
  match runners with
  | [] => y = x
  | runner :: runners => ∃ z, stage_makes runner x z ∧ journey runners z y
  end.

Lemma stage_makes_resumes runner x y : runner_ok runner → positioned x → stage_makes runner x y → resumes x y.
Proof.
  destruct runner as [runner|report run]; simpl; [|by intros _ _ (c & arrived & w & w' & outs & _ & _ & _ & _ & ?)].
  intros [Hb _] Hp (c & Hret). split; [by eapply bo_index|]. intros Hf. apply (bo_flagged _ Hb _ _ _ Hf) in Hret. by injection Hret.
Qed.

(** Once flagged, an item is handed on as it is. *)
Lemma journey_flagged runners x y :
  Forall runner_ok runners → positioned x → flagged x = true → journey runners x y → y = x.
Proof.
  induction 1 as [|runner runners Hb _ IH]; simpl; intros Hp Hf; [done|]. intros (z & Hz & Hj).
  destruct (stage_makes_resumes _ _ _ Hb Hp Hz) as [_ Heq]. rewrite (Heq Hf) in Hj. auto.
Qed.

Lemma journey_at_index i runners x y :
  Forall runner_ok runners → at_index i (Ok x) → journey runners x y → at_index i (Ok y).
Proof.
  intros Hb. revert x. induction Hb as [|runner runners Hr _ IH]; simpl; intros x Hx; [by intros ->|].
  intros (z & Hz & Hj). apply (IH z); [|done]. destruct Hx as [<- Hq]. by apply (stage_makes_resumes _ _ _ Hr Hq).
Qed.

Definition input_at {I} `{!Boxed dyn I} (i : nat) (item : I) : erasedItem dyn :=
  ErasedItem i (box item) no_outcome None false.

Lemma input_items_lookup {I} `{!Boxed dyn I} (items : list I) i :
  input_items items !! i = input_at i <$> items !! i.
Proof. apply list_lookup_imap. Qed.

Lemma input_items_elem {I} `{!Boxed dyn I} (items : list I) x :
  x ∈ input_items items → ∃ i item, items !! i = Some item ∧ x = input_at i item.
Proof.
  intros (i & Hi)%list_elem_of_lookup. rewrite input_items_lookup in Hi.
  apply fmap_Some in Hi as (item & ? & ->). eauto.
Qed.

Lemma input_items_index {I} `{!Boxed dyn I} (items : list I) :
  length (input_items items) = length items ∧ ei_index <$> input_items items = seq 0 (length items).
Proof.
  split; [apply length_imap|]. apply list_eq. intros i. rewrite list_lookup_fmap, input_items_lookup.
  destruct (items !! i) eqn:Hi; simpl.
  - by rewrite lookup_seq_lt by by eapply lookup_lt_Some.
  - symmetry. apply lookup_seq_ge. by apply lookup_ge_None.
Qed.

(** The pipeline of a run. *)
Definition run_pipeline o total stages runners := run_stage (dyn := dyn) (U := U) (E := E) o total <$> zip stages runners.

(** The same for runners without an engine. *)
Definition items_pipeline o total stages (runners : list itemRunner) :=
  pipeline_stage (dyn := dyn) (U := U) (E := E) o total <$> zip stages runners.

Definition stage_job runners (k : nat) x (r : res (erasedItem dyn)) (m : unit) : Prop :=
  ∃ runner, runners !! k = Some runner ∧ ∀ y, r = Ok y → stage_makes runner x y.

Lemma run_pipeline_lookup o total stages runners k sg :
  run_pipeline o total stages runners !! k = Some sg →
  ∃ s runner, stages !! k = Some s ∧ runners !! k = Some runner ∧ sg = run_stage o total (s, runner).
Proof. intros ([s runner] & -> & (? & ? & [= <- <-] & Hs & Hr)%lookup_zip_with_Some)%list_lookup_fmap_Some. eauto. Qed.

Lemma stage_jobs_ok Env o total stages runners inputs :
  Forall runner_ok runners →
  NoDup (ei_index <$> inputs) → (∀ x, x ∈ inputs → (ei_index x < length inputs)%nat ∧ positioned x) →
  stages_ok ei_index Env (run_pipeline o total stages runners) inputs (λ _ (_ : unit), True)
    (λ _ x, (ei_index x < length inputs)%nat ∧ positioned x) (stage_job runners).
Proof.
  intros Hall Hnd Hin. rewrite Forall_lookup in Hall.
  split.
  - intros x Hx. split; [by apply Hin|by apply Hin].
  - done.
  - intros k x y _ [Hlt Hp] (runner & Hk & Hy).
    destruct (stage_makes_resumes runner x y (Hall k runner Hk) Hp (Hy y eq_refl)) as [[Hi Hq] _].
    split; [|done]. split; [lia|]. unfold positioned. by rewrite Hi.
  - intros k sg inner x (s & runner & _ & Hk & ->)%run_pipeline_lookup Hno _. destruct runner as [runner|report run]; [|done].
    eapply owns_conseq; [apply owns_can_return|]. intros r m Hr. exists (PerItem runner). split; [done|].
    intros y ->. by exists inner.
  - intros k sg gctx (s & runner & _ & _ & ->)%run_pipeline_lookup.
    destruct runner; (split; (eapply owns_conseq; [apply owns_can_return|]; by intros r [] _)).
  - done.
  - done.
  - intros sg (k & (s & runner & _ & Hk & ->)%run_pipeline_lookup)%list_elem_of_lookup.
    specialize (Hall k runner Hk). destruct runner; simpl in *; [apply Hall|lia].
  - intros k sg (s & runner & _ & _ & ->)%run_pipeline_lookup [run Hrun]. by destruct runner.
  - intros k sg run inner items u u' out (s & runner & _ & Hk & ->)%run_pipeline_lookup Hrun Hitems Hdistinct Hret.
    specialize (Hall k runner Hk). destruct runner as [|report run']; [done|]. injection Hrun as ->.
    destruct (Hall inner items u u' out) as (l & Hl & Hout & Hres); [by eapply Forall_impl; [exact Hitems|intros x []]|done|].
    exists l. split; [done|]. split; [done|]. rewrite Forall_forall in Hres |- *. intros [x y] Hxy. exists (Whole report run).
    split; [done|]. intros y' [= <-]. exists inner, items, u, u', out. split_and!; [done|done| | |by apply (Hres (x, y))].
    + rewrite Hl. by apply (list_elem_of_fmap_2 fst l (x, y)).
    + rewrite Hout. by apply (list_elem_of_fmap_2 snd l (x, y)).
Qed.

Lemma through_journey runners k n x m y :
  (k + n = length runners)%nat → through (stage_job runners) k n x m y → journey (drop k runners) x y.
Proof.
  revert k x m. induction n as [|n IH]; intros k x m Hk; simpl.
  - intros [-> _]. rewrite drop_ge by lia. done.
  - intros (z & m1 & m2 & (runner & Hr & Hz) & Ht & _). rewrite (drop_S _ _ _ Hr). simpl.
    exists z. split; [by apply Hz|]. apply (IH (S k) z m2); [lia|done].
Qed.
End aligned.

Section run.
Context {dyn U E : Type} {EG : ErrGroup} (Int63n : nat → Z → Z) (dynamic_type : option dyn → string).
Context {I O : Type} `{!Boxed dyn I, !Boxed dyn O, !Codec O}.
Notation W := (world dyn U E).
Notation stagesOf := (stagesOf Int63n dynamic_type).
Notation stageSpec := (stageSpec (dyn := dyn) (U := U) (E := E)).
Notation runner_type := (stageRunner (dyn := dyn) (U := U) (E := E)).
Context (Env : W → W → Prop) (c : ctx) (s : flow (dyn := dyn) (U := U) (E := E) I O) (items : list I).
Implicit Types o : Options dyn U E.

Lemma plain_ok (p : Step dyn U E I O) : Forall stage_ok (stagesOf (Plain _ _ p)).
Proof. constructor; [apply stageOfStep_ok|done]. Qed.

(** A run of a pipeline with a barrier stage is canceled by nobody, its reporter included. *)
Definition calm_stages (stages : list stageSpec) o w : Prop :=
  ∀ runContext w1 w2 runners,
    runs Env (build_runners o stages) w w1 (Ok runners) → startPeriodicReporter o c w1 runContext w2 →
    undisturbed ei_index zero_item
      (around_engines runners
         (run_env Env o runContext (stage_pubs o runContext (Z.of_nat (length (input_items items))) runners) None))
      (run_pipeline o (Z.of_nat (length (input_items items))) stages runners) runContext (input_items items) w2.

Definition calm (stages : list stageSpec) o w : Prop :=
  ∀ o' root w1, runs Env (Run_begin c stages (Z.of_nat (length items)) o) w w1 (Ok (o', root)) → calm_stages stages o' w1.

(** Without barriers it may be canceled at any moment. *)
Definition no_barrier (stages : list stageSpec) : Prop :=
  Forall (λ s, ∀ o runner, can_return (ss_build s o) (Ok (PerItem runner)) → run_barrier runner = false) stages.

Lemma no_barrier_calm_stages stages o w : no_barrier stages → calm_stages stages o w.
Proof.
  intros Hst runContext w1 w2 runners Hb%runs_can_return%build_each _ gctx s0 k sg _ Hsg Hbar Hno.
  apply run_pipeline_lookup in Hsg as (sp & runner & Hs & Hr & ->). destruct runner as [runner|]; [|done].
  unfold no_barrier in Hst. rewrite Forall_lookup in Hst. simpl in Hbar. rewrite (Hst k sp Hs o runner) in Hbar; [done|].
  exact (Forall2_lookup_lr _ _ _ _ _ _ Hb Hs Hr).
Qed.

Lemma no_barrier_calm stages o w : no_barrier stages → calm stages o w.
Proof. intros Hst o' root w1 _. by apply no_barrier_calm_stages. Qed.

(** A run that returns results had no error of the reporter. *)
Lemma runStages_ok stages inputs o w w' its report :
  runStages_returns Env c stages inputs o w w' (Ok its, report) →
  ∃ runContext w1 w2 w3 w4 runners live,
    let pubs := stage_pubs o runContext (Z.of_nat (length inputs)) runners in
    runs Env (build_runners o stages) w w1 (Ok runners) ∧ startPeriodicReporter o c w1 runContext w2 ∧
    pipeline_returns ei_index zero_item (around_engines runners (run_env Env o runContext pubs None))
      (run_pipeline o (Z.of_nat (length inputs)) stages runners) runContext inputs w2 w3 (Ok its) ∧
    stopReporter Env o runContext pubs w3 None w4 ∧ runs Env (currentReport (reporting live runners)) w4 w' report.
Proof.
  intros Hret. inversion Hret as [|runContext w1 w2 w3 w4 w5 runners live r e rep pubs Hb Hs Hp Hstop Hr]; simplify_eq.
  destruct e; [done|]. simplify_eq. by exists runContext, w1, w2, w3, w4, runners, live.
Qed.

(** The same when no stage has an engine. *)
Lemma runStages_items stages o w w' its report :
  Forall per_item stages → calm_stages stages o w →
  runStages_returns Env c stages (input_items items) o w w' (Ok its, report) →
  ∃ runContext w1 w2 w3 w4 (runners : list itemRunner),
    let total := Z.of_nat (length (input_items items)) in
    let pubs := stage_pubs o runContext total (PerItem <$> runners) in
    runs Env (build_runners o stages) w w1 (Ok (PerItem <$> runners)) ∧ startPeriodicReporter o c w1 runContext w2 ∧
    undisturbed ei_index zero_item (run_env Env o runContext pubs None) (items_pipeline o total stages runners) runContext (input_items items) w2 ∧
    pipeline_returns ei_index zero_item (run_env Env o runContext pubs None)
      (items_pipeline o total stages runners) runContext (input_items items) w2 w3 (Ok its) ∧
    stopReporter Env o runContext pubs w3 None w4 ∧ runs Env (currentReport (PerItem <$> runners)) w4 w' report.
Proof.
  intros Hst Hcalm (runContext & w1 & w2 & w3 & w4 & built & live & Hb & Hs & Hp & Hstop & Hr)%runStages_ok.
  specialize (Hcalm runContext w1 w2 built Hb Hs).
  destruct (build_items _ _ _ Hst (runs_can_return _ _ _ _ _ Hb)) as [runners ->].
  unfold run_pipeline in Hp, Hcalm. rewrite around_items, run_stages_items in Hp, Hcalm. rewrite reporting_items in Hr.
  by exists runContext, w1, w2, w3, w4, runners.
Qed.

Lemma stages_journeys o (stages : list stageSpec) w w' its report :
  Forall stage_ok stages → calm_stages stages o w →
  runStages_returns Env c stages (input_items items) o w w' (Ok its, report) →
  ∃ runners : list runner_type,
    Forall2 (λ st runner, can_return (ss_build st o) (Ok runner)) stages runners ∧ Forall runner_ok runners ∧
    length its = length items ∧
    ∀ i item, items !! i = Some item → ∃ out, its !! i = Some out ∧
      journey runners (input_at i item) out ∧ at_index i (Ok out).
Proof.
  intros Hst Hcalm Hret. apply runStages_ok in Hret as (runContext & w1 & w2 & w3 & w4 & runners & live & Hbuild & Hstart & Hpipe & _).
  specialize (Hcalm runContext w1 w2 runners Hbuild Hstart).
  apply runs_can_return, build_each in Hbuild. exists runners.
  assert (length runners = length stages) as Hl by (symmetry; by eapply Forall2_length).
  assert (Forall runner_ok runners) as Hok.
  { apply Forall_lookup. intros k runner Hk. rewrite Forall_lookup in Hst.
    destruct (Forall2_lookup_r _ _ _ _ _ Hbuild Hk) as (sp & Hs & Hrun). by apply (Hst k sp Hs o). }
  destruct (input_items_index items) as [Hlen Hidx].
  assert (∀ x, x ∈ input_items items → (ei_index x < length (input_items items))%nat ∧ positioned x) as Hin.
  { intros x (i & item & Hi & ->)%input_items_elem. rewrite Hlen. split; [simpl; by eapply lookup_lt_Some|done]. }
  assert (NoDup (ei_index <$> input_items items)) as Hnd by (rewrite Hidx; apply NoDup_seq).
  destruct (pipeline_results ei_index zero_item _ _ runContext (input_items items) w2 (λ _ (_ : unit), True) _ _ w3 its
    (stage_jobs_ok _ o _ stages runners _ Hok Hnd Hin) ltac:(done) Hcalm Hpipe) as [Hlr (ms & _ & _ & Hall)].
  split; [done|]. split; [done|]. rewrite Hlr, Hlen. split; [done|]. intros i item Hi.
  destruct (Hall i (input_at i item)) as (m & out & _ & Hout & Ht); [by rewrite input_items_lookup, Hi|].
  exists out. split; [done|].
  assert (journey runners (input_at i item) out) as Hj.
  { unfold run_pipeline in Ht. rewrite length_fmap, length_zip_with, Nat.min_l in Ht by lia.
    apply (through_journey runners 0) in Ht; [done|lia]. }
  split; [done|]. by eapply journey_at_index; [exact Hok| |exact Hj].
Qed.

Lemma mapM_lookup_Some {A B} (f : A → option B) (l : list A) (k : list B) i x :
  mapM f l = Some k → l !! i = Some x → ∃ y, k !! i = Some y ∧ f x = Some y.
Proof. intros Hm%mapM_Some Hi. by destruct (Forall2_lookup_l _ _ _ _ _ Hm Hi) as (y & ? & ?); eauto. Qed.

Lemma run_aligned o w w' rs report :
  has_engine s = false → Forall stage_ok (stagesOf s) → calm (stagesOf s) o w →
  Run_returns Int63n dynamic_type Env c s items o w w' (Ok rs, report) →
  length rs = length items ∧
  ∃ o' root w1 (runners : list runner_type),
    runs Env (Run_begin c (stagesOf s) (Z.of_nat (length items)) o) w w1 (Ok (o', root)) ∧
    Forall2 (λ st runner, can_return (ss_build st o') (Ok runner)) (stagesOf s) runners ∧ Forall runner_ok runners ∧
    ∀ i item, items !! i = Some item → ∃ out r, rs !! i = Some r ∧ result_of out = Some r ∧
      journey runners (input_at i item) out ∧
      ∀ q, r_Quarantined r = Some q → ie_Index q = i.
Proof.
  intros Hplain Hst Hcalm Hret. inversion Hret as [| |w1 w2 w3 o' root outputs rep r out Heng Hbegin Hstages Hdec Hend]; simplify_eq.
  apply runs_can_return, Run_end_ok in Hend as [-> ->].
  destruct outputs as [its|e]; [|done]. destruct (mapM result_of its) as [rs'|] eqn:Hm; [|done].
  injection Hdec as ->.
  destruct (stages_journeys o' _ _ _ _ _ Hst (Hcalm o' root w1 Hbegin) Hstages) as (runners & Hl & Hb & Hits & Hall).
  split; [by rewrite <-Hits, (length_mapM _ _ _ Hm)|]. exists o', root, w1, runners. split; [done|]. split; [done|]. split; [done|].
  intros i item Hi. destruct (Hall i item Hi) as (out & Ho & Hj & Hat).
  destruct (mapM_lookup_Some _ _ _ _ _ Hm Ho) as (r & Hr & Hres). exists out, r. split_and!; [done|done|done|].
  intros q Hq. apply Hat. unfold result_of in Hres. destruct (ei_quarantined out), (ei_skipped out), (ei_value out);
    repeat case_match; simplify_eq/=; done.
Qed.

(** C3: [results[i]] belongs to [items[i]], always: when a run returns its results, there
    is one for every item, and the one at position [i] is what the stages, one after
    the other and each once, made of item [i].  The k-th runner is one that the k-th
    stage of the step builds from the options the run prepared; a worker of it
    returned the item, or its engine returned it as its one item for that position,
    of items at different positions with this one among them.  An item flagged by a stage is handed
    on untouched by the later ones; a quarantine record names position [i].  This is
    so for a plain step and for every pipe of steps, plain or with engines of their
    own, whatever the number of workers, the scheduling and the surroundings; only a
    pipeline with a barrier stage of workers must not be canceled by its caller or its
    reporter (see [canceled_barrier_succeeds]; CalmRun.v has conditions that ensure it). *)
Theorem results_aligned o w w' rs report :
  has_engine s = false → Forall stage_ok (stagesOf s) → calm (stagesOf s) o w →
  Run_returns Int63n dynamic_type Env c s items o w w' (Ok rs, report) →
  length rs = length items ∧
  ∃ o' root w1 (runners : list runner_type),
    runs Env (Run_begin c (stagesOf s) (Z.of_nat (length items)) o) w w1 (Ok (o', root)) ∧
    Forall2 (λ st runner, can_return (ss_build st o') (Ok runner)) (stagesOf s) runners ∧ Forall runner_ok runners ∧
    ∀ i item, items !! i = Some item → ∃ out r, rs !! i = Some r ∧ result_of out = Some r ∧
      journey runners (input_at i item) out ∧
      ∀ q, r_Quarantined r = Some q → ie_Index q = i.
Proof. apply run_aligned. Qed.
End run.

(** ** The last event of a custom engine *)

Section completion.
Context {dyn U E : Type} {EG : ErrGroup}.
Notation W := (world dyn U E).

(** A ledger that refuses to write once its context has ended. *)
Definition heeding (log : ctx → Event → prog W (res unit)) (c : ctx) (ev : Event) : prog W (res unit) :=
  read (world_ctx_err c) ≫= λ stopped, match stopped with Some e => mret (Err e) | None => log c ev end.

Lemma stop_cancels Env (o : Options dyn U E) c w runContext w1 pubs w2 e w3 :
  periodic o = true → startPeriodicReporter o c w runContext w1 → stopReporter Env o runContext pubs w2 e w3 →
  is_Some (world_ctx_err runContext w3).
Proof.
  intros Hp Hstart Hstop. assert (∃ id, runContext = id :: c) as [id ->].
  { inversion Hstart as [Hq|rc t _ Ht]; [congruence|subst]. injection Ht as _ <-. by eexists. }
  inversion Hstop as [Hq|e' w4 _ _ _]; [congruence|subst].
  change (is_Some (ctx_err (id :: c) (cancel (id :: c) (Sentinel Canceled) (ctxs_of w4)))). rewrite ctx_err_cancel. by eexists.
Qed.

(** C27: The event that a step with an engine of its own has completed is emitted in a context that
    the stopped reporter has ended: with a periodic reporter and a ledger that heeds its
    context no such step succeeds, whatever its engine returns. *)
Theorem engine_completion_refused {I O} (Env : W → W → Prop) c (s : Step dyn U E I O) own items o log w w' r report :
  (∀ u u' c', Env u u' → is_Some (world_ctx_err c' u) → is_Some (world_ctx_err c' u')) →
  periodic o = true → Ledger o = Some (heeding log) → Clock o = None →
  override_returns Env c s own items o w w' (r, report) → ∃ e, r = Err e.
Proof.
  intros HEnv Hp Hl Hclock Hret.
  inversion Hret as [| |rc w1 w2 w3 w4 w5 results rep r' pubs Hstart _ _ Hstop Hemit]; subst; [by eexists..|].
  pose proof (stop_cancels _ _ _ _ _ _ _ _ _ _ Hp Hstart Hstop) as Hc.
  assert (owns (λ u (_ : unit), is_Some (world_ctx_err rc u)) (λ r _, ∃ e, r = Err e)
    (emitLedger rc o (core_event (st_Name s) EventStepCompleted (Z.of_nat (length items)))) tt) as Hown.
  2: { destruct (runs_owns Env _ _ _ tt w4 w' r' (λ u u' _ Hu He, HEnv u u' rc He Hu) Hown Hc Hemit) as ([] & _ & e & ->). by exists e. }
  unfold emitLedger. rewrite Hl. apply owns_bind' with (λ _ _, True); [|intros ev' [] _].
  - simpl. unfold now. rewrite Hclock. apply owns_bind' with (λ _ _, True); [|by intros; apply owns_ret].
    apply owns_atomic. intros u m Hu. by exists tt.
  - apply owns_bind' with (λ r _, ∃ e, r = Err e); [|by intros r m [e ->]; apply owns_ret; eexists].
    apply owns_bind' with (λ stopped _, is_Some stopped); [|by intros stopped m [e ->]; apply owns_ret; exists e].
    apply owns_atomic. intros u m Hu. by exists tt.
Qed.
End completion.

Section pipes.
Context {dyn U E : Type} {EG : ErrGroup} (Int63n : nat → Z → Z) (dynamic_type : option dyn → string).
Context {A B C D F : Type} `{!Boxed dyn A, !Boxed dyn B, !Boxed dyn C, !Boxed dyn D, !Boxed dyn F}
  `{!Codec B, !Codec C, !Codec D, !Codec F}.
Notation flow := (flow (dyn := dyn) (U := U) (E := E)).
Notation stagesOf := (stagesOf Int63n dynamic_type).
Notation well_formed s := (Forall stage_ok (stagesOf s)).

(** Pipes flatten: nesting them is concatenating their stages. *)
Lemma stagesOf_pipes (s1 : flow A B) (s2 : flow B C) (s3 : flow C D) (s4 : flow D F) :
  stagesOf (Pipe2 Int63n dynamic_type s1 s2) = stagesOf s1 ++ stagesOf s2 ∧
  stagesOf (Pipe3 Int63n dynamic_type s1 s2 s3) = stagesOf s1 ++ stagesOf s2 ++ stagesOf s3 ∧
  stagesOf (Pipe4 Int63n dynamic_type s1 s2 s3 s4) = stagesOf s1 ++ stagesOf s2 ++ stagesOf s3 ++ stagesOf s4.
Proof. split_and!; unfold Pipe2, Pipe3, Pipe4, combineStages; simpl; by rewrite app_nil_r. Qed.

Lemma pipes_ok (s1 : flow A B) (s2 : flow B C) (s3 : flow C D) (s4 : flow D F) :
  well_formed s1 → well_formed s2 → well_formed s3 → well_formed s4 →
  well_formed (Pipe2 Int63n dynamic_type s1 s2) ∧ well_formed (Pipe3 Int63n dynamic_type s1 s2 s3) ∧
  well_formed (Pipe4 Int63n dynamic_type s1 s2 s3 s4).
Proof.
  intros. destruct (stagesOf_pipes s1 s2 s3 s4) as (-> & -> & ->). split_and!; rewrite !Forall_app; auto.
Qed.
End pipes.
