(* ===== verification/RunExact.v ===== *)
(** * A run of a plain step: its results, its report and its budget

    The pipeline of one stage over the engine of Runner.v: [step_exact] combines the
    contract of the pipeline (PipelineProofs.v) with the accounting of the engine
    (RunnerProofs.v) and the report that is read at the end. *)

From S2P Require Import Prelude GoError GoStrings Float64 Classify Policy Digest Json.
From S2P Require Import Go Limits Budget Chain ErrGroup ResourcePlan RunEnv Cache Report Step Observe Runner RunnerProofs.
From S2P Require Import Pipeline PipelineProofs Flow FlowProofs.

(** ** Programs that leave the world as it is *)

Section still.
Context {W : Type}.

Definition still {A} (p : prog W A) : Prop := guarantees (λ w w', w' = w) (λ _, True) p.

Lemma still_bind {A B} (p : prog W A) (f : A → prog W B) : still p → (∀ a, still (f a)) → still (p ≫= f).
Proof. intros Hp Hf. apply guarantees_bind with (λ _, True); [exact Hp|intros a _; apply Hf]. Qed.

Lemma still_await {X} (act : W → list (W * X)) : (∀ w w' x, (w', x) ∈ act w → w' = w) → still (await act).
Proof. intros Hact. apply guarantees_await. intros w w' x Hin. split; [by eapply Hact|done]. Qed.

Lemma owns_still {A} `{Account M} (P : W → M → Prop) (p : prog W A) γ :
  still p → owns P (λ _ m, m = γ) p γ.
Proof.
  induction p as [a|X act k IH]; intros Hp; [done|]. intros w o Hw w' x Hin.
  destruct (Hp w w' x Hin) as [-> Hk]. exists γ. split; [done|]. by apply IH.
Qed.

(** What it returns where [P0] holds, it returns under any stronger invariant. *)
Lemma owns_still_post {A} (P P0 : W → Prop) (Q : A → Prop) (p : prog W A) :
  still p → (∀ w, P w → P0 w) → owns (λ w (_ : unit), P0 w) (λ a _, Q a) p tt →
  owns (λ w (_ : unit), P w) (λ a _, Q a) p tt.
Proof.
  intros Hp HP. revert Hp. induction p as [a|X act k IH]; intros Hp Hown; [done|]. intros w [] Hw w' x Hin.
  destruct (Hp w w' x Hin) as [-> Hk]. destruct (Hown w tt (HP w Hw) w x Hin) as ([] & _ & Hrest).
  exists tt. split; [done|]. by apply IH.
Qed.
End still.

Lemma still_within {W A} (G : W → W → Prop) `{!Reflexive G} (p : prog W A) : still p → guarantees G (λ _, True) p.
Proof.
  induction p as [a|X act k IH]; intros Hp; [done|]. intros w w' x Hin. destruct (Hp w w' x Hin) as [-> Hk].
  split; [done|]. by apply IH.
Qed.

Lemma still_zoom {C W A} `{Has C W} (p : prog C A) : still p → still (W := W) (zoom p).
Proof.
  induction p as [a|X act k IH]; intros Hp; [done|]. intros w w' x Hin.
  apply list_elem_of_fmap in Hin as ([s y] & [= -> ->] & Hin). destruct (Hp (inside w) s y Hin) as [-> Hk].
  split; [apply replace_inside|]. by apply IH.
Qed.

Lemma still_env_snapshot {U} e names : still (env_snapshot e names : prog (envw U) _).
Proof.
  assert (∀ bs m, still (snapshot_each bs m : prog (envw U) _)) as Heach.
  { induction bs as [|[name [bud|]] bs IH]; intros m; [done| |].
    - apply still_bind; [|intros a; apply IH]. apply still_zoom, still_await. intros w w' x Hin.
      destruct (lw_budgets w !! bud) as [y|] eqn:Hy; [|by apply elem_of_nil in Hin].
      apply list_elem_of_singleton in Hin as [= -> _]. by apply set_budget_id.
    - apply still_bind; [done|intros a; apply IH]. }
  unfold env_snapshot. destruct names as [|name names]; [done|].
  apply still_bind; [|intros bs; apply Heach]. apply still_await. intros w w' x Hin.
  destruct (ew_envs w !! e) as [env|] eqn:He; [|by apply elem_of_nil in Hin].
  apply list_elem_of_singleton in Hin as [= -> _]. destruct w. simpl in *. by rewrite list_insert_id.
Qed.

Lemma still_read_spend {dyn U E} (o : Options dyn U E) names : still (read_spend o names).
Proof.
  unfold read_spend. destruct names as [|name names]; [done|].
  destruct (opt_env o) as [e|]; [|by apply still_await; intros w w' x Hin%elem_of_nil].
  apply still_bind; [apply still_zoom, still_env_snapshot|done].
Qed.

Lemma still_with_runner {dyn U E X} ri (f : rstate dyn → X) :
  still (with_runner (U := U) (E := E) ri (λ s, [(s, f s)])).
Proof.
  apply still_await. intros w w' x Hin. destruct (wd_runners w !! ri) as [st|] eqn:Hst; [|by apply elem_of_nil in Hin].
  apply list_elem_of_singleton in Hin as [= -> _]. rewrite list_insert_id by done. by destruct w.
Qed.

(** Reading the report of a run changes nothing. *)
Lemma still_report {dyn U E I O} `{!Boxed dyn I, !Boxed dyn O, !Codec O} (runner : typedRunner dyn U E I O) : still (report runner).
Proof.
  unfold report. apply still_bind; [apply still_with_runner|]. intros [copied metered]. apply still_bind.
  - apply still_read_spend.
  - intros spend. apply still_bind; [|done]. destruct (RetriesByClass copied); [|done].
    apply (still_with_runner (state runner) (λ s, RetriesByClass (counts s))).
Qed.

Lemma still_currentReport {dyn U E} (runners : list (stageRunner (dyn := dyn) (U := U) (E := E))) :
  Forall (λ r, still (runner_report r)) runners → still (currentReport runners).
Proof.
  unfold currentReport. generalize (None : Report). intros acc Hr. revert acc.
  induction Hr as [|r runners Hr _ IH]; intros acc; [done|]. apply still_bind; [done|]. intros a. apply IH.
Qed.


Section exact.
Context {dyn U E I O : Type} {EG : ErrGroup} `{!Boxed dyn I, !Boxed dyn O, !Codec O} (Int63n : nat → Z → Z)
  (dynamic_type : option dyn → string).
Notation W := (world dyn U E).
Notation M := (racct * share)%type.
Context (s : Step dyn U E I O) (o : Options dyn U E) (e b : nat) (x0 : budget) (L : gmap string (Limiter U))
  (B : gmap string nat).
Context (DoQ : I → O * option error → Prop) (LoadQ PutQ : Key → O → Prop).
Implicit Types (w : W) (ri : nat).

(** The runner [newTypedRunner] builds. *)
Definition built ri : typedRunner dyn U E I O :=
  TypedRunner s o (effective_classifier (st_Policy s)) (withDefaults (retry_backoff (Retry (st_Policy s))))
    (effective_attempts (st_Policy s)) (effective_workers (st_Policy s)) (r_Name <$> Admission (st_Policy s)) ri.

(** What happens around the run: other runners come and go, environment [e] may be
    extended, budgets are created; nobody else touches this run's runner or charges
    the budgets that exist. *)
Definition minds w w' : Prop :=
  (∀ ri st, wd_runners w !! ri = Some st → wd_runners w' !! ri = Some st) ∧
  (∀ env, ew_envs (wd_env w) !! e = Some env →
     ∃ env', ew_envs (wd_env w') !! e = Some env' ∧ limiters env ⊆ limiters env') ∧
  ambient (ew_limits (wd_env w)) (ew_limits (wd_env w')).

Definition declared w : Prop :=
  (∃ env, ew_envs (wd_env w) !! e = Some env ∧ L ⊆ limiters env) ∧
  lw_budgets (ew_limits (wd_env w)) !! b = Some x0 ∧ 0 ≤ remaining x0 ≤ max64.

(** The budgets that were declared, [B] among them, keep their names too. *)
Definition heeds w w' : Prop :=
  minds w w' ∧
  ∀ env, ew_envs (wd_env w) !! e = Some env →
    ∃ env', ew_envs (wd_env w') !! e = Some env' ∧ budgets env ⊆ budgets env'.

Definition provided w : Prop :=
  declared w ∧ ∃ env, ew_envs (wd_env w) !! e = Some env ∧ B ⊆ budgets env.

Lemma heeds_env w w' env :
  heeds w w' → ew_envs (wd_env w) !! e = Some env →
  ∃ env', ew_envs (wd_env w') !! e = Some env' ∧ limiters env ⊆ limiters env' ∧ budgets env ⊆ budgets env'.
Proof.
  intros [(_ & Hl & _) Hb] He. destruct (Hl env He) as (env' & He' & Hsub), (Hb env He) as (env2 & He2 & Hsub2).
  assert (env2 = env') as -> by congruence. by exists env'.
Qed.

Lemma provided_env w :
  provided w → ∃ env, ew_envs (wd_env w) !! e = Some env ∧ L ⊆ limiters env ∧ B ⊆ budgets env.
Proof. intros [[(env & He & HL) _] (env2 & He2 & HB)]. assert (env2 = env) as -> by congruence. by exists env. Qed.

Lemma heeds_provided w w' : provided w → heeds w w' → provided w'.
Proof.
  intros Hp Hw. destruct (provided_env w Hp) as (env & He & HL & HB).
  destruct (heeds_env w w' env Hw He) as (env' & He' & HsubL & HsubB). destruct Hp as [(_ & Hb & Hr) _].
  destruct Hw as [(_ & _ & [Hpre _]) _]. split; [|exists env'; split; [done|by etrans]].
  split; [exists env'; split; [done|by etrans]|]. split; [by eapply prefix_lookup_Some|done].
Qed.

Lemma heeds_Inv runner w w' (m : M) :
  Inv runner e b x0 L B DoQ LoadQ PutQ w m → heeds w w' → Inv runner e b x0 L B DoQ LoadQ PutQ w' m.
Proof.
  intros [(st & Hst & Hrest) [Hb (env & He & HL & HB)]] Hw.
  destruct (heeds_env w w' env Hw He) as (env' & He' & HsubL & HsubB). destruct Hw as [(Hrun & _ & Hamb) _].
  split; [exists st; split; [by apply Hrun|done]|]. split; [by eapply ambient_inv|].
  exists env'. split_and!; [done|by etrans..].
Qed.

(** ** Building the runner *)

Definition setup w (m : gmultiset nat) : Prop :=
  provided w ∧ ∀ ri, ri ∈ m → wd_runners w !! ri = Some new_rstate.

Lemma setup_env w w' m : setup w m → heeds w w' → setup w' m.
Proof. intros [Hd Hm] Hw. split; [by eapply heeds_provided|]. intros ri Hri. by apply (proj1 Hw), Hm. Qed.

Definition is_built (r : res (typedRunner dyn U E I O)) (m : gmultiset nat) : Prop :=
  ∀ tr, r = Ok tr → ∃ ri, tr = built ri ∧ m = {[+ ri +]}.

Lemma owns_newTypedRunner : owns setup is_built (newTypedRunner s o) azero.
Proof.
  unfold newTypedRunner. case_decide; [by apply owns_ret|]. destruct (Do s); [|by apply owns_ret].
  assert (owns setup is_built (ri ← atomic (λ w, (set_runners (wd_runners w ++ [new_rstate]) w, length (wd_runners w)));
            mret (Ok (built ri))) azero) as Hnew.
  { eapply owns_bind' with (λ ri m, m = {[+ ri +]}).
    - apply owns_atomic. intros w m [Hd Hm]. exists ({[+ length (wd_runners w) +]} : gmultiset nat). split; [|done].
      split; [done|]. simpl. intros ri Hri. apply gmultiset_elem_of_disj_union in Hri as [Hri|Hri].
      + apply gmultiset_elem_of_singleton in Hri as ->. by rewrite lookup_app_r, Nat.sub_diag by done.
      + assert (wd_runners w !! ri = Some new_rstate) as Hl.
        { apply Hm. apply gmultiset_elem_of_disj_union. by right. }
        by apply lookup_app_l_Some.
    - intros ri m ->. apply owns_ret. intros tr [= <-]. by exists ri. }
  destruct (Meter s), (AttemptMeter s); try exact Hnew. by apply owns_ret.
Qed.

Definition is_stage (r : res stageRunner) (m : gmultiset nat) : Prop :=
  ∀ tr, r = Ok tr → ∃ ri, tr = PerItem (typed_stage Int63n dynamic_type (built ri)) ∧ m = {[+ ri +]}.

Lemma build_one (Env : W → W → Prop) w w1 runners :
  (∀ w w', Env w w' → heeds w w') → provided w →
  runs Env (build_runners o [stageOfStep Int63n dynamic_type s]) w w1 (Ok (PerItem <$> runners)) →
  ∃ ri, runners = [typed_stage Int63n dynamic_type (built ri)] ∧ begins (built ri) e b x0 L B w1.
Proof.
  intros Henv Hd Hruns.
  set (Post := λ (r : res (list stageRunner)) (m : gmultiset nat),
    ∀ rs, r = Ok rs → ∃ ri, rs = [PerItem (typed_stage Int63n dynamic_type (built ri))] ∧ m = {[+ ri +]}).
  assert (owns setup Post (build_runners o [stageOfStep Int63n dynamic_type s]) azero) as Hown.
  { simpl. eapply owns_rbind with (R := is_stage).
    - apply owns_bind' with is_stage; [|by intros [tr|err] m Hb; apply owns_ret].
      eapply owns_rbind; [exact owns_newTypedRunner| |by intros err m _ tr [=]].
      intros tr m Hb. apply owns_ret. intros st [= <-]. destruct (Hb tr eq_refl) as (ri & -> & ->). by exists ri.
    - intros tr m Htr. destruct (Htr tr eq_refl) as (ri & -> & ->). apply owns_ret. intros rs [= <-]. by exists ri.
    - intros err m _ rs [=]. }
  destruct (runs_owns Env setup Post _ azero w w1 (Ok (PerItem <$> runners)) ltac:(intros; eapply setup_env; eauto) Hown) as (m & [Hd1 Hm] & HQ).
  - split; [done|]. intros ri Hri. change (ri ∈ (∅ : gmultiset nat)) in Hri. multiset_solver.
  - done.
  - destruct (HQ _ eq_refl) as (ri & Heq & ->). exists ri.
    destruct runners as [|r1 [|r2 rest]]; simpl in Heq; simplify_eq. split; [done|]. pose proof (provided_env w1 Hd1) as He.
    destruct Hd1 as [(_ & Hb & Hr) _]. split; [|done]. apply Hm. by apply gmultiset_elem_of_singleton.
Qed.

(** ** Reading the report *)

(** The counters of a state. *)
Definition shown_counts (r r' : StepReport) : Prop := ∀ t, counts_show r t → counts_show r' t.

(** The meters of a state, copied by the stage and added to an empty report; none
    when nothing was metered. *)
Definition shown_meters (m : Meters) : option Meters :=
  if decide (m = ∅) then None else Some (Meters_Add ∅ (Meters_Add ∅ m)).

(** The admission resources of the step and nothing else, with the limit, the spent
    and the remaining units of budget [b] for the names that are budgeted by it. *)
Definition resource_names : list string := r_Name <$> Admission (st_Policy s).
Definition shown_spend (x : budget) (m : gmap string snapshot) : Prop :=
  (∀ name, is_Some (m !! name) ↔ name ∈ resource_names) ∧
  ∀ name, name ∈ resource_names → B !! name = Some b → m !! name = Some (snapshot_of x).
Definition spend_shown (x : budget) (spend : option (gmap string snapshot)) : Prop :=
  match resource_names with [] => spend = None | _ => ∃ m, spend = Some m ∧ shown_spend x m end.

(** A report of a state of the runner and of budget [b]. *)
Definition shown_state (st : rstate dyn) (x : budget) (r : StepReport) : Prop :=
  shown_counts (counts st) r ∧ sr_Meters r = shown_meters (meters st) ∧ spend_shown x (Spend r).

Lemma shows_zero_add z n : shows z n → shows (0 +! z) n.
Proof. unfold shows. intros ->. by rewrite Z.add_0_l, wrap64_id by apply wrap64_range. Qed.

Lemma fold_map_singleton {V} (f : option V → option V → option V) name v v' :
  f None (Some v) = Some v' → f None None = None →
  fold_map f None (Some ({[ name := v ]} : gmap string V)) = Some {[ name := v' ]}.
Proof.
  intros Hf Hn. unfold fold_map. rewrite decide_False by apply map_non_empty_singleton. simpl. f_equal.
  apply map_eq. intros k. rewrite lookup_merge, lookup_empty. unfold diag_None.
  destruct (decide (k = name)) as [->|Hne]; [by rewrite !lookup_singleton_eq|by rewrite !lookup_singleton_ne].
Qed.

Lemma merge_counts r classes spend metered :
  classes = RetriesByClass r →
  shown_counts r (StepReport_merge zero_report
    (MkStepReport (Items r) (Hits r) (Misses r) (Stored r) (WorkCalls r) (StartedSequences r) (Retries r)
       (Quarantined r) (Skipped r) classes spend metered)).
Proof.
  intros -> t []. split; simpl; try by apply shows_zero_add.
  destruct (RetriesByClass r) as [m|]; [|done]. destruct cs_classes as [Hn ->].
  erewrite fold_map_singleton by done. split; [done|]. f_equal. simpl.
  by rewrite Z.add_0_l, wrap64_id by apply wrap64_range.
Qed.

Lemma merge_meters (m : Meters) :
  fold_map add_meter None (if decide (m = ∅) then None else Some (Meters_Add ∅ m)) = shown_meters m.
Proof.
  unfold shown_meters. destruct (decide (m = ∅)) as [|Hne]; [done|]. simpl. rewrite decide_False; [done|].
  intros Hem. apply Hne, map_eq. intros k. rewrite lookup_empty.
  apply (f_equal (.!! k)) in Hem. rewrite Meters_Add_lookup, lookup_empty in Hem. by destruct (m !! k).
Qed.

Lemma merge_spend x spend : spend_shown x spend → spend_shown x (fold_map overwrite None spend).
Proof.
  unfold spend_shown. destruct resource_names as [|n ns] eqn:Hns; [by intros ->|]. intros (m & -> & Hdom & Hval).
  exists m. split; [|done]. simpl. rewrite decide_False.
  - f_equal. apply map_eq. intros k. rewrite lookup_merge, lookup_empty. by destruct (m !! k).
  - intros ->. destruct (proj2 (Hdom n)) as [y Hy]; [rewrite Hns; by left|]. by rewrite lookup_empty in Hy.
Qed.

(** Reading the budgets one by one, while nobody charges [b]. *)
Definition budgeted (x : budget) (ew : envw U) : Prop :=
  lw_budgets (ew_limits ew) !! b = Some x ∧ ∃ env, ew_envs ew !! e = Some env ∧ B ⊆ budgets env.

Lemma owns_Budget_Snapshot x (ob : option nat) :
  owns (λ (ew : envw U) (_ : unit), budgeted x ew) (λ y _, ob = Some b → y = snapshot_of x) (zoom (Budget_Snapshot ob)) tt.
Proof.
  eapply owns_conseq.
  - apply (owns_zoom (λ l (_ : unit), lw_budgets l !! b = Some x) (λ (ew : envw U) (_ : unit), budgeted x ew) id
      (λ y _, ob = Some b → y = snapshot_of x)).
    + intros ew m o' [Hx He]. exists tt. split; [done|]. intros l m' Hl. by split.
    + destruct ob as [b'|]; [|by apply owns_ret]. apply owns_await. intros l [] l' y Hl Hin.
      destruct (lw_budgets l !! b') as [x'|] eqn:Hx'; [|by apply elem_of_nil in Hin].
      apply list_elem_of_singleton in Hin as [= -> ->]. exists tt. split; [|intros [= ->]; simplify_eq/=; congruence].
      change (lw_budgets (set_budget b' x' l) !! b = Some x). by rewrite (set_budget_id _ _ _ Hx').
  - by intros y [] ([] & _ & Hy).
Qed.

Lemma owns_snapshot_each x bs (acc : gmap string snapshot) :
  owns (λ (ew : envw U) (_ : unit), budgeted x ew)
    (λ m _, (∀ name, is_Some (m !! name) ↔ is_Some (acc !! name) ∨ name ∈ bs.*1) ∧
       ∀ name, acc !! name = Some (snapshot_of x) ∨ name ∈ bs.*1 →
         (∀ ob, (name, ob) ∈ bs → ob = Some b) → m !! name = Some (snapshot_of x))
    (snapshot_each bs acc) tt.
Proof.
  revert acc. induction bs as [|[n ob] bs IH]; intros acc.
  - apply owns_ret. split; [intros name; rewrite elem_of_nil; tauto|].
    by intros name [Hacc|Hin%elem_of_nil] _.
  - eapply owns_bind'; [apply owns_Budget_Snapshot|]. intros y [] Hy. eapply owns_conseq; [apply IH|].
    intros m [] [Hdom Hval]. split.
    + intros name. rewrite Hdom, lookup_insert_is_Some', fmap_cons, elem_of_cons. simpl. naive_solver.
    + intros name Hname Hob. apply Hval; [|intros ob' Hin; apply Hob; by right].
      destruct (decide (name = n)) as [->|Hne].
      * left. rewrite lookup_insert_eq. f_equal. apply Hy, Hob. by left.
      * rewrite lookup_insert_ne by done. destruct Hname as [Hname|[Heq|Hin]%elem_of_cons]; [by left|done|by right].
Qed.

Lemma owns_env_snapshot x :
  resource_names ≠ [] →
  owns (λ (ew : envw U) (_ : unit), budgeted x ew) (λ m _, shown_spend x m) (env_snapshot e resource_names) tt.
Proof.
  unfold shown_spend, env_snapshot. destruct resource_names as [|n0 ns]; [done|]. intros _.
  set (names := n0 :: ns). clearbody names. eapply owns_bind' with (λ bs _, B ⊆ bs).
  - apply owns_await. intros ew [] ew' bs [Hx (env & He & HB)] Hin. rewrite He in Hin.
    apply list_elem_of_singleton in Hin as [= -> ->]. exists tt. split; [|done].
    cbn [fst snd]. rewrite (envw_id _ _ _ He). split; [done|]. by exists env.
  - intros bs [] HB. eapply owns_conseq; [apply (owns_snapshot_each x)|]. intros m [] [Hdom Hval].
    assert (((λ name, (name, bs !! name)) <$> names).*1 = names) as Hfst
      by (rewrite <-list_fmap_compose; apply list_fmap_id).
    rewrite Hfst in *. split.
    + intros name. rewrite Hdom, lookup_empty. split; [intros [[]|]; done|by right].
    + intros name Hname Hb. apply Hval; [by right|]. intros ob (n & [= -> ->] & _)%list_elem_of_fmap.
      by eapply lookup_weaken.
Qed.

Lemma owns_report (P : W → Prop) ri st x :
  opt_env o = Some e → (∀ w, P w → wd_runners w !! ri = Some st) → (∀ w, P w → budgeted x (wd_env w)) →
  owns (λ w (_ : unit), P w) (λ rep _, ∃ r, rep = Some {[ st_Name s := r ]} ∧ shown_state st x r)
    (currentReport [PerItem (typed_stage Int63n dynamic_type (built ri))]) tt.
Proof.
  intros Henv HP Hbud.
  assert (∀ X (f : rstate dyn → X), owns (λ w (_ : unit), P w) (λ x _, x = f st)
    (with_runner (dyn := dyn) (U := U) (E := E) ri (λ s, [(s, f s)])) tt) as Hread.
  { intros X f. apply owns_await. intros w [] w' y Hw Hin. rewrite (HP w Hw) in Hin.
    apply list_elem_of_singleton in Hin as [= -> ->]. exists tt. split; [|done]. simpl.
    assert (set_runners (<[ri := st]> (wd_runners w)) w = w) as ->; [|done].
    rewrite list_insert_id by by apply HP. by destruct w. }
  assert (owns (λ w (_ : unit), P w) (λ spend _, spend_shown x spend) (read_spend o resource_names) tt) as Hspend.
  { apply (owns_still_post P (λ w, budgeted x (wd_env w))); [apply still_read_spend|exact Hbud|].
    pose proof (owns_env_snapshot x) as Hsnap. revert Hsnap. unfold spend_shown, read_spend.
    destruct resource_names as [|n ns]; intros Hsnap; [by apply owns_ret|]. rewrite Henv.
    eapply owns_bind' with (λ m _, shown_spend x m); [|intros m [] Hm; apply owns_ret; by exists m].
    eapply owns_conseq.
    - apply (owns_zoom (λ ew (_ : unit), budgeted x ew) (λ w (_ : unit), budgeted x (wd_env w)) id (λ m _, shown_spend x m));
        [|by apply Hsnap].
      intros w [] o' Hw. by exists tt.
    - by intros m [] ([] & _ & Hm). }
  unfold currentReport. cbn [merge_reports run_report typed_stage].
  eapply owns_bind' with (λ rep _, ∃ r, rep = Some {[ st_Name s := r ]} ∧ shown_state st x (StepReport_merge zero_report r)).
  - eapply owns_bind' with (λ r _, r.1 = st_Name s ∧ shown_state st x (StepReport_merge zero_report r.2)).
    + unfold report. eapply owns_bind'; [apply (Hread _ (λ s, (counts s, meters s)))|]. intros first [] ->.
      eapply owns_bind'; [exact Hspend|].
      intros spend [] Hsp. eapply owns_bind' with (λ classes _, classes = RetriesByClass (counts st)).
      { destruct (RetriesByClass (counts st)) eqn:Hc; [|by apply owns_ret]. rewrite <-Hc.
        apply (Hread _ (λ s, RetriesByClass (counts s))). }
      intros classes [] ->. apply owns_ret. split; [done|].
      split; [by apply merge_counts|split; [apply merge_meters|by apply merge_spend]].
    + intros [name r] [] [Hname Hr]. apply owns_ret. simpl in *. subst name. by exists r.
  - intros rep [] (r & -> & Hr). apply owns_ret. unfold Report_merge.
    erewrite fold_map_singleton by done. by exists (StepReport_merge zero_report r).
Qed.
(** ** The run *)

Context (Hwb : ∀ ri, well_behaved (built ri) e b x0 L B DoQ LoadQ PutQ) (Henv : opt_env o = Some e).
Context (Hres : ∀ name, name ∈ r_Name <$> Admission (st_Policy s) → is_Some (L !! name)).
Context (Env : W → W → Prop) (Hheeds : ∀ w w', Env w w' → heeds w w').
(** So do a reporter that is called periodically and the clock. *)
Context (Hreports : periodic o = true → reports_within heeds o).
Context (c : ctx) (items : list I).

Definition requests : list (ctx * nat * I) := imap (λ i x, ([], i, x)) items.

Lemma requests_lookup i q : requests !! i = Some q ↔ ∃ item, items !! i = Some item ∧ q = ([], i, item).
Proof. unfold requests. rewrite list_lookup_imap, fmap_Some. done. Qed.

Definition takes (k : nat) (x : erasedItem dyn) : Prop :=
  k = 0%nat → ∃ item, items !! ei_index x = Some item ∧ x = input_at (ei_index x) item.
Definition makes ri (k : nat) (x : erasedItem dyn) (r : res (erasedItem dyn)) (m : M) : Prop :=
  k = 0%nat ∧ ∀ item it, x = input_at (ei_index x) item → r = Ok it →
    resolved (built ri) b L DoQ LoadQ PutQ 1 (ei_index x) item (Ok it) m.

Lemma built_attempts ri : 1 ≤ attempts (built ri).
Proof. simpl. unfold effective_attempts. destruct (Z.ltb_spec (Attempts (Retry (st_Policy s))) 1); lia. Qed.

Lemma owns_typed_body ri inner x :
  is_Some (Do s) → takes 0 x →
  owns (Inv (built ri) e b x0 L B DoQ LoadQ PutQ) (makes ri 0 x) (typed_body Int63n dynamic_type (built ri) inner x) azero.
Proof.
  intros HDo Hx. destruct (Hx eq_refl) as (item & Hi & Heq). set (i := ei_index x) in *. clearbody i. subst x.
  unfold typed_body. simpl. destruct (unbox (box item)) as [typed|] eqn:Hu; [|by apply owns_ret].
  assert (∀ item', box item' = box item → typed = item') as Htyped.
  { intros item' Hb. rewrite <-Hb in Hu. destruct (box item') as [d|] eqn:Hd; [|by rewrite unbox_nil in Hu].
    apply unbox_box in Hd. congruence. }
  pose proof (Htyped item eq_refl) as ->.
  eapply owns_conseq; [apply owns_process; try done|].
  - apply built_attempts.
  - intros r m Hr. split; [done|]. intros item' it [= Heq] ->. by rewrite <-(Htyped item' (eq_sym Heq)).
Qed.

Lemma step_stages_ok Env' ri inner_total :
  is_Some (Do s) → (∀ w w', Env' w w' → heeds w w') →
  stages_ok ei_index Env'
    (pipeline_stage o inner_total <$> zip [stageOfStep Int63n dynamic_type s] [typed_stage Int63n dynamic_type (built ri)])
    (input_items items) (Inv (built ri) e b x0 L B DoQ LoadQ PutQ) takes (makes ri).
Proof.
  intros HDo HEnv'. destruct (input_items_index items) as [Hlen Hidx]. split.
  - intros x (i & item & Hi & ->)%input_items_elem. rewrite Hlen. split; [|simpl; by eapply lookup_lt_Some].
    intros _. by exists item.
  - rewrite Hidx. apply NoDup_seq.
  - intros k x y m Hx [-> HQ]. destruct (Hx eq_refl) as (item & Hi & Heq). split; [intros [=]|].
    by destruct (resolved_item_outcome _ _ _ _ _ _ _ _ _ _ (HQ item y Heq eq_refl)) as (item' & value & st & quar & skip & (Hix & _) & _).
  - intros [|k] sg inner x Hsg _ Hx; [|done]. injection Hsg as <-. by apply owns_typed_body.
  - intros [|k] sg gctx Hsg; [|done]. injection Hsg as <-. simpl.
    split; apply (quiet_emit (built ri) e b x0 L B DoQ LoadQ PutQ (Hwb ri)).
  - intros w w' m Hw He. by eapply heeds_Inv; [|apply HEnv'].
  - intros f w m Hw. exact Hw.
  - intros sg ->%list_elem_of_singleton. simpl. unfold effective_workers.
    destruct (Z.ltb_spec (Workers (st_Policy s)) 1); lia.
  - intros [|k] sg Hsg [run Hrun]; [|done]. by injection Hsg as <-.
  - intros [|k] sg run inner its u u' out Hsg Hrun; [|done]. by injection Hsg as <-.
Qed.

Lemma built_do w w1 runners :
  runs Env (build_runners o [stageOfStep Int63n dynamic_type s]) w w1 (Ok (PerItem <$> runners)) → is_Some (Do s).
Proof.
  intros Hr%runs_can_return%build_each. apply Forall2_cons_inv_l in Hr as (tr & _ & Hr & _).
  apply can_return_rbind in Hr as [(r & Hnew & _)|(err & _ & [=])].
  unfold newTypedRunner in Hnew. case_decide; [done|]. by destruct (Do s).
Qed.

#[local] Instance heeds_refl : Reflexive heeds.
Proof. intros w. split; [split; [done|]; split; [|by split]|]; intros env He; by exists env. Qed.

(** A run that is watched keeps out of its own way. *)
Lemma run_heeds runContext total ri u u' :
  run_env Env o runContext (stage_pubs o runContext total [PerItem (typed_stage Int63n dynamic_type (built ri))]) None u u' →
  heeds u u'.
Proof.
  apply run_env_within; [done|]. intros Hp p Hpub.
  apply (stage_pubs_items _ _ _ [typed_stage Int63n dynamic_type (built ri)]) in Hpub as ->.
  apply (within_publication heeds); [|by apply Hreports|].
  - intros os w. split; [split; [done|]; split; [|by split]|]; intros env He; by exists env.
  - apply (still_within heeds), still_currentReport. constructor; [|done]. apply still_bind; [apply still_report|done].
Qed.

(** The result of an item never panics. *)
Lemma outcome_result ri i item it :
  item_outcome (built ri) DoQ LoadQ PutQ i item it → is_Some (result_of (O := O) it).
Proof.
  intros (item' & value & st & quar & skip & (_ & Hv & _) & Hset & _). unfold result_of.
  destruct (ei_quarantined it), (ei_skipped it), (ei_value it) as [d|] eqn:Hd; eauto.
  assert (∃ v : O, value = box v) as [v Hbox].
  { destruct Hset as [(key & v & _ & _ & -> & _)|(outs & _ & _ & (before & last & _ & _ & Hlast) & _)]; [by exists v|].
    destruct last as [v [err|]]; destruct Hlast as [Hval _]; [congruence|by exists v]. }
  rewrite (unbox_box v d); [eauto|congruence].
Qed.

(** C2: The contract of a plain step, over everything [Run] puts together for it.  If
    the stage returns results and its context was not canceled at a barrier
    ([calm_stages]), then for every item, at its position, there is what the step's
    policy makes of it (see [process_resolves]), a result that says it was stored
    being a value that the store's Put accepted under the key of the item, and it can
    be handed to the caller; the stage's state accounts for every counter, every key
    and every charge of the budget (see [process_counts]); and the report that is
    returned is the report of that very state: its counters, its meters (all of them
    finite), and for every admission resource, and nothing else, what the budget has
    spent and what remains of it. *)
Theorem step_exact w w' its report :
  provided w → calm_stages Env c items [stageOfStep Int63n dynamic_type s] o w →
  runStages_returns Env c [stageOfStep Int63n dynamic_type s] (input_items items) o w w' (Ok its, report) →
  length its = length items ∧
  ∃ ri r st x, (∀ i item, items !! i = Some item →
      ∃ it, its !! i = Some it ∧ item_outcome (built ri) DoQ LoadQ PutQ i item it ∧ is_Some (result_of (O := O) it)) ∧
    stage_counted (built ri) b x0 L w' requests (Ok <$> its) ∧
    report = Some {[ st_Name s := r ]} ∧ wd_runners w' !! ri = Some st ∧ meters_finite (meters st) ∧
    lw_budgets (ew_limits (wd_env w')) !! b = Some x ∧ shown_state st x r.
Proof.
  intros Hd Hcalm Hret.
  destruct (runStages_items Env c items [stageOfStep Int63n dynamic_type s] o w w' its report ltac:(constructor; [apply stageOfStep_per_item|done]) Hcalm Hret)
    as (runContext & w1 & w2 & w3 & w4 & runners & Hbuild & Hstart & Hcalm' & Hpipe & Hstop & Hreport).
  pose proof (built_do _ _ _ Hbuild) as HDo.
  destruct (build_one Env w w1 runners Hheeds Hd Hbuild) as (ri & -> & Hbegins). cbn [fmap list_fmap] in *.
  set (P := λ u m, Inv (built ri) e b x0 L B DoQ LoadQ PutQ u m).
  assert (∀ u u', run_env Env o runContext (stage_pubs o runContext (Z.of_nat (length (input_items items))) [PerItem (typed_stage Int63n dynamic_type (built ri))])
      None u u' → heeds u u') as Henv' by (intros u u'; by apply run_heeds).
  pose proof (step_stages_ok _ ri (Z.of_nat (length (input_items items))) HDo Henv') as Hok.
  destruct (input_items_index items) as [Hlen _].
  assert (∀ u u' (m : M), P u m → Env u u' → P u' m) as Hkeep by (intros; eapply heeds_Inv; eauto).
  assert (∀ f u (m : M), P u m → P (map_ctxs f u) m) as Hctxs by done.
  pose proof Hbegins as (_ & _ & _ & Hrange).
  pose proof (Inv_begins (built ri) e b x0 L B DoQ LoadQ PutQ (Hwb ri) Henv Hres (built_attempts ri) Env Hkeep HDo w1 Hbegins) as Hw1.
  pose proof (start_keeps (λ u, P u azero) o c w1 runContext w2 (λ f u, Hctxs f u azero) Hw1 Hstart) as Hw2.
  destruct (pipeline_results ei_index zero_item _ _ runContext (input_items items) w2 _ takes (makes ri) w3 its Hok
              Hw2 Hcalm' Hpipe) as [Hl (ms & Hw3 & Hlm & Hall)].
  pose proof (stop_keeps (λ u, P u (total ms)) Env o runContext _ w3 w4 (λ u u' Hu Hw, heeds_Inv _ u u' (total ms) Hw (Henv' u u' Hu))
    (λ f u, Hctxs f u (total ms)) Hw3 Hstop) as Hw4.
  assert (∀ i item, items !! i = Some item →
    ∃ it (m : M), its !! i = Some it ∧ ms !! i = Some m ∧ resolved (built ri) b L DoQ LoadQ PutQ 1 i item (Ok it) m) as Hitems.
  { intros i item Hi. destruct (Hall i (input_at i item)) as (m & y & Hm & Hy & z & m1 & m2 & [_ HQ] & [-> ->] & ->);
      [by rewrite input_items_lookup, Hi|].
    exists z, (m1 ⊹ azero). split_and!; [done|done|]. rewrite aplus_zero_r. by apply HQ. }
  rewrite Hlen in Hl, Hlm. split; [done|].
  pose proof Hw4 as [(st & Hst & _ & Hfin & _) [(_ & _ & x & Hx & _) _]].
  set (done_in := λ u, wd_runners u !! ri = Some st ∧ lw_budgets (ew_limits (wd_env u)) !! b = Some x ∧ P u (total ms)).
  destruct (runs_owns Env (λ u (_ : unit), done_in u) (λ rep _, ∃ r, rep = Some {[ st_Name s := r ]} ∧ shown_state st x r)
              (currentReport [PerItem (typed_stage Int63n dynamic_type (built ri))]) tt w4 w' report)
    as ([] & (Hst' & Hx' & Hinv) & (r & -> & Hr)).
  { intros u u' _ (Hu & Hxu & Hi) He. pose proof (Hheeds _ _ He) as [(Hkept & _ & [Hpre _]) _].
    split_and!; [by apply Hkept|by eapply prefix_lookup_Some|by eapply Hkeep]. }
  { apply owns_report; [done|by intros u []|].
    intros u (_ & Hxu & [_ [_ (env & He & _ & HB)]]). split; [done|by exists env]. }
  { done. }
  { done. }
  exists ri, r, st, x. split_and!; [| |done..].
  - intros i item Hi. destruct (Hitems i item Hi) as (it & m & Hit & _ & Hm%resolved_item_outcome).
    exists it. split_and!; [done|done|by eapply outcome_result].
  - apply (resolved_counts (built ri) e b x0 L B DoQ LoadQ PutQ (Hwb ri) Henv Hres (built_attempts ri) Env Hkeep HDo w' _ _ ms);
      [done|..].
    + unfold requests. by rewrite length_imap.
    + unfold requests. by rewrite length_imap, length_fmap.
    + intros i q r0 m Hq Hr0 Hm. apply requests_lookup in Hq as (item & Hi & ->).
      destruct (Hitems i item Hi) as (it & m' & Hit & Hm' & HR). rewrite list_lookup_fmap, Hit in Hr0. by simplify_eq/=.
Qed.
End exact.

(** ** A concrete run *)

Section example.
#[local] Existing Instances string_boxed string_codec.
Notation W := (world string unit memw).

Definition questions : list string := ["why"; "why"; "how"].
Definition base_world : W := World shared_world [] [] 0 0 no_entries.
Definition no_draws : nat → Z → Z := λ _ _, 0.
Definition text_type : option string → string := λ x, match x with Some _ => "string" | None => "<nil>" end.
Definition caller : ctx := [0%nat].
Definition answer_stages := [stageOfStep no_draws text_type answer_step].

(** The stage's runner is built first, after [n] others. *)
Definition with_runners (n : nat) : W := set_runners (replicate n new_rstate) base_world.
Definition answer_runners (n : nat) := [typed_stage no_draws text_type (built answer_step answer_options n)].
Definition answer_pipeline (n : nat) := pipeline_stage answer_options 3 <$> zip answer_stages (answer_runners n).
Definition answer_moves : list choice :=
  Collect :: (At 0 <$> [StageStep; Receive 0; Receive 1; Work 0; Work 1; Send 0; Send 1;
    Drain 0; Drain 1; EndWorker 0; EndWorker 1; Wait; EndStage]) ++ [FeedAll; EndFeeder; EndCollect].
Definition answer_ctx : ctx := (WithCancel caller (ctxs_of base_world)).2.
Definition answer_end (n : nat) :=
  play ei_index (answer_pipeline n) answer_ctx 120 answer_moves
    (pipe_start (answer_pipeline n) answer_ctx zero_item (input_items questions)
       (map_ctxs (λ _, (WithCancel caller (ctxs_of base_world)).1) (with_runners (S n)))).
Definition answers : list (erasedItem string) :=
  (λ '(i, q), ErasedItem i (Some q) (MkOutcome (digest_of q) CacheStored) None false) <$>
  [(0%nat, "why"); (1%nat, "why"); (2%nat, "how")].

Lemma answer_pipe n :
  n = 0%nat ∨ n = 1%nat →
  pipeline_returns ei_index zero_item nobody_else (answer_pipeline n) caller (input_items questions)
    (with_runners (S n)) (p_world (answer_end n)) (Ok answers).
Proof.
  intros Hn. assert (pipe_result (answer_end n) = Ok answers) as <- by (destruct Hn as [-> | ->]; vm_compute; reflexivity).
  eapply (pipe_runs _ _ _ _ _ _ _ _ answer_ctx (answer_end n)); [reflexivity|apply play_steps|].
  destruct Hn as [-> | ->]; vm_compute; (split; [done|]; split; [|done]; repeat constructor).
Qed.

Definition answer_counts : StepReport :=
  MkStepReport 3 0 3 2 2 2 0 0 0 None (Some {["judge" := Budget.Snapshot 10 2 8]}) None.

Lemma answer_stages_run n :
  n = 0%nat ∨ n = 1%nat →
  ∃ w', runStages_returns nobody_else caller answer_stages (input_items questions) answer_options (with_runners n) w'
    (Ok answers, Some {["judge" := answer_counts]}).
Proof.
  intros Hn. eexists. eapply (stages_ran_quietly _ _ _ _ _ _ (with_runners (S n)) (p_world (answer_end n)) _ (answer_runners n)).
  - done.
  - eapply (replay_pool_steps _ [0%nat]). destruct Hn as [-> | ->]; reflexivity.
  - by apply answer_pipe.
  - apply (replay_runs _ 3). destruct Hn as [-> | ->]; vm_compute; reflexivity.
Qed.

Lemma answer_resources_declared name :
  name ∈ r_Name <$> Admission (st_Policy answer_step) → is_Some (limiters after !! name).
Proof. apply (answer_resources name). Qed.

Lemma answer_no_barrier : no_barrier answer_stages.
Proof.
  constructor; [|done]. intros o runner Hr.
  apply can_return_rbind in Hr as [(tr & (ri & _ & [= <-])%can_return_bind & [= <-])|(e & _ & [=])]. done.
Qed.


Definition final_results : list (Result string) :=
  (λ q, MkResult q (MkOutcome (digest_of q) CacheStored) None false) <$> questions.

Lemma answer_run :
  ∃ w', Run_returns no_draws text_type nobody_else caller (Plain _ _ answer_step) questions answer_options base_world w'
    (Ok final_results, Some {["judge" := answer_counts]}).
Proof.
  destruct (answer_stages_run 1 (or_intror eq_refl)) as [w' Hrun]. exists w'.
  eapply (run_ended _ _ _ _ _ _ _ _ (with_runners 1) w' w' answer_options false (Ok answers)); [reflexivity| | exact Hrun | |].
  - eapply (replay_pool_steps _ [0%nat; 0%nat]). reflexivity.
  - vm_compute. reflexivity.
  - apply rtc_refl.
Qed.

End example.
