(* ===== verification/ObserveRun.v ===== *)
(** * A watched run

    The run of RunExact.v with a reporter that is called periodically, and a reporter
    that fails at its second call. *)

From S2P Require Import Prelude GoError GoStrings Float64 Classify Policy Digest Json.
From S2P Require Import Go Limits Budget Chain ErrGroup ResourcePlan RunEnv Cache Report Step Observe Runner RunnerProofs.
From S2P Require Import Pipeline PipelineProofs Flow FlowProofs RunExact.

(** ** A plain step under observation *)

Section watched.
#[local] Existing Instances string_boxed string_codec.
Notation W := (world string unit memw).

Definition watched_options : Options string unit memw :=
  MkOptions (Some memory_store) None (Some (λ _ _, mret (Ok tt))) 1 None None ∅ (Some 0%nat) (Some 0%nat).
Definition watched_world : W := with_runners 1.
Definition own_ctx : ctx := (WithCancel caller (ctxs_of watched_world)).2.
Definition observed_world : W := map_ctxs (λ _, (WithCancel caller (ctxs_of watched_world)).1) watched_world.
Definition watched_runners := [typed_stage no_draws text_type (built answer_step watched_options 0)].
Definition watched_pipeline := pipeline_stage watched_options 3 <$> zip answer_stages watched_runners.
Definition group_ctx : ctx := (WithCancel own_ctx (ctxs_of observed_world)).2.
Definition watched_end :=
  play ei_index watched_pipeline group_ctx 120 answer_moves
    (pipe_start watched_pipeline group_ctx zero_item (input_items questions)
       (map_ctxs (λ _, (WithCancel own_ctx (ctxs_of observed_world)).1) observed_world)).
Definition stopped_world : W := cancel_run own_ctx (p_world watched_end).

Lemma watched_pipe Env :
  pipeline_returns ei_index zero_item Env watched_pipeline own_ctx (input_items questions) observed_world
    (p_world watched_end) (Ok answers).
Proof.
  assert (pipe_result watched_end = Ok answers) as <- by (vm_compute; reflexivity).
  eapply (pipe_runs _ _ _ _ _ _ _ _ group_ctx watched_end); [reflexivity|apply play_steps|].
  vm_compute. split; [done|]. split; [|done]. repeat constructor.
Qed.

Lemma watched_stages_run :
  ∃ w', runStages_returns nobody_else caller answer_stages (input_items questions) watched_options base_world w'
    (Ok answers, Some {["judge" := answer_counts]}).
Proof.
  eexists. eapply (items_ran _ _ _ _ _ _ own_ctx watched_world observed_world (p_world watched_end) stopped_world _ watched_runners (Ok answers) None).
  - eapply (replay_pool_steps _ [0%nat]). reflexivity.
  - by apply reporter_started.
  - apply watched_pipe.
  - by apply reporter_stopped; [|apply rtc_refl|].
  - apply (replay_runs _ 3). vm_compute. reflexivity.
Qed.

Lemma watched_well_behaved ri :
  well_behaved (built answer_step watched_options ri) 0 0 (Budget 10 10) (limiters after) (budgets after) (λ item out, out = (item, None)) (λ _ _, True) accepted.
Proof.
  split; try done.
  - intros do c item [= <-]. by apply owns_ret.
  - intros store c key [= <-]. eapply owns_conseq; [apply quiet_user|]. done.
  - intros store c key item v [= <-] _ _. by apply quiet_put.
Qed.

Lemma step_exact_witness :
  ∃ w' ri st x,
    runStages_returns nobody_else caller answer_stages (input_items questions) watched_options base_world w'
      (Ok answers, Some {["judge" := answer_counts]}) ∧
    item_outcome (built answer_step watched_options ri) (λ item out, out = (item, None)) (λ _ _, True) accepted 1 "why"
      (ErasedItem 1 (Some "why") (MkOutcome (digest_of "why") CacheStored) None false) ∧
    wd_runners w' !! ri = Some st ∧ shown_counts (counts st) answer_counts ∧
    lw_budgets (ew_limits (wd_env w')) !! 0%nat = Some x ∧ snapshot_of x = Budget.Snapshot 10 2 8.
Proof.
  destruct watched_stages_run as [w' Hrun].
  destruct (step_exact no_draws text_type answer_step watched_options 0 0 (Budget 10 10) (limiters after) (budgets after)
              (λ item out, out = (item, None)) (λ _ _, True) accepted watched_well_behaved eq_refl
              answer_resources_declared nobody_else ltac:(intros u u' [])
              (λ _, Build_reports_within _ _ _ _ watched_options ltac:(by intros reporter c snapshot [= <-]) ltac:(done))
              caller questions base_world w' answers (Some {["judge" := answer_counts]}))
    as (_ & ri & r & st & x & Hitems & _ & Hrep & Hst & _ & Hx & Hr & _ & Hspend).
  - split; [|by exists after]. split; [by exists after|]. split; [reflexivity|]. unfold max64; simpl; lia.
  - apply no_barrier_calm_stages, answer_no_barrier.
  - exact Hrun.
  - destruct (Hitems 1%nat "why" eq_refl) as (it & Hit & Hout & _). injection Hit as <-.
    apply Some_inj in Hrep. apply (f_equal (.!! "judge")) in Hrep.
    rewrite !lookup_singleton_eq in Hrep. injection Hrep as <-.
    destruct Hspend as (m & [= <-] & _ & Hval).
    specialize (Hval "judge" ltac:(by left) ltac:(vm_compute; reflexivity)).
    rewrite lookup_singleton_eq in Hval. apply Some_inj in Hval.
    exists w', ri, st, x. by split_and!.
Defined.
End watched.

(** ** An engine that succeeds in vain *)

Section refused.
#[local] Existing Instances string_boxed string_codec.
Notation W := (world string unit memw).

(** It answers nothing at once. *)
Definition idle_engine : engine (dyn := string) (U := unit) (E := memw) string string :=
  MkEngine [] [] None (λ Env c s items o w w' out, w' = w ∧ out = (Ok [], None)).
Definition heeded_options : Options string unit memw :=
  MkOptions None (Some (heeding (λ _ _, mret (Ok tt)))) (Some (λ _ _, mret (Ok tt))) 1 None None ∅ (Some 0%nat) (Some 0%nat).
Definition idle_world : W := map_ctxs (λ _, (WithCancel caller (ctxs_of base_world)).1) base_world.
Definition idle_ctx : ctx := (WithCancel caller (ctxs_of base_world)).2.
Definition idle_event (t : EventType) : prog W (res unit) := emitLedger idle_ctx heeded_options (core_event "judge" t 0).
Definition idle_stopped : W := cancel_run idle_ctx idle_world.
Definition refused_with : error := Errorf "ledger event: %w" [ArgWrap (Sentinel Canceled)].

Lemma idle_refused :
  override_returns nobody_else caller answer_step idle_engine [] heeded_options base_world idle_stopped (Err refused_with, None).
Proof.
  eapply (override_ended _ _ _ _ _ _ _ idle_ctx idle_world idle_world idle_world idle_stopped _ [] None (Err refused_with)).
  - by apply reporter_started.
  - assert (world_after 2 (idle_event EventStepStarted) idle_world = idle_world) as Hw by (vm_compute; reflexivity).
    rewrite <-Hw at 2. apply replay_runs. vm_compute. reflexivity.
  - by split.
  - by apply reporter_stopped; [|apply rtc_refl|].
  - assert (world_after 2 (idle_event EventStepCompleted) idle_stopped = idle_stopped) as Hw by (vm_compute; reflexivity).
    rewrite <-Hw at 2. apply replay_runs. vm_compute. reflexivity.
Qed.

Lemma engine_completion_refused_witness :
  ∃ r : res (list (Result string)),
    override_returns nobody_else caller answer_step idle_engine [] heeded_options base_world idle_stopped (r, None) ∧ ∃ e, r = Err e.
Proof.
  eexists. split; [exact idle_refused|].
  exact (engine_completion_refused nobody_else caller answer_step idle_engine [] heeded_options (λ _ _, mret (Ok tt)) base_world idle_stopped
    _ None ltac:(intros u u' c' []) eq_refl eq_refl eq_refl idle_refused).
Defined.
End refused.

(** ** A reporter that fails at its second call *)

Section failing.
Notation W := (world unit unit nat).

(** It counts its calls. *)
Definition second_fails (c : ctx) (snapshot : Snapshot) : prog W (res unit) :=
  zoom (atomic (λ n : nat, (S n, if decide (n = 1)%nat then Err (New "no more") else Ok tt))).
Definition failing_options : Options unit unit nat :=
  MkOptions None None (Some second_fails) 1 None None ∅ None (Some 0%nat).
Definition fresh_world : W := World (EnvW (Limits (Ctxs ∅ 1) [] [] [] tt) []) [] [ObservationState 1 0] 0 0 0%nat.
Definition report_once : prog W (res unit) := publication failing_options [0%nat] 2 (mret None).
Definition one_report (p : prog W (res unit)) : Prop := p = report_once.
Definition no_more : error := Errorf "progress reporter: %w" [ArgWrap (New "no more")].
Definition nobody_moves : W → W → Prop := λ _ _, False.
Notation steps := (rtc (rp_step nobody_moves [0%nat] one_report)).

Definition reported (n : nat) : W := World (EnvW (Limits (Ctxs ∅ 1) [] [] [] tt) []) [] [ObservationState (Z.of_nat n + 1) 0] 0 0 n.
Definition stopped_at (w : W) : rp := Rp w true None Over (Stopped (Some no_more)).

Lemma report_once_outcomes n :
  (n < 2)%nat → (reported (S n), if decide (n = 1)%nat then Err no_more else Ok tt) ∈ outcomes report_once (reported n).
Proof. intros Hn. destruct n as [|[|]]; [vm_compute; by left..|lia]. Qed.

(** Two ticks, the second report fails; the reporter cancels the run, which then stops it. *)
Lemma failing_run : steps (rp_start fresh_world) (stopped_at (cancel_run [0%nat] (cancel_run [0%nat] (reported 2)))).
Proof.
  eapply rtc_l; [by apply ticks|]. etrans; [apply performs, (report_once_outcomes 0); lia|].
  eapply rtc_l; [apply goroutine_moves, published|].
  eapply rtc_l; [by apply ticks|]. etrans; [apply performs, (report_once_outcomes 1); lia|].
  eapply rtc_l; [apply goroutine_moves, publication_failed|].
  eapply rtc_l; [apply goroutine_moves, sends|].
  eapply rtc_l; [apply goroutine_moves, cancels|].
  eapply rtc_l; [apply stopper_moves, closes|].
  eapply rtc_l; [apply stopper_moves, receives|].
  apply rtc_once, stopper_moves, releases.
Qed.

Lemma reporter_joined_witness :
  ∃ x, steps (rp_start fresh_world) x ∧ wd_user (rp_world x) = 2%nat ∧
    failure one_report no_more ∧ is_Some (world_ctx_err [0%nat] (rp_world x)) ∧
    ∀ y, steps x y → rp_goroutine y = Over ∨ is_Some (Some no_more) ∧ rp_goroutine y = Canceling.
Proof.
  eexists. split; [exact failing_run|].
  destruct (reporter_joined nobody_moves [0%nat] one_report fresh_world _ (Some no_more) failing_run eq_refl) as (_ & Hf & Hend).
  split; [reflexivity|]. split; [by apply Hf|]. split; [by eexists|]. intros y Hy. by apply Hend.
Defined.

Lemma stop_returns_witness :
  ∃ x, steps (rp_start fresh_world) x ∧ rp_stopper x = NotCalled ∧ Acc (flip (own_step [0%nat])) x ∧
    ∀ y, rtc (own_step [0%nat]) x y → (∀ z, ¬ own_step [0%nat] y z) →
      blocked y ∨ ∃ e, rp_stopper y = Stopped e ∧ rp_goroutine y = Over.
Proof.
  assert (steps (rp_start fresh_world) (Rp fresh_world false None (Publishing report_once) NotCalled)) as Hx by (by apply rtc_once, ticks).
  eexists. split; [exact Hx|]. split; [reflexivity|]. exact (stop_returns nobody_moves [0%nat] one_report fresh_world _ Hx).
Defined.
End failing.
