(* ===== verification/Typed.v ===== *)
(** * Type safety of pipelines

    Between the stages of a pipeline items are type-erased: a value is an [any], each
    worker asserts the type its step expects, and [Run] asserts the type of the
    results.  [Pipe2], [Pipe3] and [Pipe4] are typed, and so is every run of what they
    build: the calls that duplicates of a key share hold values of the step's type,
    every stage hands on values of the type the next one asserts, and [Run] never
    panics.  The exception are types of the interface kind, whose nil value is no value
    of any type ([nil_refused]). *)

From S2P Require Import Prelude GoError GoStrings Float64 Classify Policy Digest Json.
From S2P Require Import Go Limits Budget Chain ErrGroup ResourcePlan RunEnv Cache Report Step Observe Runner RunnerProofs.
From S2P Require Import Pipeline PipelineProofs Flow FlowProofs RunExact.

Section values.
Context {dyn : Type}.
Implicit Types (x : option dyn) (item : erasedItem dyn) (ok : option dyn → Prop).

(** The values of type [V] in an [any]. *)
Definition of_type (V : Type) `{!Boxed dyn V} x : Prop := ∃ v : V, x = box v.
(** A type whose values are never the nil [any]. *)
Definition concrete (V : Type) `{!Boxed dyn V} : Prop := ∀ v : V, is_Some (box v).

Definition carries ok item : Prop := flagged item = true ∨ ok (ei_value item).

Lemma concrete_unbox (V : Type) `{!Boxed dyn V} x : concrete V → of_type V x → is_Some (unbox (V := V) x).
Proof. intros Hc (v & ->). destruct (Hc v) as [d Hd]. rewrite Hd. exists v. by apply unbox_box. Qed.

(** The result of an item that carries a value of the result's type. *)
Lemma carries_result (O : Type) `{!Boxed dyn O} item : carries (of_type O) item → is_Some (result_of (O := O) item).
Proof.
  unfold carries, flagged, result_of. destruct (ei_quarantined item); [eauto|]. intros [->|(v & Hv)]; [eauto|].
  destruct (ei_skipped item); [eauto|]. destruct (ei_value item) as [d|] eqn:Hd; [|eauto].
  symmetry in Hv. apply unbox_box in Hv. rewrite Hv. eauto.
Qed.
End values.

(** ** The calls of a stage hold values of its type *)

Section world.
Context {dyn U E : Type}.
Notation W := (world dyn U E).
Notation any := (option dyn).
Context (T : gmap nat (any → Prop)).

Definition call_typed (ok : any → Prop) (call : inflightCall dyn) : Prop :=
  ic_err call = None → is_Some (ic_quarantined call) ∨ ic_skipped call = true ∨ ok (ic_value call).

(** Every runner listed in [T] exists, and its published calls have the type listed. *)
Definition typed_world (w : W) : Prop :=
  ∀ ri ok, T !! ri = Some ok → ∃ st, wd_runners w !! ri = Some st ∧
    ∀ id call, calls st !! id = Some (Some call) → call_typed ok call.

(** Runners are made by runs only, and each is left to the run that made it. *)
Definition same_runners (w w' : W) : Prop := ∀ ri st, wd_runners w !! ri = Some st → wd_runners w' !! ri = Some st.
Notation untouched p := (guarantees same_runners (λ _, True) p).

Lemma same_runners_typed w w' : same_runners w w' → typed_world w → typed_world w'.
Proof. intros Hs Hw ri ok Hok. destruct (Hw ri ok Hok) as (st & Hst & Hcalls). exists st. split; [by apply Hs|done]. Qed.

Notation keeps Q p := (owns (λ w (_ : unit), typed_world w) (λ r _, Q r) p tt).

Lemma untouched_keeps {A} (p : prog W A) : untouched p → keeps (λ _, True) p.
Proof.
  induction p as [a|X act k IH]; [done|]. intros Hp w [] Hw w' x Hin. destruct (Hp w w' x Hin) as [Hs Hk].
  exists tt. split; [by eapply same_runners_typed|by apply IH].
Qed.

Lemma untouched_env {A} (p : prog (envw U) A) : untouched (zoom (W := W) p).
Proof. apply (guarantees_zoom (λ _ _, True)). { by intros w s _ ri st. } by apply (guarantees_any (λ _, True)). Qed.

Lemma untouched_read {X} (f : W → X) : untouched (read f).
Proof. apply guarantees_atomic. intros w. split; [by intros ri st|done]. Qed.

Lemma keeps_bind {A B} (P : A → Prop) (Q : B → Prop) (p : prog W A) (f : A → prog W B) :
  keeps P p → (∀ a, P a → keeps Q (f a)) → keeps Q (p ≫= f).
Proof. intros Hp Hf. eapply owns_bind'; [exact Hp|]. intros a [] Ha. by apply Hf. Qed.

Lemma keeps_rbind {A B} (P : A → Prop) (Q : res B → Prop) (p : prog W (res A)) (f : A → prog W (res B)) :
  (∀ e, Q (Err e)) → keeps (λ r, ∀ a, r = Ok a → P a) p → (∀ a, P a → keeps Q (f a)) → keeps Q (rbind f p).
Proof.
  intros HE Hp Hf. eapply owns_rbind; [exact Hp| |by intros]. intros a [] Ha. by apply Hf, Ha.
Qed.

Lemma keeps_weaken {A} (P Q : A → Prop) (p : prog W A) : keeps P p → (∀ a, P a → Q a) → keeps Q p.
Proof. intros Hp HQ. eapply owns_conseq; [exact Hp|]. intros a [] Ha. by apply HQ. Qed.

Lemma keeps_faulty {A} (f : error → error) (p : prog W (res A)) : keeps (λ _, True) p → keeps (λ _, True) (faulty f p).
Proof. intros Hp. eapply keeps_bind; [exact Hp|]. by intros a _. Qed.

(** A section under the mutex of a runner that keeps its calls typed. *)
Lemma keeps_section {X} (ri : nat) (f : rstate dyn → list (rstate dyn * X)) :
  (∀ ok s s' x, T !! ri = Some ok → (∀ id call, calls s !! id = Some (Some call) → call_typed ok call) → (s', x) ∈ f s →
     ∀ id call, calls s' !! id = Some (Some call) → call_typed ok call) →
  keeps (λ _, True) (with_runner (U := U) (E := E) ri f).
Proof.
  intros Hf. apply owns_await. intros w [] w' x Hw Hin. destruct (wd_runners w !! ri) as [s|] eqn:Hs; [|by apply elem_of_nil in Hin].
  apply list_elem_of_fmap in Hin as ([s' y] & [= -> ->] & Hin). exists tt. split; [|done].
  intros rj ok Hok. destruct (Hw rj ok Hok) as (st & Hst & Hcalls). simpl. destruct (decide (rj = ri)) as [->|Hne].
  - exists s'. split; [apply list_lookup_insert_eq; by eapply lookup_lt_Some|]. rewrite Hst in Hs. injection Hs as <-. by eapply Hf.
  - exists st. split; [by rewrite list_lookup_insert_ne|done].
Qed.

Lemma keeps_with_runner {X} (ri : nat) (f : rstate dyn → list (rstate dyn * X)) :
  (∀ s s' x, (s', x) ∈ f s → calls s' = calls s) → keeps (λ _, True) (with_runner (U := U) (E := E) ri f).
Proof. intros Hf. apply keeps_section. intros ok s s' x _ Hs Hin. by rewrite (Hf s s' x Hin). Qed.
End world.

(** ** One stage *)

Section stage.
Context {dyn U E I O : Type} `{!Boxed dyn I, !Boxed dyn O, !Codec O} (Int63n : nat → Z → Z) (dynamic_type : option dyn → string).
Notation W := (world dyn U E).
Notation untouched p := (guarantees same_runners (λ _, True) p).

(** The caller's functions leave the runners alone. *)
Record leaves_runners (s : Step dyn U E I O) (o : Options dyn U E) : Prop := {
  lr_do do c item : Do s = Some do → untouched (do c item);
  lr_hook hook c index v outcome : OnResult s = Some hook → untouched (hook c index v outcome);
  lr_load store c key : opt_Store o = Some store → untouched (Load store O c key);
  lr_put store c key v : opt_Store o = Some store → untouched (Put store O c key v);
  lr_ledger l c ev : Ledger o = Some l → untouched (l c ev);
  lr_clock p : Clock o = Some p → untouched p;
}.

Context (T : gmap nat (option dyn → Prop)) (runner : typedRunner dyn U E I O).
Context (HT : T !! state runner = Some (of_type O)) (Hlr : leaves_runners (step runner) (options runner)).
Notation keeps Q p := (owns (λ w (_ : unit), typed_world (U := U) (E := E) T w) (λ r _, Q r) p tt).
Notation fine := (λ _, True).

(** The item a stage hands on carries a value of the step's result type. *)
Definition typed_result (r : res (erasedItem dyn)) : Prop := ∀ it, r = Ok it → carries (of_type O) it.

Lemma typed_err e : typed_result (Err e).
Proof. by intros it [=]. Qed.

Lemma then_typed {A} (P : A → Prop) (p : prog W (res A)) (f : A → prog W (res (erasedItem dyn))) :
  keeps (λ r, ∀ a, r = Ok a → P a) p → (∀ a, P a → keeps typed_result (f a)) → keeps typed_result (rbind f p).
Proof. apply keeps_rbind. apply typed_err. Qed.

Lemma pass_typed {A} (p : prog W (res A)) (f : A → prog W (res (erasedItem dyn))) :
  keeps fine p → (∀ a, keeps typed_result (f a)) → keeps typed_result (rbind f p).
Proof. intros Hp Hf. eapply then_typed with fine; [|auto]. eapply keeps_weaken; [exact Hp|done]. Qed.

Lemma after_typed {A} (p : prog W A) (f : A → prog W (res (erasedItem dyn))) :
  keeps fine p → (∀ a, keeps typed_result (f a)) → keeps typed_result (p ≫= f).
Proof. intros Hp Hf. eapply keeps_bind; [exact Hp|auto]. Qed.

Lemma keeps_count up : keeps fine (count runner up).
Proof. apply keeps_with_runner. by intros s s' [] [= ->]%list_elem_of_singleton. Qed.

Lemma keeps_meters index metered : keeps fine (add_meters runner index metered).
Proof.
  apply keeps_faulty, keeps_with_runner. intros s s' r Hin. by apply list_elem_of_fmap in Hin as ([m r'] & [= -> ->] & _).
Qed.

Lemma keeps_emit c ev : keeps fine (emitLedger c (options runner) ev).
Proof.
  unfold emitLedger. destruct (Ledger (options runner)) as [l|] eqn:Hl; [|by apply owns_ret].
  eapply keeps_bind with fine.
  - destruct (Report.At _); [by apply owns_ret|]. eapply keeps_bind with fine; [|by intros; apply owns_ret].
    unfold now. destruct (Clock (options runner)) eqn:Hc; [by eapply untouched_keeps, (lr_clock _ _ Hlr)|apply untouched_keeps, untouched_read].
  - intros ev' _. eapply keeps_bind with fine; [by eapply untouched_keeps, (lr_ledger _ _ Hlr)|by intros; apply owns_ret].
Qed.

Lemma keeps_event c ev : keeps fine (event runner c ev).
Proof. apply keeps_faulty, keeps_emit. Qed.

Lemma keeps_notify c index v outcome : keeps fine (notify runner c index v outcome).
Proof.
  unfold notify. destruct (OnResult (step runner)) eqn:Hh; [|by apply owns_ret].
  apply keeps_faulty. by eapply untouched_keeps, (lr_hook _ _ Hlr).
Qed.

Lemma keeps_stuck {A} (Q : A → Prop) : keeps Q (await (W := W) (λ _, [])).
Proof. apply owns_await. by intros w [] w' x _ ?%elem_of_nil. Qed.

Lemma keeps_admit c index attempt : keeps fine (admit_call runner c index attempt).
Proof.
  unfold admit_call. eapply keeps_bind with fine.
  - unfold admit_resources, admit_units. destruct (opt_env (options runner)); [apply untouched_keeps, untouched_env|].
    destruct (resources runner); [by apply owns_ret|apply keeps_stuck].
  - intros [name [[]|e]] _; [by apply owns_ret|]. cbn [fst snd]. destruct (Is e ErrBudgetExceeded); [|by apply owns_ret].
    eapply keeps_bind with fine; [|by intros; apply owns_ret]. unfold read_plan, plan_of.
    destruct (opt_env (options runner)); [apply untouched_keeps, untouched_env|apply keeps_stuck].
Qed.

Lemma typed_success c index value key d : keeps typed_result (success runner c index value key d).
Proof.
  unfold success. apply pass_typed; [destruct (Meter (step runner)); [apply keeps_meters|by apply owns_ret]|]. intros [].
  apply pass_typed.
  - destruct key as [key|]; [|by apply owns_ret]. destruct (opt_Store (options runner)) as [store|] eqn:Hs; [|apply keeps_stuck].
    eapply keeps_rbind with fine; [done| |].
    + eapply keeps_weaken; [|done]. apply keeps_faulty. by eapply untouched_keeps, (lr_put _ _ Hlr).
    + intros [] _. eapply keeps_bind; [apply keeps_count|]. intros [] _. by apply owns_ret.
  - intros [outcome evt]. apply pass_typed; [apply keeps_event|]. intros []. apply pass_typed; [apply keeps_notify|]. intros [].
    apply owns_ret. intros it [= <-]. right. by exists value.
Qed.

Lemma typed_fail c index cause class n : keeps typed_result (fail runner c index cause class n).
Proof.
  unfold fail. destruct (_ || _); [by apply owns_ret|].
  destruct (bool_decide _); (apply after_typed; [apply keeps_count|]); intros []; (apply pass_typed; [apply keeps_event|]); intros [];
    apply owns_ret; intros it [= <-]; by left.
Qed.

Lemma typed_loop do c index item key d more attempt delay :
  Do (step runner) = Some do →
  keeps typed_result (attempt_loop Int63n runner do c index item key d more attempt delay).
Proof.
  intros Hdo. revert attempt delay. induction more as [|more IH]; intros attempt delay; cbn [attempt_loop].
  all: apply pass_typed; [|intros [value [e|]]; cbn [snd]; [|apply typed_success]].
  1, 3: unfold attempt_once; eapply keeps_rbind with fine; [done|eapply keeps_weaken; [apply keeps_admit|done]|]; intros [] _;
    (eapply keeps_bind with fine; [destruct (attempt =? 1); [apply keeps_count|by apply owns_ret]|]); intros [] _;
    (eapply keeps_bind with fine; [by eapply untouched_keeps, (lr_do _ _ Hlr)|]); intros out _;
    (eapply keeps_bind with fine; [apply keeps_count|]); intros [] _;
    (eapply keeps_rbind with fine; [done|eapply keeps_weaken; [|done]; destruct (AttemptMeter (step runner)); [apply keeps_meters|by apply owns_ret]|]);
    intros [] _; by apply owns_ret.
  all: apply after_typed; [apply untouched_keeps, untouched_read|]; intros [e'|]; [apply owns_ret, typed_err|].
  all: destruct (negb _); [apply owns_ret, typed_err|]; destruct (classifier runner e); try apply typed_fail.
  apply after_typed; [apply keeps_count|]. intros []. apply pass_typed; [apply keeps_event|]. intros [].
  apply pass_typed; [|intros []; apply IH]. unfold back_off, pause. eapply keeps_bind with fine.
  - apply untouched_keeps, guarantees_atomic. intros w. split; [by case_match; intros ri st|done].
  - intros wait _. apply untouched_keeps, guarantees_await. intros w w' x [Hin|Hin]%elem_of_app; (split; [|done]); [|by apply list_elem_of_singleton in Hin as [= -> _]; intros ri st].
    destruct (world_ctx_err c w); [by apply list_elem_of_singleton in Hin as [= -> _]; intros ri st|by apply elem_of_nil in Hin].
Qed.

Lemma typed_work c index item key d : keeps typed_result (work Int63n runner c index item key d).
Proof. unfold work. destruct (Do (step runner)) eqn:Hdo; [by apply typed_loop|apply keeps_stuck]. Qed.

Lemma typed_lead store c index item key d :
  opt_Store (options runner) = Some store → keeps typed_result (lead Int63n runner store c index item key d).
Proof.
  intros Hs. unfold lead. apply pass_typed; [apply keeps_faulty; by eapply untouched_keeps, (lr_load _ _ Hlr)|]. intros [value|].
  - apply after_typed; [apply keeps_count|]. intros []. apply pass_typed; [apply keeps_event|]. intros [].
    apply pass_typed; [apply keeps_notify|]. intros []. apply owns_ret. intros it [= <-]. right. by exists value.
  - apply after_typed; [apply keeps_count|]. intros []. apply typed_work.
Qed.

(** A duplicate gets a value of the type from the call it joined. *)
Lemma typed_follow c index id d : keeps typed_result (follow runner c index id d).
Proof.
  unfold follow. apply then_typed with (call_typed (of_type O)).
  - apply owns_await. intros w [] w' r Hw Hin. exists tt.
    apply elem_of_app in Hin as [Hin|Hin].
    + destruct (world_ctx_err c w); [|by apply elem_of_nil in Hin]. apply list_elem_of_singleton in Hin as [= -> ->]. done.
    + destruct (Hw _ _ HT) as (st & Hst & Hcalls). rewrite Hst in Hin.
      destruct (calls st !! id) as [[call|]|] eqn:Hc; try by apply elem_of_nil in Hin.
      apply list_elem_of_singleton in Hin as [= -> ->]. split; [done|]. intros call' [= <-]. by eapply Hcalls.
  - intros call Hcall. destruct (ic_err call) as [e|] eqn:He; [apply owns_ret, typed_err|].
    assert (∀ outcome, typed_result (Ok (ErasedItem index (ic_value call) outcome (set_Index index <$> ic_quarantined call) (ic_skipped call)))) as Hres.
    { intros outcome it [= <-]. unfold carries, flagged. simpl. destruct (Hcall He) as [[q ->]|[Hk|Hv]]; [by left| |by right].
      left. rewrite Hk. by destruct (ic_quarantined call). }
    destruct (replicate_outcome call) as [up evt]. apply after_typed; [apply keeps_count|]. intros [].
    apply pass_typed; [apply keeps_event|]. intros []. destruct (flagged _); [apply owns_ret, Hres|].
    apply pass_typed; [apply keeps_notify|]. intros []. apply owns_ret, Hres.
Qed.

Lemma typed_process c index item : keeps typed_result (process Int63n runner c index item).
Proof.
  unfold process. apply after_typed; [apply keeps_count|]. intros [].
  destruct (opt_Store (options runner)) as [store|] eqn:Hs; [|apply typed_work]. destruct (decide _); [apply typed_work|].
  destruct (Step_Key _ item) as [key|]; [|apply owns_ret, typed_err]. destruct (Key_Digest key) as [d|]; [|apply owns_ret, typed_err].
  apply after_typed.
  - apply keeps_section. intros ok s s' x _ Hcalls Hin. destruct (inflight s !! d).
    + by apply list_elem_of_singleton in Hin as [= -> _].
    + apply list_elem_of_singleton in Hin as [= -> _]. simpl. intros id call Hid.
      apply lookup_app_Some in Hid as [Hid|[_ Hid]]; [by eapply Hcalls|]. by apply list_lookup_singleton_Some in Hid as [_ [=]].
  - intros [id|id]; [apply typed_follow|]. eapply keeps_bind; [by apply typed_lead|]. intros r Hr.
    apply after_typed; [|intros []; by apply owns_ret].
    apply keeps_section. intros ok s s' [] Hok Hcalls [= ->]%list_elem_of_singleton. simpl. rewrite HT in Hok. injection Hok as <-.
    intros id' call [(-> & Hc & _)|[_ Hid]]%list_lookup_insert_Some; [|by eapply Hcalls]. injection Hc as <-.
    unfold call_typed, call_of. destruct r as [it|e]; simpl; [|done]. intros _.
    destruct (Hr it eq_refl) as [Hf|Hv]; [|auto]. unfold flagged in Hf. destruct (ei_quarantined it); eauto.
Qed.

(** What the stage makes of an item of the type its step expects: the assertion holds. *)
Definition accepts (item : erasedItem dyn) : Prop := flagged item = true ∨ is_Some (unbox (V := I) (ei_value item)).

Lemma typed_body_typed c item :
  accepts item → keeps typed_result (typed_body Int63n dynamic_type runner c item).
Proof.
  unfold accepts, typed_body. destruct (flagged item) eqn:Hf; intros Ha.
  - apply owns_ret. intros it [= <-]. by left.
  - destruct Ha as [|[v ->]]; [done|]. apply typed_process.
Qed.
End stage.

(** ** Pipelines *)

Section pipelines.
Context {dyn U E : Type} {EG : ErrGroup} (Int63n : nat → Z → Z) (dynamic_type : option dyn → string).
Notation W := (world dyn U E).
Notation any := (option dyn).
Notation stageOfStep := (stageOfStep Int63n dynamic_type).
Notation stageSpec := (stageSpec (dyn := dyn) (U := U) (E := E)).
Notation itemRunner := (itemRunner (dyn := dyn) (U := U) (E := E)).
Context (o : Options dyn U E).
Implicit Types (P R : any → Prop) (stages : list stageSpec) (runners : list itemRunner) (ri : nat).

(** Steps whose types meet, as the types of [Pipe2], [Pipe3] and [Pipe4] demand. *)
Inductive typed_stages : ∀ (I O : Type), Boxed dyn I → Boxed dyn O → list stageSpec → Prop :=
| typed_step I O (BI : Boxed dyn I) (BO : Boxed dyn O) (CO : Codec O) (s : Step dyn U E I O) :
    concrete I → leaves_runners s o → typed_stages I O BI BO [stageOfStep s]
| typed_pipe A B C BA BB BC l l' :
    typed_stages A B BA BB l → typed_stages B C BB BC l' → typed_stages A C BA BC (l ++ l').

(** The same with the predicates on values at the ends of every stage. *)
Definition stage_typed (st : stageSpec) P R : Prop :=
  ∃ (I O : Type) (BI : Boxed dyn I) (BO : Boxed dyn O) (CO : Codec O) (s : Step dyn U E I O),
    st = stageOfStep s ∧ P = of_type I ∧ R = of_type O ∧ concrete I ∧ leaves_runners s o.
Fixpoint chained P stages R : Prop :=
  match stages with
  | [] => P = R
  | st :: stages => ∃ P', stage_typed st P P' ∧ chained P' stages R
  end.

Lemma chained_app P P' R l l' : chained P l P' → chained P' l' R → chained P (l ++ l') R.
Proof. revert P. induction l as [|st l IH]; intros P; [by intros ->|]. intros (P1 & Hst & Hl) Hl'. exists P1. split; [done|]. by apply IH. Qed.

Lemma typed_stages_chained I O BI BO l : typed_stages I O BI BO l → chained (of_type I) l (of_type O).
Proof.
  induction 1 as [I O BI BO CO s Hc Hs|A B C BA BB BC l l' _ IH _ IH']; [|by eapply chained_app].
  exists (of_type O). split; [|done]. by exists I, O, BI, BO, CO, s.
Qed.

(** *** The runners *)

(** Distinct runners that were made and not used yet. *)
Definition made (w : W) (m : gmultiset nat) : Prop :=
  ∀ ri, ri ∈ m → wd_runners w !! ri = Some new_rstate ∧ (multiplicity ri m ≤ 1)%nat.

Definition runner_typed (runner : itemRunner) ri P R : Prop :=
  ∃ (I O : Type) (BI : Boxed dyn I) (BO : Boxed dyn O) (CO : Codec O) (s : Step dyn U E I O),
    runner = typed_stage Int63n dynamic_type (built s o ri) ∧ P = of_type I ∧ R = of_type O ∧ concrete I ∧ leaves_runners s o.

Fixpoint runners_chained P (built_runners : list stageRunner) (m : gmultiset nat) R : Prop :=
  match built_runners with
  | [] => P = R ∧ m = ∅
  | tr :: rest => ∃ runner ri P' m', tr = PerItem runner ∧ runner_typed runner ri P P' ∧ m = m' ⊎ {[+ ri +]} ∧ runners_chained P' rest m' R
  end.

Lemma owns_made {I O} `{!Boxed dyn I, !Boxed dyn O, !Codec O} (s : Step dyn U E I O) :
  owns made (λ r m, ∀ tr, r = Ok tr → ∃ ri, tr = built s o ri ∧ m = {[+ ri +]}) (newTypedRunner s o) azero.
Proof.
  unfold newTypedRunner. case_decide; [by apply owns_ret|]. destruct (Do s); [|by apply owns_ret].
  assert (owns made (λ r m, ∀ tr, r = Ok tr → ∃ ri, tr = built s o ri ∧ m = {[+ ri +]})
    (ri ← atomic (λ w, (set_runners (wd_runners w ++ [new_rstate]) w, length (wd_runners w))); mret (Ok (built s o ri))) azero) as Hnew.
  { eapply owns_bind' with (λ ri m, m = {[+ ri +]}).
    - apply owns_atomic. intros w m Hm. rewrite aplus_zero in Hm. exists ({[+ length (wd_runners w) +]} : gmultiset nat). split; [|done].
      change (made (set_runners (wd_runners w ++ [new_rstate]) w) ({[+ length (wd_runners w) +]} ⊎ m)).
      assert (multiplicity (length (wd_runners w)) m = 0%nat) as Hfree.
      { destruct (decide (length (wd_runners w) ∈ m)) as [Hin|Hn].
        - destruct (Hm _ Hin) as [Hl _]. apply lookup_lt_Some in Hl. lia.
        - unfold elem_of, gmultiset_elem_of in Hn. lia. }
      intros ri Hri. rewrite multiplicity_disj_union. destruct (decide (ri = length (wd_runners w))) as [->|Hne].
      + rewrite multiplicity_singleton, Hfree, decide_True by done. split; [|lia]. simpl. by rewrite lookup_app_r, Nat.sub_diag by done.
      + rewrite multiplicity_singleton, decide_False by done. apply gmultiset_elem_of_disj_union in Hri as [?%gmultiset_elem_of_singleton|Hri]; [done|].
        destruct (Hm ri Hri) as [Hl Hmult]. split; [|lia]. simpl. by apply lookup_app_l_Some.
    - intros ri m ->. apply owns_ret. intros tr [= <-]. by exists ri. }
  destruct (Meter s), (AttemptMeter s); try exact Hnew. by apply owns_ret.
Qed.

Lemma owns_build P stages R :
  chained P stages R → owns made (λ r m, ∀ rs, r = Ok rs → runners_chained P rs m R) (build_runners o stages) azero.
Proof.
  revert P. induction stages as [|st stages IH]; intros P; cbn [build_runners].
  { intros ->. apply owns_ret. intros rs [= <-]. done. }
  intros (P' & (I & O & BI & BO & CO & s & -> & -> & -> & Hc & Hs) & Hchain).
  eapply owns_rthen with (λ r m, ∀ tr, r = Ok tr → ∃ ri, tr = PerItem (typed_stage Int63n dynamic_type (built s o ri)) ∧ m = {[+ ri +]}).
  - eapply owns_bind' with (λ r m, ∀ tr, r = Ok tr → ∃ ri, tr = PerItem (typed_stage Int63n dynamic_type (built s o ri)) ∧ m = {[+ ri +]});
      [|by intros [tr|e] m Hm; apply owns_ret].
    simpl. eapply owns_rbind; [apply owns_made| |by intros e m _ tr [=]].
    intros tr m Hm. destruct (Hm tr eq_refl) as (ri & -> & ->). apply owns_ret. intros tr' [= <-]. by exists ri.
  - intros tr m Hm. destruct (Hm tr eq_refl) as (ri & -> & ->).
    eapply owns_rthen with (λ r m, ∀ rs, r = Ok rs → runners_chained (of_type O) rs m R); [by apply IH| |by intros e m _ rs [=]].
    intros rs m Hrs. apply owns_ret. intros all [= <-]. rewrite aplus_zero.
    exists (typed_stage Int63n dynamic_type (built s o ri)), ri, (of_type O), m. split_and!; [done| |done|by apply Hrs].
    by exists I, O, BI, BO, CO, s.
  - by intros e m _ rs [=].
Qed.

(** The predicates at the ends of the stages, and the type that each runner's calls hold. *)
Definition typing (runners : list itemRunner) (Ps : list (any → Prop)) (T : gmap nat (any → Prop)) : Prop :=
  ∀ k runner, runners !! k = Some runner → ∃ ri P R, Ps !! k = Some P ∧ Ps !! S k = Some R ∧ T !! ri = Some R ∧ runner_typed runner ri P R.

Lemma runners_typing P built_runners m R :
  (∀ ri, (multiplicity ri m ≤ 1)%nat) → runners_chained P built_runners m R →
  ∃ runners Ps T, built_runners = PerItem <$> runners ∧ Ps !! 0%nat = Some P ∧ Ps !! length runners = Some R ∧
    (∀ ri ok, T !! ri = Some ok → ri ∈ m) ∧ typing runners Ps T.
Proof.
  revert P m. induction built_runners as [|tr rest IH]; intros P m Hm.
  { intros [-> ->]. exists [], [R], ∅. split_and!; [done..| |].
    - intros ri ok. by rewrite lookup_empty.
    - by intros k runner Hk. }
  intros (runner & ri & P' & m' & -> & Hrt & -> & Hrest).
  assert (∀ rj, (multiplicity rj m' ≤ 1)%nat) as Hm' by (intros rj; specialize (Hm rj); rewrite multiplicity_disj_union in Hm; lia).
  destruct (IH P' m' Hm' Hrest) as (runners & Ps & T & -> & Hhead & Hlast & Hdom & Hty).
  assert (ri ∉ m') as Hri.
  { intros Hin. specialize (Hm ri). rewrite multiplicity_disj_union, multiplicity_singleton, decide_True in Hm by done.
    unfold elem_of, gmultiset_elem_of in Hin. lia. }
  exists (runner :: runners), (P :: Ps), (<[ri := P']> T). split_and!; [done|done|done| |].
  - intros rj ok. destruct (decide (rj = ri)) as [->|Hne].
    + intros _. apply gmultiset_elem_of_disj_union. right. by apply gmultiset_elem_of_singleton.
    + rewrite lookup_insert_ne by done. intros Hok%Hdom. apply gmultiset_elem_of_disj_union. by left.
  - intros [|k] r Hk.
    + injection Hk as <-. exists ri, P, P'. split_and!; [done|done|by rewrite lookup_insert_eq|done].
    + destruct (Hty k r Hk) as (rj & Pk & Rk & HP & HR & HT & Hr). exists rj, Pk, Rk. split_and!; [done|done| |done].
      rewrite lookup_insert_ne; [done|]. intros <-. by apply Hri, (Hdom _ _ HT).
Qed.

(** A run returns values the program can return. *)
Lemma owns_returns {A M} `{Account M} (Inv : W → M → Prop) (Q : A → M → Prop) (p : prog W A) γ :
  owns Inv Q p γ → owns Inv (λ a m, Q a m ∧ can_return p a) p γ.
Proof.
  revert γ. induction p as [a|X act k IH]; intros γ Hp; [done|]. intros w f Hw w' x Hin.
  destruct (Hp w f Hw w' x Hin) as (γ' & Hw' & Hk). exists γ'. split; [done|].
  eapply owns_conseq; [by apply IH|]. intros a m [HQ Ha]. split; [done|]. by exists w, w', x.
Qed.

(** The stage of [runner] returns an error as soon as it has received [x], before it does
    anything: that is how a failed assertion shows. *)
Definition refuses (runner : itemRunner) (x : erasedItem dyn) : Prop :=
  ∃ c e, run_body runner c x = mret (Err e).

Section run.
Context (Env : W → W → Prop) (c : ctx).
Context (HEnv : ∀ w w', Env w w' → same_runners w w').
Context (Hreports : periodic o = true → reports_within same_runners o).

Definition takes_typed (n : nat) (Ps : list (any → Prop)) (k : nat) (x : erasedItem dyn) : Prop :=
  (ei_index x < n)%nat ∧ positioned x ∧ ∃ P, Ps !! k = Some P ∧ carries P x.
Definition makes_typed (n : nat) (Ps : list (any → Prop)) (k : nat) (x : erasedItem dyn)
    (r : res (erasedItem dyn)) (_ : unit) : Prop :=
  ∀ y, r = Ok y → takes_typed n Ps (S k) y ∧ ei_index y = ei_index x.

Lemma accepts_carries (I : Type) (BI : Boxed dyn I) x : concrete I → carries (of_type I) x → accepts (I := I) x.
Proof. intros Hc [Hf|Hv]; [by left|]. right. by apply concrete_unbox. Qed.

Lemma runner_accepts runner ri P R x : runner_typed runner ri P R → carries P x → ¬ refuses runner x.
Proof.
  intros (I & O & BI & BO & CO & s & -> & -> & -> & Hc & _) Hx (c' & e & He).
  apply (accepts_carries I BI x Hc) in Hx. simpl in He. unfold typed_body in He.
  destruct Hx as [Hf|[v Hv]]; [by rewrite Hf in He|]. destruct (flagged x); [done|]. rewrite Hv in He.
  unfold process, count in He. discriminate He.
Qed.

Lemma typed_job n runners Ps T k runner inner x :
  typing runners Ps T → runners !! k = Some runner → takes_typed n Ps k x →
  owns (λ w (_ : unit), typed_world (U := U) (E := E) T w) (makes_typed n Ps k x) (run_body runner inner x) tt.
Proof.
  intros Hty Hk (Hn & Hpos & P & HP & Hx). destruct (Hty k runner Hk) as (ri & P' & R & HP' & HR & HT & Hrt).
  rewrite HP in HP'. injection HP' as <-.
  destruct Hrt as (I & O & BI & BO & CO & s & -> & -> & -> & Hc & Hs).
  eapply owns_conseq; [apply owns_returns, (typed_body_typed Int63n dynamic_type T (built s o ri) HT Hs); by apply accepts_carries|].
  intros r [] [Hr Hret] y ->.
  destruct (bo_index _ (typed_body_ok Int63n dynamic_type (built s o ri)) inner x y Hpos Hret) as [Hi Hq].
  split; [|done]. split_and!; [lia|intros q Hy; rewrite Hi; by apply Hq|]. exists (of_type O). split; [done|]. by apply Hr.
Qed.

Lemma chained_leaves P stages R :
  chained P stages R → stages ≠ [] →
  ∃ (I O : Type) (BI : Boxed dyn I) (BO : Boxed dyn O) (CO : Codec O) (s : Step dyn U E I O), leaves_runners s o.
Proof.
  destruct stages as [|st stages]; [done|]. intros (P' & (I & O & BI & BO & CO & s & _ & _ & _ & _ & Hs) & _) _.
  by exists I, O, BI, BO, CO, s.
Qed.

Lemma typed_stages_ok Env' P stages R (inputs : list (erasedItem dyn)) n runners Ps T :
  (∀ w w', Env' w w' → same_runners w w') → chained P stages R → typing runners Ps T → n = length inputs → Ps !! 0%nat = Some P →
  ei_index <$> inputs = seq 0 n → (∀ x, x ∈ inputs → positioned x ∧ carries P x) →
  length runners = length stages → Forall stage_ok stages →
  Forall2 (λ s runner, can_return (ss_build s o) (Ok (PerItem runner))) stages runners →
  stages_ok ei_index Env' (items_pipeline o (Z.of_nat n) stages runners) inputs (λ w (_ : unit), typed_world (U := U) (E := E) T w)
    (takes_typed n Ps) (makes_typed n Ps).
Proof.
  intros HEnv' Hchain Hty Hn HP Hidx Hin Hlen Hst Hb.
  assert (∀ k sg, items_pipeline o (Z.of_nat n) stages runners !! k = Some sg →
    ∃ s runner, stages !! k = Some s ∧ runners !! k = Some runner ∧ sg = pipeline_stage o (Z.of_nat n) (s, runner)) as Hlook.
  { intros k sg ([s runner] & -> & (? & ? & [= <- <-] & Hs & Hr)%lookup_zip_with_Some)%list_lookup_fmap_Some. eauto. }
  split.
  - intros x Hx. destruct (Hin x Hx) as [Hpos Hc]. assert (ei_index x < length inputs)%nat as Hlt; [|by split; [split; [lia|eauto]|]].
    assert (ei_index x ∈ ei_index <$> inputs) as Hi by (apply list_elem_of_fmap; by exists x).
    rewrite Hidx in Hi. apply elem_of_seq in Hi. lia.
  - rewrite Hidx. apply NoDup_seq.
  - intros k x y m _ Hy. by apply Hy.
  - intros k sg inner x (s & runner & _ & Hk & ->)%Hlook _ Hx. by eapply typed_job.
  - intros k sg gctx (s & runner & Hs & _ & ->)%Hlook. simpl.
    destruct (chained_leaves P stages R Hchain) as (I & O & BI & BO & CO & s' & Hleaves); [by intros ->|].
    assert (∀ c' ev, owns (λ w (_ : unit), typed_world (U := U) (E := E) T w) (λ _ m, m = azero) (emitLedger c' o ev) tt) as He.
    { intros c' ev. eapply owns_conseq; [apply (keeps_emit T (built s' o 0) Hleaves)|]. by intros r []. }
    split; apply He.
  - intros w w' m Hw He. eapply same_runners_typed; [by apply HEnv'|done].
  - done.
  - intros sg (k & (s & runner & Hs & Hr & ->)%Hlook)%list_elem_of_lookup. simpl. rewrite Forall_lookup in Hst.
    destruct (Hst k s Hs o (PerItem runner)) as [_ Hw]; [exact (Forall2_lookup_lr _ _ _ _ _ _ Hb Hs Hr)|done].
  - by intros k sg (s & runner & _ & _ & ->)%Hlook [run Hrun].
  - by intros k sg run inner its u u' out (s & runner & _ & _ & ->)%Hlook Hrun.
Qed.

Lemma chained_ok P stages R : chained P stages R → Forall stage_ok stages.
Proof.
  revert P. induction stages as [|st stages IH]; intros P; [done|].
  intros (P' & (I & O & BI & BO & CO & s & -> & _) & Hc). constructor; [apply stageOfStep_ok|by eapply IH].
Qed.

Lemma chained_per_item P stages R : chained P stages R → Forall per_item stages.
Proof.
  revert P. induction stages as [|st stages IH]; intros P; [done|].
  intros (P' & (I & O & BI & BO & CO & s & -> & _) & Hc). constructor; [apply stageOfStep_per_item|by eapply IH].
Qed.

Lemma made_around w w' m : made w m → Env w w' → made w' m.
Proof. intros Hm He ri Hri. destruct (Hm ri Hri) as [Hl Hk]. split; [|done]. by apply (HEnv w w' He). Qed.

Lemma built_typing P stages R w w1 runners :
  chained P stages R → runs Env (build_runners o stages) w w1 (Ok (PerItem <$> runners)) →
  ∃ Ps T, Ps !! 0%nat = Some P ∧ Ps !! length runners = Some R ∧ typing runners Ps T ∧ typed_world (U := U) (E := E) T w1.
Proof.
  intros Hc Hrun.
  destruct (runs_owns Env made _ _ azero w w1 (Ok (PerItem <$> runners)) (λ u u' m, made_around u u' m) (owns_build P stages R Hc)) as (m & Hm & HQ); [|done|].
  { intros ri Hri. change (ri ∈ (∅ : gmultiset nat)) in Hri. by apply gmultiset_not_elem_of_empty in Hri. }
  assert (∀ ri, (multiplicity ri m ≤ 1)%nat) as Honce.
  { intros ri. destruct (decide (ri ∈ m)) as [Hin|Hn]; [by apply Hm|]. unfold elem_of, gmultiset_elem_of in Hn. lia. }
  destruct (runners_typing P _ m R Honce (HQ _ eq_refl)) as (runners' & Ps & T & Heq & Hhead & Hlast & Hdom & Hty).
  apply list_fmap_eq_inj in Heq; [|by intros r r' [= ->]]. subst runners'. exists Ps, T. split_and!; [done..|].
  intros ri ok Hok. destruct (Hm ri (Hdom _ _ Hok)) as [Hl _]. exists new_rstate. split; [done|].
  intros id call Hid. simpl in Hid. by rewrite lookup_nil in Hid.
Qed.

#[local] Instance same_runners_refl : Reflexive (same_runners (dyn := dyn) (U := U) (E := E)).
Proof. by intros w ri st. Qed.

(** A run that is watched keeps out of the way of its runners, also when its reporter
    fails and ends its context. *)
Lemma typed_env runContext total runners Ps T e u u' :
  typing runners Ps T → run_env Env o runContext (stage_pubs o runContext total (PerItem <$> runners)) e u u' → same_runners u u'.
Proof.
  intros Hty. unfold run_env. destruct (periodic o) eqn:Hp; [|apply HEnv].
  intros [He|[(p & ->%stage_pubs_items & Hact)|[_ ->]]]; [by apply HEnv| |by intros ri st].
  eapply acts_of_guarantees; [|exact Hact].
  apply (within_publication same_runners); [by intros os w ri st|by apply Hreports|].
  apply (still_within same_runners), still_currentReport, Forall_fmap, Forall_lookup. intros k runner Hk.
  destruct (Hty k runner Hk) as (ri & P & R & _ & _ & _ & I & O & BI & BO & CO & s & -> & _).
  apply still_bind; [apply still_report|done].
Qed.

(** Every state of a run of typed stages. *)
Lemma typed_states (I O : Type) (BI : Boxed dyn I) (BO : Boxed dyn O) stages (items : list I) w w1 w2 built e runContext gctx s :
  let total := Z.of_nat (length (input_items items)) in
  typed_stages I O BI BO stages →
  runs Env (build_runners o stages) w w1 (Ok built) → startPeriodicReporter o c w1 runContext w2 →
  stages_reach ei_index zero_item (around_engines built (run_env Env o runContext (stage_pubs o runContext total built) e))
    (run_pipeline o total stages built) runContext (input_items items) w2 gctx s →
  (∀ k src inner g ws b i x p runner,
     p_stages s !! k = Some (SState (Running src inner g ws) b) → ws !! i = Some (Busy x p) → built !! k = Some runner →
     ∃ r, runner = PerItem r ∧ ¬ refuses r x) ∧
  ∀ x, x ∈ p_results s → is_Some (result_of (O := O) x).
Proof.
  intros total Hst%typed_stages_chained Hbuild Hstart Hreach.
  destruct (build_items _ _ _ (chained_per_item _ _ _ Hst) (runs_can_return _ _ _ _ _ Hbuild)) as [runners ->].
  destruct (built_typing _ _ _ _ _ _ Hst Hbuild) as (Ps & T & Hhead & Hlast & Hty & Hw1).
  apply runs_can_return, build_each, Forall2_fmap_r in Hbuild.
  assert (length runners = length stages) as Hl by (symmetry; by eapply Forall2_length).
  destruct (input_items_index items) as [Hlen Hidx].
  assert (∀ x, x ∈ input_items items → positioned x ∧ carries (of_type I) x) as Hin.
  { intros x (i & item & _ & ->)%input_items_elem. split; [by intros q [=]|]. right. by exists item. }
  pose proof (start_keeps (typed_world (U := U) (E := E) T) o c w1 runContext w2 (λ f u Hu, Hu) Hw1 Hstart) as Hw2.
  unfold run_pipeline in Hreach. rewrite around_items, run_stages_items in Hreach. unfold total in Hreach. rewrite Hlen in Hreach.
  pose proof (typed_stages_ok _ (of_type I) stages (of_type O) (input_items items) (length items) runners Ps T
    (λ u u', typed_env runContext (Z.of_nat (length items)) runners Ps T e u u' Hty) Hst Hty (eq_sym Hlen) Hhead Hidx Hin Hl
    (chained_ok _ _ _ Hst) Hbuild) as Hok.
  destruct (pipeline_states ei_index zero_item _ _ runContext (input_items items) w2 _ _ _ gctx s Hok Hw2 Hreach) as [Hbusy Hres].
  split.
  - intros k src inner g ws b i x p runner Hk Hi Hr. apply list_lookup_fmap_Some in Hr as (r & -> & Hr). exists r. split; [done|].
    destruct (Hbusy k src inner g ws b i x p Hk Hi) as (_ & _ & P & HP & Hx).
    destruct (Hty k r Hr) as (ri & P' & R & HP' & _ & _ & Hrt). rewrite HP in HP'. injection HP' as <-. by eapply runner_accepts.
  - intros x Hx. destruct (Hres x Hx) as [->|Hitem]; [by eexists|].
    unfold items_pipeline in Hitem. rewrite length_fmap, length_zip_with, Nat.min_l in Hitem by lia. rewrite <-Hl in Hitem.
    destruct Hitem as (_ & _ & P & HP & Hc). rewrite Hlast in HP. injection HP as <-. by apply carries_result.
Qed.

(** C7: Type safety.  Values travel between stages as [any], yet in a run of a pipeline
    whose stages fit together, as the types of [Pipe2], [Pipe3] and [Pipe4] demand, no
    type assertion fails.  At every moment of every run, of one that will fail or be
    canceled as well: the item that a worker of any stage has received, from the
    input, the stage before it, the cache or the call of a duplicate, is one whose
    assertion holds, for the stage does not return an error at once as a failed
    assertion makes it do; and all results collected so far pass the assertion of
    [Run].  So whenever the stages return their results, [Run] does not panic.  The
    types the stages take must be [concrete]: a nil value of an interface type does
    fail the assertion ([nil_refused]). *)
Theorem pipeline_typed (I O : Type) (BI : Boxed dyn I) (BO : Boxed dyn O) stages (items : list I) w :
  typed_stages I O BI BO stages →
  (∀ w1 w2 built reporterErr runContext gctx s,
     let total := Z.of_nat (length (input_items items)) in
     runs Env (build_runners o stages) w w1 (Ok built) → startPeriodicReporter o c w1 runContext w2 →
     stages_reach ei_index zero_item
       (around_engines built (run_env Env o runContext (stage_pubs o runContext total built) reporterErr))
       (run_pipeline o total stages built) runContext (input_items items) w2 gctx s →
     (∀ k src inner g ws b i x p runner,
        p_stages s !! k = Some (SState (Running src inner g ws) b) → ws !! i = Some (Busy x p) → built !! k = Some runner →
        ∃ r, runner = PerItem r ∧ ¬ refuses r x) ∧
     ∀ x, x ∈ p_results s → is_Some (result_of (O := O) x)) ∧
  (∀ w' its report, runStages_returns Env c stages (input_items items) o w w' (Ok its, report) →
     is_Some (mapM (result_of (O := O)) its)).
Proof.
  intros Hst. split; [intros w1 w2 built e rc gctx s total; by apply typed_states|].
  intros w' its report (rc & w1 & w2 & w3 & w4 & built & live & Hb & Hs & Hp & _)%runStages_ok.
  remember (Ok its) as r eqn:Hr. destruct Hp as [t gctx s Ht Hreach _]. unfold pipe_result in Hr.
  destruct (group_err (p_group s)); [done|]. injection Hr as <-.
  destruct (typed_states I O BI BO stages items w w1 w2 built None rc gctx s Hst Hb Hs) as [_ Hres]; [by exists t|].
  by apply mapM_is_Some, Forall_forall.
Qed.
End run.
End pipelines.

(** The nil value of an interface type fails the assertion of the next stage, whose type
    it has; as a result of a run it is accepted. *)
Lemma nil_refused {dyn U E I O : Type} `{!Boxed dyn I, !Boxed dyn O, !Codec O} Int63n dynamic_type
    (runner : typedRunner dyn U E I O) c (item : erasedItem dyn) :
  flagged item = false → ei_value item = None →
  (∃ e, typed_body Int63n dynamic_type runner c item = mret (Err e)) ∧ is_Some (result_of (O := I) item).
Proof.
  intros Hf Hv. split.
  - eexists. unfold typed_body. by rewrite Hf, Hv, unbox_nil.
  - unfold result_of. rewrite Hv. unfold flagged in Hf. destruct (ei_quarantined item); [done|]. rewrite Hf. eauto.
Qed.

(** ** A concrete pipeline *)

Section example.
#[local] Existing Instances string_boxed string_codec.
Notation W := (world string unit memw).

Lemma untouched_user {A} (p : prog memw A) : guarantees same_runners (λ _, True) (zoom (W := W) p).
Proof. apply (guarantees_zoom (λ _ _, True)); [by intros w s _ ri st|]. by apply (guarantees_any (λ _, True)). Qed.

Lemma answer_leaves : leaves_runners answer_step answer_options.
Proof.
  split; try done.
  - intros do c item [= <-]. by apply guarantees_ret.
  - intros store c key [= <-]. apply untouched_user.
  - intros store c key v [= <-]. apply untouched_user.
Qed.

Lemma answer_typed : typed_stages no_draws text_type answer_options string string string_boxed string_boxed answer_stages.
Proof. apply typed_step; [|exact answer_leaves]. intros s. by exists s. Qed.

Lemma pipeline_typed_witness :
  ∃ w', runStages_returns nobody_else caller answer_stages (input_items questions) answer_options (with_runners 0) w'
    (Ok answers, Some {["judge" := answer_counts]}) ∧ is_Some (mapM (result_of (O := string)) answers).
Proof.
  destruct (answer_stages_run 0 (or_introl eq_refl)) as [w' Hrun].
  destruct (pipeline_typed no_draws text_type answer_options nobody_else caller ltac:(intros w1 w2 []) ltac:(done) string string string_boxed string_boxed
    answer_stages questions (with_runners 0) answer_typed) as [_ Hres].
  exists w'. split; [exact Hrun|exact (Hres w' answers _ Hrun)].
Defined.
End example.
