(* ===== verification/Groups.v ===== *)
(** * Duplicate groups and batches

    MapCached, MapCachedBatches (execution) and Bulk (flow) share one opening: the
    items are grouped by the digest of their cache key, in the order of first
    occurrence, so that one key is looked up and worked on once; the groups that
    missed the cache are cut into batches.  [group_items] and [batches] are those
    loops, [group_items_spec] and [batches_spec] what they establish. *)

From S2P Require Import Prelude GoError Cache.

Section groups.
Context {T : Type}.

(** [type keyGroup struct] *)
Record keyGroup := KeyGroup {
  kg_key : Key;
  kg_digest : string;
  kg_item : T;
  kg_indexes : list nat;
}.

Definition add_index (index : nat) (g : keyGroup) : keyGroup :=
  KeyGroup (kg_key g) (kg_digest g) (kg_item g) (kg_indexes g ++ [index]).

(** The key of an item and its digest, or the error the caller makes of a failure. *)
Context (key_of : nat → T → res (Key * string)).

(** The loop: [digests] of the items seen, [groups], and [groupByDigest]. *)
Fixpoint group_loop (items : list (nat * T)) (digests : list string) (groups : list keyGroup)
    (groupByDigest : gmap string nat) : list string * res (list keyGroup) :=
  match items with
  | [] => (digests, Ok groups)
  | (index, item) :: items =>
      match key_of index item with
      | Err e => (digests, Err e)
      | Ok (key, d) =>
          match groupByDigest !! d with
          | Some gi => group_loop items (digests ++ [d]) (alter (add_index index) gi groups) groupByDigest
          | None => group_loop items (digests ++ [d]) (groups ++ [KeyGroup key d item [index]])
                      (<[d := length groups]> groupByDigest)
          end
      end
  end.

Definition group_items (items : list T) : list string * res (list keyGroup) :=
  group_loop (imap pair items) [] [] ∅.

(** ** What grouping establishes *)

(** [n] items have been seen. *)
Record grouped (items : list T) (n : nat) (digests : list string) (groups : list keyGroup)
    (by_digest : gmap string nat) : Prop := {
  gd_length : length digests = n;
  gd_indexes : (groups ≫= kg_indexes) ≡ₚ seq 0 n;
  gd_by d gi : by_digest !! d = Some gi ↔ kg_digest <$> groups !! gi = Some d;
  gd_group g : g ∈ groups → ∃ i rest, kg_indexes g = i :: rest ∧ items !! i = Some (kg_item g) ∧
    key_of i (kg_item g) = Ok (kg_key g, kg_digest g);
  gd_index g i : g ∈ groups → i ∈ kg_indexes g →
    digests !! i = Some (kg_digest g) ∧ ∃ item key, items !! i = Some item ∧ key_of i item = Ok (key, kg_digest g);
}.

Lemma grouped_nodup items n digests groups by_digest :
  grouped items n digests groups by_digest → NoDup (kg_digest <$> groups).
Proof.
  intros Hg. apply NoDup_alt. intros i j d. rewrite !list_lookup_fmap.
  intros Hi%(gd_by _ _ _ _ _ Hg) Hj%(gd_by _ _ _ _ _ Hg). congruence.
Qed.

Lemma grouped_old items n digests groups by_digest g i d :
  grouped items n digests groups by_digest → g ∈ groups → i ∈ kg_indexes g →
  (digests ++ [d]) !! i = Some (kg_digest g) ∧ ∃ item key, items !! i = Some item ∧ key_of i item = Ok (key, kg_digest g).
Proof.
  intros Hg Hin Hi. destruct (gd_index _ _ _ _ _ Hg g i Hin Hi) as [Hd Hk]. split; [by apply lookup_app_l_Some|done].
Qed.

Lemma alter_split (groups : list keyGroup) gi g index :
  groups !! gi = Some g →
  (alter (add_index index) gi groups ≫= kg_indexes) ≡ₚ index :: (groups ≫= kg_indexes) ∧
  kg_digest <$> alter (add_index index) gi groups = kg_digest <$> groups ∧
  (∀ g', g' ∈ alter (add_index index) gi groups → g' ∈ groups ∨ g' = add_index index g).
Proof.
  revert gi. induction groups as [|g0 groups IH]; intros [|gi] Hgi; simplify_eq/=.
  - split_and!; [solve_Permutation|done|]. intros g' [->|Hin]%elem_of_cons; [by right|left; by right].
  - destruct (IH gi Hgi) as (Hp & Hd & Hin). split_and!.
    + change (alter (add_index index) (S gi) (g0 :: groups)) with (g0 :: alter (add_index index) gi groups).
      simpl. rewrite Hp. solve_Permutation.
    + change (alter (add_index index) (S gi) (g0 :: groups)) with (g0 :: alter (add_index index) gi groups).
      simpl. by rewrite Hd.
    + intros g' [->|Hg']%elem_of_cons; [left; by left|]. destruct (Hin g' Hg'); [left; by right|by right].
Qed.

Fixpoint index_from (n : nat) (items : list T) : list (nat * T) :=
  match items with [] => [] | x :: items => (n, x) :: index_from (S n) items end.

Lemma imap_pair_from (items : list T) : imap pair items = index_from 0 items.
Proof.
  assert (∀ n, imap (λ i, pair (n + i)%nat) items = index_from n items) as H; [|by rewrite <-(H 0%nat)].
  induction items as [|x items IH]; intros n; simpl; [done|]. rewrite Nat.add_0_r. f_equal.
  rewrite <-IH. apply imap_ext. intros i y _. simpl. f_equal. lia.
Qed.

(** A key seen before. *)
Lemma grouped_again items n digests groups by_digest item key d gi :
  grouped items n digests groups by_digest → items !! n = Some item → key_of n item = Ok (key, d) →
  by_digest !! d = Some gi →
  grouped items (S n) (digests ++ [d]) (alter (add_index n) gi groups) by_digest.
Proof.
  intros Hg Hitem Hkey Hby. pose proof Hg as [Hlen Hix Hd Hgr _]. apply Hd in Hby.
  destruct (groups !! gi) as [g|] eqn:Hgi; [|done]. injection Hby as Hdg.
  destruct (alter_split groups gi g n Hgi) as (Hp & Hdig & Hin). pose proof (list_elem_of_lookup_2 _ _ _ Hgi) as Hing.
  split.
  - rewrite length_app. simpl. lia.
  - rewrite Hp, Hix, seq_S. by rewrite Permutation_app_comm.
  - intros d' gi'. rewrite Hd, <-!list_lookup_fmap, Hdig. done.
  - intros g' [Hg'| ->]%Hin; [by apply Hgr|]. destruct (Hgr g Hing) as (i & rest & Hi & Hit & Hk).
    exists i, (rest ++ [n]). simpl. by rewrite Hi.
  - intros g' i [Hg'| ->]%Hin Hi; [by eapply grouped_old|]. simpl in *. apply elem_of_app in Hi as [Hi|Hi].
    + by eapply grouped_old.
    + apply list_elem_of_singleton in Hi as ->. rewrite lookup_app_r, Hlen, Nat.sub_diag by lia. subst d.
      split; [done|]. eauto.
Qed.

(** A new key. *)
Lemma grouped_new items n digests groups by_digest item key d :
  grouped items n digests groups by_digest → items !! n = Some item → key_of n item = Ok (key, d) →
  by_digest !! d = None →
  grouped items (S n) (digests ++ [d]) (groups ++ [KeyGroup key d item [n]]) (<[d := length groups]> by_digest).
Proof.
  intros Hg Hitem Hkey Hby. pose proof Hg as [Hlen Hix Hd Hgr _]. split.
  - rewrite length_app. simpl. lia.
  - rewrite bind_app, Hix, seq_S. done.
  - intros d' gi. destruct (decide (d' = d)) as [->|Hne].
    + rewrite lookup_insert_eq. split.
      * intros [= <-]. by rewrite lookup_app_r, Nat.sub_diag by lia.
      * intros Hgi. destruct (decide (gi < length groups)%nat) as [Hlt|Hge].
        -- rewrite lookup_app_l in Hgi by done. apply Hd in Hgi. congruence.
        -- rewrite lookup_app_r in Hgi by lia. destruct (gi - length groups)%nat as [|k] eqn:Hk; [f_equal; lia|done].
    + rewrite lookup_insert_ne by done. rewrite Hd. destruct (decide (gi < length groups)%nat) as [Hlt|Hge].
      * by rewrite lookup_app_l.
      * rewrite lookup_app_r by lia. rewrite lookup_ge_None_2 by lia. split; [done|].
        destruct (gi - length groups)%nat as [|k]; [|done]. simpl. congruence.
  - intros g [Hin|Hin]%elem_of_app; [by apply Hgr|]. apply list_elem_of_singleton in Hin as ->. by exists n, [].
  - intros g i [Hin|Hin]%elem_of_app Hi; [by eapply grouped_old|]. apply list_elem_of_singleton in Hin as ->. simpl in *.
    apply list_elem_of_singleton in Hi as ->. rewrite lookup_app_r, Hlen, Nat.sub_diag by lia. split; [done|]. eauto.
Qed.

Lemma group_loop_spec pre rest digests groups by_digest ds gs :
  grouped (pre ++ rest) (length pre) digests groups by_digest →
  group_loop (index_from (length pre) rest) digests groups by_digest = (ds, Ok gs) →
  ∃ by', grouped (pre ++ rest) (length (pre ++ rest)) ds gs by'.
Proof.
  revert pre digests groups by_digest. induction rest as [|x rest IH]; intros pre digests groups by_digest Hg; simpl.
  - intros [= <- <-]. exists by_digest. by rewrite app_nil_r in *.
  - destruct (key_of (length pre) x) as [[key d]|e] eqn:Hk; [|done].
    assert ((pre ++ x :: rest) !! length pre = Some x) as Hx by by apply list_lookup_middle.
    assert (pre ++ x :: rest = (pre ++ [x]) ++ rest) as Heq by by rewrite <-app_assoc.
    assert (S (length pre) = length (pre ++ [x])) as Hlen by (rewrite length_app; simpl; lia).
    destruct (by_digest !! d) as [gi|] eqn:Hby; intros Hloop; rewrite Heq, Hlen in *; eapply IH; try exact Hloop;
      rewrite <-Hlen; [by eapply grouped_again|by eapply grouped_new].
Qed.

(** Every item is in exactly one group, that of its digest; groups have different
    digests and stand in the order of the first items, whose key they carry. *)
Record well_grouped (items : list T) (digests : list string) (groups : list keyGroup) : Prop := {
  wg_length : length digests = length items;
  wg_indexes : (groups ≫= kg_indexes) ≡ₚ seq 0 (length items);
  wg_distinct : NoDup (kg_digest <$> groups);
  wg_group g : g ∈ groups → ∃ i rest, kg_indexes g = i :: rest ∧ items !! i = Some (kg_item g) ∧
    key_of i (kg_item g) = Ok (kg_key g, kg_digest g);
  wg_index g i : g ∈ groups → i ∈ kg_indexes g →
    digests !! i = Some (kg_digest g) ∧ ∃ item key, items !! i = Some item ∧ key_of i item = Ok (key, kg_digest g);
}.

Lemma group_items_spec items digests groups :
  group_items items = (digests, Ok groups) → well_grouped items digests groups.
Proof.
  unfold group_items. rewrite imap_pair_from. intros Hloop.
  destruct (group_loop_spec [] items [] [] ∅ digests groups) as (by' & Hg); [|done|].
  - split; simpl; [done|done| | |]; try (by intros g ?%elem_of_nil).
    + intros d gi. by rewrite lookup_empty.
    + by intros g i ?%elem_of_nil.
  - pose proof Hg as []. split; try done. by eapply grouped_nodup.
Qed.

Lemma well_grouped_find items digests groups i item :
  well_grouped items digests groups → items !! i = Some item →
  ∃ g, g ∈ groups ∧ i ∈ kg_indexes g.
Proof.
  intros Hg Hi. assert (i ∈ groups ≫= kg_indexes) as (g & ? & ?)%list_elem_of_bind; [|eauto].
  rewrite (wg_indexes _ _ _ Hg), elem_of_seq. apply lookup_lt_Some in Hi. lia.
Qed.
End groups.
Arguments keyGroup : clear implicits.

(** ** Batches *)

(** [for start := 0; start < len(misses); start += size]: one round per batch, and
    [fuel] rounds are enough when it is at least the number of items. *)
Section batches.
Context {A : Type} (size : nat).

Fixpoint cut (fuel : nat) (l : list A) : list (list A) :=
  match fuel, l with
  | S fuel, _ :: _ => take size l :: cut fuel (drop size l)
  | _, _ => []
  end.
Definition batches (l : list A) : list (list A) := cut (length l) l.

Lemma batches_spec l :
  (0 < size)%nat → mjoin (batches l) = l ∧ Forall (λ b, b ≠ [] ∧ (length b ≤ size)%nat) (batches l).
Proof.
  intros Hs. unfold batches. assert (∀ fuel l, (length l ≤ fuel)%nat →
    mjoin (cut fuel l) = l ∧ Forall (λ b, b ≠ [] ∧ (length b ≤ size)%nat) (cut fuel l)) as H; [|by apply H].
  induction fuel as [|fuel IH]; intros [|x k] Hk; simpl in *; try (split; [done|constructor]); [lia|].
  destruct (IH (drop size (x :: k))) as [Hj Hf]; [rewrite length_drop; simpl; lia|]. split.
  - rewrite Hj. apply take_drop.
  - constructor; [|done]. rewrite length_take. split; [destruct size; [lia|done]|lia].
Qed.
End batches.
