(* ===== verification/CachedMap.v ===== *)
(** * Cached maps: execution/cached_map.go and execution/cached_batch_map.go

    [MapCached] groups the items by key (Groups.v), loads every group from the cache,
    runs [Map] (BoundedMap.v) over the groups that were not found, stores each result
    as it completes and spreads the results over the duplicates; [MapCachedBatches]
    hands the missing groups to the work function in batches.  What the workers share
    (the outcomes of the report and the two atomic counters) is a part of the world
    the Map runs in, [mapw]; what only the caller's goroutine touches is threaded
    through the loading loop. *)

From S2P Require Import Prelude GoError GoStrings Go Limits Budget Rate Chain ErrGroup BoundedMap Digest Json.
From S2P Require Import Cache Report Groups.

(** [Cache]: [Load] yields [None] when no entry exists. *)
Record cache (W : Type) := MkCache {
  cache_Load (V : Type) `{Codec V} : ctx → Key → prog W (res (option V));
  cache_Store (V : Type) `{Codec V} : ctx → Key → V → prog W (res unit);
}.
Arguments cache_Load {W} _ V {_} _ _.
Arguments cache_Store {W} _ V {_} _ _ _.

Record CacheReport := MkCacheReport {
  cr_Hits : Z;
  cr_Misses : Z;
  cr_Writes : Z;
  cr_WorkCalls : Z;
  cr_Outcomes : list CacheOutcome;
}.

Definition set_State (st : CacheState) (o : CacheOutcome) : CacheOutcome := MkOutcome (KeyDigest o) st.

(** The world of the workers. *)
Record mapw (W : Type) := MapW {
  mw_base : W;
  mw_outcomes : list CacheOutcome;
  mw_writes : Z;
  mw_calls : Z;
}.
Arguments MapW {_} _ _ _ _.
Arguments mw_base {_} _.
Arguments mw_outcomes {_} _.
Arguments mw_writes {_} _.
Arguments mw_calls {_} _.

Definition set_base {W} (w : W) (u : mapw W) : mapw W := MapW w (mw_outcomes u) (mw_writes u) (mw_calls u).

#[export] Program Instance mapw_base W : Has W (mapw W) | 5 := {| inside := mw_base; replace := set_base |}.
Solve All Obligations with by intros; repeat match goal with u : mapw _ |- _ => destruct u end.

#[export] Program Instance mapw_limits U W `{!Has (limits U) W} : Has (limits U) (mapw W) | 5 :=
  {| inside u := inside (mw_base u); replace l u := set_base (replace l (mw_base u)) u |}.
Next Obligation. intros. simpl. apply inside_replace. Qed.
Next Obligation. intros U W ? []. unfold set_base. simpl. by rewrite replace_inside. Qed.
Next Obligation. intros U W ? l l' []. unfold set_base. simpl. by rewrite replace_replace. Qed.

Section cached.
Context {U W : Type} `{!Has (limits U) W} {EG : ErrGroup} {T R : Type} `{!Codec R} (zero : R).

(** What happens around the call leaves the variables of the call alone. *)
Definition around (Env : W → W → Prop) (u u' : mapw W) : Prop :=
  Env (mw_base u) (mw_base u') ∧ u' = set_base (mw_base u') u.

Definition count_call : prog (mapw W) unit :=
  modify (λ u, MapW (mw_base u) (mw_outcomes u) (mw_writes u) (mw_calls u +! 1)).
Definition count_write : prog (mapw W) unit :=
  modify (λ u, MapW (mw_base u) (mw_outcomes u) (mw_writes u +! 1) (mw_calls u)).
(** [report.Outcomes[index].State = CacheStored], and the outcome. *)
Definition mark_stored (index : nat) : prog (mapw W) CacheOutcome :=
  atomic (λ u, (MapW (mw_base u) (alter (set_State CacheStored) index (mw_outcomes u)) (mw_writes u) (mw_calls u),
                set_State CacheStored (default no_outcome (mw_outcomes u !! index)))).

(** The key of an item. *)
Definition item_key (Key_of : T → res Key) (index : nat) (item : T) : res (Key * string) :=
  match Key_of item with
  | Err e => Err (Errorf "item %d: build cache key: %w" [ArgInt (Z.of_nat index); ArgWrap e])
  | Ok key =>
      match Key_Digest key with
      | Err e => Err (Errorf "item %d: validate cache key: %w" [ArgInt (Z.of_nat index); ArgWrap e])
      | Ok d => Ok (key, d)
      end
  end.

Definition pending (n : nat) (digests : list string) : list CacheOutcome :=
  ((λ d, MkOutcome d CachePending) <$> digests) ++ replicate (n - length digests) no_outcome.

(** ** Loading *)

(** The variables of the caller's goroutine: hits, misses, outcomes and results. *)
Record loading := Loading { ld_hits : Z; ld_misses : Z; ld_outcomes : list CacheOutcome; ld_results : list R }.

Definition ld_report (st : loading) : CacheReport :=
  MkCacheReport (ld_hits st) (ld_misses st) 0 0 (ld_outcomes st).

Definition hit (index : nat) (value : R) (st : loading) : loading :=
  Loading (ld_hits st +! 1) (ld_misses st) (alter (set_State CacheHit) index (ld_outcomes st))
    (<[index := value]> (ld_results st)).
Definition miss (indexes : list nat) (st : loading) : loading :=
  Loading (ld_hits st) (ld_misses st +! Z.of_nat (length indexes)) (ld_outcomes st) (ld_results st).

Context (notify : nat → R → CacheOutcome → prog W (res unit)).

Definition about (what : string) (index : nat) (e : error) : error :=
  Errorf (what +:+ " %d: %w") [ArgInt (Z.of_nat index); ArgWrap e].

Fixpoint hit_loop (value : R) (indexes : list nat) (st : loading) : prog W (loading * res unit) :=
  match indexes with
  | [] => mret (st, Ok tt)
  | index :: indexes =>
      let st := hit index value st in
      r ← notify index value (default no_outcome (ld_outcomes st !! index));
      match r with
      | Err e => mret (st, Err (about "notify cached result" index e))
      | Ok _ => hit_loop value indexes st
      end
  end.

Fixpoint load_loop (store : cache W) (c : ctx) (groups misses : list (keyGroup T)) (st : loading)
    : prog W (loading * res (list (keyGroup T))) :=
  match groups with
  | [] => mret (st, Ok misses)
  | g :: groups =>
      loaded ← cache_Load store R c (kg_key g);
      match loaded with
      | Err e => mret (st, Err (about "load cache item" (default 0%nat (head (kg_indexes g))) e))
      | Ok None => load_loop store c groups (misses ++ [g]) (miss (kg_indexes g) st)
      | Ok (Some value) =>
          out ← hit_loop value (kg_indexes g) st;
          match out.2 with
          | Err e => mret (out.1, Err e)
          | Ok _ => load_loop store c groups misses out.1
          end
      end
  end.

(** ** MapCached *)

Record completed := Completed { cp_value : R; cp_indexes : list nat }.
Definition nothing : completed := Completed zero [].

Definition mark_all (value : R) (indexes : list nat) : prog (mapw W) (res unit) :=
  for_each indexes (λ index,
    o ← mark_stored index;
    annotate (about "notify stored result" index) (zoom (notify index value o))).

Definition miss_work (store : cache W) (work : ctx → T → prog W (res R)) (c : ctx) (g : keyGroup T)
    : prog (mapw W) (res completed) :=
  _ ← count_call;
  value ←? zoom (work c (kg_item g));
  _ ←? annotate (λ e, Errorf "store cache result: %w" [ArgWrap e])
         (zoom (cache_Store store R (WithoutCancel c) (kg_key g) value));
  _ ← count_write;
  _ ←? mark_all value (kg_indexes g);
  mret (Ok (Completed value (kg_indexes g))).

(** [results[index] = result.value] for every index of every result. *)
Definition spread (value : R) (indexes : list nat) (results : list R) : list R :=
  foldl (λ rs index, <[index := value]> rs) results indexes.
Definition spread_all (cs : list completed) (results : list R) : list R :=
  foldl (λ rs c, spread (cp_value c) (cp_indexes c) rs) results cs.

Definition group_cost (options : MapOptions U T) (g : keyGroup T) : Z :=
  match Cost options with None => 1 | Some f => f (kg_item g) end.
Definition miss_options (options : MapOptions U T) : MapOptions U (keyGroup T) :=
  MkMapOptions (Workers options) (opt_Limiter options) (Some (group_cost options)).

(** The locals when loading begins. *)
Definition load_start (n : nat) (digests : list string) : loading :=
  Loading 0 0 (pending n digests) (replicate n zero).

Definition final_report (st : loading) (u : mapw W) : CacheReport :=
  MkCacheReport (ld_hits st) (ld_misses st) (mw_writes u) (mw_calls u) (mw_outcomes u).
End cached.
Arguments loading : clear implicits.
Arguments completed : clear implicits.

Section calls.
Context {U W : Type} `{!Has (limits U) W} {EG : ErrGroup} {T R : Type} `{!Codec R} (zero : R).
Notation callback := (nat → R → CacheOutcome → prog W (res unit)).
Context (Env : W → W → Prop) (c : ctx) (items : list T).

Record CachedMapOptions := MkCachedMapOptions {
  co_Map : MapOptions U T;
  co_Cache : option (cache W);
  co_Key : option (T → res Key);
}.

Definition silent : callback := λ _ _ _, mret (Ok tt).

Definition cached_args (options : CachedMapOptions) (work : option (ctx → T → prog W (res R)))
    (onResult : list (option callback))
    : res (cache W * (T → res Key) * (ctx → T → prog W (res R)) * callback) :=
  match co_Cache options with
  | None => Err (New "cache is required")
  | Some store =>
      match co_Key options with
      | None => Err (New "cache key function is required")
      | Some key =>
          match work with
          | None => Err (New "work function is required")
          | Some work =>
              match onResult with
              | [] => Ok (store, key, work, silent)
              | [Some f] => Ok (store, key, work, f)
              | _ => Err (New "at most one non-nil result callback is allowed")
              end
          end
      end
  end.

Definition fresh_report : CacheReport := MkCacheReport 0 0 0 0 (replicate (length items) no_outcome).
Definition keyed_report (digests : list string) : CacheReport :=
  MkCacheReport 0 0 0 0 (pending (length items) digests).

(** What is left to do once the groups have been loaded: the results at once, or the
    work on the missing groups. *)
Definition load_run (store : cache W) (notify : callback) (digests : list string) (groups : list (keyGroup T)) :=
  load_loop notify store c groups [] (load_start zero (length items) digests).

(** What [MapCached] can return. *)
Inductive MapCached_returns (options : CachedMapOptions) (work : option (ctx → T → prog W (res R)))
    (onResult : list (option callback)) (w : W) : W → res (list R) * CacheReport → Prop :=
| cached_refused e :
    cached_args options work onResult = Err e →
    MapCached_returns options work onResult w w (Err e, fresh_report)
| cached_nothing args :
    cached_args options work onResult = Ok args → length items = 0%nat →
    MapCached_returns options work onResult w w (Ok [], fresh_report)
| cached_bad_key store key do notify digests e :
    cached_args options work onResult = Ok (store, key, do, notify) → items ≠ [] →
    group_items (item_key key) items = (digests, Err e) →
    MapCached_returns options work onResult w w (Err e, keyed_report digests)
| cached_load_failed store key do notify digests groups w' st e :
    cached_args options work onResult = Ok (store, key, do, notify) → items ≠ [] →
    group_items (item_key key) items = (digests, Ok groups) →
    runs Env (load_run store notify digests groups) w w' (st, Err e) →
    MapCached_returns options work onResult w w' (Err e, ld_report st)
| cached_all_hits store key do notify digests groups w' st :
    cached_args options work onResult = Ok (store, key, do, notify) → items ≠ [] →
    group_items (item_key key) items = (digests, Ok groups) →
    runs Env (load_run store notify digests groups) w w' (st, Ok []) →
    MapCached_returns options work onResult w w' (Ok (ld_results st), ld_report st)
| cached_worked store key do notify digests groups w1 st misses u r :
    cached_args options work onResult = Ok (store, key, do, notify) → items ≠ [] →
    group_items (item_key key) items = (digests, Ok groups) →
    runs Env (load_run store notify digests groups) w w1 (st, Ok misses) → misses ≠ [] →
    Map_returns (nothing zero) (around Env) c misses (miss_options (co_Map options))
      (MapW w1 (ld_outcomes st) 0 0) (Some (miss_work notify store do)) u r →
    MapCached_returns options work onResult w (mw_base u)
      ((λ cs, spread_all cs (ld_results st)) <$> r, final_report st u).

(** ** MapCachedBatches *)

Record CachedBatchMapOptions := MkCachedBatchMapOptions {
  cb_Workers : Z;
  cb_Limiter : option (Limiter U);
  cb_Cost : option (T → Z);
  BatchSize : Z;
  cb_Cache : option (cache W);
  cb_Key : option (T → res Key);
}.

Definition batch_args (options : CachedBatchMapOptions) (work : option (ctx → list T → prog W (res (list R))))
    : res (cache W * (T → res Key) * (ctx → list T → prog W (res (list R)))) :=
  match cb_Cache options with
  | None => Err (New "cache is required")
  | Some store =>
      match cb_Key options with
      | None => Err (New "cache key function is required")
      | Some key =>
          match work with
          | None => Err (New "batch work function is required")
          | Some work =>
              if BatchSize options <? 1 then Err (New "batch size must be positive")
              else Ok (store, key, work)
          end
      end
  end.

Record batch := Batch { bt_groups : list (keyGroup T); bt_cost : Z }.

(** The cost of a batch: the sum of the items' costs, each of which is positive. *)
Fixpoint batch_cost (cost : option (T → Z)) (groups : list (keyGroup T)) (acc : Z) : res Z :=
  match groups with
  | [] => Ok acc
  | g :: groups =>
      let itemCost := match cost with None => 1 | Some f => f (kg_item g) end in
      if itemCost <? 1 then
        Err (Errorf "item %d: resource cost must be positive" [ArgInt (Z.of_nat (default 0%nat (head (kg_indexes g))))])
      else batch_cost cost groups (acc +! itemCost)
  end.

Fixpoint make_batches (cost : option (T → Z)) (l : list (list (keyGroup T))) : res (list batch) :=
  match l with
  | [] => Ok []
  | groups :: l =>
      match batch_cost cost groups 0 with
      | Err e => Err e
      | Ok total => match make_batches cost l with Err e => Err e | Ok bs => Ok (Batch groups total :: bs) end
      end
  end.

(** One value after the other is stored and marked. *)
Fixpoint store_values (store : cache W) (inner : ctx) (groups : list (keyGroup T)) (values : list R)
    : prog (mapw W) (res unit) :=
  match groups, values with
  | g :: groups, value :: values =>
      _ ←? annotate (about "store cache result" (default 0%nat (head (kg_indexes g))))
             (zoom (cache_Store store R (WithoutCancel inner) (kg_key g) value));
      _ ← count_write;
      _ ←? for_each (kg_indexes g) (λ index, _ ← mark_stored index; mret (Ok tt));
      store_values store inner groups values
  | _, _ => mret (Ok tt)
  end.

Definition batch_work (store : cache W) (work : ctx → list T → prog W (res (list R))) (inner : ctx) (b : batch)
    : prog (mapw W) (res (list (completed R))) :=
  _ ← count_call;
  values ←? zoom (work inner (kg_item <$> bt_groups b));
  if negb (bool_decide (length values = length (bt_groups b))) then
    mret (Err (Errorf "batch work returned %d results for %d items"
                 [ArgInt (Z.of_nat (length values)); ArgInt (Z.of_nat (length (bt_groups b)))]))
  else
    _ ←? store_values store inner (bt_groups b) values;
    mret (Ok (zip_with (λ g value, Completed value (kg_indexes g)) (bt_groups b) values)).

(** The capacity of [batches], computed in 64 bits; a negative one makes [make] panic. *)
Definition batch_capacity (misses size : Z) : Z := Z.quot ((misses +! size) -! 1) size.

Definition batch_options (options : CachedBatchMapOptions) : MapOptions U batch :=
  MkMapOptions (cb_Workers options) (cb_Limiter options) (Some bt_cost).

(** What [MapCachedBatches] can return. *)
Inductive MapCachedBatches_returns (options : CachedBatchMapOptions)
    (work : option (ctx → list T → prog W (res (list R)))) (w : W) : W → res (list R) * CacheReport → Prop :=
| batches_refused e :
    batch_args options work = Err e →
    MapCachedBatches_returns options work w w (Err e, fresh_report)
| batches_nothing args :
    batch_args options work = Ok args → length items = 0%nat →
    MapCachedBatches_returns options work w w (Ok [], fresh_report)
| batches_bad_key store key do digests e :
    batch_args options work = Ok (store, key, do) → items ≠ [] →
    group_items (item_key key) items = (digests, Err e) →
    MapCachedBatches_returns options work w w (Err e, keyed_report digests)
| batches_load_failed store key do digests groups w' st e :
    batch_args options work = Ok (store, key, do) → items ≠ [] →
    group_items (item_key key) items = (digests, Ok groups) →
    runs Env (load_run store silent digests groups) w w' (st, Err e) →
    MapCachedBatches_returns options work w w' (Err e, ld_report st)
| batches_all_hits store key do digests groups w' st :
    batch_args options work = Ok (store, key, do) → items ≠ [] →
    group_items (item_key key) items = (digests, Ok groups) →
    runs Env (load_run store silent digests groups) w w' (st, Ok []) →
    MapCachedBatches_returns options work w w' (Ok (ld_results st), ld_report st)
| batches_bad_cost store key do digests groups w' st misses e :
    batch_args options work = Ok (store, key, do) → items ≠ [] →
    group_items (item_key key) items = (digests, Ok groups) →
    runs Env (load_run store silent digests groups) w w' (st, Ok misses) → misses ≠ [] →
    0 ≤ batch_capacity (Z.of_nat (length misses)) (BatchSize options) →
    make_batches (cb_Cost options) (batches (Z.to_nat (BatchSize options)) misses) = Err e →
    MapCachedBatches_returns options work w w' (Err e, ld_report st)
| batches_worked store key do digests groups w1 st misses bs u r :
    batch_args options work = Ok (store, key, do) → items ≠ [] →
    group_items (item_key key) items = (digests, Ok groups) →
    runs Env (load_run store silent digests groups) w w1 (st, Ok misses) → misses ≠ [] →
    0 ≤ batch_capacity (Z.of_nat (length misses)) (BatchSize options) →
    make_batches (cb_Cost options) (batches (Z.to_nat (BatchSize options)) misses) = Ok bs →
    Map_returns [] (around Env) c bs (batch_options options) (MapW w1 (ld_outcomes st) 0 0)
      (Some (batch_work store do)) u r →
    MapCachedBatches_returns options work w (mw_base u)
      ((λ cs, spread_all (mjoin cs) (ld_results st)) <$> r, final_report st u).
End calls.
Arguments batch : clear implicits.
