(* ===== verification/CachedMapProofs.v ===== *)
(** * Cached maps are the plain map: proofs for CachedMap.v

    The loading loop is described by what every lookup answered ([replayed]), the
    workers by an account of their counters and of the outcomes they marked.
    [MapCached_contract] says where every result and every outcome of the report
    comes from; [served_transparent] that a cache whose entries are right cannot
    be told from none. *)

From S2P Require Import Prelude GoError GoStrings Go Limits Budget Rate Chain ErrGroup BoundedMap Digest Json.
From S2P Require Import Cache Report Groups CachedMap.

Section spreading.
Context {R : Type}.
Implicit Types (rs : list R) (indexes : list nat).

Lemma spread_length value indexes rs : length (spread value indexes rs) = length rs.
Proof.
  unfold spread. revert rs. induction indexes as [|i indexes IH]; intros rs; simpl; [done|]. by rewrite IH, length_insert.
Qed.

Lemma spread_lookup value indexes rs i :
  (i < length rs)%nat →
  spread value indexes rs !! i = if decide (i ∈ indexes) then Some value else rs !! i.
Proof.
  unfold spread. revert rs. induction indexes as [|j indexes IH]; intros rs Hi; cbn [foldl].
  - rewrite decide_False by by intros ?%elem_of_nil. done.
  - rewrite IH by by rewrite length_insert. destruct (decide (i ∈ indexes)) as [Hin|Hin].
    + rewrite decide_True by by right. done.
    + destruct (decide (i = j)) as [->|Hne].
      * rewrite decide_True by by left. by apply list_lookup_insert_eq.
      * rewrite decide_False by (intros [?|?]%elem_of_cons; done). by rewrite list_lookup_insert_ne.
Qed.

Lemma spread_all_length (cs : list (completed R)) rs : length (spread_all cs rs) = length rs.
Proof.
  unfold spread_all. revert rs. induction cs as [|c cs IH]; intros rs; simpl; [done|]. by rewrite IH, spread_length.
Qed.

(** Completed groups with different indexes: each result is where its group says. *)
Lemma spread_all_lookup (cs : list (completed R)) rs i :
  NoDup (cs ≫= cp_indexes) → (i < length rs)%nat →
  (∀ c, c ∈ cs → i ∈ cp_indexes c → spread_all cs rs !! i = Some (cp_value c)) ∧
  (i ∉ cs ≫= cp_indexes → spread_all cs rs !! i = rs !! i).
Proof.
  unfold spread_all. revert rs. induction cs as [|c cs IH]; intros rs Hnd Hi; simpl; [by split; [intros c ?%elem_of_nil|]|].
  rewrite bind_cons in Hnd. apply NoDup_app in Hnd as (Hc & Hdisj & Hcs).
  destruct (IH (spread (cp_value c) (cp_indexes c) rs) Hcs) as [IH1 IH2]; [by rewrite spread_length|]. split.
  - intros c' [->|Hc']%elem_of_cons Hic; [|by apply IH1].
    rewrite IH2 by by apply Hdisj. rewrite spread_lookup by done. by rewrite decide_True.
  - intros [Hic Hics]%not_elem_of_app. rewrite IH2, spread_lookup by done. by rewrite decide_False.
Qed.
End spreading.

(** ** The loading loop *)

Section loading.
Context {W T R : Type} `{!Codec R}.
Implicit Types (st : loading R) (g : keyGroup T) (answers : list (keyGroup T * option R)).

(** What a lookup that answered [o] does to the locals. *)
Definition answered (st : loading R) (a : keyGroup T * option R) : loading R :=
  match a.2 with
  | Some value => foldl (λ st index, hit index value st) st (kg_indexes a.1)
  | None => miss (kg_indexes a.1) st
  end.
Definition replayed answers st : loading R := foldl answered st answers.

Definition missed (answers : list (keyGroup T * option R)) : list (keyGroup T) :=
  omap (λ a, match a.2 with Some _ => None | None => Some a.1 end) answers.
Definition found (answers : list (keyGroup T * option R)) : list (keyGroup T) :=
  omap (λ a, match a.2 with Some _ => Some a.1 | None => None end) answers.

Context (P : W → Prop) (LoadQ : Key → R → Prop) (notify : nat → R → CacheOutcome → prog W (res unit)).
Notation keeps Q p := (owns (λ w (_ : unit), P w) (λ r _, Q r) p tt).
Context (Hnotify : ∀ i v o, keeps (λ _, True) (notify i v o)).

Lemma keeps_hit_loop value indexes st :
  keeps (λ out, out.2 = Ok tt → out.1 = foldl (λ st index, hit index value st) st indexes)
    (hit_loop notify value indexes st).
Proof.
  revert st. induction indexes as [|i indexes IH]; intros st; [by apply owns_ret|]. cbn [hit_loop].
  eapply owns_bind'; [apply Hnotify|]. intros [[]|e] [] _; [apply IH|by apply owns_ret].
Qed.

Context (store : cache W) (c : ctx).
Context (Hload : ∀ key, keeps (λ r, ∀ v, r = Ok (Some v) → LoadQ key v) (cache_Load store R c key)).

Lemma keeps_load_loop groups misses st :
  keeps (λ out, ∀ ms, out.2 = Ok ms → ∃ answers, answers.*1 = groups ∧
           ms = misses ++ missed answers ∧ out.1 = replayed answers st ∧
           ∀ g v, (g, Some v) ∈ answers → LoadQ (kg_key g) v)
    (load_loop notify store c groups misses st).
Proof.
  revert misses st. induction groups as [|g groups IH]; intros misses st; cbn [load_loop].
  - apply owns_ret. intros ms [= <-]. exists []. split_and!; [done|by rewrite app_nil_r|done|]. by intros g v ?%elem_of_nil.
  - eapply owns_bind'; [apply Hload|]. intros [[value|]|e] [] HQ; [| |by apply owns_ret].
    + eapply owns_bind'; [apply keeps_hit_loop|]. intros [st' [[]|e]] [] Hst; [|by apply owns_ret].
      simpl in Hst. rewrite (Hst eq_refl). eapply owns_conseq; [apply IH|].
      intros out [] Hout ms Hms. destruct (Hout ms Hms) as (answers & Hg & -> & Ho & Hl).
      exists ((g, Some value) :: answers). split_and!; [by rewrite fmap_cons, Hg|done|by rewrite Ho|].
      intros g' v [[= -> ->]|Hin]%elem_of_cons; [by apply HQ|by apply Hl].
    + eapply owns_conseq; [apply IH|]. intros out [] Hout ms Hms.
      destruct (Hout ms Hms) as (answers & Hg & -> & Ho & Hl). exists ((g, None) :: answers).
      split_and!; [by rewrite fmap_cons, Hg|by rewrite <-app_assoc|by rewrite Ho|].
      intros g' v [[=]|Hin]%elem_of_cons. by apply Hl.
Qed.

(** ** What the locals show afterwards *)

Lemma hits_spec value indexes st :
  let st' := foldl (λ st index, hit index value st) st indexes in
  (∀ h, ld_hits st = wrap64 h → ld_hits st' = wrap64 (h + Z.of_nat (length indexes))) ∧
  ld_misses st' = ld_misses st ∧ length (ld_results st') = length (ld_results st) ∧
  length (ld_outcomes st') = length (ld_outcomes st) ∧
  ∀ i, (i < length (ld_results st))%nat →
    ld_results st' !! i = (if decide (i ∈ indexes) then Some value else ld_results st !! i) ∧
    ld_outcomes st' !! i = (if decide (i ∈ indexes) then set_State CacheHit <$> ld_outcomes st !! i else ld_outcomes st !! i).
Proof.
  revert st. induction indexes as [|j indexes IH]; intros st; cbn [foldl].
  - split_and!; [|done|done|done|]; [intros h ->; simpl; f_equal; lia|]. intros i Hi.
    by rewrite !decide_False by by intros ?%elem_of_nil.
  - destruct (IH (hit j value st)) as (Hh & Hm & Hr & Ho & Hi). set (st' := foldl _ (hit j value st) indexes) in *. clearbody st'. simpl in *.
    rewrite length_insert in *. rewrite length_alter in *. split_and!; [|done|done|done|].
    + intros h Hst. rewrite (Hh (h + 1)); [f_equal; lia|]. by rewrite Hst, wrap64_succ.
    + intros i Hlt. destruct (Hi i Hlt) as [-> ->]. destruct (decide (i = j)) as [->|Hne].
      * rewrite !(decide_True (P := j ∈ j :: indexes)) by by left.
        rewrite list_lookup_insert_eq by done. rewrite list_lookup_alter_eq.
        destruct (decide (j ∈ indexes)); [|done]. split; [done|]. by destruct (ld_outcomes st !! j).
      * rewrite list_lookup_insert_ne, list_lookup_alter_ne by done.
        destruct (decide (i ∈ indexes)) as [Hin|Hin].
        -- by rewrite !decide_True by by right.
        -- by rewrite !decide_False by (intros [?|?]%elem_of_cons; done).
Qed.
End loading.

Section replayed.
Context {T R : Type}.
Implicit Types (st : loading R) (answers : list (keyGroup T * option R)).

Definition group_indexes answers : list nat := answers.*1 ≫= kg_indexes.

Lemma replayed_frame answers st i :
  (i < length (ld_results st))%nat → i ∉ group_indexes answers →
  ld_results (replayed answers st) !! i = ld_results st !! i ∧ ld_outcomes (replayed answers st) !! i = ld_outcomes st !! i.
Proof.
  unfold replayed. revert st. induction answers as [|[g o] answers IH]; intros st Hi; [done|]. cbn [foldl].
  unfold group_indexes. rewrite fmap_cons, bind_cons. intros [Hg Ha]%not_elem_of_app. simpl in Hg.
  assert (length (ld_results (answered st (g, o))) = length (ld_results st)) as Hlen.
  { unfold answered. destruct o as [v|]; [apply hits_spec|done]. }
  destruct (IH (answered st (g, o))) as [-> ->]; [by rewrite Hlen|done|]. unfold answered. destruct o as [v|]; [|done].
  destruct (hits_spec v (kg_indexes g) st) as (_ & _ & _ & _ & Hh). simpl. destruct (Hh i Hi) as [-> ->].
  by rewrite !decide_False.
Qed.

Lemma replayed_counts answers st h m :
  ld_hits st = wrap64 h → ld_misses st = wrap64 m →
  ld_hits (replayed answers st) = wrap64 (h + Z.of_nat (length (found answers ≫= kg_indexes))) ∧
  ld_misses (replayed answers st) = wrap64 (m + Z.of_nat (length (missed answers ≫= kg_indexes))) ∧
  length (ld_results (replayed answers st)) = length (ld_results st) ∧
  length (ld_outcomes (replayed answers st)) = length (ld_outcomes st).
Proof.
  unfold replayed. revert st h m. induction answers as [|[g o] answers IH]; intros st h m Hh Hm.
  - simpl. rewrite Hh, Hm. split_and!; try done; f_equal; lia.
  - cbn [foldl]. unfold answered at 2 4 6 8. destruct o as [v|].
    + destruct (hits_spec v (kg_indexes g) st) as (H1 & H2 & H3 & H4 & _). cbn [snd fst].
      destruct (IH (foldl (λ st index, hit index v st) st (kg_indexes g)) (h + Z.of_nat (length (kg_indexes g))) m) as (-> & -> & -> & ->);
        [by apply H1|by rewrite H2|]. 
      change (found ((g, Some v) :: answers)) with (g :: found answers). change (missed ((g, Some v) :: answers)) with (missed answers).
      by rewrite bind_cons, length_app, Nat2Z.inj_add, Z.add_assoc.
    + cbn [snd fst]. destruct (IH (miss (kg_indexes g) st) h (m + Z.of_nat (length (kg_indexes g)))) as (-> & -> & -> & ->);
        [done|simpl; by rewrite Hm, wrap64_succ|]. 
      change (missed ((g, None) :: answers)) with (g :: missed answers). change (found ((g, None) :: answers)) with (found answers).
      by rewrite bind_cons, length_app, Nat2Z.inj_add, Z.add_assoc.
Qed.

(** A group that was found has its value and the state "hit" at its indexes; one that
    was not is left as it was. *)
Lemma replayed_spec answers st g o i :
  NoDup (group_indexes answers) → (∀ j, j ∈ group_indexes answers → (j < length (ld_results st))%nat) →
  (g, o) ∈ answers → i ∈ kg_indexes g →
  match o with
  | Some v => ld_results (replayed answers st) !! i = Some v ∧
              ld_outcomes (replayed answers st) !! i = set_State CacheHit <$> ld_outcomes st !! i
  | None => ld_outcomes (replayed answers st) !! i = ld_outcomes st !! i
  end.
Proof.
  revert st. induction answers as [|[g0 o0] answers IH]; intros st Hnd Hlt Hin Hi; [by apply elem_of_nil in Hin|].
  unfold group_indexes in Hnd, Hlt. rewrite fmap_cons, bind_cons in Hnd, Hlt. simpl in Hnd, Hlt.
  apply NoDup_app in Hnd as (_ & Hdisj & Hnd).
  assert (length (ld_results (answered st (g0, o0))) = length (ld_results st)) as Hlen.
  { unfold answered. destruct o0 as [v|]; [apply hits_spec|done]. }
  change (replayed ((g0, o0) :: answers) st) with (replayed answers (answered st (g0, o0))).
  apply elem_of_cons in Hin as [[= -> ->]|Hin].
  - assert (i < length (ld_results st))%nat as Hil by (apply Hlt, elem_of_app; by left).
    destruct (replayed_frame answers (answered st (g0, o0)) i) as [Hr Ho]; [by rewrite Hlen|by apply Hdisj|].
    unfold answered in Hr, Ho |- *. destruct o0 as [v|]; simpl in Hr, Ho |- *; [|by rewrite Ho].
    destruct (hits_spec v (kg_indexes g0) st) as (_ & _ & _ & _ & Hh). destruct (Hh i Hil) as [H1 H2].
    rewrite Hr, Ho, H1, H2. by rewrite !decide_True.
  - assert (i ∈ group_indexes answers) as Hig.
    { apply list_elem_of_bind. exists g. split; [done|]. apply list_elem_of_fmap. by exists (g, o). }
    assert (i ∉ kg_indexes g0) as Hni by (intros Hg0; by apply (Hdisj i Hg0)).
    specialize (IH (answered st (g0, o0)) Hnd). rewrite Hlen in IH.
    specialize (IH ltac:(intros j Hj; apply Hlt, elem_of_app; by right) Hin Hi).
    assert (ld_outcomes (answered st (g0, o0)) !! i = ld_outcomes st !! i) as Heq.
    { unfold answered. destruct o0 as [v|]; [|done]. destruct (hits_spec v (kg_indexes g0) st) as (_ & _ & _ & _ & Hh).
      simpl. destruct (Hh i) as [_ ->]; [apply Hlt, elem_of_app; by right|]. by rewrite decide_False. }
    rewrite Heq in IH. exact IH.
Qed.

Lemma answers_split answers :
  answers.*1 ≡ₚ found answers ++ missed answers ∧
  (∀ g, g ∈ found answers ↔ ∃ v, (g, Some v) ∈ answers) ∧ (∀ g, g ∈ missed answers ↔ (g, None) ∈ answers).
Proof.
  split_and!.
  - unfold found, missed. induction answers as [|[g [v|]] answers IH]; simpl; [done| |]; rewrite IH; [done|].
    apply Permutation_middle.
  - intros g. unfold found. rewrite list_elem_of_omap. split.
    + intros ([g' [v|]] & Hin & [= <-]). by exists v.
    + intros [v Hin]. by exists (g, Some v).
  - intros g. unfold missed. rewrite list_elem_of_omap. split.
    + by intros ([g' [v|]] & Hin & [= <-]).
    + intros Hin. by exists (g, None).
Qed.
End replayed.

(** The result of a group's completed work. *)
Definition completes {T R} (WorkQ : T → R → Prop) (g : keyGroup T) (cp : completed R) : Prop :=
  ∃ v, cp = Completed v (kg_indexes g) ∧ WorkQ (kg_item g) v.

(** ** The workers *)

Section workers.
Context {U W : Type} `{!Has (limits U) W} {EG : ErrGroup} {T R : Type} `{!Codec R} (zero : R).
Context (P : W → Prop) (outs0 : list CacheOutcome).
Notation keeps Q p := (owns (λ w (_ : unit), P w) (λ r _, Q r) p tt).
(** Counted stores, counted calls and marked outcomes. *)
Notation M := (N * N * gmultiset nat)%type.

Record shared (u : mapw W) (γ : M) : Prop := {
  sh_base : P (mw_base u);
  sh_writes : mw_writes u = wrap64 (Z.of_N γ.1.1);
  sh_calls : mw_calls u = wrap64 (Z.of_N γ.1.2);
  sh_outcomes i : mw_outcomes u !! i =
    (if decide (i ∈ γ.2) then set_State CacheStored else id) <$> outs0 !! i;
}.
Notation does γ p := (owns shared (λ _ m, m = γ) p azero).

Lemma shared_begin w : P w → shared (MapW w outs0 0 0) azero.
Proof.
  intros Hw. split; simpl; try done. intros i. rewrite decide_False.
  - by destruct (outs0 !! i).
  - change (i ∉ (∅ : gmultiset nat)). multiset_solver.
Qed.

Lemma account_of_shared (n m : N) (s : gmultiset nat) (o : M) :
  ((n, m, s) : M) ⊹ o = ((n + o.1.1)%N, (m + o.1.2)%N, s ⊎ o.2).
Proof. done. Qed.

Lemma does_count_call : does (0%N, 1%N, ∅) count_call.
Proof.
  apply owns_atomic. intros u o Hu. exists (0%N, 1%N, ∅). split; [|done].
  change (azero : M) with ((0%N, 0%N, ∅) : M) in Hu. rewrite !account_of_shared in *.
  destruct Hu as [Hb Hw Hc Ho]. split; cbn [fst snd mw_base mw_writes mw_calls mw_outcomes] in *; [done|done| |done].
  rewrite Hc, wrap64_succ. f_equal. lia.
Qed.

Lemma does_count_write : does (1%N, 0%N, ∅) count_write.
Proof.
  apply owns_atomic. intros u o Hu. exists (1%N, 0%N, ∅). split; [|done].
  change (azero : M) with ((0%N, 0%N, ∅) : M) in Hu. rewrite !account_of_shared in *.
  destruct Hu as [Hb Hw Hc Ho]. split; cbn [fst snd mw_base mw_writes mw_calls mw_outcomes] in *; [done| |done|done].
  rewrite Hw, wrap64_succ. f_equal. lia.
Qed.

Lemma does_mark i : does (0%N, 0%N, {[+ i +]}) (mark_stored i).
Proof.
  apply owns_atomic. intros u o Hu. exists (0%N, 0%N, {[+ i +]}). split; [|done].
  change (azero : M) with ((0%N, 0%N, ∅) : M) in Hu. rewrite !account_of_shared in *.
  destruct Hu as [Hb Hw Hc Ho]. split; cbn [fst snd mw_base mw_writes mw_calls mw_outcomes] in *; [done|done|done|].
  rewrite (left_id_L ∅ disj_union) in Ho. intros j. destruct (decide (j = i)) as [->|Hne].
  - rewrite list_lookup_alter_eq, Ho, (decide_True (P := i ∈ {[+ i +]} ⊎ o.2)) by multiset_solver.
    destruct (decide (i ∈ o.2)); by destruct (outs0 !! i).
  - rewrite list_lookup_alter_ne, Ho by done. destruct (decide (j ∈ o.2)) as [Hj|Hj].
    + by rewrite decide_True by multiset_solver.
    + by rewrite decide_False by multiset_solver.
Qed.

Lemma owns_base {A} (Q : A → Prop) (p : prog W A) :
  keeps Q p → owns shared (λ r m, m = azero ∧ Q r) (zoom p) azero.
Proof.
  intros Hp. eapply owns_conseq.
  - apply (owns_zoom (λ w (_ : unit), P w) shared (λ _ : unit, azero) (λ r _, Q r) p tt); [|exact Hp].
    intros u [] o [Hb Hw Hc Ho]. exists tt. split; [exact Hb|]. intros w' [] Hw'. by split.
  - by intros r m ([] & -> & HQ).
Qed.

(** The limiter works on the budgets, which the invariant does not mention. *)
Context (Hlimits : ∀ (l : limits U) w, P w → P (replace l w)).

Lemma quiet_limits {A} (p : prog (limits U) A) : does azero (zoom p).
Proof.
  eapply owns_conseq.
  - apply (owns_zoom (λ _ (_ : unit), True) shared (λ _ : unit, azero) (λ _ _, True) p tt); [|].
    + intros u [] o [Hb Hw Hc Ho]. exists tt. split; [done|]. intros l [] _. split; simpl; auto.
    + induction p as [a|X act k IH]; [done|]. intros w o _ w' x _. exists tt. split; [done|apply IH].
  - by intros a m ([] & -> & _).
Qed.

(** A job of [Map] whose work leaves [Q] leaves [Q] or an error. *)
Lemma owns_job {G V} (options : MapOptions U G) (work : ctx → G → prog (mapw W) (res V)) (Q : G → V → M → Prop) c i g :
  owns shared (λ r m, ∀ v, r = Ok v → Q g v m) (work c g) azero →
  owns shared (λ r m, ∀ v, r = Ok v → Q g v m) (job options work c i g) azero.
Proof.
  intros Hw. unfold job. destruct (_ <? 1); [by apply owns_ret|].
  apply owns_rthen with (λ _ m, m = azero).
  - apply owns_annotate. destruct (opt_Limiter options); [apply quiet_limits|by apply owns_ret].
  - intros [] m ->. apply owns_annotate. eapply owns_conseq; [exact Hw|]. intros r m Hr v Hv. rewrite aplus_zero_r.
    apply Hr. by destruct r; simplify_eq.
  - intros e m _ v [=].
Qed.

Context (WorkQ : T → R → Prop) (store : cache W) (work : ctx → T → prog W (res R))
  (notify : nat → R → CacheOutcome → prog W (res unit)) (Key_of : T → res Key).
Context (Hnotify : ∀ i v o, keeps (λ _, True) (notify i v o)).
Context (Hwork : ∀ c item, keeps (λ r, ∀ v, r = Ok v → WorkQ item v) (work c item)).
Context (Hstore : ∀ c key item v, Key_of item = Ok key → WorkQ item v →
  keeps (λ _, True) (cache_Store store R c key v)).

Lemma does_mark_all value indexes :
  owns shared (λ r m, r = Ok tt → m = (0%N, 0%N, list_to_set_disj indexes)) (mark_all notify value indexes) azero.
Proof.
  unfold mark_all. induction indexes as [|i indexes IH]; [by apply owns_ret|]. cbn [for_each].
  apply owns_rthen with (λ r m, m = (0%N, 0%N, {[+ i +]})).
  - eapply owns_then; [apply does_mark|]. intros o m ->. apply owns_annotate.
    eapply owns_conseq; [apply owns_base, Hnotify|]. intros r m [-> _]. by rewrite aplus_zero.
  - intros [] m ->. eapply owns_conseq; [apply IH|]. intros r m Hm Hr. rewrite (Hm Hr).
    change ((0%N, 0%N, list_to_set_disj indexes ⊎ {[+ i +]}) = (0%N, 0%N, {[+ i +]} ⊎ list_to_set_disj indexes) :> M).
    by rewrite (comm_L disj_union).
  - intros e m _ [=].
Qed.

(** What a completed group leaves: its value where the work's result was, one call and
    one store, and its outcomes marked. *)
Definition group_done (g : keyGroup T) (cp : completed R) (m : M) : Prop :=
  ∃ v, cp = Completed v (kg_indexes g) ∧ WorkQ (kg_item g) v ∧ m = (1%N, 1%N, list_to_set_disj (kg_indexes g)).

Lemma owns_miss_work c g :
  Key_of (kg_item g) = Ok (kg_key g) →
  owns shared (λ r m, ∀ cp, r = Ok cp → group_done g cp m) (miss_work notify store work c g) azero.
Proof.
  intros Hkey. unfold miss_work. eapply owns_then; [apply does_count_call|]. intros [] m ->.
  eapply owns_rthen; [apply owns_base, Hwork| |by intros e m _ cp [=]]. intros v m [-> Hv].
  apply owns_rthen with (λ _ m, m = azero).
  { apply owns_annotate. eapply owns_conseq; [eapply owns_base, Hstore; [exact Hkey|by apply Hv]|]. by intros r m [-> _]. }
  2: by intros e m _ cp [=].
  intros [] m ->. eapply owns_then; [apply does_count_write|]. intros [] m ->.
  eapply owns_rthen; [apply does_mark_all| |by intros e m _ cp [=]]. intros [] m Hm. rewrite (Hm eq_refl).
  apply owns_ret. intros cp [= <-]. exists v. split; [done|]. split; [by apply Hv|].
  rewrite !aplus_zero_r, aplus_zero.
  change ((1%N, 1%N, (list_to_set_disj (kg_indexes g) ⊎ ∅) ⊎ ∅) = (1%N, 1%N, list_to_set_disj (kg_indexes g)) :> M).
  by rewrite !(right_id_L ∅ disj_union).
Qed.
End workers.

(** ** Batches *)

Section batch_workers.
Context {W : Type} {T R : Type} `{!Codec R} (P : W → Prop) (outs0 : list CacheOutcome).
Notation keeps Q p := (owns (λ w (_ : unit), P w) (λ r _, Q r) p tt).
Notation M := (N * N * gmultiset nat)%type.
Notation shared := (shared P outs0).
Context (WorkQ : T → R → Prop) (store : cache W) (Key_of : T → res Key).
Context (Hstore : ∀ c key item v, Key_of item = Ok key → WorkQ item v →
  keeps (λ _, True) (cache_Store store R c key v)).
Context (batch_fn : ctx → list T → prog W (res (list R))).
Context (Hbatch : ∀ c l, keeps (λ r, ∀ vs, r = Ok vs → length vs = length l → Forall2 WorkQ l vs) (batch_fn c l)).

Lemma does_mark_plain indexes :
  owns shared (λ r m, r = Ok tt → m = (0%N, 0%N, list_to_set_disj indexes))
    (for_each indexes (λ index, _ ← mark_stored index; mret (Ok tt))) azero.
Proof.
  induction indexes as [|i indexes IH]; [by apply owns_ret|]. cbn [for_each].
  apply owns_rthen with (λ r m, m = (0%N, 0%N, {[+ i +]})).
  - eapply owns_then; [apply does_mark|]. intros o m ->. apply owns_ret. by rewrite aplus_zero.
  - intros [] m ->. eapply owns_conseq; [apply IH|]. intros r m Hm Hr. rewrite (Hm Hr).
    change ((0%N, 0%N, list_to_set_disj indexes ⊎ {[+ i +]}) = (0%N, 0%N, {[+ i +]} ⊎ list_to_set_disj indexes) :> M).
    by rewrite (comm_L disj_union).
  - intros e m _ [=].
Qed.

(** The stores of a batch. *)
Definition stored_account (groups : list (keyGroup T)) : M :=
  (N.of_nat (length groups), 0%N, list_to_set_disj (groups ≫= kg_indexes)).

Lemma owns_store_values c groups values :
  Forall (λ g, Key_of (kg_item g) = Ok (kg_key g)) groups → Forall2 WorkQ (kg_item <$> groups) values →
  owns shared (λ r m, r = Ok tt → m = stored_account groups) (store_values store c groups values) azero.
Proof.
  revert values. induction groups as [|g groups IH]; intros values Hk Hv.
  { apply Forall2_nil_inv_l in Hv as ->. by apply owns_ret. }
  rewrite fmap_cons in Hv. apply Forall2_cons_inv_l in Hv as (v & values' & Hg & Hv & ->). apply Forall_cons in Hk as [Hkg Hk].
  cbn [store_values]. apply owns_rthen with (λ _ m, m = azero).
  { apply owns_annotate. eapply owns_conseq; [eapply owns_base, Hstore; done|]. by intros r m [-> _]. }
  2: by intros e m _ [=].
  intros [] m ->. eapply owns_then; [apply does_count_write|]. intros [] m ->.
  eapply owns_rthen; [apply does_mark_plain| |by intros e m _ [=]]. intros [] m Hm. rewrite (Hm eq_refl).
  eapply owns_conseq; [by apply IH|]. intros r m' Hm' Hr. rewrite (Hm' Hr). unfold stored_account. rewrite aplus_zero_r, !account_of_shared.
  cbn [fst snd length]. rewrite bind_cons, list_to_set_disj_app. f_equal; [f_equal; lia|]. multiset_solver.
Qed.

Lemma zip_completes groups values :
  Forall2 WorkQ (kg_item <$> groups) values →
  Forall2 (completes WorkQ) groups
    (zip_with (λ g value, Completed value (kg_indexes g)) groups values).
Proof.
  revert values. induction groups as [|g groups IH]; intros values Hv; [by constructor|].
  rewrite fmap_cons in Hv. apply Forall2_cons_inv_l in Hv as (v & values' & Hg & Hv & ->). simpl. constructor; [by exists v|by apply IH].
Qed.

Lemma owns_batch_work c b :
  Forall (λ g, Key_of (kg_item g) = Ok (kg_key g)) (bt_groups b) →
  owns shared (λ r m, ∀ cps, r = Ok cps →
      Forall2 (completes WorkQ) (bt_groups b) cps ∧
      m = (N.of_nat (length (bt_groups b)), 1%N, list_to_set_disj (bt_groups b ≫= kg_indexes)))
    (batch_work store batch_fn c b) azero.
Proof.
  intros Hk. unfold batch_work. eapply owns_then; [apply does_count_call|]. intros [] m ->.
  eapply owns_rthen; [apply owns_base, Hbatch| |by intros e m _ cps [=]]. intros vs m [-> Hvs].
  specialize (Hvs vs eq_refl). rewrite length_fmap in Hvs. case_bool_decide as Hlen; cbn [negb]; [|by apply owns_ret].
  specialize (Hvs Hlen). eapply owns_rthen; [by apply owns_store_values| |by intros e m _ cps [=]].
  intros [] m Hm. rewrite (Hm eq_refl). apply owns_ret. intros cps [= <-]. split; [by apply zip_completes|].
  unfold stored_account. rewrite aplus_zero_r, aplus_zero, account_of_shared. cbn [fst snd].
  f_equal; [f_equal; lia|]. by rewrite (right_id_L ∅ disj_union).
Qed.
End batch_workers.

(** ** Contexts *)

Section contexts.
Context {U W : Type} `{!Has (limits U) W} {EG : ErrGroup} {T R : Type} `{!Codec R}.

(** Leaves the contexts created since there were [n] alone. *)
Record tame (n : nat) (w w' : W) : Prop := {
  tame_private gid : (n ≤ gid)%nat → private gid w w';
  tame_scopes : (scopes (ctxs_of w) ≤ scopes (ctxs_of w'))%nat;
  tame_ok : ctxs_ok (ctxs_of w) → ctxs_ok (ctxs_of w');
}.

Lemma tame_refl n w : tame n w w.
Proof. by split. Qed.

Lemma tame_steps n w w' :
  rtc (tame n) w w' → (n ≤ scopes (ctxs_of w))%nat → ctxs_ok (ctxs_of w) →
  (n ≤ scopes (ctxs_of w'))%nat ∧ ctxs_ok (ctxs_of w').
Proof.
  induction 1 as [w|w w1 w' [_ Hs Ho] _ IH]; intros Hn Hok; [done|]. apply IH; [lia|auto].
Qed.

Context (n gid : nat) (Hgid : (n ≤ gid)%nat).
Notation gentle p := (guarantees (private gid) (λ _, True) p).
Notation tamely p := (guarantees (tame n) (λ _, True) p).

Lemma gentle_base {A} (p : prog W A) : tamely p → gentle (zoom (W := mapw W) p).
Proof. apply guarantees_zoom. intros u w Ht. by apply (tame_private _ _ _ Ht). Qed.

Lemma gentle_mark i : gentle (mark_stored (W := W) i).
Proof. by apply guarantees_atomic. Qed.
Lemma gentle_count_call : gentle (count_call (W := W)).
Proof. by apply guarantees_atomic. Qed.
Lemma gentle_count_write : gentle (count_write (W := W)).
Proof. by apply guarantees_atomic. Qed.

Lemma gentle_rbind {A B} (f : A → prog (mapw W) (res B)) p : gentle p → (∀ a, gentle (f a)) → gentle (rbind f p).
Proof. intros Hp Hf. eapply guarantees_rbind with (R := λ _, True); [|auto]. by eapply guarantees_conseq; [exact Hp|intros []]. Qed.

Lemma gentle_for_each {A} (body : A → prog (mapw W) (res unit)) xs : (∀ x, gentle (body x)) → gentle (for_each xs body).
Proof. intros Hb. induction xs as [|x xs IH]; [by apply guarantees_ret|]. cbn [for_each]. by apply gentle_rbind. Qed.

Context (store : cache W) (notify : nat → R → CacheOutcome → prog W (res unit)).
Context (Hnotify : ∀ i v o, tamely (notify i v o)).
Context (Hstore : ∀ c key v, tamely (cache_Store store R c key v)).

Lemma gentle_miss_work work (c : ctx) (g : keyGroup T) :
  tamely (work c (kg_item g)) → gentle (miss_work notify store work c g).
Proof.
  intros Hwork. unfold miss_work. eapply guarantees_bind; [apply gentle_count_call|]. intros _ _.
  apply gentle_rbind; [by apply gentle_base|]. intros v.
  apply gentle_rbind; [by apply guarantees_annotate, gentle_base|]. intros _.
  eapply guarantees_bind; [apply gentle_count_write|]. intros _ _. apply gentle_rbind; [|by intros; apply guarantees_ret].
  apply gentle_for_each. intros i. eapply guarantees_bind; [apply gentle_mark|]. intros o _. by apply guarantees_annotate, gentle_base.
Qed.

Lemma gentle_store_values c (groups : list (keyGroup T)) values : gentle (store_values store c groups values).
Proof.
  revert values. induction groups as [|g groups IH]; intros [|v values]; try by apply guarantees_ret. cbn [store_values].
  apply gentle_rbind; [by apply guarantees_annotate, gentle_base|]. intros _.
  eapply guarantees_bind; [apply gentle_count_write|]. intros _ _. apply gentle_rbind; [|done].
  apply gentle_for_each. intros i. eapply guarantees_bind; [apply gentle_mark|]. intros o _. by apply guarantees_ret.
Qed.

Lemma gentle_batch_work work (c : ctx) (b : batch T) :
  (∀ items, tamely (work c items)) → gentle (batch_work store work c b).
Proof.
  intros Hwork. unfold batch_work. eapply guarantees_bind; [apply gentle_count_call|]. intros _ _.
  apply gentle_rbind; [by apply gentle_base|]. intros v. destruct (negb _); [by apply guarantees_ret|].
  apply gentle_rbind; [apply gentle_store_values|]. intros _. by apply guarantees_ret.
Qed.

(** Loading moves through tame steps only. *)
Context (Hload : ∀ c key, tamely (cache_Load store R c key)).

Lemma tame_hit_loop value indexes st : tamely (hit_loop notify value indexes st).
Proof.
  revert st. induction indexes as [|i indexes IH]; intros st; [by apply guarantees_ret|]. cbn [hit_loop].
  eapply guarantees_bind; [apply Hnotify|]. intros [[]|e] _; [apply IH|by apply guarantees_ret].
Qed.

Lemma tame_load_loop c (groups misses : list (keyGroup T)) st : tamely (load_loop notify store c groups misses st).
Proof.
  revert misses st. induction groups as [|g groups IH]; intros misses st; [by apply guarantees_ret|]. cbn [load_loop].
  eapply guarantees_bind; [apply Hload|]. intros [[v|]|e] _; [|apply IH|by apply guarantees_ret].
  eapply guarantees_bind; [apply tame_hit_loop|]. intros [st' [[]|e]] _; [apply IH|by apply guarantees_ret].
Qed.
End contexts.

(** Every move of a run is the program's or the environment's. *)
Lemma runs_guarantees {W A} (Env G : W → W → Prop) (Q : A → Prop) (p : prog W A) w w' a :
  (∀ w w', Env w w' → G w w') → guarantees G Q p → runs Env p w w' a → rtc G w w' ∧ Q a.
Proof.
  intros HE Hp Hs. unfold runs in Hs. remember (w, [p]) as s eqn:Heqs. remember (w', [Ret a]) as s' eqn:Heqs'.
  revert w p Heqs Hp. induction Hs as [s|s s1 s' Hstep Hs IH]; intros w p -> Hp.
  - injection Heqs' as -> ->. split; [done|exact Hp].
  - inversion Hstep as [w0 ts i X act k w1 x Hi Hin|w0 w1 ts Henv]; subst.
    + destruct i as [|i]; [|done]. injection Hi as ->. destruct (Hp _ _ _ Hin) as [HG Hk].
      destruct (IH eq_refl w1 (k x) eq_refl Hk) as [Hr HQ]. split; [by eapply rtc_l|done].
    + destruct (IH eq_refl w1 p eq_refl Hp) as [Hr HQ]. split; [eapply rtc_l; [by apply HE|done]|done].
Qed.

(** ** Where every result comes from *)

Section served.
Context {T R : Type} (zero : R).
Context (LoadQ : Key → R → Prop) (WorkQ : T → R → Prop) (key : T → res Key) (items : list T).
Implicit Types (g : keyGroup T) (rs : list R) (outs : list CacheOutcome) (rep : CacheReport) (answers : list (keyGroup T * option R)).

(** Every input of the group has the same result, from [Q], and the same outcome. *)
Definition group_served (Q : R → Prop) (state : CacheState) rs outs g : Prop :=
  ∃ v, Q v ∧ ∀ i, i ∈ kg_indexes g → rs !! i = Some v ∧ outs !! i = Some (MkOutcome (kg_digest g) state).

(** The groups of equal keys divide into those found, whose value was loaded, and those
    missed, whose value was worked out once and stored; the report says which. *)
Record served (hits misses : list (keyGroup T)) rs rep : Prop := {
  sv_groups : ∃ digests groups, group_items (item_key key) items = (digests, Ok groups) ∧ groups ≡ₚ hits ++ misses;
  sv_length : length rs = length items;
  sv_hits : Forall (λ g, group_served (LoadQ (kg_key g)) CacheHit rs (cr_Outcomes rep) g) hits;
  sv_misses : Forall (λ g, group_served (WorkQ (kg_item g)) CacheStored rs (cr_Outcomes rep) g) misses;
  sv_Hits : cr_Hits rep = wrap64 (Z.of_nat (length (hits ≫= kg_indexes)));
  sv_Misses : cr_Misses rep = wrap64 (Z.of_nat (length (misses ≫= kg_indexes)));
  sv_Writes : cr_Writes rep = wrap64 (Z.of_nat (length misses));
}.

Lemma pending_lookup n digests i d :
  digests !! i = Some d → pending n digests !! i = Some (MkOutcome d CachePending).
Proof. intros Hd. unfold pending. rewrite lookup_app_l; [by rewrite list_lookup_fmap, Hd|]. rewrite length_fmap. by eapply lookup_lt_Some. Qed.

Lemma completes_indexes misses cs : Forall2 (completes WorkQ) misses cs → cs ≫= cp_indexes = misses ≫= kg_indexes.
Proof. induction 1 as [|g cp misses cs (v & -> & _) _ IH]; [done|]. by rewrite !bind_cons, IH. Qed.

Lemma groups_indexes answers :
  (group_indexes answers) ≡ₚ (found answers ≫= kg_indexes) ++ (missed answers ≫= kg_indexes).
Proof. unfold group_indexes. destruct (answers_split answers) as [Hp _]. by rewrite Hp, bind_app. Qed.

Context (digests : list string) (groups : list (keyGroup T)) (Hitems : group_items (item_key key) items = (digests, Ok groups)).
Context (answers : list (keyGroup T * option R)) (Hanswers : answers.*1 = groups)
  (Hloaded : ∀ g v, (g, Some v) ∈ answers → LoadQ (kg_key g) v).
Notation st := (replayed answers (load_start zero (length items) digests)).

Lemma group_indexes_seq : group_indexes answers ≡ₚ seq 0 (length items).
Proof. unfold group_indexes. rewrite Hanswers. by apply wg_indexes with (digests := digests) (key_of := item_key key), group_items_spec. Qed.

Lemma group_digest g i : g ∈ groups → i ∈ kg_indexes g → digests !! i = Some (kg_digest g).
Proof. intros Hg Hi. by eapply (wg_index _ _ _ _ (group_items_spec _ _ _ _ Hitems)). Qed.

Lemma answered_group g o : (g, o) ∈ answers → g ∈ groups.
Proof. intros Hin. rewrite <-Hanswers. apply list_elem_of_fmap. by exists (g, o). Qed.

Lemma loaded_outcome g o i :
  (g, o) ∈ answers → i ∈ kg_indexes g →
  match o with
  | Some v => ld_results st !! i = Some v ∧ ld_outcomes st !! i = Some (MkOutcome (kg_digest g) CacheHit)
  | None => ld_outcomes st !! i = Some (MkOutcome (kg_digest g) CachePending)
  end.
Proof.
  intros Hin Hi. pose proof (replayed_spec answers (load_start zero (length items) digests) g o i) as Hspec.
  assert (pending (length items) digests !! i = Some (MkOutcome (kg_digest g) CachePending)) as Hp.
  { apply pending_lookup, group_digest; [by eapply answered_group|done]. }
  cbn [load_start ld_results ld_outcomes] in Hspec. rewrite Hp in Hspec. apply Hspec; [|  |done|done].
  - rewrite group_indexes_seq. apply NoDup_seq.
  - intros j. rewrite group_indexes_seq, length_replicate, elem_of_seq. lia.
Qed.

Lemma assemble cs outs writes calls :
  Forall2 (completes WorkQ) (missed answers) cs →
  (∀ i, outs !! i = (if decide (i ∈ (missed answers ≫= kg_indexes)) then set_State CacheStored else id) <$> ld_outcomes st !! i) →
  writes = wrap64 (Z.of_nat (length (missed answers))) →
  served (found answers) (missed answers) (spread_all cs (ld_results st)) (MkCacheReport (ld_hits st) (ld_misses st) writes calls outs).
Proof.
  intros Hcs Houts Hwrites. destruct (replayed_counts answers (load_start zero (length items) digests) 0 0) as (Hh & Hm & Hlen & _); [done..|].
  destruct (answers_split answers) as (Hperm & Hfound & Hmissed).
  assert (length (ld_results st) = length items) as Hrs by (rewrite Hlen; apply length_replicate).
  pose proof groups_indexes answers as Hix. rewrite group_indexes_seq in Hix.
  assert (NoDup ((found answers ≫= kg_indexes) ++ (missed answers ≫= kg_indexes))) as Hnd by (rewrite <-Hix; apply NoDup_seq).
  apply NoDup_app in Hnd as (_ & Hdisj & Hnd).
  assert (∀ i, i ∈ (found answers ≫= kg_indexes) ++ (missed answers ≫= kg_indexes) → (i < length (ld_results st))%nat) as Hlt.
  { intros i. rewrite <-Hix, Hrs, elem_of_seq. lia. }
  pose proof (completes_indexes _ _ Hcs) as Hci.
  split; cbn [cr_Hits cr_Misses cr_Writes cr_Outcomes]; [|by rewrite spread_all_length|idtac..|exact Hh|exact Hm|exact Hwrites].
  - exists digests, groups. split; [done|]. by rewrite <-Hanswers.
  - apply Forall_forall. intros g [v Hg]%Hfound. exists v. split; [by apply Hloaded|]. intros i Hi.
    assert (i ∈ found answers ≫= kg_indexes) as Hif by (apply list_elem_of_bind; exists g; split; [done|apply Hfound; eauto]).
    destruct (loaded_outcome g (Some v) i Hg Hi) as [Hr Ho].
    destruct (spread_all_lookup cs (ld_results st) i) as [_ Hs]; [by rewrite Hci|apply Hlt, elem_of_app; by left|].
    rewrite Hs, Houts, Ho by (rewrite Hci; by apply Hdisj). by rewrite decide_False by by apply Hdisj.
  - apply Forall_forall. intros g Hg. pose proof (proj1 (Hmissed g) Hg) as Ha.
    destruct (list_elem_of_lookup_1 _ _ Hg) as [k Hk]. destruct (Forall2_lookup_l _ _ _ _ _ Hcs Hk) as (cp & Hcp & v & -> & Hv).
    exists v. split; [done|]. intros i Hi.
    assert (i ∈ missed answers ≫= kg_indexes) as Him by (apply list_elem_of_bind; by exists g).
    destruct (spread_all_lookup cs (ld_results st) i) as [Hs _]; [by rewrite Hci|apply Hlt, elem_of_app; by right|].
    rewrite (Hs (Completed v (kg_indexes g))), Houts, (loaded_outcome g None i Ha Hi) by (try done; by eapply list_elem_of_lookup_2).
    by rewrite decide_True.
Qed.
End served.

(** ** The two calls *)

Lemma map_done {A V M} `{Account M} (Post : A → V → Prop) (b : A → M) (l : list A) (rs : list V) (ds : list (done (R := V) (M := M))) :
  Forall (λ d, ∃ x, l !! d_index d = Some x ∧ ∀ v, d_res d = Ok v → Post x v ∧ d_acct d = b x) ds →
  length rs = length l → d_index <$> ds ≡ₚ seq 0 (length l) →
  Forall (λ d, ∃ v, d_res d = Ok v ∧ rs !! d_index d = Some v) ds →
  Forall2 Post l rs ∧ total (d_acct <$> ds) = total (b <$> l).
Proof.
  rewrite !Forall_forall. intros Hx Hlen Hp Hv. split.
  - apply Forall2_same_length_lookup. split; [done|]. intros i x v Hi Hr.
    assert (i ∈ d_index <$> ds) as (d & -> & Hd)%list_elem_of_fmap.
    { rewrite Hp. apply elem_of_seq. apply lookup_lt_Some in Hi. lia. }
    destruct (Hx d Hd) as (x' & Hx' & HQ). destruct (Hv d Hd) as (v' & Hres & Hrs). simplify_eq. by apply HQ.
  - pose (a i := match l !! i with Some x => b x | None => azero end).
    transitivity (total (a <$> (d_index <$> ds))).
    + rewrite <-list_fmap_compose. f_equal. apply list_fmap_ext. intros i d Hd%list_elem_of_lookup_2.
      destruct (Hx d Hd) as (x & Hl & HQ). destruct (Hv d Hd) as (v & Hres & _). unfold a. simpl. rewrite Hl. by apply (HQ v).
    + rewrite (total_perm (a <$> (d_index <$> ds)) (a <$> seq 0 (length l))) by by rewrite Hp.
      f_equal. apply list_eq. intros i. rewrite !list_lookup_fmap. destruct (decide (i < length l)%nat) as [Hlt|Hge].
      * destruct (lookup_lt_is_Some_2 l i Hlt) as [x Hl]. rewrite lookup_seq_lt by done. unfold a. simpl. by rewrite Hl.
      * rewrite lookup_seq_ge, lookup_ge_None_2 by lia. done.
Qed.

Section contract.
Context {U W : Type} `{!Has (limits U) W} {EG : ErrGroup} {T R : Type} `{!Codec R} (zero : R).
Context (Env : W → W → Prop) (c : ctx) (items : list T).
Context (P : W → Prop) (LoadQ : Key → R → Prop) (WorkQ : T → R → Prop) (start : W).
Notation keeps Q p := (owns (λ w (_ : unit), P w) (λ r _, Q r) p tt).
Notation tamely p := (guarantees (tame (scopes (ctxs_of start))) (λ _, True) p).

(** What both calls ask of the cache, and of what runs around them. *)
Record cache_client (key_of : T → res Key) (store : cache W) : Prop := {
  cc_load ctx key : keeps (λ r, ∀ v, r = Ok (Some v) → LoadQ key v) (cache_Load store R ctx key);
  cc_store ctx key item v : key_of item = Ok key → WorkQ item v → keeps (λ _, True) (cache_Store store R ctx key v);
  cc_tame_load ctx key : tamely (cache_Load store R ctx key);
  cc_tame_store ctx key v : tamely (cache_Store store R ctx key v);
  cc_limits (l : limits U) w : P w → P (replace l w);
  cc_env w w' : Env w w' → (P w → P w') ∧ tame (scopes (ctxs_of start)) w w';
  cc_start : P start;
  cc_ctxs : ctxs_ok (ctxs_of start);
}.

(** The callback. *)
Record callback_ok (notify : nat → R → CacheOutcome → prog W (res unit)) : Prop := {
  cb_keeps i v o : keeps (λ _, True) (notify i v o);
  cb_tame i v o : tamely (notify i v o);
}.

(** The work function of [MapCached]. *)
Record work_ok (work : ctx → T → prog W (res R)) : Prop := {
  wk_keeps ctx item : keeps (λ r, ∀ v, r = Ok v → WorkQ item v) (work ctx item);
  wk_tame ctx item : tamely (work ctx item);
}.

(** The work function of [MapCachedBatches]. *)
Record batch_work_ok (work : ctx → list T → prog W (res (list R))) : Prop := {
  bw_keeps ctx batch : keeps (λ r, ∀ vs, r = Ok vs → length vs = length batch → Forall2 WorkQ batch vs) (work ctx batch);
  bw_tame ctx batch : tamely (work ctx batch);
}.

Lemma silent_ok : callback_ok (silent (R := R)).
Proof. by split. Qed.

Section loading_phase.
Context (key_of : T → res Key) (store : cache W) (notify : nat → R → CacheOutcome → prog W (res unit)).
Context (Hc : cache_client key_of store) (Hn : callback_ok notify).

Lemma loading_phase digests groups w' st r :
  runs Env (load_run zero c items store notify digests groups) start w' (st, r) →
  P w' ∧ ctxs_ok (ctxs_of w') ∧ (scopes (ctxs_of start) ≤ scopes (ctxs_of w'))%nat ∧
  ∀ misses, r = Ok misses → ∃ answers, answers.*1 = groups ∧ misses = missed answers ∧
    st = replayed answers (load_start zero (length items) digests) ∧
    ∀ g v, (g, Some v) ∈ answers → LoadQ (kg_key g) v.
Proof.
  intros Hrun.
  destruct (runs_guarantees Env (tame (scopes (ctxs_of start))) (λ _, True) _ _ _ _ (λ w w' H, proj2 (cc_env _ _ Hc w w' H))
    (tame_load_loop _ store notify (cb_tame _ Hn) (cc_tame_load _ _ Hc) c groups [] _) Hrun) as [Hs _].
  destruct (tame_steps _ _ _ Hs) as [Hsc Hok]; [done|apply Hc|].
  destruct (runs_owns Env (λ w (_ : unit), P w) _ _ tt start w' _ (λ w w' _ Hw H, proj1 (cc_env _ _ Hc w w' H) Hw)
    (keeps_load_loop P LoadQ notify (cb_keeps _ Hn) store c (cc_load _ _ Hc c) groups [] _) (cc_start _ _ Hc) Hrun) as ([] & Hw & HQ).
  split_and!; [done..|]. intros misses ->. destruct (HQ misses eq_refl) as (answers & ? & -> & ? & ?). by exists answers.
Qed.

(** The workers' part of the world when they begin. *)
Lemma shared_env outs0 (u u' : mapw W) γ :
  shared P outs0 u γ → around Env u u' → shared P outs0 u' γ.
Proof.
  intros [Hb ? ? ?] [He ->]. split; [|done..]. simpl. by apply (proj1 (cc_env _ _ Hc _ _ He)).
Qed.

Lemma shared_client {G V} outs0 (misses : list G) (options : MapOptions U G) work (Post : G → V → N * N * gmultiset nat → Prop) w1 :
  (scopes (ctxs_of start) ≤ scopes (ctxs_of w1))%nat →
  (∀ ctx g, g ∈ misses → owns (shared P outs0) (λ r m, ∀ v, r = Ok v → Post g v m) (work ctx g) azero) →
  (∀ ctx g gid, g ∈ misses → (scopes (ctxs_of start) ≤ gid)%nat → guarantees (private gid) (λ _, True) (work ctx g)) →
  map_client (around Env) (shared P outs0) (λ _ g r m, ∀ v, r = Ok v → Post g v m)
    (scopes (ctxs_of (MapW w1 outs0 0 0))) c misses options work.
Proof.
  intros Hsc Hw Hg. split.
  - intros index g Hi%list_elem_of_lookup_2. split.
    + apply owns_job; [apply (cc_limits _ _ Hc)|]. by apply Hw.
    + apply job_private. by apply Hg.
  - intros u u' m Hu He. split; [by eapply shared_env|]. destruct He as [He ->].
    apply (tame_private _ _ _ (proj2 (cc_env _ _ Hc _ _ He))). exact Hsc.
  - intros f u m [Hb ? ? ?]. split; [|done..]. by apply (cc_limits _ _ Hc).
Qed.

(** All jobs of a [Map] that returns have been done. *)
Lemma workers_done {G V} (zeroV : V) outs0 (jobs : list G) options work (Post : G → V → Prop) (b : G → N * N * gmultiset nat) w1 u vs :
  P w1 → ctxs_ok (ctxs_of w1) → (scopes (ctxs_of start) ≤ scopes (ctxs_of w1))%nat →
  (∀ ctx g, g ∈ jobs → owns (shared P outs0) (λ r m, ∀ v, r = Ok v → Post g v ∧ m = b g) (work ctx g) azero) →
  (∀ ctx g gid, g ∈ jobs → (scopes (ctxs_of start) ≤ gid)%nat → guarantees (private gid) (λ _, True) (work ctx g)) →
  Map_returns zeroV (around Env) c jobs options (MapW w1 outs0 0 0) (Some work) u (Ok vs) →
  Forall2 Post jobs vs ∧ shared P outs0 u (total (b <$> jobs)).
Proof.
  intros HP Hok Hsc Hown Hgentle HM.
  destruct (Map_returns_spec zeroV (around Env) (shared P outs0) (λ _ g r m, ∀ v, r = Ok v → Post g v ∧ m = b g)
    c jobs options work (MapW w1 outs0 0 0) u (Ok vs)) as (ds & Hu & _ & Hds & Hlen & Hperm & Hres); [|done| |done|].
  - by apply (shared_client outs0 jobs options work (λ g v m, Post g v ∧ m = b g)).
  - by apply shared_begin.
  - by destruct (map_done Post b jobs vs ds) as [Hf <-].
Qed.

(** The workers leave the groups' outcomes marked. *)
Lemma shared_marked outs0 u n k (marked : list nat) :
  shared P outs0 u (n, k, list_to_set_disj marked) →
  P (mw_base u) ∧ mw_writes u = wrap64 (Z.of_N n) ∧ mw_calls u = wrap64 (Z.of_N k) ∧
  ∀ i, mw_outcomes u !! i = (if decide (i ∈ marked) then set_State CacheStored else id) <$> outs0 !! i.
Proof.
  intros [Hb Hw Hk Ho]. split_and!; [done..|]. intros i. rewrite Ho. cbn [snd].
  destruct (decide (i ∈ marked)) as [Hi|Hi].
  - rewrite decide_True; [done|]. by apply elem_of_list_to_set_disj.
  - rewrite decide_False; [done|]. by rewrite elem_of_list_to_set_disj.
Qed.
End loading_phase.

(** Every group was found. *)
Lemma all_hits store key notify digests groups w1 st :
  cache_client key store → callback_ok notify → group_items (item_key key) items = (digests, Ok groups) →
  runs Env (load_run zero c items store notify digests groups) start w1 (st, Ok []) →
  P w1 ∧ ∃ hits, served LoadQ WorkQ key items hits [] (ld_results st) (ld_report st).
Proof.
  intros Hc Hn Hgr Hrun. destruct (loading_phase key store notify Hc Hn _ _ _ _ _ Hrun) as (HP & _ & _ & Hl).
  destruct (Hl [] eq_refl) as (answers & Ha & Hm & -> & HL). split; [done|]. exists (found answers). rewrite Hm.
  apply (assemble zero LoadQ WorkQ key items digests groups Hgr answers Ha HL [] _ 0 0); rewrite <-Hm; [constructor| |done].
  intros i. rewrite decide_False by by intros ?%elem_of_nil. by destruct (ld_outcomes _ !! i).
Qed.

(** Nothing to do. *)
Lemma no_items key : length items = 0%nat → served LoadQ WorkQ key items [] [] [] (fresh_report items).
Proof. intros Hl%nil_length_inv. split; try done; rewrite Hl; [|done]. by exists [], []. Qed.

(** ** [MapCached] *)

Lemma group_accounts (misses : list (keyGroup T)) :
  total ((λ g, (1%N, 1%N, list_to_set_disj (kg_indexes g)) : N * N * gmultiset nat) <$> misses) =
  (N.of_nat (length misses), N.of_nat (length misses), list_to_set_disj (misses ≫= kg_indexes)).
Proof.
  induction misses as [|g misses IH]; [done|]. rewrite fmap_cons, bind_cons, list_to_set_disj_app.
  unfold total in *. cbn [foldr]. rewrite IH, account_of_shared. cbn [fst snd length].
  assert (1 + N.of_nat (length misses) = N.of_nat (S (length misses)))%N as -> by lia. done.
Qed.

Lemma missed_key (key : T → res Key) digests groups (answers : list (keyGroup T * option R)) g :
  group_items (item_key key) items = (digests, Ok groups) → answers.*1 = groups → g ∈ missed answers →
  key (kg_item g) = Ok (kg_key g).
Proof.
  intros Hgr Ha Hg%(proj2 (proj2 (answers_split answers))). pose proof (answered_group groups answers Ha _ _ Hg) as Hing.
  destruct (wg_group _ _ _ _ (group_items_spec _ _ _ _ Hgr) g Hing) as (i & rest & _ & _ & Hk).
  unfold item_key in Hk. destruct (key (kg_item g)) as [k|]; [|done]. destruct (Key_Digest k); [|done]. by simplify_eq.
Qed.

Lemma misses_worked options store key notify work digests groups w1 st misses u cs :
  cache_client key store → callback_ok notify → work_ok work →
  group_items (item_key key) items = (digests, Ok groups) →
  runs Env (load_run zero c items store notify digests groups) start w1 (st, Ok misses) →
  Map_returns (nothing zero) (around Env) c misses options (MapW w1 (ld_outcomes st) 0 0)
    (Some (miss_work notify store work)) u (Ok cs) →
  P (mw_base u) ∧ ∃ hits, served LoadQ WorkQ key items hits misses (spread_all cs (ld_results st)) (final_report st u) ∧
    mw_calls u = wrap64 (Z.of_nat (length misses)).
Proof.
  intros Hc Hn Hw Hgr Hrun HM. destruct (loading_phase key store notify Hc Hn _ _ _ _ _ Hrun) as (HP & Hok & Hsc & Hl).
  destruct (Hl misses eq_refl) as (answers & Ha & -> & -> & HL).
  destruct (workers_done key store Hc (nothing zero) (ld_outcomes (replayed answers (load_start zero (length items) digests)))
    (missed answers) options (miss_work notify store work) (completes WorkQ)
    (λ g, (1%N, 1%N, list_to_set_disj (kg_indexes g))) w1 u cs HP Hok Hsc) as [Hcs Hu]; [| |exact HM|].
  - intros ctx g Hg. eapply owns_conseq.
    + apply (owns_miss_work P _ WorkQ store work notify key); [apply Hn|apply Hw|apply (cc_store _ _ Hc)|by eapply missed_key].
    + intros r m Hr cp Hcp. destruct (Hr cp Hcp) as (v & Hv & HW & Hm). split; [by exists v|done].
  - intros ctx g gid _ Hgid. eapply (gentle_miss_work _ _ Hgid); [apply Hn|apply (cc_tame_store _ _ Hc)|apply Hw].
  - rewrite group_accounts in Hu. apply shared_marked in Hu as (HP' & Hwr & Hca & Hout). rewrite nat_N_Z in Hwr, Hca.
    split; [done|]. exists (found answers). split; [|done].
    by apply (assemble zero LoadQ WorkQ key items digests groups Hgr answers Ha HL cs (mw_outcomes u) (mw_writes u) (mw_calls u)).
Qed.

(** [MapCached]'s contract, for the proofs. *)
Lemma MapCached_spec options work onResult store key do notify w' rs rep :
  cached_args options (Some work) onResult = Ok (store, key, do, notify) →
  cache_client key store → callback_ok notify → work_ok work →
  MapCached_returns zero Env c items options (Some work) onResult start w' (Ok rs, rep) →
  P w' ∧ ∃ hits misses, served LoadQ WorkQ key items hits misses rs rep ∧
    cr_WorkCalls rep = wrap64 (Z.of_nat (length misses)).
Proof.
  intros Hargs Hc Hn Hw Hret.
  assert (do = work) as ->.
  { unfold cached_args in Hargs. destruct (co_Cache options), (co_Key options); simplify_eq/=.
    destruct onResult as [|[f|] [|? ?]]; by simplify_eq/=. }
  inversion Hret as [|args Hargs'|  | |store' key' do' notify' digests groups w1 st Hargs' Hne Hgr Hrun
    |store' key' do' notify' digests groups w1 st misses u r Hargs' Hne Hgr Hrun Hnem HM]; subst; [| |].
  - split; [apply (cc_start _ _ Hc)|]. exists [], []. split; [by apply (no_items key)|done].
  - rewrite Hargs in Hargs'. injection Hargs' as <- <- <- <-.
    edestruct all_hits as (HP & hits & Hs); [exact Hc|exact Hn|exact Hgr|exact Hrun|]. split; [done|]. by exists hits, [].
  - rewrite Hargs in Hargs'. injection Hargs' as <- <- <- <-. destruct r as [cs|e]; [|done].
    edestruct misses_worked as (HP & hits & Hs & Hca); [exact Hc|exact Hn|exact Hw|exact Hgr|exact Hrun|exact HM|].
    split; [done|]. exists hits, misses. split; [|done]. by match goal with H : _ <$> Ok _ = Ok _ |- _ => injection H as <- end.
Qed.

(** ** [MapCachedBatches] *)

Lemma make_batches_groups cost l bs : make_batches (T := T) cost l = Ok bs → bt_groups <$> bs = l.
Proof.
  revert bs. induction l as [|gs l IH]; intros bs; simpl; [by intros [= <-]|].
  destruct (batch_cost cost gs 0); [|done]. destruct (make_batches cost l) as [bs'|]; [|done]. intros [= <-]. simpl. by rewrite IH.
Qed.

Lemma batch_accounts (bs : list (batch T)) :
  total ((λ b, (N.of_nat (length (bt_groups b)), 1%N, list_to_set_disj (bt_groups b ≫= kg_indexes)) : N * N * gmultiset nat) <$> bs) =
  (N.of_nat (length (mjoin (bt_groups <$> bs))), N.of_nat (length bs), list_to_set_disj (mjoin (bt_groups <$> bs) ≫= kg_indexes)).
Proof.
  induction bs as [|b bs IH]; [done|]. rewrite !fmap_cons.
  change (mjoin (bt_groups b :: (bt_groups <$> bs))) with (bt_groups b ++ mjoin (bt_groups <$> bs)).
  rewrite bind_app, list_to_set_disj_app, length_app.
  unfold total in *. cbn [foldr]. rewrite IH, account_of_shared. cbn [fst snd length]. f_equal. f_equal; lia.
Qed.

Lemma batches_completed (bs : list (batch T)) (cs : list (list (completed R))) :
  Forall2 (λ b cps, Forall2 (completes WorkQ) (bt_groups b) cps) bs cs →
  Forall2 (completes WorkQ) (mjoin (bt_groups <$> bs)) (mjoin cs).
Proof. induction 1 as [|b cps bs cs Hb _ IH]; [constructor|]. simpl. by apply Forall2_app. Qed.

Lemma batches_done options store key work digests groups w1 st misses bs u cs :
  cache_client key store → batch_work_ok work → mjoin (bt_groups <$> bs) = misses →
  group_items (item_key key) items = (digests, Ok groups) →
  runs Env (load_run zero c items store silent digests groups) start w1 (st, Ok misses) →
  Map_returns [] (around Env) c bs options (MapW w1 (ld_outcomes st) 0 0) (Some (batch_work store work)) u (Ok cs) →
  P (mw_base u) ∧ ∃ hits, served LoadQ WorkQ key items hits misses (spread_all (mjoin cs) (ld_results st)) (final_report st u) ∧
    mw_calls u = wrap64 (Z.of_nat (length bs)).
Proof.
  intros Hc Hw Hbs Hgr Hrun HM. destruct (loading_phase key store silent Hc silent_ok _ _ _ _ _ Hrun) as (HP & Hok & Hsc & Hl).
  destruct (Hl misses eq_refl) as (answers & Ha & Hm & -> & HL).
  destruct (workers_done key store Hc [] (ld_outcomes (replayed answers (load_start zero (length items) digests)))
    bs options (batch_work store work) (λ b cps, Forall2 (completes WorkQ) (bt_groups b) cps)
    (λ b, (N.of_nat (length (bt_groups b)), 1%N, list_to_set_disj (bt_groups b ≫= kg_indexes))) w1 u cs HP Hok Hsc) as [Hcs Hu]; [| |exact HM|].
  - intros ctx b Hb. apply (owns_batch_work P _ WorkQ store key); [apply (cc_store _ _ Hc)|apply Hw|].
    apply Forall_forall. intros g Hg. eapply missed_key; [exact Hgr|exact Ha|]. rewrite <-Hm, <-Hbs.
    apply list_elem_of_join. exists (bt_groups b). split; [done|]. apply list_elem_of_fmap. by exists b.
  - intros ctx b gid _ Hgid. eapply (gentle_batch_work _ _ Hgid); [apply (cc_tame_store _ _ Hc)|intros l; apply Hw].
  - rewrite batch_accounts, Hbs in Hu. apply shared_marked in Hu as (HP' & Hwr & Hca & Hout). rewrite nat_N_Z in Hwr, Hca.
    split; [done|]. exists (found answers). split; [|done]. apply batches_completed in Hcs. clear Hl. rewrite Hbs in Hcs. rewrite Hm in Hcs, Hwr, Hout |- *.
    by apply (assemble zero LoadQ WorkQ key items digests groups Hgr answers Ha HL (mjoin cs) (mw_outcomes u) (mw_writes u) (mw_calls u)).
Qed.

Lemma MapCachedBatches_spec options work store key do w' rs rep :
  batch_args options (Some work) = Ok (store, key, do) →
  cache_client key store → batch_work_ok work →
  MapCachedBatches_returns zero Env c items options (Some work) start w' (Ok rs, rep) →
  P w' ∧ ∃ hits misses, served LoadQ WorkQ key items hits misses rs rep ∧
    cr_WorkCalls rep = wrap64 (Z.of_nat (length (batches (Z.to_nat (BatchSize options)) misses))) ∧
    (misses ≠ [] → 0 < BatchSize options).
Proof.
  intros Hargs Hc Hw Hret.
  assert (do = work ∧ 0 < BatchSize options) as [-> Hsize].
  { unfold batch_args in Hargs. destruct (cb_Cache options), (cb_Key options); simplify_eq/=.
    destruct (Z.ltb_spec (BatchSize options) 1); simplify_eq/=. split; [done|lia]. }
  inversion Hret as [|args Hargs'|  | |store' key' do' digests groups w1 st Hargs' Hne Hgr Hrun| 
    |store' key' do' digests groups w1 st misses bs u r Hargs' Hne Hgr Hrun Hnem Hcap Hbs HM]; subst; [| |].
  - split; [apply (cc_start _ _ Hc)|]. exists [], []. split; [by apply (no_items key)|done].
  - rewrite Hargs in Hargs'. injection Hargs' as <- <- <-.
    edestruct all_hits as (HP & hits & Hs); [exact Hc|exact silent_ok|exact Hgr|exact Hrun|]. split; [done|]. by exists hits, [].
  - rewrite Hargs in Hargs'. injection Hargs' as <- <- <-. destruct r as [cs|e]; [|done]. apply make_batches_groups in Hbs.
    destruct (batches_spec (Z.to_nat (BatchSize options)) misses) as [Hj _]; [lia|].
    edestruct batches_done as (HP & hits & Hs & Hca); [exact Hc|exact Hw|by rewrite Hbs|exact Hgr|exact Hrun|exact HM|].
    split; [done|]. exists hits, misses. match goal with H : _ <$> Ok _ = Ok _ |- _ => injection H as <- end.
    split; [done|]. split; [|done]. simpl. by rewrite Hca, <-Hbs, length_fmap.
Qed.

(** ** A sound cache cannot be told from none *)

(** [f] depends on the key only, and loads and work agree with it. *)
Lemma served_transparent (f : T → R) key hits misses rs rep :
  (∀ k v item, LoadQ k v → key item = Ok k → v = f item) → (∀ item v, WorkQ item v → v = f item) →
  (∀ i j item item' d k k', item_key key i item = Ok (k, d) → item_key key j item' = Ok (k', d) → f item = f item') →
  served LoadQ WorkQ key items hits misses rs rep → rs = f <$> items.
Proof.
  intros Hload Hwork Hdet [(digests & groups & Hgr & Hp) Hlen Hhits Hmisses _ _ _]. apply list_eq. intros i.
  pose proof (group_items_spec _ _ _ _ Hgr) as Hwg. rewrite list_lookup_fmap.
  destruct (items !! i) as [item|] eqn:Hi; 
    [|apply lookup_ge_None in Hi; simpl; apply lookup_ge_None; by rewrite Hlen].
  destruct (well_grouped_find _ _ _ _ _ _ Hwg Hi) as (g & Hg & Hgi).
  destruct (wg_group _ _ _ _ Hwg g Hg) as (j & rest & _ & _ & Hkey).
  destruct (wg_index _ _ _ _ Hwg g i Hg Hgi) as (_ & item' & k & Hi' & Hk). rewrite Hi in Hi'. injection Hi' as <-.
  assert (key (kg_item g) = Ok (kg_key g)) as Hkg.
  { unfold item_key in Hkey. destruct (key (kg_item g)) as [k'|]; [|done]. destruct (Key_Digest k'); [|done]. by simplify_eq. }
  simpl. rewrite (Hdet _ _ _ _ _ _ _ Hk Hkey). rewrite Hp in Hg. apply elem_of_app in Hg as [Hg|Hg].
  - rewrite Forall_forall in Hhits. destruct (Hhits g Hg) as (v & Hv & Hr). destruct (Hr i Hgi) as [-> _]. f_equal. by eapply Hload.
  - rewrite Forall_forall in Hmisses. destruct (Hmisses g Hg) as (v & Hv & Hr). destruct (Hr i Hgi) as [-> _]. f_equal. by apply Hwork.
Qed.

(** C9: Whatever the workers' schedule and whatever moves around the call, results that
    [MapCached] returns come from where the report says: the items fall into groups of
    equal keys; the groups found in the cache give all their inputs the value that was
    loaded and the outcome "hit"; each of the others was worked on and stored exactly
    once and gives all its inputs that value and the outcome "stored".  Hits, misses,
    writes and work calls are the numbers of those, in 64 bits. *)
Theorem MapCached_contract options work onResult store key do notify w' rs rep :
  cached_args options (Some work) onResult = Ok (store, key, do, notify) →
  cache_client key store → callback_ok notify → work_ok work →
  MapCached_returns zero Env c items options (Some work) onResult start w' (Ok rs, rep) →
  P w' ∧ ∃ hits misses, served LoadQ WorkQ key items hits misses rs rep ∧
    cr_WorkCalls rep = wrap64 (Z.of_nat (length misses)).
Proof. apply MapCached_spec. Qed.

(** C10: [MapCachedBatches] keeps the same promises; the missing groups are worked on in
    one call per batch of at most [BatchSize] of them. *)
Theorem MapCachedBatches_contract options work store key do w' rs rep :
  batch_args options (Some work) = Ok (store, key, do) →
  cache_client key store → batch_work_ok work →
  MapCachedBatches_returns zero Env c items options (Some work) start w' (Ok rs, rep) →
  P w' ∧ ∃ hits misses, served LoadQ WorkQ key items hits misses rs rep ∧
    cr_WorkCalls rep = wrap64 (Z.of_nat (length (batches (Z.to_nat (BatchSize options)) misses))) ∧
    (misses ≠ [] → 0 < BatchSize options).
Proof. apply MapCachedBatches_spec. Qed.
End contract.
