(* ===== verification/CachedStore.v ===== *)
(** * Cached maps over a MemoryStore

    The stores of flow/store.go are the caches of execution/cached_map.go: this file
    puts a [MemoryStore] (Cache.v) behind [MapCached] and discharges what
    CachedMapProofs.v asks of a cache.  A store whose entries are right stays right,
    and the map computes the function of its items. *)

From S2P Require Import Prelude GoError GoStrings Go Limits Budget Rate Chain ErrGroup BoundedMap Digest Json.
From S2P Require Import Cache Report Groups CachedMap CachedMapProofs.

(** The limiters' state and the store's. *)
Record stored (U : Type) := Stored { sw_limits : limits U; sw_store : memw }.
Arguments Stored {_} _ _.
Arguments sw_limits {_} _.
Arguments sw_store {_} _.

#[export] Program Instance stored_limits U : Has (limits U) (stored U) :=
  {| inside := sw_limits; replace l w := Stored l (sw_store w) |}.
Solve All Obligations with by intros; repeat match goal with w : stored _ |- _ => destruct w end.
#[export] Program Instance stored_store U : Has memw (stored U) :=
  {| inside := sw_store; replace m w := Stored (sw_limits w) m |}.
Solve All Obligations with by intros; repeat match goal with w : stored _ |- _ => destruct w end.

Definition memory_cache {U} : cache (stored U) :=
  MkCache _ (λ V codec c key, zoom (MemoryStore_Load c key)) (λ V codec c key v, zoom (MemoryStore_Store c key v)).

Section memory.
Context {U : Type} {EG : ErrGroup} {T R : Type} `{!Codec R} (zero : R) (key : T → res Key) (f : T → R).
Context (Hfaithful : ∀ item, faithful (f item)).
Context (Hdet : ∀ item item' k k' d, key item = Ok k → key item' = Ok k' →
  Key_Digest k = Ok d → Key_Digest k' = Ok d → f item = f item').

(** Every entry is the text of [f] of the items whose key it is. *)
Definition sound_entries (m : memw) : Prop :=
  ∀ item k d text, key item = Ok k → Key_Digest k = Ok d → entries m !! d = Some text → decode false text = Ok (f item).
Definition sound (w : stored U) : Prop := sound_entries (sw_store w).

Definition loads (k : Key) (v : R) : Prop := ∀ item, key item = Ok k → v = f item.
Definition works (item : T) (v : R) : Prop := v = f item.
Notation keeps_entries Q p := (owns (λ m (_ : unit), sound_entries m) (λ r _, Q r) p tt).
Notation keeps Q p := (owns (λ w (_ : unit), sound w) (λ r _, Q r) p tt).

Lemma keeps_user {A} (Q : A → Prop) (p : prog memw A) : keeps_entries Q p → keeps Q (zoom (W := stored U) p).
Proof.
  intros Hp. eapply owns_conseq.
  - apply (owns_zoom (λ m (_ : unit), sound_entries m) (λ w (_ : unit), sound w) (λ _, tt) (λ r _, Q r) p tt); [|exact Hp].
    intros w [] [] Hw. exists tt. split; [exact Hw|]. by intros m [].
  - by intros r [] ([] & _ & HQ).
Qed.

Lemma keeps_ctx_Err c : keeps_entries (λ _, True) (mem_ctx_Err c).
Proof. apply owns_atomic. intros m [] Hm. by exists tt. Qed.

Lemma keeps_Load c k : keeps_entries (λ r, ∀ v, r = Ok (Some v) → loads k v) (MemoryStore_Load c k).
Proof.
  unfold MemoryStore_Load. eapply owns_rbind; [apply keeps_ctx_Err| |done]. intros [] [] _.
  destruct (Key_Digest k) as [d|e] eqn:Hd; [|by apply owns_ret].
  apply owns_bind' with (λ data _, ∀ item text, key item = Ok k → data = Some text → decode false text = Ok (f item)).
  - apply owns_atomic. intros m [] Hm. exists tt. split; [done|]. intros item text Hk Ht. by eapply Hm.
  - intros [text|] [] Htext; apply owns_ret; [|done]. intros v Hv item Hk.
    rewrite (Htext item text Hk eq_refl) in Hv. by injection Hv.
Qed.

Lemma keeps_Store c k item v : key item = Ok k → works item v → keeps_entries (λ _, True) (MemoryStore_Store c k v).
Proof.
  intros Hk ->. unfold MemoryStore_Store. eapply owns_rbind; [apply keeps_ctx_Err| |done]. intros [] [] _.
  destruct (Key_Digest k) as [d|e] eqn:Hd; [|by apply owns_ret].
  destruct (Hfaithful item) as (j & -> & _ & _ & Hj). apply owns_bind' with (λ _ _, True); [|by intros; apply owns_ret].
  apply owns_atomic. intros m [] Hm. exists tt. split; [|done]. intros item' k' d' text Hk' Hd'. simpl.
  destruct (decide (d' = d)) as [->|Hne]; [|rewrite lookup_insert_ne by done; by eapply Hm].
  rewrite lookup_insert_eq. intros [= <-]. rewrite Hj. f_equal. by eapply Hdet.
Qed.

(** Nothing the store does touches a context. *)
Lemma tame_user {A} n (p : prog memw A) : guarantees (tame (U := U) n) (λ _, True) (zoom (W := stored U) p).
Proof. eapply guarantees_zoom; [|by apply (guarantees_any (λ _, True))]. intros w m _. by split. Qed.

Context (Env : stored U → stored U → Prop) (c : ctx) (items : list T) (start : stored U).
Context (Henv : ∀ w w', Env w w' → (sound w → sound w') ∧ tame (U := U) (scopes (lw_ctxs (sw_limits start))) w w').
Context (Hstart : sound start) (Hctxs : ctxs_ok (lw_ctxs (sw_limits start))).

Lemma memory_client : cache_client Env sound loads works start key memory_cache.
Proof.
  split; try done.
  - intros ctx k. apply keeps_user, keeps_Load.
  - intros ctx k item v Hk Hv. by eapply keeps_user, keeps_Store.
  - intros ctx k. apply tame_user.
  - intros ctx k v. apply tame_user.
Qed.

Lemma same_key_same_value i j item item' d k k' :
  item_key key i item = Ok (k, d) → item_key key j item' = Ok (k', d) → f item = f item'.
Proof.
  unfold item_key. destruct (key item) as [k1|] eqn:H1; [|done]. destruct (Key_Digest k1) as [d1|] eqn:Hd1; [|done].
  destruct (key item') as [k2|] eqn:H2; [|done]. destruct (Key_Digest k2) as [d2|] eqn:Hd2; [|done].
  intros [= -> ->] [= -> ->]. by eapply Hdet.
Qed.

(** C8: [MapCached] over a [MemoryStore] whose entries are right, with a work function
    that computes [f]: whatever was in the store, and however the workers interleave
    with one another and with other users of the store, results are [f] of the items in
    order, and the store is right again. *)
Theorem MapCached_memory options work onResult notify w' rs rep :
  cached_args options (Some work) onResult = Ok (memory_cache, key, work, notify) →
  callback_ok sound start notify → work_ok sound works start work →
  MapCached_returns zero Env c items options (Some work) onResult start w' (Ok rs, rep) →
  rs = f <$> items ∧ sound w'.
Proof.
  intros Hargs Hn Hw Hret.
  destruct (MapCached_spec zero Env c items sound loads works start options work onResult memory_cache key work notify w' rs rep
    Hargs memory_client Hn Hw Hret) as (Hs & hits & misses & Hserved & _). split; [|done].
  eapply (served_transparent items loads works f key); [| | |exact Hserved].
  - intros k v item Hl Hk. by apply Hl.
  - done.
  - apply same_key_same_value.
Qed.
End memory.

(** ** A concrete run *)

Section example.
Notation W := (stored unit).

(** Three questions, two of them the same. *)
Definition said (b : bool) : json := JObj [("answer", JStr (if b then "yes" else "no"))].
Definition asked (b : bool) : res Key := NewKey "ask" "v1" (Ok (JBool b)).
Definition questions : list bool := [true; false; true].

Definition empty_store : W := Stored (Limits (Ctxs ∅ 1) [] [] [] tt) no_entries.
Definition nothing_moves : W → W → Prop := λ _ _, False.
Definition say : ctx → bool → prog W (res json) := λ _ b, mret (Ok (said b)).
Definition asking : CachedMapOptions (U := unit) (W := W) (T := bool) :=
  MkCachedMapOptions (MkMapOptions 2 None None) (Some memory_cache) (Some asked).

Lemma said_faithful b : faithful (said b).
Proof. exists (said b). split; [done|]. split; [by destruct b; vm_compute; repeat split|]. by destruct b; split; vm_compute. Qed.

Lemma asked_digests :
  match asked true ≫= Key_Digest, asked false ≫= Key_Digest with Ok d, Ok d' => d ≠ d' | _, _ => False end.
Proof. vm_compute. discriminate. Qed.

Lemma asked_apart (b b' : bool) k k' d :
  asked b = Ok k → asked b' = Ok k' → Key_Digest k = Ok d → Key_Digest k' = Ok d → said b = said b'.
Proof.
  intros Hk Hk' Hd Hd'. pose proof asked_digests as Hne.
  destruct b, b'; try reflexivity; exfalso; rewrite Hk, Hk' in Hne; simpl in Hne; rewrite Hd, Hd' in Hne; by apply Hne.
Qed.

(** Both keys are looked up: four actions, and nothing is found. *)
Definition groups_asked : list string * res (list (keyGroup bool)) := group_items (item_key asked) questions.
Definition or_none {A} (r : res (list A)) : list A := match r with Ok l => l | Err _ => [] end.
Definition groups_of_run : list (keyGroup bool) := or_none groups_asked.2.
Definition lookups : prog W (loading json * res (list (keyGroup bool))) :=
  load_run JNull [0%nat] questions memory_cache silent groups_asked.1 groups_of_run.
Definition not_found : loading json :=
  foldl (λ st g, miss (kg_indexes g) st) (load_start JNull 3 groups_asked.1) groups_of_run.

Lemma lookups_run : runs nothing_moves lookups empty_store (world_after 4 lookups empty_store) (not_found, Ok groups_of_run).
Proof. apply replay_runs. vm_compute. reflexivity. Qed.

(** The two workers take one group each. *)
Definition run_ctx : ctx := [1; 0]%nat.
Definition first_world : mapw W := MapW (world_after 4 lookups empty_store) (ld_outcomes not_found) 0 0.
Definition workers_start : mstate (mapw W) (keyGroup bool) (completed json) :=
  map_start (nothing JNull) (miss_options (co_Map asking)) groups_of_run
    (map_ctxs (λ _, (WithCancel [0%nat] (ctxs_of first_world)).1) first_world).
Notation run_job := (job (miss_options (co_Map asking)) (miss_work silent memory_cache say) run_ctx).
Definition schedule : list choice :=
  [Deliver 0; Deliver 1; FeedAll] ++ concat (replicate 5 [WorkerAct 0; WorkerAct 1]) ++ [WorkerAct 0] ++
  [EndFeeder; WorkerAct 0; WorkerAct 1; DrainWorker 0; DrainWorker 1; EndWorker 1; EndWorker 0].

Definition replayed_end : option (mstate (mapw W) (keyGroup bool) (completed json)) :=
  replay run_ctx run_job schedule workers_start.
Definition workers_end : mstate (mapw W) (keyGroup bool) (completed json) := default workers_start replayed_end.

Lemma workers_run : rtc (mstep run_ctx run_job (around nothing_moves)) workers_start workers_end ∧ mfinal workers_end.
Proof.
  destruct (ended mfinal replayed_end workers_start) as [Hr Hf]; [vm_compute; repeat constructor|].
  split; [by eapply replay_steps|exact Hf].
Qed.

Definition run_report : CacheReport := final_report not_found (m_world workers_end).

Lemma cached_run :
  MapCached_returns JNull nothing_moves [0%nat] questions asking (Some say) [] empty_store (mw_base (m_world workers_end))
    (Ok [said true; said false; said true], run_report).
Proof.
  assert (MapCached_returns JNull nothing_moves [0%nat] questions asking (Some say) [] empty_store (mw_base (m_world workers_end))
    ((λ cs, spread_all cs (ld_results not_found)) <$> map_result workers_end, run_report)) as Hret.
  { eapply (cached_worked _ _ _ _ _ _ _ _ memory_cache asked say silent groups_asked.1 groups_of_run); [reflexivity|done| | | |].
    - vm_compute. reflexivity.
    - exact lookups_run.
    - by vm_compute.
    - destruct workers_run as [Hs Hf]. eapply Map_runs; [by vm_compute|reflexivity|exact Hs|exact Hf]. }
  assert ((λ cs, spread_all cs (ld_results not_found)) <$> map_result workers_end = Ok [said true; said false; said true]) as Heq
    by (vm_compute; reflexivity).
  by rewrite Heq in Hret.
Qed.

Lemma run_report_shown :
  cr_Hits run_report = 0 ∧ cr_Misses run_report = 3 ∧ cr_Writes run_report = 2 ∧ cr_WorkCalls run_report = 2.
Proof. vm_compute. repeat split. Qed.

Lemma empty_sound : sound asked said empty_store.
Proof. intros item k d text _ _. simpl. rewrite lookup_empty. discriminate. Qed.

Lemma say_ok : work_ok (sound asked said) (works said) empty_store say.
Proof. split; [|done]. intros c item. apply owns_ret. by intros v [= <-]. Qed.

Lemma MapCached_memory_witness :
  MapCached_returns JNull nothing_moves [0%nat] questions asking (Some say) [] empty_store (mw_base (m_world workers_end))
    (Ok [said true; said false; said true], run_report) ∧
  sound asked said (mw_base (m_world workers_end)).
Proof.
  split; [exact cached_run|].
  apply (MapCached_memory JNull asked said said_faithful asked_apart nothing_moves [0%nat] questions empty_store
    ltac:(intros w w' []) empty_sound ltac:(intros id _; apply lookup_empty) asking say [] silent _ _ _ eq_refl
    (silent_ok _ _) say_ok cached_run).
Defined.

Lemma MapCached_contract_witness :
  ∃ hits misses, served (loads asked said) (works said) asked questions hits misses [said true; said false; said true] run_report ∧
    cr_WorkCalls run_report = wrap64 (Z.of_nat (length misses)).
Proof.
  apply (MapCached_contract JNull nothing_moves [0%nat] questions (sound asked said) (loads asked said) (works said) empty_store
    asking say [] memory_cache asked say silent _ _ _ eq_refl
    (memory_client asked said said_faithful asked_apart nothing_moves empty_store ltac:(intros w w' []) empty_sound
       ltac:(intros id _; apply lookup_empty)) (silent_ok _ _) say_ok cached_run).
Defined.

(** ** A concrete batch *)

Definition say_all : ctx → list bool → prog W (res (list json)) := λ _ l, mret (Ok (said <$> l)).
Definition asking_batches : CachedBatchMapOptions (U := unit) (W := W) (T := bool) :=
  MkCachedBatchMapOptions 1 None None 2 (Some memory_cache) (Some asked).
Definition one_batch : list (batch bool) := [Batch groups_of_run 2].

Definition batch_start : mstate (mapw W) (batch bool) (list (completed json)) :=
  map_start [] (batch_options asking_batches) one_batch
    (map_ctxs (λ _, (WithCancel [0%nat] (ctxs_of first_world)).1) first_world).
Notation batch_job := (job (batch_options asking_batches) (batch_work memory_cache say_all) run_ctx).
Definition batch_schedule : list choice :=
  [Deliver 0; FeedAll; EndFeeder] ++ replicate 11 (WorkerAct 0) ++ [DrainWorker 0; EndWorker 0].
Definition batch_replayed : option (mstate (mapw W) (batch bool) (list (completed json))) :=
  replay run_ctx batch_job batch_schedule batch_start.
Definition batch_end : mstate (mapw W) (batch bool) (list (completed json)) := default batch_start batch_replayed.
Definition batch_report : CacheReport := final_report not_found (m_world batch_end).

Lemma batch_run : rtc (mstep run_ctx batch_job (around nothing_moves)) batch_start batch_end ∧ mfinal batch_end.
Proof.
  destruct (ended mfinal batch_replayed batch_start) as [Hr Hf]; [vm_compute; repeat constructor|].
  split; [by eapply replay_steps|exact Hf].
Qed.

Lemma batched_run :
  MapCachedBatches_returns JNull nothing_moves [0%nat] questions asking_batches (Some say_all) empty_store (mw_base (m_world batch_end))
    (Ok [said true; said false; said true], batch_report).
Proof.
  assert (MapCachedBatches_returns JNull nothing_moves [0%nat] questions asking_batches (Some say_all) empty_store (mw_base (m_world batch_end))
    ((λ cs, spread_all (mjoin cs) (ld_results not_found)) <$> map_result batch_end, batch_report)) as Hret.
  { eapply (batches_worked _ _ _ _ _ _ _ memory_cache asked say_all groups_asked.1 groups_of_run _ not_found groups_of_run one_batch);
      [reflexivity|done| |exact lookups_run|by vm_compute|by vm_compute|vm_compute; reflexivity|].
    - vm_compute. reflexivity.
    - destruct batch_run as [Hs Hf]. eapply Map_runs; [done|reflexivity|exact Hs|exact Hf]. }
  assert ((λ cs, spread_all (mjoin cs) (ld_results not_found)) <$> map_result batch_end = Ok [said true; said false; said true]) as Heq
    by (vm_compute; reflexivity).
  by rewrite Heq in Hret.
Qed.

Lemma say_all_ok : batch_work_ok (sound asked said) (works said) empty_store say_all.
Proof.
  split; [|done]. intros c l. apply owns_ret. intros vs [= <-] _. induction l as [|b l IH]; by constructor.
Qed.

Lemma MapCachedBatches_contract_witness :
  ∃ hits misses, served (loads asked said) (works said) asked questions hits misses [said true; said false; said true] batch_report ∧
    cr_WorkCalls batch_report = wrap64 (Z.of_nat (length (batches 2 misses))).
Proof.
  destruct (MapCachedBatches_contract JNull nothing_moves [0%nat] questions (sound asked said) (loads asked said) (works said) empty_store
    asking_batches say_all memory_cache asked say_all _ _ _ eq_refl
    (memory_client asked said said_faithful asked_apart nothing_moves empty_store ltac:(intros w w' []) empty_sound
       ltac:(intros id _; apply lookup_empty)) say_all_ok batched_run) as (_ & hits & misses & Hs & Hc & _).
  exists hits, misses. split; [exact Hs|exact Hc].
Defined.

(** The work was called once for the two groups. *)
Example one_call : cr_WorkCalls batch_report = 1 ∧ cr_Writes batch_report = 2.
Proof. vm_compute. by split. Qed.

(** The capacity asked of [make] wraps around for the largest batch size: with two
    missing groups it is negative. *)
Lemma huge_batch_panics : batch_capacity 2 max64 = -1.
Proof. vm_compute. reflexivity. Qed.
End example.
