(* ===== verification/Bulk.v ===== *)
(** * Bulk steps: flow/bulk.go

    A bulk step hands many items to one provider call.  [runBulk] groups equal keys,
    loads what the store has, cuts the missing groups into batches and runs one job of
    [Map] (BoundedMap.v) per batch: admission of one unit per group, the retry loop
    around the bulk call, the failure policy for all items of the batch, and one store
    entry per group.  The variables of the call that the workers share (counters,
    meters, results) are a part of the world of the jobs, [bulkw].  The goroutine that
    logs progress, and live reports taken while the call runs, are not modelled. *)

From S2P Require Import Prelude GoError GoStrings Float64 Classify Policy Digest Json.
From S2P Require Import Go Limits Budget Chain ErrGroup BoundedMap ResourcePlan RunEnv Cache Report Step Runner Groups CachedMap.

Record bulkw (dyn U E O : Type) := Bulkw {
  bk_base : world dyn U E;
  bk_counts : StepReport;
  bk_meters : Meters;
  bk_results : list (Result O);
}.
Arguments Bulkw {_ _ _ _} _ _ _ _.
Arguments bk_base {_ _ _ _} _.
Arguments bk_counts {_ _ _ _} _.
Arguments bk_meters {_ _ _ _} _.
Arguments bk_results {_ _ _ _} _.

Definition set_bulk_base {dyn U E O} (w : world dyn U E) (u : bulkw dyn U E O) : bulkw dyn U E O :=
  Bulkw w (bk_counts u) (bk_meters u) (bk_results u).

#[export] Program Instance bulkw_base dyn U E O : Has (world dyn U E) (bulkw dyn U E O) :=
  {| inside := bk_base; replace := set_bulk_base |}.
Solve All Obligations with by intros; repeat match goal with u : bulkw _ _ _ _ |- _ => destruct u end.

#[export] Program Instance bulkw_limits dyn U E O : Has (limits U) (bulkw dyn U E O) :=
  {| inside u := inside (bk_base u); replace l u := set_bulk_base (replace l (bk_base u)) u |}.
Next Obligation. done. Qed.
Next Obligation. intros dyn U E O [[[] ? ? ? ? ?] ? ? ?]. done. Qed.
Next Obligation. intros dyn U E O l l' [[[] ? ? ? ? ?] ? ? ?]. done. Qed.

Section bulk.
Context {dyn U E I O : Type} `{!Boxed dyn O, !Codec O} {EG : ErrGroup} (Int63n : nat → Z → Z).
Notation W := (world dyn U E).
Notation BW := (bulkw dyn U E O).
Context (s : Step dyn U E I O) (doBulk : option (ctx → list I → prog W (list O * option error))) (batchSize : Z).
Context (o : Options dyn U E).
Implicit Types (c : ctx) (groups misses : list (keyGroup I)).

(** The checks of [validateOverride], which [runBulk] repeats. *)
Definition bulk_check : res unit :=
  match doBulk with
  | None => Err (Errorf "bulk step %q needs a bulk function" [ArgStr (st_Name s)])
  | Some _ =>
      if batchSize <? 1 then Err (Errorf "bulk step %q batch size must be positive" [ArgStr (st_Name s)]) else
      if decide (st_Name s = "") then Err (New "every step needs a name") else
      match Meter s, AttemptMeter s with
      | Some _, Some _ => Err (Errorf "step %q cannot set both Meter and AttemptMeter" [ArgStr (st_Name s)])
      | _, _ => Ok tt
      end
  end.

(** ** The variables of the call *)

Definition bulk_count (update : StepReport → StepReport) : prog BW unit :=
  modify (λ u, Bulkw (bk_base u) (update (bk_counts u)) (bk_meters u) (bk_results u)).
(** [results[index] = r] *)
Definition set_result_at (index : nat) (r : Result O) : prog BW unit :=
  modify (λ u, Bulkw (bk_base u) (bk_counts u) (bk_meters u) (<[index := r]> (bk_results u))).

Definition bulk_fault (e : error) : error := Errorf "step %q: %w" [ArgStr (st_Name s); ArgWrap e].
Definition bulk_item_fault (what : string) (index : nat) (e : error) : error :=
  Errorf ("step %q item %d: " +:+ what +:+ "%w") [ArgStr (st_Name s); ArgInt (Z.of_nat index); ArgWrap e].

Definition bulk_meter (metered : Meters) : prog BW (res unit) :=
  annotate bulk_fault (await (λ u,
    (λ '(m, r), (Bulkw (bk_base u) (bk_counts u) m (bk_results u), r)) <$> AddChecked (bk_meters u) metered)).

Definition bulk_emit c (ev : Event) : prog BW (res unit) :=
  annotate bulk_fault (zoom (emitLedger c o (set_Step (st_Name s) ev))).

(** [notify], in the context of [runBulk] itself wherever it is called from;
    [runCore] passes the step's own hook. *)
Definition bulk_notify c (index : nat) (value : O) (outcome : CacheOutcome) : prog BW (res unit) :=
  match OnResult s with
  | None => mret (Ok tt)
  | Some hook => annotate (bulk_item_fault "result hook: " index) (zoom (hook c index value outcome))
  end.

Definition bulk_resources : list string := r_Name <$> Admission (st_Policy s).

(** [report], once the workers are done. *)
Definition bulk_report : prog BW Report :=
  shown ← read (λ u, (bk_counts u, bk_meters u));
  spend ← zoom (read_spend o bulk_resources);
  let '(r, m) := (shown : StepReport * Meters) in
  mret (Some {[ st_Name s :=
    MkStepReport (Items r) (Hits r) (Misses r) (Stored r) (WorkCalls r) (StartedSequences r) (Retries r)
      (Quarantined r) (Skipped r) (RetriesByClass r) spend
      (if decide (m = ∅) then None else Some (Meters_Add ∅ m)) ]}).

(** ** Up to the batches *)

(** The store, when results are cached. *)
Definition bulk_store : option (Store dyn U E) :=
  if decide (Kind (st_Identity s) = "") then None else opt_Store o.

Definition bulk_key (index : nat) (item : I) : res (Key * string) :=
  match Step_Key s item with
  | Err e => Err e
  | Ok key =>
      match Key_Digest key with
      | Err e => Err (bulk_item_fault "" index e)
      | Ok d => Ok (key, d)
      end
  end.

Definition bulk_groups (items : list I) : res (list (keyGroup I)) :=
  match bulk_store with
  | Some _ => (group_items bulk_key items).2
  | None => Ok (imap (λ index item, KeyGroup zero_key "" item [index]) items)
  end.

Definition count_hit (r : StepReport) : StepReport := bump 0 1 0 0 0 0 0 0 0 r.
Definition count_misses (n : nat) : StepReport → StepReport := bump 0 0 (Z.of_nat n) 0 0 0 0 0 0.
Definition set_Items (n : Z) (r : StepReport) : StepReport :=
  MkStepReport n (Hits r) (Misses r) (Stored r) (WorkCalls r) (StartedSequences r) (Retries r)
    (Quarantined r) (Skipped r) (RetriesByClass r) (Spend r) (sr_Meters r).

Definition bulk_hit c (value : O) (outcome : CacheOutcome) (index : nat) : prog BW (res unit) :=
  _ ← bulk_count count_hit;
  _ ← set_result_at index (MkResult value outcome None false);
  _ ←? bulk_emit c (item_event index EventHit);
  bulk_notify c index value outcome.

Fixpoint bulk_load (store : Store dyn U E) c groups misses : prog BW (res (list (keyGroup I))) :=
  match groups with
  | [] => mret (Ok misses)
  | g :: groups =>
      loaded ←? annotate (bulk_item_fault "load cache entry: " (default 0%nat (head (kg_indexes g))))
                  (zoom (Load store O c (kg_key g)));
      match loaded with
      | None =>
          _ ← bulk_count (count_misses (length (kg_indexes g)));
          bulk_load store c groups (misses ++ [g])
      | Some value =>
          _ ←? for_each (kg_indexes g) (bulk_hit c value (MkOutcome (kg_digest g) CacheHit));
          bulk_load store c groups misses
      end
  end.

(** What is left for the batches. *)
Definition bulk_prepare c (items : list I) : prog BW (res (list (keyGroup I))) :=
  match bulk_groups items with
  | Err e => mret (Err e)
  | Ok groups =>
      match bulk_store with
      | None => mret (Ok groups)
      | Some store => bulk_load store c groups []
      end
  end.

(** ** One batch *)

Definition bulk_refused (attempt : Z) (name : string) (units : nat) (e : error) (plan : option ResourcePlan) : error :=
  Errorf "step %q attempt %d: resource %q admission refused a %d-item batch: %w; stated ceiling %d, admitted budget %d — cache hits are free"
    [ArgStr (st_Name s); ArgInt attempt; ArgStr name; ArgInt (Z.of_nat units); ArgWrap e;
     ArgInt (match plan with Some p => Ceiling p | None => 0 end);
     ArgInt (match plan with Some p => plan_Budget p | None => 0 end)].

Definition bulk_admit c (attempt : Z) (units : nat) : prog W (res unit) :=
  admitted ← admit_units o bulk_resources c (Z.of_nat units);
  match admitted.2 with
  | Ok _ => mret (Ok tt)
  | Err e =>
      if Is e ErrBudgetExceeded then
        plan ← plan_of o admitted.1;
        mret (Err (bulk_refused attempt admitted.1 units e plan))
      else mret (Err (Errorf "step %q attempt %d: wait for resource %q: %w"
                        [ArgStr (st_Name s); ArgInt attempt; ArgStr admitted.1; ArgWrap e]))
  end.

(** For every input of the batch. *)
Definition for_inputs groups (body : keyGroup I → nat → prog BW (res unit)) : prog BW (res unit) :=
  for_each groups (λ g, for_each (kg_indexes g) (body g)).

(** The values of a call that succeeded, or the last error with its class and the
    number of attempts made. *)
Definition bulk_outcome : Type := list O + (error * ErrorClass * Z).

Fixpoint bulk_attempts (call : ctx → list I → prog W (list O * option error)) c groups (more : nat) (attempt delay : Z)
    : prog BW (res bulk_outcome) :=
  _ ←? zoom (bulk_admit c attempt (length groups));
  _ ← (if attempt =? 1 then bulk_count one_started else mret tt);
  out ← zoom (call c (kg_item <$> groups));
  _ ← bulk_count one_work_call;
  _ ←? match AttemptMeter s with
       | Some meter => for_each out.1 (λ value, bulk_meter (meter value out.2))
       | None => mret (Ok tt)
       end;
  match out.2 with
  | None =>
      if bool_decide (length out.1 = length groups) then mret (Ok (inl out.1))
      else mret (Err (Errorf "step %q: bulk call returned %d results for %d items"
                        [ArgStr (st_Name s); ArgInt (Z.of_nat (length out.1)); ArgInt (Z.of_nat (length groups))]))
  | Some e =>
      canceled ← zoom (read (world_ctx_err c));
      match canceled with
      | Some _ => mret (Err (bulk_fault e))
      | None =>
          let class := effective_classifier (st_Policy s) e in
          if negb (class_valid class) then
            mret (Err (Errorf "step %q: classifier returned unknown error class %d"
                         [ArgStr (st_Name s); ArgInt (match class with UnknownClass n => n | _ => 0 end)]))
          else
            match class, more with
            | Transient, S more =>
                _ ← bulk_count (one_retry (class_String class));
                _ ←? for_inputs groups (λ g index, bulk_emit c (class_event index EventRetry class attempt e));
                _ ←? zoom (pause Int63n c delay (Cap (withDefaults (retry_backoff (Retry (st_Policy s))))));
                bulk_attempts call c groups more (attempt + 1)
                  (nextRetryDelay delay (Cap (withDefaults (retry_backoff (Retry (st_Policy s))))))
            | _, _ => mret (Ok (inr (e, class, attempt)))
            end
      end
  end.

(** The failure policy, for every input of the batch. *)
Definition abandon c (e : error) (class : ErrorClass) (made : Z) (index : nat) : prog BW (res unit) :=
  if bool_decide (OnError (st_Policy s) = Skip) then
    _ ← modify (λ u, Bulkw (bk_base u) (one_skipped (bk_counts u)) (bk_meters u)
                       (<[index := MkResult zero_value no_outcome None true]> (bk_results u)));
    bulk_emit c (class_event index EventSkipped class 0 e)
  else
    _ ← modify (λ u, Bulkw (bk_base u) (one_quarantined (bk_counts u)) (bk_meters u)
                       (<[index := MkResult zero_value no_outcome
                                     (Some (MkItemError (st_Name s) index class made (Error e))) false]> (bk_results u)));
    bulk_emit c (class_event index EventQuarantined class 0 e).

Definition bulk_fail c groups (e : error) (class : ErrorClass) (made : Z) : prog BW (res unit) :=
  if bool_decide (class = Fatal) || bool_decide (OnError (st_Policy s) = FailFast) then
    mret (Err (Errorf "step %q batch [%s]: %w" [ArgStr (st_Name s); ArgStr (class_String class); ArgWrap e]))
  else for_inputs groups (λ g, abandon c e class made).

(** One group of a batch that succeeded: its outcome and the type of its events. *)
Definition bulk_commit c (g : keyGroup I) (value : O) : prog BW (res (CacheOutcome * EventType)) :=
  match bulk_store with
  | None => mret (Ok (no_outcome, EventDone))
  | Some store =>
      _ ←? annotate (bulk_item_fault "store cache entry: " (default 0%nat (head (kg_indexes g))))
             (zoom (Put store O (WithoutCancel c) (kg_key g) value));
      _ ← bulk_count one_stored;
      mret (Ok (MkOutcome (kg_digest g) CacheStored, EventStored))
  end.

Definition set_results (indexes : list nat) (r : Result O) : prog BW unit :=
  modify (λ u, Bulkw (bk_base u) (bk_counts u) (bk_meters u) (spread r indexes (bk_results u))).

Definition bulk_deliver (outer : ctx) c (g : keyGroup I) (value : O) : prog BW (res unit) :=
  committed ←? bulk_commit c g value;
  let '(outcome, eventType) := committed in
  _ ← set_results (kg_indexes g) (MkResult value outcome None false);
  for_each (kg_indexes g) (λ index,
    _ ←? bulk_emit c (item_event index eventType);
    bulk_notify outer index value outcome).

Fixpoint deliver_all (outer : ctx) c groups (values : list O) : prog BW (res unit) :=
  match groups, values with
  | g :: groups, value :: values => _ ←? bulk_deliver outer c g value; deliver_all outer c groups values
  | _, _ => mret (Ok tt)
  end.

(** The job of the [Map]; [outer] is the context [runBulk] was called with. *)
Definition bulk_batch (outer : ctx) (call : ctx → list I → prog W (list O * option error)) c groups : prog BW (res unit) :=
  outcome ←? bulk_attempts call c groups (Z.to_nat (effective_attempts (st_Policy s) - 1)) 1
               (Base (withDefaults (retry_backoff (Retry (st_Policy s)))));
  match outcome with
  | inr (e, class, made) => bulk_fail c groups e class made
  | inl values =>
      _ ←? match Meter s with
           | Some meter => for_each values (λ value, bulk_meter (meter value))
           | None => mret (Ok tt)
           end;
      deliver_all outer c groups values
  end.

(** ** runBulk *)

Definition bulk_options : MapOptions U (list (keyGroup I)) :=
  MkMapOptions (effective_workers (st_Policy s)) None None.

(** What happens around the call leaves its variables alone. *)
Definition bulk_around (Env : W → W → Prop) (u u' : BW) : Prop :=
  Env (bk_base u) (bk_base u') ∧ u' = set_bulk_base (bk_base u') u.

Definition empty_result : Result O := MkResult zero_value no_outcome None false.
(** The variables at the checks, and once [counts.Items] has been set. *)
Definition bulk_begin (w : W) : BW := Bulkw w zero_report ∅ [].
Definition bulk_start (items : list I) (w : W) : BW :=
  Bulkw w (set_Items (Z.of_nat (length items)) zero_report) ∅ (replicate (length items) empty_result).

(** What [runBulk] can return. *)
Inductive runBulk_returns (Env : W → W → Prop) c (items : list I) (w : W) : W → res (list (Result O)) * Report → Prop :=
| bulk_invalid e u rep :
    bulk_check = Err e →
    runs (bulk_around Env) bulk_report (bulk_begin w) u rep →
    runBulk_returns Env c items w (bk_base u) (Err e, rep)
| bulk_unprepared e u1 u rep :
    bulk_check = Ok tt →
    runs (bulk_around Env) (bulk_prepare c items) (bulk_start items w) u1 (Err e) →
    runs (bulk_around Env) bulk_report u1 u rep →
    runBulk_returns Env c items w (bk_base u) (Err e, rep)
| bulk_all_hits u1 u rep :
    bulk_check = Ok tt →
    runs (bulk_around Env) (bulk_prepare c items) (bulk_start items w) u1 (Ok []) →
    runs (bulk_around Env) bulk_report u1 u rep →
    runBulk_returns Env c items w (bk_base u) (Ok (bk_results u1), rep)
| bulk_worked call misses u1 u2 u r rep :
    bulk_check = Ok tt → doBulk = Some call →
    runs (bulk_around Env) (bulk_prepare c items) (bulk_start items w) u1 (Ok misses) → misses ≠ [] →
    0 ≤ batch_capacity (Z.of_nat (length misses)) batchSize →
    Map_returns tt (bulk_around Env) c (batches (Z.to_nat batchSize) misses) bulk_options u1 (Some (bulk_batch c call)) u2 r →
    runs (bulk_around Env) bulk_report u2 u rep →
    runBulk_returns Env c items w (bk_base u) ((λ _, bk_results u2) <$> r, rep).
End bulk.
