(* ===== verification/BulkProofs.v ===== *)
(** * What a bulk step guarantees: proofs for Bulk.v

    A worker's account holds what it added to the counters, the results it has
    written, and what it took from one budget.  Results are claimed: as long as one
    goroutine writes an index, the result there is what it wrote.  [runBulk_contract]
    says where every result comes from, and that counters and budget are exact. *)

From S2P Require Import Prelude GoError GoStrings Float64 Classify Policy Digest Json.
From S2P Require Import Go Limits Budget Chain ErrGroup BoundedMap ResourcePlan RunEnv Cache Report Step Runner RunnerProofs.
From S2P Require Import Pipeline PipelineProofs Flow FlowProofs RunExact Groups CachedMap CachedMapProofs Bulk.

(** ** Claims *)

(** What was written at an index: [None] when two accounts claim it. *)
Notation claims R := (gmap nat (option R)).

#[export] Program Instance claims_account R : Account (claims R) :=
  {| azero := (∅ : gmap nat (option R)); aplus := union_with (λ _ _, Some None) |}.
Next Obligation.
  intros R x y. apply map_eq. intros i. rewrite !lookup_union_with. by destruct (x !! i), (y !! i).
Qed.
Next Obligation.
  intros R x y z. apply map_eq. intros i. rewrite !lookup_union_with. by destruct (x !! i), (y !! i), (z !! i).
Qed.
Next Obligation. intros R x. apply map_eq. intros i. rewrite lookup_union_with, lookup_empty. by destruct (x !! i). Qed.

Section claims.
Context {R : Type}.
Implicit Types (γ o : claims R) (init rs : list R) (l : list (nat * R)).

Definition claim (p : nat * R) : claims R := {[ p.1 := Some p.2 ]}.
Definition claims_of l : claims R := total (claim <$> l).

Lemma claims_lookup γ o i :
  (γ ⊹ o : claims R) !! i = union_with (λ _ _, Some None) (γ !! i) (o !! i).
Proof. apply lookup_union_with. Qed.

Lemma claims_of_none l i : i ∉ l.*1 → claims_of l !! i = None.
Proof.
  unfold claims_of. induction l as [|[j r] l IH]; intros Hi; [apply lookup_empty|].
  rewrite fmap_cons in Hi. apply not_elem_of_cons in Hi as [Hne Hi]. rewrite fmap_cons.
  change (total (?a :: ?k)) with (a ⊹ total k). rewrite claims_lookup, IH by done.
  unfold claim. by rewrite lookup_singleton_ne by done.
Qed.

Lemma claims_of_lookup l i r : NoDup l.*1 → (i, r) ∈ l → claims_of l !! i = Some (Some r).
Proof.
  induction l as [|[j r'] l IH]; rewrite ?fmap_cons; intros Hnd Hin; [by apply elem_of_nil in Hin|].
  apply NoDup_cons in Hnd as [Hj Hnd]. unfold claims_of. rewrite fmap_cons.
  change (total (?a :: ?k)) with (a ⊹ total k). rewrite claims_lookup. change (total (claim <$> l)) with (claims_of l).
  unfold claim. apply elem_of_cons in Hin as [[= -> ->]|Hin].
  - by rewrite lookup_singleton_eq, claims_of_none.
  - assert (j ≠ i) as Hne by (intros ->; apply Hj, list_elem_of_fmap; by exists (i, r)).
    rewrite lookup_singleton_ne by done. rewrite IH by done. done.
Qed.

(** Unclaimed indexes are as they were, those claimed once hold what was written. *)
Definition claims_hold init rs γ : Prop :=
  length rs = length init ∧
  ∀ i, match γ !! i with
       | None => rs !! i = init !! i
       | Some (Some r) => (i < length init)%nat → rs !! i = Some r
       | Some None => True
       end.

Lemma claims_hold_start init : claims_hold init init azero.
Proof. split; [done|]. intros i. change ((azero : claims R) !! i) with ((∅ : claims R) !! i). by rewrite lookup_empty. Qed.

Lemma claims_hold_write init rs o i r :
  claims_hold init rs o → claims_hold init (<[i := r]> rs) (claim (i, r) ⊹ o).
Proof.
  intros [Hl Ho]. split; [by rewrite length_insert|]. intros j. rewrite claims_lookup. specialize (Ho j).
  destruct (decide (j = i)) as [->|Hne].
  - unfold claim. rewrite lookup_singleton_eq. destruct (o !! i); simpl; [done|]. intros Hi.
    apply list_lookup_insert_eq. by rewrite Hl.
  - unfold claim. rewrite lookup_singleton_ne, list_lookup_insert_ne by done. by destruct (o !! j).
Qed.

Lemma claims_of_app l l' : claims_of (l ++ l') = claims_of l ⊹ claims_of l'.
Proof. unfold claims_of. by rewrite fmap_app, total_app. Qed.

Lemma claims_of_cons p l : claims_of (p :: l) = claim p ⊹ claims_of l.
Proof. done. Qed.

Lemma claims_hold_spread init rs o is_ r :
  claims_hold init rs o → claims_hold init (spread r is_ rs) (claims_of ((λ i, (i, r)) <$> is_) ⊹ o).
Proof.
  unfold spread. revert rs o. induction is_ as [|i is_ IH]; intros rs o Ho; cbn [foldl].
  - change (claims_of ((λ i, (i, r)) <$> [])) with (azero : claims R). by rewrite aplus_zero.
  - rewrite fmap_cons, claims_of_cons, <-aplus_assoc, (aplus_comm (claims_of _)), aplus_assoc, aplus_comm.
    by apply IH, claims_hold_write.
Qed.
End claims.

(** ** The invariant of a bulk call *)

Section accounting.
Context {dyn U E I O : Type} `{!Boxed dyn O, !Codec O} {EG : ErrGroup} (Int63n : nat → Z → Z).
Notation W := (world dyn U E).
Notation BW := (bulkw dyn U E O).
Notation M := (tally * claims (Result O) * share)%type.
Context (s : Step dyn U E I O) (o : Options dyn U E) (e b : nat) (x0 : budget) (L : gmap string (Limiter U)).
Context (init : list (Result O)).
Implicit Types (c : ctx) (groups : list (keyGroup I)) (w : W).

Definition base_inv w (m : share) : Prop := admit_inv e b x0 L ∅ (wd_env w) m.

Definition Inv (u : BW) (m : M) : Prop :=
  counts_show (bk_counts u) m.1.1 ∧ meters_finite (bk_meters u) ∧
  claims_hold init (bk_results u) m.1.2 ∧ base_inv (bk_base u) m.2.

Definition wrote (t : tally) (l : list (nat * Result O)) : M := (t, claims_of l, azero).
Notation quiet p := (owns Inv (λ _ m, m = azero) p azero).
Notation base_quiet p := (owns base_inv (λ _ m, m = azero) p azero).

(** An action on the variables of the call. *)
Lemma owns_local (f : BW → BW) t l :
  (∀ u, bk_meters (f u) = bk_meters u ∧ bk_base (f u) = bk_base u) →
  (∀ u t', counts_show (bk_counts u) t' → counts_show (bk_counts (f u)) (t ⊹ t')) →
  (∀ u γ, claims_hold init (bk_results u) γ → claims_hold init (bk_results (f u)) (claims_of l ⊹ γ)) →
  owns Inv (λ _ m, m = wrote t l) (modify f) azero.
Proof.
  intros Hf Ht Hl. apply owns_atomic. intros u [[o1 o2] o3] Hu.
  change (azero ⊹ (o1, o2, o3)) with ((azero ⊹ o1, azero ⊹ o2, azero ⊹ o3) : M) in Hu.
  rewrite !aplus_zero in Hu. destruct Hu as (Hc & Hm & Hr & Hb).
  exists (wrote t l). split; [|done]. destruct (Hf u) as [Hfm Hfb].
  change (wrote t l ⊹ (o1, o2, o3)) with ((t ⊹ o1, claims_of l ⊹ o2, azero ⊹ o3) : M). rewrite aplus_zero.
  cbn [fst snd] in *. split_and!; cbn [fst snd]; [by apply Ht|by rewrite Hfm|by apply Hl|by rewrite Hfb].
Qed.

Lemma claims_nil (γ : claims (Result O)) : claims_of [] ⊹ γ = γ.
Proof. apply aplus_zero. Qed.

Lemma owns_bulk_count up t : adds up t → owns Inv (λ _ m, m = wrote t []) (bulk_count up) azero.
Proof. intros Hu. apply owns_local; [done|by intros; apply Hu|]. intros u γ. by rewrite claims_nil. Qed.

Lemma claims_one (p : nat * Result O) γ : claims_of [p] ⊹ γ = claim p ⊹ γ.
Proof. change (claims_of [p]) with (claim p ⊹ azero). by rewrite aplus_zero_r. Qed.

Lemma owns_set_result_at i r : owns Inv (λ _ m, m = wrote azero [(i, r)]) (set_result_at i r) azero.
Proof.
  apply owns_local; [done| |].
  - intros u t Hc. by rewrite aplus_zero.
  - intros u γ Hγ. rewrite claims_one. by apply claims_hold_write.
Qed.

(** ** Accounts in sequence *)

(** Counted [t], wrote [l], took [n] units. *)
Definition does (t : tally) (l : list (nat * Result O)) (n : N) (m : M) : Prop :=
  m.1 = (t, claims_of l) ∧ m.2.1 = (0%N, n).

Lemma does_zero : does azero [] 0 azero.
Proof. done. Qed.

Lemma does_wrote t l : does t l 0 (wrote t l).
Proof. done. Qed.

Lemma does_add t l n m t' l' n' m' :
  does t l n m → does t' l' n' m' → does (t' ⊹ t) (l ++ l') (n + n') (m' ⊹ m).
Proof.
  destruct m as [m1 [[h1 s1] f1]], m' as [m1' [[h2 s2] f2]]. unfold does. cbn [fst snd].
  intros [-> [= -> ->]] [-> [= -> ->]]. rewrite claims_of_app, (aplus_comm (claims_of l)). split; [done|].
  change ((0 + 0, n' + n)%N = (0%N, (n + n')%N)). f_equal. lia.
Qed.

Notation yields Q p :=
  (owns Inv (λ r m, ∀ x, r = Ok x → ∃ t l n, does t l n m ∧ Q x t l n) p azero).

Lemma yields_ret {A} (Q : A → tally → list (nat * Result O) → N → Prop) (x : A) :
  Q x azero [] 0%N → yields Q (mret (M := prog BW) (Ok x)).
Proof. intros HQ. apply owns_ret. intros ? [= <-]. by exists azero, [], 0%N. Qed.

Lemma yields_err {A} (Q : A → tally → list (nat * Result O) → N → Prop) err : yields Q (mret (M := prog BW) (Err err)).
Proof. apply owns_ret. by intros x [=]. Qed.

Lemma yields_then {A B} (P : A → tally → list (nat * Result O) → N → Prop) (Q : B → tally → list (nat * Result O) → N → Prop)
    (p : prog BW (res A)) (f : A → prog BW (res B)) :
  yields P p → (∀ x t l n, P x t l n → yields (λ y t' l' n', Q y (t' ⊹ t) (l ++ l') (n + n')%N) (f x)) →
  yields Q (rbind f p).
Proof.
  intros Hp Hf. eapply owns_rthen; [exact Hp| |by intros err m _ x [=]]. intros x m Hm.
  destruct (Hm x eq_refl) as (t & l & n & Hd & HP). eapply owns_conseq; [by eapply Hf|].
  intros r m' Hm' y Hy. destruct (Hm' y Hy) as (t' & l' & n' & Hd' & HQ).
  exists (t' ⊹ t), (l ++ l'), (n + n')%N. split; [by apply does_add|done].
Qed.

Lemma yields_after {A B} (t0 : tally) (l0 : list (nat * Result O)) (P : A → Prop) (Q : B → tally → list (nat * Result O) → N → Prop)
    (p : prog BW A) (f : A → prog BW (res B)) :
  owns Inv (λ a m, m = wrote t0 l0 ∧ P a) p azero →
  (∀ a, P a → yields (λ y t l n, Q y (t ⊹ t0) (l0 ++ l) n) (f a)) → yields Q (p ≫= f).
Proof.
  intros Hp Hf. eapply owns_then; [exact Hp|]. intros a m [-> HP].
  eapply owns_conseq; [by apply Hf|]. intros r m' Hm' y Hy. destruct (Hm' y Hy) as (t & l & n & Hd & HQ).
  exists (t ⊹ t0), (l0 ++ l), n. split; [by apply (does_add t0 l0 0%N _ t l n)|done].
Qed.

Lemma yields_quietly {A B} (P : A → Prop) (Q : B → tally → list (nat * Result O) → N → Prop) (p : prog BW A) (f : A → prog BW (res B)) :
  owns Inv (λ a m, m = azero ∧ P a) p azero → (∀ a, P a → yields Q (f a)) → yields Q (p ≫= f).
Proof.
  intros Hp Hf. eapply (yields_after azero []); [exact Hp|]. intros a HP. eapply owns_conseq; [by apply Hf|].
  intros r m Hm y Hy. destruct (Hm y Hy) as (t & l & n & Hd & HQ). exists t, l, n. by rewrite aplus_zero_r.
Qed.

Lemma yields_quiet {A B} (Q : B → tally → list (nat * Result O) → N → Prop) (p : prog BW (res A)) (f : A → prog BW (res B)) :
  quiet p → (∀ a, yields Q (f a)) → yields Q (rbind f p).
Proof.
  intros Hp Hf. eapply (yields_quietly (λ _, True)); [eapply owns_conseq; [exact Hp|done]|].
  intros [a|err] _; [apply Hf|apply yields_err].
Qed.

Lemma yields_conseq {A} (Q Q' : A → tally → list (nat * Result O) → N → Prop) (p : prog BW (res A)) :
  yields Q p → (∀ x t l n, Q x t l n → Q' x t l n) → yields Q' p.
Proof.
  intros Hp HQ. eapply owns_conseq; [exact Hp|]. intros r m Hm x Hx. destruct (Hm x Hx) as (t & l & n & Hd & Hq).
  exists t, l, n. auto.
Qed.

Lemma yields_of_quiet (p : prog BW (res unit)) : quiet p → yields (λ _ t l n, t = azero ∧ l = [] ∧ n = 0%N) p.
Proof. intros Hp. eapply owns_conseq; [exact Hp|]. intros r m -> x _. by exists azero, [], 0%N. Qed.

Lemma yields_for_each {A} (T : A → tally) (F : A → list (nat * Result O)) (xs : list A) body :
  (∀ x, x ∈ xs → yields (λ _ t l n, t = T x ∧ l = F x ∧ n = 0%N) (body x)) →
  yields (λ _ t l n, t = total (T <$> xs) ∧ l = xs ≫= F ∧ n = 0%N) (for_each xs body).
Proof.
  induction xs as [|x xs IH]; intros Hb; cbn [for_each]; [by apply yields_ret|].
  eapply yields_then; [apply Hb; by left|]. intros [] t l n (-> & -> & ->).
  eapply yields_conseq; [apply IH; intros y Hy; apply Hb; by right|]. intros [] t l n (-> & -> & ->).
  split; [|done]. rewrite fmap_cons. apply aplus_comm.
Qed.

Lemma quiet_for_each {A} (xs : list A) (body : A → prog BW (res unit)) : (∀ x, quiet (body x)) → quiet (for_each xs body).
Proof.
  intros Hb. induction xs as [|x xs IH]; [by apply owns_ret|]. cbn [for_each].
  apply owns_rquiet; [apply Hb|done|done].
Qed.

(** ** Programs of the run *)

Lemma bulk_owns_base {A} (Q : A → share → Prop) (p : prog W A) :
  owns base_inv Q p azero → owns Inv (λ a m, m.1 = azero ∧ Q a m.2) (zoom p) azero.
Proof.
  intros Hp. eapply owns_conseq.
  - apply (owns_zoom base_inv Inv (λ m, (azero, m))); [|exact Hp].
    intros u m [o1 o2] (Hc & Hm & Hr & Hb). exists o2. split; [done|]. intros w' m' Hw'. by split_and!.
  - by intros a m (m' & -> & HQ).
Qed.

Lemma quiet_base {A} (p : prog W A) : base_quiet p → quiet (zoom p).
Proof. intros Hp. eapply owns_conseq; [by apply bulk_owns_base|]. intros a [m1 m2] [Hm1 Hm2]. simpl in *. by subst. Qed.

Lemma quiet_base_and {A} (P : A → Prop) (p : prog W A) :
  owns base_inv (λ a m, m = azero ∧ P a) p azero → owns Inv (λ a m, m = azero ∧ P a) (zoom p) azero.
Proof. intros Hp. eapply owns_conseq; [by apply bulk_owns_base|]. intros a [m1 m2] [Hm1 [Hm2 HP]]. simpl in *. by subst. Qed.

Lemma quiet_annotate {A} f (p : prog BW (res A)) : quiet p → quiet (annotate f p).
Proof. intros Hp. by apply owns_annotate. Qed.

(** What the caller's functions do: they leave the budget alone. *)
Context (doBulk : option (ctx → list I → prog W (list O * option error))).
Context (CallQ : list I → list O * option error → Prop) (LoadQ : Key → O → Prop).

Record bulk_well_behaved : Prop := {
  bb_call call c items : doBulk = Some call → owns base_inv (λ out m, m = azero ∧ CallQ items out) (call c items) azero;
  bb_load store c key : opt_Store o = Some store →
    owns base_inv (λ r m, m = azero ∧ ∀ v, r = Ok (Some v) → LoadQ key v) (Load store O c key) azero;
  bb_put store c key v : opt_Store o = Some store → base_quiet (Put store O c key v);
  bb_hook hook c index v outcome : OnResult s = Some hook → base_quiet (hook c index v outcome);
  bb_ledger l c ev : Ledger o = Some l → base_quiet (l c ev);
  bb_clock p : Clock o = Some p → base_quiet p;
}.
Context (Hwb : bulk_well_behaved).
Context (Henv : opt_env o = Some e).
Context (Hres : ∀ name, name ∈ bulk_resources s → is_Some (L !! name)).

Lemma base_quiet_read {X} (f : W → X) : base_quiet (read f).
Proof. apply owns_atomic. intros w m Hw. by exists azero. Qed.

Lemma quiet_bulk_emit c ev : quiet (bulk_emit s o c ev).
Proof.
  apply quiet_annotate, quiet_base. unfold emitLedger.
  destruct (Ledger o) as [l|] eqn:Hl; [|by apply owns_ret]. apply owns_quiet.
  - destruct (Report.At _); [by apply owns_ret|]. apply owns_quiet; [|by intros; apply owns_ret].
    unfold now. destruct (Clock o) eqn:Hclock; [by eapply bb_clock|apply base_quiet_read].
  - intros ev'. apply owns_quiet; [by eapply bb_ledger|]. by intros; apply owns_ret.
Qed.

Lemma quiet_bulk_notify c index v outcome : quiet (bulk_notify s c index v outcome).
Proof.
  unfold bulk_notify. destruct (OnResult s) as [hook|] eqn:Hh; [|by apply owns_ret].
  apply quiet_annotate, quiet_base. by eapply bb_hook.
Qed.

Lemma quiet_bulk_meter metered : quiet (bulk_meter (E := E) (O := O) (dyn := dyn) (U := U) s metered).
Proof.
  apply quiet_annotate. apply owns_await. intros u m u' r (Hc & Hm & Hr & Hb) Hin.
  apply list_elem_of_fmap in Hin as ([m' r'] & [= -> ->] & Hin). exists azero. split; [|done].
  split_and!; [done| |done|done]. apply AddChecked_spec' in Hin. destruct r'; [by apply Hin|]. by destruct Hin as [-> _].
Qed.

Lemma quiet_pause c delay maximum : quiet (zoom (pause (dyn := dyn) (U := U) (E := E) Int63n c delay maximum)).
Proof.
  apply quiet_base. apply owns_quiet.
  - apply owns_atomic. intros w m Hw. exists azero. by case_match.
  - intros wait. apply owns_await. intros w m w' x Hw Hin. exists azero. split; [|done].
    apply elem_of_app in Hin as [Hin|[= -> ->]%list_elem_of_singleton]; [|done].
    destruct (world_ctx_err c w); [by apply list_elem_of_singleton in Hin as [= -> ->]|].
    by apply elem_of_nil in Hin.
Qed.

(** ** One batch *)

Definition batch_charge (units : nat) : N := charges_of L b (Z.of_nat units) (bulk_resources s).

(** A program on the environment. *)
Lemma base_env {A} (Q : A → share → Prop) (p : prog (envw U) A) :
  owns (admit_inv e b x0 L ∅) Q p azero → owns base_inv Q (zoom p) azero.
Proof.
  intros Hp. eapply owns_conseq.
  - apply (owns_zoom (admit_inv e b x0 L ∅) base_inv id Q); [|exact Hp].
    intros w m m' Hm. exists m'. split; [exact Hm|]. by intros.
  - by intros a m (m' & -> & HQ).
Qed.

Lemma base_quiet_plan name : base_quiet (plan_of o name).
Proof.
  unfold plan_of. rewrite Henv. apply base_env, owns_await. intros w m w' x [Hb (env & He & HL)] Hin. rewrite He in Hin.
  apply list_elem_of_singleton in Hin as [= -> ->]. exists azero. split; [|done].
  split; [done|]. exists env. simpl. by rewrite list_insert_id.
Qed.

Lemma yields_admit c attempt units :
  yields (λ _ t l n, t = azero ∧ l = [] ∧ n = batch_charge units) (zoom (bulk_admit s o c attempt units)).
Proof.
  assert (owns base_inv (λ r m, r = Ok tt → m.1 = (0%N, batch_charge units)) (bulk_admit s o c attempt units) azero) as Hadmit.
  { unfold bulk_admit, admit_units. rewrite Henv. eapply owns_then.
    - by apply base_env, (admit_names_ok e b x0 L ∅ c (Z.of_nat units) (bulk_resources s) [] 0%N azero).
    - intros [name [[]|err]] m Hm; cbn [fst snd is_ok] in *.
      + apply owns_ret. intros _. by rewrite aplus_zero.
      + destruct (Is err ErrBudgetExceeded); [|by apply owns_ret].
        apply owns_quiet; [apply base_quiet_plan|]. intros plan. by apply owns_ret. }
  eapply owns_conseq; [by apply bulk_owns_base|]. intros r [m1 m2] [Hm1 Hm2] [] Hx. simpl in *. subst m1.
  exists azero, [], (batch_charge units). split; [|done]. split; [done|]. by apply Hm2.
Qed.

Implicit Types outs : list (list O * option error).
Notation classify := (effective_classifier (st_Policy s)).

(** An attempt whose failure is retried. *)
Definition retried_call (out : list O * option error) : Prop := ∃ err, out.2 = Some err ∧ classify err = Transient.

(** The loop: attempts that were retried, and one that was not. *)
Definition attempts_end groups (more : nat) (attempt : Z) outs (x : bulk_outcome (O := O)) : Prop :=
  ∃ before last, outs = before ++ [last] ∧ Forall retried_call before ∧ (length before ≤ more)%nat ∧
    match x with
    | inl values => last = (values, None) ∧ length values = length groups
    | inr (err, class, made) => last.2 = Some err ∧ class = classify err ∧ class_valid class = true ∧
        made = attempt + Z.of_nat (length before) ∧ (class = Transient → length before = more)
    end.

Definition loop_tally (attempt : Z) outs : tally :=
  Tally 0 0 0 0 (N.of_nat (length outs)) (if attempt =? 1 then 1 else 0) (N.of_nat (length outs) - 1) 0 0.

Definition loop_account groups (more : nat) (attempt : Z) x (t : tally) (l : list (nat * Result O)) (n : N) : Prop :=
  ∃ outs, Forall (CallQ (kg_item <$> groups)) outs ∧ attempts_end groups more attempt outs x ∧
    t = loop_tally attempt outs ∧ l = [] ∧ n = (N.of_nat (length outs) * batch_charge (length groups))%N.

(** An attempt that ends the loop. *)
Lemma loop_last groups more attempt out x :
  CallQ (kg_item <$> groups) out → attempts_end groups more attempt [out] x →
  loop_account groups more attempt x (loop_tally attempt [out]) [] (batch_charge (length groups)).
Proof. intros Hq He. exists [out]. split_and!; [by constructor|done|done|done|]. simpl. lia. Qed.

(** One more attempt before those that follow. *)
Lemma loop_more groups more attempt out x t l n :
  1 ≤ attempt → CallQ (kg_item <$> groups) out → retried_call out →
  loop_account groups more (attempt + 1) x t l n →
  loop_account groups (S more) attempt x (t ⊹ Tally 0 0 0 0 1 (if attempt =? 1 then 1 else 0) 1 0 0) l (batch_charge (length groups) + n).
Proof.
  intros Hatt Hq Hr (outs & Hall & (before & last & -> & Hb & Hlen & Hx) & -> & -> & ->).
  exists (out :: before ++ [last]). split_and!; [by constructor| | |done|].
  - exists (out :: before), last. split_and!; [done|by constructor|simpl; lia|].
    destruct x as [values|[[err class] made]]; [done|]. destruct Hx as (? & ? & ? & -> & ?). split_and!; try done; simpl; [lia|]. auto with lia.
  - unfold loop_tally. destruct (Z.eqb_spec (attempt + 1) 1) as [?|_]; [lia|].
    unfold aplus, tally_account. cbn [t_items t_hits t_misses t_stored t_work t_started t_retries t_quarantined t_skipped].
    simpl length. rewrite length_app. simpl length. f_equal; lia.
  - simpl length. rewrite length_app. simpl length. lia.
Qed.

Lemma quiet_for_inputs groups body : (∀ g i, quiet (body g i)) → quiet (for_inputs (dyn := dyn) (U := U) (E := E) (O := O) groups body).
Proof. intros Hb. apply quiet_for_each. intros g. by apply quiet_for_each. Qed.

Lemma quiet_attempt_meter out :
  quiet (match AttemptMeter s with
         | Some meter => for_each out.1 (λ value, bulk_meter (E := E) (O := O) (dyn := dyn) (U := U) s (meter value out.2))
         | None => mret (Ok tt)
         end).
Proof. destruct (AttemptMeter s) as [meter|]; [|by apply owns_ret]. apply quiet_for_each. intros v. apply quiet_bulk_meter. Qed.

(** One attempt, up to what it returned. *)
Definition round_tally (attempt : Z) : tally := Tally 0 0 0 0 1 (if attempt =? 1 then 1 else 0) 0 0 0.

Lemma yields_round {A} (Q : A → tally → list (nat * Result O) → N → Prop) call c groups attempt
    (k : list O * option error → prog BW (res A)) :
  doBulk = Some call →
  (∀ out, CallQ (kg_item <$> groups) out →
     yields (λ y t l n, Q y (t ⊹ round_tally attempt) l (batch_charge (length groups) + n)%N) (k out)) →
  yields Q
    (_ ←? zoom (bulk_admit s o c attempt (length groups));
     _ ← (if attempt =? 1 then bulk_count one_started else mret tt);
     out ← zoom (call c (kg_item <$> groups));
     _ ← bulk_count one_work_call;
     _ ←? match AttemptMeter s with
          | Some meter => for_each out.1 (λ value, bulk_meter s (meter value out.2))
          | None => mret (Ok tt)
          end;
     k out).
Proof.
  intros Hcall Hk. eapply yields_then; [apply yields_admit|]; intros [] t l n (-> & -> & ->).
  eapply (yields_after (Tally 0 0 0 0 0 (if attempt =? 1 then 1 else 0) 0 0 0) [] (λ _, True)).
  { destruct (attempt =? 1); [|by apply owns_ret].
    eapply owns_conseq; [apply (owns_bulk_count one_started), (adds_bump 0 0 0 0 0 1 0 0)|done]. }
  intros [] _. eapply (yields_quietly (CallQ (kg_item <$> groups))); [by apply quiet_base_and, (bb_call Hwb)|]. intros out Hout.
  eapply (yields_after (Tally 0 0 0 0 1 0 0 0 0) [] (λ _, True)).
  { eapply owns_conseq; [apply (owns_bulk_count one_work_call), (adds_bump 0 0 0 0 1 0 0 0)|done]. }
  intros [] _. eapply yields_quiet; [apply quiet_attempt_meter|]. intros []. eapply yields_conseq; [by apply Hk|].
  intros y t l n HQ. simpl. rewrite aplus_zero_r, <-aplus_assoc.
  assert (Tally 0 0 0 0 1 0 0 0 0 ⊹ Tally 0 0 0 0 0 (if attempt =? 1 then 1 else 0) 0 0 0 = round_tally attempt) as ->
    by (unfold round_tally; by destruct (attempt =? 1)).
  done.
Qed.

Lemma yields_attempts call c groups more attempt delay :
  1 ≤ attempt → doBulk = Some call →
  yields (loop_account groups more attempt) (bulk_attempts Int63n s o call c groups more attempt delay).
Proof.
  intros Hatt Hcall. revert attempt delay Hatt. induction more as [|more IH]; intros attempt delay Hatt.
  all: cbn [bulk_attempts]; apply yields_round; [done|]; intros [values [err|]] Hout; cbn [fst snd].
  2, 4: case_bool_decide as Hlen; [|apply yields_err]; apply yields_ret; rewrite aplus_zero, N.add_0_r.
  2, 3: apply (loop_last groups _ attempt (values, None)); [done|]; exists [], (values, None); split_and!; [done|done|simpl; lia|done|done].
  all: eapply (yields_quietly (λ _, True)); [apply quiet_base_and; eapply owns_conseq; [apply base_quiet_read|done]|].
  all: intros [canceled|] _; [apply yields_err|].
  all: destruct (class_valid (classify err)) eqn:Hvalid; cbn [negb]; [|apply yields_err].
  - assert (loop_account groups 0 attempt (inr (err, classify err, attempt)) (loop_tally attempt [(values, Some err)]) [] (batch_charge (length groups))) as Hl.
    { apply (loop_last groups 0 attempt (values, Some err)); [done|]. exists [], (values, Some err).
      split_and!; try done; simpl; lia. }
    destruct (classify err) eqn:Hclass; apply yields_ret; rewrite aplus_zero, N.add_0_r; exact Hl.
  - assert (classify err ≠ Transient → loop_account groups (S more) attempt (inr (err, classify err, attempt)) (loop_tally attempt [(values, Some err)]) [] (batch_charge (length groups))) as Hl.
    { intros Hne. apply (loop_last groups (S more) attempt (values, Some err)); [done|]. exists [], (values, Some err).
      split_and!; try done; simpl; lia. }
    destruct (classify err) eqn:Hclass; try (apply yields_ret; rewrite aplus_zero, N.add_0_r; by apply Hl).
    { eapply (yields_after (Tally 0 0 0 0 0 0 1 0 0) [] (λ _, True));
           [eapply owns_conseq; [apply (owns_bulk_count (one_retry "transient")), adds_retry|done]|]. intros [] _.
         eapply yields_quiet; [apply quiet_for_inputs; intros; apply quiet_bulk_emit|]. intros [].
         eapply yields_quiet; [apply quiet_pause|]. intros [].
         eapply yields_conseq; [apply IH; lia|]. intros x t l n Hx. rewrite <-aplus_assoc. simpl.
         assert (Tally 0 0 0 0 0 0 1 0 0 ⊹ round_tally attempt = Tally 0 0 0 0 1 (if attempt =? 1 then 1 else 0) 1 0 0) as ->
           by (unfold round_tally; by destruct (attempt =? 1)).
         apply loop_more with (out := (values, Some err)); [done|done| |done]. by exists err. }
Qed.

(** *** The failure policy *)

Definition skips : bool := bool_decide (OnError (st_Policy s) = Skip).
Definition given_up_result (err : error) (made : Z) (index : nat) : Result O :=
  if skips then MkResult zero_value no_outcome None true
  else MkResult zero_value no_outcome (Some (MkItemError (st_Name s) index (classify err) made (Error err))) false.
Definition given_up_tally (n : N) : tally := if skips then Tally 0 0 0 0 0 0 0 0 n else Tally 0 0 0 0 0 0 0 n 0.

Lemma yields_abandon c err made index :
  yields (λ _ t l n, t = given_up_tally 1 ∧ l = [(index, given_up_result err made index)] ∧ n = 0%N)
    (abandon s o c err (classify err) made index).
Proof.
  assert (∀ t r (f : BW → BW) ev,
    (∀ u, bk_meters (f u) = bk_meters u ∧ bk_base (f u) = bk_base u) →
    (∀ u, bk_results (f u) = <[index := r]> (bk_results u)) → (∀ u t', counts_show (bk_counts u) t' → counts_show (bk_counts (f u)) (t ⊹ t')) →
    yields (λ _ t' l n, t' = t ∧ l = [(index, r)] ∧ n = 0%N) (_ ← modify f; bulk_emit s o c ev)) as Hgive.
  { intros t r f ev Hf Hr Ht. eapply (yields_after t [(index, r)] (λ _, True)).
    - eapply owns_conseq; [apply (owns_local f t [(index, r)]); [done|done|]|done].
      intros u γ Hγ. rewrite claims_one, Hr. by apply claims_hold_write.
    - intros [] _. eapply yields_conseq; [apply yields_of_quiet, quiet_bulk_emit|].
      intros [] t' l n (-> & -> & ->). by rewrite aplus_zero. }
  unfold abandon, given_up_tally, given_up_result, skips. case_bool_decide as Hskip; apply Hgive; try done; intros u t Ht.
  - apply (adds_bump 0 0 0 0 0 0 0 1 _ _ Ht).
  - apply (adds_bump 0 0 0 0 0 0 1 0 _ _ Ht).
Qed.

Lemma given_up_total {A} (xs : list A) (f : A → N) :
  total ((λ x, given_up_tally (f x)) <$> xs) = given_up_tally (total (f <$> xs)).
Proof.
  induction xs as [|x xs IH]; [by unfold given_up_tally; destruct skips|]. rewrite !fmap_cons.
  unfold total in *. cbn [foldr]. rewrite IH. unfold given_up_tally. by destruct skips.
Qed.

Lemma total_ones {A} (xs : list A) : total ((λ _, 1%N) <$> xs) = N.of_nat (length xs).
Proof. induction xs as [|x xs IH]; [done|]. rewrite fmap_cons. unfold total in *. cbn [foldr length]. rewrite IH. unfold aplus. simpl. lia. Qed.

Lemma total_lengths {A B} (f : A → list B) (xs : list A) : total ((λ x, N.of_nat (length (f x))) <$> xs) = N.of_nat (length (xs ≫= f)).
Proof.
  induction xs as [|x xs IH]; [done|]. rewrite fmap_cons, bind_cons, length_app. unfold total in *. cbn [foldr]. rewrite IH.
  unfold aplus. simpl. lia.
Qed.

Lemma yields_bulk_fail c groups err made :
  yields (λ _ t l n, classify err ≠ Fatal ∧ OnError (st_Policy s) ≠ FailFast ∧
      t = given_up_tally (N.of_nat (length (groups ≫= kg_indexes))) ∧
      l = (λ i, (i, given_up_result err made i)) <$> (groups ≫= kg_indexes) ∧ n = 0%N)
    (bulk_fail s o c groups err (classify err) made).
Proof.
  unfold bulk_fail. case_bool_decide as Hfatal; [apply yields_err|]. case_bool_decide as Hfast; [apply yields_err|]. cbn [orb].
  eapply yields_conseq.
  - apply (yields_for_each (λ g : keyGroup I, given_up_tally (N.of_nat (length (kg_indexes g))))
      (λ g, (λ i, (i, given_up_result err made i)) <$> kg_indexes g)).
    intros g _. eapply yields_conseq.
    + apply (yields_for_each (λ _ : nat, given_up_tally 1) (λ i, [(i, given_up_result err made i)])).
      intros i _. apply yields_abandon.
    + intros [] t l n (-> & -> & ->). rewrite given_up_total, total_ones. split_and!; [done| |done].
      induction (kg_indexes g) as [|i l IH]; [done|]. rewrite bind_cons, fmap_cons, IH. done.
  - intros [] t l n (-> & -> & ->). rewrite given_up_total, total_lengths. split_and!; try done.
    induction groups as [|g gs IH]; [done|]. by rewrite !bind_cons, fmap_app, IH.
Qed.

(** *** Results of a batch that succeeded *)

Definition stores : bool := match bulk_store s o with Some _ => true | None => false end.
Definition delivered (g : keyGroup I) (v : O) : Result O :=
  MkResult v (if stores then MkOutcome (kg_digest g) CacheStored else no_outcome) None false.
Definition stored_tally (n : N) : tally := if stores then Tally 0 0 0 n 0 0 0 0 0 else azero.

Lemma bulk_store_is store : bulk_store s o = Some store → opt_Store o = Some store.
Proof. unfold bulk_store. by case_decide. Qed.

Lemma yields_bulk_commit c g v :
  yields (λ x t l n, x.1 = r_Cache (delivered g v) ∧ t = stored_tally 1 ∧ l = [] ∧ n = 0%N) (bulk_commit s o c g v).
Proof.
  unfold bulk_commit, delivered, stored_tally, stores. destruct (bulk_store s o) as [store|] eqn:Hs; [|by apply yields_ret].
  eapply yields_quiet; [apply quiet_annotate, quiet_base; by apply (bb_put Hwb), bulk_store_is|]. intros [].
  eapply (yields_after (Tally 0 0 0 1 0 0 0 0 0) [] (λ _, True)).
  { eapply owns_conseq; [apply (owns_bulk_count one_stored), (adds_bump 0 0 0 1 0 0 0 0)|done]. }
  intros [] _. apply yields_ret. by rewrite aplus_zero.
Qed.

Lemma owns_set_results indexes r :
  owns Inv (λ _ m, m = wrote azero ((λ i, (i, r)) <$> indexes)) (set_results indexes r) azero.
Proof.
  apply owns_local; [done| |].
  - intros u t Hc. by rewrite aplus_zero.
  - intros u γ Hγ. by apply claims_hold_spread.
Qed.

Definition group_entries (g : keyGroup I) (v : O) : list (nat * Result O) := (λ i, (i, delivered g v)) <$> kg_indexes g.

Lemma yields_bulk_deliver outer c g v :
  yields (λ _ t l n, t = stored_tally 1 ∧ l = group_entries g v ∧ n = 0%N) (bulk_deliver s o outer c g v).
Proof.
  unfold bulk_deliver. eapply yields_then; [apply yields_bulk_commit|]. intros [outcome evt] t l n (Ho & -> & -> & ->).
  simpl in Ho. subst outcome.
  eapply (yields_after azero (group_entries g v) (λ _, True)).
  { eapply owns_conseq; [apply owns_set_results|]. intros [] m ->. split; [|done].
    done. }
  intros [] _. eapply yields_conseq.
  - apply yields_of_quiet, quiet_for_each. intros i. apply owns_rquiet; [apply quiet_bulk_emit| |done]. intros []. apply quiet_bulk_notify.
  - intros [] t l n (-> & -> & ->). rewrite !aplus_zero, app_nil_r. done.
Qed.

Lemma stored_tally_add n m : stored_tally n ⊹ stored_tally m = stored_tally (n + m).
Proof. unfold stored_tally. by destruct stores. Qed.

Lemma yields_deliver_all outer c groups values :
  length values = length groups →
  yields (λ _ t l n, t = stored_tally (N.of_nat (length groups)) ∧ l = mjoin (zip_with group_entries groups values) ∧ n = 0%N)
    (deliver_all s o outer c groups values).
Proof.
  revert values. induction groups as [|g groups IH]; intros [|v values] Hlen; try done; cbn [deliver_all].
  - apply yields_ret. split; [|done]. unfold stored_tally. by destruct stores.
  - eapply yields_then; [apply yields_bulk_deliver|]. intros [] t l n (-> & -> & ->).
    eapply yields_conseq; [apply IH; by injection Hlen|]. intros [] t l n (-> & -> & ->).
    rewrite stored_tally_add. split_and!; [f_equal; simpl; lia|done|done].
Qed.

(** *** The whole batch *)

(** How the attempts of a batch end under the policy. *)
Definition batch_resolved groups outs : Prop :=
  ∃ before last, outs = before ++ [last] ∧ Forall retried_call before ∧ Z.of_nat (length outs) ≤ effective_attempts (st_Policy s) ∧
    match last.2 with
    | None => length last.1 = length groups
    | Some err => class_valid (classify err) = true ∧ classify err ≠ Fatal ∧ OnError (st_Policy s) ≠ FailFast ∧
                  (classify err = Transient → Z.of_nat (length outs) = effective_attempts (st_Policy s))
    end.

(** The results and the counts of a batch whose attempts returned [outs]. *)
Definition batch_entries groups outs : list (nat * Result O) :=
  match last outs with
  | Some (values, None) => mjoin (zip_with group_entries groups values)
  | Some (_, Some err) => (λ i, (i, given_up_result err (Z.of_nat (length outs)) i)) <$> (groups ≫= kg_indexes)
  | None => []
  end.
Definition batch_end_tally groups outs : tally :=
  match last outs with
  | Some (_, None) => stored_tally (N.of_nat (length groups))
  | Some (_, Some _) => given_up_tally (N.of_nat (length (groups ≫= kg_indexes)))
  | None => azero
  end.
Definition batch_tally groups outs : tally := batch_end_tally groups outs ⊹ loop_tally 1 outs.

Definition batch_account groups (t : tally) (l : list (nat * Result O)) (n : N) : Prop :=
  ∃ outs, Forall (CallQ (kg_item <$> groups)) outs ∧ batch_resolved groups outs ∧
    t = batch_tally groups outs ∧ l = batch_entries groups outs ∧ n = (N.of_nat (length outs) * batch_charge (length groups))%N.

Lemma effective_attempts_pos (p : Policy) : 1 ≤ effective_attempts p.
Proof. unfold effective_attempts. destruct (Z.ltb_spec (Attempts (Retry p)) 1); lia. Qed.

Lemma yields_batch outer call c groups :
  doBulk = Some call → yields (λ _ t l n, batch_account groups t l n) (bulk_batch Int63n s o outer call c groups).
Proof.
  intros Hcall. pose proof (effective_attempts_pos (st_Policy s)) as Hpos. unfold bulk_batch.
  eapply yields_then; [by apply yields_attempts|].
  intros x t l n (outs & Hall & (before & last & Houts & Hb & Hlen & Hx) & -> & -> & ->).
  assert (list.last outs = Some last) as Hlast by by rewrite Houts, last_snoc.
  assert (Z.of_nat (length outs) ≤ effective_attempts (st_Policy s)) as Hmost by (rewrite Houts, length_app; simpl; lia).
  destruct x as [values|[[err class] made]].
  - destruct Hx as [-> Hvalues]. eapply yields_quiet.
    { destruct (Meter s); [|by apply owns_ret]. apply quiet_for_each. intros v. apply quiet_bulk_meter. }
    intros []. eapply yields_conseq; [by apply yields_deliver_all|]. intros [] t l n (-> & -> & ->). exists outs.
    unfold batch_tally, batch_end_tally, batch_entries. rewrite Hlast, N.add_0_r. split_and!; try done. by exists before, (values, None).
  - destruct Hx as (Herr & -> & Hvalid & -> & Htrans). destruct last as [vals err']. simpl in Herr. subst err'.
    assert (1 + Z.of_nat (length before) = Z.of_nat (length outs)) as -> by (rewrite Houts, length_app; simpl; lia).
    eapply yields_conseq; [apply yields_bulk_fail|]. intros [] t l n (Hf & Hff & -> & -> & ->). exists outs.
    unfold batch_tally, batch_end_tally, batch_entries. rewrite Hlast, N.add_0_r. split_and!; try done.
    exists before, (vals, Some err). split_and!; try done. simpl. split_and!; try done.
    intros Ht. rewrite Houts, length_app. simpl. rewrite (Htrans Ht). lia.
Qed.

(** ** Loading *)

Definition loaded_result (g : keyGroup I) (v : O) : Result O := MkResult v (MkOutcome (kg_digest g) CacheHit) None false.
Implicit Types answers : list (keyGroup I * option O).

Definition hit_entries answers : list (nat * Result O) :=
  answers ≫= λ a, match a.2 with Some v => (λ i, (i, loaded_result a.1 v)) <$> kg_indexes a.1 | None => [] end.
Definition load_tally answers : tally :=
  Tally 0 (N.of_nat (length (found answers ≫= kg_indexes))) (N.of_nat (length (missed answers ≫= kg_indexes))) 0 0 0 0 0 0.

Lemma yields_hit c v g i :
  yields (λ _ t l n, t = Tally 0 1 0 0 0 0 0 0 0 ∧ l = [(i, loaded_result g v)] ∧ n = 0%N)
    (bulk_hit s o c v (MkOutcome (kg_digest g) CacheHit) i).
Proof.
  unfold bulk_hit. eapply (yields_after (Tally 0 1 0 0 0 0 0 0 0) [] (λ _, True)).
  { eapply owns_conseq; [apply (owns_bulk_count count_hit), (adds_bump 0 1 0 0 0 0 0 0)|done]. }
  intros [] _. eapply (yields_after azero [(i, loaded_result g v)] (λ _, True)).
  { eapply owns_conseq; [apply owns_set_result_at|done]. }
  intros [] _. eapply yields_conseq.
  - apply yields_of_quiet, owns_rquiet; [apply quiet_bulk_emit| |done]. intros []. apply quiet_bulk_notify.
  - intros [] t l n (-> & -> & ->). by rewrite !aplus_zero.
Qed.

Lemma hits_total (xs : list nat) :
  total ((λ _, Tally 0 1 0 0 0 0 0 0 0) <$> xs) = Tally 0 (N.of_nat (length xs)) 0 0 0 0 0 0 0.
Proof.
  induction xs as [|x xs IH]; [done|]. rewrite fmap_cons. unfold total in *. cbn [foldr length]. rewrite IH.
  unfold aplus. simpl. f_equal. lia.
Qed.

Lemma load_tally_cons g ov answers :
  load_tally ((g, ov) :: answers) =
  load_tally answers ⊹ match ov with
    | Some _ => Tally 0 (N.of_nat (length (kg_indexes g))) 0 0 0 0 0 0 0
    | None => Tally 0 0 (N.of_nat (length (kg_indexes g))) 0 0 0 0 0 0
    end.
Proof.
  unfold load_tally. destruct ov as [v|].
  - change (found ((g, Some v) :: answers)) with (g :: found answers). change (missed ((g, Some v) :: answers)) with (missed answers).
    rewrite bind_cons, length_app. unfold aplus. simpl. f_equal; lia.
  - change (missed ((g, None) :: answers)) with (g :: missed answers). change (found ((g, None) :: answers)) with (found answers).
    rewrite bind_cons, length_app. unfold aplus. simpl. f_equal; lia.
Qed.

Definition load_account groups misses (ms : list (keyGroup I)) (t : tally) (l : list (nat * Result O)) (n : N) : Prop :=
  ∃ answers, answers.*1 = groups ∧ ms = misses ++ missed answers ∧ t = load_tally answers ∧ l = hit_entries answers ∧ n = 0%N ∧
    ∀ g v, (g, Some v) ∈ answers → LoadQ (kg_key g) v.

Lemma yields_load store c groups misses :
  opt_Store o = Some store → yields (load_account groups misses) (bulk_load s o store c groups misses).
Proof.
  intros Hs. revert misses. induction groups as [|g groups IH]; intros misses; cbn [bulk_load].
  { apply yields_ret. exists []. rewrite app_nil_r. split_and!; try done. by intros g v ?%elem_of_nil. }
  apply (yields_quietly (λ r, ∀ v, r = Ok (Some v) → LoadQ (kg_key g) v)).
  { apply owns_annotate. eapply owns_conseq; [by apply quiet_base_and, (bb_load Hwb)|].
    intros r m [-> Hr]. split; [done|]. intros v Hv. apply Hr. by destruct r; simplify_eq. }
  intros [[v|]|err] Hr; [| |apply yields_err].
  - eapply yields_then with (P := λ _ t l n, t = Tally 0 (N.of_nat (length (kg_indexes g))) 0 0 0 0 0 0 0 ∧
      l = (λ i, (i, loaded_result g v)) <$> kg_indexes g ∧ n = 0%N).
    { eapply yields_conseq; [apply (yields_for_each (λ _ : nat, Tally 0 1 0 0 0 0 0 0 0) (λ i, [(i, loaded_result g v)]))|].
      - intros i _. apply yields_hit.
      - intros [] t l n (-> & -> & ->). rewrite hits_total. split_and!; [done| |done].
        induction (kg_indexes g) as [|i l IHl]; [done|]. by rewrite bind_cons, fmap_cons, IHl. }
    intros [] t l n (-> & -> & ->). eapply yields_conseq; [apply IH|].
    intros ms t l n (answers & Ha & -> & -> & -> & -> & HL). exists ((g, Some v) :: answers). rewrite load_tally_cons.
    split_and!; [by rewrite fmap_cons, Ha|done|done|done|done|].
    intros g' v' [[= -> ->]|Hin]%elem_of_cons; [by apply Hr|by apply HL].
  - eapply (yields_after (Tally 0 0 (N.of_nat (length (kg_indexes g))) 0 0 0 0 0 0) [] (λ _, True)).
    { eapply owns_conseq; [apply (owns_bulk_count _ (Tally 0 0 (N.of_nat (length (kg_indexes g))) 0 0 0 0 0 0))|done]. intros r t Ht. unfold count_misses. rewrite <-nat_N_Z.
      apply (adds_bump 0 0 (N.of_nat (length (kg_indexes g))) 0 0 0 0 0 _ _ Ht). }
    intros [] _. eapply yields_conseq; [apply IH|].
    intros ms t l n (answers & Ha & -> & -> & -> & -> & HL). exists ((g, None) :: answers). rewrite load_tally_cons.
    split_and!; [by rewrite fmap_cons, Ha|by rewrite <-app_assoc|done|done|done|].
    intros g' v' [[= ]|Hin]%elem_of_cons. by apply HL.
Qed.

(** What is left for the batches: what was not found, or everything when nothing is
    cached. *)
Definition prepare_account (items : list I) (ms : list (keyGroup I)) (t : tally) (l : list (nat * Result O)) (n : N) : Prop :=
  ∃ groups, bulk_groups s o items = Ok groups ∧
    if stores then load_account groups [] ms t l n else ms = groups ∧ t = azero ∧ l = [] ∧ n = 0%N.

Lemma yields_prepare c items : yields (prepare_account items) (bulk_prepare s o c items).
Proof.
  unfold bulk_prepare, prepare_account, stores. destruct (bulk_groups s o items) as [groups|err]; [|apply yields_err].
  destruct (bulk_store s o) as [store|] eqn:Hs; [|apply yields_ret; by exists groups].
  eapply yields_conseq; [by apply yields_load, bulk_store_is|]. intros ms t l n Hl. by exists groups.
Qed.
End accounting.

(** ** Contexts *)

Section contexts.
Context {dyn U E I O : Type} `{!Boxed dyn O, !Codec O} {EG : ErrGroup} (Int63n : nat → Z → Z).
Notation W := (world dyn U E).
Notation BW := (bulkw dyn U E O).
Context (s : Step dyn U E I O) (o : Options dyn U E) (n : nat).
Notation tamely p := (guarantees (tame n) (λ _, True) p).

Lemma same_tame {X} `{!Has (limits U) X} (w w' : X) : ctxs_of w' = ctxs_of w → tame n w w'.
Proof. intros Heq. by split; unfold private; rewrite Heq. Qed.

Lemma guarantees_weaken {X A} (G G' : X → X → Prop) (Q : A → Prop) (p : prog X A) :
  (∀ w w', G w w' → G' w w') → guarantees G Q p → guarantees G' Q p.
Proof.
  intros HG. induction p as [a|Y act k IH]; [done|]. intros Hp w w' x Hin. destruct (Hp w w' x Hin). split; [by apply HG|by apply IH].
Qed.

Lemma tame_bind {X A B} `{!Has (limits U) X} (p : prog X A) (f : A → prog X B) :
  tamely p → (∀ a, tamely (f a)) → tamely (p ≫= f).
Proof. intros Hp Hf. eapply guarantees_bind; [exact Hp|auto]. Qed.
Lemma tame_atomic {X A} `{!Has (limits U) X} (f : X → X * A) : (∀ w, ctxs_of (f w).1 = ctxs_of w) → tamely (atomic f).
Proof. intros Hf. apply guarantees_atomic. intros w. split; [by apply same_tame|done]. Qed.
Lemma tame_base {A} (p : prog W A) : tamely p → tamely (zoom (W := BW) p).
Proof. apply guarantees_zoom. intros u w [Hp Hs Ho]. by split. Qed.

(** Programs that leave all contexts alone. *)
Lemma tame_await {X A} `{!Has (limits U) X} (act : X → list (X * A)) :
  (∀ w w' x, (w', x) ∈ act w → ctxs_of w' = ctxs_of w) → tamely (await act).
Proof. intros Ha. apply guarantees_await. intros w w' x Hin. split; [by eapply same_tame, Ha|done]. Qed.

Lemma tame_limits {X A} `{!Has (limits U) X} (p : prog (limits U) A) (Q : A → Prop) :
  guarantees same_ctxs Q p → guarantees (tame n) Q (zoom (W := X) p).
Proof. apply guarantees_zoom. intros w l Hl. apply same_tame. unfold ctxs_of. by rewrite inside_replace. Qed.

(** ** The environment *)

Definition same_env (w w' : envw U) : Prop := same_ctxs (ew_limits w) (ew_limits w').

Lemma calm_env_limits {A} (p : prog (limits U) A) (Q : A → Prop) : guarantees same_ctxs Q p → guarantees same_env Q (zoom p).
Proof. apply guarantees_zoom. intros w l Hl. exact Hl. Qed.

Lemma calm_read_env {A} e (f : runEnv U → A) : guarantees same_env (λ _, True) (with_env e (λ env l, (env, l, f env))).
Proof.
  apply guarantees_await. intros w w' x Hin. destruct (ew_envs w !! e) as [env|]; [|by apply elem_of_nil in Hin].
  by apply list_elem_of_singleton in Hin as [= -> ->].
Qed.

Lemma calm_admit_names e c units names rs :
  Forall resv_calm rs → guarantees same_env (λ _, True) (admit_names (U := U) e c units names rs).
Proof.
  revert rs. induction names as [|name names IH]; intros rs Hrs; cbn [admit_names].
  - eapply guarantees_bind; [by apply calm_env_limits, calm_commit_all|]. intros _ _. by apply guarantees_ret.
  - eapply guarantees_bind; [apply calm_read_env|]. intros [l|] _.
    + eapply guarantees_bind; [apply calm_env_limits, calm_acquire_limiter|]. intros [ov|err] Hov.
      * apply IH. by apply Forall_app.
      * eapply guarantees_bind; [by apply calm_env_limits, calm_rollback_all|]. intros _ _. by apply guarantees_ret.
    + eapply guarantees_bind; [by apply calm_env_limits, calm_rollback_all|]. intros _ _. by apply guarantees_ret.
Qed.

Lemma tame_env {A} (p : prog (envw U) A) : guarantees same_env (λ _, True) p → tamely (zoom (W := W) p).
Proof. apply guarantees_zoom. intros w x Hx. apply same_tame. exact Hx. Qed.

Lemma tame_bulk_admit c attempt units : tamely (bulk_admit s o c attempt units).
Proof.
  apply tame_bind.
  - unfold admit_units. destruct (opt_env o) as [e|]; [by apply tame_env, calm_admit_names|].
    destruct (bulk_resources s); [by apply guarantees_ret|]. apply tame_await. by intros w w' x ?%elem_of_nil.
  - intros [name [[]|err]]; [by apply guarantees_ret|]. cbn [fst snd]. destruct (Is _ _); [|by apply guarantees_ret].
    apply tame_bind; [|intros; by apply guarantees_ret]. unfold plan_of.
    destruct (opt_env o) as [e|]; [apply tame_env, calm_read_env|]. apply tame_await. by intros w w' x ?%elem_of_nil.
Qed.

(** ** The moves of a call *)

Context (doBulk : option (ctx → list I → prog W (list O * option error))).

(** A relation between worlds that contains every move of a bulk call. *)
Record bulk_moves (G : BW → BW → Prop) : Prop := {
  bm_admit c attempt units : guarantees G (λ _, True) (zoom (bulk_admit s o c attempt units));
  bm_call call c items : doBulk = Some call → guarantees G (λ _, True) (zoom (call c items));
  bm_load store c key : opt_Store o = Some store → guarantees G (λ _, True) (zoom (Load store O c key));
  bm_put store c key v : opt_Store o = Some store → guarantees G (λ _, True) (zoom (Put store O c key v));
  bm_hook hook c index v outcome : OnResult s = Some hook → guarantees G (λ _, True) (zoom (hook c index v outcome));
  bm_emit c ev : guarantees G (λ _, True) (zoom (emitLedger c o ev));
  bm_ctx c : guarantees G (λ _, True) (zoom (read (world_ctx_err c)));
  bm_pause c delay maximum : guarantees G (λ _, True) (zoom (pause Int63n c delay maximum));
  bm_count u r m : G u (Bulkw (bk_base u) r m (bk_results u));
  bm_result u r index v : (∀ q, r_Quarantined v = Some q → ie_Index q = index) →
    G u (Bulkw (bk_base u) r (bk_meters u) (<[index := v]> (bk_results u)));
  bm_spread u indexes v : r_Quarantined v = None → G u (Bulkw (bk_base u) (bk_counts u) (bk_meters u) (spread v indexes (bk_results u)));
}.
Arguments bm_admit {_} _. Arguments bm_call {_} _. Arguments bm_load {_} _. Arguments bm_put {_} _. Arguments bm_hook {_} _.
Arguments bm_emit {_} _. Arguments bm_ctx {_} _. Arguments bm_pause {_} _. Arguments bm_count {_} _. Arguments bm_result {_} _.
Arguments bm_spread {_} _.

Section moves.
Context (G : BW → BW → Prop) (HG : bulk_moves G).
Notation moves p := (guarantees G (λ _, True) p).

Lemma moves_bind {A B} (p : prog BW A) (f : A → prog BW B) : moves p → (∀ a, moves (f a)) → moves (p ≫= f).
Proof. intros Hp Hf. eapply guarantees_bind; [exact Hp|auto]. Qed.
Lemma moves_rbind {A B} (p : prog BW (res A)) (f : A → prog BW (res B)) : moves p → (∀ a, moves (f a)) → moves (rbind f p).
Proof. intros Hp Hf. apply moves_bind; [done|]. intros [a|e]; [apply Hf|by apply guarantees_ret]. Qed.
Lemma moves_for_each {A} (xs : list A) (body : A → prog BW (res unit)) : (∀ x, moves (body x)) → moves (for_each xs body).
Proof. intros Hb. induction xs as [|x xs IH]; [by apply guarantees_ret|]. cbn [for_each]. by apply moves_rbind. Qed.
Lemma moves_modify (f : BW → BW) : (∀ u, G u (f u)) → moves (modify f).
Proof. intros Hf. by apply guarantees_atomic. Qed.
Lemma moves_annotate {A} f (p : prog BW (res A)) : moves p → moves (annotate f p).
Proof. apply guarantees_annotate. Qed.

Lemma moves_emit c ev : moves (bulk_emit (O := O) s o c ev).
Proof. apply moves_annotate, (bm_emit HG). Qed.
Lemma moves_notify c index v outcome : moves (bulk_notify s c index v outcome).
Proof.
  unfold bulk_notify. destruct (OnResult s) eqn:Hh; [|by apply guarantees_ret]. by apply moves_annotate, (bm_hook HG).
Qed.
Lemma moves_meter metered : moves (bulk_meter (dyn := dyn) (U := U) (E := E) (O := O) s metered).
Proof.
  apply moves_annotate, guarantees_await. intros u u' r Hin. apply list_elem_of_fmap in Hin as ([m' r'] & [= -> ->] & _).
  split; [apply (bm_count HG)|done].
Qed.
Lemma moves_count up : moves (bulk_count (dyn := dyn) (U := U) (E := E) (O := O) up).
Proof. apply moves_modify. intros u. apply (bm_count HG). Qed.

Lemma moves_for_inputs groups body : (∀ g i, moves (body g i)) → moves (for_inputs (dyn := dyn) (U := U) (E := E) (O := O) (I := I) groups body).
Proof. intros Hb. apply moves_for_each. intros g. by apply moves_for_each. Qed.

Lemma moves_attempts call c groups more attempt delay :
  doBulk = Some call → moves (bulk_attempts Int63n s o call c groups more attempt delay).
Proof.
  intros Hcall. revert attempt delay. induction more as [|more IH]; intros attempt delay; cbn [bulk_attempts].
  all: apply moves_rbind; [apply (bm_admit HG)|]; intros [].
  all: apply moves_bind; [destruct (attempt =? 1); [apply moves_count|by apply guarantees_ret]|]; intros [].
  all: apply moves_bind; [by apply (bm_call HG)|]; intros [values r].
  all: apply moves_bind; [apply moves_count|]; intros [].
  all: apply moves_rbind; [destruct (AttemptMeter s); [apply moves_for_each; intros; apply moves_meter|by apply guarantees_ret]|]; intros [].
  all: destruct r as [err|]; cbn [snd]; [|destruct (bool_decide _); by apply guarantees_ret].
  all: apply moves_bind; [apply (bm_ctx HG)|]; intros [canceled|]; [by apply guarantees_ret|].
  all: destruct (negb _); [by apply guarantees_ret|].
  all: destruct (effective_classifier (st_Policy s) err); try by apply guarantees_ret.
  apply moves_bind; [apply moves_count|]. intros []. apply moves_rbind; [apply moves_for_inputs; intros; apply moves_emit|]. intros [].
  apply moves_rbind; [apply (bm_pause HG)|]. intros []. apply IH.
Qed.

Lemma moves_abandon c err class made i : moves (abandon s o c err class made i).
Proof.
  unfold abandon. destruct (bool_decide _); (apply moves_bind; [apply moves_modify|intros []; apply moves_emit]);
    intros u; apply (bm_result HG); [done|]. by intros q [= <-].
Qed.

Lemma moves_deliver outer c (g : keyGroup I) v : moves (bulk_deliver s o outer c g v).
Proof.
  apply moves_rbind.
  - unfold bulk_commit. destruct (bulk_store s o) as [store|] eqn:Hs; [|by apply guarantees_ret].
    apply moves_rbind; [apply moves_annotate, (bm_put HG); by eapply bulk_store_is|]. intros [].
    apply moves_bind; [apply moves_count|]. intros []. by apply guarantees_ret.
  - intros [outcome evt]. apply moves_bind; [apply moves_modify; intros u; by apply (bm_spread HG)|]. intros [].
    apply moves_for_each. intros i. apply moves_rbind; [apply moves_emit|]. intros []. apply moves_notify.
Qed.

Lemma moves_batch outer call c groups : doBulk = Some call → moves (bulk_batch Int63n s o outer call c groups).
Proof.
  intros Hcall. apply moves_rbind; [by apply moves_attempts|]. intros [values|[[err class] made]].
  - apply moves_rbind; [destruct (Meter s); [apply moves_for_each; intros; apply moves_meter|by apply guarantees_ret]|]. intros [].
    revert values. induction groups as [|g groups IH]; intros [|v values]; try by apply guarantees_ret.
    cbn [deliver_all]. apply moves_rbind; [apply moves_deliver|]. intros []. apply IH.
  - unfold bulk_fail. destruct (_ || _); [by apply guarantees_ret|]. apply moves_for_inputs. intros g i. apply moves_abandon.
Qed.

Lemma moves_prepare c items : moves (bulk_prepare s o c items).
Proof.
  unfold bulk_prepare. destruct (bulk_groups s o items) as [groups|err]; [|by apply guarantees_ret].
  destruct (bulk_store s o) as [store|] eqn:Hs; [|by apply guarantees_ret]. eapply bulk_store_is in Hs.
  generalize (@nil (keyGroup I)). induction groups as [|g groups IH]; intros misses; [by apply guarantees_ret|]. cbn [bulk_load].
  apply moves_rbind; [by apply moves_annotate, (bm_load HG)|]. intros [v|].
  - apply moves_rbind; [|intros []; apply IH]. apply moves_for_each. intros i. unfold bulk_hit.
    apply moves_bind; [apply moves_count|]. intros []. apply moves_bind; [apply moves_modify; intros u; by apply (bm_result HG)|]. intros [].
    apply moves_rbind; [apply moves_emit|]. intros []. apply moves_notify.
  - apply moves_bind; [apply moves_count|]. intros []. apply IH.
Qed.
End moves.

(** The caller's functions cancel no contexts made after the run began. *)
Record bulk_tame : Prop := {
  bt_call call c items : doBulk = Some call → tamely (call c items);
  bt_load store c key : opt_Store o = Some store → tamely (Load store O c key);
  bt_put store c key v : opt_Store o = Some store → tamely (Put store O c key v);
  bt_hook hook c index v outcome : OnResult s = Some hook → tamely (hook c index v outcome);
  bt_ledger l c ev : Ledger o = Some l → tamely (l c ev);
  bt_clock p : Clock o = Some p → tamely p;
}.
Context (Ht : bulk_tame).

Lemma tame_emit c ev : tamely (emitLedger c o ev).
Proof.
  unfold emitLedger. destruct (Ledger o) as [l|] eqn:Hl; [|by apply guarantees_ret]. apply tame_bind.
  - destruct (Report.At _); [by apply guarantees_ret|]. apply tame_bind; [|intros; by apply guarantees_ret].
    unfold now. destruct (Clock o) eqn:Hc; [by eapply bt_clock|by apply tame_atomic].
  - intros ev'. apply tame_bind; [by eapply bt_ledger|intros; by apply guarantees_ret].
Qed.

Lemma tame_pause c delay maximum : tamely (pause (dyn := dyn) (U := U) (E := E) Int63n c delay maximum).
Proof.
  apply tame_bind; [apply tame_atomic; intros w; by destruct (_ <=? _)|]. intros wait. apply tame_await.
  intros w w' x [Hin|[= -> ->]%list_elem_of_singleton]%elem_of_app; [|done].
  destruct (world_ctx_err c w); [by apply list_elem_of_singleton in Hin as [= -> ->]|by apply elem_of_nil in Hin].
Qed.

Lemma tame_moves : bulk_moves (tame n).
Proof.
  split; intros.
  - apply tame_base, tame_bulk_admit.
  - apply tame_base. by eapply bt_call.
  - apply tame_base. by eapply bt_load.
  - apply tame_base. by eapply bt_put.
  - apply tame_base. by eapply bt_hook.
  - apply tame_base, tame_emit.
  - apply tame_base. by apply tame_atomic.
  - apply tame_base, tame_pause.
  - by apply same_tame.
  - by apply same_tame.
  - by apply same_tame.
Qed.
End contexts.

(** ** The call *)

(** A program beside an account that nobody touches. *)
Lemma owns_beside {W A M} `{Account M} (Inv : W → M → Prop) (Q : A → M → Prop) (p : prog W A) γ f :
  owns Inv Q p γ → owns (λ w m, Inv w (m ⊹ f)) Q p γ.
Proof.
  revert γ. induction p as [a|X act k IH]; intros γ Hp; [done|]. intros w o Hw w' x Hin. rewrite <-aplus_assoc in Hw.
  destruct (Hp w (o ⊹ f) Hw w' x Hin) as (γ' & Hw' & Hk). exists γ'. rewrite <-aplus_assoc. auto.
Qed.

(** Jobs in the order of their items. *)
Lemma done_in_order {V M} (ds : list (BoundedMap.done (R := V) (M := M))) n :
  BoundedMap.d_index <$> ds ≡ₚ seq 0 n → ∃ ds', ds ≡ₚ ds' ∧ BoundedMap.d_index <$> ds' = seq 0 n.
Proof.
  intros Hp. symmetry in Hp. destruct (Permutation_map_inv _ _ Hp) as (ds' & Heq & Hp'). by exists ds'.
Qed.

Lemma bulk_check_size {dyn U E I O} (s : Step dyn U E I O) (doBulk : option (ctx → list I → prog (world dyn U E) (list O * option error))) batchSize :
  bulk_check s doBulk batchSize = Ok tt → 1 ≤ batchSize.
Proof. unfold bulk_check. destruct doBulk; [|done]. destruct (Z.ltb_spec batchSize 1); [done|lia]. Qed.

Section contract.
Context {dyn U E I O : Type} `{!Boxed dyn O, !Codec O} {EG : ErrGroup} (Int63n : nat → Z → Z).
Notation W := (world dyn U E).
Notation BW := (bulkw dyn U E O).
Notation M := (tally * claims (Result O) * share)%type.
Context (s : Step dyn U E I O) (o : Options dyn U E) (e b : nat) (x0 : budget) (L : gmap string (Limiter U)).
Context (doBulk : option (ctx → list I → prog W (list O * option error))) (batchSize : Z).
Context (CallQ : list I → list O * option error → Prop) (LoadQ : Key → O → Prop).
Context (Env : W → W → Prop) (c : ctx) (items : list I) (start : W).
Context (Hwb : bulk_well_behaved s o e b x0 L doBulk CallQ LoadQ).
Context (Htame : bulk_tame s o (scopes (ctxs_of start)) doBulk).
Context (Henv : opt_env o = Some e) (Hres : ∀ name, name ∈ bulk_resources s → is_Some (L !! name)).
Context (HEnv : ∀ w w', Env w w' → minds e w w' ∧ tame (scopes (ctxs_of start)) w w').
Context (Hstart : declared e b x0 L start) (Hctxs : ctxs_ok (ctxs_of start)).
Context (Hlen : Z.of_nat (length items) ≤ max64).
Notation init := (replicate (length items) empty_result).
Notation Inv := (Inv e b x0 L init).
Notation stores := (stores s o).
Notation does := (does (O := O)).
Implicit Types answers : list (keyGroup I * option O).

Lemma env_base w w' m : base_inv e b x0 L w m → Env w w' → base_inv e b x0 L w' m.
Proof.
  intros [Hb (env & He & HL & _)] [(_ & Hm & Ha) _]%HEnv. destruct (Hm env He) as (env' & He' & Hsub).
  split; [by eapply ambient_inv|]. exists env'. split_and!; [done|by etrans|apply map_empty_subseteq].
Qed.

Lemma bulk_around_inv (u u' : BW) (m : M) : Inv u m → bulk_around Env u u' → Inv u' m.
Proof. intros (Hc & Hm & Hr & Hb) [He ->]. split_and!; [done..|]. by eapply env_base. Qed.

Lemma around_tame (u u' : BW) : bulk_around Env u u' → tame (scopes (ctxs_of start)) u u'.
Proof. intros [[_ [Hp Hs Ho]]%HEnv ->]. by split. Qed.

(** The items counted at the beginning. *)
Definition items_tally : tally := Tally (N.of_nat (length items)) 0 0 0 0 0 0 0 0.

Lemma start_inv : Inv (bulk_start items start) (wrote items_tally []).
Proof.
  destruct Hstart as ((env & He & HL) & Hb & Hr). split_and!; [|done|apply claims_hold_start|].
  - split; try done. simpl. unfold shows. rewrite nat_N_Z, wrap64_id; [done|]. unfold in64, min64, max64 in *. lia.
  - split; [by apply budget_inv_open|]. exists env. split_and!; [done|done|apply map_empty_subseteq].
Qed.

Lemma does_add' t l n (m : M) t' l' n' m' :
  does t l n m → does t' l' n' m' → does (t ⊹ t') (l ++ l') (n + n') (m ⊹ m').
Proof. intros H1 H2. rewrite (aplus_comm t), (aplus_comm m). by apply does_add. Qed.

(** What the call has done before the batches. *)
Lemma prepared u r :
  runs (bulk_around Env) (bulk_prepare s o c items) (bulk_start items start) u r →
  ctxs_ok (ctxs_of u) ∧ (scopes (ctxs_of start) ≤ scopes (ctxs_of u))%nat ∧
  ∀ misses, r = Ok misses → ∃ γ t l n, Inv u γ ∧ does (t ⊹ items_tally) l n γ ∧ prepare_account s o LoadQ items misses t l n.
Proof.
  intros Hrun.
  destruct (runs_guarantees (bulk_around Env) (tame (scopes (ctxs_of start))) (λ _, True) _ _ _ _ around_tame
    (moves_prepare Int63n s o doBulk _ (tame_moves Int63n s o _ doBulk Htame) c items) Hrun) as [Hs _].
  destruct (tame_steps _ _ _ Hs) as [Hsc Hok]; [done|done|].
  destruct (runs_owns (bulk_around Env) Inv _ _ _ _ u r (λ u u' m, bulk_around_inv u u' m)
    (owns_frame Inv _ _ azero (wrote items_tally []) (yields_prepare s o e b x0 L init doBulk CallQ LoadQ Hwb c items))
    ltac:(rewrite aplus_zero; exact start_inv) Hrun) as (γ & Hinv & γ' & -> & HQ).
  split_and!; [done..|]. intros misses Hr. destruct (HQ misses Hr) as (t & l & n & Hd & Hp).
  exists (γ' ⊹ wrote items_tally []), t, l, n. split_and!; [done| |done].
  rewrite <-(app_nil_r l), <-(N.add_0_r n). by apply does_add'.
Qed.

Notation outcomes_of := (list (list O * option error)).
Notation batch_client := (BoundedMap.map_client (U := U) (bulk_around Env)).

(** What a batch that was done left. *)
Definition batch_post (groups : list (keyGroup I)) (outs : outcomes_of) : Prop :=
  Forall (CallQ (kg_item <$> groups)) outs ∧ batch_resolved s groups outs.
Definition batch_cost_of (groups : list (keyGroup I)) (outs : outcomes_of) : N :=
  (N.of_nat (length outs) * batch_charge s b L (length groups))%N.
Definition batch_left (groups : list (keyGroup I)) (m : M) : Prop :=
  ∃ outs, batch_post groups outs ∧ does (batch_tally s o groups outs) (batch_entries s o groups outs) (batch_cost_of groups outs) m.

Lemma batch_client_ok call γ (u : BW) (bs : list (list (keyGroup I))) :
  doBulk = Some call → (scopes (ctxs_of start) ≤ scopes (ctxs_of u))%nat →
  batch_client (λ u m, Inv u (m ⊹ γ)) (λ _ groups (r : res unit) m, ∀ v, r = Ok v → batch_left groups m)
    (scopes (ctxs_of u)) c bs (bulk_options s) (bulk_batch Int63n s o c call).
Proof.
  intros Hcall Hsc. split.
  - intros index groups _. split.
    + apply owns_beside. unfold job. cbn [opt_Limiter bulk_options]. change (item_cost (bulk_options s) groups) with 1.
      cbn [Z.ltb Z.compare Pos.compare Pos.compare_cont].
      apply owns_rthen with (λ _ m, m = azero); [apply owns_annotate; by apply owns_ret| |by intros err m _ v [=]].
      intros [] m ->. apply owns_annotate. eapply owns_conseq; [by eapply yields_batch|].
      intros r m Hm v Hv. rewrite aplus_zero_r. destruct r as [[]|err]; [|done].
      destruct (Hm tt eq_refl) as (t & l & n & Hd & outs & H1 & H2 & -> & -> & ->). by exists outs.
    + apply job_private. eapply guarantees_weaken; [|eapply (moves_batch Int63n s o doBulk _ (tame_moves Int63n s o _ doBulk Htame)); exact Hcall].
      intros u1 u2 Ht. by apply (tame_private _ _ _ Ht).
  - intros u1 u2 m Hu He. split; [by eapply bulk_around_inv|]. apply (tame_private _ _ _ (around_tame _ _ He)). exact Hsc.
  - intros f u1 m Hu. exact Hu.
Qed.

(** The accounts of all batches together. *)
Definition all_entries (bs : list (list (keyGroup I))) (outss : list outcomes_of) : list (nat * Result O) :=
  mjoin (zip_with (batch_entries s o) bs outss).
Definition all_tally (bs : list (list (keyGroup I))) (outss : list outcomes_of) : tally :=
  total (zip_with (batch_tally s o) bs outss).
Definition all_cost (bs : list (list (keyGroup I))) (outss : list outcomes_of) : N :=
  total (zip_with batch_cost_of bs outss).

Lemma batches_left bs (ms : list M) :
  Forall2 batch_left bs ms →
  ∃ outss, Forall2 batch_post bs outss ∧ does (all_tally bs outss) (all_entries bs outss) (all_cost bs outss) (total ms).
Proof.
  induction 1 as [|groups m bs ms (outs & Hp & Hd) _ (outss & Hps & Hds)]; [by exists []|].
  exists (outs :: outss). split; [by constructor|]. exact (does_add' _ _ _ _ _ _ _ _ Hd Hds).
Qed.

Lemma worked call (misses : list (keyGroup I)) (u1 u2 : BW) γ vs :
  doBulk = Some call → Inv u1 γ → ctxs_ok (ctxs_of u1) → (scopes (ctxs_of start) ≤ scopes (ctxs_of u1))%nat →
  let bs := batches (Z.to_nat batchSize) misses in
  Map_returns tt (bulk_around Env) c bs (bulk_options s) u1 (Some (bulk_batch Int63n s o c call)) u2 (Ok vs) →
  ∃ outss γ', Forall2 batch_post bs outss ∧ does (all_tally bs outss) (all_entries bs outss) (all_cost bs outss) γ' ∧ Inv u2 (γ' ⊹ γ).
Proof.
  intros Hcall Hinv Hok Hsc bs HM.
  destruct (Map_returns_spec tt (bulk_around Env) (λ u m, Inv u (m ⊹ γ)) (λ _ groups (r : res unit) m, ∀ v, r = Ok v → batch_left groups m)
    c bs (bulk_options s) (bulk_batch Int63n s o c call) u1 u2 (Ok vs)) as (ds & Hu & _ & Hds & _ & Hperm & Hres'); [|done| |done|].
  - by apply batch_client_ok.
  - by rewrite aplus_zero.
  - destruct (done_in_order ds (length bs) Hperm) as (ds' & Hp & Hseq).
    destruct (batches_left bs (BoundedMap.d_acct <$> ds')) as (outss & Hps & Hd).
    + apply Forall2_fmap_r, Forall2_same_length_lookup. split.
      * apply (f_equal length) in Hseq. by rewrite length_fmap, length_seq in Hseq.
      * intros i groups d Hi Hd'. assert (d ∈ ds) as Hin by (rewrite Hp; by eapply list_elem_of_lookup_2).
        rewrite Forall_forall in Hds, Hres'. destruct (Hds d Hin) as (groups' & Hg & HQ). destruct (Hres' d Hin) as (v & Hv & _).
        assert (BoundedMap.d_index d = i) as Hdi.
        { apply (f_equal (.!! i)) in Hseq. rewrite list_lookup_fmap, Hd' in Hseq. simpl in Hseq. symmetry in Hseq.
          apply lookup_seq in Hseq. lia. }
        rewrite Hdi in Hg. simplify_eq. by eapply HQ.
    + exists outss, (total (BoundedMap.d_acct <$> ds)). split_and!; [done| |done].
      by rewrite (total_perm _ (BoundedMap.d_acct <$> ds')) by by rewrite Hp.
Qed.

(** ** Where the results are *)

Lemma group_entries_indexes (g : keyGroup I) (v : O) : (group_entries s o g v).*1 = kg_indexes g.
Proof. unfold group_entries. rewrite <-list_fmap_compose. apply list_fmap_id. Qed.

Lemma batch_entries_indexes groups (outs : outcomes_of) :
  batch_resolved s groups outs → (batch_entries s o groups outs).*1 = groups ≫= kg_indexes.
Proof.
  intros (before & [values r] & -> & _ & _ & Hlast). unfold batch_entries. rewrite last_snoc. destruct r as [err|].
  - rewrite <-list_fmap_compose. apply list_fmap_id.
  - simpl in Hlast. revert values Hlast. induction groups as [|g groups IH]; intros [|v values] Hl; try done.
    change (mjoin (zip_with (group_entries s o) (g :: groups) (v :: values)))
      with (group_entries s o g v ++ mjoin (zip_with (group_entries s o) groups values)).
    rewrite fmap_app, bind_cons, group_entries_indexes. f_equal. apply IH. by injection Hl.
Qed.

Lemma all_entries_indexes (bs : list (list (keyGroup I))) (outss : list outcomes_of) :
  Forall2 batch_post bs outss → (all_entries bs outss).*1 = mjoin bs ≫= kg_indexes.
Proof.
  unfold all_entries. induction 1 as [|groups outs bs outss [_ Hr] _ IH]; [done|].
  change (mjoin (zip_with (batch_entries s o) (groups :: bs) (outs :: outss)))
    with (batch_entries s o groups outs ++ mjoin (zip_with (batch_entries s o) bs outss)).
  change (mjoin (groups :: bs)) with (groups ++ mjoin bs). by rewrite fmap_app, bind_app, IH, batch_entries_indexes.
Qed.

Lemma hit_entries_indexes answers : (hit_entries answers).*1 = found answers ≫= kg_indexes.
Proof.
  induction answers as [|[g [v|]] answers IH]; [done| |done].
  change (hit_entries ((g, Some v) :: answers)) with (((λ i, (i, loaded_result g v)) <$> kg_indexes g) ++ hit_entries answers).
  change (found ((g, Some v) :: answers)) with (g :: found answers). rewrite bind_cons, fmap_app, IH. f_equal.
  rewrite <-list_fmap_compose. apply list_fmap_id.
Qed.

(** Every index is in one group. *)
Lemma bulk_groups_indexes groups : bulk_groups s o items = Ok groups → (groups ≫= kg_indexes) ≡ₚ seq 0 (length items).
Proof.
  unfold bulk_groups. destruct (bulk_store s o).
  - intros Hg. destruct (group_items (bulk_key s) items) as [digests r] eqn:Hgi. simpl in Hg. subst r.
    by eapply wg_indexes, group_items_spec.
  - intros [= <-]. assert (∀ n, imap (λ i item, KeyGroup zero_key "" item [(n + i)%nat]) items ≫= kg_indexes = seq n (length items)) as Hs;
      [|by rewrite <-(Hs 0%nat)].
    clear Hlen. induction items as [|x xs IH]; intros n; [done|]. rewrite imap_cons, bind_cons. simpl. rewrite Nat.add_0_r. f_equal.
    rewrite <-IH. f_equal. apply imap_ext. intros i y _. simpl. by rewrite Nat.add_succ_r.
Qed.

(** ** The report *)

Definition reports_counts (r0 : StepReport) (rep : Report) : Prop :=
  ∃ r, rep = Some {[ st_Name s := r ]} ∧ ∀ t, counts_show r0 t → counts_show r t.

Lemma owns_bulk_report (P : BW → Prop) (r0 : StepReport) :
  (∀ u, P u → bk_counts u = r0) →
  owns (λ u (_ : unit), P u) (λ rep _, reports_counts r0 rep) (bulk_report s o) tt.
Proof.
  intros HP. unfold bulk_report.
  eapply owns_bind' with (λ x _, x.1 = r0).
  { apply owns_await. intros u [] u' x Hu [= <- ->]%list_elem_of_singleton. exists tt. split; [done|]. by apply HP. }
  intros [r m] [] Hr. simpl in Hr. subst r. eapply owns_bind' with (λ _ _, True).
  { unfold read_spend. destruct (bulk_resources s) as [|name names]; [by apply owns_ret|]. rewrite Henv.
    eapply owns_conseq; [apply owns_still, still_zoom, still_bind; [apply still_zoom, still_env_snapshot|done]|done]. }
  intros spend [] _. apply owns_ret. eexists. split; [done|]. intros t []. by split.
Qed.

(** ** The whole call *)

Notation cut misses := (batches (Z.to_nat batchSize) misses).

(** Every result that was written, with its index, in the order of the accounts. *)
Definition written answers (outss : list outcomes_of) : list (nat * Result O) :=
  all_entries (cut (missed answers)) outss ++ hit_entries answers.
(** All that was counted. *)
Definition counted answers (outss : list outcomes_of) : tally :=
  all_tally (cut (missed answers)) outss ⊹ ((if stores then load_tally answers else azero) ⊹ items_tally).

(** A bulk call that returned results [rs], report [rep] and world [w]: [answers] are
    what the store said for every group, [outss] what the bulk calls of every batch
    returned. *)
Record bulk_served answers (outss : list outcomes_of) (rs : list (Result O)) (rep : Report) (w : W) : Prop := {
  bs_groups : bulk_groups s o items = Ok answers.*1;
  bs_uncached : stores = false → found answers = [];
  bs_loaded : ∀ g v, (g, Some v) ∈ answers → LoadQ (kg_key g) v;
  bs_batches : Forall2 batch_post (cut (missed answers)) outss;
  bs_length : length rs = length items;
  bs_every : (written answers outss).*1 ≡ₚ seq 0 (length items);
  bs_results : ∀ i r, (i, r) ∈ written answers outss → rs !! i = Some r;
  bs_report : ∃ r, rep = Some {[ st_Name s := r ]} ∧ counts_show r (counted answers outss);
  bs_budget : ∃ x, lw_budgets (ew_limits (wd_env w)) !! b = Some x ∧ limit x = limit x0 ∧
    remaining x = remaining x0 - Z.of_N (all_cost (cut (missed answers)) outss);
}.

Lemma written_every answers (outss : list outcomes_of) :
  bulk_groups s o items = Ok answers.*1 → 1 ≤ batchSize → Forall2 batch_post (cut (missed answers)) outss →
  (written answers outss).*1 ≡ₚ seq 0 (length items).
Proof.
  intros Hg Hsize Hps. unfold written. rewrite fmap_app, (all_entries_indexes _ _ Hps), hit_entries_indexes.
  rewrite (proj1 (batches_spec (Z.to_nat batchSize) (missed answers) ltac:(lia))).
  rewrite <-(bulk_groups_indexes _ Hg). destruct (answers_split answers) as [-> _].
  rewrite bind_app. apply Permutation_app_comm.
Qed.

(** From the account of the call to what it says. *)
Lemma settled answers (outss : list outcomes_of) (u1 u2 : BW) (γ : M) rep :
  bulk_groups s o items = Ok answers.*1 → (stores = false → found answers = []) →
  (∀ g v, (g, Some v) ∈ answers → LoadQ (kg_key g) v) → 1 ≤ batchSize →
  Forall2 batch_post (cut (missed answers)) outss →
  Inv u1 γ → does (counted answers outss) (written answers outss) (all_cost (cut (missed answers)) outss) γ →
  runs (bulk_around Env) (bulk_report s o) u1 u2 rep →
  bulk_served answers outss (bk_results u1) rep (bk_base u2).
Proof.
  intros Hg Hun HL Hsize Hps Hinv [Hγ Hn] Hrep.
  pose (J := λ (v : BW), Inv v γ ∧ bk_counts v = bk_counts u1).
  destruct (runs_owns (bulk_around Env) (λ v (_ : unit), J v) (λ rep _, reports_counts (bk_counts u1) rep) (bulk_report s o) tt u1 u2 rep) as ([] & [Hinv' _] & (r & -> & Hr)).
  { intros u u' [] [HI HC] He. split; [by eapply bulk_around_inv|]. destruct He as [_ ->]. exact HC. }
  { apply (owns_bulk_report J (bk_counts u1)). by intros u [_ Hu]. }
  { by split. }
  { exact Hrep. }
  pose proof (written_every answers outss Hg Hsize Hps) as Hevery.
  destruct Hinv as (Hc & _ & (Hl & Hrs) & _). destruct γ as [[t l] [[h n] f]]. cbn [fst snd] in *. simplify_eq.
  rewrite length_replicate in Hl. split; try done.
  - intros i r' Hin. assert (NoDup (written answers outss).*1) as Hnd by (rewrite Hevery; apply NoDup_seq).
    specialize (Hrs i). rewrite (claims_of_lookup _ i r' Hnd Hin) in Hrs. apply Hrs. rewrite length_replicate.
    assert (i ∈ (written answers outss).*1) as Hi by (apply list_elem_of_fmap; by exists (i, r')).
    rewrite Hevery in Hi. apply elem_of_seq in Hi. lia.
  - exists r. split; [done|]. by apply Hr.
  - destruct Hinv' as (_ & _ & _ & (_ & _ & x & Hx & Hlim & _ & Hrem) & _). exists x. split_and!; [done..|].
    cbn [fst snd] in Hrem. lia.
Qed.

(** What was not loaded when nothing is cached. *)
Definition no_answer (g : keyGroup I) : keyGroup I * option O := (g, None).
Lemma unanswered (groups : list (keyGroup I)) :
  let answers := no_answer <$> groups in answers.*1 = groups ∧ found answers = [] ∧ missed answers = groups ∧
    hit_entries answers = [] ∧ ∀ g v, (g, Some v) ∉ answers.
Proof.
  intros answers. subst answers. induction groups as [|g groups (IH1 & IH2 & IH3 & IH4 & IH5)].
  { split_and!; try done. intros g v ?%elem_of_nil. done. }
  split_and!.
  - rewrite !fmap_cons. by rewrite IH1.
  - exact IH2.
  - change (g :: missed (no_answer <$> groups) = g :: groups). by rewrite IH3.
  - exact IH4.
  - intros g' v [[=]|Hin]%elem_of_cons. by eapply IH5.
Qed.

(** Before the batches there are answers for every group. *)
Lemma prepare_answers misses t l n :
  prepare_account s o LoadQ items misses t l n →
  ∃ answers, bulk_groups s o items = Ok answers.*1 ∧ misses = missed answers ∧
    (stores = false → found answers = []) ∧ (∀ g v, (g, Some v) ∈ answers → LoadQ (kg_key g) v) ∧
    t = (if stores then load_tally answers else azero) ∧ l = hit_entries answers ∧ n = 0%N.
Proof.
  intros (groups & Hg & Hp). destruct stores.
  - destruct Hp as (answers & <- & -> & -> & -> & -> & HL). by exists answers.
  - destruct Hp as (-> & -> & -> & ->). exists (no_answer <$> groups).
    destruct (unanswered groups) as (-> & -> & -> & -> & Hno). split_and!; try done. intros g v Hin. by destruct (Hno g v).
Qed.

Lemma runBulk_serves w rs rep :
  runBulk_returns Int63n s doBulk batchSize o Env c items start w (Ok rs, rep) →
  ∃ answers outss, bulk_served answers outss rs rep w.
Proof.
  intros Hrun. remember (Ok rs, rep) as out eqn:Hout.
  destruct Hrun as [| |u1 u rep' Hcheck Hprep Hrep|call misses u1 u2 u r rep' Hcheck Hcall Hprep Hne Hcap Hmap Hrep]; [done|done| |].
  - injection Hout as <- <-. apply bulk_check_size in Hcheck. destruct (prepared _ _ Hprep) as (Hok & Hsc & HP).
    destruct (HP [] eq_refl) as (γ & t & l & n & Hinv & Hd & (answers & Hg & Hm & Hun & HL & -> & -> & ->)%prepare_answers).
    exists answers, []. eapply settled; try done; rewrite <-?Hm; [constructor|].
    unfold counted, written. rewrite <-Hm. exact Hd.
  - apply bulk_check_size in Hcheck. destruct (prepared _ _ Hprep) as (Hok & Hsc & HP).
    destruct (HP misses eq_refl) as (γ & t & l & n & Hinv & Hd & (answers & Hg & -> & Hun & HL & -> & -> & ->)%prepare_answers).
    destruct r as [vs|]; [|done]. injection Hout as <- <-.
    destruct (worked call (missed answers) u1 u2 γ vs Hcall Hinv Hok Hsc Hmap) as (outss & γ' & Hps & Hd' & Hinv').
    exists answers, outss. eapply settled; try done.
    rewrite <-(N.add_0_r (all_cost _ _)). apply does_add'; done.
Qed.

(** C23: A bulk call that returns results: every group of equal keys was answered by the
    store or was an input of exactly one batch, cut in order; every batch was called
    again while its failures were transient and attempts were left, and its last call
    returned one value per group or failed in a way the policy allows; every index
    holds the value loaded or computed for its group, or the failure of its batch; the
    report shows exactly what was counted; and the budget is charged one batch per
    call.  This holds however the workers interleave. *)
Theorem runBulk_contract w rs rep :
  runBulk_returns Int63n s doBulk batchSize o Env c items start w (Ok rs, rep) →
  ∃ answers outss, bulk_served answers outss rs rep w.
Proof. apply runBulk_serves. Qed.
End contract.
