(* ===== verification/CalmRun.v ===== *)
(** * Steps that cancel no context they have not made

    The code of a stage cancels only contexts of its own if the functions that its caller
    passes in do so ([spares_contexts]).  A pipeline of such stages, barriers among them,
    is canceled by nobody as long as its caller is not: [spared_stages_calm] discharges
    the hypothesis of [results_aligned] and the other theorems about runs. *)

From S2P Require Import Prelude GoError GoStrings Float64 Classify Policy Digest Json.
From S2P Require Import Go Limits Budget Rate Chain ErrGroup BoundedMap ResourcePlan RunEnv Cache Report Step Observe Runner RunnerProofs.
From S2P Require Import Pipeline PipelineProofs Calm Flow FlowProofs RunExact Groups CachedMap CachedMapProofs Bulk BulkProofs.

Section spared.
Context {dyn U E : Type} {EG : ErrGroup} (Int63n : nat → Z → Z) (dynamic_type : option dyn → string).
Notation W := (world dyn U E).
Notation spared p := (guarantees (sparing (U := U) (W := W)) (λ _, True) p).
Implicit Types o : Options dyn U E.

Lemma same_sparing (w w' : W) : ctxs_of w' = ctxs_of w → sparing w w'.
Proof. intros Heq. unfold sparing. by rewrite Heq. Qed.

Lemma spared_bind {A B} (p : prog W A) (f : A → prog W B) : spared p → (∀ a, spared (f a)) → spared (p ≫= f).
Proof. intros Hp Hf. eapply guarantees_bind; [exact Hp|auto]. Qed.

Lemma spared_rbind {A B} (p : prog W (res A)) (f : A → prog W (res B)) : spared p → (∀ a, spared (f a)) → spared (rbind f p).
Proof. intros Hp Hf. apply spared_bind; [done|]. intros [a|e]; [apply Hf|by apply guarantees_ret]. Qed.

Lemma spared_ret {A} (a : A) : spared (mret a).
Proof. by apply guarantees_ret. Qed.

Lemma spared_await {A} (act : W → list (W * A)) : (∀ w w' x, (w', x) ∈ act w → ctxs_of w' = ctxs_of w) → spared (await act).
Proof. intros Ha. apply guarantees_await. intros w w' x Hin. split; [by eapply same_sparing, Ha|done]. Qed.

Lemma spared_atomic {A} (f : W → W * A) : (∀ w, ctxs_of (f w).1 = ctxs_of w) → spared (atomic f).
Proof. intros Hf. apply guarantees_atomic. intros w. split; [by apply same_sparing|done]. Qed.

Lemma spared_never {A} : spared (await (λ _, []) : prog W A).
Proof. apply spared_await. by intros w w' x ?%elem_of_nil. Qed.

Lemma spared_faulty {A} f (p : prog W (res A)) : spared p → spared (faulty f p).
Proof. intros Hp. apply spared_bind; [done|]. intros [a|e]; apply spared_ret. Qed.

Lemma spared_env {A} (p : prog (envw U) A) : guarantees same_env (λ _, True) p → spared (zoom p).
Proof. apply guarantees_zoom. intros w x Hx. apply same_sparing. exact Hx. Qed.

Lemma spared_with_runner {A} ri (f : rstate dyn → list (rstate dyn * A)) : spared (with_runner ri f).
Proof.
  apply spared_await. intros w w' x Hin. destruct (wd_runners w !! ri) as [st|]; [|by apply elem_of_nil in Hin].
  by apply list_elem_of_fmap in Hin as ([st' y] & [= -> ->] & _).
Qed.

(** ** What the caller passes in *)

Record ledger_spares o : Prop := {
  ls_ledger l c ev : Ledger o = Some l → spared (l c ev);
  ls_clock p : Clock o = Some p → spared p;
}.

Lemma spared_emit o c ev : ledger_spares o → spared (emitLedger c o ev).
Proof.
  intros Hl. unfold emitLedger. destruct (Ledger o) as [l|] eqn:Hledger; [|apply spared_ret]. apply spared_bind.
  - destruct (Report.At _); [apply spared_ret|]. apply spared_bind; [|intros; apply spared_ret].
    unfold now. destruct (Clock o) eqn:Hc; [by eapply ls_clock|by apply spared_atomic].
  - intros ev'. apply spared_bind; [by eapply ls_ledger|intros; apply spared_ret].
Qed.

Context {I O : Type} `{!Boxed dyn I, !Boxed dyn O, !Codec O}.

(** The caller's functions cancel no context but their own. *)
Record spares_contexts (s : Step dyn U E I O) o : Prop := {
  sc_do do c item : Do s = Some do → spared (do c item);
  sc_hook hook c index v outcome : OnResult s = Some hook → spared (hook c index v outcome);
  sc_load store c key : opt_Store o = Some store → spared (Load store O c key);
  sc_put store c key v : opt_Store o = Some store → spared (Put store O c key v);
  sc_ledger : ledger_spares o;
}.

Section runner.
Context (runner : typedRunner dyn U E I O) (Hsc : spares_contexts (Runner.step runner) (options runner)).

Lemma spared_count up : spared (count runner up).
Proof. apply spared_with_runner. Qed.

Lemma spared_meters index metered : spared (add_meters runner index metered).
Proof. apply spared_faulty, spared_with_runner. Qed.

Lemma spared_event c ev : spared (event runner c ev).
Proof. apply spared_faulty, spared_emit, Hsc. Qed.

Lemma spared_notify c index v outcome : spared (notify runner c index v outcome).
Proof.
  unfold notify. destruct (OnResult _) as [hook|] eqn:Hh; [|apply spared_ret]. apply spared_faulty. by eapply sc_hook.
Qed.

Lemma spared_pause c delay maximum : spared (pause (dyn := dyn) (U := U) (E := E) Int63n c delay maximum).
Proof.
  apply spared_bind; [apply spared_atomic; intros w; by destruct (_ <=? _)|]. intros wait. apply spared_await.
  intros w w' x [Hin|Hin]%elem_of_app; [|by apply list_elem_of_singleton in Hin as [= -> _]].
  destruct (world_ctx_err c w); [by apply list_elem_of_singleton in Hin as [= -> _]|by apply elem_of_nil in Hin].
Qed.

Lemma spared_admit c index attempt : spared (admit_call runner c index attempt).
Proof.
  apply spared_bind.
  - unfold admit_resources, admit_units. destruct (opt_env _) as [e|]; [by apply spared_env, calm_admit_names|].
    destruct (resources runner); [apply spared_ret|apply spared_never].
  - intros [name [[]|err]]; [apply spared_ret|]. cbn [fst snd]. destruct (Is _ _); [|apply spared_ret].
    apply spared_bind; [|intros; apply spared_ret]. unfold read_plan, plan_of.
    destruct (opt_env _) as [e|]; [apply spared_env, calm_read_env|apply spared_never].
Qed.

Lemma spared_success c index value key d : spared (success runner c index value key d).
Proof.
  unfold success. apply spared_rbind; [destruct (Meter _); [apply spared_meters|apply spared_ret]|]. intros [].
  apply spared_rbind.
  - destruct key as [key|]; [|apply spared_ret]. destruct (opt_Store _) as [store|] eqn:Hs; [|apply spared_never].
    apply spared_rbind; [by eapply spared_faulty, sc_put|]. intros _. apply spared_bind; [apply spared_count|intros; apply spared_ret].
  - intros [outcome t]. apply spared_rbind; [apply spared_event|]. intros _.
    apply spared_rbind; [apply spared_notify|intros; apply spared_ret].
Qed.

Lemma spared_fail c index cause class n : spared (fail runner c index cause class n).
Proof.
  unfold fail. destruct (_ || _); [apply spared_ret|]. destruct (bool_decide _).
  all: apply spared_bind; [apply spared_count|]; intros _; apply spared_rbind; [apply spared_event|intros; apply spared_ret].
Qed.

Lemma spared_attempt do c index item attempt : Do (Runner.step runner) = Some do → spared (attempt_once runner do c index item attempt).
Proof.
  intros Hdo. unfold attempt_once. apply spared_rbind; [apply spared_admit|]. intros _.
  apply spared_bind; [destruct (_ =? _); [apply spared_count|apply spared_ret]|]. intros _.
  apply spared_bind; [by eapply sc_do|]. intros out. apply spared_bind; [apply spared_count|]. intros _.
  apply spared_rbind; [destruct (AttemptMeter _); [apply spared_meters|apply spared_ret]|intros; apply spared_ret].
Qed.

Lemma spared_loop do c index item key d more attempt delay :
  Do (Runner.step runner) = Some do → spared (attempt_loop Int63n runner do c index item key d more attempt delay).
Proof.
  intros Hdo. revert attempt delay. induction more as [|more IH]; intros attempt delay; cbn [attempt_loop].
  all: apply spared_rbind; [by apply spared_attempt|]; intros [value [e|]]; [|apply spared_success].
  all: apply spared_bind; [by apply spared_atomic|]; intros [e'|]; [apply spared_ret|].
  all: cbv zeta; destruct (negb _); [apply spared_ret|]; cbn [snd]; destruct (classifier runner e); try apply spared_fail.
  apply spared_bind; [apply spared_count|]. intros _. apply spared_rbind; [apply spared_event|]. intros _.
  apply spared_rbind; [apply spared_pause|]. intros _. apply IH.
Qed.

Lemma spared_work c index item key d : spared (work Int63n runner c index item key d).
Proof. unfold work. destruct (Do _) as [do|] eqn:Hdo; [by apply spared_loop|apply spared_never]. Qed.

Lemma spared_lead store c index item key d :
  opt_Store (options runner) = Some store → spared (lead Int63n runner store c index item key d).
Proof.
  intros Hs. unfold lead. apply spared_rbind; [by eapply spared_faulty, sc_load|]. intros [value|].
  - apply spared_bind; [apply spared_count|]. intros _. apply spared_rbind; [apply spared_event|]. intros _.
    apply spared_rbind; [apply spared_notify|intros; apply spared_ret].
  - apply spared_bind; [apply spared_count|]. intros _. apply spared_work.
Qed.

Lemma spared_follow c index id d : spared (follow runner c index id d).
Proof.
  unfold follow. apply spared_rbind.
  - apply spared_await. intros w w' x [Hin|Hin]%elem_of_app.
    + destruct (world_ctx_err c w); [by apply list_elem_of_singleton in Hin as [= -> _]|by apply elem_of_nil in Hin].
    + destruct (wd_runners w !! state runner) as [st|]; [|by apply elem_of_nil in Hin].
      destruct (calls st !! id) as [[call|]|]; [|by apply elem_of_nil in Hin..]. by apply list_elem_of_singleton in Hin as [= -> _].
  - intros call. destruct (ic_err call); [apply spared_ret|]. destruct (replicate_outcome call) as [update t].
    apply spared_bind; [apply spared_count|]. intros _. apply spared_rbind; [apply spared_event|]. intros _.
    cbv zeta. destruct (flagged _); [apply spared_ret|]. apply spared_rbind; [apply spared_notify|intros; apply spared_ret].
Qed.

Lemma spared_process c index item : spared (process Int63n runner c index item).
Proof.
  unfold process. apply spared_bind; [apply spared_count|]. intros _.
  destruct (opt_Store (options runner)) as [store|] eqn:Hs; [|apply spared_work].
  destruct (decide _); [apply spared_work|]. destruct (Step_Key _ _) as [key|]; [|apply spared_ret].
  destruct (Key_Digest key) as [d|]; [|apply spared_ret]. apply spared_bind; [apply spared_with_runner|].
  intros [id|id]; [apply spared_follow|]. apply spared_bind; [by apply spared_lead|]. intros r.
  apply spared_bind; [apply spared_with_runner|intros; apply spared_ret].
Qed.

Lemma spared_body c item : spared (typed_body Int63n dynamic_type runner c item).
Proof.
  unfold typed_body. destruct (flagged item); [apply spared_ret|].
  destruct (unbox (ei_value item)); [apply spared_process|apply spared_ret].
Qed.
End runner.
End spared.

(** ** Pipelines *)

Section pipelines.
Context {dyn U E : Type} {EG : ErrGroup} (Int63n : nat → Z → Z) (dynamic_type : option dyn → string).
Notation W := (world dyn U E).
Notation spared p := (guarantees (sparing (U := U) (W := W)) (λ _, True) p).
Notation stageSpec := (stageSpec (dyn := dyn) (U := U) (E := E)).
Implicit Types (o : Options dyn U E) (stages : list stageSpec).

(** The stage of a step whose code spares contexts. *)
Definition spared_stage o (st : stageSpec) : Prop :=
  ∃ (I O : Type) (BI : Boxed dyn I) (BO : Boxed dyn O) (CO : Codec O) (s : Step dyn U E I O),
    st = stageOfStep Int63n dynamic_type s ∧ spares_contexts s o.

Lemma spared_stage_ok o stages : Forall (spared_stage o) stages → Forall stage_ok stages ∧ Forall per_item stages.
Proof.
  intros Hst. split; (eapply Forall_impl; [exact Hst|]); intros st (I & O & BI & BO & CO & s & -> & _);
    [apply stageOfStep_ok|apply stageOfStep_per_item].
Qed.

Lemma spared_stage_spares o total st runner :
  spared_stage o st → can_return (ss_build st o) (Ok (PerItem runner)) → stage_spares (pipeline_stage o total (st, runner)).
Proof.
  intros (I & O & BI & BO & CO & s & -> & Hsc) (tr & [= ->] & Hs & Ho & _)%stageOfStep_built. subst s o. split; intros c; simpl.
  - apply spared_emit, Hsc.
  - intros x. by apply spared_body.
  - apply spared_emit, Hsc.
Qed.

Lemma spared_new {I O} `{!Boxed dyn I, !Boxed dyn O, !Codec O} (s : Step dyn U E I O) o : spared (newTypedRunner s o).
Proof.
  unfold newTypedRunner. case_decide; [apply spared_ret|]. destruct (Do s); [|apply spared_ret].
  destruct (Meter s), (AttemptMeter s); try apply spared_ret; apply spared_bind; try (intros; apply spared_ret); by apply spared_atomic.
Qed.

Lemma spared_build o stages : Forall (spared_stage o) stages → spared (build_runners o stages).
Proof.
  induction 1 as [|st stages (I & O & BI & BO & CO & s & -> & _) _ IH]; cbn [build_runners]; [apply spared_ret|].
  apply spared_rbind; [apply spared_faulty, spared_rbind; [apply spared_new|intros; apply spared_ret]|].
  intros runner. apply spared_rbind; [exact IH|intros; apply spared_ret].
Qed.

(** Once a run is under way its context is alive. *)
Lemma spared_start o c (w : W) runContext w' :
  ctxs_ok (ctxs_of w) → alive c (ctxs_of w) → startPeriodicReporter o c w runContext w' →
  ctxs_ok (ctxs_of w') ∧ alive runContext (ctxs_of w').
Proof.
  intros Hok Halive [|rc t _ Ht]; [done|]. injection Ht as <- <-. destruct (spares_WithCancel c (ctxs_of w)) as (_ & Hok' & _).
  rewrite ctxs_of_map. split; [by apply Hok'|]. destruct Halive as [Hlt He]. split.
  - constructor; [simpl; lia|]. eapply Forall_impl; [exact Hlt|]. simpl. lia.
  - pose proof (ctx_err_WithCancel c (ctxs_of w) Hok) as Hw. by rewrite <-He.
Qed.

(** No pipeline of such stages is canceled before it fails, whether it has barriers or not. *)
Lemma spared_stages_calm {I} `{!Boxed dyn I} (Env : W → W → Prop) c (items : list I) stages o w :
  Forall (spared_stage o) stages → (∀ u u', Env u u' → sparing u u') → (periodic o = true → reports_within sparing o) →
  ctxs_ok (ctxs_of w) → alive c (ctxs_of w) → calm_stages Env c items stages o w.
Proof.
  intros Hst HEnv Hreports Hok Halive runContext w1 w2 built Hb Hs.
  destruct (build_items o stages built) as [runners ->]; [by eapply spared_stage_ok|by eapply runs_can_return|].
  destruct (runs_guarantees Env sparing (λ _, True) _ _ _ _ HEnv (spared_build o stages Hst) Hb) as [Hbuilt _].
  assert (sparing w w1) as Hw1 by (clear -Hbuilt; induction Hbuilt; [done|by etrans]).
  destruct (spared_start o c w1 runContext w2) as [Hok2 Halive2]; [by apply Hw1|by eapply spares_alive|done|].
  unfold run_pipeline. rewrite around_items, run_stages_items. apply spared_undisturbed; try done.
  - intros u u'. apply run_env_within; [done|]. intros Hp p ->%stage_pubs_items.
    apply (within_publication sparing); [by intros os v; apply same_sparing|by apply Hreports|].
    apply (still_within sparing), still_currentReport, Forall_fmap, Forall_lookup. intros k runner Hk.
    apply runs_can_return, build_each, Forall2_fmap_r in Hb. destruct (Forall2_lookup_r _ _ _ _ _ Hb Hk) as (st & Hk' & Hr).
    rewrite Forall_lookup in Hst. destruct (Hst k st Hk') as (I0 & O0 & BI & BO & CO & s & -> & _).
    apply stageOfStep_built in Hr as (tr & [= ->] & _). apply still_bind; [apply still_report|done].
  - apply Forall_fmap, Forall_lookup. intros k [st runner] (? & ? & [= <- <-] & Hk & Hr)%lookup_zip_with_Some.
    apply runs_can_return, build_each, Forall2_fmap_r in Hb. rewrite Forall_lookup in Hst.
    apply spared_stage_spares; [by eapply Hst|]. exact (Forall2_lookup_lr _ _ _ _ _ _ Hb Hk Hr).
Qed.

(** ** The beginning of a run *)

(** [Run] changes the environment and the observation only. *)
Definition alike o o' : Prop :=
  opt_Store o' = opt_Store o ∧ Ledger o' = Ledger o ∧ Reporter o' = Reporter o ∧ Clock o' = Clock o.

Lemma alike_spared o o' st : alike o o' → spared_stage o st → spared_stage o' st.
Proof.
  intros (Hs & Hl & _ & Hc) (I & O & BI & BO & CO & s & -> & Hsc). exists I, O, BI, BO, CO, s. split; [done|].
  destruct Hsc as [Hdo Hhook Hload Hput [Hledger Hclock]]. split; try done; [rewrite Hs; done..|].
  split; [rewrite Hl; done|rewrite Hc; done].
Qed.

Lemma alike_reports o o' : alike o o' → reports_within sparing o → reports_within sparing o'.
Proof. intros (_ & _ & Hr & Hc) [Hreporter Hclock]. split; [rewrite Hr; done|rewrite Hc; done]. Qed.

Lemma alike_ledger o o' : alike o o' → ledger_spares o → ledger_spares o'.
Proof. intros (_ & Hl & _ & Hc) [Hledger Hclock]. split; [rewrite Hl; done|rewrite Hc; done]. Qed.

Notation begins Q p := (guarantees (sparing (U := U) (W := W)) Q p).

Lemma spared_publish o c report total terminal : reports_within sparing o → spared (publish o c report total terminal).
Proof.
  intros Hr. unfold publish. destruct (Reporter o) as [reporter|] eqn:Hrep; [|apply spared_ret].
  apply spared_bind; [apply (within_take_snapshot sparing); [by intros os v; apply same_sparing|done]|].
  intros snapshot. apply spared_bind; [by eapply rw_reporter|intros; apply spared_ret].
Qed.

Lemma begins_open o : begins (λ eo, alike o eo.2) (open_env o).
Proof.
  unfold open_env. destruct (opt_env o) as [e|]; [by apply guarantees_ret|].
  eapply guarantees_bind with (λ _, True); [|by intros e _; apply guarantees_ret].
  apply spared_env, guarantees_atomic. intros w. done.
Qed.

Lemma spared_ensure e ps : spared (zoom (ensure e ps)).
Proof.
  apply spared_env, guarantees_await. intros w w' x Hin. destruct (ew_envs w !! e) as [env|]; [|by apply elem_of_nil in Hin].
  apply list_elem_of_singleton in Hin as [= -> ->]. split; [|done]. unfold same_env, same_ctxs. simpl.
  by destruct (ensure_env env ps (lw_budgets (ew_limits w))) as [[env' h] r].
Qed.

Lemma spared_probes o stages : Forall (spared_stage o) stages → spared (for_each stages (probe o)).
Proof.
  induction 1 as [|st stages (I & O & BI & BO & CO & s & -> & _) _ IH]; cbn [for_each]; [apply spared_ret|].
  apply spared_rbind; [|intros _; exact IH]. apply spared_rbind; [|intros; apply spared_ret].
  apply spared_faulty, spared_rbind; [apply spared_new|intros; apply spared_ret].
Qed.

Lemma begins_observation o c total :
  ledger_spares o → reports_within sparing o → begins (λ r, ∀ o', r = Ok o' → alike o o') (begin_observation c o total).
Proof.
  intros Hl Hr. unfold begin_observation. eapply guarantees_bind with (alike o).
  - unfold withObservation. destruct (observation o); [by apply guarantees_ret|].
    eapply guarantees_bind with (λ _, True); [by apply within_now|]. intros t _.
    eapply guarantees_bind with (λ _, True); [by apply spared_atomic|]. intros s _. by apply guarantees_ret.
  - intros o1 Ho1. eapply guarantees_bind with (λ _, True); [by apply spared_emit, (alike_ledger o)|].
    intros [[]|e] _; [|by apply guarantees_ret].
    eapply guarantees_bind with (λ _, True); [by apply spared_publish, (alike_reports o)|].
    intros [[]|e] _; [by apply guarantees_ret; intros o' [= <-]|].
    eapply guarantees_bind with (λ _, True); [by apply spared_emit, (alike_ledger o)|]. intros _ _. by apply guarantees_ret.
Qed.

Lemma begins_run o c stages total :
  Forall (spared_stage o) stages → ledger_spares o → reports_within sparing o →
  begins (λ r, ∀ o' root, r = Ok (o', root) → alike o o') (Run_begin c stages total o).
Proof.
  intros Hst Hl Hr. unfold Run_begin. destruct (validate_stages stages); [|by apply guarantees_ret].
  eapply guarantees_bind; [apply begins_open|]. intros [e o1] Ho1. simpl in Ho1.
  eapply guarantees_bind with (λ _, True); [apply spared_ensure|]. intros [[]|err] _; [|by apply guarantees_ret].
  eapply guarantees_bind with (λ _, True).
  { apply spared_probes. eapply Forall_impl; [exact Hst|]. intros st. by apply alike_spared. }
  intros [[]|err] _; [|by apply guarantees_ret]. destruct (is_root o1); [|by apply guarantees_ret; intros o' root [= <- _]].
  eapply guarantees_bind; [apply begins_observation; [by eapply alike_ledger|by eapply alike_reports]|].
  intros [o2|err] Ho2; [|by apply guarantees_ret]. apply guarantees_ret. intros o' root [= <- _].
  destruct Ho1 as (H1 & H2 & H3 & H4), (Ho2 o2 eq_refl) as (H5 & H6 & H7 & H8). repeat split; congruence.
Qed.

(** No run of such stages is canceled before it fails. *)
Lemma spared_calm {I} `{!Boxed dyn I} (Env : W → W → Prop) c (items : list I) stages o w :
  Forall (spared_stage o) stages → ledger_spares o → reports_within sparing o → (∀ u u', Env u u' → sparing u u') →
  ctxs_ok (ctxs_of w) → alive c (ctxs_of w) → calm Env c items stages o w.
Proof.
  intros Hst Hl Hr HEnv Hok Halive o' root w1 Hbegin.
  destruct (runs_guarantees Env sparing _ _ _ _ _ HEnv (begins_run o c stages _ Hst Hl Hr) Hbegin) as [Hw Ho].
  specialize (Ho o' root eq_refl).
  assert (sparing w w1) as Hw1 by (clear -Hw; induction Hw; [done|by etrans]).
  apply spared_stages_calm; [|done|by intros _; eapply alike_reports|by apply Hw1|by eapply spares_alive].
  eapply Forall_impl; [exact Hst|]. intros st. by apply alike_spared.
Qed.

(** The results of a step or pipe of such steps are aligned with its items, barriers or not. *)
Lemma spared_aligned {I O} `{!Boxed dyn I, !Boxed dyn O, !Codec O} (Env : W → W → Prop) c (s : flow (dyn := dyn) (U := U) (E := E) I O)
    (items : list I) o w w' rs report :
  has_engine s = false → Forall (spared_stage o) (stagesOf Int63n dynamic_type s) → ledger_spares o → reports_within sparing o →
  (∀ u u', Env u u' → sparing u u') → ctxs_ok (ctxs_of w) → alive c (ctxs_of w) →
  Run_returns Int63n dynamic_type Env c s items o w w' (Ok rs, report) →
  length rs = length items ∧
  ∃ o' root w1 (runners : list (stageRunner (dyn := dyn) (U := U) (E := E))),
    runs Env (Run_begin c (stagesOf Int63n dynamic_type s) (Z.of_nat (length items)) o) w w1 (Ok (o', root)) ∧
    Forall2 (λ st runner, can_return (ss_build st o') (Ok runner)) (stagesOf Int63n dynamic_type s) runners ∧
    Forall runner_ok runners ∧
    ∀ i item, items !! i = Some item → ∃ out r, rs !! i = Some r ∧ result_of out = Some r ∧
      journey runners (input_at i item) out ∧ ∀ q, r_Quarantined r = Some q → ie_Index q = i.
Proof.
  intros Heng Hst Hl Hr HEnv Hok Halive Hret.
  eapply run_aligned; [done|by apply spared_stage_ok in Hst as [? _]|by apply spared_calm|exact Hret].
Qed.
End pipelines.

(** ** A step with a barrier *)

Section example.
#[local] Existing Instances string_boxed string_codec.
Notation W := (world string unit memw).

(** Like the example of RunnerProofs.v, but it waits for all of its input. *)
Definition patient_step : Step string unit memw string string :=
  MkStep "judge" (MkIdentity "judge" "v1" (Some (λ item, Ok item)))
    (MkPolicy 2 [judge] (MkRetrySpec 3 (MkBackoff 1 1) None) FailFast) true (Some answer) None None None.

Lemma spared_user {A} (p : prog memw A) : guarantees (sparing (U := unit) (W := W)) (λ _, True) (zoom p).
Proof. apply (guarantees_zoom (λ _ _, True)); [intros w u _; by apply same_sparing|]. by apply (guarantees_any (λ _, True)). Qed.

Lemma patient_spares : spares_contexts patient_step answer_options.
Proof.
  split; [| |intros store c key [= <-]; apply spared_user|intros store c key v [= <-]; apply spared_user|by split].
  - intros do c item [= <-]. by apply guarantees_ret.
  - intros hook c index v outcome [=].
Qed.

(** Whatever else goes on, as long as nobody cancels the caller. *)
Example patient_aligned Env items w w' rs report :
  (∀ u u', Env u u' → sparing u u') → ctxs_ok (ctxs_of w) → alive caller (ctxs_of w) →
  Run_returns no_draws text_type Env caller (Plain _ _ patient_step) items answer_options w w' (Ok rs, report) →
  length rs = length items.
Proof.
  intros HEnv Hok Halive Hret.
  eapply (spared_aligned no_draws text_type Env caller (Plain _ _ patient_step) items answer_options); [done| |by split|by split|exact HEnv|exact Hok|exact Halive|exact Hret].
  constructor; [|done]. exists string, string, string_boxed, string_boxed, string_codec, patient_step. split; [done|exact patient_spares].
Qed.
End example.
