(* ===== verification/Override.v ===== *)
(** * Steps with an engine of their own inside a run: flow/run.go and flow/bulk.go

    [Bulk] makes a step whose engine is [runBulk] (Bulk.v).  As a stage of a pipeline
    such a step is driven by [overrideStageRunner]: it collects its whole input, runs
    the step over the items that no earlier stage flagged, and hands everything on
    under its original position.  [override_run] is that function on its own, and
    [stageOfEngine_ok] is what pipelines ask of such a stage (FlowProofs.v).
    [Aligned] is what it relies on: that the results of a run are in the places of its
    items. *)

From Stdlib Require Import Sorted.
From S2P Require Import Prelude GoError GoStrings Float64 Classify Policy Digest Json.
From S2P Require Import Go Limits Budget Chain ErrGroup BoundedMap ResourcePlan RunEnv Cache Report Step Runner RunnerProofs.
From S2P Require Import Pipeline PipelineProofs Flow FlowProofs RunExact Groups CachedMap CachedMapProofs Bulk BulkProofs.

(** ** Results in the places of their items *)

Section places.
Context {O : Type}.
Implicit Types rs : list (Result O).

(** One result per item; a quarantine record names its own position. *)
Definition in_place (n : nat) rs : Prop :=
  length rs = n ∧ ∀ i r q, rs !! i = Some r → r_Quarantined r = Some q → ie_Index q = i.

Lemma in_place_insert n rs i r :
  (∀ q, r_Quarantined r = Some q → ie_Index q = i) → in_place n rs → in_place n (<[i := r]> rs).
Proof.
  intros Hr [Hl Hrs]. split; [by rewrite length_insert|].
  intros j r' q [(-> & -> & _)|[_ Hj]]%list_lookup_insert_Some Hq; [by apply Hr|by eapply Hrs].
Qed.

Lemma in_place_spread n rs is_ r : r_Quarantined r = None → in_place n rs → in_place n (spread r is_ rs).
Proof.
  intros Hr. unfold spread. revert rs. induction is_ as [|i is_ IH]; intros rs Hrs; [done|]. cbn [foldl].
  apply IH, in_place_insert; [|done]. intros q. by rewrite Hr.
Qed.

Lemma in_place_replicate n r : r_Quarantined r = None → in_place n (replicate n r).
Proof. intros Hr. split; [apply length_replicate|]. intros i r' q [-> _]%lookup_replicate. by rewrite Hr. Qed.
End places.

Section aligned.
Context {dyn U E : Type} {EG : ErrGroup} (Int63n : nat → Z → Z) (dynamic_type : option dyn → string).
Notation W := (world dyn U E).
Notation flow := (flow (dyn := dyn) (U := U) (E := E)).
Notation engine := (engine (dyn := dyn) (U := U) (E := E)).
Notation Run_returns := (Run_returns Int63n dynamic_type).

(** What the code that nests a run relies on. *)
Class Aligned {I O} `{!Boxed dyn I, !Boxed dyn O, !Codec O} (Env : W → W → Prop) (c : ctx) (s : flow I O) : Prop :=
  run_in_place items o w w' rs report :
    Run_returns Env c s items o w w' (Ok rs, report) → in_place (length items) rs.

(** The same of an engine. *)
Class EngineAligned {I O} (Env : W → W → Prop) (c : ctx) (s : Step dyn U E I O) (own : engine I O) : Prop :=
  engine_in_place items o w w' rs report :
    override own Env c s items o w w' (Ok rs, report) → in_place (length items) rs.

Section instances.
Context {I O : Type} `{!Boxed dyn I, !Boxed dyn O, !Codec O} (Env : W → W → Prop) (c : ctx).

#[export] Instance custom_aligned (s : Step dyn U E I O) (own : engine I O) :
  (∀ Env c, EngineAligned Env c s own) → Aligned Env c (Custom _ _ s own).
Proof.
  intros Hown items o w w' rs report Hret.
  inversion Hret as [|st' own' w1 w2 w3 o' root r rep out Heq _ Hover Hend|? ? ? ? ? ? ? ? ? Heng]; [|done].
  injection Heq as <- <-. subst. apply runs_can_return, Run_end_ok in Hend as [-> ->].
  inversion Hover as [| |rc w4 w5 w6 w7 w8 results rep' r' pubs _ _ Hran _ _]; subst. destruct r'; simplify_eq/=. by eapply Hown.
Qed.

(** Steps and pipes of steps without barriers. *)
Lemma stages_aligned (s : flow I O) :
  has_engine s = false → Forall stage_ok (stagesOf Int63n dynamic_type s) →
  no_barrier (stagesOf Int63n dynamic_type s) →
  Aligned Env c s.
Proof.
  intros Heng Hok Hbar items o w w' rs report Hret.
  destruct (run_aligned Int63n dynamic_type Env c s items o w w' rs report Heng Hok) as (Hl & o' & root & w1 & runners & _ & _ & _ & Hall).
  - by apply no_barrier_calm.
  - exact Hret.
  - split; [done|]. intros i r q Hr Hq. destruct (items !! i) as [item|] eqn:Hi.
    + destruct (Hall i item Hi) as (out & r' & Hr' & _ & _ & Hqi). rewrite Hr in Hr'. injection Hr' as <-. by apply Hqi.
    + apply lookup_ge_None in Hi. apply lookup_lt_Some in Hr. lia.
Qed.

Lemma plain_no_barrier (s : Step dyn U E I O) :
  Barrier s = false →
  no_barrier [stageOfStep Int63n dynamic_type s].
Proof.
  intros Hs. constructor; [|done]. intros o runner Hr. apply can_return_rbind in Hr as [(tr & Hnew & [= <-])|(e & _ & [=])].
  simpl. rewrite <-Hs. unfold newTypedRunner in Hnew. case_decide; [done|].
  destruct (Do s), (Meter s), (AttemptMeter s); try done; by apply can_return_bind in Hnew as (ri & _ & [= <-]).
Qed.

Lemma plain_aligned (s : Step dyn U E I O) : Barrier s = false → Aligned Env c (Plain _ _ s).
Proof. intros Hs. apply stages_aligned; [done|apply plain_ok|by apply plain_no_barrier]. Qed.
End instances.
End aligned.

(** ** Bulk *)

Section bulk.
Context {dyn U E I O : Type} `{!Boxed dyn O, !Codec O} {EG : ErrGroup} (Int63n : nat → Z → Z).
Notation W := (world dyn U E).
Notation BW := (bulkw dyn U E O).
Notation flow := (flow (dyn := dyn) (U := U) (E := E)).

(** [s] without [Do]. *)
Definition without_Do (s : Step dyn U E I O) : Step dyn U E I O :=
  MkStep (st_Name s) (st_Identity s) (st_Policy s) (Barrier s) None (Meter s) (AttemptMeter s) (OnResult s).

Definition bulk_engine (doBulk : option (ctx → list I → prog W (list O * option error))) (batchSize : Z)
    : engine (dyn := dyn) (U := U) (E := E) I O :=
  MkEngine [] [] (Some (λ current, bulk_check current doBulk batchSize))
    (λ Env c current items o w w' out, runBulk_returns Int63n current doBulk batchSize o Env c items w w' out).

Definition Bulk (s : Step dyn U E I O) doBulk (batchSize : Z) : flow I O := Custom _ _ (without_Do s) (bulk_engine doBulk batchSize).

(** Every move keeps results in place. *)
Definition keeps_places (u u' : BW) : Prop := ∀ n, in_place n (bk_results u) → in_place n (bk_results u').

Lemma base_keeps_places {A} (p : prog W A) : guarantees keeps_places (λ _, True) (zoom (W := BW) p).
Proof. eapply guarantees_zoom; [|by apply (guarantees_any (λ _, True))]. by intros u w _ n. Qed.

Lemma bulk_keeps_places (s : Step dyn U E I O) o doBulk : bulk_moves Int63n s o doBulk keeps_places.
Proof.
  split; intros; try apply base_keeps_places.
  - by intros n.
  - intros n. by apply in_place_insert.
  - intros n. by apply in_place_spread.
Qed.

Lemma runs_keep_places (Env : W → W → Prop) {A} (p : prog BW A) u u' a n :
  guarantees keeps_places (λ _, True) p → runs (bulk_around Env) p u u' a → in_place n (bk_results u) → in_place n (bk_results u').
Proof.
  intros Hp Hrun. destruct (runs_guarantees (bulk_around Env) keeps_places (λ _, True) p u u' a) as [Hs _]; [|done|done|].
  - intros u1 u2 [_ ->]. by intros m.
  - clear Hrun. induction Hs as [|u1 u2 u3 H12 _ IH]; [done|]. intros Hu. by apply IH, H12.
Qed.

#[export] Instance bulk_aligned Env c (s : Step dyn U E I O) doBulk batchSize :
  EngineAligned Env c s (bulk_engine doBulk batchSize).
Proof.
  intros items o w w' rs report Hret. simpl in Hret. remember (Ok rs, report) as out eqn:Hout.
  assert (in_place (length items) (bk_results (bulk_start items w : BW))) as Hstart by by apply in_place_replicate.
  pose proof (bulk_keeps_places s o doBulk) as HG.
  destruct Hret as [| |u1 u rep' Hcheck Hprep Hrep|call misses u1 u2 u r rep' Hcheck Hcall Hprep Hne Hcap Hmap Hrep]; [done|done| |].
  - injection Hout as <- <-. eapply runs_keep_places; [eapply (moves_prepare _ _ _ _ _ HG)|done|done].
  - destruct r as [vs|]; [|done]. injection Hout as <- <-.
    eapply (Map_keeps tt (λ u, in_place (length items) (bk_results u))); [| | | |exact Hmap].
    + by intros v v' [_ ->].
    + done.
    + intros gctx index b. unfold job. cbn [opt_Limiter bulk_options]. change (item_cost (bulk_options s) b) with 1.
      cbn [Z.ltb Z.compare Pos.compare Pos.compare_cont].
      eapply guarantees_bind; [apply guarantees_annotate; by apply guarantees_ret|]. intros [[]|e] _; [|by apply guarantees_ret].
      apply guarantees_annotate. eapply guarantees_weaken; [|by eapply (moves_batch _ _ _ _ _ HG)]. intros v v' Hv. apply Hv.
    + eapply runs_keep_places; [eapply (moves_prepare _ _ _ _ _ HG)|done|done].
Qed.
End bulk.

(** ** The stage of a custom engine *)

Section stage.
Context {dyn U E : Type} {EG : ErrGroup} (Int63n : nat → Z → Z) (dynamic_type : option dyn → string).
Notation W := (world dyn U E).
Context {I O : Type} `{!Boxed dyn I, !Boxed dyn O, !Codec O}.
Implicit Types (c : ctx) (o : Options dyn U E) (x : erasedItem dyn) (arrived clean outs : list (erasedItem dyn)).

(** What [overrideStageRunner.run] emits and returns, and what it leaves in [rep],
    when [arrived] was received up to the closing of [in].  Sending gives up when the
    context is done. *)
Inductive override_run (Env : W → W → Prop) c (s : flow I O) o arrived (w : W) :
    W → list (erasedItem dyn) → res unit → Report → Prop :=
| stage_canceled e :
    world_ctx_err c w = Some e →
    override_run Env c s o arrived w w [] (Err e) None
| stage_failed w' e report :
    world_ctx_err c w = None → override_engine dynamic_type (Run_returns Int63n dynamic_type Env c s) o arrived w w' (Err e) report →
    override_run Env c s o arrived w w' [] (Err e) report
| stage_emitted w1 w' outs report :
    world_ctx_err c w = None → override_engine dynamic_type (Run_returns Int63n dynamic_type Env c s) o arrived w w1 (Ok outs) report →
    rtc Env w1 w' →
    override_run Env c s o arrived w w' outs (Ok tt) report
| stage_interrupted w1 w' outs report n e :
    world_ctx_err c w = None → override_engine dynamic_type (Run_returns Int63n dynamic_type Env c s) o arrived w w1 (Ok outs) report →
    rtc Env w1 w' → (n < length outs)%nat → world_ctx_err c w' = Some e →
    override_run Env c s o arrived w w' (take n outs) (Err e) report.
End stage.

Section stage_proofs.
Context {dyn U E : Type} {EG : ErrGroup} (Int63n : nat → Z → Z) (dynamic_type : option dyn → string).
Notation W := (world dyn U E).
Context {I O : Type} `{!Boxed dyn I, !Boxed dyn O, !Codec O}.
Implicit Types (c : ctx) (o : Options dyn U E) (x : erasedItem dyn) (arrived clean outs : list (erasedItem dyn)).

Lemma typed_items_length clean (items : list I) : typed_items dynamic_type clean = Ok items → length items = length clean.
Proof.
  revert items. induction clean as [|x clean IH]; intros items; simpl; [by intros [= <-]|].
  destruct (unbox (ei_value x)) as [typed|]; [|done]. destruct (typed_items dynamic_type clean) as [l|]; [|done].
  intros [= <-]. simpl. by rewrite (IH l eq_refl).
Qed.

Lemma typed_items_lookup clean (items : list I) p x :
  typed_items dynamic_type clean = Ok items → clean !! p = Some x → ∃ item, items !! p = Some item ∧ unbox (ei_value x) = Some item.
Proof.
  revert items p. induction clean as [|y clean IH]; intros items p; simpl; [done|].
  destruct (unbox (ei_value y)) as [typed|] eqn:Hy; [|done]. destruct (typed_items dynamic_type clean) as [l|]; [|done].
  intros [= <-]. destruct p as [|p]; simpl; [intros [= <-]; eauto|]. by apply IH.
Qed.

Lemma filter_split {A} (f : A → bool) (l : list A) : filter (λ y, f y = false) l ++ filter (λ y, f y = true) l ≡ₚ l.
Proof.
  induction l as [|y l IH]; [done|]. rewrite !filter_cons. destruct (f y); simpl.
  - rewrite <-Permutation_middle. by rewrite IH.
  - by rewrite IH.
Qed.

Lemma resumed_indexes clean (results : list (Result O)) :
  length results = length clean → ei_index <$> zip_with resumed clean results = ei_index <$> clean.
Proof.
  revert results. induction clean as [|x clean IH]; intros [|r results] Hl; try done.
  simpl. f_equal. apply IH. by injection Hl.
Qed.

Lemma resumed_positioned x (r : Result O) : positioned (resumed x r).
Proof. intros q Hq. apply fmap_Some in Hq as (q' & _ & ->). done. Qed.

Lemma emitted_indexes arrived clean (results : list (Result O)) :
  sorted_items (filter (λ x, flagged x = false) arrived) clean → length results = length clean →
  ei_index <$> all_emitted arrived clean results ≡ₚ ei_index <$> arrived.
Proof.
  intros [Hp _] Hl. unfold all_emitted. rewrite fmap_app, resumed_indexes by done.
  by rewrite Hp, <-fmap_app, filter_split.
Qed.

(** What an engine's stage emits resumes what has arrived. *)
Lemma engine_resumes nested o arrived (w w' : W) outs report :
  (∀ items o w w' rs report, nested items o w w' (Ok rs, report) → length rs = length items) → Forall positioned arrived →
  override_engine (I := I) (O := O) dynamic_type nested o arrived w w' (Ok outs) report →
  ∃ l : list (erasedItem dyn * erasedItem dyn), arrived ≡ₚ l.*1 ∧ outs ≡ₚ l.*2 ∧ Forall (λ '(x, y), resumes x y) l.
Proof.
  intros Hlen Hpos Hrun. inversion Hrun as [| |w1 clean items results rep Hsort Htyped Hret]; simplify_eq.
  apply Hlen in Hret. rewrite (typed_items_length _ _ Htyped) in Hret. pose proof Hsort as [Hperm _].
  set (kept := filter (λ x, flagged x = true) arrived).
  exists (zip clean (zip_with resumed clean results) ++ zip kept kept). split_and!.
  - rewrite fmap_app, !fst_zip by (rewrite ?length_zip_with; lia). unfold kept. by rewrite Hperm, filter_split.
  - rewrite fmap_app, !snd_zip by (rewrite ?length_zip_with; lia). done.
  - apply Forall_app. split; apply Forall_forall; intros [x y] (p & Hp)%list_elem_of_lookup;
      apply lookup_zip_with_Some in Hp as (x' & y' & [= <- <-] & Hx & Hy).
    + apply lookup_zip_with_Some in Hy as (x' & r & -> & Hx' & _). rewrite Hx in Hx'. injection Hx' as <-.
      split; [split; [done|apply resumed_positioned]|]. intros Hf. apply list_elem_of_lookup_2 in Hx.
      rewrite Hperm in Hx. apply list_elem_of_filter in Hx as [Hx _]. congruence.
    + rewrite Hx in Hy. injection Hy as <-. apply list_elem_of_lookup_2, list_elem_of_filter in Hx as [_ Hx].
      rewrite Forall_forall in Hpos. split; [split; [done|by apply Hpos]|done].
Qed.

(** C28: The stage of a custom engine keeps every item at its position: what it emits
    are the items that arrived, each once; items that an earlier stage flagged are
    handed on as they are; every other item carries the result of one run of the step
    over the unflagged items, taken in the order of their positions and not in that of
    their arrival; and a quarantine record that the nested run has numbered by its own
    compact list names the position in the whole input again. *)
Theorem override_stage_aligned (Env : W → W → Prop) c (s : flow I O) o arrived (w w' : W) outs report :
  Aligned Int63n dynamic_type Env c s → Forall positioned arrived →
  override_run Int63n dynamic_type Env c s o arrived w w' outs (Ok tt) report →
  ei_index <$> outs ≡ₚ ei_index <$> arrived ∧ Forall positioned outs ∧
  (∀ x, x ∈ arrived → flagged x = true → x ∈ outs) ∧
  ∃ w1 clean items results nested,
    sorted_items (filter (λ x, flagged x = false) arrived) clean ∧
    Run_returns Int63n dynamic_type Env c s items (set_Reporter None o) w w1 (Ok results, nested) ∧
    report = Report_merge None nested ∧ length results = length clean ∧
    ∀ p x, clean !! p = Some x → ∃ item r, items !! p = Some item ∧ unbox (ei_value x) = Some item ∧
      results !! p = Some r ∧ resumed x r ∈ outs.
Proof.
  intros Hal Hpos Hrun. inversion Hrun as [| |w1 w2 outs' rep _ Heng _|]; simplify_eq.
  inversion Heng as [| |w2 clean items results nested Hsort Htyped Hret]; simplify_eq.
  destruct (Hal _ _ _ _ _ _ Hret) as [Hl _]. rewrite (typed_items_length _ _ Htyped) in Hl.
  split_and!.
  - by apply emitted_indexes.
  - unfold all_emitted. apply Forall_app. split.
    + apply Forall_forall. intros y (p & Hp)%list_elem_of_lookup.
      apply lookup_zip_with_Some in Hp as (x & r & -> & _ & _). apply resumed_positioned.
    + apply Forall_forall. intros x [_ Hx]%list_elem_of_filter. rewrite Forall_forall in Hpos. by apply Hpos.
  - intros x Hx Hf. unfold all_emitted. apply elem_of_app. right. by apply list_elem_of_filter.
  - exists w1, clean, items, results, nested. split_and!; try done. intros p x Hp.
    destruct (typed_items_lookup _ _ _ _ Htyped Hp) as (item & Hi & Hu).
    destruct (lookup_lt_is_Some_2 results p) as [r Hr]; [rewrite Hl; by eapply lookup_lt_Some|].
    exists item, r. split_and!; [done..|]. unfold all_emitted. apply elem_of_app. left. apply list_elem_of_lookup.
    exists p. apply lookup_zip_with_Some. by exists x, r.
Qed.
(** The relations that describe the runs of a step with an engine agree. *)
Lemma custom_returns_Run (Env : W → W → Prop) c (s : Step dyn U E I O) own items o w w' out :
  custom_returns Env c s own items o w w' out → Run_returns Int63n dynamic_type Env c (Custom _ _ s own) items o w w' out.
Proof.
  intros [w1 e Hbegin|w1 w2 w3 o' root r report out' Hbegin Hover Hend].
  - by apply run_refused.
  - by eapply run_overridden.
Qed.

(** The stage of an engine that keeps results in place. *)
Lemma stageOfEngine_ok (s : Step dyn U E I O) own :
  (∀ Env c, EngineAligned Env c s own) → stage_ok (stageOfEngine dynamic_type s own).
Proof.
  intros Hown o runner [= <-] c arrived w w' outs Hpos (report & Hrun).
  eapply engine_resumes; [|exact Hpos|exact Hrun]. intros items o' u u' rs rep Hret%custom_returns_Run.
  by destruct (custom_aligned Int63n dynamic_type _ c s own Hown items o' u u' rs rep Hret).
Qed.

Lemma stageOfEngine_no_barrier (s : Step dyn U E I O) own : no_barrier [stageOfEngine dynamic_type s own].
Proof. constructor; [|done]. by intros o runner. Qed.
End stage_proofs.
