(* ===== verification/MixedRun.v ===== *)
(** * A concrete pipeline with the stage of a custom engine

    The first stage answers three questions; the second is a step with an engine of its
    own, which gets all the answers at once and marks them. *)

From S2P Require Import Prelude GoError GoStrings Float64 Classify Policy Digest Json.
From S2P Require Import Go Limits Budget Rate Chain ErrGroup BoundedMap ResourcePlan RunEnv Cache Report Step Observe Runner RunnerProofs.
From S2P Require Import Pipeline PipelineProofs Flow FlowProofs RunExact Groups CachedMap CachedMapProofs Bulk BulkProofs Override.

Section example.
#[local] Existing Instances string_boxed string_codec.
Notation W := (world string unit memw).
Notation engine := (engine (dyn := string) (U := unit) (E := memw)).

Definition mark_step : Step string unit memw string string :=
  MkStep "mark" (MkIdentity "mark" "v1" None) (MkPolicy 1 [] (MkRetrySpec 1 (MkBackoff 1 1) None) FailFast) false None None None None.
Definition marked (q : string) : Result string := MkResult (q +:+ "!") no_outcome None false.
Definition mark_engine : engine string string :=
  MkEngine [] [] None (λ _ _ _ items _ w w' out, w' = w ∧ out = (Ok (marked <$> items), None)).
Definition mixed : flow (dyn := string) (U := unit) (E := memw) string string :=
  Pipe2 no_draws text_type (Plain _ _ answer_step) (Custom _ _ mark_step mark_engine).

#[local] Instance mark_aligned Env c : EngineAligned Env c mark_step mark_engine.
Proof.
  intros items o w w' rs report [_ [= -> _]]. split; [apply length_fmap|].
  intros i r q (x & -> & _)%list_lookup_fmap_Some. done.
Qed.

Definition mixed_stages : list stageSpec := stagesOf no_draws text_type mixed.
Definition mixed_runners : list stageRunner :=
  [PerItem (typed_stage no_draws text_type (built answer_step answer_options 1)); override_stage text_type mark_step mark_engine answer_options].
Definition mixed_pipeline := run_pipeline answer_options 3 mixed_stages mixed_runners.
Definition mark_moves : list choice := At 1 <$> [StageStep; Buffer; Unbuffer; Emit; EmitEnd; EndStage].
Definition mixed_moves : list choice := Collect :: mark_moves ++ answer_moves.

Definition mixed_start : pstate W (erasedItem string) :=
  pipe_start mixed_pipeline answer_ctx zero_item (input_items questions)
    (map_ctxs (λ _, (WithCancel caller (ctxs_of base_world)).1) (with_runners 2)).
(** Up to the moment at which the engine has everything. *)
Definition before_marks : pstate W (erasedItem string) := play ei_index mixed_pipeline answer_ctx 160 mixed_moves mixed_start.
Definition arrived_answers : list (erasedItem string) :=
  match p_stages before_marks !! 1%nat with Some (SState (Working l _) _) => l | _ => [] end.
Definition mark_world : W := p_world before_marks.
Definition sorted_answers : list (erasedItem string) := answers.
Definition marks : list (erasedItem string) := all_emitted arrived_answers sorted_answers (marked <$> questions).
Definition after_marks : pstate W (erasedItem string) := set_phase 1 (Emitting marks) before_marks.
Definition mixed_end : pstate W (erasedItem string) := play ei_index mixed_pipeline answer_ctx 60 mixed_moves after_marks.

Definition answered (i : nat) (q : string) : erasedItem string :=
  ErasedItem i (Some q) (MkOutcome (digest_of q) CacheStored) None false.

(** The two workers finish in another order than they have started. *)
Lemma arrived_is : arrived_answers = [answered 0 "why"; answered 2 "how"; answered 1 "why"].
Proof. vm_compute. reflexivity. Qed.

Lemma answers_sorted : sorted_items (filter (λ x, flagged x = false) arrived_answers) sorted_answers.
Proof.
  rewrite arrived_is. split; [|repeat (constructor; simpl; try lia)].
  change (filter (λ x, flagged x = false) [answered 0 "why"; answered 2 "how"; answered 1 "why"])
    with [answered 0 "why"; answered 2 "how"; answered 1 "why"].
  change sorted_answers with [answered 0 "why"; answered 1 "why"; answered 2 "how"]. constructor. apply perm_swap.
Qed.

Notation anything := (λ _ _ : W, True).

(** Where anything may happen around it a program can be run in any world. *)
Lemma runs_anywhere {A} (p : prog W A) w0 w1 a w w' : runs anything p w0 w1 a → runs anything p w w' a.
Proof. intros Hp. eapply rtc_l; [by apply pool_env|]. eapply rtc_r; [exact Hp|by apply pool_env]. Qed.

Lemma mark_run c w w' :
  custom_returns anything c mark_step mark_engine questions answer_options w w' (Ok (marked <$> questions), None).
Proof.
  eapply (custom_ran _ _ _ _ _ _ _ w w w' answer_options false (Ok (marked <$> questions)) None).
  - eapply (runs_anywhere _ base_world). eapply (replay_pool_steps _ [0%nat]). reflexivity.
  - eapply (override_ended_quietly _ _ _ _ _ _ _ w w w (marked <$> questions) None (Ok tt)); [done|apply rtc_refl|done|apply rtc_refl].
  - eapply (runs_anywhere _ base_world). apply rtc_refl.
Qed.

Lemma marks_step : pstep ei_index mixed_pipeline answer_ctx anything before_marks after_marks.
Proof.
  assert (∃ w b, p_stages before_marks !! 1%nat = Some (SState (Working arrived_answers w) b)) as (w & b & Hst).
  { unfold arrived_answers. assert (match p_stages before_marks !! 1%nat with Some (SState (Working _ _) _) => True | _ => False end) as Hph
      by (vm_compute; exact I).
    destruct (p_stages before_marks !! 1%nat) as [[[] b]|]; try done. eauto. }
  eapply (pipe_engine _ _ _ _ before_marks 1 _ _ _ _ _ (Ok marks)); [reflexivity|reflexivity|exact Hst|].
  eexists. eapply (engine_ended _ _ _ _ _ _ _ questions); [exact answers_sorted|reflexivity|apply mark_run].
Qed.

Definition marked_answers : list (erasedItem string) :=
  imap (λ i q, ErasedItem i (Some (q +:+ "!")) no_outcome None false) questions.

Lemma mixed_pipe :
  pipeline_returns ei_index zero_item anything mixed_pipeline caller (input_items questions) (with_runners 2)
    (p_world mixed_end) (Ok marked_answers).
Proof.
  assert (pipe_result mixed_end = Ok marked_answers) as <- by (vm_compute; reflexivity).
  eapply (pipe_runs _ _ _ _ _ _ _ _ answer_ctx mixed_end); [reflexivity| |].
  - etrans; [apply (play_steps ei_index mixed_pipeline answer_ctx anything 160 mixed_moves)|].
    eapply rtc_l; [exact marks_step|]. apply play_steps.
  - vm_compute. split; [done|]. split; [|done]. repeat constructor.
Qed.

Lemma mixed_run :
  ∃ w', Run_returns no_draws text_type nobody_else caller mixed questions answer_options base_world w'
    (Ok (marked <$> questions), Some {["judge" := answer_counts]}).
Proof.
  eexists. eapply (run_ended _ _ _ _ _ _ _ _ (with_runners 1) _ _ answer_options false (Ok marked_answers)); [reflexivity| | | |].
  - eapply (replay_pool_steps _ [0%nat; 0%nat]). reflexivity.
  - eapply (stages_ran _ _ _ _ _ _ caller (with_runners 2) (with_runners 2) (p_world mixed_end) (p_world mixed_end) _ mixed_runners (λ _, None) (Ok marked_answers) None).
    + eapply (replay_pool_steps _ [0%nat]). reflexivity.
    + by constructor.
    + exact mixed_pipe.
    + by constructor.
    + apply (replay_runs _ 3). vm_compute. reflexivity.
  - vm_compute. reflexivity.
  - apply rtc_refl.
Qed.

(** The two stages, one after the other, on the third question: the runners are those
    that the stages of the pipe build. *)
Lemma results_aligned_witness :
  ∃ w' runners out, Run_returns no_draws text_type nobody_else caller mixed questions answer_options base_world w'
    (Ok (marked <$> questions), Some {["judge" := answer_counts]}) ∧
    (∃ o', Forall2 (λ st runner, can_return (ss_build st o') (Ok runner)) (stagesOf no_draws text_type mixed) runners) ∧
    journey (dyn := string) (U := unit) (E := memw) runners (input_at 2 "how") out ∧ result_of out = Some (marked "how").
Proof.
  destruct mixed_run as [w' Hrun].
  destruct (results_aligned no_draws text_type nobody_else caller mixed questions answer_options base_world w'
              (marked <$> questions) (Some {["judge" := answer_counts]}) eq_refl) as (_ & o' & root & w1 & runners & _ & Hb & _ & Hall); [| |exact Hrun|].
  - constructor; [apply stageOfStep_ok|]. constructor; [|done]. apply (stageOfEngine_ok no_draws); [apply string_codec|]. intros Env c. apply mark_aligned.
  - apply no_barrier_calm. constructor; [exact (Forall_inv answer_no_barrier)|]. apply stageOfEngine_no_barrier.
  - destruct (Hall 2%nat "how" eq_refl) as (out & r & Hr & Hout & Hj & _).
    exists w', runners, out. split; [exact Hrun|]. split; [exists o'; exact Hb|]. split; [exact Hj|]. rewrite Hout. by injection Hr as <-.
Defined.
End example.
