(* ===== verification/BulkRun.v ===== *)
(** * A concrete bulk call

    Four questions, three of them different, asked two groups at a time through an
    in-memory store: the first call answers, the second fails and its item is put
    into quarantine.  Then the same step as the stage of a pipeline, behind a stage
    that flagged an item. *)

From S2P Require Import Prelude GoError GoStrings Float64 Classify Policy Digest Json.
From S2P Require Import Go Limits Budget Chain ErrGroup BoundedMap ResourcePlan RunEnv Cache Report Step Runner RunnerProofs.
From S2P Require Import Flow FlowProofs RunExact Groups CachedMap CachedMapProofs CachedStore Bulk BulkProofs Override.

Section example.
#[local] Existing Instances string_boxed string_codec.
Notation W := (world string unit memw).
Notation BW := (bulkw string unit memw string).

Definition oops : error := New "oops".
Definition ask_all (c : ctx) (l : list string) : prog W (list string * option error) :=
  mret (if bool_decide ("who" ∈ l) then ([], Some oops) else (l, None)).
Definition asked_of (l : list string) (out : list string * option error) : Prop :=
  out = if bool_decide ("who" ∈ l) then ([], Some oops) else (l, None).
Definition ask_step : Step string unit memw string string :=
  MkStep "judge" (MkIdentity "judge" "v1" (Some (λ item, Ok item)))
    (MkPolicy 2 [judge] (MkRetrySpec 3 (MkBackoff 1 1) (Some (λ _, DataError))) Quarantine) false None None None None.
Definition bulk_questions : list string := ["why"; "why"; "how"; "who"].

Notation prepare := (bulk_prepare ask_step answer_options caller bulk_questions).
Definition bulk_world : BW := bulk_start bulk_questions base_world.
Definition to_ask : list (keyGroup string) :=
  match bulk_groups ask_step answer_options bulk_questions with Ok groups => groups | Err _ => [] end.
Definition prepared_world : BW := world_after 9 prepare bulk_world.

Definition bulk_map_start : mstate BW (list (keyGroup string)) unit :=
  map_start tt (bulk_options ask_step) (batches 2 to_ask) (map_ctxs (λ _, (WithCancel caller (ctxs_of prepared_world)).1) prepared_world).
Definition bulk_ctx : ctx := (WithCancel caller (ctxs_of prepared_world)).2.
Notation bulk_job := (job (bulk_options ask_step) (bulk_batch no_draws ask_step answer_options caller (ask_all)) bulk_ctx).
Definition bulk_schedule : list choice :=
  [Deliver 0; Deliver 1; FeedAll; EndFeeder] ++ concat (replicate 12 [WorkerAct 0; WorkerAct 1]) ++ replicate 6 (WorkerAct 0) ++
  [DrainWorker 0; DrainWorker 1; EndWorker 1; EndWorker 0].

Definition bulk_replayed : option (mstate BW (list (keyGroup string)) unit) :=
  replay bulk_ctx bulk_job bulk_schedule bulk_map_start.
Definition bulk_map_end : mstate BW (list (keyGroup string)) unit := default bulk_map_start bulk_replayed.
Definition bulk_end : BW := m_world bulk_map_end.

Lemma bulk_prepared : runs (bulk_around nobody_else) prepare bulk_world prepared_world (Ok to_ask).
Proof. apply replay_runs. vm_compute. reflexivity. Qed.

Lemma bulk_map_run : rtc (mstep bulk_ctx bulk_job (bulk_around nobody_else)) bulk_map_start bulk_map_end ∧ mfinal bulk_map_end.
Proof.
  destruct (ended mfinal bulk_replayed bulk_map_start) as [Hr Hf]; [vm_compute; repeat constructor|].
  split; [by eapply replay_steps|exact Hf].
Qed.

Definition reported : BW := world_after 3 (bulk_report ask_step answer_options) bulk_end.
Definition bulk_results : list (Result string) := bk_results bulk_end.
Definition shown_report : StepReport :=
  MkStepReport 4 0 4 2 2 2 0 1 0 None (Some {["judge" := Budget.Snapshot 10 3 7]}) None.

Lemma bulk_ran :
  runBulk_returns no_draws ask_step (Some ask_all) 2 answer_options nobody_else caller bulk_questions base_world
    (bk_base reported) (Ok bulk_results, Some {["judge" := shown_report]}).
Proof.
  destruct bulk_map_run as [Hs Hf].
  assert (map_result bulk_map_end = Ok [tt; tt]) as Hr by (vm_compute; reflexivity).
  change (Ok bulk_results : res (list (Result string))) with ((λ _ : list unit, bk_results bulk_end) <$> Ok [tt; tt]).
  eapply (bulk_worked _ _ _ _ _ _ _ _ _ ask_all to_ask prepared_world bulk_end).
  - vm_compute. reflexivity.
  - reflexivity.
  - exact bulk_prepared.
  - by vm_compute.
  - by vm_compute.
  - rewrite <-Hr. eapply Map_runs; [by vm_compute|reflexivity|exact Hs|exact Hf].
  - apply replay_runs. vm_compute. reflexivity.
Qed.

Definition any_value (k : Key) (v : string) : Prop := True.

(** The caller's own state is neither the counters nor the budget. *)
Lemma base_user {A} (p : prog memw A) :
  owns (base_inv (dyn := string) 0 0 (Budget 10 10) (limiters after)) (λ _ m, m = azero) (zoom p) azero.
Proof.
  eapply owns_conseq.
  - apply (owns_zoom (λ _ (_ : unit), True) _ (λ _ : unit, azero) (λ _ _, True) p tt); [|].
    + intros w m o Hw. by exists tt.
    + induction p as [a|X act k IH]; [done|]. intros w o _ w' x _. exists tt. split; [done|apply IH].
  - by intros a m (γ & -> & _).
Qed.

Lemma ask_well_behaved : bulk_well_behaved ask_step answer_options 0 0 (Budget 10 10) (limiters after) (Some ask_all) asked_of any_value.
Proof.
  split; try done.
  - intros call c l [= <-]. by apply owns_ret.
  - intros store c key [= <-]. eapply owns_conseq; [apply base_user|]. done.
  - intros store c key v [= <-]. apply base_user.
Qed.

Lemma memory_tame {A} n (p : prog memw A) : guarantees (tame (U := unit) n) (λ _, True) (zoom (W := W) p).
Proof. eapply guarantees_zoom; [|by apply (guarantees_any (λ _, True))]. intros w m _. by split. Qed.

Lemma ask_tame : bulk_tame ask_step answer_options (scopes (ctxs_of base_world)) (Some ask_all).
Proof.
  split; try done.
  - intros call c l [= <-]. by apply guarantees_ret.
  - intros store c key [= <-]. apply memory_tame.
  - intros store c key v [= <-]. apply memory_tame.
Qed.

Lemma runBulk_contract_witness :
  ∃ answers outss,
    bulk_served ask_step answer_options 0 (Budget 10 10) (limiters after) 2 asked_of any_value bulk_questions
      answers outss bulk_results (Some {["judge" := shown_report]}) (bk_base reported).
Proof.
  eapply (runBulk_contract no_draws ask_step answer_options 0 0 (Budget 10 10) (limiters after) (Some ask_all) 2 asked_of any_value
    nobody_else caller bulk_questions base_world ask_well_behaved ask_tame eq_refl).
  - intros name ->%list_elem_of_singleton. vm_compute. eauto.
  - intros w w' [].
  - split; [exists after; split; [reflexivity|done]|]. split; [reflexivity|]. unfold max64; simpl; lia.
  - intros id _. apply lookup_empty.
  - unfold max64. simpl. lia.
  - exact bulk_ran.
Defined.

(** What was left of the budget: two units for the first batch, one for the second. *)
Example bulk_spent : remaining <$> lw_budgets (ew_limits (wd_env (bk_base reported))) !! 0%nat = Some 7.
Proof. vm_compute. reflexivity. Qed.

(** ** As a stage *)

Definition ask_stage : flow (dyn := string) (U := unit) (E := memw) string string := Bulk no_draws ask_step (Some ask_all) 2.

Lemma ask_run :
  Run_returns no_draws text_type nobody_else caller ask_stage bulk_questions answer_options base_world
    (bk_base reported) (Ok bulk_results, Some {["judge" := shown_report]}).
Proof.
  eapply (run_overridden _ _ _ _ _ _ _ _ ask_step _ base_world (bk_base reported) _ answer_options false); [reflexivity| | |].
  - eapply (replay_pool_steps _ [0%nat]). reflexivity.
  - eapply (override_ended_quietly _ _ _ _ _ _ _ base_world (bk_base reported) _ bulk_results _ (Ok tt)); [done|apply rtc_refl|exact bulk_ran|apply rtc_refl].
  - apply rtc_refl.
Qed.

(** The third item was skipped before; the others arrive in another order. *)
Definition skipped_item : erasedItem string := ErasedItem 2 None no_outcome None true.
Definition asked_at (i : nat) (q : string) : erasedItem string := ErasedItem i (Some q) no_outcome None false.
Definition arrivals : list (erasedItem string) :=
  [asked_at 4 "who"; skipped_item; asked_at 0 "why"; asked_at 3 "how"; asked_at 1 "why"].
Definition in_order : list (erasedItem string) := [asked_at 0 "why"; asked_at 1 "why"; asked_at 3 "how"; asked_at 4 "who"].

Lemma arrivals_sorted : sorted_items (filter (λ x, flagged x = false) arrivals) in_order.
Proof.
  split; [|repeat (constructor; simpl; try lia)]. change (filter (λ x, flagged x = false) arrivals) with
    [asked_at 4 "who"; asked_at 0 "why"; asked_at 3 "how"; asked_at 1 "why"]. unfold in_order.
  rewrite <-(Permutation_cons_append [asked_at 0 "why"; asked_at 1 "why"; asked_at 3 "how"] (asked_at 4 "who")).
  do 2 constructor. apply perm_swap.
Qed.

Lemma arrivals_positioned : Forall positioned arrivals.
Proof. repeat constructor; intros q Hq; discriminate Hq. Qed.

Lemma override_stage_aligned_witness :
  ∃ outs report, override_run no_draws text_type nobody_else caller ask_stage answer_options arrivals base_world (bk_base reported)
      outs (Ok tt) report ∧
    ei_index <$> outs ≡ₚ [4; 2; 0; 3; 1]%nat ∧ skipped_item ∈ outs.
Proof.
  assert (override_run no_draws text_type nobody_else caller ask_stage answer_options arrivals base_world (bk_base reported)
    (all_emitted arrivals in_order bulk_results) (Ok tt) (Report_merge None (Some {["judge" := shown_report]}))) as Hrun.
  { eapply (stage_emitted _ _ _ _ _ _ _ _ (bk_base reported)); [reflexivity| |apply rtc_refl].
    eapply (engine_ended _ _ _ _ _ _ _ bulk_questions); [exact arrivals_sorted|reflexivity|exact ask_run]. }
  destruct (override_stage_aligned no_draws text_type nobody_else caller ask_stage answer_options arrivals base_world (bk_base reported)
    _ _ _ arrivals_positioned Hrun) as (Hix & _ & Hflagged & _).
  eexists _, _. split; [exact Hrun|]. split; [exact Hix|]. apply Hflagged; [|done]. right. left.
Defined.

(** The fourth question of the nested run is the fifth of the pipeline. *)
Example renumbered :
  ie_Index <$> (all_emitted arrivals in_order bulk_results !! 3%nat ≫= ei_quarantined) = Some 4%nat ∧
  ie_Index <$> (bulk_results !! 3%nat ≫= r_Quarantined) = Some 3%nat.
Proof. vm_compute. by split. Qed.
End example.
