(* ===== verification/Batch.v ===== *)
(** * Batched steps: flow/batch.go

    [Batched] runs items through provider calls for whole groups and repairs, one by
    one, what the answers of the groups miss.  Its engine nests two runs (Flow.v): one
    of a step over the groups, one of the repair step over the missing items, whose
    events, hooks and records are renumbered.  [Group] and [Split], the caller's
    partition and parser, are functions of their arguments. *)

From S2P Require Import Prelude GoError GoStrings Float64 Classify Policy Digest Json.
From S2P Require Import Go Limits Budget Chain ErrGroup ResourcePlan RunEnv Cache Report Step Runner RunnerProofs.
From S2P Require Import Pipeline PipelineProofs Flow FlowProofs Groups CachedMap Bulk BulkProofs Override.

Section batch.
Context {dyn U E : Type} {EG : ErrGroup} (Int63n : nat → Z → Z) (dynamic_type : option dyn → string).
Context {I O : Type} `{!Boxed dyn I, !Boxed dyn (list I), !Boxed dyn string, !Boxed dyn O, !Codec string, !Codec O}.
Notation W := (world dyn U E).
Notation flow := (flow (dyn := dyn) (U := U) (E := E)).
Notation hook := (option (ctx → nat → O → CacheOutcome → prog W (res unit))).
Implicit Types (c : ctx) (o : Options dyn U E) (items : list I) (name : string).

Record BatchSpec := MkBatchSpec {
  spec_Name : string;
  spec_Identity : Identity (list I);
  spec_Policy : Policy;
  spec_Group : option (list I → list (list Z));
  spec_DoAll : option (ctx → list I → prog W (string * option error));
  spec_Split : option (string → list I → res (gmap Z O));
}.

(** ** Checks *)

(** [repair.Do != nil || repair.override != nil || repair.stages != nil] *)
Definition runnable (repair : flow I O) : bool :=
  match repair with Plain _ _ s => bool_decide (is_Some (Do s)) | Piped _ _ _ _ => true | Custom _ _ _ _ => true end.

Definition batched_check name (repair : flow I O) (spec : BatchSpec) : res unit :=
  match spec_Group spec, spec_DoAll spec, spec_Split spec with
  | Some _, Some _, Some _ =>
      if runnable repair then Ok tt else Err (Errorf "batched step %q needs a runnable repair step" [ArgStr name])
  | _, _, _ => Err (Errorf "batched step %q needs Group, DoAll, and Split" [ArgStr name])
  end.

(** The items of [covered] that are [true] are in a group already. *)
Fixpoint cover_group name (groupIndex : nat) (group : list Z) (covered : list bool) : res (list bool) :=
  match group with
  | [] => Ok covered
  | itemIndex :: group =>
      if (itemIndex <? 0) || (Z.of_nat (length covered) <=? itemIndex) then
        Err (Errorf "batched step %q: group %d references item %d outside [0,%d)"
               [ArgStr name; ArgInt (Z.of_nat groupIndex); ArgInt itemIndex; ArgInt (Z.of_nat (length covered))])
      else if default false (covered !! Z.to_nat itemIndex) then
        Err (Errorf "batched step %q: item %d appears in more than one group" [ArgStr name; ArgInt itemIndex])
      else cover_group name groupIndex group (<[Z.to_nat itemIndex := true]> covered)
  end.

Fixpoint cover_groups name (groupIndex : nat) (groups : list (list Z)) (covered : list bool) : res (list bool) :=
  match groups with
  | [] => Ok covered
  | group :: groups =>
      match cover_group name groupIndex group covered with
      | Err e => Err e
      | Ok covered => cover_groups name (S groupIndex) groups covered
      end
  end.

(** ** The groups *)

(** The items at the indexes of a group. *)
Definition members items (group : list Z) : list I := omap (λ i, items !! Z.to_nat i) group.

Definition group_step name (spec : BatchSpec) : Step dyn U E (list I) string :=
  MkStep name (spec_Identity spec) (spec_Policy spec) false (spec_DoAll spec) None None None.

(** The indexes in no group. *)
Definition uncovered (covered : list bool) : list nat := filter (λ i, covered !! i = Some false) (seq 0 (length covered)).

Definition batch_hook_error name (index : nat) (e : error) : error :=
  Errorf "step %q item %d: result hook: %w" [ArgStr name; ArgInt (Z.of_nat index); ArgWrap e].

Definition batch_notify c name (onResult : hook) (index : nat) (value : O) (outcome : CacheOutcome) : prog W (res unit) :=
  match onResult with
  | None => mret (Ok tt)
  | Some hook => r ← hook c index value outcome; mret (match r with Ok _ => Ok tt | Err e => Err (batch_hook_error name index e) end)
  end.

(** Results so far and the indexes to repair. *)
Notation progress := (list (Result O) * list nat)%type.

Fixpoint take_group c name (onResult : hook) (parsed : res (gmap Z O)) (position : nat) (group : list Z) (st : progress)
    : prog W (res progress) :=
  match group with
  | [] => mret (Ok st)
  | itemIndex :: group =>
      let '(results, missing) := st in
      let index := Z.to_nat itemIndex in
      match parsed with
      | Err _ => take_group c name onResult parsed (S position) group (results, missing ++ [index])
      | Ok values =>
          match values !! Z.of_nat position with
          | None => take_group c name onResult parsed (S position) group (results, missing ++ [index])
          | Some value =>
              _ ←? batch_notify c name onResult index value no_outcome;
              take_group c name onResult parsed (S position) group (<[index := MkResult value no_outcome None false]> results, missing)
          end
      end
  end.

(** The answers of all groups; indexing out of range panics. *)
Fixpoint take_answers c name (onResult : hook) (split : string → list I → res (gmap Z O)) items
    (groups : list (list Z)) (raws : list (Result string)) (st : progress) : prog W (res progress) :=
  match groups, raws with
  | group :: groups, raw :: raws =>
      match r_Quarantined raw, r_Skipped raw with
      | None, false =>
          st ←? take_group c name onResult (split (r_Value raw) (members items group)) 0 group st;
          take_answers c name onResult split items groups raws st
      | _, _ => take_answers c name onResult split items groups raws (st.1, st.2 ++ (Z.to_nat <$> group))
      end
  | _, [] => mret (Ok st)
  | [], _ => await (λ _, [])
  end.

(** ** Repairs *)

(** [remappedLedger] *)
Definition set_event_Index (i : Z) (ev : Event) : Event :=
  MkEvent (Report.At ev) (ev_Step ev) i (ev_Type ev) (ev_Class ev) (ev_Attempt ev) (ev_Total ev) (ev_Error ev).
Definition remap_event (indexes : list nat) (ev : Event) : Event :=
  if (0 <=? ev_Index ev) && (ev_Index ev <? Z.of_nat (length indexes)) then
    set_event_Index (Z.of_nat (default 0%nat (indexes !! Z.to_nat (ev_Index ev)))) ev
  else ev.
Definition remappedLedger (inner : ctx → Event → prog W (res unit)) (indexes : list nat) (c : ctx) (ev : Event) : prog W (res unit) :=
  inner c (remap_event indexes ev).

(** [repairForRun]: indexing out of range panics.  The hook of a composed step is
    nobody's. *)
Definition remap_hook (missing : list nat) (observer : ctx → nat → O → CacheOutcome → prog W (res unit))
    (c : ctx) (compactIndex : nat) (value : O) (outcome : CacheOutcome) : prog W (res unit) :=
  match missing !! compactIndex with
  | Some index => observer c index value outcome
  | None => await (λ _, [])
  end.
Definition set_OnResult (h : hook) (s : Step dyn U E I O) : Step dyn U E I O :=
  MkStep (st_Name s) (st_Identity s) (st_Policy s) (Barrier s) (Do s) (Meter s) (AttemptMeter s) h.
Definition repair_for_run (missing : list nat) (repair : flow I O) : flow I O :=
  match repair with
  | Plain _ _ s => Plain _ _ (set_OnResult (remap_hook missing <$> OnResult s) s)
  | Piped _ _ n stages => Piped _ _ n stages
  | Custom _ _ s own => Custom _ _ (set_OnResult (remap_hook missing <$> OnResult s) s) own
  end.
Definition repair_options (missing : list nat) o : Options dyn U E :=
  MkOptions (opt_Store o) ((λ l, remappedLedger l missing) <$> Ledger o) None (ReportInterval o) (Clock o) (opt_Preflight o)
    (Rates o) (opt_env o) (observation o).

Definition repair_items items (missing : list nat) : list I := omap (λ i, items !! i) missing.

Definition renumber (index : nat) (r : Result O) : Result O :=
  MkResult (r_Value r) (r_Cache r) (set_Index index <$> r_Quarantined r) (r_Skipped r).

Fixpoint place_repairs c name (onResult : hook) (missing : list nat) (repaired results : list (Result O)) : prog W (res (list (Result O))) :=
  match missing, repaired with
  | index :: missing, r :: repaired =>
      let result := renumber index r in
      _ ←? match r_Quarantined result, r_Skipped result with
           | None, false => batch_notify c name onResult index (r_Value result) (r_Cache result)
           | _, _ => mret (Ok tt)
           end;
      place_repairs c name onResult missing repaired (<[index := result]> results)
  | [], _ => mret (Ok results)
  | _, [] => await (λ _, [])
  end.

(** ** runBatched *)

Definition batch_groups (spec : BatchSpec) items : list (list Z) :=
  match spec_Group spec with Some group => group items | None => [] end.
Definition batch_split (spec : BatchSpec) : string → list I → res (gmap Z O) := default (λ _ _, Ok ∅) (spec_Split spec).
Definition no_results items : list (Result O) := replicate (length items) (MkResult zero_value no_outcome None false).

(** What [runBatched] can return.  The reports of the two runs are merged as they
    complete. *)
Inductive runBatched_returns (Env : W → W → Prop) c (repair : flow I O) (spec : BatchSpec) name items o (onResult : hook) (w : W)
    : W → res (list (Result O)) * Report → Prop :=
| batched_refused e :
    batched_check name repair spec = Err e →
    runBatched_returns Env c repair spec name items o onResult w w (Err e, None)
| batched_miscovered e :
    batched_check name repair spec = Ok tt →
    cover_groups name 0 (batch_groups spec items) (replicate (length items) false) = Err e →
    runBatched_returns Env c repair spec name items o onResult w w (Err e, None)
| batched_groups_failed covered w' e groupReport :
    batched_check name repair spec = Ok tt →
    cover_groups name 0 (batch_groups spec items) (replicate (length items) false) = Ok covered →
    Run_returns Int63n dynamic_type Env c (Plain _ _ (group_step name spec)) (members items <$> batch_groups spec items)
      (set_Reporter None o) w w' (Err e, groupReport) →
    runBatched_returns Env c repair spec name items o onResult w w' (Err e, Report_merge None groupReport)
| batched_hook_failed covered w1 w' raws e groupReport :
    batched_check name repair spec = Ok tt →
    cover_groups name 0 (batch_groups spec items) (replicate (length items) false) = Ok covered →
    Run_returns Int63n dynamic_type Env c (Plain _ _ (group_step name spec)) (members items <$> batch_groups spec items)
      (set_Reporter None o) w w1 (Ok raws, groupReport) →
    runs Env (take_answers c name onResult (batch_split spec) items (batch_groups spec items) raws (no_results items, uncovered covered))
      w1 w' (Err e) →
    runBatched_returns Env c repair spec name items o onResult w w' (Err e, Report_merge None groupReport)
| batched_complete covered w1 w' raws results groupReport :
    batched_check name repair spec = Ok tt →
    cover_groups name 0 (batch_groups spec items) (replicate (length items) false) = Ok covered →
    Run_returns Int63n dynamic_type Env c (Plain _ _ (group_step name spec)) (members items <$> batch_groups spec items)
      (set_Reporter None o) w w1 (Ok raws, groupReport) →
    runs Env (take_answers c name onResult (batch_split spec) items (batch_groups spec items) raws (no_results items, uncovered covered))
      w1 w' (Ok (results, [])) →
    runBatched_returns Env c repair spec name items o onResult w w' (Ok results, Report_merge None groupReport)
| batched_repair_failed covered w1 w2 w' raws results missing e groupReport repairReport :
    batched_check name repair spec = Ok tt →
    cover_groups name 0 (batch_groups spec items) (replicate (length items) false) = Ok covered →
    Run_returns Int63n dynamic_type Env c (Plain _ _ (group_step name spec)) (members items <$> batch_groups spec items)
      (set_Reporter None o) w w1 (Ok raws, groupReport) →
    runs Env (take_answers c name onResult (batch_split spec) items (batch_groups spec items) raws (no_results items, uncovered covered))
      w1 w2 (Ok (results, missing)) →
    missing ≠ [] →
    Run_returns Int63n dynamic_type Env c (repair_for_run missing repair) (repair_items items missing) (repair_options missing o)
      w2 w' (Err e, repairReport) →
    runBatched_returns Env c repair spec name items o onResult w w' (Err e, Report_merge (Report_merge None groupReport) repairReport)
| batched_repaired covered w1 w2 w3 w' raws results missing repaired r groupReport repairReport :
    batched_check name repair spec = Ok tt →
    cover_groups name 0 (batch_groups spec items) (replicate (length items) false) = Ok covered →
    Run_returns Int63n dynamic_type Env c (Plain _ _ (group_step name spec)) (members items <$> batch_groups spec items)
      (set_Reporter None o) w w1 (Ok raws, groupReport) →
    runs Env (take_answers c name onResult (batch_split spec) items (batch_groups spec items) raws (no_results items, uncovered covered))
      w1 w2 (Ok (results, missing)) →
    missing ≠ [] →
    Run_returns Int63n dynamic_type Env c (repair_for_run missing repair) (repair_items items missing) (repair_options missing o)
      w2 w3 (Ok repaired, repairReport) →
    runs Env (place_repairs c name onResult missing repaired results) w3 w' r →
    runBatched_returns Env c repair spec name items o onResult w w' (r, Report_merge (Report_merge None groupReport) repairReport).

(** ** Batched *)

Definition zero_policy : Policy := MkPolicy 0 [] (MkRetrySpec 0 (MkBackoff 0 0) None) FailFast.
(** The policy a step carries itself; that of a composed step is zero. *)
Definition flow_Policy (s : flow I O) : Policy :=
  match s with Plain _ _ s | Custom _ _ s _ => st_Policy s | Piped _ _ _ _ => zero_policy end.

Definition current_spec name (policy : Policy) (spec : BatchSpec) : BatchSpec :=
  MkBatchSpec name (spec_Identity spec) policy (spec_Group spec) (spec_DoAll spec) (spec_Split spec).

Definition batched_engine (repair : flow I O) (spec : BatchSpec) : engine (dyn := dyn) (U := U) (E := E) I O :=
  MkEngine (policyPlans (flow_Name repair) (flow_Policy repair)) [PolicySpec (flow_Name repair) (flow_Policy repair)]
    (Some (λ current, batched_check (st_Name current) repair spec))
    (λ Env c current items o w w' out,
       runBatched_returns Env c repair (current_spec (st_Name current) (st_Policy current) spec) (st_Name current) items o
         (OnResult current) w w' out).

Definition batched_name (repair : flow I O) (spec : BatchSpec) : string :=
  if decide (spec_Name spec = "") then flow_Name repair +:+ "-groups" else spec_Name spec.

Definition Batched (repair : flow I O) (spec : BatchSpec) : flow I O :=
  Custom _ _ (MkStep (batched_name repair spec) (MkIdentity "" "" None) (spec_Policy spec) false None None None None)
    (batched_engine repair spec).
End batch.
