(* ===== verification/BatchProofs.v ===== *)
(** * What a batched step returns: proofs for Batch.v

    [runBatched_contract]: the groups and the gaps they leave partition the items;
    every item is answered by its group or repaired, never both; and what the repair
    run numbers by its compact list is back at the item's position.  The contract
    makes a batched step fit to be nested itself ([batched_aligned]). *)

From S2P Require Import Prelude GoError GoStrings Float64 Classify Policy Digest Json.
From S2P Require Import Go Limits Budget Chain ErrGroup ResourcePlan RunEnv Cache Report Step Runner RunnerProofs.
From S2P Require Import Pipeline PipelineProofs Flow FlowProofs Groups CachedMap Bulk BulkProofs Override Batch.

(** ** Writing a list of entries *)

Section writes.
Context {R : Type}.
Implicit Types (l : list (nat * R)) (rs : list R).

Definition write_all l rs : list R := foldl (λ rs p, <[p.1 := p.2]> rs) rs l.

Lemma write_all_app l l' rs : write_all (l ++ l') rs = write_all l' (write_all l rs).
Proof. apply foldl_app. Qed.

Lemma write_all_length l rs : length (write_all l rs) = length rs.
Proof. unfold write_all. revert rs. induction l as [|p l IH]; intros rs; [done|]. cbn [foldl]. rewrite IH. apply length_insert. Qed.

Lemma write_all_other l rs i : i ∉ l.*1 → write_all l rs !! i = rs !! i.
Proof.
  unfold write_all. revert rs. induction l as [|[j r] l IH]; intros rs Hi; [done|]. rewrite fmap_cons in Hi.
  apply not_elem_of_cons in Hi as [Hne Hi]. cbn [foldl]. rewrite IH by done. by apply list_lookup_insert_ne.
Qed.

Lemma write_all_lookup l rs i r : NoDup l.*1 → (i, r) ∈ l → (i < length rs)%nat → write_all l rs !! i = Some r.
Proof.
  revert rs. induction l as [|[j r'] l IH]; intros rs Hnd Hin Hi; [by apply elem_of_nil in Hin|].
  rewrite fmap_cons in Hnd. apply NoDup_cons in Hnd as [Hj Hnd]. unfold write_all. cbn [foldl].
  apply elem_of_cons in Hin as [[= <- <-]|Hin].
  - change (write_all l (<[i:=r]> rs) !! i = Some r). rewrite write_all_other by done. by apply list_lookup_insert_eq.
  - apply IH; [done|done|by rewrite length_insert].
Qed.
End writes.

(** ** The groups cover their items once *)

Section cover.

(** [covered'] marks, beyond [covered], the items [l], which were free and are in range. *)
Definition covers (l : list Z) (covered covered' : list bool) : Prop :=
  length covered' = length covered ∧ Forall (λ i, 0 ≤ i < Z.of_nat (length covered)) l ∧ NoDup (Z.to_nat <$> l) ∧
  (∀ j, j ∈ Z.to_nat <$> l → covered !! j = Some false ∧ covered' !! j = Some true) ∧
  (∀ j, j ∉ Z.to_nat <$> l → covered' !! j = covered !! j).

Lemma covers_nil covered : covers [] covered covered.
Proof. split_and!; try done; [constructor|]. by intros j Hj%elem_of_nil. Qed.

Lemma covers_app l l' x y z : covers l x y → covers l' y z → covers (l ++ l') x z.
Proof.
  intros (Hl & Hr & Hnd & Hin & Hout) (Hl' & Hr' & Hnd' & Hin' & Hout').
  assert (∀ j, j ∈ Z.to_nat <$> l → j ∉ Z.to_nat <$> l') as Hdisj.
  { intros j [_ Hj]%Hin [Hj' _]%Hin'. congruence. }
  split_and!; rewrite ?fmap_app.
  - congruence.
  - apply Forall_app. split; [done|]. by rewrite <-Hl.
  - apply NoDup_app. split_and!; [done|exact Hdisj|done].
  - intros j [Hj|Hj]%elem_of_app.
    + destruct (Hin j Hj). rewrite (Hout' j) by auto. auto.
    + destruct (Hin' j Hj) as [Hf Ht]. split; [|done]. rewrite <-(Hout j); [done|]. intros Hj2. by apply (Hdisj j).
  - intros j [Hj Hj']%not_elem_of_app. by rewrite (Hout' j), (Hout j).
Qed.

Lemma cover_group_covers name k group covered covered' :
  cover_group name k group covered = Ok covered' → covers group covered covered'.
Proof.
  revert covered. induction group as [|i group IH]; intros covered; cbn [cover_group]; [intros [= ->]; apply covers_nil|].
  destruct (Z.ltb_spec i 0); simpl; [done|]. destruct (Z.leb_spec (Z.of_nat (length covered)) i); simpl; [done|].
  destruct (covered !! Z.to_nat i) as [b|] eqn:Hb; simpl; [destruct b; [done|]|].
  - intros Hc%IH. eapply (covers_app [i]); [|exact Hc]. split_and!.
    + apply length_insert.
    + constructor; [lia|done].
    + apply NoDup_singleton.
    + intros j ->%list_elem_of_singleton. split; [done|]. apply list_lookup_insert_eq. lia.
    + intros j Hj%not_elem_of_cons. apply list_lookup_insert_ne. by apply not_eq_sym, Hj.
  - apply lookup_ge_None in Hb. lia.
Qed.

Lemma cover_groups_covers name k groups covered covered' :
  cover_groups name k groups covered = Ok covered' → covers (mjoin groups) covered covered'.
Proof.
  revert k covered. induction groups as [|group groups IH]; intros k covered; cbn [cover_groups]; [intros [= ->]; apply covers_nil|].
  destruct (cover_group name k group covered) as [y|] eqn:Hg; [|done]. intros Hc%IH.
  eapply covers_app; [by eapply cover_group_covers|exact Hc].
Qed.

(** The groups and the gaps they leave are a partition. *)
Lemma covers_partition l n covered :
  covers l (replicate n false) covered → uncovered covered ++ (Z.to_nat <$> l) ≡ₚ seq 0 n.
Proof.
  intros (Hl & Hr & Hnd & Hin & Hout). rewrite length_replicate in *. unfold uncovered. rewrite Hl.
  assert (∀ j, j ∈ Z.to_nat <$> l → (j < n)%nat) as Hlt.
  { intros j [Hj _]%Hin. apply lookup_lt_Some in Hj. by rewrite length_replicate in Hj. }
  apply NoDup_Permutation.
  - apply NoDup_app. split_and!; [by apply NoDup_filter, NoDup_seq| |done].
    intros j [Hj _]%list_elem_of_filter [_ Hj']%Hin. congruence.
  - apply NoDup_seq.
  - intros j. rewrite elem_of_app, list_elem_of_filter, elem_of_seq. split.
    + intros [[_ ?]|?%Hlt]; lia.
    + intros [_ Hj]. destruct (decide (j ∈ Z.to_nat <$> l)) as [?|Hn]; [by right|]. left. split; [|lia].
      rewrite (Hout j Hn). apply lookup_replicate_2. lia.
Qed.
End cover.

(** ** What the loops leave *)

Section contract.
Context {dyn U E : Type} {EG : ErrGroup} (Int63n : nat → Z → Z) (dynamic_type : option dyn → string).
Context {I O : Type} `{!Boxed dyn I, !Boxed dyn (list I), !Boxed dyn string, !Boxed dyn O, !Codec string, !Codec O}.
Notation W := (world dyn U E).
Notation flow := (flow (dyn := dyn) (U := U) (E := E)).
Notation hook := (option (ctx → nat → O → CacheOutcome → prog W (res unit))).
Notation Run_returns := (Run_returns Int63n dynamic_type).
Implicit Types (c : ctx) (o : Options dyn U E) (items : list I) (name : string) (onResult : hook).

(** What a group's answer says for each index of the group. *)
Notation answers_of := (list (nat * option O)).
Fixpoint group_answers (parsed : res (gmap Z O)) (position : nat) (group : list Z) : answers_of :=
  match group with
  | [] => []
  | i :: group =>
      (Z.to_nat i, match parsed with Ok values => values !! Z.of_nat position | Err _ => None end) ::
      group_answers parsed (S position) group
  end.
Definition raw_answers (split : string → list I → res (gmap Z O)) items (group : list Z) (raw : Result string) : answers_of :=
  match r_Quarantined raw, r_Skipped raw with
  | None, false => group_answers (split (r_Value raw) (members items group)) 0 group
  | _, _ => (λ i, (Z.to_nat i, None)) <$> group
  end.
Definition all_answers split items (groups : list (list Z)) (raws : list (Result string)) : answers_of :=
  mjoin (zip_with (raw_answers split items) groups raws).

Definition answered_entry (a : nat * option O) : option (nat * Result O) :=
  (λ v, (a.1, MkResult v no_outcome None false)) <$> a.2.
Definition answered (l : answers_of) : list (nat * Result O) := omap answered_entry l.
Definition unanswered_index (a : nat * option O) : option nat := match a.2 with None => Some a.1 | Some _ => None end.
Definition unanswered_of (l : answers_of) : list nat := omap unanswered_index l.

Definition after_answers (l : answers_of) (st : list (Result O) * list nat) : list (Result O) * list nat :=
  (write_all (answered l) st.1, st.2 ++ unanswered_of l).

Lemma after_answers_app l l' st : after_answers (l ++ l') st = after_answers l' (after_answers l st).
Proof. unfold after_answers, answered, unanswered_of. simpl. by rewrite !omap_app, write_all_app, app_assoc. Qed.

Lemma after_answers_cons a l st : after_answers (a :: l) st = after_answers l (after_answers [a] st).
Proof. exact (after_answers_app [a] l st). Qed.

Lemma after_answers_nil st : after_answers [] st = st.
Proof. destruct st. unfold after_answers. simpl. by rewrite app_nil_r. Qed.

Lemma take_group_spec c name onResult parsed position group st st' :
  can_return (take_group (dyn := dyn) (U := U) (E := E) c name onResult parsed position group st) (Ok st') →
  st' = after_answers (group_answers parsed position group) st.
Proof.
  revert position st. induction group as [|i group IH]; intros position [results missing]; cbn [take_group group_answers].
  { intros [= <-]. by rewrite after_answers_nil. }
  destruct parsed as [values|e].
  2: { intros ->%IH. rewrite after_answers_cons. f_equal. }
  destruct (values !! Z.of_nat position) as [v|] eqn:Hv.
  - intros [([] & _ & ->%IH)|(e & _ & [=])]%can_return_rbind. rewrite after_answers_cons.
    f_equal. unfold after_answers. simpl. by rewrite app_nil_r.
  - intros ->%IH. by rewrite after_answers_cons.
Qed.

Lemma refused_answers (group : list Z) (st : list (Result O) * list nat) :
  (st.1, st.2 ++ (Z.to_nat <$> group)) = after_answers ((λ i, (Z.to_nat i, None)) <$> group) st.
Proof.
  unfold after_answers. f_equal.
  - by induction group.
  - f_equal. induction group as [|i group IH]; [done|]. rewrite !fmap_cons. simpl. by rewrite IH.
Qed.

Lemma take_answers_spec c name onResult split items groups raws st st' :
  can_return (take_answers (dyn := dyn) (U := U) (E := E) c name onResult split items groups raws st) (Ok st') →
  st' = after_answers (all_answers split items groups raws) st.
Proof.
  unfold all_answers. revert groups st. induction raws as [|raw raws IH]; intros [|group groups] st; cbn [take_answers].
  - intros [= <-]. by rewrite after_answers_nil.
  - intros [= <-]. simpl. by rewrite after_answers_nil.
  - intros (w & w' & x & Hin & _). by apply elem_of_nil in Hin.
  - change (mjoin (zip_with (raw_answers split items) (group :: groups) (raw :: raws)))
      with (raw_answers split items group raw ++ mjoin (zip_with (raw_answers split items) groups raws)).
    rewrite after_answers_app. unfold raw_answers at 2. destruct (r_Quarantined raw), (r_Skipped raw).
    1-3: intros ->%IH; by rewrite refused_answers.
    intros [(st1 & ->%take_group_spec & ->%IH)|(e & _ & [=])]%can_return_rbind. done.
Qed.

Definition repaired_entries (missing : list nat) (repaired : list (Result O)) : list (nat * Result O) :=
  zip_with (λ i r, (i, renumber i r)) missing repaired.

Lemma place_repairs_spec c name onResult missing repaired results rs :
  can_return (place_repairs (dyn := dyn) (U := U) (E := E) c name onResult missing repaired results) (Ok rs) →
  rs = write_all (repaired_entries missing repaired) results.
Proof.
  revert repaired results. induction missing as [|i missing IH]; intros [|r repaired] results; cbn [place_repairs].
  - by intros [= <-].
  - by intros [= <-].
  - intros (w & w' & x & Hin & _). by apply elem_of_nil in Hin.
  - intros [([] & _ & ->%IH)|(e & _ & [=])]%can_return_rbind. done.
Qed.

(** ** Where the answers are *)

Lemma group_answers_indexes parsed position group : (group_answers parsed position group).*1 = Z.to_nat <$> group.
Proof. revert position. induction group as [|i group IH]; intros position; [done|]. simpl. by rewrite IH. Qed.

Lemma raw_answers_indexes split items group raw : (raw_answers split items group raw).*1 = Z.to_nat <$> group.
Proof.
  unfold raw_answers. destruct (r_Quarantined raw), (r_Skipped raw); try apply group_answers_indexes;
    by rewrite <-list_fmap_compose.
Qed.

Lemma all_answers_indexes split items groups raws :
  length raws = length groups → (all_answers split items groups raws).*1 = Z.to_nat <$> mjoin groups.
Proof.
  unfold all_answers. revert raws. induction groups as [|group groups IH]; intros [|raw raws] Hl; try done.
  change (mjoin (zip_with (raw_answers split items) (group :: groups) (raw :: raws)))
    with (raw_answers split items group raw ++ mjoin (zip_with (raw_answers split items) groups raws)).
  change (mjoin (group :: groups)) with (group ++ mjoin groups).
  rewrite !fmap_app, raw_answers_indexes. f_equal. apply IH. by injection Hl.
Qed.

Lemma answers_divide (l : answers_of) : (answered l).*1 ++ unanswered_of l ≡ₚ l.*1.
Proof.
  induction l as [|[i [v|]] l IH]; [done| |].
  - change ((i :: (answered l).*1) ++ unanswered_of l ≡ₚ i :: l.*1). by rewrite <-IH.
  - change ((answered l).*1 ++ i :: unanswered_of l ≡ₚ i :: l.*1). by rewrite <-Permutation_middle, IH.
Qed.

Lemma repaired_indexes missing repaired : length repaired = length missing → (repaired_entries missing repaired).*1 = missing.
Proof.
  unfold repaired_entries. revert repaired. induction missing as [|i missing IH]; intros [|r repaired] Hl; try done.
  simpl. f_equal. apply IH. by injection Hl.
Qed.

(** ** The contract *)

Section served.
Context (Env : W → W → Prop) (c : ctx) (repair : flow I O) (spec : BatchSpec (dyn := dyn) (U := U) (E := E) (I := I) (O := O)) (name : string) (items : list I)
  (o : Options dyn U E) (onResult : hook).
Notation groups := (batch_groups spec items).
Notation answers raws := (all_answers (batch_split spec) items groups raws).

(** The items to repair: those in no group, then those their group did not answer. *)
Definition to_repair (gaps : list nat) (raws : list (Result string)) : list nat := gaps ++ unanswered_of (answers raws).
(** Every result that is written, with its index. *)
Definition batch_written (gaps : list nat) (raws : list (Result string)) (repaired : list (Result O)) : list (nat * Result O) :=
  answered (answers raws) ++ repaired_entries (to_repair gaps raws) repaired.

(** The repair run: none when nothing is missing. *)
Definition repair_ran (missing : list nat) (repaired : list (Result O)) (before after : Report) : Prop :=
  (missing = [] ∧ repaired = [] ∧ after = before) ∨
  (missing ≠ [] ∧ length repaired = length missing ∧ ∃ w2 w3 nested, after = Report_merge before nested ∧
     Run_returns Env c (repair_for_run missing repair) (repair_items items missing) (repair_options missing o) w2 w3 (Ok repaired, nested)).

(** A batched call that returned [rs] and [report]: [raws] are the answers of the groups,
    [gaps] the items in no group, [repaired] the results of the repairs. *)
Record batched_served (rs : list (Result O)) (report : Report) (gaps : list nat) (raws : list (Result string))
    (repaired : list (Result O)) : Prop := {
  bd_partition : gaps ++ (Z.to_nat <$> mjoin groups) ≡ₚ seq 0 (length items);
  bd_runs : ∃ w w1 nested, length raws = length groups ∧
    Run_returns Env c (Plain _ _ (group_step name spec)) (members items <$> groups) (set_Reporter None o) w w1 (Ok raws, nested) ∧
    repair_ran (to_repair gaps raws) repaired (Report_merge None nested) report;
  bd_every : (batch_written gaps raws repaired).*1 ≡ₚ seq 0 (length items);
  bd_length : length rs = length items;
  bd_results : ∀ i r, (i, r) ∈ batch_written gaps raws repaired → rs !! i = Some r;
}.

Context (Hgroups : Aligned Int63n dynamic_type Env c (Plain _ _ (group_step name spec))).
Context (Hrepair : ∀ missing, Aligned Int63n dynamic_type Env c (repair_for_run missing repair)).

Lemma partition_indexes gaps raws repaired :
  gaps ++ (Z.to_nat <$> mjoin groups) ≡ₚ seq 0 (length items) → length raws = length groups →
  length repaired = length (to_repair gaps raws) →
  (batch_written gaps raws repaired).*1 ≡ₚ seq 0 (length items).
Proof.
  intros Hp Hr Hl. unfold batch_written. rewrite fmap_app, repaired_indexes by done. unfold to_repair.
  rewrite <-Hp, <-(all_answers_indexes (batch_split spec) items groups raws Hr), <-(answers_divide (answers raws)).
  by rewrite Permutation_app_swap_app.
Qed.

Lemma written_lookup gaps raws repaired i r :
  (batch_written gaps raws repaired).*1 ≡ₚ seq 0 (length items) → (i, r) ∈ batch_written gaps raws repaired →
  write_all (batch_written gaps raws repaired) (no_results items) !! i = Some r.
Proof.
  intros Hp Hin. apply write_all_lookup; [rewrite Hp; apply NoDup_seq|done|].
  assert (i ∈ (batch_written gaps raws repaired).*1) as Hi by (apply list_elem_of_fmap; by exists (i, r)).
  rewrite Hp in Hi. apply elem_of_seq in Hi. unfold no_results. rewrite length_replicate. lia.
Qed.

(** When the indexes are in range, so are the items. *)
Lemma repair_items_length missing : (∀ i, i ∈ missing → (i < length items)%nat) → length (repair_items items missing) = length missing.
Proof.
  unfold repair_items. induction missing as [|i missing IH]; intros Hlt; [done|].
  destruct (lookup_lt_is_Some_2 items i) as [x Hx]; [apply Hlt; by left|].
  simpl. rewrite Hx. simpl. f_equal. apply IH. intros j Hj. apply Hlt. by right.
Qed.

Lemma batched_serves w w' rs report :
  runBatched_returns Int63n dynamic_type Env c repair spec name items o onResult w w' (Ok rs, report) →
  ∃ gaps raws repaired, batched_served rs report gaps raws repaired.
Proof.
  intros Hrun. remember (Ok rs, report) as out eqn:Hout.
  destruct Hrun as [| | | |covered w1 w' raws results nested Hcheck Hcover Hraws Htake|
    |covered w1 w2 w3 w' raws results missing repaired r nested nested' Hcheck Hcover Hraws Htake Hne Hrep Hplace]; try done.
  - injection Hout as <- <-. pose proof (covers_partition _ _ _ (cover_groups_covers _ _ _ _ _ Hcover)) as Hp.
    destruct (Hgroups _ _ _ _ _ _ Hraws) as [Hl _]. rewrite length_fmap in Hl.
    apply runs_can_return, take_answers_spec in Htake. injection Htake as -> Hmissing. simpl in Hmissing.
    pose proof (partition_indexes _ raws [] Hp Hl ltac:(unfold to_repair; by rewrite <-Hmissing)) as Hevery.
    assert (batch_written (uncovered covered) raws [] = answered (answers raws)) as Hw.
    { unfold batch_written, repaired_entries. by rewrite zip_with_nil_r, app_nil_r. }
    exists (uncovered covered), raws, []. split.
    + done.
    + exists w, w1, nested. split_and!; [done|done|]. left. unfold to_repair. by rewrite <-Hmissing.
    + done.
    + unfold no_results. by rewrite write_all_length, length_replicate.
    + intros i r Hin. rewrite <-Hw. by apply written_lookup.
  - injection Hout as -> <-. pose proof (covers_partition _ _ _ (cover_groups_covers _ _ _ _ _ Hcover)) as Hp.
    destruct (Hgroups _ _ _ _ _ _ Hraws) as [Hl _]. rewrite length_fmap in Hl.
    apply runs_can_return, take_answers_spec in Htake. injection Htake as -> ->.
    destruct (Hrepair _ _ _ _ _ _ _ Hrep) as [Hlr _]. change (uncovered covered ++ unanswered_of (answers raws)) with (to_repair (uncovered covered) raws) in *.
    rewrite repair_items_length in Hlr.
    2: { intros i Hi. assert (i ∈ seq 0 (length items)) as Hin; [|apply elem_of_seq in Hin; lia].
         rewrite <-Hp, <-(all_answers_indexes (batch_split spec) items groups raws Hl), <-(answers_divide (answers raws)).
         unfold to_repair in Hi. set_solver. }
    apply runs_can_return, place_repairs_spec in Hplace. subst rs. simpl. rewrite <-write_all_app.
    pose proof (partition_indexes _ raws repaired Hp Hl Hlr) as Hevery.
    exists (uncovered covered), raws, repaired. split.
    + done.
    + exists w, w1, nested. split_and!; [done|done|]. right. split_and!; [done|done|]. by exists w2, w3, nested'.
    + done.
    + unfold no_results. by rewrite write_all_length, length_replicate.
    + intros i r' Hin. by apply written_lookup.
Qed.

(** C24: A batched call that returns results: the groups name every item at most once and
    nothing else; every item has exactly one source, the answer of its group or the
    repair run; an answer found for its position in the group is its result; all
    others, those in no group, in a group that failed or was skipped, whose answer
    could not be split or left them out, went through one repair run, whose results
    are at their original positions; and the report is the sum of the reports of the
    two runs. *)
Theorem runBatched_contract w w' rs report :
  runBatched_returns Int63n dynamic_type Env c repair spec name items o onResult w w' (Ok rs, report) →
  ∃ gaps raws repaired, batched_served rs report gaps raws repaired.
Proof. apply batched_serves. Qed.
End served.

(** ** Batched steps inside other steps *)

Lemma entry_in_place gaps raws repaired spec items i r q :
  (i, r) ∈ batch_written spec items gaps raws repaired → r_Quarantined r = Some q → ie_Index q = i.
Proof.
  intros [Hin|Hin]%elem_of_app Hq.
  - apply list_elem_of_omap in Hin as ([j a] & _ & Ha). unfold answered_entry in Ha. simpl in Ha.
    destruct a; simplify_eq/=.
  - apply list_elem_of_lookup in Hin as [p Hp]. apply lookup_zip_with_Some in Hp as (j & r' & [= -> ->] & _).
    simpl in Hq. by apply fmap_Some in Hq as (q' & _ & ->).
Qed.

#[export] Instance batched_aligned Env c (repair : flow I O) spec (current : Step dyn U E I O) :
  (∀ missing, Aligned Int63n dynamic_type Env c (repair_for_run missing repair)) →
  EngineAligned Env c current (batched_engine Int63n dynamic_type repair spec).
Proof.
  intros Hrepair items o w w' rs report Hret.
  destruct (batched_serves Env c repair _ _ items o _ (plain_aligned Int63n dynamic_type Env c (group_step _ _) eq_refl) Hrepair _ _ _ _ Hret)
    as (gaps & raws & repaired & [Hp Hr Hevery Hl Hrs]).
  split; [done|]. intros i r q Hi Hq.
  assert (i ∈ seq 0 (length items)) as Hin by (apply elem_of_seq; apply lookup_lt_Some in Hi; lia).
  rewrite <-Hevery in Hin. apply list_elem_of_fmap in Hin as ([j r'] & -> & Hin). simpl in Hi.
  pose proof (Hrs j r' Hin) as Hj. rewrite Hi in Hj. injection Hj as <-. by eapply entry_in_place.
Qed.

(** Repairs by a plain step without barrier, by a pipe of such steps, or by a custom engine. *)
Lemma repair_plain_aligned Env c (s : Step dyn U E I O) missing :
  Barrier s = false → Aligned Int63n dynamic_type Env c (repair_for_run missing (Plain _ _ s)).
Proof. intros Hs. by apply plain_aligned. Qed.

Lemma repair_custom_aligned Env c (s : Step dyn U E I O) own missing :
  (∀ Env c s', EngineAligned Env c s' own) → Aligned Int63n dynamic_type Env c (repair_for_run missing (Custom _ _ s own)).
Proof. intros Hown. apply custom_aligned. intros Env' c'. apply Hown. Qed.

(** ** What the caller sees of the repair run *)

(** Events about an item carry its original position; those about the run are as they
    were. *)
Lemma remap_event_item missing ev p i :
  ev_Index ev = Z.of_nat p → missing !! p = Some i → ev_Index (remap_event missing ev) = Z.of_nat i.
Proof.
  intros Hev Hp. pose proof (lookup_lt_Some _ _ _ Hp). unfold remap_event. rewrite Hev.
  destruct (Z.leb_spec 0 (Z.of_nat p)); [|lia]. destruct (Z.ltb_spec (Z.of_nat p) (Z.of_nat (length missing))); [|lia].
  simpl. by rewrite Nat2Z.id, Hp.
Qed.

Lemma remap_event_run missing ev : ev_Index ev < 0 → remap_event missing ev = ev.
Proof. intros Hev. unfold remap_event. destruct (Z.leb_spec 0 (ev_Index ev)); [lia|done]. Qed.

(** The preflight of a batched step knows the resources of its own policy and those of
    the policy of the repair step; a composed repair step has none of its own, so the
    resources of its stages are declared when the repair run begins, after the calls
    for the groups have been made. *)
Lemma batched_piped_plans (spec : BatchSpec (dyn := dyn) (U := U) (E := E) (I := I) (O := O)) n stages :
  collectPlans (stagesOf Int63n dynamic_type (Batched Int63n dynamic_type (Piped _ _ n stages) spec)) =
  policyPlans (batched_name (Piped _ _ n stages) spec) (spec_Policy spec).
Proof. unfold collectPlans. simpl. by rewrite !app_nil_r. Qed.
End contract.
