(* ===== verification/BatchRun.v ===== *)
(** * A concrete batched call

    Three questions; the group of the first and the third is asked in one call, whose
    answer has only the first; the other two go through the repair step. *)

From S2P Require Import Prelude GoError GoStrings Float64 Classify Policy Digest Json.
From S2P Require Import Go Limits Budget Chain ErrGroup ResourcePlan RunEnv Cache Report Step Observe Runner RunnerProofs.
From S2P Require Import Pipeline PipelineProofs Flow FlowProofs RunExact Groups CachedMap Bulk BulkProofs Override Batch BatchProofs.

(** ** Running a plain step to its end *)

Section concrete.
Context {dyn U E I O : Type} {EG : ErrGroup} `{!Boxed dyn I, !Boxed dyn O, !Codec O} (Int63n : nat → Z → Z)
  (dynamic_type : option dyn → string).
Notation W := (world dyn U E).
Context (Env : W → W → Prop) (c : ctx) (s : Step dyn U E I O) (items : list I) (o : Options dyn U E) (w : W).

Definition begun : W := world_after 2 (Run_begin c [stageOfStep Int63n dynamic_type s] (Z.of_nat (length items)) o) w.
Definition runner_built : typedRunner dyn U E I O := built s o (length (wd_runners begun)).
Definition built_world : W := world_after 1 (build_runners o [stageOfStep Int63n dynamic_type s]) begun.
Definition pipe_of_run :=
  pipeline_stage o (Z.of_nat (length (input_items items))) <$> zip [stageOfStep Int63n dynamic_type s] [typed_stage Int63n dynamic_type runner_built].
Definition pipe_ctx : ctx := (WithCancel c (ctxs_of built_world)).2.
(** One worker, as far as it goes. *)
Definition one_worker : list choice :=
  Collect :: (At 0 <$> [StageStep; Receive 0; Work 0; Send 0; Drain 0; EndWorker 0; Wait; EndStage]) ++ [FeedAll; EndFeeder; EndCollect].
Definition pipe_end :=
  play ei_index pipe_of_run pipe_ctx 200 one_worker
    (pipe_start pipe_of_run pipe_ctx zero_item (input_items items) (map_ctxs (λ _, (WithCancel c (ctxs_of built_world)).1) built_world)).
Definition run_end : W := world_after 1 (currentReport [PerItem (typed_stage Int63n dynamic_type runner_built)]) (p_world pipe_end).

Lemma plain_runs outputs rs report :
  Reporter o = None →
  runs Env (Run_begin c [stageOfStep Int63n dynamic_type s] (Z.of_nat (length items)) o) w begun (Ok (o, false)) →
  runs Env (build_runners o [stageOfStep Int63n dynamic_type s]) begun built_world (Ok [PerItem (typed_stage Int63n dynamic_type runner_built)]) →
  pfinal pipe_end → pipe_result pipe_end = Ok outputs → mapM result_of outputs = Some rs →
  runs Env (currentReport [PerItem (typed_stage Int63n dynamic_type runner_built)]) (p_world pipe_end) run_end report →
  Run_returns Int63n dynamic_type Env c (Plain _ _ s) items o w run_end (Ok rs, report).
Proof.
  intros Hrep Hbegin Hbuild Hfin Hout Hres Hreport.
  eapply (run_ended _ _ _ _ _ _ _ _ begun run_end run_end o false (Ok outputs) report (Ok rs)); [done|done| | |apply rtc_refl].
  - eapply (stages_ran_quietly _ _ _ _ _ _ built_world (p_world pipe_end) run_end [typed_stage Int63n dynamic_type runner_built]);
      [by unfold periodic; rewrite Hrep|done| |done].
    rewrite <-Hout. eapply (pipe_runs _ _ _ _ _ _ _ _ pipe_ctx); [reflexivity|apply play_steps|done].
  - by rewrite Hres.
Qed.
End concrete.

Section example.
#[local] Existing Instance string_codec.

(** What an interface value can hold here. *)
Inductive value := Text (s : string) | Texts (l : list string).
#[local] Program Instance text_boxed : Boxed value string :=
  {| box s := Some (Text s); unbox o := match o with Some (Text s) => Some s | _ => None end; zero_value := ""; type_name := "string" |}.
Solve All Obligations with by intros; simplify_eq/=.
#[local] Program Instance texts_boxed : Boxed value (list string) :=
  {| box l := Some (Texts l); unbox o := match o with Some (Texts l) => Some l | _ => None end; zero_value := []; type_name := "[]string" |}.
Solve All Obligations with by intros; simplify_eq/=.
Notation W := (world value unit unit).

Definition value_type : option value → string :=
  λ x, match x with Some (Text _) => "string" | Some (Texts _) => "[]string" | None => "<nil>" end.
Definition nobody : W → W → Prop := λ _ _, False.
Definition three_questions : list string := ["why"; "who"; "how"].

Definition plain_options : Options value unit unit := MkOptions None None None 0 None None ∅ (Some 0%nat) None.
Definition no_policy : Policy := MkPolicy 1 [] (MkRetrySpec 1 (MkBackoff 1 1) None) FailFast.
Definition reply : Step value unit unit string string :=
  MkStep "reply" (MkIdentity "" "" None) no_policy false (Some (λ c q, mret (q +:+ "!", None))) None None None.
Definition reply_spec : BatchSpec (dyn := value) (U := unit) (E := unit) (I := string) (O := string) :=
  MkBatchSpec "" (MkIdentity "" "" None) no_policy
    (Some (λ _, [[0; 2]]))
    (Some (λ c group, mret ("asked together", None)))
    (Some (λ raw group, Ok {[ 0 := raw ]})).
Definition replies := Batched no_draws value_type (Plain _ _ reply) reply_spec.


Definition first_world : W := World shared_world [] [] 0 0 tt.
Definition group_name : string := "reply-groups".
Definition asked_groups : list (list string) := [["why"; "how"]].
Notation group_run := (group_step group_name (current_spec group_name no_policy reply_spec)).
Notation group_end := (run_end no_draws value_type caller group_run asked_groups plain_options first_world).
Definition reports_of (name : string) (n : Z) : Report := Some {[ name := MkStepReport n 0 0 0 n n 0 0 0 None None None ]}.
Definition given (q : string) : Result string := MkResult q no_outcome None false.

Lemma group_ran :
  Run_returns no_draws value_type nobody caller (Plain _ _ group_run) asked_groups plain_options first_world group_end
    (Ok [given "asked together"], reports_of group_name 1).
Proof.
  eapply (plain_runs _ _ _ _ _ _ _ _ [ErasedItem 0 (Some (Text "asked together")) no_outcome None false]).
  - reflexivity.
  - eapply (replay_pool_steps _ [0%nat; 0%nat]). reflexivity.
  - eapply (replay_pool_steps _ [0%nat]). reflexivity.
  - vm_compute. split; [done|]. split; [|done]. repeat constructor.
  - vm_compute. reflexivity.
  - reflexivity.
  - apply replay_runs. vm_compute. reflexivity.
Qed.

(** The world after the first run. *)
Definition counted_state (n : Z) : rstate value := RState (MkStepReport n 0 0 0 n n 0 0 0 None None None) ∅ ∅ [].
Definition second_world : W :=
  World (EnvW (Limits (Ctxs ∅ 3) two_budgets [] [] tt) [after]) [new_rstate; counted_state 1] [] 0 0 tt.
Lemma group_end_is : group_end = second_world.
Proof. vm_compute. reflexivity. Qed.

Definition to_reply : list nat := [1; 2]%nat.
Definition repair_run := set_OnResult None reply.
Notation repair_end := (run_end no_draws value_type caller repair_run ["who"; "how"] plain_options second_world).

Lemma repair_ran_to_end :
  Run_returns no_draws value_type nobody caller (Plain _ _ repair_run) ["who"; "how"] plain_options second_world repair_end
    (Ok [given "who!"; given "how!"], reports_of "reply" 2).
Proof.
  eapply (plain_runs _ _ _ _ _ _ _ _ [ErasedItem 0 (Some (Text "who!")) no_outcome None false; ErasedItem 1 (Some (Text "how!")) no_outcome None false]).
  - reflexivity.
  - eapply (replay_pool_steps _ [0%nat; 0%nat]). reflexivity.
  - eapply (replay_pool_steps _ [0%nat]). reflexivity.
  - vm_compute. split; [done|]. split; [|done]. repeat constructor.
  - vm_compute. reflexivity.
  - reflexivity.
  - apply replay_runs. vm_compute. reflexivity.
Qed.

Definition spec_now := current_spec group_name no_policy reply_spec.
Definition all_replies : list (Result string) := [given "asked together"; given "who!"; given "how!"].
Definition replies_report : Report :=
  Report_merge (Report_merge None (reports_of group_name 1)) (reports_of "reply" 2).

Lemma replies_ran :
  runBatched_returns no_draws value_type nobody caller (Plain _ _ reply) spec_now group_name three_questions plain_options None
    first_world repair_end (Ok all_replies, replies_report).
Proof.
  eapply (batched_repaired _ _ _ _ _ _ _ _ _ _ _ [true; false; true] group_end group_end repair_end repair_end
    [given "asked together"] [given "asked together"; given ""; given ""] to_reply [given "who!"; given "how!"]).
  - reflexivity.
  - reflexivity.
  - exact group_ran.
  - apply rtc_refl.
  - done.
  - rewrite group_end_is. exact repair_ran_to_end.
  - apply rtc_refl.
Qed.

Lemma runBatched_contract_witness :
  ∃ gaps raws repaired,
    batched_served no_draws value_type nobody caller (Plain _ _ reply) spec_now group_name three_questions plain_options
      all_replies replies_report gaps raws repaired.
Proof.
  apply (runBatched_contract no_draws value_type nobody caller (Plain _ _ reply) spec_now group_name three_questions plain_options None
    (plain_aligned _ _ _ _ (group_step group_name spec_now) eq_refl) (λ missing, repair_plain_aligned _ _ _ _ reply missing eq_refl)
    first_world repair_end all_replies replies_report replies_ran).
Defined.

(** Both steps are in the report. *)
Example replies_counted : WorkCalls (Report_Step replies_report group_name) = 1 ∧ WorkCalls (Report_Step replies_report "reply") = 2.
Proof. vm_compute. by split. Qed.

Example replies_name : flow_Name replies = group_name.
Proof. reflexivity. Qed.
End example.
