(* ===== verification/Rely.v ===== *)
(** * Rely-guarantee reasoning about interleaved programs

    [owns] (Go.v) shares the world by accounts.  Programs that share a database
    are proved against two relations instead: what the others may do to the world
    between two actions, [R], and what every action of the program does, [G].
    Facts that [R] keeps can be relied on from one action to the next. *)

From S2P Require Import Prelude GoError Go.

Section rely.
Context {W : Type} (R G : W → W → Prop).

(** Facts that survive what the others do. *)
Definition stable (P : W → Prop) : Prop := ∀ w w', R w w' → P w → P w'.

Lemma stable_and P Q : stable P → stable Q → stable (λ w, P w ∧ Q w).
Proof. intros HP HQ w w' HR [Hp Hq]. split; [by eapply HP|by eapply HQ]. Qed.

Lemma stable_or P Q : stable P → stable Q → stable (λ w, P w ∨ Q w).
Proof. intros HP HQ w w' HR [Hp|Hq]; [left; by eapply HP|right; by eapply HQ]. Qed.

Lemma stable_pure (P : Prop) : stable (λ _, P).
Proof. by intros w w' _. Qed.

(** [upholds Q p w]: from [w], whatever the others do in between, every action of
    [p] is one of [G], and [p] ends with a value and a world related by [Q]. *)
Fixpoint upholds {A} (Q : A → W → Prop) (p : prog W A) (w : W) : Prop :=
  match p with
  | Ret a => ∀ w', R w w' → Q a w'
  | Act act k => ∀ w1 w2 x, R w w1 → (w2, x) ∈ act w1 → G w1 w2 ∧ upholds Q (k x) w2
  end.

Context `{!PreOrder R}.

Lemma upholds_ret {A} (Q : A → W → Prop) a w : stable (Q a) → Q a w → upholds Q (mret a) w.
Proof. intros HQ Hw w' HR. by eapply HQ. Qed.

Lemma upholds_rely {A} (Q : A → W → Prop) (p : prog W A) w w' :
  R w w' → upholds Q p w → upholds Q p w'.
Proof.
  intros HR. destruct p as [a|X act k]; simpl; intros Hp.
  - intros w2 H2. apply Hp. by etrans.
  - intros w1 w2 x H1. apply Hp. by etrans.
Qed.

(** One action, from facts that are stable. *)
Lemma upholds_await {X} (P : W → Prop) (Q : X → W → Prop) (act : W → list (W * X)) w :
  stable P → (∀ x, stable (Q x)) → P w →
  (∀ w1 w2 x, P w1 → (w2, x) ∈ act w1 → G w1 w2 ∧ Q x w2) → upholds Q (await act) w.
Proof.
  intros HP HQ Hw Hact w1 w2 x HR Hin. destruct (Hact w1 w2 x) as [HG Hx]; [by eapply HP|done|].
  split; [done|]. intros w3 H3. by eapply HQ.
Qed.

Lemma upholds_bind {A B} (Q : B → W → Prop) (f : A → prog W B) (p : prog W A) w :
  upholds (λ a, upholds Q (f a)) p w → upholds Q (p ≫= f) w.
Proof.
  revert w. induction p as [a|X act k IH]; intros w Hp; [by apply Hp|].
  intros w1 w2 x HR Hin. destruct (Hp w1 w2 x HR Hin). split; [done|]. by apply IH.
Qed.

Lemma upholds_conseq {A} (Q Q' : A → W → Prop) (p : prog W A) w :
  upholds Q p w → (∀ a w', Q a w' → Q' a w') → upholds Q' p w.
Proof.
  intros Hp HQ. revert w Hp. induction p as [a|X act k IH]; simpl; intros w Hp.
  - intros w' HR. auto.
  - intros w1 w2 x HR Hin. destruct (Hp w1 w2 x HR Hin). auto.
Qed.

(** A fact that is stable both under the others and under the program itself. *)
Lemma upholds_keep {A} (P : W → Prop) (Q : A → W → Prop) (p : prog W A) w :
  stable P → (∀ w w', G w w' → P w → P w') → P w → upholds Q p w → upholds (λ a w', P w' ∧ Q a w') p w.
Proof.
  intros HP HG. revert w. induction p as [a|X act k IH]; intros w Hw Hp.
  - intros w' HR. split; [by eapply HP|by apply Hp].
  - intros w1 w2 x HR Hin. destruct (Hp w1 w2 x HR Hin). split; [done|]. apply IH; [|done].
    eapply HG; [done|]. by eapply HP.
Qed.

Lemma upholds_then {A B} (R1 : A → W → Prop) (Q : B → W → Prop) (f : A → prog W B) (p : prog W A) w :
  upholds R1 p w → (∀ a w', R1 a w' → upholds Q (f a) w') → upholds Q (p ≫= f) w.
Proof. intros Hp Hf. apply upholds_bind. by eapply upholds_conseq. Qed.

Lemma upholds_rthen {A B} (R1 : A → W → Prop) (Q : res B → W → Prop) (f : A → prog W (res B))
    (p : prog W (res A)) w :
  (∀ e, stable (Q (Err e))) →
  upholds (λ r w', match r with Ok a => R1 a w' | Err e => Q (Err e) w' end) p w →
  (∀ a w', R1 a w' → upholds Q (f a) w') → upholds Q (rbind f p) w.
Proof.
  intros Hs Hp Hf. eapply upholds_then; [exact Hp|]. intros [a|e] w' HR; [by apply Hf|].
  by apply upholds_ret.
Qed.

(** ** Adequacy

    Goroutines that uphold their contracts, whose actions the others expect, keep
    doing so in every interleaving. *)
Section adequacy.
Context {A : Type} (Env : W → W → Prop) (Q : nat → A → W → Prop).
Hypothesis env_rely : ∀ w w', Env w w' → R w w'.
Hypothesis act_rely : ∀ w w', G w w' → R w w'.

Definition pool_upholds (s : W * list (prog W A)) : Prop :=
  ∀ i p, s.2 !! i = Some p → upholds (Q i) p s.1.

Lemma pool_step_upholds s s' :
  pool_step Env s s' → pool_upholds s → R s.1 s'.1 ∧ pool_upholds s'.
Proof.
  destruct 1 as [w ts i X act k w' x Hi Hin|w w' ts Henv]; intros Hts; simpl.
  - assert (R w w) as Hrefl by done.
    destruct (Hts i _ Hi w w' x Hrefl Hin) as [HG Hk]. split; [by apply act_rely|].
    intros j p Hp. simpl in *. destruct (decide (j = i)) as [->|Hne].
    + rewrite list_lookup_insert_eq in Hp by by eapply lookup_lt_Some. by simplify_eq.
    + rewrite list_lookup_insert_ne in Hp by done. eapply upholds_rely; [by apply act_rely|]. by apply Hts.
  - split; [by apply env_rely|]. intros i p Hp. eapply upholds_rely; [by apply env_rely|]. by apply Hts.
Qed.

Lemma pool_steps_uphold s s' :
  rtc (pool_step Env) s s' → pool_upholds s → R s.1 s'.1 ∧ pool_upholds s'.
Proof.
  induction 1 as [s|s s1 s2 Hstep _ IH]; intros Hok; [done|].
  destruct (pool_step_upholds _ _ Hstep Hok) as [HR Hok1]. destruct (IH Hok1) as [HR' Hok2].
  split; [by etrans|done].
Qed.

Lemma pool_returned s i a : pool_upholds s → s.2 !! i = Some (Ret a) → Q i a s.1.
Proof. intros Hok Hi. by apply (Hok i _ Hi s.1). Qed.
End adequacy.
End rely.

(** ** Runs that end well

    [surely Q p w]: run alone from [w], [p] never blocks and ends with [Q], whatever
    results its actions choose. *)
Section surely.
Context {W : Type}.

Fixpoint surely {A} (Q : A → W → Prop) (p : prog W A) (w : W) : Prop :=
  match p with
  | Ret a => Q a w
  | Act act k => act w ≠ [] ∧ ∀ w' x, (w', x) ∈ act w → surely Q (k x) w'
  end.

Lemma surely_ret {A} (Q : A → W → Prop) a w : Q a w → surely Q (mret a) w.
Proof. done. Qed.

Lemma surely_await {X} (Q : X → W → Prop) (act : W → list (W * X)) w :
  act w ≠ [] → (∀ w' x, (w', x) ∈ act w → Q x w') → surely Q (await act) w.
Proof. by split. Qed.

Lemma surely_conseq {A} (Q Q' : A → W → Prop) (p : prog W A) w :
  surely Q p w → (∀ a w', Q a w' → Q' a w') → surely Q' p w.
Proof.
  intros Hp HQ. revert w Hp. induction p as [a|X act k IH]; intros w Hp; [by apply HQ|].
  destruct Hp as [Hne Hp]. split; [done|]. intros w' x Hin. by apply IH, Hp.
Qed.

Lemma surely_bind {A B} (Q1 : A → W → Prop) (Q : B → W → Prop) (f : A → prog W B) (p : prog W A) w :
  surely Q1 p w → (∀ a w', Q1 a w' → surely Q (f a) w') → surely Q (p ≫= f) w.
Proof.
  intros Hp Hf. revert w Hp. induction p as [a|X act k IH]; intros w Hp; [by apply Hf|].
  destruct Hp as [Hne Hp]. split; [done|]. intros w' x Hin. by apply IH, Hp.
Qed.

(** A call that succeeds. *)
Definition succeeds {A} (Q : A → W → Prop) (r : res A) (w : W) : Prop := ∃ a, r = Ok a ∧ Q a w.

Lemma surely_rbind {A B} (Q1 : A → W → Prop) (Q : res B → W → Prop) (f : A → prog W (res B)) (p : prog W (res A)) w :
  surely (succeeds Q1) p w → (∀ a w', Q1 a w' → surely Q (f a) w') → surely Q (rbind f p) w.
Proof.
  intros Hp Hf. apply (surely_bind (succeeds Q1)); [exact Hp|]. intros r w' (a & -> & Ha). by apply Hf.
Qed.

Lemma surely_outcomes {A} (Q : A → W → Prop) (p : prog W A) w :
  surely Q p w → outcomes p w ≠ [] ∧ ∀ w' a, (w', a) ∈ outcomes p w → Q a w'.
Proof.
  revert w. induction p as [a|X act k IH]; intros w Hp.
  - split; [done|]. by intros w' a' [= -> ->]%list_elem_of_singleton.
  - destruct Hp as [Hne Hp]. rewrite outcomes_act. destruct (act w) as [|[w1 x] l] eqn:Hact; [done|]. split.
    + intros Hnil. rewrite bind_cons in Hnil. apply app_eq_nil in Hnil as [Hnil _].
      by destruct (IH x w1 (Hp w1 x ltac:(left))) as [? _].
    + intros w' a ([w2 y] & Hin & Hy)%list_elem_of_bind. destruct (IH y w2) as [_ Hall]; [by apply Hp|]. by apply Hall.
Qed.

(** What a program upholds among others it also does alone. *)
Lemma surely_upholds {A} (R G : W → W → Prop) `{!Reflexive R} (Q Q' : A → W → Prop) (p : prog W A) w :
  upholds R G Q p w → surely Q' p w → surely (λ a w, Q' a w ∧ Q a w) p w.
Proof.
  revert w. induction p as [a|X act k IH]; intros w Hu Hs; [split; [done|by apply Hu]|].
  destruct Hs as [Hne Hs]. split; [done|]. intros w' x Hin. apply IH; [|by apply Hs].
  by destruct (Hu w w' x (reflexivity w) Hin).
Qed.
End surely.

#[global] Arguments upholds : simpl never.
#[global] Arguments surely : simpl never.
