(* ===== verification/Mysql.v ===== *)
(** * The MySQL cache: execution/mysql_cache.go

    A [MySQLCache] keeps the envelopes of Cache.v in one table of a MySQL database,
    and its constructor migrates the schema under a version table.  The server and
    its driver are not under src/: a [driver] is a parameter, its operations take the
    text of a statement and the values of its placeholders.  What database/sql does
    on top of it ([QueryRow], [Scan]) is modelled.  MysqlProofs.v states what the
    program relies on. *)

From S2P Require Import Prelude GoError GoStrings Go Digest Json Fsutil Cache.
From Stdlib Require Import Ascii.

(** ** Identifiers and names *)

Definition mysqlMediumTextMax : Z := 2 ^ 24 - 1.
Definition mysqlCacheSchemaV1 : Z := 1.
Definition mysqlSchemaVersionTbl : string := "flowkit_schema_version".

(** [^[A-Za-z_][A-Za-z0-9_$]{0,63}$] *)
Definition ident_start (a : ascii) : bool :=
  within 0x41 0x5a a || within 0x61 0x7a a || bool_decide (a = "_"%char).
Definition ident_char (a : ascii) : bool :=
  ident_start a || within 0x30 0x39 a || bool_decide (a = "$"%char).

Fixpoint all_chars (f : ascii → bool) (s : string) : bool :=
  match s with "" => true | String a s => f a && all_chars f s end.

Definition mysqlIdentifier (s : string) : bool :=
  match s with
  | "" => false
  | String a s => ident_start a && all_chars ident_char s && (String.length s <=? 63)%nat
  end.

Definition mysqlCacheSchemaComponent (table : string) : string := "execution.cache." +:+ table.

Definition mysqlCacheMigrationLock (database : string) : string :=
  "flowkit.cache." +:+ Stdlib.Strings.String.substring 0 48 (EncodeToString (sha256 (bytes_of database))).

Definition backtick : ascii := "`".

(** [strings.ReplaceAll(s, "`", "``")] *)
Fixpoint double_backticks (s : string) : string :=
  match s with
  | "" => ""
  | String a s => if decide (a = backtick) then String backtick (String backtick (double_backticks s))
                  else String a (double_backticks s)
  end.
Definition quoteMySQLIdentifier (identifier : string) : string :=
  String backtick (double_backticks identifier) +:+ String backtick "".

(** ** Statements *)

Definition select_database : string := "SELECT DATABASE()".
Definition get_lock : string := "SELECT GET_LOCK(?, 30)".
Definition release_lock : string := "SELECT RELEASE_LOCK(?)".
Definition count_tables : string :=
"SELECT COUNT(*) FROM information_schema.tables
WHERE table_schema = DATABASE() AND BINARY table_name = BINARY ?".
Definition create_version_table : string :=
"CREATE TABLE flowkit_schema_version (
  component VARBINARY(128) NOT NULL PRIMARY KEY,
  schema_version BIGINT NOT NULL
) ENGINE=InnoDB".
Definition select_version : string :=
"SELECT schema_version FROM flowkit_schema_version WHERE component = ?".
Definition insert_marker : string :=
"INSERT INTO flowkit_schema_version(component, schema_version) VALUES(?, 0)".
Definition update_version : string :=
"UPDATE flowkit_schema_version SET schema_version = ? WHERE component = ? AND schema_version = 0".
Definition create_cache_table (table : string) : string :=
"CREATE TABLE " +:+ quoteMySQLIdentifier table +:+ " (
  key_digest    VARBINARY(64) NOT NULL PRIMARY KEY,
  step          MEDIUMTEXT NOT NULL,
  version       MEDIUMTEXT NOT NULL,
  input_digest  VARBINARY(64) NOT NULL,
  value_digest  VARBINARY(64) NOT NULL,
  value_json    MEDIUMTEXT NOT NULL,
  created_at    BIGINT NOT NULL
) ENGINE=InnoDB".
Definition select_columns : string :=
"SELECT column_name, data_type, is_nullable,
       COALESCE(CAST(character_maximum_length AS CHAR), 'NULL')
FROM information_schema.columns
WHERE table_schema = DATABASE() AND BINARY table_name = BINARY ?".
Definition count_primary : string :=
"SELECT COUNT(*) FROM information_schema.statistics
WHERE table_schema = DATABASE() AND BINARY table_name = BINARY ?
  AND index_name = 'PRIMARY' AND column_name = 'key_digest' AND seq_in_index = 1".
Definition select_value (table : string) : string :=
"SELECT value_json FROM " +:+ quoteMySQLIdentifier table +:+ " WHERE key_digest = ?".
Definition upsert_entry (table : string) : string :=
"
INSERT INTO " +:+ quoteMySQLIdentifier table +:+ "
  (key_digest, step, version, input_digest, value_digest, value_json, created_at)
VALUES (?, ?, ?, ?, ?, ?, ?)
ON DUPLICATE KEY UPDATE
  step         = VALUES(step),
  version      = VALUES(version),
  input_digest = VALUES(input_digest),
  value_digest = VALUES(value_digest),
  value_json   = VALUES(value_json),
  created_at   = VALUES(created_at)".

(** ** database/sql *)

(** A value sent to or received from the driver. *)
Inductive sqlValue := SqlNull | SqlInt (z : Z) | SqlBytes (s : string).

#[export] Instance sqlValue_eq_dec : EqDecision sqlValue.
Proof. solve_decision. Defined.

Inductive poolSetting :=
| MaxOpenConns (n : Z)
| MaxIdleConns (n : Z)
| ConnMaxLifetime (d : Z)
| ConnMaxIdleTime (d : Z).

(** The rows a query yields before it ends, and the error it ends with. *)
Notation rowset := (list (list sqlValue) * option error)%type.

(** The driver and the server behind it: handles [H] stand for pools and for
    connections. *)
Record driver (W H : Type) := MkDriver {
  sql_Open : string → string → W → list (W * res H);
  sql_Set : H → poolSetting → W → W;
  sql_Close : H → W → list (W * res unit);
  sql_Conn : H → ctx → W → list (W * res H);
  sql_Query : H → ctx → string → list sqlValue → W → list (W * res rowset);
  sql_Exec : H → ctx → string → list sqlValue → W → list (W * res unit);
  sql_UnixMilli : W → Z;
}.
Arguments sql_Open {_ _} _ _ _ _.
Arguments sql_Set {_ _} _ _ _ _.
Arguments sql_Close {_ _} _ _ _.
Arguments sql_Conn {_ _} _ _ _ _.
Arguments sql_Query {_ _} _ _ _ _ _ _.
Arguments sql_Exec {_ _} _ _ _ _ _ _.
Arguments sql_UnixMilli {_ _} _ _.

(** The text of a conversion error is not inspected. *)
Definition scan_error : error := New "sql: Scan error".

(** [strconv.ParseInt(s, 10, 64)] *)
Fixpoint digits_value (acc : Z) (s : string) : option Z :=
  match s with
  | "" => Some acc
  | String a s => if is_digit a then digits_value (acc * 10 + (byte_of a - 48)) s else None
  end.
Definition ParseInt (s : string) : option Z :=
  z ← match s with
      | "" => None
      | String "+" "" | String "-" "" => None
      | String "+" s => digits_value 0 s
      | String "-" s => Z.opp <$> digits_value 0 s
      | s => digits_value 0 s
      end;
  if (min64 <=? z) && (z <=? max64) then Some z else None.

(** The destinations [Scan] is given. *)
Definition to_string (v : sqlValue) : res string :=
  match v with SqlNull => Err scan_error | SqlInt z => Ok (pretty z) | SqlBytes s => Ok s end.
Definition to_int64 (v : sqlValue) : res Z :=
  match v with
  | SqlNull => Err scan_error
  | SqlInt z => Ok z
  | SqlBytes s => match ParseInt s with Some z => Ok z | None => Err scan_error end
  end.
Definition to_null_int64 (v : sqlValue) : res (option Z) :=
  match v with SqlNull => Ok None | v => Some <$> to_int64 v end.
Definition to_bytes (v : sqlValue) : res string :=
  match v with SqlNull => Ok "" | SqlInt z => Ok (pretty z) | SqlBytes s => Ok s end.

(** [row.Scan(&x)] of a query for one row. *)
Definition scan_one {X} (conv : sqlValue → res X) (r : res rowset) : res X :=
  match r with
  | Err e => Err e
  | Ok ([], None) => Err (Sentinel ErrNoRows)
  | Ok ([], Some e) => Err e
  | Ok ([v] :: _, e) => x ← conv v; match e with Some e => Err e | None => Ok x end
  | Ok (_ :: _, _) => Err scan_error
  end.

Section mysql.
Context {W H : Type} `{!Has ctxs W} (D : driver W H).

Definition QueryRow {X} (q : H) (c : ctx) (stmt : string) (args : list sqlValue) (conv : sqlValue → res X)
    : prog W (res X) :=
  r ← await (sql_Query D q c stmt args); mret (scan_one conv r).

Definition Exec (q : H) (c : ctx) (stmt : string) (args : list sqlValue) : prog W (res unit) :=
  await (sql_Exec D q c stmt args).

(** ** The schema *)

Definition mysqlTableExists (c : ctx) (q : H) (table : string) : prog W (res bool) :=
  count ←? QueryRow q c count_tables [SqlBytes table] to_int64;
  mret (Ok (0 <? count)).

Definition createMySQLCacheSchemaV1 (c : ctx) (q : H) (table : string) : prog W (res unit) :=
  wrapping "create cache table: %w" (Exec q c (create_cache_table table) []).

(** The map literal, in the order it is written. *)
Definition expected : list (string * string) :=
  [("key_digest", "varbinary:NO:64");
   ("step", "mediumtext:NO:16777215");
   ("version", "mediumtext:NO:16777215");
   ("input_digest", "varbinary:NO:64");
   ("value_digest", "varbinary:NO:64");
   ("value_json", "mediumtext:NO:16777215");
   ("created_at", "bigint:NO:NULL")].

(** One row of the columns query, scanned into four strings. *)
Definition scan_column (row : list sqlValue) : res (string * string) :=
  match row with
  | [column; dataType; nullable; maxLength] =>
      column ← to_string column; dataType ← to_string dataType;
      nullable ← to_string nullable; maxLength ← to_string maxLength;
      Ok (column, dataType +:+ ":" +:+ nullable +:+ ":" +:+ maxLength)
  | _ => Err scan_error
  end.

(** The loop over [rows.Next()]. *)
Fixpoint scan_columns (rows : list (list sqlValue)) (seen : gmap string string) : res (gmap string string) :=
  match rows with
  | [] => Ok seen
  | row :: rows =>
      match scan_column row with
      | Err e => Err (Errorf "inspect cache schema column: %w" [ArgWrap e])
      | Ok (column, shape) => scan_columns rows (<[column := shape]> seen)
      end
  end.

Definition got (seen : gmap string string) (column : string) : string := default "" (seen !! column).
Definition mismatched (seen : gmap string string) : list (string * string) :=
  filter (λ p, got seen p.1 ≠ p.2) expected.

Definition mismatch (table : string) (seen : gmap string string) (p : string * string) : error :=
  Errorf "mysql cache: table %q does not match schema version 1: column %s is %q, want %q"
    [ArgStr table; ArgStr p.1; ArgStr (got seen p.1); ArgStr p.2].

(** The map is ranged over in any order: the first mismatch found is any of them. *)
Definition compare_columns (table : string) (seen : gmap string string) : prog W (res unit) :=
  match mismatched seen with
  | [] => mret (Ok tt)
  | ms => await (λ w, (λ p, (w, Err (mismatch table seen p))) <$> ms)
  end.

Definition validateMySQLCacheSchemaV1 (c : ctx) (q : H) (table : string) : prog W (res unit) :=
  answer ←? wrapping "inspect cache schema columns: %w" (await (sql_Query D q c select_columns [SqlBytes table]));
  match scan_columns answer.1 ∅ with
  | Err e => mret (Err e)
  | Ok seen =>
      match answer.2 with
      | Some e => mret (Err (Errorf "inspect cache schema columns: %w" [ArgWrap e]))
      | None =>
          if negb (size seen =? length expected)%nat then
            mret (Err (Errorf "mysql cache: table %q does not match schema version 1: got %d columns, want %d"
                         [ArgStr table; ArgInt (Z.of_nat (size seen)); ArgInt (Z.of_nat (length expected))]))
          else
            _ ←? compare_columns table seen;
            primaryColumns ←? wrapping "inspect cache schema primary key: %w"
              (QueryRow q c count_primary [SqlBytes table] to_int64);
            if negb (primaryColumns =? 1) then
              mret (Err (Errorf "mysql cache: table %q does not match schema version 1: key_digest is not the primary key"
                           [ArgStr table]))
            else mret (Ok tt)
      end
  end.

(** ** Migration *)

(** The version recorded for the table; a table without one gets the marker 0. *)
Definition recorded_version (c : ctx) (conn : H) (table : string) (cacheTableExists : bool) : prog W (res Z) :=
  let component := mysqlCacheSchemaComponent table in
  r ← QueryRow conn c select_version [SqlBytes component] to_int64;
  match r with
  | Ok version => mret (Ok version)
  | Err e =>
      if Is e ErrNoRows then
        if cacheTableExists then
          mret (Err (Errorf "mysql cache: schema version component %q is missing for existing table %q"
                       [ArgStr component; ArgStr table]))
        else
          _ ←? wrapping "record cache schema initialization: %w" (Exec conn c insert_marker [SqlBytes component]);
          mret (Ok 0)
      else mret (Err (Errorf "read cache schema version: %w" [ArgWrap e]))
  end.

(** What [migrate] does under the lock. *)
Definition migrate_schema (c : ctx) (conn : H) (table : string) : prog W (res unit) :=
  let component := mysqlCacheSchemaComponent table in
  versionTableExists ←? wrapping "inspect schema version table: %w" (mysqlTableExists c conn mysqlSchemaVersionTbl);
  cacheTableExists ←? wrapping "inspect cache table: %w" (mysqlTableExists c conn table);
  _ ←? (if negb versionTableExists then
          if (cacheTableExists : bool) then
            mret (Err (Errorf "mysql cache: unversioned prototype table %q detected; recreate it or migrate it explicitly"
                         [ArgStr table]))
          else wrapping "create schema version table: %w" (Exec conn c create_version_table [])
        else mret (Ok tt));
  version ←? recorded_version c conn table cacheTableExists;
  if version =? 0 then
    _ ←? (if negb cacheTableExists then createMySQLCacheSchemaV1 c conn table else mret (Ok tt));
    _ ←? validateMySQLCacheSchemaV1 c conn table;
    wrapping "finalize cache schema version: %w"
      (Exec conn c update_version [SqlInt mysqlCacheSchemaV1; SqlBytes component])
  else if negb (version =? mysqlCacheSchemaV1) then
    mret (Err (Errorf "mysql cache: unsupported schema version %d for %q (want %d)"
                 [ArgInt version; ArgStr component; ArgInt mysqlCacheSchemaV1]))
  else if negb cacheTableExists then
    mret (Err (Errorf "mysql cache: schema version %d is recorded but table %q is missing"
                 [ArgInt version; ArgStr table]))
  else validateMySQLCacheSchemaV1 c conn table.

Definition migrate_on (c : ctx) (conn : H) (table : string) : prog W (res unit) :=
  database ←? wrapping "read selected database: %w" (QueryRow conn c select_database [] to_string);
  let lockName := mysqlCacheMigrationLock database in
  acquired ←? wrapping "acquire schema lock: %w" (QueryRow conn c get_lock [SqlBytes lockName] to_null_int64);
  if negb (bool_decide (acquired = Some 1)) then
    mret (Err (Errorf "acquire schema lock %q: timed out" [ArgStr lockName]))
  else
    r ← migrate_schema c conn table;
    _ ← QueryRow conn [] release_lock [SqlBytes lockName] to_null_int64;
    mret r.

(** [c] is nil or a context; [context.Background()] has no scope. *)
Definition migrate (db : H) (c : option ctx) (table : string) : prog W (res unit) :=
  let c := default [] c in
  conn ←? await (sql_Conn D db c);
  r ← migrate_on c conn table;
  _ ← await (sql_Close D conn);
  mret r.

(** ** The cache *)

Record MySQLCacheOptions := MkMySQLCacheOptions {
  my_DSN : string;
  my_TableName : string;
  my_MaxOpenConns : Z;
  my_MaxIdleConns : Z;
  my_ConnMaxLifetime : Z;
  my_ConnMaxIdleTime : Z;
  my_MaxEntryBytes : Z;
}.

(** [mc_db] is None for a nil pool. *)
Record MySQLCache := MkMySQLCache {
  mc_db : option H;
  mc_table : string;
  mc_maxEntryBytes : Z;
}.

Definition minute : Z := 60 * 10 ^ 9.

Definition openMySQLPool (dsn : string) (maxOpen maxIdle maxLifetime maxIdleTime : Z) : prog W (res H) :=
  db ←? await (sql_Open D "mysql" dsn);
  _ ← modify (sql_Set D db (MaxOpenConns (if maxOpen <=? 0 then 20 else maxOpen)));
  _ ← modify (sql_Set D db (MaxIdleConns (if maxIdle <=? 0 then 10 else maxIdle)));
  _ ← modify (sql_Set D db (ConnMaxLifetime (if maxLifetime <=? 0 then 5 * minute else maxLifetime)));
  _ ← modify (sql_Set D db (ConnMaxIdleTime (if maxIdleTime <=? 0 then minute else maxIdleTime)));
  mret (Ok db).

(** The checks of [NewMySQLCache]: the table and the limit. *)
Definition check_options (opts : MySQLCacheOptions) : res (string * Z) :=
  if decide (TrimSpace (my_DSN opts) = "") then Err (New "mysql cache dsn is required") else
  let table := TrimSpace (my_TableName opts) in
  let table := if decide (table = "") then "cache_entries" else table in
  if negb (mysqlIdentifier table) then
    Err (Errorf "mysql cache table name %q is not a valid MySQL identifier (letters, digits, underscore, $; 1-64 chars)"
           [ArgStr table])
  else
  let maxEntryBytes := if my_MaxEntryBytes opts =? 0 then mysqlMediumTextMax else my_MaxEntryBytes opts in
  if maxEntryBytes <? 1 then Err (New "mysql cache maximum entry bytes must be positive") else
  if mysqlMediumTextMax <? maxEntryBytes then
    Err (Errorf "mysql cache maximum entry bytes %d exceeds MEDIUMTEXT capacity %d; use a smaller MaxEntryBytes or a column type that can hold it"
           [ArgInt maxEntryBytes; ArgInt mysqlMediumTextMax])
  else Ok (table, maxEntryBytes).

Definition NewMySQLCache (c : option ctx) (opts : MySQLCacheOptions) : prog W (res MySQLCache) :=
  match check_options opts with
  | Err e => mret (Err e)
  | Ok (table, maxEntryBytes) =>
      db ←? wrapping "open mysql cache: %w"
        (openMySQLPool (my_DSN opts) (my_MaxOpenConns opts) (my_MaxIdleConns opts)
           (my_ConnMaxLifetime opts) (my_ConnMaxIdleTime opts));
      migrated ← migrate db c table;
      match migrated with
      | Err e =>
          _ ← await (sql_Close D db);
          mret (Err (Errorf "mysql cache migrate: %w" [ArgWrap e]))
      | Ok _ => mret (Ok (MkMySQLCache (Some db) table maxEntryBytes))
      end
  end.

Definition MySQLCache_Close (cache : option MySQLCache) : prog W (res unit) :=
  match cache ≫= mc_db with
  | None => mret (Ok tt)
  | Some db => await (sql_Close D db)
  end.

Definition sql_ctx_Err (c : ctx) : prog W (res unit) :=
  read (λ w, match ctx_err c (inside w) with Some e => Err e | None => Ok tt end).

(** [Load] and [Store] of a cache that is nil, or whose pool is. *)
Definition opened (cache : option MySQLCache) : res (H * MySQLCache) :=
  match cache with
  | Some x => match mc_db x with Some db => Ok (db, x) | None => Err (New "mysql cache is nil") end
  | None => Err (New "mysql cache is nil")
  end.

Context {V : Type} `{!Codec V}.

(** What [Load] makes of the bytes of a row: its own copy of the checks of
    [FileCache.Load]. *)
Definition check_row (key : Key) (raw : string) : res V :=
  match DecodeStrictInto decode_envelope raw with
  | Err e => Err (corrupt_because "decode envelope" e)
  | Ok envelope =>
      if negb (bool_decide (SchemaVersion envelope = cacheEntrySchema))
         || negb (bool_decide (env_Key envelope = key))
         || negb (bool_decide (ValueDigest envelope = Bytes (Value envelope)))
      then Err (corrupt "envelope validation failed")
      else
        match DecodeStrictInto (λ t, decode true (t_text t)) (Value envelope) with
        | Err e => Err (corrupt_because "decode value" e)
        | Ok v => Ok v
        end
  end.

Definition MySQLCache_Load (cache : option MySQLCache) (c : ctx) (key : Key) : prog W (res (option V)) :=
  match opened cache with
  | Err e => mret (Err e)
  | Ok (db, cache) =>
      _ ←? sql_ctx_Err c;
      match Key_Digest key with
      | Err e => mret (Err e)
      | Ok keyDigest =>
          r ← QueryRow db c (select_value (mc_table cache)) [SqlBytes keyDigest] to_bytes;
          match r with
          | Err e => mret (if Is e ErrNoRows then Ok None
                           else Err (Errorf "read mysql cache entry: %w" [ArgWrap e]))
          | Ok raw =>
              if mc_maxEntryBytes cache <? Z.of_nat (String.length raw)
              then mret (Err (corrupt "entry exceeds maximum size"))
              else mret (Some <$> check_row key raw)
          end
      end
  end.

(** The values of the placeholders of [upsert_entry]. *)
Definition entry_values (keyDigest : string) (key : Key) (value : json) (now : Z) : list sqlValue :=
  [SqlBytes keyDigest; SqlBytes (Step key); SqlBytes (Version key); SqlBytes (InputDigest key);
   SqlBytes (Bytes (render value)); SqlBytes (render (envelope_json key value)); SqlInt now].

Definition MySQLCache_Store (cache : option MySQLCache) (c : ctx) (key : Key) (value : V) : prog W (res unit) :=
  match opened cache with
  | Err e => mret (Err e)
  | Ok (db, cache) =>
      _ ←? sql_ctx_Err c;
      match Key_Digest key with
      | Err e => mret (Err e)
      | Ok keyDigest =>
          match encode value with
          | Err e => mret (Err (Errorf "marshal cache value: %w" [ArgWrap e]))
          | Ok j =>
              let size := Z.of_nat (String.length (render (envelope_json key j))) in
              if mc_maxEntryBytes cache <? size then
                mret (Err (Errorf "cache entry is %d bytes, maximum is %d"
                             [ArgInt size; ArgInt (mc_maxEntryBytes cache)]))
              else
                now ← read (sql_UnixMilli D);
                wrapping "publish mysql cache entry: %w"
                  (Exec db c (upsert_entry (mc_table cache)) (entry_values keyDigest key j now))
          end
      end
  end.
End mysql.

Arguments MySQLCache _ : clear implicits.
Arguments MkMySQLCache {_} _ _ _.
Arguments mc_db {_} _.
Arguments mc_table {_} _.
Arguments mc_maxEntryBytes {_} _.
