(* ===== verification/MysqlProofs.v ===== *)
(** * The MySQL cache: what it promises

    A database is a finite map from table names to tables.  [mysql_server] states
    what the program relies on: the documented effect of each statement it sends, on
    a server in strict mode that compares table names exactly.  The flowkit tables
    of a database only ever evolve ([evolves]), whatever the constructors that share
    it do, fail at or are interrupted in; from every state they can leave, a
    constructor that meets no fault succeeds. *)

From S2P Require Import Prelude GoError GoStrings Go Rely Digest Json JsonProofs Fsutil Cache Mysql.

(** ** Databases *)

(** A column as information_schema describes it. *)
Record column := Column { c_name : string; c_type : string; c_null : string; c_max : string }.

(** The rows are keyed by the primary key; the other cells are listed in the order
    of the columns. *)
Record table := Table {
  t_columns : list column;
  t_primary : list string;
  t_rows : gmap string (list sqlValue);
}.

Notation database := (gmap string table).

Definition column_row (x : column) : list sqlValue :=
  [SqlBytes (c_name x); SqlBytes (c_type x); SqlBytes (c_null x); SqlBytes (c_max x)].
Definition column_shape (x : column) : string * string :=
  (c_name x, c_type x +:+ ":" +:+ c_null x +:+ ":" +:+ c_max x).

Definition set_row (k : string) (cells : list sqlValue) (tb : table) : table :=
  Table (t_columns tb) (t_primary tb) (<[k := cells]> (t_rows tb)).

Definition version_columns : list column :=
  [Column "component" "varbinary" "NO" "128"; Column "schema_version" "bigint" "NO" "NULL"].
Definition cache_columns : list column :=
  [Column "key_digest" "varbinary" "NO" "64";
   Column "step" "mediumtext" "NO" "16777215";
   Column "version" "mediumtext" "NO" "16777215";
   Column "input_digest" "varbinary" "NO" "64";
   Column "value_digest" "varbinary" "NO" "64";
   Column "value_json" "mediumtext" "NO" "16777215";
   Column "created_at" "bigint" "NO" "NULL"].

Definition version_table : table := Table version_columns ["component"] ∅.
Definition cache_table : table := Table cache_columns ["key_digest"] ∅.
Notation VT := mysqlSchemaVersionTbl.

(** ** The effects of the statements *)

Definition create (name : string) (tb : table) (d : database) : option database :=
  match d !! name with None => Some (<[name := tb]> d) | Some _ => None end.

(** [INSERT] of a row that must not exist. *)
Definition insert_row (name k : string) (cells : list sqlValue) (d : database) : option database :=
  tb ← d !! name;
  match t_rows tb !! k with None => Some (<[name := set_row k cells tb]> d) | Some _ => None end.

(** [UPDATE ... SET schema_version = v WHERE component = k AND schema_version = 0] *)
Definition bump (k : string) (v : Z) (d : database) : option database :=
  tb ← d !! VT;
  match t_rows tb !! k with
  | Some [SqlInt 0] => Some (<[VT := set_row k [SqlInt v] tb]> d)
  | _ => Some d
  end.

(** [INSERT ... ON DUPLICATE KEY UPDATE] of every column. *)
Definition upsert (name k : string) (cells : list sqlValue) (d : database) : option database :=
  tb ← d !! name; Some (<[name := set_row k cells tb]> d).

(** A version table as this program makes it. *)
Definition version_shape (tb : table) : Prop :=
  t_columns tb = version_columns ∧ t_primary tb = ["component"] ∧
  ∀ k cells, t_rows tb !! k = Some cells → ∃ z, cells = [SqlInt z].

(** A cache table keyed by its digests alone. *)
Definition cache_shape (tb : table) : Prop :=
  column_shape <$> t_columns tb ≡ₚ expected ∧ t_primary tb = ["key_digest"].

(** What [validateMySQLCacheSchemaV1] accepts. *)
Definition matches_v1 (tb : table) : Prop :=
  column_shape <$> t_columns tb ≡ₚ expected ∧ head (t_primary tb) = Some "key_digest".

Definition versions_wf (d : database) : Prop := ∀ tb, d !! VT = Some tb → version_shape tb.

(** The version recorded for a table. *)
Definition version_of (d : database) (t : string) : option Z :=
  tb ← d !! VT;
  match t_rows tb !! mysqlCacheSchemaComponent t with Some [SqlInt z] => Some z | _ => None end.

(** The cell of a row that holds [value_json]: the fifth after the key. *)
Definition value_cell (cells : list sqlValue) : sqlValue := nth 4 cells SqlNull.

Section laws.
Context {W H : Type} (D : driver W H) (view : W → database).

(** A query that succeeds answers [ans] of the database and changes nothing; one
    that fails does not report [sql.ErrNoRows], which only [Scan] makes. *)
Definition asks (stmt : string) (args : list sqlValue) (ans : database → list (list sqlValue) → Prop) : Prop :=
  ∀ h c w w' r, (w', r) ∈ sql_Query D h c stmt args w →
    view w' = view w ∧
    match r with
    | Ok (rows, None) => ans (view w) rows
    | Ok (_, Some e) | Err e => Is e ErrNoRows = false
    end.

(** A statement that succeeds has its effect; one that fails has it or none. *)
Definition does (stmt : string) (args : list sqlValue) (pre : database → Prop)
    (effect : database → option database) : Prop :=
  ∀ h c w w' r, (w', r) ∈ sql_Exec D h c stmt args w → pre (view w) →
    effect (view w) = Some (view w') ∨ (is_ok r = false ∧ view w' = view w).

Definition keeps_view {X} (act : W → list (W * X)) : Prop := ∀ w w' x, (w', x) ∈ act w → view w' = view w.

Record mysql_server : Prop := {
  srv_open n dsn : keeps_view (sql_Open D n dsn);
  srv_set h s w : view (sql_Set D h s w) = view w;
  srv_close h : keeps_view (sql_Close D h);
  srv_conn h c : keeps_view (sql_Conn D h c);
  srv_database : asks select_database [] (λ _ _, True);
  srv_lock name : asks get_lock [SqlBytes name] (λ _ _, True);
  srv_unlock name : asks release_lock [SqlBytes name] (λ _ _, True);
  srv_tables t : asks count_tables [SqlBytes t] (λ d rows,
    rows = [[SqlInt (if decide (is_Some (d !! t)) then 1 else 0)]]);
  srv_version k : asks select_version [SqlBytes k] (λ d rows,
    ∃ tb, d !! VT = Some tb ∧ (version_shape tb → rows = option_list (t_rows tb !! k)));
  srv_columns t : asks select_columns [SqlBytes t] (λ d rows,
    ∃ cols, column_row <$> cols = rows ∧ NoDup (c_name <$> cols) ∧
      cols ≡ₚ match d !! t with Some tb => t_columns tb | None => [] end);
  srv_primary t : asks count_primary [SqlBytes t] (λ d rows,
    rows = [[SqlInt (if decide ((d !! t) ≫= (λ tb, head (t_primary tb)) = Some "key_digest") then 1 else 0)]]);
  srv_value t k : mysqlIdentifier t = true → asks (select_value t) [SqlBytes k] (λ d rows,
    ∃ tb, d !! t = Some tb ∧
      (cache_shape tb → rows = option_list ((λ cells, [value_cell cells]) <$> t_rows tb !! k)));
  srv_create_versions : does create_version_table [] (λ _, True) (create VT version_table);
  srv_create_cache t : mysqlIdentifier t = true → does (create_cache_table t) [] (λ _, True) (create t cache_table);
  srv_marker k : does insert_marker [SqlBytes k] versions_wf (insert_row VT k [SqlInt 0]);
  srv_update v k : does update_version [SqlInt v; SqlBytes k] versions_wf (bump k v);
  srv_upsert t k cells : mysqlIdentifier t = true →
    does (upsert_entry t) (SqlBytes k :: cells) (λ d, ∀ tb, d !! t = Some tb → cache_shape tb) (upsert t k cells);
}.
End laws.

(** ** How a database evolves *)

Inductive evolves : database → database → Prop :=
| evolves_versions d : d !! VT = None → evolves d (<[VT := version_table]> d)
| evolves_marker d tb t :
    d !! VT = Some tb → t_rows tb !! mysqlCacheSchemaComponent t = None → t = VT ∨ d !! t = None →
    evolves d (<[VT := set_row (mysqlCacheSchemaComponent t) [SqlInt 0] tb]> d)
| evolves_table d t : version_of d t = Some 0 → d !! t = None → evolves d (<[t := cache_table]> d)
| evolves_final d tb t ctb :
    d !! VT = Some tb → t_rows tb !! mysqlCacheSchemaComponent t = Some [SqlInt 0] →
    d !! t = Some ctb → matches_v1 ctb →
    evolves d (<[VT := set_row (mysqlCacheSchemaComponent t) [SqlInt 1] tb]> d)
| evolves_entry d t tb k cells : t ≠ VT → d !! t = Some tb → evolves d (<[t := set_row k cells tb]> d).

(** The table [t] exists and is recorded at version 1. *)
Definition matching (t : string) (d : database) : Prop := ∃ tb, d !! t = Some tb ∧ matches_v1 tb.
Definition ready (t : string) (d : database) : Prop := version_of d t = Some 1 ∧ matching t d.
(** A version was recorded; if it is final the table is right. *)
Definition marked (t : string) (d : database) : Prop := version_of d t = Some 0 ∨ ready t d.
(** No table that this program did not make. *)
Definition unowned (t : string) (d : database) : Prop := d !! t = None ∨ t = VT ∨ is_Some (version_of d t).
(** Same columns and same key. *)
Definition same_shape (tb tb' : table) : Prop := t_columns tb' = t_columns tb ∧ t_primary tb' = t_primary tb.
(** Validation looks at the first column of the primary key only: a table keyed by the
    digest and the time of insertion is accepted, although it can hold several entries
    of one digest. *)
Example composite_key_matches : matches_v1 (Table cache_columns ["key_digest"; "created_at"] ∅).
Proof. by split. Qed.

(** What a migration that only met flowkit's own tables can leave behind. *)
Definition recoverable (t : string) (d : database) : Prop :=
  match version_of d t with
  | None => d !! t = None
  | Some z => (z = 0 ∧ d !! t = None) ∨ ((z = 0 ∨ z = 1) ∧ ∃ tb, d !! t = Some tb ∧ cache_shape tb)
  end.

#[export] Instance component_inj : Inj (=) (=) mysqlCacheSchemaComponent.
Proof. intros t t' Heq. by apply (inj (String.append "execution.cache.")) in Heq. Qed.

Lemma same_shape_set_row k cells tb : same_shape tb (set_row k cells tb).
Proof. done. Qed.

Lemma same_shape_refl tb : same_shape tb tb.
Proof. done. Qed.

(** Tables are never dropped or altered. *)
Lemma evolves_shape d d' t tb :
  evolves d d' → d !! t = Some tb → ∃ tb', d' !! t = Some tb' ∧ same_shape tb tb'.
Proof.
  intros Hd Ht. destruct Hd as [d Hv|d vtb t' Hv _ _|d t' _ Hn|d vtb t' ctb Hv _ _ _|d t' tb' k cells _ Ht'].
  all: match goal with |- context [<[?n := _]> _] =>
         destruct (decide (n = t)) as [<-|Hne]; [rewrite lookup_insert_eq; simplify_eq|rewrite lookup_insert_ne by done]
       end; eauto using same_shape_refl, same_shape_set_row.
Qed.

Lemma evolves_matching d d' t : evolves d d' → matching t d → matching t d'.
Proof.
  intros Hd (tb & Ht & Hm & Hp). destruct (evolves_shape d d' t tb Hd Ht) as (tb' & Ht' & Hc & Hk).
  exists tb'. split; [done|]. split; [by rewrite Hc|by rewrite Hk].
Qed.

Lemma evolves_wf d d' : evolves d d' → versions_wf d → versions_wf d'.
Proof.
  intros Hd Hwf tb. destruct Hd as [d Hv|d vtb t' Hv _ _|d t' Hz Hn|d vtb t' ctb Hv _ _ _|d t' tb' k cells Hne Ht'].
  - rewrite lookup_insert_eq. by intros [= <-].
  - rewrite lookup_insert_eq. intros [= <-]. destruct (Hwf _ Hv) as (Hc & Hp & Hr). split_and!; [done..|].
    simpl. intros k cells [[<- <-]|[? Hk]]%lookup_insert_Some; eauto.
  - rewrite lookup_insert_ne; [apply Hwf|]. intros ->. unfold version_of in Hz. by rewrite Hn in Hz.
  - rewrite lookup_insert_eq. intros [= <-]. destruct (Hwf _ Hv) as (Hc & Hp & Hr). split_and!; [done..|].
    simpl. intros k cells [[<- <-]|[? Hk]]%lookup_insert_Some; eauto.
  - rewrite lookup_insert_ne by done. apply Hwf.
Qed.

Lemma version_of_set d tb t t' z :
  version_of (<[VT := set_row (mysqlCacheSchemaComponent t) [SqlInt z] tb]> d) t' =
  if decide (t' = t) then Some z else version_of (<[VT := tb]> d) t'.
Proof.
  unfold version_of. rewrite !lookup_insert_eq. simpl. case_decide as Heq.
  - subst. by rewrite lookup_insert_eq.
  - by rewrite lookup_insert_ne by (by intros ?%(inj _)).
Qed.

Lemma version_of_same d tb t : d !! VT = Some tb → version_of (<[VT := tb]> d) t = version_of d t.
Proof. intros Hv. unfold version_of. by rewrite lookup_insert_eq, Hv. Qed.

Lemma version_of_other d n tb t : n ≠ VT → version_of (<[n := tb]> d) t = version_of d t.
Proof. intros Hne. unfold version_of. by rewrite lookup_insert_ne by done. Qed.

(** A recorded version only moves from the marker to 1, and only over a table that
    was validated. *)
Lemma evolves_version d d' t z :
  evolves d d' → version_of d t = Some z →
  version_of d' t = Some z ∨ (z = 0 ∧ version_of d' t = Some 1 ∧ matching t d').
Proof.
  intros Hd Hz. pose proof (evolves_matching d d' t Hd) as Hmatch.
  destruct Hd as [d Hv|d vtb t' Hv Hn _|d t' Hz' Hn|d vtb t' ctb Hv Hf Ht Hm|d t' tb' k cells Hne Ht'].
  - unfold version_of in Hz. by rewrite Hv in Hz.
  - left. rewrite version_of_set. case_decide as Heq; [|by rewrite version_of_same].
    subst. unfold version_of in Hz. rewrite Hv in Hz. simpl in Hz. by rewrite Hn in Hz.
  - left. rewrite version_of_other; [done|]. intros ->. unfold version_of in Hz. by rewrite Hn in Hz.
  - rewrite version_of_set. case_decide as Heq; [|left; by rewrite version_of_same]. right. subst.
    unfold version_of in Hz. rewrite Hv in Hz. simpl in Hz. rewrite Hf in Hz. injection Hz as <-.
    split_and!; [done..|]. apply Hmatch. by exists ctb.
  - left. by rewrite version_of_other.
Qed.

Lemma evolves_marked d d' t : evolves d d' → marked t d → marked t d'.
Proof.
  intros Hd [Hz|[Hz Hm]].
  - destruct (evolves_version d d' t 0 Hd Hz) as [?|(_ & ? & ?)]; [by left|by right].
  - right. destruct (evolves_version d d' t 1 Hd Hz) as [?|(? & ? & ?)]; [|done].
    split; [done|]. by eapply evolves_matching.
Qed.

Lemma evolves_ready d d' t : evolves d d' → ready t d → ready t d'.
Proof.
  intros Hd Hr. destruct (evolves_marked d d' t Hd (or_intror Hr)) as [Hz|]; [|done].
  destruct Hr as [H1 _]. destruct (evolves_version d d' t 1 Hd H1) as [H1'|[? _]]; [|done].
  rewrite Hz in H1'. discriminate H1'.
Qed.

Lemma evolves_final_version d d' t : evolves d d' → version_of d t = Some 1 → version_of d' t = Some 1.
Proof. intros Hd Hz. by destruct (evolves_version d d' t 1 Hd Hz) as [?|[? _]]. Qed.

Lemma evolves_unowned d d' t : evolves d d' → unowned t d → unowned t d'.
Proof.
  intros Hd [Hn|[->|[z Hz]]]; [|by right; left|].
  2: { right; right. destruct (evolves_version d d' t z Hd Hz) as [-> |(_ & -> & _)]; by eexists. }
  destruct (decide (t = VT)) as [->|Hne]; [by right; left|].
  destruct Hd as [d Hv|d vtb t' Hv _ _|d t' Hz' Hn'|d vtb t' ctb Hv _ _ _|d t' tb' k cells Hne' Ht'].
  all: try (left; by rewrite lookup_insert_ne by done).
  - destruct (decide (t' = t)) as [->|]; [|left; by rewrite lookup_insert_ne].
    right; right. exists 0. rewrite version_of_other by done. done.
  - left. rewrite lookup_insert_ne; [done|]. intros ->. by rewrite Ht' in Hn.
Qed.

Lemma evolves_recoverable d d' t : t ≠ VT → evolves d d' → recoverable t d → recoverable t d'.
Proof.
  intros Hne Hd. unfold recoverable.
  assert (∀ tb, d !! t = Some tb → cache_shape tb → ∃ tb', d' !! t = Some tb' ∧ cache_shape tb') as Hshape.
  { intros tb Ht [Hc Hp]. destruct (evolves_shape d d' t tb Hd Ht) as (tb' & Ht' & Hc' & Hp').
    exists tb'. split; [done|]. split; [by rewrite Hc'|by rewrite Hp']. }
  destruct Hd as [d Hv|d vtb t' Hv Hn Ho|d t' Hz' Hn'|d vtb t' ctb Hv Hf Ht Hm|d t' tb' k cells Hne' Ht'].
  - unfold version_of. rewrite lookup_insert_eq, Hv, lookup_insert_ne by done. done.
  - rewrite version_of_set. case_decide as Heq; [|rewrite version_of_same, lookup_insert_ne by done].
    + subst t'. rewrite lookup_insert_ne by done. intros _. destruct Ho as [->|Ho]; [done|]. by left.
    + destruct (version_of d t); [|done]. intros [?|[? (tb & ? & ?)]]; [by left|right]. split; [done|]. by exists tb.
  - assert (t' ≠ VT) as Ht' by (intros ->; unfold version_of in Hz'; by rewrite Hn' in Hz').
    rewrite version_of_other by done. destruct (decide (t' = t)) as [->|].
    + rewrite Hz', lookup_insert_eq. intros _. right. split; [by left|]. by exists cache_table.
    + by rewrite lookup_insert_ne.
  - rewrite version_of_set. case_decide as Heq; [|rewrite version_of_same, lookup_insert_ne by done; done].
    subst t'. unfold version_of. rewrite Hv. simpl. rewrite Hf.
    intros [[_ Ht']|[_ (tb & Htb & Hs)]]; [by rewrite Ht in Ht'|]. right. split; [by right|]. by eapply Hshape.
  - rewrite version_of_other by done. destruct (decide (t' = t)) as [->|]; [|by rewrite lookup_insert_ne].
    destruct (version_of d t) as [z|]; [|by rewrite Ht'].
    intros [[_ Hn]|[Hz (tb & Htb & Hs)]]; [by rewrite Ht' in Hn|]. right. split; [done|]. by eapply Hshape.
Qed.

(** ** Migrations that share a database *)

(** Facts that evolution keeps. *)
Definition kept (P : database → Prop) : Prop := ∀ d d', evolves d d' → P d → P d'.

Lemma kept_and P Q : kept P → kept Q → kept (λ d, P d ∧ Q d).
Proof. intros HP HQ d d' Hd [Hp Hq]. split; [by eapply HP|by eapply HQ]. Qed.
Lemma kept_pure (P : Prop) : kept (λ _, P).
Proof. by intros d d' _. Qed.
Lemma kept_impl (P : Prop) Q : kept Q → kept (λ d, P → Q d).
Proof. intros HQ d d' Hd Hq HP. by eapply HQ, Hq. Qed.

Create HintDb mysql.
#[export] Hint Resolve kept_and kept_pure kept_impl : mysql.
#[export] Hint Extern 1 (kept _) =>
  first [exact evolves_wf | exact (λ d d', evolves_marked d d' _) | exact (λ d d', evolves_ready d d' _)
        |exact (λ d d', evolves_unowned d d' _) | exact (λ d d', evolves_matching d d' _)
        |exact (λ d d', evolves_final_version d d' _)] : mysql.

Lemma kept_rtc P d d' : kept P → rtc evolves d d' → P d → P d'.
Proof. intros HP. induction 1; eauto. Qed.

Section migration.
Context {W H : Type} `{!Has ctxs W} (D : driver W H) (view : W → database).
Context (server : mysql_server D view).

(** What anybody may do to the database. *)
Definition moves (w w' : W) : Prop := rtc evolves (view w) (view w').

#[global] Instance moves_preorder : PreOrder moves.
Proof. split; [intros w; apply rtc_refl|]. intros w1 w2 w3. unfold moves. apply transitivity. Qed.

(** A result, if there is one, comes with a fact about the database. *)
Definition returns {A} (F : A → database → Prop) (r : res A) (w : W) : Prop := ∀ a, r = Ok a → F a (view w).

Notation upheld F p w := (upholds moves moves (returns F) p w).

Lemma stable_view P : kept P → stable moves (λ w, P (view w)).
Proof. intros HP w w' Hm. by apply kept_rtc. Qed.

Lemma stable_returns {A} (F : A → database → Prop) r : (∀ a, kept (F a)) → stable moves (returns F r).
Proof. intros HF w w' Hm Hr a Ha. eapply kept_rtc; [apply HF|exact Hm|by apply Hr]. Qed.

Lemma upheld_ret {A} (F : A → database → Prop) r w :
  (∀ a, kept (F a)) → (∀ a, r = Ok a → F a (view w)) → upheld F (mret r) w.
Proof. intros HF Hr. apply upholds_ret; [by apply stable_returns|done]. Qed.

Lemma upheld_err {A} (F : A → database → Prop) e w : (∀ a, kept (F a)) → upheld F (mret (Err e)) w.
Proof. intros HF. by apply upheld_ret. Qed.

(** Sequencing, with a fact [K] that is carried along. *)
Lemma upheld_bind {A B} (K : database → Prop) (F : A → database → Prop) (G : B → database → Prop)
    (p : prog W (res A)) (f : A → prog W (res B)) w :
  kept K → (∀ b, kept (G b)) → K (view w) → upheld F p w →
  (∀ a w', K (view w') → F a (view w') → upheld G (f a) w') → upheld G (rbind f p) w.
Proof.
  intros HK HG Hw Hp Hf. eapply (upholds_rthen moves moves) with (R1 := λ a w', K (view w') ∧ F a (view w')).
  - intros e. by apply stable_returns.
  - eapply upholds_conseq; [eapply (upholds_keep _ _ (λ w, K (view w)))|].
    + by apply stable_view.
    + intros w1 w2 Hm. by apply kept_rtc.
    + done.
    + exact Hp.
    + intros [a|e] w' [HKw Hr]; [split; [done|by apply Hr]|done].
  - intros a w' [HKw HF]. by apply Hf.
Qed.

(** Whatever follows a result, when nothing is asked of the first value. *)
Lemma upheld_after {A B} (F : B → database → Prop) (p : prog W A) (f : A → prog W (res B)) w :
  upholds moves moves (λ _ _, True) p w → (∀ a w', upheld F (f a) w') → upheld F (p ≫= f) w.
Proof. intros Hp Hf. eapply (upholds_then moves moves); [exact Hp|]. intros a w' _. apply Hf. Qed.

Lemma upheld_wrapping {A} (F : A → database → Prop) format (p : prog W (res A)) w :
  (∀ a, kept (F a)) → upheld F p w → upheld F (wrapping format p) w.
Proof.
  intros HF Hp. eapply (upholds_then moves moves); [exact Hp|]. intros [a|e] w' Hr; [|by apply upheld_err].
  apply upheld_ret; [done|]. intros a' [= <-]. by apply Hr.
Qed.

(** Actions that leave the database alone. *)
Lemma upholds_quiet {X} (act : W → list (W * X)) w :
  keeps_view view act → upholds moves moves (λ _ _, True) (await act) w.
Proof.
  intros Ha. eapply (upholds_await _ _ (λ _, True)); [by intros ???|by intros ????|done|].
  intros w1 w2 x _ Hin. split; [|done]. unfold moves. by rewrite (Ha w1 w2 x Hin).
Qed.

Lemma scan_error_rows : Is scan_error ErrNoRows = false.
Proof. reflexivity. Qed.

(** A query for one row. *)
Lemma upholds_QueryRow {X} stmt args ans (conv : sqlValue → res X) (P : database → Prop)
    (F : res X → database → Prop) q c w :
  asks D view stmt args ans → kept P → (∀ r, kept (F r)) → P (view w) →
  (∀ v e, conv v = Err e → Is e ErrNoRows = false) →
  (∀ d rows, P d → ans d rows → F (scan_one conv (Ok (rows, None))) d) →
  (∀ d e, Is e ErrNoRows = false → F (Err e) d) →
  upholds moves moves (λ r w', F r (view w')) (QueryRow D q c stmt args conv) w.
Proof.
  intros Ha HP HF Hw Hconv Hok Herr. unfold QueryRow.
  eapply (upholds_then moves moves) with (R1 := λ r w', F (scan_one conv r) (view w')).
  - eapply (upholds_await _ _ (λ w, P (view w))); [by apply stable_view| |done|].
    + intros r. apply (stable_view (F (scan_one conv r))), HF.
    + intros w1 w2 r HP1 Hin. destruct (Ha q c w1 w2 r Hin) as [Hv Hr]. split; [unfold moves; by rewrite Hv|].
      rewrite Hv. destruct r as [[rows [e|]]|e]; [|by apply Hok|by apply Herr].
      destruct rows as [|[|v [|]] rows]; simpl; try by apply Herr.
      destruct (conv v) as [x|e'] eqn:Hc; simpl; apply Herr; [done|by eapply Hconv].
  - intros r w' Hr. apply upholds_ret; [apply (stable_view (F (scan_one conv r))), HF|done].
Qed.

(** ... whose result only matters when there is one. *)
Lemma upheld_QueryRow {X} stmt args ans (conv : sqlValue → res X) (F : X → database → Prop) q c w :
  asks D view stmt args ans → (∀ x, kept (F x)) →
  (∀ v e, conv v = Err e → Is e ErrNoRows = false) →
  (∀ d rows x, ans d rows → scan_one conv (Ok (rows, None)) = Ok x → F x d) →
  upheld F (QueryRow D q c stmt args conv) w.
Proof.
  intros Ha HF Hconv Hok. eapply (upholds_QueryRow _ _ _ _ (λ _, True)
    (λ r d, ∀ x, r = Ok x → F x d)); try done.
  - intros r d d' Hd Hr x Hx. eapply HF; [exact Hd|]. by apply Hr.
  - intros d rows _ Hans x Hx. by eapply Hok.
Qed.

Lemma to_string_rows v e : to_string v = Err e → Is e ErrNoRows = false.
Proof. destruct v; naive_solver. Qed.
Lemma to_int64_rows v e : to_int64 v = Err e → Is e ErrNoRows = false.
Proof. destruct v; simpl; [naive_solver|done|]. case_match; naive_solver. Qed.
Lemma to_null_int64_rows v e : to_null_int64 v = Err e → Is e ErrNoRows = false.
Proof. destruct v; simpl; [done|done|]. case_match; naive_solver. Qed.

(** A statement. *)
Lemma upheld_Exec stmt args pre effect (P F : database → Prop) q c w :
  does D view stmt args pre effect → kept P → kept F → P (view w) →
  (∀ d, P d → pre d) →
  (∀ d d', P d → effect d = Some d' → (d' = d ∨ evolves d d') ∧ F d') →
  upheld (λ _ : unit, F) (Exec D q c stmt args) w.
Proof.
  intros Hdoes HP HF Hw Hpre Heff.
  eapply (upholds_await _ _ (λ w, P (view w))); [by apply stable_view| |done|].
  - intros r. by apply stable_returns.
  - intros w1 w2 r HP1 Hin. destruct (Hdoes q c w1 w2 r Hin (Hpre _ HP1)) as [He|[Hr Hv]].
    + destruct (Heff _ _ HP1 He) as [Hd HFd]. split.
      * unfold moves. destruct Hd as [-> |Hd]; [done|by apply rtc_once].
      * by intros [] _.
    + split; [unfold moves; by rewrite Hv|]. by intros [] ->.
Qed.

(** *** The steps of a migration *)

Definition absent (t : string) (b : bool) (d : database) : Prop := b = false → unowned t d.

Lemma kept_absent t b : kept (absent t b).
Proof. unfold absent. auto with mysql. Qed.

Lemma upheld_TableExists c q t w : upheld (absent t) (mysqlTableExists D c q t) w.
Proof.
  unfold mysqlTableExists. eapply (upheld_bind (λ _, True) (λ n, absent t (0 <? n))); [done|apply kept_absent|done| |].
  - eapply upheld_QueryRow; [apply (srv_tables D view server)|intros; apply kept_absent|apply to_int64_rows|].
    simpl. intros d rows n -> [= <-] Hb. case_decide as Hdec; [done|]. left. by apply eq_None_not_Some.
  - intros n w' _ Hn. apply upheld_ret; [apply kept_absent|]. by intros b [= <-].
Qed.

Lemma mysqlTableExists_any c q t w : upheld (λ _ _, True) (mysqlTableExists D c q t) w.
Proof. eapply upholds_conseq; [apply upheld_TableExists|]. by intros r w' _ b _. Qed.
End migration.

(** A table that is accepted has the columns of the map literal. *)
Lemma scan_columns_ok cols seen seen' :
  scan_columns (column_row <$> cols) seen = Ok seen' →
  seen' = foldl (λ m p, <[p.1 := p.2]> m) seen (column_shape <$> cols).
Proof.
  revert seen. induction cols as [|x cols IH]; intros seen; simpl; [by intros [= <-]|]. apply IH.
Qed.

Lemma foldl_inserts {A} (l : list (string * A)) (m : gmap string A) :
  NoDup l.*1 → (∀ k, k ∈ l.*1 → m !! k = None) →
  foldl (λ m p, <[p.1 := p.2]> m) m l = list_to_map l ∪ m.
Proof.
  revert m. induction l as [|[k x] l IH]; intros m Hnd Hm; simpl; [by rewrite (left_id_L ∅ (∪))|].
  inversion_clear Hnd as [|? ? Hk Hnd']. rewrite IH; [|done|].
  - rewrite <-insert_union_l, <-insert_union_r; [done|]. by apply not_elem_of_list_to_map.
  - intros k' Hk'. rewrite lookup_insert_ne by (intros <-; done). apply Hm. by right.
Qed.

Lemma expected_nodup : NoDup expected.
Proof. apply (bool_decide_unpack _). vm_compute. reflexivity. Qed.

Lemma expected_shapes : Forall (λ p, p.2 ≠ "") expected.
Proof. apply (bool_decide_unpack _). vm_compute. reflexivity. Qed.

Lemma columns_match cols seen :
  NoDup (c_name <$> cols) → scan_columns (column_row <$> cols) ∅ = Ok seen →
  size seen = length expected → mismatched seen = [] → column_shape <$> cols ≡ₚ expected.
Proof.
  intros Hnd Hs%scan_columns_ok Hsize Hm. assert ((column_shape <$> cols).*1 = c_name <$> cols) as Hfst.
  { rewrite <-list_fmap_compose. by apply list_fmap_ext. }
  rewrite foldl_inserts in Hs; [|by rewrite Hfst|by intros; rewrite lookup_empty].
  rewrite (right_id_L ∅ (∪)) in Hs. subst seen. symmetry. apply submseteq_length_Permutation.
  - apply NoDup_submseteq; [apply expected_nodup|]. intros [k x] Hin.
    apply (elem_of_list_to_map_2 (M := gmap string)).
    assert (got (list_to_map (column_shape <$> cols)) k = x) as Hgot.
    { apply dec_stable. intros Hne. assert ((k, x) ∈ mismatched (list_to_map (column_shape <$> cols))) as Hx.
      { apply list_elem_of_filter. by split. }
      rewrite Hm in Hx. by apply elem_of_nil in Hx. }
    pose proof expected_shapes as Hshapes. rewrite Forall_forall in Hshapes. specialize (Hshapes _ Hin). simpl in Hshapes.
    unfold got in Hgot. destruct (_ !! k); simpl in Hgot; [by f_equal|]. by subst.
  - rewrite <-Hsize, map_size_list_to_map; [done|by rewrite Hfst].
Qed.

Section migrations.
Context {W H : Type} `{!Has ctxs W} (D : driver W H) (view : W → database).
Context (server : mysql_server D view).
Notation upheld F p w := (upholds (moves view) (moves view) (returns view F) p w).

(** The answer of the columns query, while the table keeps its shape. *)
Definition described (t : string) (rows : list (list sqlValue)) (d : database) : Prop :=
  rows ≠ [] → ∃ tb cols, d !! t = Some tb ∧ column_row <$> cols = rows ∧ NoDup (c_name <$> cols) ∧ cols ≡ₚ t_columns tb.
Definition has_columns (t : string) (d : database) : Prop :=
  ∃ tb, d !! t = Some tb ∧ column_shape <$> t_columns tb ≡ₚ expected.
Definition has_key (t : string) (d : database) : Prop :=
  ∃ tb, d !! t = Some tb ∧ head (t_primary tb) = Some "key_digest".

Lemma kept_described t rows : kept (described t rows).
Proof.
  intros d d' Hd Hr Hne. destruct (Hr Hne) as (tb & cols & Ht & ? & ? & ?).
  destruct (evolves_shape d d' t tb Hd Ht) as (tb' & Ht' & Hc & _). exists tb', cols. by rewrite Hc.
Qed.

Lemma kept_columns t : kept (has_columns t).
Proof.
  intros d d' Hd (tb & Ht & Hc). destruct (evolves_shape d d' t tb Hd Ht) as (tb' & Ht' & Hc' & _).
  exists tb'. by rewrite Hc'.
Qed.

Lemma kept_key t n : kept (λ d, (n =? 1) = true → has_key t d).
Proof.
  intros d d' Hd Hk Hn. destruct (Hk Hn) as (tb & Ht & Hp).
  destruct (evolves_shape d d' t tb Hd Ht) as (tb' & Ht' & _ & Hp'). exists tb'. by rewrite Hp'.
Qed.

Lemma upheld_compare t seen w :
  upheld (λ _ _, mismatched seen = []) (compare_columns (W := W) t seen) w.
Proof.
  unfold compare_columns. destruct (mismatched seen) as [|m ms] eqn:Hm; [by apply upheld_ret; try done|].
  eapply (upholds_await _ _ (λ _, True)); [done| |done|].
  - intros r. by apply stable_returns.
  - intros w1 w2 r _ Hin. apply list_elem_of_fmap in Hin as (p & [= -> ->] & _). split; [|by intros a].
    unfold moves. done.
Qed.

Lemma upheld_validate c q t w : upheld (λ _, matching t) (validateMySQLCacheSchemaV1 D c q t) w.
Proof.
  assert (∀ u : unit, kept (matching t)) as Hkept by (intros; intros d d'; apply evolves_matching).
  unfold validateMySQLCacheSchemaV1.
  eapply (upheld_bind view (λ _, True) (λ a d, a.2 = None → described t a.1 d)); [done|done|done| |].
  { apply upheld_wrapping; [intros a; apply kept_impl, kept_described|].
    eapply (upholds_await _ _ (λ _, True)); [done| |done|].
    - intros r. apply stable_returns. intros a. apply kept_impl, kept_described.
    - intros w1 w2 r _ Hin. destruct (srv_columns D view server t q c w1 w2 r Hin) as [Hv Hr].
      split; [unfold moves; by rewrite Hv|]. intros [rows e] -> He Hne. simpl in *. subst e. rewrite Hv.
      destruct Hr as (cols & <- & Hnd & Hp). destruct (view w1 !! t) as [tb|].
      + by exists tb, cols.
      + apply Permutation_nil_r in Hp. by subst. }
  intros [rows e] w1 _ Hd. simpl in Hd. cbn [fst snd].
  destruct (scan_columns rows ∅) as [seen|err] eqn:Hs; [|by apply upheld_err].
  destruct e as [e|]; [by apply upheld_err|]. specialize (Hd eq_refl).
  destruct (Nat.eqb_spec (size seen) (length expected)) as [Hsize|]; [|by apply upheld_err]. cbn [negb].
  eapply (upheld_bind view (described t rows) (λ _ _, mismatched seen = []));
    [apply kept_described|done|done|by apply upheld_compare|].
  intros [] w2 Hd2 Hm.
  assert (has_columns t (view w2)) as Hcols.
  { destruct Hd2 as (tb & cols & Ht & Hrows & Hnd & Hp).
    - intros ->. injection Hs as <-. rewrite map_size_empty in Hsize. discriminate Hsize.
    - exists tb. split; [done|]. rewrite <-Hp. subst rows. by eapply columns_match. }
  eapply (upheld_bind view (has_columns t) (λ n d, (n =? 1) = true → has_key t d));
    [apply kept_columns|done|done| |].
  { apply upheld_wrapping; [intros n; apply kept_key|].
    eapply upheld_QueryRow; [apply (srv_primary D view server)|intros; apply kept_key|apply to_int64_rows|].
    simpl. intros d rs n -> [= <-] Hn. case_decide as Hdec; [|done].
    destruct (d !! t) as [tb|] eqn:Ht; [|done]. by exists tb. }
  intros n w3 (tb & Ht & Hc) Hk. destruct (n =? 1) eqn:Hn; [|by apply upheld_err]. cbn [negb].
  destruct (Hk eq_refl) as (tb' & Ht' & Hp). simplify_eq.
  apply upheld_ret; [done|]. intros _ _. by exists tb.
Qed.

(** What the version a migration reads or records says. *)
Definition version_known (t : string) (v : Z) (d : database) : Prop :=
  (v = 0 → marked t d) ∧ (v = 1 → version_of d t = Some 1).

Lemma kept_known t v : kept (version_known t v).
Proof.
  intros d d' Hd [H0 H1]. split; intros Hv; [by eapply evolves_marked, H0|by eapply evolves_final_version, H1].
Qed.

(** A marker is only inserted where there is none, hence before the table. *)
Lemma insert_marker_evolves t d d' :
  unowned t d → insert_row VT (mysqlCacheSchemaComponent t) [SqlInt 0] d = Some d' → evolves d d' ∧ marked t d'.
Proof.
  unfold insert_row. intros Hu Hi. destruct (d !! VT) as [tb|] eqn:Hv; [|done]. simpl in Hi.
  destruct (t_rows tb !! mysqlCacheSchemaComponent t) eqn:Hr; simplify_eq.
  assert (version_of d t = None) as Hnone by (unfold version_of; by rewrite Hv; simpl; rewrite Hr).
  split.
  - apply evolves_marker; [done|done|]. destruct Hu as [Hu|[Hu|[z Hz]]]; [by right|by left|]. by rewrite Hnone in Hz.
  - left. rewrite version_of_set. by rewrite decide_True.
Qed.

(** A table is only created where there is none, hence while the version is 0. *)
Lemma create_cache_evolves t d d' :
  marked t d → create t cache_table d = Some d' → evolves d d'.
Proof.
  unfold create. intros Hm Hc. destruct (d !! t) eqn:Ht; simplify_eq.
  apply evolves_table; [|done]. destruct Hm as [?|[_ (tb & Htb & _)]]; [done|]. by rewrite Ht in Htb.
Qed.

(** The version is only set over a table that matches. *)
Lemma update_evolves t d d' :
  marked t d → matching t d → bump (mysqlCacheSchemaComponent t) 1 d = Some d' →
  (d' = d ∨ evolves d d') ∧ ready t d'.
Proof.
  unfold bump. intros Hm (ctb & Ht & Hmatch) Hb. destruct (d !! VT) as [tb|] eqn:Hv; [|done]. simpl in Hb.
  assert (version_of d t = match t_rows tb !! mysqlCacheSchemaComponent t with Some [SqlInt z] => Some z | _ => None end)
    as Hver by (unfold version_of; by rewrite Hv).
  destruct Hm as [Hz|Hready].
  - rewrite Hver in Hz. destruct (t_rows tb !! _) as [[|[|z|] [|]]|] eqn:Hr; try discriminate Hz.
    injection Hz as ->. injection Hb as <-.
    assert (evolves d (<[VT := set_row (mysqlCacheSchemaComponent t) [SqlInt 1] tb]> d)) as Hev
      by (by eapply evolves_final).
    split; [by right|]. split; [by rewrite version_of_set, decide_True|].
    eapply evolves_matching; [exact Hev|]. by exists ctb.
  - destruct Hready as [H1 _]. rewrite Hver in H1.
    destruct (t_rows tb !! _) as [[|[|z|] [|]]|] eqn:Hr; try discriminate H1. injection H1 as ->.
    injection Hb as <-. split; [by left|]. split; [by rewrite Hver|by exists ctb].
Qed.

Lemma version_row d tb t cells v :
  d !! VT = Some tb → version_shape tb → t_rows tb !! mysqlCacheSchemaComponent t = Some cells →
  scan_one to_int64 (Ok ([cells], None)) = Ok v → version_of d t = Some v.
Proof.
  intros Hv (_ & _ & Hrows) Hr Hscan. unfold version_of. rewrite Hv. simpl. rewrite Hr.
  destruct (Hrows _ _ Hr) as [z ->]. simpl in Hscan. by simplify_eq.
Qed.

Lemma upheld_version c q t b w :
  versions_wf (view w) → absent t b (view w) → upheld (version_known t) (recorded_version D c q t b) w.
Proof.
  intros Hwf Habs. unfold recorded_version.
  eapply (upholds_then (moves view) (moves view)).
  { eapply (upholds_keep _ _ (λ w, versions_wf (view w) ∧ absent t b (view w))).
    - apply (stable_view view (λ d, versions_wf d ∧ absent t b d)), kept_and; [intros d d'; apply evolves_wf|apply kept_absent].
    - intros w1 w2. apply (kept_rtc (λ d, versions_wf d ∧ absent t b d)), kept_and; [intros d d'; apply evolves_wf|apply kept_absent].
    - done.
    - eapply (upholds_QueryRow D view _ _ _ _ versions_wf (λ r d, ∀ v, r = Ok v → version_known t v d));
        [apply (srv_version D view server)|intros d d'; apply evolves_wf| |done|apply to_int64_rows| |done].
      + intros r d d' Hd Hr v Hv. eapply kept_known; [exact Hd|by apply Hr].
      + intros d rows Hwfd (tb & Hv & Hrows) v. rewrite Hrows by by apply Hwfd.
        destruct (t_rows tb !! _) as [cells|] eqn:Hr; [|done]. cbn [option_list]. intros Hscan.
        pose proof (version_row d tb t cells v Hv (Hwfd _ Hv) Hr Hscan) as Hver.
        split; intros ->; [by left|done]. }
  intros [v|e] w1 [[Hwf1 Habs1] Hr].
  { apply upheld_ret; [apply kept_known|]. intros v' [= <-]. by apply Hr. }
  destruct (Is e ErrNoRows); [|apply upheld_err, kept_known].
  destruct b; [apply upheld_err, kept_known|].
  eapply (upheld_bind view (λ _, True) (λ _, marked t)); [done|apply kept_known|done| |].
  - apply upheld_wrapping; [intros; intros d d'; apply evolves_marked|].
    eapply (upheld_Exec D view _ _ _ _ (λ d, versions_wf d ∧ unowned t d));
      [apply (srv_marker D view server)| |intros d d'; apply evolves_marked| |by intros d []|].
    + apply kept_and; [intros d d'; apply evolves_wf|intros d d'; apply evolves_unowned].
    + split; [done|by apply Habs1].
    + intros d d' [_ Hu] Hi. destruct (insert_marker_evolves t d d' Hu Hi). split; [by right|done].
  - intros _ w2 _ Hm. apply upheld_ret; [apply kept_known|]. intros v [= <-]. by split.
Qed.

Lemma kept_wf_absent t b : kept (λ d, versions_wf d ∧ absent t b d).
Proof. apply kept_and; [intros d d'; apply evolves_wf|apply kept_absent]. Qed.

Lemma kept_any_ready t : ∀ u : unit, kept (ready t).
Proof. intros _ d d'. apply evolves_ready. Qed.

(** The version table is there, or is made. *)
Lemma upheld_version_table c q t (vb b : bool) w :
  upheld (λ _ _, True)
    (if negb vb then
       if b then mret (Err (Errorf "mysql cache: unversioned prototype table %q detected; recreate it or migrate it explicitly" [ArgStr t]))
       else wrapping "create schema version table: %w" (Exec D q c create_version_table [])
     else mret (Ok tt)) w.
Proof.
  destruct vb; cbn [negb]; [by apply upheld_ret|]. destruct b; [by apply upheld_err|].
  apply upheld_wrapping; [done|].
  eapply (upheld_Exec D view _ _ _ _ (λ _, True)); [apply (srv_create_versions D view server)|done..|].
  intros d d' _ Hc. split; [|done]. right. unfold create in Hc. destruct (d !! VT) eqn:Hv; simplify_eq.
  by apply evolves_versions.
Qed.

(** The cache table is there, or is made under the marker. *)
Lemma upheld_cache_table c q t (b : bool) w :
  mysqlIdentifier t = true → marked t (view w) →
  upheld (λ _ _, True) (if negb b then createMySQLCacheSchemaV1 D c q t else mret (Ok tt)) w.
Proof.
  intros Hid Hm. destruct b; cbn [negb]; [by apply upheld_ret|].
  apply upheld_wrapping; [done|].
  eapply (upheld_Exec D view _ _ _ _ (marked t) (λ _, True)); [by apply (srv_create_cache D view server)| |done|done|done|].
  - intros d d'. apply evolves_marked.
  - intros d d' Hd Hc. split; [|done]. right. by eapply create_cache_evolves.
Qed.

Lemma upheld_schema c q t w :
  mysqlIdentifier t = true → versions_wf (view w) →
  upheld (λ _, ready t) (migrate_schema D c q t) w.
Proof.
  intros Hid Hwf. unfold migrate_schema. pose proof (kept_any_ready t) as Hready.
  assert (kept versions_wf) as Hkwf by (intros d d'; apply evolves_wf).
  eapply (upheld_bind view versions_wf (λ _ _, True)); [done..| |].
  { by apply upheld_wrapping, mysqlTableExists_any. }
  intros vb w1 Hwf1 _. eapply (upheld_bind view versions_wf (absent t)); [done..| |].
  { apply upheld_wrapping; [intros; apply kept_absent|]. by apply upheld_TableExists. }
  intros b w2 Hwf2 Habs. eapply (upheld_bind view (λ d, versions_wf d ∧ absent t b d) (λ _ _, True));
    [apply kept_wf_absent|done|done|apply upheld_version_table|].
  intros _ w3 [Hwf3 Habs3] _. eapply (upheld_bind view versions_wf (version_known t)); [done|done|done|by apply upheld_version|].
  intros v w4 Hwf4 [H0 H1]. destruct (Z.eqb_spec v 0) as [Hv|_].
  - assert (kept (λ d, versions_wf d ∧ marked t d)) as Hk
      by (apply kept_and; [done|intros d d'; apply evolves_marked]).
    eapply (upheld_bind view (λ d, versions_wf d ∧ marked t d) (λ _ _, True)); [done|done|by split; [|apply H0]| |].
    { by apply upheld_cache_table, H0. }
    intros _ w5 Hm _. eapply (upheld_bind view (λ d, versions_wf d ∧ marked t d) (λ _, matching t));
      [done|done|done|by apply upheld_validate|].
    intros _ w6 Hm6 Hmatch. apply upheld_wrapping; [done|].
    eapply (upheld_Exec D view _ _ _ _ (λ d, (versions_wf d ∧ marked t d) ∧ matching t d));
      [apply (srv_update D view server)| |exact (Hready tt)|done|by intros d [[? _] _]|].
    + apply kept_and; [done|intros d d'; apply evolves_matching].
    + intros d d' [[_ Hmd] Hmt]. by apply update_evolves.
  - destruct (Z.eqb_spec v mysqlCacheSchemaV1) as [Hv|_]; cbn [negb]; [|by apply upheld_err].
    destruct b; cbn [negb]; [|by apply upheld_err].
    eapply upholds_conseq; [eapply (upholds_keep _ _ (λ w, version_of (view w) t = Some 1))|].
    + apply (stable_view view (λ d, version_of d t = Some 1)). intros d d'. apply evolves_final_version.
    + intros w5 w6. apply (kept_rtc (λ d, version_of d t = Some 1)). intros d d'. apply evolves_final_version.
    + by apply H1.
    + by apply upheld_validate.
    + intros r w5 [Hver Hr] u Hu. split; [done|by eapply Hr].
Qed.

(** A deferred call after the result. *)
Lemma upheld_finally {A X} (F : A → database → Prop) (p : prog W (res A)) (q : prog W X) w :
  (∀ a, kept (F a)) → upheld F p w → (∀ w, upholds (moves view) (moves view) (λ _ _, True) q w) →
  upheld F (r ← p; _ ← q; mret r) w.
Proof.
  intros HF Hp Hq. eapply (upholds_then (moves view) (moves view)); [exact Hp|]. intros r w1 Hr.
  eapply (upholds_then (moves view) (moves view) (λ _ w, returns view F r w)).
  - eapply upholds_conseq; [eapply (upholds_keep _ _ (returns view F r)); [|..|apply Hq]|].
    + by apply stable_returns.
    + intros w2 w3 Hm Hr2. by eapply stable_returns.
    + exact Hr.
    + by intros x w2 [? _].
  - intros x w2 Hr2. by apply upheld_ret.
Qed.

Lemma upheld_lock_free conn name w :
  upholds (moves view) (moves view) (λ _ _, True) (QueryRow D conn [] release_lock [SqlBytes name] to_null_int64) w.
Proof.
  eapply (upholds_QueryRow D view _ _ _ _ (λ _, True) (λ _ _, True));
    [apply (srv_unlock D view server)|done|done|done|apply to_null_int64_rows|done|done].
Qed.

Lemma upheld_migrate db c t w :
  mysqlIdentifier t = true → versions_wf (view w) → upheld (λ _, ready t) (migrate D db c t) w.
Proof.
  intros Hid Hwf. pose proof (kept_any_ready t) as Hready.
  assert (kept versions_wf) as Hkwf by (intros d d'; apply evolves_wf).
  unfold migrate. eapply (upheld_bind view versions_wf (λ _ _, True)); [done..| |].
  { eapply upholds_conseq; [by apply upholds_quiet, (srv_conn D view server)|]. by intros r w' _ a _. }
  intros conn w1 Hwf1 _.
  apply upheld_finally; [done| |intros w'; by apply upholds_quiet, (srv_close D view server)].
  unfold migrate_on. eapply (upheld_bind view versions_wf (λ _ _, True)); [done..| |].
  { apply upheld_wrapping; [done|].
    eapply upheld_QueryRow; [apply (srv_database D view server)|done|apply to_string_rows|done]. }
  intros name w2 Hwf2 _. eapply (upheld_bind view versions_wf (λ _ _, True)); [done..| |].
  { apply upheld_wrapping; [done|].
    eapply upheld_QueryRow; [apply (srv_lock D view server)|done|apply to_null_int64_rows|done]. }
  intros acquired w3 Hwf3 _. destruct (negb _); [by apply upheld_err|].
  apply upheld_finally; [done|by apply upheld_schema|apply upheld_lock_free].
Qed.

Lemma upholds_set h s w :
  upholds (moves view) (moves view) (λ _ _, True) (modify (sql_Set D h s)) w.
Proof.
  apply upholds_quiet. intros w1 w2 x Hin. apply list_elem_of_singleton in Hin. simplify_eq.
  apply (srv_set D view server).
Qed.

Lemma upheld_pool dsn n1 n2 n3 n4 w : upheld (λ _ _, True) (openMySQLPool D dsn n1 n2 n3 n4) w.
Proof.
  unfold openMySQLPool. eapply (upheld_bind view (λ _, True) (λ _ _, True)); [done..| |].
  { eapply upholds_conseq; [by apply upholds_quiet, (srv_open D view server)|]. by intros r w' _ a _. }
  intros db w1 _ _. repeat (apply upheld_after; [apply upholds_set|intros _ ?]). by apply upheld_ret.
Qed.

Lemma check_options_ok opts t n :
  check_options opts = Ok (t, n) → mysqlIdentifier t = true ∧ 1 ≤ n ≤ mysqlMediumTextMax.
Proof.
  unfold check_options. intros Hc. case_decide; [done|].
  destruct (mysqlIdentifier _) eqn:Hid; [|done]. cbn [negb] in Hc.
  destruct (Z.ltb_spec (if my_MaxEntryBytes opts =? 0 then mysqlMediumTextMax else my_MaxEntryBytes opts) 1); [done|].
  destruct (Z.ltb_spec mysqlMediumTextMax (if my_MaxEntryBytes opts =? 0 then mysqlMediumTextMax else my_MaxEntryBytes opts)); [done|].
  injection Hc as <- <-. done.
Qed.

Lemma upheld_NewMySQLCache c opts w :
  versions_wf (view w) → upheld (λ cache, ready (mc_table cache)) (NewMySQLCache D c opts) w.
Proof.
  intros Hwf. unfold NewMySQLCache.
  assert (∀ cache : MySQLCache H, kept (ready (mc_table cache))) as Hready by (intros cache; apply (kept_any_ready _ tt)).
  assert (kept versions_wf) as Hkwf by (intros d d'; apply evolves_wf).
  destruct (check_options opts) as [[t n]|e] eqn:Ho; [|by apply upheld_err].
  destruct (check_options_ok opts t n Ho) as [Hid _].
  eapply (upheld_bind view versions_wf (λ _ _, True)); [done..|by apply upheld_wrapping, upheld_pool|].
  intros db w1 Hwf1 _. eapply (upholds_then (moves view) (moves view)); [by apply upheld_migrate|].
  intros [[]|e] w2 Hr.
  - apply upheld_ret; [done|]. intros cache [= <-]. by apply (Hr tt).
  - apply upheld_after; [|intros; by apply upheld_err]. by apply upholds_quiet, (srv_close D view server).
Qed.
End migrations.

(** ** Any number of constructors *)

(** C14: Any number of [NewMySQLCache] calls that share a database, interleaved in any
    way with one another and with users of flowkit's tables, failing at any statement
    with or without its effect, and interrupted at any moment: the database only
    evolves.  No table that exists is dropped or altered, so a table flowkit did not
    make is never adopted; a table's version moves from the marker to 1 only; what
    an interrupted migration leaves is recoverable; and a cache that was returned has
    its table, validated, at version 1. *)
Theorem migrations_safe {W H} `{!Has ctxs W} (D : driver W H) (view : W → database) (Env : W → W → Prop)
    (calls : list (option ctx * MySQLCacheOptions)) w w' ts :
  mysql_server D view → (∀ w w', Env w w' → moves view w w') → versions_wf (view w) →
  rtc (pool_step Env) (w, (λ call, NewMySQLCache D call.1 call.2) <$> calls) (w', ts) →
  (∀ t, t ≠ VT → recoverable t (view w) → recoverable t (view w')) ∧
  (∀ t tb, view w !! t = Some tb → ∃ tb', view w' !! t = Some tb' ∧ same_shape tb tb') ∧
  (∀ t z, version_of (view w) t = Some z → version_of (view w') t = Some z ∨ (z = 0 ∧ ready t (view w'))) ∧
  (∀ i cache, ts !! i = Some (Ret (Ok cache)) → ready (mc_table cache) (view w')).
Proof.
  intros server Henv Hwf Hs.
  destruct (pool_steps_uphold (moves view) (moves view) Env
              (λ _, returns view (λ cache, ready (mc_table cache))) Henv ltac:(done) _ _ Hs) as [Hm Hts].
  { intros i p Hp. simpl in Hp. rewrite list_lookup_fmap in Hp. apply fmap_Some in Hp as (call & _ & ->). by apply upheld_NewMySQLCache. }
  simpl in Hm. split_and!.
  - intros t Ht. apply (kept_rtc (recoverable t)); [|done]. intros d d'. by apply evolves_recoverable.
  - intros t tb Ht. apply (kept_rtc (λ d, ∃ tb', d !! t = Some tb' ∧ same_shape tb tb') (view w)); [|done|].
    + intros d d' Hd (tb1 & H1 & Hs1). destruct (evolves_shape d d' t tb1 Hd H1) as (tb2 & H2 & Hs2).
      exists tb2. split; [done|]. destruct Hs1 as [Hc Hp], Hs2 as [Hc' Hp']. split; congruence.
    + exists tb. split; [done|apply same_shape_refl].
  - intros t z Hz. apply (kept_rtc (λ d, version_of d t = Some z ∨ (z = 0 ∧ ready t d)) (view w)); [|done|by left].
    intros d d' Hd [Hv|[-> Hr]]; [|right; split; [done|by eapply evolves_ready]].
    destruct (evolves_version d d' t z Hd Hv) as [?|(-> & ? & ?)]; [by left|right; by split].
  - intros i cache Hi. by apply (pool_returned (moves view) (moves view) _ _ i (Ok cache) Hts Hi).
Qed.
