(* ===== verification/MysqlRecovery.v ===== *)
(** * The MySQL cache: recovery

    [in_service] says what a working server does.  A constructor that meets one
    finishes whatever migration was interrupted before it
    ([NewMySQLCache_recovers]). *)

From S2P Require Import Prelude GoError GoStrings Go Rely Digest Json JsonProofs Fsutil Cache Mysql MysqlProofs.

(** ** A server in service *)

Section healthy.
Context {W H : Type} (D : driver W H) (view : W → database) (healthy : ctx → W → Prop).

(** The action never blocks, its result is [good] and the server stays in service. *)
Definition serves {X} (act : W → list (W * X)) (c : ctx) (w : W) (good : X → Prop) : Prop :=
  act w ≠ [] ∧ ∀ w' x, (w', x) ∈ act w → good x ∧ healthy c w'.

Definition completes (r : res rowset) : Prop := ∃ rows, r = Ok (rows, None).

(** [healthy c w]: the server is in service at [w] for the context [c]. *)
Record in_service : Prop := {
  hl_open n dsn c w : healthy c w → serves (sql_Open D n dsn) c w (λ r, is_ok r = true);
  hl_set h s c w : healthy c w → healthy c (sql_Set D h s w);
  hl_close h c w : healthy c w → serves (sql_Close D h) c w (λ _, True);
  hl_conn h c w : healthy c w → serves (sql_Conn D h c) c w (λ r, is_ok r = true);
  hl_database h c w : healthy c w →
    serves (sql_Query D h c select_database []) c w (λ r, ∃ name, r = Ok ([[SqlBytes name]], None));
  hl_lock h c name w : healthy c w →
    serves (sql_Query D h c get_lock [SqlBytes name]) c w (λ r, r = Ok ([[SqlInt 1]], None));
  hl_unlock h c name w : healthy c w → serves (sql_Query D h [] release_lock [SqlBytes name]) c w (λ _, True);
  hl_tables h c t w : healthy c w → serves (sql_Query D h c count_tables [SqlBytes t]) c w completes;
  hl_columns h c t tb w : healthy c w → view w !! t = Some tb → cache_shape tb →
    serves (sql_Query D h c select_columns [SqlBytes t]) c w completes;
  hl_primary h c t w : healthy c w → serves (sql_Query D h c count_primary [SqlBytes t]) c w completes;
  hl_version h c k w : healthy c w → is_Some (view w !! VT) →
    serves (sql_Query D h c select_version [SqlBytes k]) c w completes;
  hl_create_versions h c w : healthy c w → is_Some (create VT version_table (view w)) →
    serves (sql_Exec D h c create_version_table []) c w (λ r, r = Ok tt);
  hl_create_cache h c t w : mysqlIdentifier t = true → healthy c w → is_Some (create t cache_table (view w)) →
    serves (sql_Exec D h c (create_cache_table t) []) c w (λ r, r = Ok tt);
  hl_marker h c t w : mysqlIdentifier t = true → healthy c w →
    is_Some (insert_row VT (mysqlCacheSchemaComponent t) [SqlInt 0] (view w)) →
    serves (sql_Exec D h c insert_marker [SqlBytes (mysqlCacheSchemaComponent t)]) c w (λ r, r = Ok tt);
  hl_update h c v k w : healthy c w → is_Some (bump k v (view w)) →
    serves (sql_Exec D h c update_version [SqlInt v; SqlBytes k]) c w (λ r, r = Ok tt);
}.
End healthy.

Section recovery.
Context {W H : Type} `{!Has ctxs W} (D : driver W H) (view : W → database) (healthy : ctx → W → Prop).
Context (server : mysql_server D view) (service : in_service D view healthy).

(** After a query the server is in service with the same database; after a
    statement, with what the statement makes of it. *)
Definition now (c : ctx) (d : database) (w : W) : Prop := healthy c w ∧ view w = d.
Notation fine Q p w := (surely (succeeds Q) p w).

Lemma fine_ret {A} (Q : A → W → Prop) a w : Q a w → fine Q (mret (Ok a)) w.
Proof. intros HQ. apply surely_ret. by exists a. Qed.

Lemma fine_wrapping {A} (Q : A → W → Prop) format (p : prog W (res A)) w : fine Q p w → fine Q (wrapping format p) w.
Proof. intros Hp. eapply surely_bind; [exact Hp|]. intros r w' (a & -> & Ha). by apply fine_ret. Qed.

(** A query for one row with one cell. *)
Lemma fine_QueryRow {X} stmt args ans (conv : sqlValue → res X) h c d w (F : X → Prop) (good : res rowset → Prop) :
  asks D view stmt args ans → now c d w → serves healthy (sql_Query D h c stmt args) c w good →
  (∀ r, good r → completes r) →
  (∀ rows, good (Ok (rows, None)) → ans d rows → ∃ x, scan_one conv (Ok (rows, None)) = Ok x ∧ F x) →
  fine (λ x w', F x ∧ now c d w') (QueryRow D h c stmt args conv) w.
Proof.
  intros Ha [Hh <-] [Hne Hs] Hgood Hok.
  eapply (surely_bind (λ r w', now c (view w) w' ∧ ∃ x, scan_one conv r = Ok x ∧ F x)).
  - apply surely_await; [done|]. intros w' r Hin. destruct (Hs w' r Hin) as [Hg Hh'].
    destruct (Ha h c w w' r Hin) as [Hv Hr]. split; [done|].
    destruct (Hgood r Hg) as [rows ->]. by apply Hok.
  - intros r w' [Hn (x & Hx & HF)]. rewrite Hx. by apply fine_ret.
Qed.

Lemma fine_Exec stmt args pre effect h c d d' w :
  does D view stmt args pre effect → now c d w → pre d → effect d = Some d' →
  serves healthy (sql_Exec D h c stmt args) c w (λ r, r = Ok tt) →
  fine (λ _ w', now c d' w') (Exec D h c stmt args) w.
Proof.
  intros Hdoes [Hh <-] Hpre Heff [Hne Hs]. apply surely_await; [done|]. intros w' r Hin.
  destruct (Hs w' r Hin) as [-> Hh']. exists tt. split; [done|]. split; [done|].
  destruct (Hdoes h c w w' _ Hin Hpre) as [He|[Hr _]]; [|done]. rewrite Heff in He. by injection He.
Qed.

Lemma fine_TableExists h c t d w :
  now c d w → fine (λ b w', b = bool_decide (is_Some (d !! t)) ∧ now c d w') (mysqlTableExists D c h t) w.
Proof.
  intros Hn. pose proof Hn as [Hh Hv]. unfold mysqlTableExists.
  eapply (surely_rbind (λ n w', (0 <? n) = bool_decide (is_Some (d !! t)) ∧ now c d w')).
  - eapply fine_QueryRow; [apply (srv_tables D view server)|done|by apply (hl_tables D view healthy service)|done|].
    intros rows _ ->. eexists. split; [done|]. case_decide as Hd; [by rewrite bool_decide_eq_true_2|by rewrite bool_decide_eq_false_2].
  - intros n w' [Hb Hn']. apply fine_ret. by split.
Qed.

(** A table flowkit made passes validation. *)
Lemma scan_columns_all cols seen :
  scan_columns (column_row <$> cols) seen = Ok (foldl (λ m p, <[p.1 := p.2]> m) seen (column_shape <$> cols)).
Proof. revert seen. induction cols as [|x cols IH]; intros seen; [done|]. apply IH. Qed.

Lemma seen_expected cols :
  NoDup (c_name <$> cols) → column_shape <$> cols ≡ₚ expected →
  ∃ seen, scan_columns (column_row <$> cols) ∅ = Ok seen ∧ size seen = length expected ∧ mismatched seen = [].
Proof.
  intros Hnd Hp. assert ((column_shape <$> cols).*1 = c_name <$> cols) as Hfst.
  { rewrite <-list_fmap_compose. by apply list_fmap_ext. }
  assert (NoDup (expected.*1)) as Hnd' by (rewrite <-Hp, Hfst; done).
  eexists. split; [apply scan_columns_all|].
  rewrite foldl_inserts; [|by rewrite Hfst|by intros; rewrite lookup_empty]. rewrite (right_id_L ∅ (∪)).
  rewrite (list_to_map_proper _ expected); [|by rewrite Hfst|done]. split; [by rewrite map_size_list_to_map|].
  vm_compute. reflexivity.
Qed.

Lemma fine_validate h c t d tb w :
  now c d w → d !! t = Some tb → cache_shape tb →
  fine (λ _ w', now c d w') (validateMySQLCacheSchemaV1 D c h t) w.
Proof.
  intros Hn Ht [Hcols Hkey]. pose proof Hn as [Hh Hv]. unfold validateMySQLCacheSchemaV1.
  destruct (hl_columns D view healthy service h c t tb w Hh) as [Hne Hs]; [by rewrite Hv|by split|].
  eapply (surely_rbind (λ a w', (∃ cols, a = (column_row <$> cols, None) ∧ NoDup (c_name <$> cols) ∧
                                         column_shape <$> cols ≡ₚ expected) ∧ now c d w')).
  { apply fine_wrapping, surely_await; [done|]. intros w' r Hin. destruct (Hs w' r Hin) as [[rows ->] Hh'].
    destruct (srv_columns D view server t h c w w' _ Hin) as [Hv' (cols & <- & Hnd & Hp)].
    rewrite Hv, Ht in Hp. eexists. split; [done|]. split; [|by split; [|rewrite Hv']].
    exists cols. split; [done|]. split; [done|]. by rewrite Hp. }
  intros a w1 [(cols & -> & Hnd & Hp) Hn1]. cbn [fst snd].
  destruct (seen_expected cols Hnd Hp) as (seen & -> & -> & Hm). rewrite Nat.eqb_refl. cbn [negb].
  unfold compare_columns. rewrite Hm. change (rbind ?f (mret (Ok tt))) with (f tt).
  pose proof Hn1 as [Hh1 Hv1].
  eapply (surely_rbind (λ n w', n = 1 ∧ now c d w')).
  { apply fine_wrapping. eapply fine_QueryRow; [apply (srv_primary D view server)|done| |done|].
    - by apply (hl_primary D view healthy service).
    - intros rows _ ->. exists 1. split; [|done]. rewrite Ht. simpl. by rewrite Hkey. }
  intros n w2 [-> Hn2]. by apply fine_ret.
Qed.

(** The version that is read, or recorded. *)
Lemma fine_version h c t d w :
  mysqlIdentifier t = true → now c d w → versions_wf d → is_Some (d !! VT) → recoverable t d →
  fine (λ v w', ∃ d', now c d' w' ∧ version_of d' t = Some v ∧ versions_wf d' ∧ recoverable t d' ∧ d' !! VT ≠ None ∧
                      (t ≠ VT → d' !! t = d !! t))
       (recorded_version D c h t (bool_decide (is_Some (d !! t)))) w.
Proof.
  intros Hid Hn Hwf [vtb Hv] Hrec. pose proof Hn as [Hh Hview]. unfold recorded_version.
  destruct (hl_version D view healthy service h c (mysqlCacheSchemaComponent t) w Hh) as [Hne Hs];
    [by rewrite Hview, Hv|].
  eapply (surely_bind (λ r w', now c d w' ∧ r = match version_of d t with Some v => Ok v | None => Err (Sentinel ErrNoRows) end)).
  { eapply (surely_bind (λ r w', now c d w' ∧ r = Ok (option_list (t_rows vtb !! mysqlCacheSchemaComponent t), None))).
    - apply surely_await; [done|]. intros w' r Hin. destruct (Hs w' r Hin) as [[rows ->] Hh'].
      destruct (srv_version D view server _ h c w w' _ Hin) as [Hv' (tb & Htb & Hrows)].
      rewrite Hview in *. simplify_eq. split; [by split|]. by rewrite Hrows by by apply Hwf.
    - intros r w' [Hn' ->]. apply surely_ret. split; [done|]. unfold version_of. rewrite Hv. simpl.
      destruct (t_rows vtb !! _) as [cells|] eqn:Hr; [|done].
      destruct (Hwf _ Hv) as (_ & _ & Hcells). by destruct (Hcells _ _ Hr) as [z ->]. }
  intros r w1 [Hn1 ->]. destruct (version_of d t) as [v|] eqn:Hver.
  { apply fine_ret. exists d. split_and!; [done..|by rewrite Hv|done]. }
  cbn [Is]. unfold recoverable in Hrec. rewrite Hver in Hrec. rewrite Hrec.
  change (Is (Sentinel ErrNoRows) ErrNoRows) with true. cbn iota.
  rewrite bool_decide_eq_false_2 by (by intros []).
  assert (t_rows vtb !! mysqlCacheSchemaComponent t = None) as Hrow.
  { unfold version_of in Hver. rewrite Hv in Hver. simpl in Hver.
    destruct (t_rows vtb !! _) as [cells|] eqn:Hr; [|done].
    destruct (Hwf _ Hv) as (_ & _ & Hcells). destruct (Hcells _ _ Hr) as [z ->]. done. }
  assert (insert_row VT (mysqlCacheSchemaComponent t) [SqlInt 0] d =
          Some (<[VT := set_row (mysqlCacheSchemaComponent t) [SqlInt 0] vtb]> d)) as Heff
    by (unfold insert_row; rewrite Hv; simpl; by rewrite Hrow).
  destruct (insert_marker_evolves t d _ (or_introl Hrec) Heff) as [Hev _].
  eapply surely_rbind.
  - apply fine_wrapping. eapply fine_Exec; [apply (srv_marker D view server)|exact Hn1|done|exact Heff|].
    destruct Hn1 as [Hh1 Hv1]. apply (hl_marker D view healthy service); [done|done|]. by rewrite Hv1, Heff.
  - intros [] w2 Hn2. apply fine_ret. eexists. split; [exact Hn2|]. rewrite version_of_set, decide_True by done.
    split; [done|]. split; [by eapply evolves_wf|]. split.
    + unfold recoverable. rewrite version_of_set, decide_True by done. left. split; [done|].
      destruct (decide (t = VT)) as [->|Hne']; [by rewrite Hv in Hrec|]. by rewrite lookup_insert_ne.
    + split; [by rewrite lookup_insert_eq|]. intros Hne'. by rewrite lookup_insert_ne.
Qed.

Lemma fine_version_table h c t d w :
  now c d w → versions_wf d → recoverable t d → t ≠ VT →
  fine (λ _ w', ∃ d', now c d' w' ∧ is_Some (d' !! VT) ∧ versions_wf d' ∧ recoverable t d' ∧ d' !! t = d !! t)
    (if negb (bool_decide (is_Some (d !! VT))) then
       if bool_decide (is_Some (d !! t)) then
         mret (Err (Errorf "mysql cache: unversioned prototype table %q detected; recreate it or migrate it explicitly" [ArgStr t]))
       else wrapping "create schema version table: %w" (Exec D h c create_version_table [])
     else mret (Ok tt)) w.
Proof.
  intros Hn Hwf Hrec Hne. destruct (d !! VT) as [vtb|] eqn:Hv.
  { rewrite bool_decide_eq_true_2 by done. apply fine_ret. exists d. split_and!; [done|by rewrite Hv|done..]. }
  rewrite (bool_decide_eq_false_2 (is_Some None)) by (by intros []). cbn [negb].
  assert (version_of d t = None) as Hver by (unfold version_of; by rewrite Hv).
  unfold recoverable in Hrec. rewrite Hver in Hrec. rewrite Hrec, bool_decide_eq_false_2 by (by intros []).
  assert (create VT version_table d = Some (<[VT := version_table]> d)) as Heff by (unfold create; by rewrite Hv).
  pose proof (evolves_versions d Hv) as Hev.
  eapply surely_conseq.
  - apply fine_wrapping. eapply fine_Exec; [apply (srv_create_versions D view server)|exact Hn|done|exact Heff|].
    destruct Hn as [Hh1 Hv1]. apply (hl_create_versions D view healthy service); [done|]. by rewrite Hv1, Heff.
  - intros r w' (x & -> & Hn'). exists x. split; [done|]. eexists. split; [exact Hn'|].
    rewrite lookup_insert_eq, lookup_insert_ne by done. split_and!; [done|by eapply evolves_wf| |done].
    eapply evolves_recoverable; [done|exact Hev|]. unfold recoverable. by rewrite Hver.
Qed.

Lemma fine_schema h c t d w :
  mysqlIdentifier t = true → t ≠ VT → now c d w → versions_wf d → recoverable t d →
  fine (λ _ w', healthy c w') (migrate_schema D c h t) w.
Proof.
  intros Hid Hne Hn Hwf Hrec. unfold migrate_schema.
  eapply surely_rbind; [by apply fine_wrapping, fine_TableExists|]. intros vb w1 [-> Hn1].
  eapply surely_rbind; [by apply fine_wrapping, fine_TableExists|]. intros b w2 [-> Hn2].
  eapply surely_rbind; [by apply fine_version_table|]. intros [] w3 (d3 & Hn3 & Hv3 & Hwf3 & Hrec3 & Ht3).
  rewrite <-Ht3. eapply surely_rbind; [by apply fine_version|].
  intros v w4 (d4 & Hn4 & Hver & Hwf4 & Hrec4 & _ & Ht4). rewrite <-(Ht4 Hne).
  pose proof Hrec4 as Hcase. unfold recoverable in Hcase. rewrite Hver in Hcase.
  destruct (Z.eqb_spec v 0) as [->|Hv0].
  - eapply (surely_rbind (λ _ w', ∃ d5 tb, now c d5 w' ∧ d5 !! t = Some tb ∧ cache_shape tb ∧ versions_wf d5 ∧ is_Some (d5 !! VT))).
    { destruct Hcase as [[_ Hnone]|[_ (tb & Htb & Hshape)]].
      - rewrite Hnone. rewrite bool_decide_eq_false_2 by (by intros []). cbn [negb].
        assert (create t cache_table d4 = Some (<[t := cache_table]> d4)) as Heff by (unfold create; by rewrite Hnone).
        eapply surely_conseq.
        + apply fine_wrapping. eapply fine_Exec; [by apply (srv_create_cache D view server)|exact Hn4|done|exact Heff|].
          destruct Hn4 as [Hh Hv]. apply (hl_create_cache D view healthy service); [done|done|]. by rewrite Hv, Heff.
        + intros r w5 ([] & -> & Hn5). exists tt. split; [done|]. eexists _, cache_table.
          rewrite lookup_insert_eq, lookup_insert_ne by done. split_and!; [exact Hn5|done|done|by eapply evolves_wf, Hwf4; apply evolves_table|].
          unfold version_of in Hver. by destruct (d4 !! VT).
      - rewrite bool_decide_eq_true_2 by (by eexists). cbn [negb]. apply fine_ret. exists d4, tb.
        split_and!; [done..|]. unfold version_of in Hver. by destruct (d4 !! VT). }
    intros [] w5 (d5 & tb & Hn5 & Htb & Hshape & Hwf5 & [vtb Hvt]).
    eapply surely_rbind; [by eapply fine_validate|]. intros [] w6 Hn6. apply fine_wrapping.
    assert (∃ d', bump (mysqlCacheSchemaComponent t) mysqlCacheSchemaV1 d5 = Some d') as [d' Heff].
    { unfold bump. rewrite Hvt. simpl. repeat case_match; by eexists. }
    eapply surely_conseq.
    + eapply fine_Exec; [apply (srv_update D view server)|exact Hn6|done|exact Heff|].
      destruct Hn6 as [Hh Hv]. apply (hl_update D view healthy service); [done|]. by rewrite Hv, Heff.
    + intros r w7 ([] & -> & [Hh _]). by exists tt.
  - destruct Hcase as [[-> _]|[Hz (tb & Htb & Hshape)]]; [done|].
    destruct Hz as [->| ->]; [done|]. change (1 =? mysqlCacheSchemaV1) with true. cbn [negb].
    rewrite bool_decide_eq_true_2 by (by eexists). cbn [negb].
    eapply surely_conseq; [by eapply fine_validate|]. intros r w5 (x & -> & [Hh _]). by exists x.
Qed.

Lemma fine_act {X} (act : W → list (W * res X)) c d w :
  keeps_view view act → now c d w → serves healthy act c w (λ r, is_ok r = true) → fine (λ _ w', now c d w') (await act) w.
Proof.
  intros Ha [Hh <-] [Hne Hs]. apply surely_await; [done|]. intros w' [x|e] Hin; destruct (Hs _ _ Hin) as [Hok Hh']; [|done].
  exists x. split; [done|]. split; [done|by eapply Ha].
Qed.

Lemma surely_idle {A X} (Q : A → W → Prop) (act : W → list (W * X)) (k : X → prog W A) c w :
  serves healthy act c w (λ _, True) → (∀ x w', healthy c w' → surely Q (k x) w') → surely Q (await act ≫= k) w.
Proof.
  intros [Hne Hs] Hk. apply (surely_bind (λ _ w', healthy c w')); [|done].
  apply surely_await; [done|]. intros w' x Hin. by destruct (Hs w' x Hin).
Qed.

Lemma surely_set {A} (Q : A → W → Prop) h s (k : unit → prog W A) c d w :
  now c d w → (∀ w', now c d w' → surely Q (k tt) w') → surely Q (modify (sql_Set D h s) ≫= k) w.
Proof.
  intros [Hh Hv] Hk. apply (surely_bind (λ _ w', now c d w')); [|by intros [] w'; apply Hk].
  apply surely_await; [done|]. intros w' [] Hin%list_elem_of_singleton. simplify_eq. split.
  - by apply (hl_set D view healthy service).
  - apply (srv_set D view server).
Qed.

Lemma fine_pool dsn n1 n2 n3 n4 c d w : now c d w → fine (λ _ w', now c d w') (openMySQLPool D dsn n1 n2 n3 n4) w.
Proof.
  intros Hn. unfold openMySQLPool. eapply surely_rbind.
  { eapply fine_act; [apply (srv_open D view server)|exact Hn|]. apply (hl_open D view healthy service), Hn. }
  intros db w1 Hn1.
  do 4 (apply (surely_set _ _ _ _ c d); [exact Hn1|]; clear w1 Hn1; intros w1 Hn1). by apply fine_ret.
Qed.

Lemma fine_migrate db c t d w :
  mysqlIdentifier t = true → t ≠ VT → now (default [] c) d w → versions_wf d → recoverable t d →
  fine (λ _ _, True) (migrate D db c t) w.
Proof.
  intros Hid Hne Hn Hwf Hrec. unfold migrate. eapply surely_rbind.
  { eapply fine_act; [apply (srv_conn D view server)|exact Hn|]. apply (hl_conn D view healthy service), Hn. }
  intros conn w1 Hn1.
  eapply (surely_bind (λ r w', is_ok r = true ∧ healthy (default [] c) w')).
  2: { intros [[]|e] w2 [Hr Hh]; [|done]. eapply surely_idle; [by apply (hl_close D view healthy service)|].
       intros x w3 _. by apply fine_ret. }
  unfold migrate_on.
  assert (∀ r : res unit, ∀ w', succeeds (λ _, healthy (default [] c)) r w' → is_ok r = true ∧ healthy (default [] c) w') as Hok
    by (intros r w' (x & -> & Hh); done).
  eapply surely_rbind.
  { apply fine_wrapping. eapply (fine_QueryRow _ _ _ _ _ _ _ _ (λ _, True)); [apply (srv_database D view server)|exact Hn1| | |].
    - apply (hl_database D view healthy service), Hn1.
    - intros r [name ->]. by eexists.
    - intros rows [name [= ->]] _. by eexists. }
  intros name w2 [_ Hn2]. eapply surely_rbind.
  { apply fine_wrapping. eapply (fine_QueryRow _ _ _ _ _ _ _ _ (λ x, x = Some 1)); [apply (srv_lock D view server)|exact Hn2| | |].
    - apply (hl_lock D view healthy service), Hn2.
    - intros r ->. by eexists.
    - intros rows [= ->] _. by eexists. }
  intros acquired w3 [-> Hn3]. rewrite bool_decide_eq_true_2 by done. cbn [negb].
  eapply (surely_bind (λ r w', is_ok r = true ∧ healthy (default [] c) w')).
  { eapply surely_conseq; [by eapply fine_schema|exact Hok]. }
  intros r w4 [Hr Hh]. unfold QueryRow.
  eapply (surely_bind (λ _ w', healthy (default [] c) w')).
  - eapply surely_idle; [by apply (hl_unlock D view healthy service)|]. intros x w5 Hh5. by apply surely_ret.
  - intros x w5 Hh5. by apply surely_ret.
Qed.

(** C15: A constructor that is given valid options and meets a server in service
    returns a cache, whatever interrupted constructors left of the table
    ([recoverable], the states of [migrations_safe]): nothing yet, the version table,
    the marker, the table under the marker, or a finished schema.  The table is then
    validated and recorded at version 1. *)
Theorem NewMySQLCache_recovers c opts t n w :
  check_options opts = Ok (t, n) → t ≠ VT →
  healthy (default [] c) w → versions_wf (view w) → recoverable t (view w) →
  outcomes (NewMySQLCache D c opts) w ≠ [] ∧
  ∀ w' r, (w', r) ∈ outcomes (NewMySQLCache D c opts) w →
    ∃ db, r = Ok (MkMySQLCache (Some db) t n) ∧ ready t (view w').
Proof.
  intros Hopts Hne Hh Hwf Hrec. destruct (check_options_ok opts t n Hopts) as [Hid _].
  assert (surely (λ r _, ∃ db, r = Ok (MkMySQLCache (Some db) t n)) (NewMySQLCache D c opts) w) as Hs.
  { unfold NewMySQLCache. rewrite Hopts. eapply surely_rbind.
    { eapply (fine_wrapping (λ _ w', now (default [] c) (view w) w')), fine_pool. by split. }
    intros db w1 Hn1. eapply surely_bind; [by apply (fine_migrate db c t (view w))|].
    intros r w2 (x & -> & _). apply surely_ret. by exists db. }
  pose proof (surely_upholds (moves view) (moves view) _ _ _ _ (upheld_NewMySQLCache D view server c opts w Hwf) Hs) as Hs'.
  destruct (surely_outcomes _ _ _ Hs') as [Hout Hall]. split; [done|].
  intros w' r Hin. destruct (Hall w' r Hin) as [(db & ->) Hr]. exists db. split; [done|]. by apply (Hr _ eq_refl).
Qed.
End recovery.
