(* ===== verification/MysqlEntries.v ===== *)
(** * The MySQL cache: its entries

    On a table the constructor returned, [Load] and [Store] of execution/mysql_cache.go
    keep the promises of the file cache (Cache.v): the row of a digest plays the part
    of the file, and one statement that of the atomic write. *)

From S2P Require Import Prelude GoError GoStrings Go Rely Digest Json JsonProofs Fsutil Cache Mysql MysqlProofs.

(** The envelope a table holds for a digest. *)
Definition row_text (t k : string) (d : database) : option string :=
  tb ← d !! t; cells ← t_rows tb !! k;
  match value_cell cells with SqlBytes s => Some s | _ => None end.

(** A table keyed by digests whose rows have an envelope each (the column is NOT NULL). *)
Definition holds_entries (t : string) (d : database) : Prop :=
  ∃ tb, d !! t = Some tb ∧ cache_shape tb ∧
        ∀ k cells, t_rows tb !! k = Some cells → ∃ s, value_cell cells = SqlBytes s.

(** ** What fits *)

(** The text of a JSON string is at least as long as the string. *)
Lemma quote_chunk_length k : (is_rune k = true → well_chunk k) →
  (String.length (chunk_bytes k) ≤ String.length (quote_chunk k))%nat.
Proof.
  intros Hk. destruct k as [cp bytes|a]; [|simpl; lia]. specialize (Hk eq_refl).
  assert (String.length bytes ≤ 4)%nat as Hlen by (inversion Hk; simpl; lia).
  unfold quote_chunk, escape_u. simpl chunk_bytes.
  assert (cp < 0x80 → String.length bytes = 1%nat) as Hone.
  { inversion Hk as [|? ? Hab|? ? ? Hab|? ? ? ? Hab]; subst; [done|..]; intros Hcp.
    - pose proof (rune2_spec _ _ Hab). lia.
    - pose proof (rune3_spec _ _ _ Hab). lia.
    - pose proof (rune4_spec _ _ _ _ Hab). lia. }
  destruct ((cp =? 34) || (cp =? 92)); [simpl; lia|].
  repeat (match goal with |- context [if ?b then _ else _] => destruct b eqn:?; [|] end; try (simpl; lia)).
  all: rewrite Hone by lia; simpl; lia.
Qed.

Lemma quote_length s : (2 + String.length s ≤ String.length (quote s))%nat.
Proof.
  unfold quote. cbn [String.length]. rewrite length_app_string. cbn [String.length].
  assert (String.length s ≤ String.length (quote_body s))%nat; [|lia].
  unfold quote_body. rewrite <-(unchunk_chunks s) at 1. pose proof (chunks_well s) as Hw.
  induction Hw as [|k ks Hk _ IH]; [done|]. simpl. rewrite !length_app_string.
  pose proof (quote_chunk_length k Hk). fold (unchunk ks). lia.
Qed.

(** The step and the version of a key are no longer than its envelope. *)
Lemma envelope_length key j :
  (String.length (Step key) ≤ String.length (render (envelope_json key j)) ∧
   String.length (Version key) ≤ String.length (render (envelope_json key j)))%nat.
Proof.
  pose proof (quote_length (Step key)). pose proof (quote_length (Version key)).
  unfold envelope_json, key_json. rewrite !render_obj. cbn [fmap list_fmap render_member].
  rewrite render_obj. cbn [fmap list_fmap render_member render]. unfold comma_sep.
  cbn [Join_strings]. rewrite ?length_app_string. lia.
Qed.

(** The value fits the column. *)
Definition fits (v : sqlValue) (x : column) : bool :=
  match v, ParseInt (c_max x) with
  | SqlBytes s, Some n => Z.of_nat (String.length s) <=? n
  | SqlInt z, None => (min64 <=? z) && (z <=? max64)
  | _, _ => false
  end.

Lemma length_prefix n s : (n ≤ String.length s)%nat → String.length (Stdlib.Strings.String.substring 0 n s) = n.
Proof.
  revert n. induction s as [|a s IH]; intros [|n] Hn; simpl in *; [done|lia|done|]. f_equal. apply IH. lia.
Qed.

Lemma ident_plain s : all_chars ident_char s = true → double_backticks s = s.
Proof.
  induction s as [|a s IH]; [done|]. simpl. intros [Ha Hs]%andb_true_iff. rewrite IH by done.
  case_decide; [|done]. by subst.
Qed.

Lemma ident_chars t : mysqlIdentifier t = true → all_chars ident_char t = true ∧ (String.length t ≤ 64)%nat.
Proof.
  destruct t as [|a t]; [done|]. cbn [mysqlIdentifier all_chars String.length].
  rewrite !andb_true_iff, Nat.leb_le. intros [[Ha Ht] Hl]. split; [|lia]. split; [|done]. unfold ident_char. by rewrite Ha.
Qed.

Lemma quote_plain t : mysqlIdentifier t = true → quoteMySQLIdentifier t = String backtick (t +:+ String backtick "").
Proof. intros [Hc _]%ident_chars. unfold quoteMySQLIdentifier. by rewrite ident_plain. Qed.

Lemma Key_Digest_lengths key d :
  Key_Digest key = Ok d → String.length d = 64%nat ∧ String.length (InputDigest key) = 64%nat.
Proof.
  unfold Key_Digest, validate. case_decide; [done|]. case_decide as Hlen; [done|].
  destruct (DecodeString _).2; [done|]. intros [= <-]. split; [apply Bytes_length|lia].
Qed.

Lemma fits_text s n cap : ParseInt cap = Some n → Z.of_nat (String.length s) ≤ n →
  ∀ name type null, fits (SqlBytes s) (Column name type null cap) = true.
Proof. intros Hp Hs name type null. unfold fits. cbn [c_max]. rewrite Hp. by apply Z.leb_le. Qed.

(** C19: What the cache sends fits where it is sent.  For every accepted table name and
    entry limit: quoting keeps the name as it is, the key of the version table fits its
    column, the name of the migration lock fits MySQL's limit of 64 characters, and an
    entry that passes the size check fits every column of its row, the metadata
    included, so that it can always be stored. *)
Theorem entries_fit opts t n key d j now db :
  check_options opts = Ok (t, n) → Key_Digest key = Ok d → in64 now →
  (n <? Z.of_nat (String.length (render (envelope_json key j)))) = false →
  quoteMySQLIdentifier t = String backtick (t +:+ String backtick "") ∧
  (String.length (mysqlCacheSchemaComponent t) ≤ 80)%nat ∧
  String.length (mysqlCacheMigrationLock db) = 62%nat ∧
  Forall2 (λ a x, fits a x = true) (entry_values d key j now) cache_columns.
Proof.
  intros Hopts Hd Hnow Hsize%Z.ltb_ge. destruct (check_options_ok opts t n Hopts) as [Hid Hn].
  destruct (Key_Digest_lengths key d Hd) as [Hdl Hil]. destruct (ident_chars t Hid) as [_ Ht].
  destruct (envelope_length key j) as [Hs Hv]. split; [by apply quote_plain|]. split; [|split].
  - unfold mysqlCacheSchemaComponent. rewrite length_app_string. simpl String.length at 1. lia.
  - unfold mysqlCacheMigrationLock. rewrite length_app_string, length_prefix; [done|].
    change (EncodeToString (sha256 (bytes_of db))) with (Bytes db). rewrite Bytes_length. lia.
  - unfold entry_values, cache_columns. unfold mysqlMediumTextMax in Hn.
    repeat constructor; try (rewrite ?Bytes_length; apply (fits_text _ 64 "64" eq_refl); rewrite ?Bytes_length; lia);
      try (apply (fits_text _ 16777215 "16777215" eq_refl); lia).
    unfold fits. cbn [c_max]. change (ParseInt "NULL") with (@None Z). unfold in64 in Hnow.
    apply andb_true_iff. rewrite !Z.leb_le. lia.
Qed.

(** ** Load and Store *)

Section entries.
Context {W H : Type} `{!Has ctxs W} (D : driver W H) (view : W → database).
Context {V : Type} `{!Codec V}.
Context (server : mysql_server D view) (db : H) (t : string) (n : Z) (Hid : mysqlIdentifier t = true).
Implicit Types (key : Key) (v : V) (w : W) (c : ctx).

Notation cache := (MkMySQLCache (Some db) t n).

Lemma outcomes_sql_ctx_Err c w w' r :
  (w', r) ∈ outcomes (sql_ctx_Err c) w → w' = w ∧ r = match ctx_err c (inside w) with Some e => Err e | None => Ok tt end.
Proof. unfold sql_ctx_Err. rewrite outcomes_read. by intros [= -> ->]%list_elem_of_singleton. Qed.

(** What the query for an entry yields. *)
Lemma outcomes_select c k w w' r :
  holds_entries t (view w) →
  (w', r) ∈ outcomes (QueryRow D db c (select_value t) [SqlBytes k] to_bytes) w →
  view w' = view w ∧
  (r = match row_text t k (view w) with Some s => Ok s | None => Err (Sentinel ErrNoRows) end ∨
   ∃ e, r = Err e ∧ Is e ErrNoRows = false).
Proof.
  intros (tb & Htb & Hshape & Hrows). unfold QueryRow. rewrite outcomes_bind, list_elem_of_bind.
  intros ([w1 r1] & Hr & Hq). apply list_elem_of_singleton in Hr as [= -> ->]. rewrite outcomes_await in Hq.
  destruct (srv_value D view server t k Hid db c w w1 r1 Hq) as [Hv Ha]. split; [done|].
  destruct r1 as [[rows [e|]]|e]; [right|left|right; by exists e].
  - destruct rows as [|[|x [|]] rows]; simpl; [by exists e|by exists scan_error| |by exists scan_error].
    destruct (to_bytes x) as [s|e'] eqn:Hx; [by exists e|]. destruct x; discriminate Hx.
  - destruct Ha as (tb' & Htb' & Ha). rewrite Htb in Htb'. injection Htb' as <-. rewrite (Ha Hshape).
    unfold row_text. rewrite Htb. simpl. destruct (t_rows tb !! k) as [cells|] eqn:Hc; [|done].
    simpl. by destruct (Hrows _ _ Hc) as [s ->].
Qed.

(** The two copies of the checks agree. *)
Lemma check_row_entry key raw : check_row key raw = check_entry (V := V) key raw.
Proof. done. Qed.

Lemma MySQL_Load_outcomes c key w w' (r : res (option V)) fc fw :
  holds_entries t (view w) →
  maxEntryBytes fc = n → fw_ctxs fw = inside w →
  (∀ k, Key_Digest key = Ok k → content (fw_fs fw) (entry_path (directory fc) k) = row_text t k (view w)) →
  (w', r) ∈ outcomes (MySQLCache_Load D (Some cache) c key) w →
  view w' = view w ∧
  (r = Load_answer fc c key fw ∨
   ∃ e, Is e ErrNoRows = false ∧ r = Err (Errorf "read mysql cache entry: %w" [ArgWrap e])).
Proof.
  intros Hent Hmax Hctxs Hsame. unfold MySQLCache_Load, Load_answer. cbn [opened mc_db mc_table mc_maxEntryBytes].
  rewrite Hctxs. intros [(w1 & [] & Hctx & Hin)|(e & Hctx & ->)]%elem_outcomes_rbind;
    apply outcomes_sql_ctx_Err in Hctx as [-> Hc]; destruct (ctx_err c (inside w)); simplify_eq; [|auto].
  unfold path. destruct (Key_Digest key) as [k|e] eqn:Hk; [|apply list_elem_of_singleton in Hin as [= -> ->]; auto].
  cbn [mbind res_bind]. rewrite (Hsame k eq_refl).
  rewrite outcomes_bind, list_elem_of_bind in Hin. destruct Hin as ([w1 r1] & Hin & Hq).
  destruct (outcomes_select c k w w1 r1 Hent Hq) as [Hv Hr1].
  destruct Hr1 as [-> |(e & -> & He)].
  - destruct (row_text t k (view w)) as [raw|]; unfold entry_answer.
    + rewrite check_row_entry in Hin. destruct (_ <? _); apply list_elem_of_singleton in Hin as [= -> ->]; auto.
    + apply list_elem_of_singleton in Hin as [= -> ->]. auto.
  - rewrite He in Hin. apply list_elem_of_singleton in Hin as [= -> ->]. split; [done|]. right. by exists e.
Qed.

(** C16: [MySQLCache] answers like [FileCache].  On a table the constructor returned,
    whatever was inserted in it, [Load] leaves the database as it is, and either
    reports the error of its query, never mistaking it for an absent entry, or
    answers what the code of [FileCache.Load] answers, run with a cache of the same
    limit on a disk that does not fail and whose file for the key has the text of
    the row.  That is, after a done context and an invalid key: nothing exactly when
    there is no row; a value exactly when the row fits the limit and is a strict
    envelope of the schema, for the whole key, with the digest of its value, which
    decodes strictly to the value returned; [ErrCorruptCache] for any other row. *)
Theorem MySQLCache_Load_answers c key w w' (r : res (option V)) fc fw :
  holds_entries t (view w) →
  maxEntryBytes fc = n → fw_ctxs fw = inside w →
  (∀ k, Key_Digest key = Ok k → content (fw_fs fw) (entry_path (directory fc) k) = row_text t k (view w)) →
  (w', r) ∈ outcomes (MySQLCache_Load D (Some cache) c key) w →
  view w' = view w ∧
  ((∃ e, Is e ErrNoRows = false ∧ r = Err (Errorf "read mysql cache entry: %w" [ArgWrap e])) ∨
   outcomes (FileCache_Load [] (Some fc) c key) fw = [(fw, r)] ∧
   match ctx_err c (inside w), Key_Digest key with
   | Some e, _ | None, Err e => r = Err e
   | None, Ok keyDigest =>
       match row_text t keyDigest (view w) with
       | None => r = Ok None
       | Some raw =>
           (∃ v, is_entry fc key raw v ∧ r = Ok (Some v)) ∨
           (∀ v : V, ¬ is_entry fc key raw v) ∧ ∃ e, r = Err e ∧ Is e ErrCorruptCache = true
       end
   end).
Proof.
  intros Hent Hmax Hctxs Hsame Hin.
  destruct (MySQL_Load_outcomes c key w w' r fc fw Hent Hmax Hctxs Hsame Hin) as [Hv [-> |Hq]]; [|by split; [|left]].
  split; [done|]. right. split; [apply Load_alone|]. unfold Load_answer, path. rewrite Hctxs.
  destruct (ctx_err c (inside w)); [done|]. destruct (Key_Digest key) as [k|e]; [|done].
  cbn [mbind res_bind]. rewrite (Hsame k eq_refl). destruct (row_text t k (view w)); [|done].
  apply entry_answer_spec.
Qed.

Lemma upsert_entries k cells s d d' :
  upsert t k cells d = Some d' → value_cell cells = SqlBytes s → holds_entries t d →
  holds_entries t d' ∧ ∀ t' k', row_text t' k' d' = if decide (t' = t ∧ k' = k) then Some s else row_text t' k' d.
Proof.
  unfold upsert. intros Hu Hs (tb & Htb & Hshape & Hrows). rewrite Htb in Hu. injection Hu as <-. split.
  - exists (set_row k cells tb). split; [by rewrite lookup_insert_eq|]. split; [exact Hshape|].
    intros k' cells' Hr. cbn [set_row t_rows] in Hr.
    apply lookup_insert_Some in Hr as [[<- <-]|[_ Hr]]; [by exists s|by eapply Hrows].
  - intros t' k'. unfold row_text. destruct (decide (t' = t)) as [->|Ht].
    + rewrite lookup_insert_eq, Htb. cbn [mbind option_bind set_row t_rows]. case_decide as Hk.
      * destruct Hk as [_ ->]. rewrite lookup_insert_eq. cbn [mbind option_bind]. by rewrite Hs.
      * rewrite lookup_insert_ne; [done|]. intros ->. by apply Hk.
    + rewrite lookup_insert_ne by done. by rewrite decide_False by (by intros [? _]).
Qed.

(** C17: [MySQLCache.Store] is an atomic update of one row.  On a table the constructor
    returned: a store that returns nil leaves the entry of its key, from which [Load]
    returns exactly the value that was stored; one that fails leaves that or changes
    nothing; no entry of another digest or table changes, and the table still holds
    entries only. *)
Theorem MySQLCache_Store_atomic c key v k w w' r :
  key_utf8 key → faithful v → Key_Digest key = Ok k → holds_entries t (view w) →
  (w', r) ∈ outcomes (MySQLCache_Store D (Some cache) c key v) w →
  holds_entries t (view w') ∧
  (∀ t' k', ¬ (t' = t ∧ k' = k) → row_text t' k' (view w') = row_text t' k' (view w)) ∧
  (entry_answer (MkFileCache "" n) key (row_text t k (view w')) = Ok (Some v) ∨
   is_ok r = false ∧ view w' = view w).
Proof.
  intros Hkey (j & Henc & Hj & Hdec & _) Hk Hent. unfold MySQLCache_Store. cbn [opened mc_db mc_table mc_maxEntryBytes].
  assert (∀ e, (w', r) ∈ [(w, Err e)] → holds_entries t (view w') ∧
     (∀ t' k', ¬ (t' = t ∧ k' = k) → row_text t' k' (view w') = row_text t' k' (view w)) ∧
     (entry_answer (MkFileCache "" n) key (row_text t k (view w')) = Ok (Some v) ∨ is_ok r = false ∧ view w' = view w)) as Hfail.
  { intros e Hin. apply list_elem_of_singleton in Hin as [= -> ->]. auto. }
  intros [(w1 & [] & Hctx & Hin)|(e & Hctx & ->)]%elem_outcomes_rbind;
    apply outcomes_sql_ctx_Err in Hctx as [-> Hc]; destruct (ctx_err c (inside w)); simplify_eq;
    [|by eapply Hfail, list_elem_of_singleton].
  rewrite Hk, Henc in Hin. cbv zeta in Hin. destruct (_ <? _) eqn:Hsize in Hin; [exact (Hfail _ Hin)|].
  rewrite outcomes_bind, outcomes_read in Hin. cbn [mbind list_bind app] in Hin. rewrite app_nil_r in Hin.
  apply outcomes_wrapping in Hin as (r1 & Hin & ->). unfold Exec in Hin. rewrite outcomes_await in Hin.
  destruct (srv_upsert D view server t k _ Hid db c w w' r1 Hin) as [Hup|[Hr Hv]].
  - intros tb Htb. destruct Hent as (tb' & Htb' & Hs & _). rewrite Htb in Htb'. by injection Htb' as ->.
  - destruct (upsert_entries k _ (render (envelope_json key j)) _ _ Hup eq_refl Hent) as [Hent' Hrows].
    split; [done|]. split.
    + intros t' k' Hne. by rewrite Hrows, decide_False.
    + left. rewrite Hrows, decide_True by done. by apply (entry_answer_stored _ key v j).
  - rewrite Hv. split; [done|]. split; [done|]. right. by destruct r1.
Qed.
End entries.
