(* ===== verification/MysqlRun.v ===== *)
(** * The MySQL cache: a server in memory

    A server that executes the statements of mysql_cache.go on a database in memory,
    and may report any of them as failed, with or without its effect, while it is
    flaky.  It has every property MysqlProofs.v and MysqlRecovery.v rely on, and the
    theorems about the cache are applied to runs on it. *)

From S2P Require Import Prelude GoError GoStrings Go Rely Digest Json JsonProofs Fsutil Cache Mysql MysqlProofs.
From S2P Require Import MysqlRecovery MysqlEntries.

(** ** The table a statement names *)

Fixpoint strip (p s : string) : option string :=
  match p, s with
  | "", s => Some s
  | String a p, String b s => if decide (a = b) then strip p s else None
  | _, _ => None
  end.

Fixpoint upto_backtick (s : string) : option (string * string) :=
  match s with
  | "" => None
  | String a s =>
      if decide (a = backtick) then Some ("", s)
      else match upto_backtick s with Some (t, rest) => Some (String a t, rest) | None => None end
  end.

Definition named (before after stmt : string) : option string :=
  s ← strip before stmt;
  match s with
  | String a s => '(t, rest) ← upto_backtick s; if decide (a = backtick ∧ rest = after) then Some t else None
  | "" => None
  end.

Lemma strip_app p s : strip p (p +:+ s) = Some s.
Proof. induction p as [|a p IH]; [done|]. rewrite app_cons. simpl. by rewrite decide_True. Qed.

Lemma upto_backtick_app t rest :
  all_chars ident_char t = true → upto_backtick (t +:+ String backtick rest) = Some (t, rest).
Proof.
  induction t as [|a t IH]; [done|]. cbn [all_chars]. intros [Ha Ht]%andb_true_iff. rewrite app_cons. cbn [upto_backtick].
  rewrite IH by done. case_decide; [|done]. by subst.
Qed.

Lemma named_ok before after t :
  mysqlIdentifier t = true → named before after (before +:+ quoteMySQLIdentifier t +:+ after) = Some t.
Proof.
  intros Hid. unfold named. rewrite strip_app, (quote_plain t Hid). cbn [mbind option_bind].
  rewrite app_cons, app_assoc_string. destruct (ident_chars t Hid) as [Ht _].
  change (String backtick "" +:+ after) with (String backtick after).
  rewrite upto_backtick_app by done. cbn [mbind option_bind]. by rewrite decide_True.
Qed.

Definition create_after : string := Eval vm_compute in default "" (strip "CREATE TABLE ``" (create_cache_table "")).
Definition upsert_before : string := "
INSERT INTO ".
Definition upsert_after : string := Eval vm_compute in default "" (strip (upsert_before +:+ "``") (upsert_entry "")).
Definition select_before : string := "SELECT value_json FROM ".
Definition select_after : string := " WHERE key_digest = ?".

Definition created (stmt : string) : option string := named "CREATE TABLE " create_after stmt.
Definition upserted (stmt : string) : option string := named upsert_before upsert_after stmt.
Definition selected (stmt : string) : option string := named select_before select_after stmt.

Lemma created_ok t : mysqlIdentifier t = true → created (create_cache_table t) = Some t.
Proof. apply named_ok. Qed.
Lemma upserted_ok t : mysqlIdentifier t = true → upserted (upsert_entry t) = Some t.
Proof. apply named_ok. Qed.
Lemma selected_ok t : mysqlIdentifier t = true → selected (select_value t) = Some t.
Proof. apply named_ok. Qed.

(** ** The server *)

Record server := Server { sv_ctxs : ctxs; sv_db : database; sv_flaky : bool }.

#[export] Program Instance server_ctxs : Has ctxs server :=
  {| inside := sv_ctxs; replace t w := Server t (sv_db w) (sv_flaky w) |}.
Solve All Obligations with by intros; repeat match goal with w : server |- _ => destruct w end.

Definition set_db (d : database) (w : server) : server := Server (sv_ctxs w) d (sv_flaky w).
Definition lost : error := New "invalid connection".

Definition flag (P : Prop) `{Decision P} : list (list sqlValue) := [[SqlInt (if decide P then 1 else 0)]].

(** What a query yields; nothing when it is refused. *)
Definition local_query (stmt : string) (args : list sqlValue) (d : database) : option (list (list sqlValue)) :=
  if decide (stmt = select_database) then Some [[SqlBytes "main"]] else
  if decide (stmt = get_lock ∨ stmt = release_lock) then Some [[SqlInt 1]] else
  match args with
  | [SqlBytes x] =>
      if decide (stmt = count_tables) then Some (flag (is_Some (d !! x))) else
      if decide (stmt = count_primary) then
        Some (flag ((d !! x) ≫= (λ tb, head (t_primary tb)) = Some "key_digest")) else
      if decide (stmt = select_columns) then
        let cols := match d !! x with Some tb => t_columns tb | None => [] end in
        if decide (NoDup (c_name <$> cols)) then Some (column_row <$> cols) else None else
      if decide (stmt = select_version) then tb ← d !! VT; Some (option_list (t_rows tb !! x)) else
      t ← selected stmt; tb ← d !! t; Some (option_list ((λ cells, [value_cell cells]) <$> t_rows tb !! x))
  | _ => None
  end.

Definition local_exec (stmt : string) (args : list sqlValue) (d : database) : option database :=
  if decide (stmt = create_version_table) then create VT version_table d else
  if decide (stmt = insert_marker) then
    match args with [SqlBytes k] => insert_row VT k [SqlInt 0] d | _ => None end else
  if decide (stmt = update_version) then
    match args with [SqlInt v; SqlBytes k] => bump k v d | _ => None end else
  match created stmt, upserted stmt, args with
  | Some t, _, _ => create t cache_table d
  | None, Some t, SqlBytes k :: cells => upsert t k cells d
  | _, _, _ => None
  end.

Definition flaky {X} (w : server) (l : list X) : list X := if sv_flaky w then l else [].

Definition local_driver : driver server nat := {|
  sql_Open _ _ w := (w, Ok 0%nat) :: flaky w [(w, Err lost)];
  sql_Set _ _ w := w;
  sql_Close _ w := [(w, Ok tt)];
  sql_Conn _ _ w := (w, Ok 1%nat) :: flaky w [(w, Err lost)];
  sql_Query _ _ stmt args w :=
    match local_query stmt args (sv_db w) with
    | Some rows => (w, Ok (rows, None)) :: flaky w [(w, Ok (rows, Some lost)); (w, Err lost)]
    | None => [(w, Err lost)]
    end;
  sql_Exec _ _ stmt args w :=
    match local_exec stmt args (sv_db w) with
    | Some d => (set_db d w, Ok tt) :: flaky w [(set_db d w, Err lost); (w, Err lost)]
    | None => [(w, Err lost)]
    end;
  sql_UnixMilli _ := 1700000000000;
|}.

(** ** Its laws *)

Lemma elem_flaky {X} (x : X) w l : x ∈ flaky w l → x ∈ l.
Proof. unfold flaky. destruct (sv_flaky w); [done|by intros ?%elem_of_nil]. Qed.

Lemma local_asks stmt args (ans : database → list (list sqlValue) → Prop) :
  (∀ d rows, local_query stmt args d = Some rows → ans d rows) →
  asks local_driver sv_db stmt args ans.
Proof.
  intros Hans h c w w' r Hin. simpl in Hin.
  destruct (local_query stmt args (sv_db w)) as [rows|] eqn:Hq.
  - apply elem_of_cons in Hin as [[= -> ->]|Hin%elem_flaky]; [by split; [|apply Hans]|].
    repeat (apply elem_of_cons in Hin as [[= -> ->]|Hin]; [done|]). by apply elem_of_nil in Hin.
  - by apply list_elem_of_singleton in Hin as [= -> ->].
Qed.

Lemma local_does stmt args pre (effect : database → option database) :
  (∀ d, pre d → local_exec stmt args d = effect d) → does local_driver sv_db stmt args pre effect.
Proof.
  intros Heff h c w w' r Hin Hpre. simpl in Hin. rewrite (Heff _ Hpre) in Hin.
  destruct (effect (sv_db w)) as [d|].
  - apply elem_of_cons in Hin as [[= -> ->]|Hin%elem_flaky]; [by left|].
    apply elem_of_cons in Hin as [[= -> ->]|Hin]; [by left|]. apply list_elem_of_singleton in Hin as [= -> ->]. by right.
  - apply list_elem_of_singleton in Hin as [= -> ->]. by right.
Qed.

(** The statements that name a table are told apart by their first words. *)
Lemma local_select t k d :
  mysqlIdentifier t = true →
  local_query (select_value t) [SqlBytes k] d =
  tb ← d !! t; Some (option_list ((λ cells, [value_cell cells]) <$> t_rows tb !! k)).
Proof.
  intros Hid. unfold local_query. rewrite decide_False by discriminate.
  rewrite decide_False by (intros [?|?]; discriminate). do 4 rewrite decide_False by discriminate.
  by rewrite selected_ok.
Qed.

Lemma local_create t d : mysqlIdentifier t = true → local_exec (create_cache_table t) [] d = create t cache_table d.
Proof.
  intros Hid. unfold local_exec. do 3 rewrite decide_False by discriminate. by rewrite created_ok.
Qed.

Lemma local_upsert t k cells d :
  mysqlIdentifier t = true → local_exec (upsert_entry t) (SqlBytes k :: cells) d = upsert t k cells d.
Proof.
  intros Hid. unfold local_exec. do 3 rewrite decide_False by discriminate. by rewrite upserted_ok.
Qed.

Lemma local_server : mysql_server local_driver sv_db.
Proof.
  split.
  - intros n dsn w w' x Hin. simpl in Hin.
    apply elem_of_cons in Hin as [[= -> _]|Hin%elem_flaky]; [done|]. by apply list_elem_of_singleton in Hin as [= -> _].
  - done.
  - intros h w w' x Hin. by apply list_elem_of_singleton in Hin as [= -> _].
  - intros h c w w' x Hin. simpl in Hin.
    apply elem_of_cons in Hin as [[= -> _]|Hin%elem_flaky]; [done|]. by apply list_elem_of_singleton in Hin as [= -> _].
  - by apply local_asks.
  - intros name. by apply local_asks.
  - intros name. by apply local_asks.
  - intros t. apply local_asks. intros d rows Hq. injection Hq as <-. reflexivity.
  - intros k. apply local_asks. intros d rows Hq. change (local_query select_version [SqlBytes k] d)
      with (tb ← d !! VT; Some (option_list (t_rows tb !! k))) in Hq.
    destruct (d !! VT) as [tb|]; [|done]. injection Hq as <-. by exists tb.
  - intros t. apply local_asks. intros d rows Hq. change (local_query select_columns [SqlBytes t] d)
      with (let cols := match d !! t with Some tb => t_columns tb | None => [] end in
            if decide (NoDup (c_name <$> cols)) then Some (column_row <$> cols) else None) in Hq.
    cbv zeta in Hq. case_decide as Hnd; [|done]. injection Hq as <-. by eexists.
  - intros t. apply local_asks. intros d rows Hq. injection Hq as <-. reflexivity.
  - intros t k Hid. apply local_asks. intros d rows Hq. rewrite local_select in Hq by done.
    destruct (d !! t) as [tb|]; [|done]. injection Hq as <-. by exists tb.
  - apply local_does. intros d _. reflexivity.
  - intros t Hid. apply local_does. intros d _. by apply local_create.
  - intros k. apply local_does. intros d _. reflexivity.
  - intros v k. apply local_does. intros d _. reflexivity.
  - intros t k cells Hid. apply local_does. intros d _. by apply local_upsert.
Qed.

(** In service: not flaky. *)
Definition steady (c : ctx) (w : server) : Prop := sv_flaky w = false.

Lemma steady_query h c q stmt args w (good : res rowset → Prop) :
  steady c w → (∀ rows, local_query stmt args (sv_db w) = Some rows → good (Ok (rows, None))) →
  is_Some (local_query stmt args (sv_db w)) → serves steady (sql_Query local_driver h q stmt args) c w good.
Proof.
  intros Hs Hgood [rows Hq]. unfold serves. simpl. rewrite Hq. unfold flaky, steady in *. rewrite ?Hs. split; [done|].
  intros w' x [= -> ->]%list_elem_of_singleton. split; [by apply Hgood|done].
Qed.

Lemma steady_exec h c stmt args w :
  steady c w → is_Some (local_exec stmt args (sv_db w)) →
  serves steady (sql_Exec local_driver h c stmt args) c w (λ r, r = Ok tt).
Proof.
  intros Hs [d Hd]. unfold serves. simpl. rewrite Hd. unfold flaky, steady in *. rewrite ?Hs. split; [done|].
  by intros w' x [= -> ->]%list_elem_of_singleton.
Qed.

Lemma steady_rows rows : completes (Ok (rows, None)).
Proof. by exists rows. Qed.

Lemma local_in_service : in_service local_driver sv_db steady.
Proof.
  split.
  - intros n dsn c w Hs. split; [done|]. simpl. unfold flaky, steady in *. rewrite ?Hs. by intros w' x [= -> ->]%list_elem_of_singleton.
  - done.
  - intros h c w Hs. split; [done|]. simpl. by intros w' x [= -> ->]%list_elem_of_singleton.
  - intros h c w Hs. split; [done|]. simpl. unfold flaky, steady in *. rewrite ?Hs. by intros w' x [= -> ->]%list_elem_of_singleton.
  - intros h c w Hs. apply steady_query; [done| |by eexists]. intros rows Hq. injection Hq as <-. by eexists.
  - intros h c name w Hs. apply steady_query; [done| |by eexists]. intros rows Hq. by injection Hq as <-.
  - intros h c name w Hs. apply steady_query; [done|done|by eexists].
  - intros h c t w Hs. apply steady_query; [done|intros; apply steady_rows|by eexists].
  - intros h c t tb w Hs Ht [Hcols _]. apply steady_query; [done|intros; apply steady_rows|].
    change (local_query select_columns [SqlBytes t] (sv_db w))
      with (let cols := match sv_db w !! t with Some tb => t_columns tb | None => [] end in
            if decide (NoDup (c_name <$> cols)) then Some (column_row <$> cols) else None).
    cbv zeta. rewrite Ht. rewrite decide_True; [by eexists|].
    assert ((column_shape <$> t_columns tb).*1 = c_name <$> t_columns tb) as <-
      by (rewrite <-list_fmap_compose; by apply list_fmap_ext).
    rewrite Hcols. apply (bool_decide_unpack _). vm_compute. reflexivity.
  - intros h c t w Hs. apply steady_query; [done|intros; apply steady_rows|by eexists].
  - intros h c k w Hs [vtb Hv]. apply steady_query; [done|intros; apply steady_rows|].
    change (local_query select_version [SqlBytes k] (sv_db w))
      with (tb ← sv_db w !! VT; Some (option_list (t_rows tb !! k))). rewrite Hv. by eexists.
  - intros h c w Hs Hc. by apply steady_exec.
  - intros h c t w Hid Hs Hc. apply steady_exec; [done|]. by rewrite local_create.
  - intros h c t w Hid Hs Hc. by apply steady_exec.
  - intros h c v k w Hs Hc. by apply steady_exec.
Qed.

(** ** Runs *)

Definition cache_options (table : string) (limit : Z) : MySQLCacheOptions :=
  MkMySQLCacheOptions "user@tcp(localhost)/db" table 0 0 0 0 limit.

(** Two constructors of the same cache and one of another, on an empty database that
    drops connections. *)
Definition three_calls : list (option ctx * MySQLCacheOptions) :=
  [(None, cache_options "" 0); (Some [0%nat], cache_options " cache_entries " 4096); (None, cache_options "other" 4096)].
Definition empty_db : server := Server (Ctxs ∅ 1) ∅ true.
Notation racing := ((λ call, NewMySQLCache local_driver call.1 call.2) <$> three_calls).

(** The third starts once the first has made the version table; the second runs last. *)
Definition turns : list nat :=
  replicate 12 0%nat ++ concat (replicate 7 [0%nat; 2%nat]) ++ replicate 11 2%nat ++ replicate 15 1%nat.

Definition all_returned {W C} (P : C → C → C → Prop) (o : option (W * list (prog W (res C)))) : Prop :=
  match o with Some (_, [Ret (Ok a); Ret (Ok b); Ret (Ok c)]) => P a b c | _ => False end.

Lemma all_returned_inv {W C} (P : C → C → C → Prop) (o : option (W * list (prog W (res C)))) :
  all_returned P o → ∃ w a b c, o = Some (w, [Ret (Ok a); Ret (Ok b); Ret (Ok c)]) ∧ P a b c.
Proof.
  destruct o as [[w [|[[a|]|] [|[[b|]|] [|[[c|]|] [|]]]]]|]; try done. intros HP. by exists w, a, b, c.
Qed.

Definition as_expected (a b c : MySQLCache nat) : Prop :=
  (mc_table a, mc_table b, mc_table c) = ("cache_entries", "cache_entries", "other").

Lemma race_ends : all_returned as_expected (replay_pool turns (empty_db, racing)).
Proof. vm_compute. reflexivity. Qed.

Definition nobody (w w' : server) : Prop := False.

Lemma migrations_safe_witness :
  ∃ w' a b c, rtc (pool_step nobody) (empty_db, racing) (w', [Ret (Ok a); Ret (Ok b); Ret (Ok c)]) ∧
    ready "cache_entries" (sv_db w') ∧ ready "other" (sv_db w') ∧ recoverable "other" (sv_db w').
Proof.
  destruct (all_returned_inv _ _ race_ends) as (w' & a & b & c & Hr & [= Ha Hb Hc]). exists w', a, b, c.
  pose proof (replay_pool_steps nobody _ _ _ Hr) as Hs. split; [exact Hs|].
  destruct (migrations_safe local_driver sv_db nobody three_calls empty_db w' _ local_server
              ltac:(intros ? ? []) ltac:(intros tb Htb; discriminate Htb) Hs) as (Hrec & _ & _ & Hok).
  rewrite <-Ha, <-Hc. split_and!.
  - exact (Hok 0%nat a eq_refl).
  - exact (Hok 2%nat c eq_refl).
  - rewrite Hc. apply Hrec; [discriminate|reflexivity].
Defined.

(** A constructor that was interrupted after it recorded the marker, on a database that
    is steady from then on. *)
Definition interrupted : server :=
  let w := world_after 13 (NewMySQLCache local_driver None (cache_options "" 0)) empty_db in
  Server (sv_ctxs w) (sv_db w) false.

Lemma interrupted_at : version_of (sv_db interrupted) "cache_entries" = Some 0 ∧ sv_db interrupted !! "cache_entries" = None.
Proof. vm_compute. split; reflexivity. Qed.

Lemma version_table_wf (rows : gmap string Z) :
  version_shape (Table version_columns ["component"] ((λ z, [SqlInt z]) <$> rows)).
Proof.
  split; [done|]. split; [done|]. simpl. intros k cells Hr. rewrite lookup_fmap in Hr.
  apply fmap_Some in Hr as (z & _ & ->). by exists z.
Qed.

Lemma interrupted_db :
  sv_db interrupted =
    {[VT := Table version_columns ["component"] ((λ z, [SqlInt z]) <$> {[mysqlCacheSchemaComponent "cache_entries" := 0]})]}.
Proof. vm_compute. reflexivity. Qed.

Lemma interrupted_wf : versions_wf (sv_db interrupted).
Proof.
  rewrite interrupted_db. intros tb Htb. apply lookup_singleton_Some in Htb as [_ <-]. apply version_table_wf.
Qed.

Lemma NewMySQLCache_recovers_witness :
  ∃ w' db, outcomes (NewMySQLCache local_driver (Some [0%nat]) (cache_options "" 0)) interrupted =
    [(w', Ok (MkMySQLCache (Some db) "cache_entries" mysqlMediumTextMax))] ∧ ready "cache_entries" (sv_db w').
Proof.
  destruct (NewMySQLCache_recovers local_driver sv_db steady local_server local_in_service
              (Some [0%nat]) (cache_options "" 0) "cache_entries" mysqlMediumTextMax interrupted
              eq_refl ltac:(discriminate) eq_refl interrupted_wf) as [_ Hall].
  { unfold recoverable. destruct interrupted_at as [-> ->]. by left. }
  destruct (outcomes (NewMySQLCache local_driver (Some [0%nat]) (cache_options "" 0)) interrupted)
    as [|[w' r] [|]] eqn:Ho; [vm_compute in Ho; discriminate Ho| |vm_compute in Ho; discriminate Ho].
  destruct (Hall w' r) as (db & -> & Hready); [left|].
  exists w', db. split; [reflexivity|exact Hready].
Defined.

(** The options accept the name of the version table: the constructor makes that table,
    records a marker for it and fails, then and every time after. *)
Definition own_table : MySQLCacheOptions := cache_options mysqlSchemaVersionTbl 0.
Definition steady_empty : server := Server (Ctxs ∅ 1) ∅ false.
Definition texts (l : list (server * res (MySQLCache nat))) : list (option Z * string) :=
  (λ '(w, r), (version_of (sv_db w) mysqlSchemaVersionTbl, match r with Ok _ => "" | Err e => Error e end)) <$> l.

Example own_table_fails :
  texts (outcomes (NewMySQLCache local_driver None own_table) steady_empty) =
  [(Some 0, "mysql cache migrate: create cache table: invalid connection")].
Proof. vm_compute. reflexivity. Qed.

(** ** Entries *)

Definition recorded_key_digest : string := "de7120bfe3cbfd54a6f5559293e5cf14fd4f8c55a87628c75a6be447ea59f17d".
Definition entry_row : list sqlValue :=
  match entry_values recorded_key_digest recorded_key recorded_value 0 with _ :: cells => cells | [] => [] end.

(** A database with a ready table and one entry in it. *)
Definition one_entry : table := set_row recorded_key_digest entry_row cache_table.
Definition stocked : server := Server (Ctxs ∅ 1) {["cache_entries" := one_entry]} false.

Lemma entry_row_text : value_cell entry_row = SqlBytes recorded_text.
Proof. vm_compute. reflexivity. Qed.

Lemma stocked_entries : holds_entries "cache_entries" (sv_db stocked).
Proof.
  exists one_entry. split; [apply lookup_insert_eq|]. split; [by split|]. intros k cells Hr. simpl in Hr.
  apply lookup_insert_Some in Hr as [[_ <-]|[_ Hr]]; [|by rewrite lookup_empty in Hr].
  exists recorded_text. exact entry_row_text.
Qed.

Lemma stocked_row : row_text "cache_entries" recorded_key_digest (sv_db stocked) = Some recorded_text.
Proof.
  unfold row_text, stocked. cbn [sv_db]. rewrite lookup_singleton_eq. cbn [mbind option_bind one_entry set_row t_rows].
  rewrite lookup_insert_eq. cbn [mbind option_bind]. by rewrite entry_row_text.
Qed.

Definition entries_cache : MySQLCache nat := MkMySQLCache (Some 0%nat) "cache_entries" 4096.

(** The same entry in a file and in a row: both caches answer the same. *)
Lemma MySQLCache_Load_answers_witness :
  ∃ w' (r : res (option json)),
    (w', r) ∈ outcomes (MySQLCache_Load local_driver (Some entries_cache) [0%nat] recorded_key) stocked ∧
    ((∃ e, Is e ErrNoRows = false ∧ r = Err (Errorf "read mysql cache entry: %w" [ArgWrap e])) ∨
     outcomes (FileCache_Load [] (Some small_cache) [0%nat] recorded_key) (disk recorded_text) =
       [(disk recorded_text, r)]).
Proof.
  destruct (outcomes (MySQLCache_Load (V := json) local_driver (Some entries_cache) [0%nat] recorded_key) stocked)
    as [|[w' r] l] eqn:Ho; [vm_compute in Ho; discriminate Ho|].
  assert ((w', r) ∈ outcomes (MySQLCache_Load (V := json) local_driver (Some entries_cache) [0%nat] recorded_key) stocked)
    as Hin by (rewrite Ho; left).
  exists w', r. split; [rewrite <-Ho; exact Hin|].
  assert (∀ k, Key_Digest recorded_key = Ok k →
    content (fw_fs (disk recorded_text)) (entry_path (directory small_cache) k) =
    row_text "cache_entries" k (sv_db stocked)) as Hsame.
  { intros k Hk. rewrite recorded_digest in Hk. injection Hk as <-. transitivity (Some recorded_text); [reflexivity|symmetry; exact stocked_row]. }
  destruct (MySQLCache_Load_answers (Has0 := server_ctxs) local_driver sv_db local_server 0%nat "cache_entries" 4096 eq_refl
           [0%nat] recorded_key stocked w' r small_cache (disk recorded_text) stocked_entries eq_refl eq_refl Hsame Hin)
    as [_ [Hq|[Hl _]]]; [left; exact Hq|right; exact Hl].
Defined.

Lemma MySQLCache_Store_atomic_witness :
  ∃ w' r, (w', r) ∈ outcomes (MySQLCache_Store local_driver (Some entries_cache) [0%nat] recorded_key recorded_value) stocked ∧
    is_ok r = true ∧ holds_entries "cache_entries" (sv_db w').
Proof.
  destruct (outcomes (MySQLCache_Store local_driver (Some entries_cache) [0%nat] recorded_key recorded_value) stocked)
    as [|[w' r] l] eqn:Ho; [vm_compute in Ho; discriminate Ho|].
  assert (head ((λ p, is_ok p.2) <$> outcomes (MySQLCache_Store local_driver (Some entries_cache) [0%nat] recorded_key recorded_value) stocked)
          = Some true) as Hok by (vm_compute; reflexivity).
  rewrite Ho in Hok. injection Hok as Hok.
  assert ((w', r) ∈ outcomes (MySQLCache_Store local_driver (Some entries_cache) [0%nat] recorded_key recorded_value) stocked)
    as Hin by (rewrite Ho; left).
  exists w', r. split; [rewrite <-Ho; exact Hin|]. split; [exact Hok|].
  apply (MySQLCache_Store_atomic local_driver sv_db local_server 0%nat "cache_entries" 4096 eq_refl
           [0%nat] recorded_key recorded_value recorded_key_digest stocked w' r
           recorded_utf8 recorded_faithful recorded_digest stocked_entries Hin).
Defined.

Lemma entries_fit_witness :
  Forall2 (λ a x, fits a x = true) (entry_values recorded_key_digest recorded_key recorded_value 1700000000000) cache_columns.
Proof.
  apply (entries_fit (cache_options "" 4096) "cache_entries" 4096 recorded_key recorded_key_digest recorded_value
           1700000000000 "main" eq_refl recorded_digest).
  - unfold in64, min64, max64. lia.
  - vm_compute. reflexivity.
Defined.
