(* ===== verification/MysqlMap.v ===== *)
(** * Cached maps over a MySQL table

    [MySQLCache] is a cache of execution/cached_map.go: behind [MapCached] it keeps
    what CachedMapProofs.v asks of one.  Rows that somebody damaged can make a call
    fail, but no row that passes the checks of [Load] can make it answer wrongly. *)

From S2P Require Import Prelude GoError GoStrings Go Rely Limits Budget Rate Chain ErrGroup BoundedMap Digest Json JsonProofs.
From S2P Require Import Fsutil Cache Report Groups CachedMap CachedMapProofs CachedStore Mysql MysqlProofs MysqlEntries.

(** [check_row] reads the value from the entry alone: two keys that accept an entry
    find the same value in it. *)
Lemma check_row_value {V} `{!Codec V} k k' data (v v' : V) :
  check_row k data = Ok v → check_row k' data = Ok v' → v = v'.
Proof.
  unfold check_row. destruct (DecodeStrictInto decode_envelope data) as [x|e]; [|done].
  destruct (_ || _); [done|]. destruct (_ || _); [done|].
  destruct (DecodeStrictInto _ (Value x)) as [y|e]; [|done]. by intros [= <-] [= <-].
Qed.

Section mysql_map.
Context {U W H : Type} `{!Has (limits U) W, !Has ctxs W} (D : driver W H) (view : W → database).
Context {EG : ErrGroup} {T R : Type} `{!Codec R} (zero : R) (key : T → res Key) (f : T → R).
Context (db : H) (t : string) (n : Z) (Hid : mysqlIdentifier t = true).
Context (server : mysql_server D view).

Definition mysql_cache : cache W :=
  MkCache _ (λ V codec c key, MySQLCache_Load D (Some (MkMySQLCache (Some db) t n)) c key)
    (λ V codec c key v, MySQLCache_Store D (Some (MkMySQLCache (Some db) t n)) c key v).

(** No row the checks accept holds anything but [f] of the items with its key. *)
Definition sound_rows (w : W) : Prop :=
  holds_entries t (view w) ∧
  ∀ item k d text v, key item = Ok k → Key_Digest k = Ok d → row_text t d (view w) = Some text →
    check_row k text = Ok v → v = f item.

Notation keeps Q p := (owns (λ w (_ : unit), sound_rows w) (λ r _, Q r) p tt).

Context (Hfaithful : ∀ item, faithful (f item)) (Hutf8 : ∀ item k, key item = Ok k → key_utf8 k).
Context (Hdet : ∀ item item' k k' d, key item = Ok k → key item' = Ok k' →
  Key_Digest k = Ok d → Key_Digest k' = Ok d → f item = f item').

Lemma sound_rows_same w w' : view w' = view w → sound_rows w → sound_rows w'.
Proof. unfold sound_rows. by intros ->. Qed.

Lemma keeps_sql_ctx_Err c : keeps (λ _, True) (sql_ctx_Err c).
Proof. apply owns_atomic. intros w [] Hw. by exists tt. Qed.

Lemma keeps_mysql_Load c k : keeps (λ r, ∀ v, r = Ok (Some v) → loads key f k v) (cache_Load mysql_cache R c k).
Proof.
  unfold mysql_cache, MySQLCache_Load. cbn [cache_Load opened mc_db mc_table mc_maxEntryBytes].
  eapply owns_rbind; [apply keeps_sql_ctx_Err| |done]. intros [] [] _.
  destruct (Key_Digest k) as [d|e] eqn:Hd; [|by apply owns_ret].
  apply owns_bind' with (λ r _, ∀ raw v, r = Ok raw → check_row k raw = Ok v → loads key f k v).
  - unfold QueryRow. apply owns_bind' with (λ r _, ∀ raw v, scan_one to_bytes r = Ok raw → check_row k raw = Ok v → loads key f k v).
    + apply owns_await. intros w [] w' r Hw Hin. destruct (srv_value D view server t d Hid db c w w' r Hin) as [Hv Ha].
      exists tt. split; [by eapply sound_rows_same|]. intros raw v Hscan Hcheck item Hk.
      destruct Hw as [(tb & Htb & Hshape & Hrows) Hsound].
      destruct r as [[rows [e|]]|e]; [|destruct Ha as (tb' & Htb' & Ha)|done].
      { destruct rows as [|[|x [|]] rows]; simpl in Hscan; try done. by destruct (to_bytes x). }
      rewrite Htb in Htb'. injection Htb' as <-. rewrite (Ha Hshape) in Hscan.
      destruct (t_rows tb !! d) as [cells|] eqn:Hc; [|done]. simpl in Hscan.
      destruct (Hrows _ _ Hc) as [s Hs]. rewrite Hs in Hscan. injection Hscan as <-.
      eapply (Hsound item k d s v); [done|done| |done]. unfold row_text. rewrite Htb. simpl. rewrite Hc. simpl. by rewrite Hs.
    + intros r [] Hr. by apply owns_ret.
  - intros [raw|e] [] Hr; [|by apply owns_ret; destruct (Is e ErrNoRows)].
    destruct (_ <? _); apply owns_ret; [done|]. intros v Hv. destruct (check_row k raw) as [v'|e'] eqn:Hcheck; [|done].
    injection Hv as ->. by eapply Hr.
Qed.

Lemma keeps_mysql_Store c k item v :
  key item = Ok k → works f item v → keeps (λ _, True) (cache_Store mysql_cache R c k v).
Proof.
  intros Hk ->. unfold mysql_cache, MySQLCache_Store. cbn [cache_Store opened mc_db mc_table mc_maxEntryBytes].
  eapply owns_rbind; [apply keeps_sql_ctx_Err| |done]. intros [] [] _.
  destruct (Key_Digest k) as [d|e] eqn:Hd; [|by apply owns_ret].
  destruct (Hfaithful item) as (j & -> & Hj & Hdec & _). cbv zeta. destruct (_ <? _); [by apply owns_ret|].
  eapply (owns_bind' _ (λ _ _, True)); [apply owns_atomic; intros w [] Hw; by exists tt|]. intros now [] _.
  eapply (owns_bind' _ (λ _ _, True)); [|by intros; apply owns_ret].
  apply owns_await. intros w [] w' r Hw Hin. exists tt. split; [|done].
  destruct Hw as [Hent Hsound].
  destruct (srv_upsert D view server t d _ Hid db c w w' r Hin) as [Hup|[_ Hv]]; [| |by eapply sound_rows_same].
  { intros tb Htb. destruct Hent as (tb' & Htb' & Hs & _). rewrite Htb in Htb'. by injection Htb' as ->. }
  destruct (upsert_entries t d _ (render (envelope_json k j)) _ _ Hup eq_refl Hent) as [Hent' Hrows]. split; [done|].
  intros item' k' d' text v' Hk' Hd' Htext Hcheck. rewrite Hrows in Htext. case_decide as Heq; [|by eapply Hsound].
  destruct Heq as [_ ->]. injection Htext as <-.
  rewrite (check_row_value k' k _ v' (f item) Hcheck); [by eapply Hdet|].
  rewrite check_row_entry. apply check_entry_render; [by eapply Hutf8|done|done].
Qed.

(** The driver leaves the contexts of the program alone. *)
Context (Env : W → W → Prop) (c : ctx) (items : list T) (start : W).
Notation calm := (tame (U := U) (scopes (ctxs_of start))).
Context (Hquery : ∀ h c stmt args w w' r, (w', r) ∈ sql_Query D h c stmt args w → calm w w').
Context (Hexec : ∀ h c stmt args w w' r, (w', r) ∈ sql_Exec D h c stmt args w → calm w w').
Context (Hreplace : ∀ (l : limits U) w, view (replace l w) = view w).
Context (Henv : ∀ w w', Env w w' → (sound_rows w → sound_rows w') ∧ calm w w').
Context (Hstart : sound_rows start) (Hctxs : ctxs_ok (ctxs_of start)).

Lemma calm_refl w : calm w w.
Proof. by split. Qed.

Lemma calm_sql_ctx_Err cx : guarantees calm (λ r : res unit, match r with Ok _ | Err _ => True end) (sql_ctx_Err cx).
Proof. apply guarantees_atomic. intros w. split; [apply calm_refl|]. simpl. by destruct (ctx_err _ _). Qed.

Lemma calm_Load k cx : guarantees calm (λ _, True) (cache_Load mysql_cache R cx k).
Proof.
  unfold mysql_cache, MySQLCache_Load. cbn [cache_Load opened mc_db mc_table mc_maxEntryBytes].
  eapply (guarantees_rbind _ (λ _, True)); [apply calm_sql_ctx_Err|]. intros [] _.
  destruct (Key_Digest k); [|by apply guarantees_ret].
  eapply (guarantees_bind _ (λ _, True)); [eapply (guarantees_bind _ (λ _, True))|].
  - apply guarantees_await. intros w w' r Hin. split; [by eapply Hquery|done].
  - intros r _. by apply guarantees_ret.
  - intros [raw|e] _; [destruct (_ <? _)|]; by apply guarantees_ret.
Qed.

Lemma calm_Store k v cx : guarantees calm (λ _, True) (cache_Store mysql_cache R cx k v).
Proof.
  unfold mysql_cache, MySQLCache_Store. cbn [cache_Store opened mc_db mc_table mc_maxEntryBytes].
  eapply (guarantees_rbind _ (λ _, True)); [apply calm_sql_ctx_Err|]. intros [] _.
  destruct (Key_Digest k); [|by apply guarantees_ret]. destruct (encode v); [|by apply guarantees_ret].
  cbv zeta. destruct (_ <? _); [by apply guarantees_ret|].
  eapply (guarantees_bind _ (λ _, True)); [apply guarantees_atomic; intros w; split; [apply calm_refl|done]|].
  intros now _. eapply (guarantees_bind _ (λ _, True)); [|by intros; apply guarantees_ret].
  apply guarantees_await. intros w w' r Hin. split; [by eapply Hexec|done].
Qed.

Lemma mysql_client : cache_client Env sound_rows (loads key f) (works f) start key mysql_cache.
Proof.
  split.
  - intros cx k. apply keeps_mysql_Load.
  - intros cx k item v. apply keeps_mysql_Store.
  - intros cx k. apply calm_Load.
  - intros cx k v. apply calm_Store.
  - intros l w. by apply sound_rows_same.
  - done.
  - done.
  - done.
Qed.

(** C18: [MapCached] over a MySQL table, with a work function that computes [f]: whatever
    the table holds, as long as no row that passes the checks is wrong, however the
    workers interleave with one another and with other users of the table, and
    whichever queries fail: results that are returned are [f] of the items in order,
    and the table still holds no wrong row. *)
Theorem MapCached_mysql options work onResult notify w' rs rep :
  cached_args options (Some work) onResult = Ok (mysql_cache, key, work, notify) →
  callback_ok sound_rows start notify → work_ok sound_rows (works f) start work →
  MapCached_returns zero Env c items options (Some work) onResult start w' (Ok rs, rep) →
  rs = f <$> items ∧ sound_rows w'.
Proof.
  intros Hargs Hn Hw Hret.
  destruct (MapCached_spec zero Env c items sound_rows (loads key f) (works f) start options work onResult mysql_cache key
    work notify w' rs rep Hargs mysql_client Hn Hw Hret) as (Hs & hits & misses & Hserved & _). split; [|done].
  eapply (served_transparent items (loads key f) (works f) f key); [| |by apply (same_key_same_value key f)|exact Hserved].
  - intros k v item Hl Hk. by apply Hl.
  - done.
Qed.
End mysql_map.
