(* ===== verification/MysqlMapRun.v ===== *)
(** * A concrete cached map over a MySQL table

    The questions of CachedStore.v, answered through the server of MysqlRun.v: what a
    driver does to a server it also does to a world that contains the server
    ([lifted]), so the laws carry over. *)

From S2P Require Import Prelude GoError GoStrings Go Rely Limits Budget Rate Chain ErrGroup BoundedMap Digest Json JsonProofs.
From S2P Require Import Fsutil Cache Report Groups CachedMap CachedMapProofs CachedStore Mysql MysqlProofs MysqlRecovery.
From S2P Require Import MysqlEntries MysqlRun MysqlMap.

(** ** Drivers of a part of the world *)

Section lifted.
Context {S W H : Type} `{!Has S W} (D : driver S H) (view : S → database).

Definition lift {X} (act : S → list (S * X)) (w : W) : list (W * X) := (λ '(s, x), (replace s w, x)) <$> act (inside w).

Definition lifted : driver W H := {|
  sql_Open n dsn := lift (sql_Open D n dsn);
  sql_Set h s w := replace (sql_Set D h s (inside w)) w;
  sql_Close h := lift (sql_Close D h);
  sql_Conn h c := lift (sql_Conn D h c);
  sql_Query h c stmt args := lift (sql_Query D h c stmt args);
  sql_Exec h c stmt args := lift (sql_Exec D h c stmt args);
  sql_UnixMilli w := sql_UnixMilli D (inside w);
|}.
Notation seen w := (view (inside w)).

Lemma elem_lift {X} (act : S → list (S * X)) (w w' : W) x :
  (w', x) ∈ lift act w → ∃ s, (s, x) ∈ act (inside w) ∧ w' = replace s w.
Proof. intros ([s y] & [= -> ->] & Hin)%list_elem_of_fmap. by exists s. Qed.

Lemma lifted_keeps {X} (act : S → list (S * X)) : keeps_view view act → keeps_view (λ w : W, seen w) (lift act).
Proof. intros Ha w w' x (s & Hin & ->)%elem_lift. rewrite inside_replace. by eapply Ha. Qed.

Lemma lifted_asks stmt args ans : asks D view stmt args ans → asks lifted (λ w, seen w) stmt args ans.
Proof. intros Ha h c w w' r (s & Hin & ->)%elem_lift. rewrite inside_replace. by eapply Ha. Qed.

Lemma lifted_does stmt args pre effect : does D view stmt args pre effect → does lifted (λ w, seen w) stmt args pre effect.
Proof. intros Ha h c w w' r (s & Hin & ->)%elem_lift. rewrite inside_replace. by eapply Ha. Qed.

Lemma lifted_server : mysql_server D view → mysql_server lifted (λ w, seen w).
Proof.
  intros server. split.
  - intros n dsn. apply lifted_keeps, (srv_open D view server).
  - intros h s w. simpl. rewrite inside_replace. apply (srv_set D view server).
  - intros h. apply lifted_keeps, (srv_close D view server).
  - intros h c. apply lifted_keeps, (srv_conn D view server).
  - apply lifted_asks, (srv_database D view server).
  - intros name. apply lifted_asks, (srv_lock D view server).
  - intros name. apply lifted_asks, (srv_unlock D view server).
  - intros t. apply lifted_asks, (srv_tables D view server).
  - intros k. apply lifted_asks, (srv_version D view server).
  - intros t. apply lifted_asks, (srv_columns D view server).
  - intros t. apply lifted_asks, (srv_primary D view server).
  - intros t k Hid. by apply lifted_asks, (srv_value D view server).
  - apply lifted_does, (srv_create_versions D view server).
  - intros t Hid. by apply lifted_does, (srv_create_cache D view server).
  - intros k. apply lifted_does, (srv_marker D view server).
  - intros v k. apply lifted_does, (srv_update D view server).
  - intros t k cells Hid. by apply lifted_does, (srv_upsert D view server).
Qed.
End lifted.

(** ** The world of the run *)

Record connected := Connected { cn_limits : limits unit; cn_server : server }.

#[export] Program Instance connected_limits : Has (limits unit) connected :=
  {| inside := cn_limits; replace l w := Connected l (cn_server w) |}.
Solve All Obligations with by intros; repeat match goal with w : connected |- _ => destruct w end.
#[export] Program Instance connected_server : Has server connected :=
  {| inside := cn_server; replace s w := Connected (cn_limits w) s |}.
Solve All Obligations with by intros; repeat match goal with w : connected |- _ => destruct w end.
#[export] Program Instance connected_ctxs : Has ctxs connected :=
  {| inside w := lw_ctxs (cn_limits w); replace t w := Connected (set_ctxs t (cn_limits w)) (cn_server w) |}.
Solve All Obligations with by intros; repeat match goal with w : connected |- _ => destruct w as [[]] end.

Notation W := connected.
Definition connection : driver W nat := lifted local_driver.
Definition db_of (w : W) : database := sv_db (cn_server w).
Definition table_cache : cache W := mysql_cache connection 0%nat "cache_entries" 4096.

Lemma connection_server : mysql_server connection db_of.
Proof. exact (lifted_server local_driver sv_db local_server). Qed.

Definition ready_db : server := Server (Ctxs ∅ 1) {["cache_entries" := cache_table]} false.
Definition asking_world : W := Connected (Limits (Ctxs ∅ 1) [] [] [] tt) ready_db.
Definition say_here : ctx → bool → prog W (res json) := λ _ b, mret (Ok (said b)).
Definition asking_table : CachedMapOptions (U := unit) (W := W) (T := bool) :=
  MkCachedMapOptions (MkMapOptions 2 None None) (Some table_cache) (Some asked).
Definition still (w w' : W) : Prop := False.
Definition quiet : nat → json → CacheOutcome → prog W (res unit) := λ _ _ _, mret (Ok tt).

(** Both keys are looked up: four actions, and nothing is found. *)
Definition table_lookups : prog W (loading json * res (list (keyGroup bool))) :=
  load_run JNull [0%nat] questions table_cache quiet groups_asked.1 groups_of_run.

Lemma table_lookups_run : runs still table_lookups asking_world (world_after 4 table_lookups asking_world) (not_found, Ok groups_of_run).
Proof. apply replay_runs. vm_compute. reflexivity. Qed.

Definition table_world : mapw W := MapW (world_after 4 table_lookups asking_world) (ld_outcomes not_found) 0 0.
Definition table_start : mstate (mapw W) (keyGroup bool) (completed json) :=
  map_start (nothing JNull) (miss_options (co_Map asking_table)) groups_of_run
    (map_ctxs (λ _, (WithCancel [0%nat] (ctxs_of table_world)).1) table_world).
Notation table_job := (job (miss_options (co_Map asking_table)) (miss_work quiet table_cache say_here) run_ctx).

(** Storing a row takes one action more than storing in memory. *)
Definition table_schedule : list choice :=
  [Deliver 0; Deliver 1; FeedAll] ++ concat (replicate 6 [WorkerAct 0; WorkerAct 1]) ++ [WorkerAct 0] ++
  [EndFeeder; WorkerAct 0; WorkerAct 1; DrainWorker 0; DrainWorker 1; EndWorker 1; EndWorker 0].
Definition table_replayed : option (mstate (mapw W) (keyGroup bool) (completed json)) :=
  replay run_ctx table_job table_schedule table_start.
Definition table_end : mstate (mapw W) (keyGroup bool) (completed json) := default table_start table_replayed.
Definition table_report : CacheReport := final_report not_found (m_world table_end).

Lemma table_workers : rtc (mstep run_ctx table_job (around still)) table_start table_end ∧ mfinal table_end.
Proof.
  destruct (ended mfinal table_replayed table_start) as [Hr Hf]; [vm_compute; repeat constructor|].
  split; [by eapply replay_steps|exact Hf].
Qed.

Lemma table_run :
  MapCached_returns JNull still [0%nat] questions asking_table (Some say_here) [] asking_world (mw_base (m_world table_end))
    (Ok [said true; said false; said true], table_report).
Proof.
  assert (MapCached_returns JNull still [0%nat] questions asking_table (Some say_here) [] asking_world (mw_base (m_world table_end))
    ((λ cs, spread_all cs (ld_results not_found)) <$> map_result table_end, table_report)) as Hret.
  { eapply (cached_worked _ _ _ _ _ _ _ _ table_cache asked say_here quiet groups_asked.1 groups_of_run); [reflexivity|done| | | |].
    - vm_compute. reflexivity.
    - exact table_lookups_run.
    - by vm_compute.
    - destruct table_workers as [Hs Hf]. eapply Map_runs; [by vm_compute|reflexivity|exact Hs|exact Hf]. }
  assert ((λ cs, spread_all cs (ld_results not_found)) <$> map_result table_end = Ok [said true; said false; said true]) as Heq
    by (vm_compute; reflexivity).
  by rewrite Heq in Hret.
Qed.

(** Both rows are in the table at the end. *)
Lemma table_rows : cr_Writes table_report = 2 ∧
  option_map (λ tb, size (t_rows tb)) (db_of (mw_base (m_world table_end)) !! "cache_entries") = Some 2%nat.
Proof. vm_compute. split; reflexivity. Qed.

Lemma asked_utf8 b k : asked b = Ok k → key_utf8 k.
Proof. intros Hk. apply Ok_inj in Hk. subst k. destruct b; vm_compute; repeat split. Qed.

Lemma ready_sound : sound_rows db_of asked said "cache_entries" asking_world.
Proof.
  split.
  - exists cache_table. split; [apply lookup_insert_eq|]. split; [by split|]. intros k cells Hr. simpl in Hr. by rewrite lookup_empty in Hr.
  - intros item k d text v _ _ Htext. unfold row_text in Htext. change (db_of asking_world) with (sv_db ready_db) in Htext.
    cbn [sv_db ready_db] in Htext. rewrite lookup_singleton_eq in Htext. cbn [mbind option_bind t_rows cache_table] in Htext.
    by rewrite lookup_empty in Htext.
Qed.

Lemma quiet_ok (P : W → Prop) start : callback_ok P start quiet.
Proof. split; intros; [by apply owns_ret|by apply guarantees_ret]. Qed.

Lemma say_here_ok : work_ok (sound_rows db_of asked said "cache_entries") (works said) asking_world say_here.
Proof. split; [|done]. intros c item. apply owns_ret. by intros v [= <-]. Qed.

Lemma connection_calm {X} (act : server → list (server * X)) (w w' : W) x n :
  (w', x) ∈ lift act w → tame (U := unit) n w w'.
Proof. intros (s & _ & ->)%elem_lift. by split. Qed.

Lemma MapCached_mysql_witness :
  MapCached_returns JNull still [0%nat] questions asking_table (Some say_here) [] asking_world (mw_base (m_world table_end))
    (Ok [said true; said false; said true], table_report) ∧
  sound_rows db_of asked said "cache_entries" (mw_base (m_world table_end)).
Proof.
  split; [exact table_run|].
  apply (MapCached_mysql connection db_of JNull asked said 0%nat "cache_entries" 4096 eq_refl connection_server
    said_faithful asked_utf8 asked_apart still [0%nat] questions asking_world
    ltac:(intros h c stmt args w w' r; apply connection_calm) ltac:(intros h c stmt args w w' r; apply connection_calm)
    ltac:(done) ltac:(intros w w' []) ready_sound ltac:(intros id _; apply lookup_empty)
    asking_table say_here [] quiet _ _ _ eq_refl (quiet_ok _ _) say_here_ok table_run).
Defined.
