(* ===== verification/Paths.v ===== *)
(** * Paths and trees: JoinWithin and DirectorySize of internal/fsutil/fsutil.go

    [Clean], [Join] and [Rel] are those of path/filepath where the separator is "/",
    on the elements of a path.  [JoinWithin] is shown to stay below its root.
    A directory is what a walk finds in it: the size of each entry, or the error of
    asking. *)

From Stdlib Require Import Ascii.
From S2P Require Import Prelude GoError GoStrings JsonProofs Go Fsutil Rely.

(** ** path/filepath *)

(** [strings.Split(s, "/")] *)
Fixpoint elements (s : string) : list string :=
  match s with
  | "" => [""]
  | String a s =>
      if decide (a = slash) then "" :: elements s
      else match elements s with e :: es => String a e :: es | [] => [] end
  end.

Definition IsAbs (s : string) : bool := match s with String a _ => bool_decide (a = slash) | "" => false end.

(** One element of a path, after those in [out], latest first. *)
Definition clean_step (rooted : bool) (out : list string) (e : string) : list string :=
  if decide (e = "" ∨ e = ".") then out else
  if decide (e = "..") then
    match out with
    | x :: out' => if decide (x = "..") then ".." :: out else out'
    | [] => if rooted then [] else [".."]
    end
  else e :: out.

Definition cleaned (s : string) : list string := reverse (foldl (clean_step (IsAbs s)) [] (elements s)).

(** The text of a cleaned path. *)
Definition path_text (rooted : bool) (es : list string) : string :=
  if rooted then "/" +:+ Join_strings "/" es else match es with [] => "." | _ => Join_strings "/" es end.

Definition Clean (s : string) : string := path_text (IsAbs s) (cleaned s).

(** [filepath.Join] of two elements. *)
Definition Join_path (a b : string) : string :=
  if decide (a = "") then (if decide (b = "") then "" else Clean b) else Clean (a +:+ "/" +:+ b).

Fixpoint strip_common (base targ : list string) : list string * list string :=
  match base, targ with
  | b :: base', t :: targ' => if decide (b = t) then strip_common base' targ' else (base, targ)
  | _, _ => (base, targ)
  end.

(** The elements [filepath.Rel] compares; "." is the empty base, "/" one element. *)
Definition rel_elements (s : string) : list string :=
  if decide (s = ".") then [] else if decide (s = "/") then [""] else elements s.

Definition Rel (basepath targpath : string) : res string :=
  let refused := Err (New ("Rel: can't make " +:+ targpath +:+ " relative to " +:+ basepath)) in
  let base := Clean basepath in
  let targ := Clean targpath in
  if decide (targ = base) then Ok "." else
  if negb (Bool.eqb (IsAbs base) (IsAbs targ)) then refused else
  let '(b, t) := strip_common (rel_elements base) (elements targ) in
  match b with
  | [] => Ok (Join_strings "/" t)
  | ".." :: _ => refused
  | _ => Ok (Join_strings "/" (((λ _, "..") <$> b) ++ t))
  end.

(** ** JoinWithin *)

Definition dotdot_prefix (s : string) : bool := Stdlib.Strings.String.prefix "../" s.

Definition JoinWithin (root relative : string) : res string :=
  if decide (TrimSpace root = "") then Err (New "root path is required") else
  if bool_decide (relative = "") || IsAbs relative then Err (New "path must be non-empty and relative") else
  let clean := Clean relative in
  if bool_decide (clean = ".") || bool_decide (clean = "..") || dotdot_prefix clean then Err (New "path escapes root") else
  let root := Clean root in
  let path := Join_path root clean in
  match Rel root path with
  | Err _ => Err (New "path escapes root")
  | Ok relativeToRoot =>
      if bool_decide (relativeToRoot = "..") || dotdot_prefix relativeToRoot then Err (New "path escapes root")
      else Ok path
  end.

(** ** Elements *)

Definition no_slash (e : string) : Prop := elements e = [e].
(** An element that stays where it is. *)
Definition plain (e : string) : Prop := no_slash e ∧ e ≠ "" ∧ e ≠ "." ∧ e ≠ "..".

Lemma elements_nonempty s : elements s ≠ [].
Proof. induction s as [|a s IH]; [done|]. cbn [elements]. case_decide; [done|]. by destruct (elements s). Qed.

Lemma elements_slash a b : elements (a +:+ "/" +:+ b) = elements a ++ elements b.
Proof.
  induction a as [|x a IH]; [done|]. rewrite app_cons. cbn [elements].
  case_decide; [by rewrite IH|]. rewrite IH. destruct (elements a) as [|e es] eqn:He; [|done].
  by apply elements_nonempty in He.
Qed.

Lemma elements_no_slash s : Forall no_slash (elements s).
Proof.
  induction s as [|a s IH]; [by repeat constructor|]. cbn [elements]. case_decide as Ha; [by constructor|].
  destruct (elements s) as [|e es]; [constructor|]. apply Forall_cons in IH as [He Hes]. constructor; [|done].
  unfold no_slash in *. cbn [elements]. rewrite decide_False by done. by rewrite He.
Qed.

Lemma elements_join es : es ≠ [] → Forall no_slash es → elements (Join_strings "/" es) = es.
Proof.
  intros Hne Hes. induction Hes as [|e es He Hes IH]; [done|]. destruct es as [|e' es]; [exact He|].
  change (Join_strings "/" (e :: e' :: es)) with (e +:+ "/" +:+ Join_strings "/" (e' :: es)).
  rewrite elements_slash, He, IH by done. done.
Qed.

Lemma join_elements s : Join_strings "/" (elements s) = s.
Proof.
  induction s as [|a s IH]; [done|]. cbn [elements]. pose proof (elements_nonempty s). case_decide as Ha.
  - subst a. rewrite <-IH at 2. by destruct (elements s).
  - rewrite <-IH at 2. by destruct (elements s) as [|e [|e' es]].
Qed.

(** ** Cleaned paths *)

(** Elements that go up come first, and only where there is no root. *)
Definition normal (rooted : bool) (es : list string) : Prop :=
  ∃ k below, es = replicate k ".." ++ below ∧ Forall plain below ∧ (rooted = true → k = 0%nat).

Lemma clean_step_plain rooted out e : plain e → clean_step rooted out e = e :: out.
Proof. intros (_ & H1 & H2 & H3). unfold clean_step. by rewrite decide_False, decide_False by tauto. Qed.

Lemma clean_below rooted out below : Forall plain below → foldl (clean_step rooted) out below = reverse below ++ out.
Proof.
  revert out. induction below as [|e below IH]; intros out Hb; [done|]. apply Forall_cons in Hb as [He Hb].
  cbn [foldl]. rewrite clean_step_plain, IH by done. by rewrite reverse_cons, <-app_assoc.
Qed.

Lemma clean_ups k out : Forall (λ e, e = "..") out → foldl (clean_step false) out (replicate k "..") = replicate k ".." ++ out.
Proof.
  revert out. induction k as [|k IH]; intros out Ho; [done|]. cbn [replicate foldl].
  assert (clean_step false out ".." = ".." :: out) as ->.
  { unfold clean_step. rewrite decide_False, decide_True by (done || by intros [|]). destruct Ho as [|x out -> _]; [done|]. by rewrite decide_True. }
  rewrite IH by by constructor. clear. induction k as [|k IHk]; [done|]. simpl. by rewrite IHk.
Qed.

Lemma clean_normal rooted es : normal rooted es → foldl (clean_step rooted) [] es = reverse es.
Proof.
  intros (k & below & -> & Hb & Hk). rewrite foldl_app. destruct rooted.
  - rewrite Hk by done. cbn [replicate foldl]. by rewrite clean_below, app_nil_r.
  - rewrite clean_ups, clean_below by done. rewrite app_nil_r, reverse_app. f_equal.
    clear. induction k as [|k IHk]; [done|]. cbn [replicate]. rewrite reverse_cons, <-IHk.
    clear IHk. induction k as [|k IHk]; [done|]. simpl. by f_equal.
Qed.

Lemma clean_step_normal rooted out e :
  no_slash e → normal rooted (reverse out) → normal rooted (reverse (clean_step rooted out e)).
Proof.
  intros He (k & below & Ho & Hb & Hk). unfold clean_step. case_decide as H1; [by exists k, below|].
  case_decide as H2.
  - destruct out as [|x out].
    + destruct rooted; [by exists 0%nat, []|]. exists 1%nat, []. by repeat split.
    + rewrite reverse_cons in Ho. destruct below as [|y below _] using rev_ind.
      * rewrite app_nil_r in Ho. destruct k as [|k]; [by destruct (reverse out)|].
        replace (S k) with (k + 1)%nat in Ho by lia. rewrite replicate_add in Ho. apply app_inj_tail in Ho as [Ho ->].
        rewrite decide_True by done. exists (S (S k)), []. rewrite app_nil_r. split_and!; [|done|].
        { rewrite !reverse_cons, Ho. replace (S (S k)) with (k + 1 + 1)%nat by lia. by rewrite !replicate_add. }
        intros Hr. by specialize (Hk Hr).
      * rewrite app_assoc in Ho. apply app_inj_tail in Ho as [Ho ->]. apply Forall_app in Hb as [Hb Hy].
        apply Forall_singleton in Hy as (_ & _ & _ & Hy). rewrite decide_False by done. by exists k, below.
  - exists k, (below ++ [e]). rewrite reverse_cons, Ho, app_assoc. split_and!; [done| |done].
    apply Forall_app. split; [done|]. apply Forall_singleton. split_and!; [done|tauto|tauto|done].
Qed.

Lemma cleaned_normal s : normal (IsAbs s) (cleaned s).
Proof.
  unfold cleaned. generalize (IsAbs s). intros rooted. pose proof (elements_no_slash s) as Hs.
  assert (∀ out es, Forall no_slash es → normal rooted (reverse out) → normal rooted (reverse (foldl (clean_step rooted) out es))) as H.
  { intros out es. revert out. induction es as [|e es IH]; intros out Hes Ho; [done|].
    apply Forall_cons in Hes as [He Hes]. cbn [foldl]. apply IH; [done|]. by apply clean_step_normal. }
  apply H; [done|]. by exists 0%nat, [].
Qed.

Lemma normal_no_slash rooted es : normal rooted es → Forall no_slash es.
Proof.
  intros (k & below & -> & Hb & _). apply Forall_app. split; [by apply Forall_replicate|].
  eapply Forall_impl; [exact Hb|]. by intros e [? _].
Qed.

Lemma normal_app rooted es below : normal rooted es → Forall plain below → normal rooted (es ++ below).
Proof.
  intros (k & b & -> & Hb & Hk) H. exists k, (b ++ below). rewrite app_assoc. split_and!; [done| |done].
  by apply Forall_app.
Qed.

(** A path whose first element goes up. *)
Definition escapes (s : string) : bool := bool_decide (s = "..") || dotdot_prefix s.

Lemma prefix_app p s : Stdlib.Strings.String.prefix p (p +:+ s) = true.
Proof.
  induction p as [|a p IH]; [by destruct s|]. rewrite app_cons. cbn [Stdlib.Strings.String.prefix].
  by destruct (ascii_dec a a).
Qed.

Lemma escapes_elements s : escapes s = true ↔ head (elements s) = Some "..".
Proof.
  unfold escapes, dotdot_prefix. rewrite orb_true_iff, bool_decide_eq_true. split.
  - intros [-> | Hp]; [done|]. destruct s as [|a [|b [|c s]]]; try done.
    + cbn in Hp. by repeat (case_match; try done).
    + cbn in Hp. by repeat (case_match; try done).
    + cbn in Hp. by repeat (case_match; try done); subst.
  - intros Hh. rewrite <-(join_elements s). destruct (elements s) as [|e [|e' es]]; [done|..]; injection Hh as ->; [by left|].
    right. apply (prefix_app "../").
Qed.

(** What a cleaned text is cleaned to, and whether it is absolute. *)
Lemma path_text_IsAbs rooted es : normal rooted es → IsAbs (path_text rooted es) = rooted.
Proof.
  intros Hn. unfold path_text. destruct rooted; [done|]. destruct es as [|e es]; [done|].
  pose proof (normal_no_slash _ _ Hn) as Hs.
  pose proof (elements_join (e :: es)) as He. specialize (He ltac:(done) Hs).
  destruct (Join_strings "/" (e :: es)) as [|a t] eqn:Ht; [done|]. cbn [elements IsAbs] in He |- *.
  apply bool_decide_eq_false. intros ->. rewrite decide_True in He by done. injection He as <- _.
  destruct Hn as ([|k] & below & Hb & Hp & _); [|done]. cbn in Hb. subst below. apply Forall_cons in Hp as [(_ & Hp & _) _]. done.
Qed.

Definition root_elements (rooted : bool) : list string := if rooted then [""] else [].

Lemma path_text_elements rooted es :
  es ≠ [] → normal rooted es → elements (path_text rooted es) = root_elements rooted ++ es.
Proof.
  intros Hne Hn. pose proof (elements_join es Hne (normal_no_slash _ _ Hn)) as He. unfold path_text.
  destruct rooted; [|by destruct es]. change ("/" +:+ Join_strings "/" es) with ("" +:+ "/" +:+ Join_strings "/" es).
  by rewrite elements_slash, He.
Qed.

Lemma cleaned_path_text rooted es : normal rooted es → cleaned (path_text rooted es) = es.
Proof.
  intros Hn. unfold cleaned. rewrite path_text_IsAbs by done. destruct (decide (es = [])) as [-> | Hne]; [by destruct rooted|].
  rewrite path_text_elements by done. rewrite <-(reverse_involutive es) at 2. f_equal.
  rewrite foldl_app. destruct rooted; apply (clean_normal _ _ Hn).
Qed.

Lemma Clean_path_text rooted es : normal rooted es → Clean (path_text rooted es) = path_text rooted es.
Proof. intros Hn. unfold Clean. by rewrite cleaned_path_text, path_text_IsAbs. Qed.

Lemma normal_no_dot rooted es : normal rooted es → "" ∉ es ∧ "." ∉ es.
Proof.
  intros (k & below & -> & Hb & _). rewrite Forall_forall in Hb.
  split; (intros [H | H]%elem_of_app; [by apply elem_of_replicate in H as [? _]|]); apply Hb in H as (_ & ? & ? & _); done.
Qed.

Lemma rel_elements_text rooted es : normal rooted es → rel_elements (path_text rooted es) = root_elements rooted ++ es.
Proof.
  intros Hn. destruct (decide (es = [])) as [-> | Hne]; [by destruct rooted|]. unfold rel_elements.
  pose proof (path_text_elements _ _ Hne Hn) as He. apply normal_no_dot in Hn as [Hn1 Hn2].
  case_decide as H1; [rewrite H1 in He|case_decide as H2; [rewrite H2 in He|done]].
  - destruct rooted; [discriminate He|]. cbn in He. subst es. set_solver.
  - destruct rooted; cbn in He; [injection He as <-|subst es]; set_solver.
Qed.

Lemma strip_common_app b t : strip_common b (b ++ t) = ([], t).
Proof. induction b as [|e b IH]; [by destruct t|]. cbn [strip_common app]. by rewrite decide_True. Qed.

(** Below a directory the path of a descendant is the descent. *)
Lemma Rel_below rooted es below :
  normal rooted es → below ≠ [] → Forall plain below →
  Rel (path_text rooted es) (path_text rooted (es ++ below)) = Ok (Join_strings "/" below).
Proof.
  intros Hn Hne Hb. pose proof (normal_app _ _ _ Hn Hb) as Hn'. unfold Rel.
  rewrite !Clean_path_text by done. rewrite decide_False.
  2: { intros Heq%(f_equal cleaned). rewrite !cleaned_path_text in Heq by done.
       apply (f_equal length) in Heq. rewrite length_app in Heq. destruct below; [done|cbn in Heq; lia]. }
  rewrite !path_text_IsAbs by done. replace (negb (Bool.eqb rooted rooted)) with false by (by destruct rooted).
  rewrite rel_elements_text, path_text_elements by (done || by destruct es, below).
  by rewrite app_assoc, strip_common_app.
Qed.

Lemma Join_path_below rooted es below :
  normal rooted es → below ≠ [] → Forall plain below →
  Join_path (path_text rooted es) (path_text false below) = path_text rooted (es ++ below).
Proof.
  intros Hn Hne Hb. pose proof (path_text_IsAbs _ _ Hn) as Ha. pose proof (cleaned_path_text _ _ Hn) as Hc.
  assert (path_text rooted es ≠ "") as Ht. { intros Heq. rewrite Heq in Hc. cbn in Hc. subst es. by destruct rooted. }
  unfold Join_path. rewrite decide_False by done. unfold Clean, cleaned in *.
  assert (IsAbs (path_text rooted es +:+ "/" +:+ path_text false below) = rooted) as ->.
  { transitivity (IsAbs (path_text rooted es)); [|done]. by destruct (path_text rooted es). }
  f_equal. rewrite Ha in Hc. assert (normal false below) as Hb'. { by exists 0%nat, below. }
  rewrite elements_slash, (path_text_elements false) by done. cbn [root_elements app].
  rewrite foldl_app, clean_below, reverse_app, reverse_involutive, Hc by done. done.
Qed.

(** Whether a cleaned relative path goes up can be read off its first element. *)
Lemma plain_or_up es :
  normal false es → es ≠ [] →
  (Forall plain es ∧ escapes (path_text false es) = false) ∨
  (head es = Some ".." ∧ escapes (path_text false es) = true).
Proof.
  intros Hn Hne. pose proof (path_text_elements _ _ Hne Hn) as He. cbn [root_elements app] in He.
  destruct (escapes (path_text false es)) eqn:Hs.
  - right. split; [|done]. apply escapes_elements in Hs. by rewrite He in Hs.
  - left. split; [|done]. destruct Hn as ([|k] & below & -> & Hb & _); [done|].
    rewrite <-not_true_iff_false, escapes_elements, He in Hs. done.
Qed.

(** Why [JoinWithin] refuses; in this order. *)
Definition join_refusal (root relative : string) : option string :=
  if decide (TrimSpace root = "") then Some "root path is required" else
  if bool_decide (relative = "") || IsAbs relative then Some "path must be non-empty and relative" else
  if bool_decide (cleaned relative = []) || bool_decide (head (cleaned relative) = Some "..") then Some "path escapes root"
  else None.

Lemma path_text_dot es : normal false es → (path_text false es = "." ↔ es = []).
Proof.
  intros Hn. split; [|by intros ->]. intros Heq%(f_equal cleaned). by rewrite cleaned_path_text in Heq.
Qed.

Lemma JoinWithin_exact root relative :
  JoinWithin root relative =
  match join_refusal root relative with
  | Some text => Err (New text)
  | None => Ok (path_text (IsAbs root) (cleaned root ++ cleaned relative))
  end ∧ (join_refusal root relative = None → cleaned relative ≠ [] ∧ Forall plain (cleaned relative)).
Proof.
  unfold JoinWithin, join_refusal. case_decide; [done|]. destruct (_ || IsAbs relative) eqn:Hrel; [done|].
  apply orb_false_iff in Hrel as [_ Habs]. pose proof (cleaned_normal relative) as Hn. rewrite Habs in Hn.
  unfold Clean. rewrite Habs. destruct (decide (cleaned relative = [])) as [Hc | Hc]; [by rewrite Hc|].
  rewrite !(bool_decide_eq_false_2 (_ = [])) by done.
  rewrite (bool_decide_eq_false_2 (_ = ".")) by (by rewrite path_text_dot). cbn [orb].
  fold (escapes (path_text false (cleaned relative))).
  destruct (plain_or_up _ Hn Hc) as [[Hp ->] | [Hu ->]]; [|by rewrite bool_decide_eq_true_2].
  pose proof (cleaned_normal root) as Hr.
  rewrite Join_path_below, Rel_below by done. fold (escapes (Join_strings "/" (cleaned relative))).
  assert (path_text false (cleaned relative) = Join_strings "/" (cleaned relative)) as Ht by (by destruct (cleaned relative)).
  rewrite bool_decide_eq_false_2.
  2: { destruct (cleaned relative) as [|e es]; [done|]. apply Forall_cons in Hp as [(_ & _ & _ & ?) _]. intros [= ->]. done. }
  assert (escapes (Join_strings "/" (cleaned relative)) = false) as ->; [|done].
  rewrite <-Ht. destruct (plain_or_up _ Hn Hc) as [[_ ?] | [Hu _]]; [done|].
  destruct (cleaned relative) as [|e es]; [done|]. apply Forall_cons in Hp as [(_ & _ & _ & ?) _]. by injection Hu.
Qed.

(** ** DirectorySize *)

(** What a walk finds: a file with what [Info] says of it, or a directory with what
    [os.ReadDir] lists. *)
#[local] Unset Elimination Schemes.
Inductive entry :=
  | File (info : res Z)
  | Folder (listing : res (list entry)).
#[local] Set Elimination Schemes.

Lemma entry_ind (P : entry → Prop) :
  (∀ info, P (File info)) → (∀ e, P (Folder (Err e))) → (∀ dirs, Forall P dirs → P (Folder (Ok dirs))) → ∀ d, P d.
Proof.
  intros Hf He Hd. fix IH 1. intros [info|[dirs|e]]; [apply Hf| |apply He]. apply Hd.
  induction dirs as [|d dirs IHd]; constructor; [apply IH|apply IHd].
Qed.

Section directory_size.
Context (c : ctx).

(** The function [DirectorySize] gives to [filepath.WalkDir]; it returns the new total. *)
Definition visit (total : Z) (d : entry) (walkErr : option error) : prog ctxs (res Z) :=
  match walkErr with
  | Some e => mret (Err e)
  | None =>
      read (ctx_err c) ≫= λ stopped,
      match stopped, d with
      | Some e, _ => mret (Err e)
      | None, Folder _ => mret (Ok total)
      | None, File (Err e) => mret (Err e)
      | None, File (Ok size) => mret (Ok (total +! size))
      end
  end.

(** [filepath.WalkDir] below its root.  None of the errors here is [fs.SkipDir] or [fs.SkipAll]. *)
Fixpoint walkDir (d : entry) (total : Z) : prog ctxs (res Z) :=
  rbind (λ total,
    match d with
    | File _ => mret (Ok total)
    | Folder (Err e) => visit total d (Some e)
    | Folder (Ok dirs) =>
        (fix walk_all (dirs : list entry) (total : Z) : prog ctxs (res Z) :=
           match dirs with
           | [] => mret (Ok total)
           | d :: dirs => rbind (walk_all dirs) (walkDir d total)
           end) dirs total
    end) (visit total d None).

(** [root] is what [os.Lstat] answers for the root. *)
Definition DirectorySize (root : res entry) : prog ctxs (res Z) :=
  match root with
  | Err e => visit 0 (Folder (Err e)) (Some e)
  | Ok d => walkDir d 0
  end.
End directory_size.

(** The reference: the sizes a directory holds, an error where one cannot be had. *)
Fixpoint held (d : entry) : list (res Z) :=
  match d with
  | File info => [info]
  | Folder (Err e) => [Err e]
  | Folder (Ok dirs) => dirs ≫= held
  end.

Definition measured (total : Z) (sizes : list (res Z)) : res Z :=
  match first_some (λ r, match r with Err e => Some e | Ok _ => None end) sizes with
  | Some e => Err e
  | None => Ok (wrap64 (total + sum_by (λ r, match r with Ok z => z | Err _ => 0 end) sizes))
  end.

Definition directory_size (root : res entry) : res Z := measured 0 (match root with Ok d => held d | Err e => [Err e] end).

Lemma measured_nil z : measured (wrap64 z) [] = Ok (wrap64 z).
Proof. unfold measured. cbn. by rewrite Z.add_0_r, (wrap64_id (wrap64 z)) by apply wrap64_range. Qed.

Lemma measured_ok z a l : measured (wrap64 z) (Ok a :: l) = measured (wrap64 (z + a)) l.
Proof.
  unfold measured. cbn. case_match; [done|]. f_equal. rewrite !wrap64_succ. f_equal. apply Z.add_assoc.
Qed.

Lemma measured_app z l l' :
  measured (wrap64 z) (l ++ l') =
  match measured (wrap64 z) l with Ok z' => measured z' l' | Err e => Err e end.
Proof.
  revert z. induction l as [|[a|e] l IH]; intros z; [by rewrite measured_nil|..].
  - cbn [app]. by rewrite !measured_ok.
  - done.
Qed.

Lemma measured_wrapped z l a : measured z l = Ok a → wrap64 a = a.
Proof. unfold measured. case_match; intros [= <-]. apply wrap64_id, wrap64_range. Qed.

Section walk.
Context (c : ctx) (R : ctxs → ctxs → Prop) `{!PreOrder R} (w0 : ctxs).
#[local] Arguments upholds : simpl never.

(** Nothing else but an answer of the context, of a moment after [w0], ends a walk early. *)
Definition settled (expected : res Z) (r : res Z) (w : ctxs) : Prop :=
  R w0 w ∧ (r = expected ∨ ∃ w1 e, R w0 w1 ∧ ctx_err c w1 = Some e ∧ r = Err e).

Lemma stable_settled expected r : stable R (settled expected r).
Proof. intros w w' HR [? ?]. split; [by etrans|done]. Qed.

Lemma upholds_settled_bind (expected expected' : res Z) f p w :
  upholds R eq (settled expected) p w →
  (∀ a w', expected = Ok a → R w0 w' → upholds R eq (settled expected') (f a) w') →
  (∀ e, expected = Err e → expected' = Err e) →
  upholds R eq (settled expected') (rbind f p) w.
Proof.
  intros Hp Hf He. eapply (upholds_then R eq (settled expected)); [exact Hp|]. intros [a|e] w' [HR Hr].
  - destruct Hr as [<- | (w1 & e & _ & _ & [=])]. by apply Hf.
  - apply upholds_ret; [apply stable_settled|]. split; [done|].
    destruct Hr as [<- | Hr]; [left; by rewrite (He e)|by right].
Qed.

Definition visited (total : Z) (d : entry) : res Z :=
  match d with File info => measured total [info] | Folder _ => Ok total end.

Lemma visit_upholds z d w :
  R w0 w → upholds R eq (settled (visited (wrap64 z) d)) (visit c (wrap64 z) d None) w.
Proof.
  intros Hw. unfold visit. eapply (upholds_then R eq (λ stopped w', R w0 w' ∧ ∀ e, stopped = Some e → ∃ w1, R w0 w1 ∧ ctx_err c w1 = Some e)).
  - apply (upholds_await R eq (λ w, R w0 w)); [|..|exact Hw|].
    + intros ???. by etrans.
    + intros x ? ? ? [? ?]. split; [by etrans|done].
    + intros w1 w2 x H1 [= -> ->]%list_elem_of_singleton. split; [done|]. split; [done|]. by eauto.
  - intros [e|] w' [Hw' He].
    + apply upholds_ret; [apply stable_settled|]. split; [done|]. right. destruct (He e) as (w1 & ? & ?); [done|]. by exists w1, e.
    + destruct d as [[a|e]|ds]; apply upholds_ret; try apply stable_settled; (split; [done|left]); cbn [visited]; [|done..].
      rewrite measured_ok, measured_nil. by rewrite wrap64_succ.
Qed.

Lemma walkDir_upholds d : ∀ z w,
  R w0 w → upholds R eq (settled (measured (wrap64 z) (held d))) (walkDir c d (wrap64 z)) w.
Proof.
  induction d as [info|e|dirs IH]; intros z w Hw; cbn [walkDir];
    (eapply (upholds_settled_bind (visited (wrap64 z) _)); [by apply visit_upholds|..]); cbn [visited held]; try done.
  - intros a w' Ha Hw'. apply upholds_ret; [apply stable_settled|]. split; [done|left]. by rewrite Ha.
  - intros a w' [= <-] Hw'. apply upholds_ret; [apply stable_settled|]. split; [done|by left].
  - intros a w' [= <-] Hw'. clear w Hw. revert z w' Hw'. induction IH as [|d dirs Hd _ IHds]; intros z w Hw.
    + apply upholds_ret; [apply stable_settled|]. split; [done|left]. by rewrite measured_nil.
    + eapply upholds_settled_bind; [by apply Hd|..].
      * intros a w' Ha Hw'. rewrite <-(measured_wrapped _ _ _ Ha). 
        replace (measured (wrap64 z) ((d :: dirs) ≫= held)) with (measured (wrap64 a) (dirs ≫= held)); [by apply IHds|].
        rewrite bind_cons, measured_app, Ha. by rewrite (measured_wrapped _ _ _ Ha).
      * intros e He. by rewrite bind_cons, measured_app, He.
Qed.
End walk.

(** DirectorySize answers the wrapped sum of the sizes below the root or the first error in the
    order of the walk, unless its context ended meanwhile. *)
Lemma DirectorySize_exact Env c root w w' r :
  runs Env (DirectorySize c root) w w' r →
  r = directory_size root ∨ ∃ w1 e, rtc Env w w1 ∧ ctx_err c w1 = Some e ∧ r = Err e.
Proof.
  intros Hrun.
  assert (upholds (rtc Env) eq (settled c (rtc Env) w (directory_size root)) (DirectorySize c root) w) as Hu.
  { unfold directory_size, DirectorySize. change 0 with (wrap64 0). destruct root as [d|e].
    - apply walkDir_upholds; [apply _|done].
    - apply upholds_ret; [apply stable_settled; apply _|]. split; [done|by left]. }
  destruct (pool_steps_uphold (rtc Env) eq Env (λ _, settled c (rtc Env) w (directory_size root)) 
              (λ _ _, rtc_once _ _) (λ w1 w2 H, eq_ind w1 (rtc Env w1) (rtc_refl _ _) w2 H) _ _ Hrun) as [_ Hp].
  - intros [|i] p Hi; [|done]. by injection Hi as <-.
  - by destruct (Hp 0%nat (Ret r) eq_refl w' (rtc_refl _ _)) as [_ ?].
Qed.

(** C34: JoinWithin contains what it joins: the path it returns is clean, absolute exactly when the
    root is, and names something strictly below the root by going down only.  It refuses exactly a
    blank root, an empty or absolute path, and a path that cleans to the root itself or goes up. *)
Theorem JoinWithin_contained root relative :
  match JoinWithin root relative with
  | Ok path =>
      join_refusal root relative = None ∧ Clean path = path ∧ IsAbs path = IsAbs root ∧
      ∃ below, below ≠ [] ∧ Forall plain below ∧ cleaned path = cleaned root ++ below ∧
        elements path = root_elements (IsAbs root) ++ cleaned root ++ below
  | Err e => ∃ text, join_refusal root relative = Some text ∧ e = New text
  end.
Proof.
  destruct (JoinWithin_exact root relative) as [-> Hb]. destruct (join_refusal root relative) as [text|]; [by exists text|].
  destruct (Hb eq_refl) as [Hne Hp]. pose proof (normal_app _ _ _ (cleaned_normal root) Hp) as Hn.
  rewrite Clean_path_text, path_text_IsAbs, cleaned_path_text, path_text_elements by (done || by destruct (cleaned root), (cleaned relative)).
  split_and!; [done..|]. by exists (cleaned relative).
Qed.

Example joins_below : JoinWithin "/srv/cache/" "a/./b/../c" = Ok "/srv/cache/a/c".
Proof. vm_compute. reflexivity. Qed.
Example refuses_above : JoinWithin "cache" "a/../../b" = Err (New "path escapes root").
Proof. vm_compute. reflexivity. Qed.
